(* ===== verification/_CoqProject ===== *)
-Q . S2P
Prelude.v
RbTree.v
RbSpec.v
RbRep.v
RbAug.v
RbInsert.v
RbLink.v
RbErase.v
RbUnlink.v
RbIter.v
RbProps.v
RbAugProps.v
ListHead.v
ListRep.v
ListSplice.v
ListIter.v
ListProps.v
Queue.v
Hlist.v
HlistIter.v
Refcount.v
DsoRef.v
RbSearch.v
Rwsem.v
Maps.v
MapsProps.v
Utility.v
DsoData.v
DsoProps.v
Ptrace.v
SymbolElf.v
EhFrame.v
Unwind.v
UnwindProps.v
CString.v
Dsos.v
DsosInv.v
DsosProps.v
DsosPurge.v
Threads.v
ThreadsInv.v
ThreadsRefs.v
ThreadsFind.v
DeadList.v
ThreadsDelete.v
ThreadsInit.v
MapsObj.v
MapsHeld.v
World.v
ThreadsProps.v
Scanf.v
Event.v
EventProps.v
EventTypes.v
Machine.v
MachineInv.v
MachineProps.v
MachineDelete.v
Lifecycle.v
Bpf.v
BpfProps.v
EntryProps.v
Api.v
Pipeline.v
PipelineProps.v
