(* ===== verification/Prelude.v ===== *)
(** Verification of libdw-bcc: the library that resolves the user stacks a BPF
    program samples (registers and a copy of the stack) to call chains.

    ** The program

    A sample carries a register file and some bytes of the user stack
    (src/src/libdw_bpf.h, ptrace.h).  The library keeps a [machine] with a
    table of threads (src/src/machine.c, thread.c); the threads of a group
    share one set of memory maps (src/src/map.c), each map refers to the dso,
    the file, it maps (src/src/dso.c), and a dso serves reads of its file from
    a tree of cached blocks.  To walk the frames, libunwind is given accessors
    (src/src/unwind_libunwind.c): registers come from the sample, memory from
    the sampled stack or through the maps from the mapped files, and the search
    tables from the .eh_frame_hdr section, which src/src/symbol_elf.c finds.
    All containers are the intrusive red-black trees and lists of the Linux
    kernel (src/src/rbtree.c, rbtree_augmented.h, list.h).

    ** How C is modelled

    Imperative code is a function of type [cm S A]: a state monad over a store
    [S] with four outcomes, a result, a fault (access to an object the store
    does not have), a failed assertion, and the end of a loop's fuel.  Stores
    are finite maps from addresses to the words or structs at them, so aliasing
    and dangling pointers are what they are in C.  [wp m Q s] is total
    correctness: no fault, no failed assertion, fuel enough, and [Q] of the
    result.  The typeclass [Store S T] is the interface of a component whose
    state holds a [T] that a library works on: the rules of the red-black tree
    and of the lists are proved once over their own memories and used through
    [lift] by the maps, the block cache, the dso list and the thread table.
    Integers are [Z], reduced where C reduces them ([w64], [w32], [w16],
    [signed]); a pointer is a [Z] and NULL is 0.

    ** The files

    - Prelude: outcomes, the monad, [wp], [Store], tables of objects, machine
      integers, lists without repetition, sorted lists.
    - RbTree: rbtree.h, rbtree_augmented.h, rbtree.c, a definition per
      function over a memory of nodes whose first word holds parent and colour;
      the code that calls back into its user is over the nodes and what the
      callbacks keep.  RbSpec is the functional tree (zippers, the red-black
      invariant, the rebalancing steps), RbRep the representation of a tree by
      a memory, RbAug what callbacks promise (the typeclass [Augmented], with
      the dummy ones and those of RB_DECLARE_CALLBACKS as instances),
      RbInsert, RbLink, RbErase, RbUnlink and RbIter the rules of the code,
      RbProps and RbAugProps their theorems, RbSearch the descent loop that the
      clients write.
    - ListHead, ListRep, ListSplice: the operations of the list_head half of
      list.h; ListIter: its iteration macros, combinators over the body of the
      loop, over any store that holds the lists (the typeclass [Walk] is a
      direction to walk in); ListProps: the theorems.  Hlist, HlistIter: its
      hlist half.  Queue: queue.h, over the same memory.
    - Refcount: refcount.h, its 32-bit arithmetic and, as a step relation, the
      interleavings of threads that drop references.  Rwsem: rwsem.c.
    - DsoRef: dso__get and dso__put.  Maps, MapsProps: map.h and map.c.
    - Utility: vscnprintf, scnprintf, path__join (utility.c), symbol.h.
    - DsoData, DsoProps: opening a dso and reading it through the block cache.
    - CString: strcmp, strncmp, basename.  Dsos, DsosInv, DsosProps: the list
      and the name tree of dsos (dso.c, machine.c); DsosPurge: dsos__purge.
    - Ptrace: ptrace.h and access_reg.  SymbolElf: symbol_elf.c.  EhFrame: the
      decoder of encoded values and of the .eh_frame_hdr header.  Unwind,
      UnwindProps: the other accessors and the walk of the frames.
    - Threads: thread.c and the thread table of machine.c; ThreadsInv its
      invariant and single steps, ThreadsRefs the references to sets of maps,
      ThreadsFind find-or-create, DeadList the dead lists, ThreadsDelete the
      removal of all threads, those that callers hold included, ThreadsInit the set-up, ThreadsProps the theorem.  The threads use the
      maps through the typeclasses MapsOps, MapsLaws (creation and references)
      and MapsPut (giving references back), which MapsObj and MapsHeld (the
      [struct maps] objects of map.c) implement in World, the state of a whole
      machine, and MachineDelete.
    - Scanf: sscanf, the directives the program uses.  Event, EventProps:
      reading the maps file of a process (event.c); EventTypes: reading any file
      in its place.  Machine: the life cycle of the machine (machine.c),
      map__new, and the entry points of event.c over the whole state.  MachineInv: new maps and the sets that hold them over
      the whole state; MachineProps: the invariant of a whole machine and what
      reading a maps file does to it; MachineDelete: machine__delete; Lifecycle:
      machine__init and every sequence of calls up to machine__delete, as a
      transition relation; EntryProps: the entry points that walk the maps of a
      process or the frames of a sample; Api: every sequence of calls of the
      entry points.
    - Bpf, BpfProps: the sampler that runs in the kernel
      (src/bpf/ebpf_get_unwind_ctx.c), over an interface of BPF maps
      ([BpfMaps], [BpfLaws]).
    - Pipeline, PipelineProps: the threads of the parallel example
      (src/examples/syscall_parallel.cc, its Queue of queue.h and the stop flags
      of stoppable.h): a poller, any number of workers and the signal handler as
      the atomic steps of an interleaving, and the invariant of the mutex, the
      condition variable and the queue.

    ** What the theorems show

    - Trees: linking a node where a descent ended and rebalancing, erasing,
      replacing, stepping and walking do on the in-order sequence what their
      names say and keep the red-black invariant; every loop ends; values that
      depend on subtrees stay right.
    - Lists: every operation on the sequence of nodes of the ring, or of the
      hlist; the iteration macros end and run their body on the entries in
      order, also when it takes entries out.  Queues: the macros are the
      operations of list.h; splitting and adding are inverse.
    - Reference counts: every interleaving of drops ends, and none leaves an
      object that nobody was told to destroy; two droppers can both be told to.
    - Maps: lookup is the linear search of the ranges; insertion keeps the order
      and the references; a purge drops each map once; address translation and
      its inverse cancel modulo 2^64.
    - Dso data: a read through the block cache gives the bytes of the file.
    - Dso list: list and name tree hold the same dsos; find-or-create gives one
      object per path.
    - Unwinding: the decoder inverts the encoder and never reads outside its
      buffer; what memory the accessor shows; the table given to libunwind; the
      walk stores the frames of the cursor and stays in the array.
    - Threads: find-or-create keeps the table (sorted buckets, caches, counts,
      one set of maps per group) and returns the right thread; the name of a
      thread never changes.
    - Events: of the lines the kernel prints, exactly the executable ones become
      events, with the fields of the line; from any file at all reading stops
      and the events are well typed.
    - The machine: reading a maps file leaves one new map per executable line in
      the set of the thread, over the dso of its path, and the whole state well
      formed; after machine__init and any such calls nobody holds a reference
      too many, and machine__delete then frees every thread, set and map.
      After machine__init and any calls of the entry points, the next one that
      fits the machine returns and leaves it well formed, and machine__delete
      returns too and leaves the threads that the calls leaked, with their
      sets, maps and references of dsos, and nothing else.  The callback of
      bpf_dl_iterate_phdr sees these maps in order; a call chain is what the
      cursor of libunwind yields.
    - The sampler: what it submits for each event, and that access_mem answers
      from it with the memory of the process.
    - The parallel example: in every interleaving the samples leave the queue in
      the order they entered it, one thread at a time is in the critical
      section, and a queued sample can always be taken; after stop() the workers
      can stay asleep for ever.

    ** Fuel

    A loop over a tree has one more unit than the memory has nodes
    ([rb_fuel]), a loop over a list likewise, cached_read as many as the bytes
    asked for (every turn but the last reads one), step_loop one more than the
    depth, the search of a thread two levels (a thread and its leader), and
    prepare_loop one more than the characters of the file.
    Theorems are stated with [wp], which out-of-fuel does not satisfy, so each
    shows that its fuel is enough.

    ** Parameters

    Code outside src/ is a parameter of the definitions that use it: pthread
    (whose creation and destruction of a lock change nothing else), open,
    fopen, stat, fstat and pread, strdup, libelf, libunwind,
    dwarf_search_unwind_table, the [rbcompute] of an augmented tree, in the
    parallel example which samples are of the traced process, and for
    the sampler the kernel's helpers and bcc's BPF maps.
    Allocation takes addresses from a list of fresh ones; an empty list is the
    assertion of xmalloc.  Offsets of members are those of x86-64: the list
    node of a map is 24 bytes into it, the list node and the rb_node of a dso 40
    and 56.  A struct at an address with members of several kinds is one entry
    in the table of each kind.  The standard library is modelled where the
    source uses it: strings, fgets with the buffer of BUFSIZ (8192) bytes, and
    sscanf with its conversions, where a word or line that does not fit its
    buffer is a fault and a numeral out of range saturates as strtoull does.

    ** Not modelled

    The examples and tests (drivers that attach BPF programs with bcc), except
    for the threads of the parallel one, of which the set-up, the printing of
    symbols and Queue's second pop, which nothing calls, are left out too; the
    build files; stdatomic.h (macros over compiler builtins; the accesses that
    refcount.h makes are the steps of Refcount); the pthread_mutex of a dso
    (taken around one insertion into its tree, which runs in one thread); and
    debug output (compiled out). *)
From Stdlib Require Import ZArith Lia.
From stdpp Require Import base tactics option list numbers gmap sorting.

Local Open Scope Z_scope.

(** * Outcomes of C code *)

(** What running a piece of C can lead to.  [Fault] is an access through a
    pointer that designates no object of the modelled store (undefined
    behaviour in C: a NULL, dangling or wild pointer); [Abort] is a failing
    [assert]; [NoFuel] is the model's own bound on a loop, which no theorem
    ever leaves as a possible result. *)
Inductive outcome (A : Type) : Type :=
  | Ok (a : A)
  | Fault
  | Abort
  | NoFuel.
Arguments Ok {A} a.
Arguments Fault {A}.
Arguments Abort {A}.
Arguments NoFuel {A}.

(** Imperative code over a store of type [S]. *)
Definition cm (S A : Type) : Type := S → outcome (A * S).

#[global] Instance cm_ret S : MRet (cm S) := λ A a s, Ok (a, s).
#[global] Instance cm_bind S : MBind (cm S) := λ A B f m s,
  match m s with
  | Ok (a, s') => f a s'
  | Fault => Fault
  | Abort => Abort
  | NoFuel => NoFuel
  end.

Section primitives.
Context {S : Type}.
Definition c_fault {A} : cm S A := λ _, Fault.
Definition c_abort {A} : cm S A := λ _, Abort.
Definition c_nofuel {A} : cm S A := λ _, NoFuel.
(** [assert(b)] of assert.h, as the build compiles it (NDEBUG unset). *)
Definition c_assert (b : bool) : cm S unit :=
  if b then mret tt else c_abort.
Definition c_get {A} (f : S → A) : cm S A := λ s, Ok (f s, s).
Definition c_modify (f : S → S) : cm S unit := λ s, Ok (tt, f s).
End primitives.

(** ** Total-correctness weakest preconditions

    [wp m Q s]: run from [s], [m] returns (no fault, no abort, fuel left) and
    its result and final store satisfy [Q]. *)
Definition wp {S A} (m : cm S A) (Q : A → S → Prop) (s : S) : Prop :=
  match m s with
  | Ok (a, s') => Q a s'
  | _ => False
  end.

#[global] Arguments wp : simpl never.

Section wp_rules.
Context {S : Type}.
Implicit Types s : S.

Lemma wp_ret {A} (a : A) (Q : A → S → Prop) s : Q a s → wp (mret a) Q s.
Proof. done. Qed.

Lemma wp_bind {A B} (m : cm S A) (f : A → cm S B) (Q : B → S → Prop) s :
  wp m (λ a s', wp (f a) Q s') s → wp (m ≫= f) Q s.
Proof.
  unfold wp, mbind, cm_bind. by destruct (m s) as [[a s']| | |].
Qed.

(** Regroup a sequence, to use a specification of its first two parts. *)
Lemma wp_assoc {A B C} (m : cm S A) (f : A → cm S B) (g : B → cm S C)
    (Q : C → S → Prop) s :
  wp ((m ≫= f) ≫= g) Q s → wp (m ≫= λ a, f a ≫= g) Q s.
Proof. unfold wp, mbind, cm_bind. by destruct (m s) as [[a s']| | |]. Qed.

(** Runs step by step. *)
Lemma bind_ok {A B} (m : cm S A) (f : A → cm S B) s a s' :
  m s = Ok (a, s') → (m ≫= f) s = f a s'.
Proof. unfold mbind, cm_bind. by intros ->. Qed.
Lemma bind_fault {A B} (m : cm S A) (f : A → cm S B) s :
  m s = Fault → (m ≫= f) s = Fault.
Proof. unfold mbind, cm_bind. by intros ->. Qed.

Lemma wp_mono {A} (m : cm S A) (P Q : A → S → Prop) s :
  wp m P s → (∀ a s', P a s' → Q a s') → wp m Q s.
Proof. unfold wp. destruct (m s) as [[a s']| | |]; naive_solver. Qed.

Lemma wp_run_eq {A} (m m' : cm S A) (Q : A → S → Prop) s : m s = m' s → wp m' Q s → wp m Q s.
Proof. unfold wp. by intros ->. Qed.

Lemma wp_elim {A} (m : cm S A) (Q : A → S → Prop) s :
  wp m Q s → ∃ a s', m s = Ok (a, s') ∧ Q a s'.
Proof. unfold wp. destruct (m s) as [[a s']| | |]; naive_solver. Qed.

Lemma wp_get {A} (f : S → A) (Q : A → S → Prop) s : Q (f s) s → wp (c_get f) Q s.
Proof. done. Qed.

Lemma wp_modify (f : S → S) (Q : unit → S → Prop) s : Q tt (f s) → wp (c_modify f) Q s.
Proof. done. Qed.

Lemma wp_assert (b : bool) (Q : unit → S → Prop) s :
  b = true → Q tt s → wp (c_assert b) Q s.
Proof. by intros ->. Qed.
End wp_rules.

Create HintDb cwp.

(** One step of symbolic execution: push [wp] through a bind, close a
    return. *)
Ltac wp_bind := apply wp_bind.
Ltac wp_ret := apply wp_ret.

(** * Stores inside stores

    [Store S T] is the interface between a library that works on a store [T]
    (a tree, a memory of list nodes, a table of objects) and a component whose
    state [S] holds one: the component promises to read and replace that part
    and nothing else.  [lift] runs the library's code on that part. *)
Class Store (S T : Type) := {
  part : S → T;
  with_part : T → S → S;
  part_with : ∀ t s, part (with_part t s) = t;
  with_part_id : ∀ s, with_part (part s) s = s;
  with_part_twice : ∀ t t' s, with_part t (with_part t' s) = with_part t s;
}.

Definition lift {S T A} `{Store S T} (m : cm T A) : cm S A := λ s,
  match m (part s) with
  | Ok (a, t) => Ok (a, with_part t s)
  | Fault => Fault
  | Abort => Abort
  | NoFuel => NoFuel
  end.

(** A store inside a store inside a store. *)
Definition store_compose {S T U} (i : Store S T) (j : Store T U) : Store S U.
Proof.
  refine {| part s := part (part s); with_part u s := with_part (with_part u (part s)) s |}.
  - intros u s. by rewrite !part_with.
  - intros s. by rewrite !with_part_id.
  - intros u u' s. by rewrite part_with, !with_part_twice.
Defined.

Section lift.
Context {S T : Type} `{Store S T} {A : Type}.

Lemma wp_lift (m : cm T A) (Q : A → S → Prop) (s : S) :
  wp m (λ a t, Q a (with_part t s)) (part s) → wp (lift m) Q s.
Proof. unfold wp, lift. by destruct (m (part s)) as [[a r]| | |]. Qed.

(** A read-only run leaves the store alone. *)
Lemma wp_lift_pure (m : cm T A) (P : A → Prop) (Q : A → S → Prop) (s : S) :
  wp m (λ a t, P a ∧ t = part s) (part s) → (∀ a, P a → Q a s) → wp (lift m) Q s.
Proof.
  intros Hm HQ. apply wp_lift. eapply wp_mono; [exact Hm|].
  intros a r [Ha ->]. rewrite with_part_id. auto.
Qed.
End lift.

(** A part of a part. *)
Definition store_trans {S T U} (H1 : Store S T) (H2 : Store T U) : Store S U.
Proof.
  refine {| part s := part (part s : T); with_part u s := with_part (with_part u (part s)) s |}.
  - intros u s. by rewrite !part_with.
  - intros s. by rewrite !with_part_id.
  - intros u v s. by rewrite part_with, !with_part_twice.
Defined.

(** The null pointer, and tables of the objects of one C struct by address. *)
Definition NULL : Z := 0.

Section objects.
Context {V : Type}.

Definition obj_load (a : Z) : cm (gmap Z V) V := λ m,
  if a =? NULL then Fault
  else match m !! a with Some v => Ok (v, m) | None => Fault end.
Definition obj_store (a : Z) (f : V → V) : cm (gmap Z V) unit := λ m,
  if a =? NULL then Fault
  else match m !! a with Some v => Ok (tt, <[a := f v]> m) | None => Fault end.

Lemma wp_obj_load a v m (Q : V → gmap Z V → Prop) :
  a ≠ NULL → m !! a = Some v → Q v m → wp (obj_load a) Q m.
Proof.
  intros Ha Hm HQ. unfold wp, obj_load. by rewrite (proj2 (Z.eqb_neq _ _) Ha), Hm.
Qed.
Lemma wp_obj_store a f v m (Q : unit → gmap Z V → Prop) :
  a ≠ NULL → m !! a = Some v → Q tt (<[a := f v]> m) → wp (obj_store a f) Q m.
Proof.
  intros Ha Hm HQ. unfold wp, obj_store. by rewrite (proj2 (Z.eqb_neq _ _) Ha), Hm.
Qed.
End objects.

(** * Machine integers *)

(** Values of the fixed-width types of types.h, as [Z] reduced by hand where
    the C conversions reduce them. *)
Definition w8 (z : Z) : Z := z mod 2 ^ 8.
Definition w16 (z : Z) : Z := z mod 2 ^ 16.
Definition w32 (z : Z) : Z := z mod 2 ^ 32.
Definition w64 (z : Z) : Z := z mod 2 ^ 64.
(** Reinterpretation of the low [n] bits as a two's complement value. *)
Definition signed (n : Z) (z : Z) : Z :=
  let u := z mod 2 ^ n in if u <? 2 ^ (n - 1) then u else u - 2 ^ n.

(** errno.h *)
Definition EINVAL : Z := 22.
Definition ENOMEM : Z := 12.

Definition is_u32 (z : Z) : Prop := 0 ≤ z < 2 ^ 32.
Definition is_u64 (z : Z) : Prop := 0 ≤ z < 2 ^ 64.

Lemma w64_range z : is_u64 (w64 z).
Proof. unfold is_u64, w64. apply Z.mod_pos_bound. lia. Qed.

Lemma w64_small z : is_u64 z → w64 z = z.
Proof. unfold is_u64, w64. intros. by apply Z.mod_small. Qed.

Lemma w32_range z : is_u32 (w32 z).
Proof. unfold is_u32, w32. apply Z.mod_pos_bound. lia. Qed.

Lemma w32_small z : is_u32 z → w32 z = z.
Proof. unfold is_u32, w32. intros. by apply Z.mod_small. Qed.

(** * Lists without repetition

    [disj] is disjointness of two lists; the rewrite base [nodup] turns
    [NoDup] of a concatenation into the atomic facts the pointer proofs
    use. *)
Definition disj {A} (l k : list A) : Prop := ∀ x, x ∈ l → x ∉ k.

Section disj.
Context {A : Type}.
Implicit Types (l k : list A) (x : A).

Lemma disj_nil_l k : disj [] k ↔ True.
Proof. unfold disj. set_solver. Qed.
Lemma disj_nil_r l : disj l [] ↔ True.
Proof. unfold disj. set_solver. Qed.
Lemma disj_cons_l x l k : (disj (x :: l) k) ↔ (x ∉ k) ∧ disj l k.
Proof. unfold disj. set_solver. Qed.
Lemma disj_cons_r x l k : disj l (x :: k) ↔ (x ∉ l) ∧ disj l k.
Proof. unfold disj. set_solver. Qed.
Lemma disj_app_l l1 l2 k :
  disj (l1 ++ l2) k ↔ (disj l1 k) ∧ (disj l2 k).
Proof. unfold disj. set_solver. Qed.
Lemma disj_app_r l k1 k2 : disj l (k1 ++ k2) ↔ disj l k1 ∧ disj l k2.
Proof. unfold disj. set_solver. Qed.
Lemma notin_pair x y z : x ≠ y → x ≠ z → x ∉ [y; z].
Proof. set_solver. Qed.
Lemma disj_pair_r l y z : y ∉ l → z ∉ l → disj l [y; z].
Proof. unfold disj. set_solver. Qed.
Lemma disj_sym l k : disj l k → disj k l.
Proof. unfold disj. set_solver. Qed.
Lemma NoDup_app_disj l k : NoDup (l ++ k) ↔ NoDup l ∧ disj l k ∧ NoDup k.
Proof. apply NoDup_app. Qed.
Lemma NoDup_nil_True : @NoDup A [] ↔ True.
Proof. split; [done|]. constructor. Qed.
Lemma not_elem_of_nil_True x : x ∉ ([] : list A) ↔ True.
Proof. split; [done|]. intros _ H. by apply not_elem_of_nil in H. Qed.
End disj.

Create Rewrite HintDb nodup.
#[export] Hint Rewrite @disj_nil_l @disj_nil_r @disj_cons_l @disj_cons_r
  @disj_app_l @disj_app_r @NoDup_app_disj @NoDup_cons @NoDup_nil_True
  @not_elem_of_cons @not_elem_of_app @not_elem_of_nil_True @app_nil_r : nodup.

(** Flatten every [NoDup]/[disj]/[∉] hypothesis into atomic facts. *)
Ltac nodup_simp :=
  repeat match goal with
  | H : NoDup (_ :: _) |- _ => progress autorewrite with nodup in H
  | H : NoDup (_ ++ _) |- _ => progress autorewrite with nodup in H
  | H : disj (_ :: _) _ |- _ => progress autorewrite with nodup in H
  | H : disj (_ ++ _) _ |- _ => progress autorewrite with nodup in H
  | H : disj _ (_ :: _) |- _ => progress autorewrite with nodup in H
  | H : disj _ (_ ++ _) |- _ => progress autorewrite with nodup in H
  | H : _ ∉ _ :: _ |- _ => progress autorewrite with nodup in H
  | H : _ ∉ _ ++ _ |- _ => progress autorewrite with nodup in H
  | H : _ ∧ _ |- _ => destruct H
  end.

(** Close a goal that is a conjunction of atomic disjointness facts. *)
Ltac nodup_atom :=
  first [ exact I | assumption | apply not_eq_sym; assumption
        | apply disj_sym; assumption ].
Ltac nodup_done :=
  first
    [ nodup_atom
    | apply notin_pair; [nodup_atom|nodup_atom]
    | apply disj_pair_r; [nodup_atom|nodup_atom]
    | autorewrite with nodup;
      repeat match goal with |- _ ∧ _ => split end; nodup_atom ].

(** Inclusion of concatenations of the same lists. *)
Ltac elem_solve :=
  let x := fresh "x" in
  intros x; clear; simpl; rewrite ?elem_of_app, ?elem_of_cons, ?elem_of_nil;
  repeat (rewrite ?elem_of_app, ?elem_of_cons, ?elem_of_nil); tauto.

(** Non-membership of concatenations from the non-membership [H]. *)
Ltac notin_from H :=
  repeat first [rewrite elem_of_cons in H | rewrite elem_of_app in H
               | rewrite elem_of_nil in H];
  repeat first [rewrite elem_of_cons | rewrite elem_of_app | rewrite elem_of_nil];
  intuition (subst; auto).

(** An element occurs at one place of a list without repetition. *)
Lemma NoDup_pivot {A} (l1 l2 k1 k2 : list A) (a : A) :
  l1 ++ a :: l2 = k1 ++ a :: k2 → NoDup (l1 ++ a :: l2) → l1 = k1 ∧ l2 = k2.
Proof.
  intros Hs Hn. pose proof Hn as Hn'. rewrite Hs in Hn'.
  apply NoDup_app in Hn as (_ & Hd & _), Hn' as (_ & Hd' & _).
  apply not_elem_of_app_cons_inv_l in Hs as (-> & _ & ->); [done|..].
  - intros Hx. apply (Hd' a Hx). left.
  - intros Hx. apply (Hd a Hx). left.
Qed.

Lemma filter_all {A} (P : A → Prop) `{!∀ x, Decision (P x)} (l : list A) :
  (∀ x, x ∈ l → P x) → filter P l = l.
Proof.
  induction l as [|a l IH]; intros Hl; [done|].
  rewrite filter_cons_True by (apply Hl; left). f_equal. apply IH. intros. apply Hl. by right.
Qed.

(** * Sorted lists *)

Lemma sorted_mid {A} (R : A → A → Prop) (l1 l2 : list A) (a : A) :
  StronglySorted R (l1 ++ l2) → Forall (λ x, R x a) l1 → Forall (R a) l2 →
  StronglySorted R (l1 ++ a :: l2).
Proof.
  intros (Hc & H1 & H2)%StronglySorted_app Hl Hr. rewrite Forall_forall in Hl.
  apply StronglySorted_app. split_and!; [|done|by constructor].
  intros x y Hx [->|Hy]%elem_of_cons; [by apply Hl|by apply Hc].
Qed.

Lemma sorted_impl {A} (R R' : A → A → Prop) (l : list A) :
  (∀ x y, x ∈ l → y ∈ l → R x y → R' x y) → StronglySorted R l → StronglySorted R' l.
Proof.
  intros HR Hs. induction Hs as [|a l Hs IH Hf]; constructor.
  - apply IH. intros x y Hx Hy. apply HR; by right.
  - rewrite Forall_forall in *. intros x Hx. apply HR; [left|by right|by apply Hf].
Qed.

(** * Finite maps *)

(** Normalise a lookup in a chain of updates, discharging address
    inequalities from the context. *)
Ltac lk_rw :=
  repeat first
    [ rewrite lookup_insert_eq
    | rewrite lookup_insert_ne by
        (first [ assumption | apply not_eq_sym; assumption ]) ].
Ltac lk := lk_rw; first [ eassumption | reflexivity ].
