(* ===== verification/RbTree.v ===== *)
(** Red-black trees, the pointer code: src/src/rbtree.h,
    src/src/rbtree_augmented.h and src/src/rbtree.c.

    The memory of the [struct rb_node]s is a finite map from addresses to
    records with the three fields of the C struct; the parent pointer and the
    colour share the word [rb_parent_color], packed and unpacked by the bit
    operations of the macros.  A [struct rb_root] is the one word
    [rb_root_node].  Every function of the three files is one definition
    here; a pointer is dereferenced by [load]/[store], which fault on NULL
    and on an address that holds no node. *)
From Stdlib Require Import ZArith Lia.
From stdpp Require Import base tactics option list numbers gmap.
From S2P Require Import Prelude.

Local Open Scope Z_scope.

(** ** Data (rbtree.h) *)

Record rb_node := RbNode {
  rb_parent_color : Z;
  rb_right : Z;
  rb_left : Z;
}.

Record rb_state := RbState {
  rb_mem : gmap Z rb_node;
  rb_root_node : Z;
}.

(** [RB_RED], [RB_BLACK]. *)
Definition RB_RED : Z := 0.
Definition RB_BLACK : Z := 1.

(** The mask [~3] converted to [unsigned long]. *)
Definition ptr_mask : Z := w64 (Z.lnot 3).

Definition __rb_parent (pc : Z) : Z := Z.land pc ptr_mask.
Definition __rb_color (pc : Z) : Z := Z.land pc 1.
Definition __rb_is_black (pc : Z) : bool := negb (__rb_color pc =? 0).
Definition __rb_is_red (pc : Z) : bool := __rb_color pc =? 0.

(** ** Memory accesses *)

Abbreviation rbm := (cm rb_state).

Definition load (a : Z) : rbm rb_node := λ s,
  if a =? NULL then Fault
  else match rb_mem s !! a with
       | Some n => Ok (n, s)
       | None => Fault
       end.

Definition store (a : Z) (f : rb_node → rb_node) : rbm unit := λ s,
  if a =? NULL then Fault
  else match rb_mem s !! a with
       | Some n => Ok (tt, RbState (<[a := f n]> (rb_mem s)) (rb_root_node s))
       | None => Fault
       end.

Definition get_pc (a : Z) : rbm Z := n ← load a; mret (rb_parent_color n).
Definition get_right (a : Z) : rbm Z := n ← load a; mret (rb_right n).
Definition get_left (a : Z) : rbm Z := n ← load a; mret (rb_left n).
Definition set_pc (a v : Z) : rbm unit :=
  store a (λ n, RbNode v (rb_right n) (rb_left n)).
Definition set_right (a v : Z) : rbm unit :=
  store a (λ n, RbNode (rb_parent_color n) v (rb_left n)).
Definition set_left (a v : Z) : rbm unit :=
  store a (λ n, RbNode (rb_parent_color n) (rb_right n) v).

Definition get_root : rbm Z := c_get rb_root_node.
Definition set_root (v : Z) : rbm unit :=
  c_modify (λ s, RbState (rb_mem s) v).

(** ** Accessors of rbtree.h and rbtree_augmented.h *)

Definition rb_parent (r : Z) : rbm Z := pc ← get_pc r; mret (__rb_parent pc).
Definition rb_color (rb : Z) : rbm Z := pc ← get_pc rb; mret (__rb_color pc).
Definition rb_is_red (rb : Z) : rbm bool :=
  pc ← get_pc rb; mret (__rb_is_red pc).
Definition rb_is_black (rb : Z) : rbm bool :=
  pc ← get_pc rb; mret (__rb_is_black pc).

Definition rb_set_parent (rb p : Z) : rbm unit :=
  c ← rb_color rb; set_pc rb (Z.lor c p).

Definition rb_set_parent_color (rb p color : Z) : rbm unit :=
  set_pc rb (Z.lor p color).

Definition RB_EMPTY_NODE (node : Z) : rbm bool :=
  pc ← get_pc node; mret (pc =? node).
Definition RB_CLEAR_NODE (node : Z) : rbm unit := set_pc node node.
Definition RB_EMPTY_ROOT : rbm bool := r ← get_root; mret (r =? NULL).

Definition __rb_change_child (old new parent : Z) : rbm unit :=
  if negb (parent =? NULL) then
    l ← get_left parent;
    if l =? old then set_left parent new else set_right parent new
  else set_root new.

(** The [struct rb_node **] that insertion cores pass: the root word or a
    child field of a node. *)
Inductive rb_slot := SRoot | SLeft (a : Z) | SRight (a : Z).

Definition get_slot (p : rb_slot) : rbm Z :=
  match p with
  | SRoot => get_root
  | SLeft a => get_left a
  | SRight a => get_right a
  end.

Definition set_slot (p : rb_slot) (v : Z) : rbm unit :=
  match p with
  | SRoot => set_root v
  | SLeft a => set_left a v
  | SRight a => set_right a v
  end.

Definition rb_link_node (node parent : Z) (rb_link : rb_slot) : rbm unit :=
  set_pc node parent;;
  set_right node NULL;;
  set_left node NULL;;
  set_slot rb_link node.

(** ** Insertion (rbtree.c) *)

Definition rb_set_black (rb : Z) : rbm unit :=
  pc ← get_pc rb; set_pc rb (Z.lor pc RB_BLACK).

(** The raw word of a red node, whose colour bit is 0. *)
Definition rb_red_parent (red : Z) : rbm Z := get_pc red.

Definition __rb_rotate_set_parents (old new color : Z) : rbm unit :=
  parent ← rb_parent old;
  pc ← get_pc old;
  set_pc new pc;;
  rb_set_parent_color old new color;;
  __rb_change_child old new parent.

(** [tmp && rb_is_red(tmp)] and [!tmp || rb_is_black(tmp)]. *)
Definition and_red (tmp : Z) : rbm bool :=
  if tmp =? NULL then mret false else rb_is_red tmp.
Definition null_or_black (tmp : Z) : rbm bool :=
  if tmp =? NULL then mret true else rb_is_black tmp.
(** [if (tmp) rb_set_parent_color(tmp, p, c)] *)
Definition when_set_parent_color (tmp p c : Z) : rbm unit :=
  if tmp =? NULL then mret tt else rb_set_parent_color tmp p c.
Definition when_set_parent (tmp p : Z) : rbm unit :=
  if tmp =? NULL then mret tt else rb_set_parent tmp p.

(** The rebalancing code calls back into its user, who keeps a value in each
    node that depends on the node's subtree.  [X] is what the callbacks work
    on beside the nodes; the code itself reaches the nodes through [lift]. *)
#[export] Instance aug_store {X} : Store (rb_state * X) rb_state.
Proof.
  refine {| part := fst; with_part t s := (t, snd s) |}; try done; by intros [].
Defined.

Abbreviation arbm X := (cm (rb_state * X)).

(** [struct rb_augment_callbacks] *)
Record rb_augment_callbacks (X : Type) := RbAugmentCallbacks {
  propagate : Z → Z → arbm X unit;
  copy : Z → Z → arbm X unit;
  rotate : Z → Z → arbm X unit;
}.
Arguments RbAugmentCallbacks {X}.
Arguments propagate {X}.
Arguments copy {X}.
Arguments rotate {X}.

(** The loops go up or down the tree, so the number of nodes in memory plus
    one bounds their iterations; the theorems of RbInsert.v, RbErase.v and
    RbIter.v show that it is enough. *)
Definition rb_fuel (s : rb_state) : nat := S (size (rb_mem s)).
Definition with_fuel {A} (f : nat → rbm A) : rbm A := λ s, f (rb_fuel s) s.
Definition with_afuel {X A} (f : nat → arbm X A) : arbm X A :=
  λ s, f (rb_fuel (fst s)) s.

Section augmented.
Context {X : Type}.
Local Abbreviation arbm := (cm (rb_state * X)).
(** The [augment_rotate] callback. *)
Variable augment_rotate : Z → Z → arbm unit.

(** The [while (true)] of __rb_insert; [fuel] bounds its iterations. *)
Fixpoint __rb_insert_loop (fuel : nat) (node parent : Z) : arbm unit :=
  match fuel with
  | O => c_nofuel
  | S fuel =>
    if parent =? NULL then lift (rb_set_parent_color node NULL RB_BLACK) else
    pb ← lift (rb_is_black parent);
    if (pb : bool) then mret tt else
    gparent ← lift (rb_red_parent parent);
    tmp ← lift (get_right gparent);
    if negb (parent =? tmp) then
      ured ← lift (and_red tmp);
      if (ured : bool) then
        (* Case 1 - color flips *)
        lift (rb_set_parent_color tmp gparent RB_BLACK);;
        lift (rb_set_parent_color parent gparent RB_BLACK);;
        parent' ← lift (rb_parent gparent);
        lift (rb_set_parent_color gparent parent' RB_RED);;
        __rb_insert_loop fuel gparent parent'
      else
        tmp ← lift (get_right parent);
        '(parent, tmp) ←
          (if node =? tmp then
             (* Case 2 - left rotate at parent *)
             tmp ← lift (get_left node);
             lift (set_right parent tmp);;
             lift (set_left node parent);;
             lift (when_set_parent_color tmp parent RB_BLACK);;
             lift (rb_set_parent_color parent node RB_RED);;
             augment_rotate parent node;;
             tmp ← lift (get_right node);
             mret (node, tmp)
           else mret (parent, tmp));
        (* Case 3 - right rotate at gparent *)
        lift (set_left gparent tmp);;
        lift (set_right parent gparent);;
        lift (when_set_parent_color tmp gparent RB_BLACK);;
        lift (__rb_rotate_set_parents gparent parent RB_RED);;
        augment_rotate gparent parent
    else
      tmp ← lift (get_left gparent);
      ured ← lift (and_red tmp);
      if (ured : bool) then
        (* Case 1 - color flips *)
        lift (rb_set_parent_color tmp gparent RB_BLACK);;
        lift (rb_set_parent_color parent gparent RB_BLACK);;
        parent' ← lift (rb_parent gparent);
        lift (rb_set_parent_color gparent parent' RB_RED);;
        __rb_insert_loop fuel gparent parent'
      else
        tmp ← lift (get_left parent);
        '(parent, tmp) ←
          (if node =? tmp then
             (* Case 2 - right rotate at parent *)
             tmp ← lift (get_right node);
             lift (set_left parent tmp);;
             lift (set_right node parent);;
             lift (when_set_parent_color tmp parent RB_BLACK);;
             lift (rb_set_parent_color parent node RB_RED);;
             augment_rotate parent node;;
             tmp ← lift (get_left node);
             mret (node, tmp)
           else mret (parent, tmp));
        (* Case 3 - left rotate at gparent *)
        lift (set_right gparent tmp);;
        lift (set_left parent gparent);;
        lift (when_set_parent_color tmp gparent RB_BLACK);;
        lift (__rb_rotate_set_parents gparent parent RB_RED);;
        augment_rotate gparent parent
  end.

Definition __rb_insert (node : Z) : arbm unit :=
  with_afuel (λ fuel,
    parent ← lift (rb_red_parent node);
    __rb_insert_loop fuel node parent).

(** ** Rebalancing after erasure (rbtree.c) *)

(** Case 4 - left rotate at parent + color flips: the code that both
    outcomes of [if (!tmp1 || rb_is_black(tmp1))] reach (rbtree.c:287-307),
    and its mirror image (rbtree.c:348-357). *)
Definition erase_color_case4l (parent sibling tmp1 : Z) : arbm unit :=
  tmp2 ← lift (get_left sibling);
  lift (set_right parent tmp2);;
  lift (set_left sibling parent);;
  lift (rb_set_parent_color tmp1 sibling RB_BLACK);;
  lift (when_set_parent tmp2 parent);;
  lift (__rb_rotate_set_parents parent sibling RB_BLACK);;
  augment_rotate parent sibling.

Definition erase_color_case4r (parent sibling tmp1 : Z) : arbm unit :=
  tmp2 ← lift (get_right sibling);
  lift (set_left parent tmp2);;
  lift (set_right sibling parent);;
  lift (rb_set_parent_color tmp1 sibling RB_BLACK);;
  lift (when_set_parent tmp2 parent);;
  lift (__rb_rotate_set_parents parent sibling RB_BLACK);;
  augment_rotate parent sibling.

(** The loop body once the sibling is black (rbtree.c:234-307 and
    320-357); [continue] is the jump back to the head of the loop with a new
    [node] and [parent]. *)
Definition erase_color_black_l (continue : Z → Z → arbm unit)
    (parent sibling : Z) : arbm unit :=
  tmp1 ← lift (get_right sibling);
  b1 ← lift (null_or_black tmp1);
  if (b1 : bool) then
    tmp2 ← lift (get_left sibling);
    b2 ← lift (null_or_black tmp2);
    if (b2 : bool) then
      (* Case 2 - sibling color flip *)
      lift (rb_set_parent_color sibling parent RB_RED);;
      pred ← lift (rb_is_red parent);
      if (pred : bool) then lift (rb_set_black parent)
      else
        parent' ← lift (rb_parent parent);
        if negb (parent' =? NULL) then continue parent parent' else mret tt
    else
      (* Case 3 - right rotate at sibling *)
      tmp1 ← lift (get_right tmp2);
      lift (set_left sibling tmp1);;
      lift (set_right tmp2 sibling);;
      lift (set_right parent tmp2);;
      lift (when_set_parent_color tmp1 sibling RB_BLACK);;
      augment_rotate sibling tmp2;;
      erase_color_case4l parent tmp2 sibling
  else erase_color_case4l parent sibling tmp1.

Definition erase_color_black_r (continue : Z → Z → arbm unit)
    (parent sibling : Z) : arbm unit :=
  tmp1 ← lift (get_left sibling);
  b1 ← lift (null_or_black tmp1);
  if (b1 : bool) then
    tmp2 ← lift (get_right sibling);
    b2 ← lift (null_or_black tmp2);
    if (b2 : bool) then
      (* Case 2 - sibling color flip *)
      lift (rb_set_parent_color sibling parent RB_RED);;
      pred ← lift (rb_is_red parent);
      if (pred : bool) then lift (rb_set_black parent)
      else
        parent' ← lift (rb_parent parent);
        if negb (parent' =? NULL) then continue parent parent' else mret tt
    else
      (* Case 3 - left rotate at sibling *)
      tmp1 ← lift (get_left tmp2);
      lift (set_right sibling tmp1);;
      lift (set_left tmp2 sibling);;
      lift (set_left parent tmp2);;
      lift (when_set_parent_color tmp1 sibling RB_BLACK);;
      augment_rotate sibling tmp2;;
      erase_color_case4r parent tmp2 sibling
  else erase_color_case4r parent sibling tmp1.

(** The [while (true)] of ____rb_erase_color. *)
Fixpoint ____rb_erase_color_loop (fuel : nat) (node parent : Z) : arbm unit :=
  match fuel with
  | O => c_nofuel
  | S fuel =>
    sibling ← lift (get_right parent);
    if negb (node =? sibling) then
      sred ← lift (rb_is_red sibling);
      sibling ←
        (if (sred : bool) then
           (* Case 1 - left rotate at parent *)
           tmp1 ← lift (get_left sibling);
           lift (set_right parent tmp1);;
           lift (set_left sibling parent);;
           lift (rb_set_parent_color tmp1 parent RB_BLACK);;
           lift (__rb_rotate_set_parents parent sibling RB_RED);;
           augment_rotate parent sibling;;
           mret tmp1
         else mret sibling);
      erase_color_black_l (____rb_erase_color_loop fuel) parent sibling
    else
      sibling ← lift (get_left parent);
      sred ← lift (rb_is_red sibling);
      sibling ←
        (if (sred : bool) then
           (* Case 1 - right rotate at parent *)
           tmp1 ← lift (get_right sibling);
           lift (set_left parent tmp1);;
           lift (set_right sibling parent);;
           lift (rb_set_parent_color tmp1 parent RB_BLACK);;
           lift (__rb_rotate_set_parents parent sibling RB_RED);;
           augment_rotate parent sibling;;
           mret tmp1
         else mret sibling);
      erase_color_black_r (____rb_erase_color_loop fuel) parent sibling
  end.

Definition ____rb_erase_color (parent : Z) : arbm unit :=
  with_afuel (λ fuel, ____rb_erase_color_loop fuel NULL parent).
End augmented.

(** The entry points with the callback of the caller. *)
Definition __rb_insert_augmented {X} (node : Z)
    (augment_rotate : Z → Z → arbm X unit) : arbm X unit :=
  __rb_insert augment_rotate node.
Definition __rb_erase_color {X} (parent : Z)
    (augment_rotate : Z → Z → arbm X unit) : arbm X unit :=
  ____rb_erase_color augment_rotate parent.
Definition rb_insert_augmented {X} (node : Z) (augment : rb_augment_callbacks X)
    : arbm X unit :=
  __rb_insert_augmented node (rotate augment).

(** The callbacks of the trees without such values, and code with them run
    on the nodes alone. *)
Definition dummy_propagate (node stop : Z) : arbm unit unit := mret tt.
Definition dummy_copy (old new : Z) : arbm unit unit := mret tt.
Definition dummy_rotate (old new : Z) : arbm unit unit := mret tt.
Definition dummy_callbacks : rb_augment_callbacks unit :=
  RbAugmentCallbacks dummy_propagate dummy_copy dummy_rotate.

Definition plain {A} (m : arbm unit A) : rbm A := λ s,
  match m (s, tt) with
  | Ok (a, (s', _)) => Ok (a, s')
  | Fault => Fault
  | Abort => Abort
  | NoFuel => NoFuel
  end.

Definition rb_insert_color (node : Z) : rbm unit :=
  plain (__rb_insert dummy_rotate node).

(** ** Unlinking (rbtree_augmented.h) *)

(** [do { parent = successor; successor = tmp; tmp = tmp->rb_left; }
    while (tmp)]: the leftmost node and its parent. *)
Fixpoint leftmost_loop (fuel : nat) (successor tmp : Z) : rbm (Z * Z) :=
  match fuel with
  | O => c_nofuel
  | S fuel =>
    tmp' ← get_left tmp;
    if negb (tmp' =? NULL) then leftmost_loop fuel tmp tmp'
    else mret (successor, tmp)
  end.

Definition __rb_erase_augmented {X} (node : Z) (augment : rb_augment_callbacks X)
    : arbm X Z :=
  child ← lift (get_right node);
  tmp ← lift (get_left node);
  if tmp =? NULL then
    (* Case 1: node to erase has no more than 1 child (easy!) *)
    pc ← lift (get_pc node);
    let parent := __rb_parent pc in
    lift (__rb_change_child node child parent);;
    rebalance ←
      (if negb (child =? NULL) then
         lift (set_pc child pc);; mret NULL
       else mret (if __rb_is_black pc then parent else NULL));
    propagate augment parent NULL;;
    mret rebalance
  else if child =? NULL then
    (* Still case 1, but this time the child is node->rb_left *)
    pc ← lift (get_pc node);
    lift (set_pc tmp pc);;
    let parent := __rb_parent pc in
    lift (__rb_change_child node tmp parent);;
    propagate augment parent NULL;;
    mret NULL
  else
    tmp ← lift (get_left child);
    '(successor, parent, child2) ←
      (if tmp =? NULL then
         (* Case 2: node's successor is its right child *)
         child2 ← lift (get_right child);
         copy augment node child;;
         mret (child, child, child2)
       else
         (* Case 3: node's successor is leftmost under its right child *)
         '(parent, successor) ← lift (with_fuel (λ fuel, leftmost_loop fuel child tmp));
         child2 ← lift (get_right successor);
         lift (set_left parent child2);;
         lift (set_right successor child);;
         lift (rb_set_parent child successor);;
         copy augment node successor;;
         propagate augment parent successor;;
         mret (successor, parent, child2));
    tmp ← lift (get_left node);
    lift (set_left successor tmp);;
    lift (rb_set_parent tmp successor);;
    pc ← lift (get_pc node);
    lift (__rb_change_child node successor (__rb_parent pc));;
    rebalance ←
      (if negb (child2 =? NULL) then
         lift (set_pc successor pc);;
         lift (rb_set_parent_color child2 parent RB_BLACK);;
         mret NULL
       else
         pc2 ← lift (get_pc successor);
         lift (set_pc successor pc);;
         mret (if __rb_is_black pc2 then parent else NULL));
    propagate augment successor NULL;;
    mret rebalance.
Definition rb_erase_augmented {X} (node : Z) (augment : rb_augment_callbacks X)
    : arbm X unit :=
  rebalance ← __rb_erase_augmented node augment;
  if negb (rebalance =? NULL)
  then __rb_erase_color rebalance (rotate augment)
  else mret tt.

Definition rb_erase (node : Z) : rbm unit :=
  plain (
    rebalance ← __rb_erase_augmented node dummy_callbacks;
    if negb (rebalance =? NULL)
    then ____rb_erase_color dummy_rotate rebalance
    else mret tt).

(** ** Values kept in the nodes (RB_DECLARE_CALLBACKS)

    The field [rbaugmented] of each struct, by the address of its node, and
    the user's [rbcompute]; [rb_entry] is the identity on these addresses. *)
Section declare_callbacks.
Abbreviation augm := (cm (rb_state * gmap Z Z)).
Variable rbcompute : Z → augm Z.

Definition get_aug (a : Z) : augm Z := λ s,
  if a =? NULL then Fault
  else match snd s !! a with Some v => Ok (v, s) | None => Fault end.
Definition set_aug (a v : Z) : augm unit := λ s,
  if a =? NULL then Fault
  else match snd s !! a with
       | Some _ => Ok (tt, (fst s, <[a := v]> (snd s)))
       | None => Fault
       end.

Fixpoint aug_propagate_loop (fuel : nat) (rb stop : Z) : augm unit :=
  match fuel with
  | O => c_nofuel
  | S fuel =>
    if rb =? stop then mret tt else
    augmented ← rbcompute rb;
    v ← get_aug rb;
    if v =? augmented then mret tt else
    set_aug rb augmented;;
    rb ← lift (rb_parent rb);
    aug_propagate_loop fuel rb stop
  end.

Definition aug_propagate (rb stop : Z) : augm unit :=
  with_afuel (λ fuel, aug_propagate_loop fuel rb stop).

Definition aug_copy (rb_old rb_new : Z) : augm unit :=
  v ← get_aug rb_old; set_aug rb_new v.

Definition aug_rotate (rb_old rb_new : Z) : augm unit :=
  v ← get_aug rb_old;
  set_aug rb_new v;;
  v ← rbcompute rb_old;
  set_aug rb_old v.

Definition RB_DECLARE_CALLBACKS : rb_augment_callbacks (gmap Z Z) :=
  RbAugmentCallbacks aug_propagate aug_copy aug_rotate.
End declare_callbacks.

Definition rb_erase_init (n : Z) : rbm unit :=
  rb_erase n;; RB_CLEAR_NODE n.

(** ** Traversal (rbtree.c) *)

(** [while (n->rb_left) n = n->rb_left;] and its mirror image. *)
Fixpoint go_left (fuel : nat) (n : Z) : rbm Z :=
  match fuel with
  | O => c_nofuel
  | S fuel =>
    l ← get_left n;
    if negb (l =? NULL) then go_left fuel l else mret n
  end.

Fixpoint go_right (fuel : nat) (n : Z) : rbm Z :=
  match fuel with
  | O => c_nofuel
  | S fuel =>
    r ← get_right n;
    if negb (r =? NULL) then go_right fuel r else mret n
  end.

Definition rb_first : rbm Z :=
  n ← get_root;
  if n =? NULL then mret NULL else with_fuel (λ fuel, go_left fuel n).

Definition rb_last : rbm Z :=
  n ← get_root;
  if n =? NULL then mret NULL else with_fuel (λ fuel, go_right fuel n).

(** [while ((parent = rb_parent(node)) && node == parent->rb_right)
    node = parent;] returning the last [parent]. *)
Fixpoint up_from_right (fuel : nat) (node : Z) : rbm Z :=
  match fuel with
  | O => c_nofuel
  | S fuel =>
    parent ← rb_parent node;
    if parent =? NULL then mret parent else
    r ← get_right parent;
    if node =? r then up_from_right fuel parent else mret parent
  end.

Fixpoint up_from_left (fuel : nat) (node : Z) : rbm Z :=
  match fuel with
  | O => c_nofuel
  | S fuel =>
    parent ← rb_parent node;
    if parent =? NULL then mret parent else
    l ← get_left parent;
    if node =? l then up_from_left fuel parent else mret parent
  end.

Definition rb_next (node : Z) : rbm Z :=
  empty ← RB_EMPTY_NODE node;
  if (empty : bool) then mret NULL else
  r ← get_right node;
  if negb (r =? NULL) then with_fuel (λ fuel, go_left fuel r)
  else with_fuel (λ fuel, up_from_right fuel node).

Definition rb_prev (node : Z) : rbm Z :=
  empty ← RB_EMPTY_NODE node;
  if (empty : bool) then mret NULL else
  l ← get_left node;
  if negb (l =? NULL) then with_fuel (λ fuel, go_right fuel l)
  else with_fuel (λ fuel, up_from_left fuel node).

Definition rb_replace_node (victim new : Z) : rbm unit :=
  parent ← rb_parent victim;
  __rb_change_child victim new parent;;
  l ← get_left victim;
  when_set_parent l new;;
  r ← get_right victim;
  when_set_parent r new;;
  v ← load victim;
  store new (λ _, v).

Fixpoint left_deepest_loop (fuel : nat) (node : Z) : rbm Z :=
  match fuel with
  | O => c_nofuel
  | S fuel =>
    l ← get_left node;
    if negb (l =? NULL) then left_deepest_loop fuel l else
    r ← get_right node;
    if negb (r =? NULL) then left_deepest_loop fuel r else mret node
  end.

Definition rb_left_deepest_node (node : Z) : rbm Z :=
  with_fuel (λ fuel, left_deepest_loop fuel node).

Definition rb_next_postorder (node : Z) : rbm Z :=
  if node =? NULL then mret NULL else
  parent ← rb_parent node;
  deep ←
    (if parent =? NULL then mret NULL else
     l ← get_left parent;
     if negb (node =? l) then mret NULL else get_right parent);
  if negb (deep =? NULL) then rb_left_deepest_node deep else mret parent.

Definition rb_first_postorder : rbm Z :=
  r ← get_root;
  if r =? NULL then mret NULL else rb_left_deepest_node r.
