(* ===== verification/RbSpec.v ===== *)
(** Red-black trees, the functional reference: coloured trees and zippers,
    the insertion and erasure fix-ups as pure functions on them, and the
    proofs that they keep the five properties of rbtree.c's header comment
    and the in-order sequence.  RbInsert.v and RbErase.v show that the
    pointer code of RbTree.v computes these functions. *)
From Stdlib Require Import ZArith Lia.
From stdpp Require Import base tactics option list numbers gmap.
From S2P Require Import Prelude RbTree.

Local Open Scope Z_scope.

(** ** Trees and zippers *)

Inductive color := Red | Black.

#[export] Instance color_eq_dec : EqDecision color.
Proof. solve_decision. Defined.

(** A subtree: [E] is the NULL child, [T c l a r] the node at address [a]. *)
Inductive tree := E | T (c : color) (l : tree) (a : Z) (r : tree).

(** One step from a subtree up to its parent: the subtree is the left
    ([FL]) or the right ([FR]) child of [a]. *)
Inductive frame := FL (c : color) (a : Z) (r : tree) | FR (c : color) (l : tree) (a : Z).
Abbreviation ctx := (list frame).

Definition ptr (t : tree) : Z := match t with E => NULL | T _ _ a _ => a end.

Definition plug1 (f : frame) (t : tree) : tree :=
  match f with FL c a r => T c t a r | FR c l a => T c l a t end.
Fixpoint plug (k : ctx) (t : tree) : tree :=
  match k with [] => t | f :: k => plug k (plug1 f t) end.

Fixpoint inorder (t : tree) : list Z :=
  match t with E => [] | T _ l a r => inorder l ++ a :: inorder r end.

(** The addresses to the left and to the right of the hole, and all the
    addresses of a context. *)
Fixpoint lefts (k : ctx) : list Z :=
  match k with
  | [] => []
  | FL _ _ _ :: k => lefts k
  | FR _ l a :: k => lefts k ++ inorder l ++ [a]
  end.
Fixpoint rights (k : ctx) : list Z :=
  match k with
  | [] => []
  | FL _ a r :: k => a :: inorder r ++ rights k
  | FR _ _ _ :: k => rights k
  end.
Definition faddrs (f : frame) : list Z :=
  match f with FL _ a r => a :: inorder r | FR _ l a => a :: inorder l end.
Fixpoint caddrs (k : ctx) : list Z :=
  match k with [] => [] | f :: k => faddrs f ++ caddrs k end.

Definition blacken (t : tree) : tree :=
  match t with E => E | T _ l a r => T Black l a r end.
Definition recolor (c : color) (t : tree) : tree :=
  match t with E => E | T _ l a r => T c l a r end.

(** ** Insertion fix-up *)

(** [t] is the subtree of the red [node] of __rb_insert, [k] its context. *)
Fixpoint ins_fix (k : ctx) (t : tree) : option tree :=
  match k with
  | [] => Some (blacken t)
  | FL Black _ _ :: _ | FR Black _ _ :: _ => Some (plug k t)
  | [FL Red _ _] | [FR Red _ _] => None
  | FL Red p s :: FL cg g u :: k =>
    match u with
    | T Red _ _ _ => ins_fix k (T Red (T Black t p s) g (blacken u))
    | _ => Some (plug k (T cg t p (T Red (blacken s) g u)))
    end
  | FR Red s p :: FL cg g u :: k =>
    match u, t with
    | T Red _ _ _, _ => ins_fix k (T Red (T Black s p t) g (blacken u))
    | _, E => None
    | _, T _ tl n tr =>
      Some (plug k (T cg (T Red s p (blacken tl)) n (T Red (blacken tr) g u)))
    end
  | FR Red s p :: FR cg u g :: k =>
    match u with
    | T Red _ _ _ => ins_fix k (T Red (blacken u) g (T Black s p t))
    | _ => Some (plug k (T cg (T Red u g (blacken s)) p t))
    end
  | FL Red p s :: FR cg u g :: k =>
    match u, t with
    | T Red _ _ _, _ => ins_fix k (T Red (blacken u) g (T Black t p s))
    | _, E => None
    | _, T _ tl n tr =>
      Some (plug k (T cg (T Red u g (blacken tl)) n (T Red (blacken tr) p s)))
    end
  end.

(** ** Erasure fix-up *)

(** Cases 2 to 4 of ____rb_erase_color for the short subtree [t], left child
    of the [c]-coloured [p], whose sibling [s] is black: [inl] when the loop
    stops, [inr] when it goes on from the parent. *)
Definition del_left (c : color) (t : tree) (p : Z) (sl : tree) (s : Z) (sr : tree)
  : tree + tree :=
  match sr with
  | T Red _ _ _ => inl (T c (T Black t p sl) s (blacken sr))
  | _ =>
    match sl with
    | T Red sll sla slr =>
      inl (T c (T Black t p sll) sla (T Black (blacken slr) s sr))
    | _ =>
      match c with
      | Red => inl (T Black t p (T Red sl s sr))
      | Black => inr (T Black t p (T Red sl s sr))
      end
    end
  end.

Definition del_right (c : color) (sl : tree) (s : Z) (sr : tree) (p : Z) (t : tree)
  : tree + tree :=
  match sl with
  | T Red _ _ _ => inl (T c (blacken sl) s (T Black sr p t))
  | _ =>
    match sr with
    | T Red srl sra srr =>
      inl (T c (T Black sl s (blacken srl)) sra (T Black srr p t))
    | _ =>
      match c with
      | Red => inl (T Black (T Red sl s sr) p t)
      | Black => inr (T Black (T Red sl s sr) p t)
      end
    end
  end.

Fixpoint del_fix (k : ctx) (t : tree) : option tree :=
  match k with
  | [] => Some t
  | FL c p (T Black sl s sr) :: k =>
    match del_left c t p sl s sr with
    | inl t' => Some (plug k t')
    | inr t' => del_fix k t'
    end
  | FL c p (T Red (T _ a b d) s sr) :: k =>
    match del_left Red t p a b d with
    | inl t' => Some (plug (FL c s sr :: k) t')
    | inr t' => None
    end
  | FR c (T Black sl s sr) p :: k =>
    match del_right c sl s sr p t with
    | inl t' => Some (plug k t')
    | inr t' => del_fix k t'
    end
  | FR c (T Red sl s (T _ a b d)) p :: k =>
    match del_right Red a b d p t with
    | inl t' => Some (plug (FR c sl s :: k) t')
    | inr t' => None
    end
  | _ => None
  end.

(** The leftmost node of [T c l a r], as the walk of __rb_erase_augmented
    finds it: its context inside the tree (extending [k]), its colour, its
    address and its right child. *)
Fixpoint min_split (c : color) (l : tree) (a : Z) (r : tree) (k : ctx)
  : ctx * color * Z * tree :=
  match l with
  | E => (k, c, a, r)
  | T lc ll la lr => min_split lc ll la lr (FL c a r :: k)
  end.

(** Unlinking the node of [T c l a r] in context [k]: the context and content
    of the hole that is left, and whether it lost a black node. *)
Definition unlink (k : ctx) (c : color) (l r : tree) : ctx * tree * bool :=
  match l, r with
  | E, E => (k, E, bool_decide (c = Black))
  | E, T _ _ _ _ => (k, recolor c r, false)
  | T _ _ _ _, E => (k, recolor c l, false)
  | T _ _ _ _, T rc rl ra rr =>
    let '(k', sc, s, child2) := min_split rc rl ra rr [] in
    (k' ++ FR c l s :: k, blacken child2,
     match child2 with E => bool_decide (sc = Black) | _ => false end)
  end.

Definition erase_at (k : ctx) (c : color) (l r : tree) : option tree :=
  let '(k', t', short) := unlink k c l r in
  if (short : bool) then del_fix k' t' else Some (plug k' t').

(** ** Sequences *)

Lemma inorder_plug k t : inorder (plug k t) = lefts k ++ inorder t ++ rights k.
Proof.
  revert t. induction k as [|[c a r|c l a] k IH]; intros t; simpl.
  - by rewrite app_nil_r.
  - rewrite IH. simpl. by rewrite <- !app_assoc.
  - rewrite IH. simpl. by rewrite <- !app_assoc.
Qed.

Lemma plug_app k1 k2 t : plug (k1 ++ k2) t = plug k2 (plug k1 t).
Proof. revert t. induction k1 as [|f k1 IH]; intros t; simpl; auto. Qed.

Lemma inorder_blacken t : inorder (blacken t) = inorder t.
Proof. by destruct t. Qed.
Lemma inorder_recolor c t : inorder (recolor c t) = inorder t.
Proof. by destruct t. Qed.

Lemma caddrs_perm k : caddrs k ≡ₚ lefts k ++ rights k.
Proof.
  induction k as [|[c a r|c l a] k IH]; simpl; [done| |]; rewrite IH.
  - solve_Permutation.
  - solve_Permutation.
Qed.

Lemma inorder_plug_perm k t : inorder (plug k t) ≡ₚ inorder t ++ caddrs k.
Proof. rewrite inorder_plug, caddrs_perm. solve_Permutation. Qed.

Create Rewrite HintDb inorder.
#[export] Hint Rewrite inorder_plug inorder_blacken inorder_recolor : inorder.
#[export] Hint Rewrite <- @app_assoc : inorder.

Ltac inorder_solve :=
  repeat (simpl; autorewrite with inorder); simpl; auto.

(** Insertion fix-up keeps the sequence. *)
Lemma ins_fix_inorder k t t' :
  ins_fix k t = Some t' → inorder t' = inorder (plug k t).
Proof.
  revert t t'.
  induction k as [k IH] using (induction_ltof1 _ (@length frame)).
  unfold ltof in IH. intros t t' H.
  destruct k as [|[[] a r|[] l a] [|[cg g u|cg u g] k]]; simpl in H;
    simplify_eq; try by inorder_solve.
  all: repeat case_match; simplify_eq;
    try (apply IH in H; [|simpl; lia]; rewrite H); by inorder_solve.
Qed.

(** ** Red-black invariants *)

(** [is_rb c n t]: [t] has root colour [c] ([Black] for NULL), no red node
    with a red child, and [n] black nodes on every path to a leaf. *)
Inductive is_rb : color → nat → tree → Prop :=
  | rb_E : is_rb Black 0 E
  | rb_R l a r n :
      is_rb Black n l → is_rb Black n r → is_rb Red n (T Red l a r)
  | rb_B c1 c2 l a r n :
      is_rb c1 n l → is_rb c2 n r → is_rb Black (S n) (T Black l a r).

(** A red-black tree: moreover the root is black. *)
Definition redblack (t : tree) : Prop := ∃ n, is_rb Black n t.

(** [ctx_rb c n k]: plugging a tree of root colour [c] and black height [n]
    into [k] gives a red-black tree. *)
Inductive ctx_rb : color → nat → ctx → Prop :=
  | ctx_nil n : ctx_rb Black n []
  | ctx_LR a r n k :
      is_rb Black n r → ctx_rb Red n k → ctx_rb Black n (FL Red a r :: k)
  | ctx_LB c c' a r n k :
      is_rb c' n r → ctx_rb Black (S n) k → ctx_rb c n (FL Black a r :: k)
  | ctx_RR a l n k :
      is_rb Black n l → ctx_rb Red n k → ctx_rb Black n (FR Red l a :: k)
  | ctx_RB c c' a l n k :
      is_rb c' n l → ctx_rb Black (S n) k → ctx_rb c n (FR Black l a :: k).

Create HintDb rb.
#[export] Hint Constructors is_rb ctx_rb : rb.

Lemma ctx_rb_black c n k : ctx_rb c n k → ctx_rb Black n k.
Proof. intros H. inversion H; subst; eauto with rb. Qed.
#[export] Hint Resolve ctx_rb_black : rb.

Lemma is_rb_blacken_red n t : is_rb Red n t → is_rb Black (S n) (blacken t).
Proof. inversion 1; subst; simpl; eauto with rb. Qed.
Lemma is_rb_blacken_black n t : is_rb Black n t → blacken t = t.
Proof. by inversion 1. Qed.
#[export] Hint Resolve is_rb_blacken_red : rb.

Lemma plug_rb k c n t : ctx_rb c n k → is_rb c n t → redblack (plug k t).
Proof.
  intros Hk. revert t.
  induction Hk; intros t Ht; simpl; [by eexists|..]; apply IHHk; eauto with rb.
Qed.

Lemma plug_rb_inv k t :
  redblack (plug k t) → ∃ c n, ctx_rb c n k ∧ is_rb c n t.
Proof.
  revert t. induction k as [|f k IH]; intros t H; simpl in *.
  - destruct H as [n H]. eauto with rb.
  - apply IH in H as (c & n & Hk & Ht).
    destruct f; simpl in Ht; inversion Ht; subst; eauto with rb.
Qed.

Definition root_color (t : tree) : color :=
  match t with E => Black | T c _ _ _ => c end.

Lemma is_rb_color c n t : is_rb c n t → c = root_color t.
Proof. by destruct 1. Qed.

(** Use what the shape at hand says about colours: the colour index of a
    known tree, [blacken] of a black one. *)
Ltac rb_simp :=
  repeat match goal with
  | H : is_rb ?c _ E |- _ => is_var c; pose proof (is_rb_color _ _ _ H); simpl in *; subst c
  | H : is_rb Red _ (T Red _ _ _) |- _ => inversion H; clear H; subst
  | H : is_rb ?c _ (T _ _ _ _) |- _ =>
      is_var c; pose proof (is_rb_color _ _ _ H); simpl in *; subst c
  | H : is_rb Black ?n ?t |- context [blacken ?t] =>
      rewrite (is_rb_blacken_black n t H)
  end.

(** Insertion fix-up restores the invariant: [node] is red with black
    children, its context expects a black subtree of the same height. *)
Lemma ins_fix_rb k n l a r :
  ctx_rb Black n k → is_rb Black n l → is_rb Black n r →
  ∃ t', ins_fix k (T Red l a r) = Some t' ∧ redblack t'.
Proof.
  revert n l a r.
  induction k as [k IH] using (induction_ltof1 _ (@length frame)).
  unfold ltof in IH. intros n l a r Hk Hl Hr.
  destruct k as [|[[] p s|[] s p] k]; simpl.
  - eexists; split; [done|]. eexists. eauto with rb.
  - (* red parent, left child *)
    inversion Hk as [|? ? ? ? Hs Hk'| | |]; subst.
    destruct k as [|[cg g u|cg u g] k]; [by inversion Hk'|..];
      inversion Hk' as [| |? ? ? ? ? Hu Hk''| |? ? ? ? ? Hu Hk'']; subst;
      destruct u as [|[] ul ua ur]; rb_simp;
      try (eexists; split; [done|]; eapply plug_rb; [done|]; eauto with rb; done).
    all: eapply IH; [simpl; lia|done|eauto with rb..].
  - (* black parent, left child *)
    eexists; split; [done|]. inversion Hk; subst.
    eapply (plug_rb (FL Black p s :: k) Red n); eauto with rb.
  - (* red parent, right child *)
    inversion Hk as [| | |? ? ? ? Hs Hk'|]; subst.
    destruct k as [|[cg g u|cg u g] k]; [by inversion Hk'|..];
      inversion Hk' as [| |? ? ? ? ? Hu Hk''| |? ? ? ? ? Hu Hk'']; subst;
      destruct u as [|[] ul ua ur]; rb_simp;
      try (eexists; split; [done|]; eapply plug_rb; [done|]; eauto with rb; done).
    all: eapply IH; [simpl; lia|done|eauto with rb..].
  - (* black parent, right child *)
    eexists; split; [done|]. inversion Hk; subst.
    eapply (plug_rb (FR Black s p :: k) Red n); eauto with rb.
Qed.

(** Contradictory heights and colours. *)
Ltac rb_inv_E :=
  match goal with
  | H : is_rb Black (S _) E |- _ => inversion H
  | H : is_rb Black _ (T Red _ _ _) |- _ => inversion H
  end.

Ltac rb_close :=
  match goal with
  | |- _ ∧ _ => split; [done|]; eauto 6 with rb
  | |- redblack (plug _ _) =>
      first [ eapply plug_rb; [eassumption|]; solve [eauto 6 with rb]
            | eapply plug_rb; [eapply ctx_rb_black; eassumption|];
              solve [eauto 6 with rb] ]
  end.

(** Erasure fix-up, one level: [t] is one black node shorter than its black
    sibling. *)
Lemma del_left_rb c k t p sl s sr n :
  is_rb Black n t → is_rb Black (S n) (T Black sl s sr) →
  ctx_rb c (match c with Red => S n | Black => S (S n) end) k →
  match del_left c t p sl s sr with
  | inl t' => redblack (plug k t')
  | inr t' => c = Black ∧ is_rb Black (S n) t'
  end.
Proof.
  intros Ht Hs Hk. inversion Hs; subst. unfold del_left.
  destruct sr as [|[] srl sra srr], sl as [|[] sll sla slr], c; rb_simp; simpl;
    rb_close.
Qed.

Lemma del_right_rb c k t p sl s sr n :
  is_rb Black n t → is_rb Black (S n) (T Black sl s sr) →
  ctx_rb c (match c with Red => S n | Black => S (S n) end) k →
  match del_right c sl s sr p t with
  | inl t' => redblack (plug k t')
  | inr t' => c = Black ∧ is_rb Black (S n) t'
  end.
Proof.
  intros Ht Hs Hk. inversion Hs; subst. unfold del_right.
  destruct sr as [|[] srl sra srr], sl as [|[] sll sla slr], c; rb_simp; simpl;
    rb_close.
Qed.

(** What the loop finds at a parent: a sibling of the right height, and a
    context for the parent. *)
Lemma ctx_FL_inv c a s n k :
  ctx_rb Black (S n) (FL c a s :: k) →
  ∃ cs, is_rb cs (S n) s ∧ (c = Red → cs = Black) ∧
    ctx_rb c (match c with Red => S n | Black => S (S n) end) k.
Proof. inversion 1; subst; eexists; split_and!; done. Qed.

Lemma ctx_FR_inv c a s n k :
  ctx_rb Black (S n) (FR c s a :: k) →
  ∃ cs, is_rb cs (S n) s ∧ (c = Red → cs = Black) ∧
    ctx_rb c (match c with Red => S n | Black => S (S n) end) k.
Proof. inversion 1; subst; eexists; split_and!; done. Qed.

(** The whole loop: the hole's content is one black node too short. *)
Lemma del_fix_rb k t n :
  is_rb Black n t → ctx_rb Black (S n) k →
  ∃ t', del_fix k t = Some t' ∧ redblack t'.
Proof.
  revert t n. induction k as [|[c p s|c s p] k IH]; intros t n Ht Hk.
  { eexists; split; [done|]. by eexists. }
  - apply ctx_FL_inv in Hk as (cs & Hs & Hc & Hk).
    destruct s as [|[] sl s sr]; simpl; [inversion Hs|..].
    + inversion Hs; subst. destruct c; [by specialize (Hc eq_refl)|].
      destruct sl as [|[] a b d]; [rb_inv_E|rb_inv_E|].
      pose proof (del_left_rb Red (FL Black s sr :: k) t p a b d n) as H.
      destruct (del_left Red t p a b d); [eauto with rb|].
      by destruct H; [..|eauto with rb|].
    + rewrite (is_rb_color _ _ _ Hs) in Hs. simpl in Hs.
      pose proof (del_left_rb c k t p sl s sr n Ht Hs Hk) as H.
      destruct (del_left c t p sl s sr); [by eauto|].
      destruct H as [-> H]. by eapply IH.
  - apply ctx_FR_inv in Hk as (cs & Hs & Hc & Hk).
    destruct s as [|[] sl s sr]; simpl; [inversion Hs|..].
    + inversion Hs; subst. destruct c; [by specialize (Hc eq_refl)|].
      destruct sr as [|[] a b d]; [rb_inv_E|rb_inv_E|].
      pose proof (del_right_rb Red (FR Black sl s :: k) t p a b d n) as H.
      destruct (del_right Red a b d p t); [eauto with rb|].
      by destruct H; [..|eauto with rb|].
    + rewrite (is_rb_color _ _ _ Hs) in Hs. simpl in Hs.
      pose proof (del_right_rb c k t p sl s sr n Ht Hs Hk) as H.
      destruct (del_right c sl s sr p t); [by eauto|].
      destruct H as [-> H]. by eapply IH.
Qed.

Lemma del_fix_inorder k t t' :
  del_fix k t = Some t' → inorder t' = inorder (plug k t).
Proof.
  revert t t'. induction k as [|[c p s|c s p] k IH]; intros t t' H; simpl in H.
  - by simplify_eq.
  - unfold del_left in H. repeat case_match; simplify_eq; inorder_solve.
    all: apply IH in H; rewrite H; inorder_solve.
  - unfold del_right in H. repeat case_match; simplify_eq; inorder_solve.
    all: apply IH in H; rewrite H; inorder_solve.
Qed.

(** ** Unlinking *)

Lemma min_split_spec c l a r k k' sc s d :
  min_split c l a r k = (k', sc, s, d) → plug k (T c l a r) = plug k' (T sc E s d).
Proof.
  revert c a r k. induction l as [|lc ll IH la lr _]; intros c a r k H; simpl in H.
  - by simplify_eq.
  - apply IH in H. done.
Qed.

(** Contexts made of left steps only: the path of [min_split]. *)
Definition all_left (k : ctx) : Prop :=
  Forall (λ f, match f with FL _ _ _ => True | FR _ _ _ => False end) k.

Lemma min_split_left c l a r k k' sc s d :
  all_left k → min_split c l a r k = (k', sc, s, d) → all_left k'.
Proof.
  revert c a r k. induction l as [|lc ll IH la lr _]; intros c a r k Hk H; simpl in H.
  - by simplify_eq.
  - eapply IH; [|done]. by constructor.
Qed.

Lemma lefts_app k1 k2 : lefts (k1 ++ k2) = lefts k2 ++ lefts k1.
Proof.
  induction k1 as [|[]]; simpl; [by rewrite app_nil_r|done|].
  by rewrite IHk1, <- !app_assoc.
Qed.
Lemma rights_app k1 k2 : rights (k1 ++ k2) = rights k1 ++ rights k2.
Proof. induction k1 as [|[]]; simpl; rewrite ?IHk1, <- ?app_assoc; done. Qed.
Lemma lefts_all_left k : all_left k → lefts k = [].
Proof. induction 1 as [|[] k Hf Hk IH]; done. Qed.

(** Erasing a node removes exactly its address from the sequence. *)
Lemma erase_at_inorder k c l r t' :
  erase_at k c l r = Some t' →
  inorder t' = lefts k ++ inorder l ++ inorder r ++ rights k.
Proof.
  unfold erase_at. destruct (unlink k c l r) as [[k' t] short] eqn:Hu. intros H.
  assert (inorder t' = inorder (plug k' t)) as ->.
  { destruct short; [by apply del_fix_inorder in H|by simplify_eq]. }
  clear H. unfold unlink in Hu.
  destruct l as [|lc ll la lr], r as [|rc rl ra rr]; simplify_eq; inorder_solve.
  destruct (min_split rc rl ra rr []) as [[[k1 sc] s] d] eqn:Hm. simplify_eq.
  pose proof (min_split_left _ _ _ _ _ _ _ _ _ ltac:(constructor) Hm) as Hl.
  apply min_split_spec in Hm. apply (f_equal inorder) in Hm. simpl in Hm.
  rewrite inorder_plug, (lefts_all_left k1 Hl) in Hm. simpl in Hm.
  rewrite inorder_blacken, lefts_app, rights_app, (lefts_all_left k1 Hl).
  rewrite (app_comm_cons (inorder rr)), (app_assoc (inorder rl)), Hm.
  by inorder_solve.
Qed.

(** A node with at most one child, of height 0 on its empty side. *)
Lemma is_rb_height0 c t : is_rb c 0 t → t = E ∨ ∃ a, t = T Red E a E.
Proof.
  inversion 1 as [|? ? ? ? H1 H2|]; subst; [by left|right].
  inversion H1; inversion H2; subst. eauto.
Qed.

(** Erasing a node of a red-black tree never fails and gives a red-black
    tree. *)
Lemma erase_at_rb k c l a r :
  redblack (plug k (T c l a r)) →
  ∃ t', erase_at k c l r = Some t' ∧ redblack t'.
Proof.
  intros Hrb. apply plug_rb_inv in Hrb as (c0 & n & Hk & Ht).
  unfold erase_at. destruct (unlink k c l r) as [[k' t] short] eqn:Hu.
  unfold unlink in Hu.
  destruct l as [|lc ll la lr], r as [|rc rl ra rr]; simplify_eq.
  - (* no child *)
    inversion Ht as [|? ? ? ? Hl ?|? ? ? ? ? ? Hl ?]; subst; simpl.
    + eexists; split; [done|]. eapply plug_rb; [by eapply ctx_rb_black|done].
    + inversion Hl; subst. eapply del_fix_rb; eauto with rb.
  - (* right child only *)
    eexists; split; [done|].
    inversion Ht as [|? ? ? ? Hl Hr|? ? ? ? ? ? Hl Hr]; subst;
      inversion Hl; subst; apply is_rb_height0 in Hr as Hr0;
      destruct Hr0 as [?|[? ?]]; simplify_eq; [by inversion Hr|].
    eapply plug_rb; [done|]. simpl. eauto with rb.
  - (* left child only *)
    eexists; split; [done|].
    inversion Ht as [|? ? ? ? Hl Hr|? ? ? ? ? ? Hl Hr]; subst;
      inversion Hr; subst; apply is_rb_height0 in Hl as Hl0;
      destruct Hl0 as [?|[? ?]]; simplify_eq; [by inversion Hl|].
    eapply plug_rb; [done|]. simpl. eauto with rb.
  - (* two children: the successor takes the node's place *)
    destruct (min_split rc rl ra rr []) as [[[k1 sc] s] d] eqn:Hm. simplify_eq.
    apply min_split_spec in Hm. simpl in Hm.
    set (K := FR c (T lc ll la lr) s :: k).
    assert (redblack (plug (k1 ++ K) (T sc E s d))) as Hrb.
    { rewrite plug_app, <- Hm. apply (plug_rb k c0 n); [done|].
      inversion Ht; subst; eauto with rb. }
    apply plug_rb_inv in Hrb as (c1 & n1 & HK & Hs).
    inversion Hs as [|? ? ? ? HE Hd|? ? ? ? ? ? HE Hd]; subst; inversion HE; subst;
      apply is_rb_height0 in Hd as Hd0; destruct Hd0 as [->|[? ->]]; simpl.
    + eexists; split; [done|].
      eapply plug_rb; [by eapply ctx_rb_black|by constructor].
    + inversion Hd.
    + eapply del_fix_rb; eauto with rb.
    + eexists; split; [done|]. eapply plug_rb; [done|]. eauto with rb.
Qed.
