(* ===== verification/RbRep.v ===== *)
(** How the memory of RbTree.v represents the trees of RbSpec.v, and the
    symbolic-execution rules for the accessors.

    [rep m p t] says that the nodes of [t] lie in [m] with the words the C
    code keeps (the root's parent pointer being [p]); [repc m r k h] says the
    same of a context whose hole points to [h], [r] being the root word. *)
From Stdlib Require Import ZArith Lia.
From stdpp Require Import base tactics option list numbers gmap.
From S2P Require Import Prelude RbTree RbSpec.

Local Open Scope Z_scope.

(** ** The packed parent word *)

(** Addresses of [struct rb_node], which is declared
    [aligned(sizeof(long))]; NULL is aligned. *)
Definition aligned (a : Z) : Prop := is_u64 a ∧ a mod 8 = 0.

Definition colbit (c : color) : Z :=
  match c with Red => RB_RED | Black => RB_BLACK end.
Definition pcw (p : Z) (c : color) : Z := Z.lor p (colbit c).

Lemma aligned_NULL : aligned NULL.
Proof. split; [split|]; done. Qed.

Lemma lor_bit p b : p mod 8 = 0 → (b = 0 ∨ b = 1) → Z.lor p b = p + b.
Proof.
  intros Hp Hb.
  assert (Z.land p b = 0) as Hl.
  { assert (p = Z.shiftl (p / 8) 3) as ->.
    { rewrite Z.shiftl_mul_pow2 by lia. pose proof (Z.div_mod p 8). lia. }
    apply Z.bits_inj'. intros i Hi. rewrite Z.land_spec, Z.bits_0.
    destruct (Z.lt_ge_cases i 3); [by rewrite Z.shiftl_spec_low by lia|].
    destruct Hb as [->| ->]; [by rewrite Z.bits_0, andb_false_r|].
    change 1 with (2 ^ 0). rewrite (Z.pow2_bits_false 0) by lia.
    by rewrite andb_false_r. }
  rewrite Z.add_nocarry_lxor by done. by rewrite Z.lxor_lor.
Qed.

Lemma pcw_add p c : aligned p → pcw p c = p + colbit c.
Proof. intros [_ Hp]. apply lor_bit; [done|]. destruct c; [left|right]; done. Qed.

Lemma land_ptr_mask x : is_u64 x → Z.land x ptr_mask = x - x mod 4.
Proof.
  intros Hx. transitivity (Z.shiftl (Z.shiftr x 2) 2).
  - apply Z.bits_inj'. intros i Hi. rewrite Z.land_spec.
    change ptr_mask with (Z.shiftl (Z.ones 62) 2).
    destruct (Z_lt_dec i 2).
    + rewrite !Z.shiftl_spec_low by lia. by rewrite andb_false_r.
    + rewrite !Z.shiftl_spec, Z.shiftr_spec by lia.
      replace (i - 2 + 2) with i by lia.
      destruct (Z_lt_dec i 64).
      * rewrite Z.ones_spec_low by lia. by rewrite andb_true_r.
      * rewrite <- (Z.mod_small x (2 ^ 64)) by (unfold is_u64 in Hx; lia).
        by rewrite Z.mod_pow2_bits_high by lia.
  - rewrite Z.shiftl_mul_pow2, Z.shiftr_div_pow2 by lia.
    change (2 ^ 2) with 4. pose proof (Z.div_mod x 4). lia.
Qed.

Lemma colbit_range c : 0 ≤ colbit c ≤ 1.
Proof. destruct c; simpl; unfold RB_RED, RB_BLACK; lia. Qed.

Lemma aligned_bound p : aligned p → p + 7 < 2 ^ 64 ∧ p mod 4 = 0 ∧ p mod 2 = 0.
Proof.
  intros [[? ?] Hp]. pose proof (Z.div_mod p 8).
  assert (p = 8 * (p / 8)) as Hq by lia. split_and!; [lia| |]; rewrite Hq.
  - replace (8 * (p / 8)) with ((2 * (p / 8)) * 4) by lia. apply Z.mod_mul. lia.
  - replace (8 * (p / 8)) with ((4 * (p / 8)) * 2) by lia. apply Z.mod_mul. lia.
Qed.

Lemma rb_parent_pcw p c : aligned p → __rb_parent (pcw p c) = p.
Proof.
  intros Hp. pose proof (aligned_bound p Hp) as (? & Hm & _).
  pose proof (colbit_range c). rewrite pcw_add by done.
  unfold __rb_parent. rewrite land_ptr_mask.
  - replace ((p + colbit c) mod 4) with (colbit c); [lia|].
    rewrite Z.add_mod, Hm by lia. by destruct c.
  - destruct Hp as [[? ?] _]. unfold is_u64. lia.
Qed.

Lemma rb_color_pcw p c : aligned p → __rb_color (pcw p c) = colbit c.
Proof.
  intros Hp. pose proof (aligned_bound p Hp) as (_ & _ & Hm).
  pose proof (colbit_range c). rewrite pcw_add by done. unfold __rb_color.
  change 1 with (Z.ones 1). rewrite Z.land_ones by lia. change (2 ^ 1) with 2.
  rewrite Z.add_mod, Hm by lia. by destruct c.
Qed.

Lemma rb_is_red_pcw p c : aligned p → __rb_is_red (pcw p c) = bool_decide (c = Red).
Proof. intros. unfold __rb_is_red. rewrite rb_color_pcw by done. by destruct c. Qed.
Lemma rb_is_black_pcw p c :
  aligned p → __rb_is_black (pcw p c) = bool_decide (c = Black).
Proof. intros. unfold __rb_is_black. rewrite rb_color_pcw by done. by destruct c. Qed.

Lemma pcw_red p : pcw p Red = p.
Proof. apply Z.lor_0_r. Qed.
Lemma pcw_set_black p c : Z.lor (pcw p c) RB_BLACK = pcw p Black.
Proof. unfold pcw. rewrite <- Z.lor_assoc. by destruct c. Qed.
Lemma pcw_lor_color p c : Z.lor (colbit c) p = pcw p c.
Proof. apply Z.lor_comm. Qed.
Lemma pcw_lor_red p : Z.lor p RB_RED = pcw p Red.
Proof. done. Qed.
Lemma pcw_lor_black p : Z.lor p RB_BLACK = pcw p Black.
Proof. done. Qed.

(** ** Representation *)

(** A live node address. *)
Definition node_ok (a : Z) : Prop := a ≠ NULL ∧ aligned a.

Definition cptr (k : ctx) : Z :=
  match k with [] => NULL | FL _ a _ :: _ | FR _ _ a :: _ => a end.

Fixpoint rep (m : gmap Z rb_node) (p : Z) (t : tree) : Prop :=
  match t with
  | E => True
  | T c l a r =>
      node_ok a ∧ m !! a = Some (RbNode (pcw p c) (ptr r) (ptr l)) ∧
      rep m a l ∧ rep m a r
  end.

Fixpoint repc (m : gmap Z rb_node) (root : Z) (k : ctx) (h : Z) : Prop :=
  match k with
  | [] => root = h
  | FL c a r :: k =>
      node_ok a ∧ m !! a = Some (RbNode (pcw (cptr k) c) (ptr r) h) ∧
      rep m a r ∧ repc m root k a
  | FR c l a :: k =>
      node_ok a ∧ m !! a = Some (RbNode (pcw (cptr k) c) h (ptr l)) ∧
      rep m a l ∧ repc m root k a
  end.

(** A [struct rb_root] whose tree is [t]. *)
Definition represents (s : rb_state) (t : tree) : Prop :=
  rep (rb_mem s) NULL t ∧ rb_root_node s = ptr t ∧ NoDup (inorder t).

Lemma rep_plug m root k t :
  rep m NULL (plug k t) ∧ root = ptr (plug k t) ↔
  repc m root k (ptr t) ∧ rep m (cptr k) t.
Proof.
  revert t. induction k as [|[c a r|c l a] k IH]; intros t; simpl.
  - naive_solver.
  - rewrite IH. simpl. naive_solver.
  - rewrite IH. simpl. naive_solver.
Qed.

Lemma rep_agree m m' p t L :
  (∀ x, x ∉ L → m' !! x = m !! x) → disj (inorder t) L → rep m p t → rep m' p t.
Proof.
  intros Hm. revert p. induction t as [|c l IHl a r IHr]; intros p; simpl; [done|].
  intros Hd (? & Ha & ? & ?). nodup_simp. rewrite Hm by done. auto.
Qed.

Lemma rep_insert m a v p t : a ∉ inorder t → rep m p t → rep (<[a:=v]> m) p t.
Proof.
  intros Ha. apply (rep_agree _ _ _ _ [a]).
  - intros x Hx. nodup_simp. by rewrite lookup_insert_ne by done.
  - by autorewrite with nodup.
Qed.

Lemma repc_agree m m' root k h L :
  (∀ x, x ∉ L → m' !! x = m !! x) → disj (caddrs k) L →
  repc m root k h → repc m' root k h.
Proof.
  intros Hm. revert h. induction k as [|[c a r|c l a] k IH]; intros h; simpl; [done|..].
  all: intros Hd (? & Ha & ? & ?); nodup_simp; rewrite Hm by done;
    split_and!; eauto using rep_agree.
Qed.

Lemma repc_insert m a v root k h :
  a ∉ caddrs k → repc m root k h → repc (<[a:=v]> m) root k h.
Proof.
  intros Ha. apply (repc_agree _ _ _ _ _ [a]).
  - intros x Hx. nodup_simp. by rewrite lookup_insert_ne by done.
  - by autorewrite with nodup.
Qed.

Lemma cptr_aligned m root k h : repc m root k h → aligned (cptr k).
Proof. destruct k as [|[]]; simpl; [intros; apply aligned_NULL|unfold node_ok; naive_solver..]. Qed.

Lemma rep_ptr_ne m p t x : rep m p t → x ≠ NULL → x ∉ inorder t → ptr t ≠ x.
Proof. destruct t; simpl; [congruence|]. intros _ _ Hx ->. set_solver. Qed.

Lemma ptr_ne t x : x ≠ NULL → x ∉ inorder t → ptr t ≠ x.
Proof. destruct t; simpl; [congruence|]. intros _ Hx ->. set_solver. Qed.

Lemma cptr_in k : k ≠ [] → cptr k ∈ caddrs k.
Proof. destruct k as [|[]]; simpl; set_solver. Qed.

Lemma rep_dom m p t x : rep m p t → x ∈ inorder t → x ∈ dom m.
Proof.
  revert p. induction t as [|c l IHl a r IHr]; intros p; simpl; [set_solver|].
  intros (_ & Ha & Hl & Hr) [?|[->|?]%elem_of_cons]%elem_of_app; eauto.
  by apply elem_of_dom.
Qed.

(** A context is at most as deep as the memory has nodes: the fuel of the
    loops suffices. *)
Lemma repc_dom m root k h : repc m root k h → ∀ x, x ∈ caddrs k → x ∈ dom m.
Proof.
  assert (∀ t p, rep m p t → ∀ x, x ∈ inorder t → x ∈ dom m) as Hrep.
  { induction t as [|c l IHl a r IHr]; simpl; [set_solver|].
    intros p (_ & Ha & Hl & Hr) x [?|[->|?]%elem_of_cons]%elem_of_app; eauto.
    by apply elem_of_dom. }
  revert h. induction k as [|[c a r|c l a] k IH]; intros h; simpl; [set_solver|..].
  all: intros (_ & Ha & Ht & Hk) x [->|[?|?]%elem_of_app]%elem_of_cons; eauto.
  all: by apply elem_of_dom.
Qed.

Lemma length_caddrs k : (length k ≤ length (caddrs k))%nat.
Proof. induction k as [|[]]; simpl; rewrite ?length_app; lia. Qed.

Lemma NoDup_dom_size (m : gmap Z rb_node) (l : list Z) :
  NoDup l → (∀ x, x ∈ l → x ∈ dom m) → (length l ≤ size m)%nat.
Proof.
  intros Hl Hd. rewrite <- size_dom.
  rewrite <- (size_list_to_set (C:=gset Z)) by done.
  apply subseteq_size. intros x Hx. apply Hd. by apply elem_of_list_to_set in Hx.
Qed.

Lemma repc_fuel m root k h :
  repc m root k h → NoDup (caddrs k) → (length k ≤ size m)%nat.
Proof.
  intros Hk Hn. etrans; [apply length_caddrs|].
  apply NoDup_dom_size; [done|]. by eapply repc_dom.
Qed.

(** ** Symbolic execution *)

(** Code that works on the nodes, among the values that callbacks keep. *)
Lemma wp_aug_lift {X A} (m : rbm A) (Q : A → rb_state * X → Prop) s g :
  wp m (λ a t, Q a (t, g)) s → wp (lift m) Q (s, g).
Proof. intros H. by apply wp_lift. Qed.

Lemma wp_plain {A} (m : arbm unit A) (Q : A → rb_state → Prop) s :
  wp m (λ a t, Q a (fst t)) (s, tt) → wp (plain m) Q s.
Proof. unfold wp, plain. by destruct (m (s, tt)) as [[a [r []]]| | |]. Qed.

Lemma wp_with_fuel {A} (f : nat → rbm A) Q s :
  wp (f (rb_fuel s)) Q s → wp (with_fuel f) Q s.
Proof. done. Qed.
Lemma wp_with_afuel {X A} (f : nat → arbm X A) Q s g :
  wp (f (rb_fuel s)) Q (s, g) → wp (with_afuel f) Q (s, g).
Proof. done. Qed.

Section rules.
Implicit Types (m : gmap Z rb_node) (a : Z) (n : rb_node).

Lemma wp_load a n m root (Q : rb_node → rb_state → Prop) :
  a ≠ NULL → m !! a = Some n → Q n (RbState m root) → wp (load a) Q (RbState m root).
Proof.
  intros Ha Hm HQ. unfold wp, load. simpl. apply Z.eqb_neq in Ha.
  by rewrite Ha, Hm.
Qed.

Lemma wp_store a f n m root (Q : unit → rb_state → Prop) :
  a ≠ NULL → m !! a = Some n → Q tt (RbState (<[a:=f n]> m) root) →
  wp (store a f) Q (RbState m root).
Proof.
  intros Ha Hm HQ. unfold wp, store. simpl. apply Z.eqb_neq in Ha.
  by rewrite Ha, Hm.
Qed.

(** Reads: one rule for every accessor that loads a node and returns a
    function of it. *)
Lemma wp_read {A} (g : rb_node → A) a n m root (Q : A → rb_state → Prop) :
  a ≠ NULL → m !! a = Some n → Q (g n) (RbState m root) →
  wp (n ← load a; mret (g n)) Q (RbState m root).
Proof. intros. apply wp_bind. eapply wp_load; eauto. Qed.

Lemma wp_get_pc a n m root Q :
  a ≠ NULL → m !! a = Some n → Q (rb_parent_color n) (RbState m root) →
  wp (get_pc a) Q (RbState m root).
Proof. intros. eapply wp_read; eauto. Qed.
Lemma wp_get_right a n m root Q :
  a ≠ NULL → m !! a = Some n → Q (rb_right n) (RbState m root) →
  wp (get_right a) Q (RbState m root).
Proof. intros. eapply wp_read; eauto. Qed.
Lemma wp_get_left a n m root Q :
  a ≠ NULL → m !! a = Some n → Q (rb_left n) (RbState m root) →
  wp (get_left a) Q (RbState m root).
Proof. intros. eapply wp_read; eauto. Qed.

Lemma wp_rb_parent a p c r l m root Q :
  a ≠ NULL → m !! a = Some (RbNode (pcw p c) r l) → aligned p →
  Q p (RbState m root) → wp (rb_parent a) Q (RbState m root).
Proof.
  intros ? ? Hp ?. apply wp_bind. eapply wp_get_pc; [done..|]. simpl.
  by rewrite rb_parent_pcw.
Qed.
Lemma wp_rb_is_red a p c r l m root Q :
  a ≠ NULL → m !! a = Some (RbNode (pcw p c) r l) → aligned p →
  Q (bool_decide (c = Red)) (RbState m root) →
  wp (rb_is_red a) Q (RbState m root).
Proof.
  intros ? ? Hp ?. apply wp_bind. eapply wp_get_pc; [done..|]. simpl.
  by rewrite rb_is_red_pcw.
Qed.
Lemma wp_rb_is_black a p c r l m root Q :
  a ≠ NULL → m !! a = Some (RbNode (pcw p c) r l) → aligned p →
  Q (bool_decide (c = Black)) (RbState m root) →
  wp (rb_is_black a) Q (RbState m root).
Proof.
  intros ? ? Hp ?. apply wp_bind. eapply wp_get_pc; [done..|]. simpl.
  by rewrite rb_is_black_pcw.
Qed.
Lemma wp_rb_red_parent a p r l m root Q :
  a ≠ NULL → m !! a = Some (RbNode (pcw p Red) r l) →
  Q p (RbState m root) → wp (rb_red_parent a) Q (RbState m root).
Proof.
  intros. eapply wp_get_pc; [done..|]. simpl. by rewrite pcw_red.
Qed.

Lemma wp_set_pc a v n m root Q :
  a ≠ NULL → m !! a = Some n →
  Q tt (RbState (<[a:=RbNode v (rb_right n) (rb_left n)]> m) root) →
  wp (set_pc a v) Q (RbState m root).
Proof. intros. eapply wp_store; eauto. Qed.
Lemma wp_set_right a v n m root Q :
  a ≠ NULL → m !! a = Some n →
  Q tt (RbState (<[a:=RbNode (rb_parent_color n) v (rb_left n)]> m) root) →
  wp (set_right a v) Q (RbState m root).
Proof. intros. eapply wp_store; eauto. Qed.
Lemma wp_set_left a v n m root Q :
  a ≠ NULL → m !! a = Some n →
  Q tt (RbState (<[a:=RbNode (rb_parent_color n) (rb_right n) v]> m) root) →
  wp (set_left a v) Q (RbState m root).
Proof. intros. eapply wp_store; eauto. Qed.

Lemma wp_rb_set_parent_color a p c n m root Q :
  a ≠ NULL → m !! a = Some n →
  Q tt (RbState (<[a:=RbNode (pcw p c) (rb_right n) (rb_left n)]> m) root) →
  wp (rb_set_parent_color a p (colbit c)) Q (RbState m root).
Proof. intros. eapply wp_set_pc; eauto. Qed.
Lemma wp_rb_set_parent a q p c r l m root Q :
  a ≠ NULL → m !! a = Some (RbNode (pcw q c) r l) → aligned q →
  Q tt (RbState (<[a:=RbNode (pcw p c) r l]> m) root) →
  wp (rb_set_parent a p) Q (RbState m root).
Proof.
  intros ? ? Hq ?. apply wp_bind. apply wp_bind. eapply wp_get_pc; [done..|].
  apply wp_ret. simpl. rewrite rb_color_pcw by done. rewrite pcw_lor_color.
  by eapply wp_set_pc.
Qed.

Lemma wp_rb_set_black a p c r l m root Q :
  a ≠ NULL → m !! a = Some (RbNode (pcw p c) r l) →
  Q tt (RbState (<[a:=RbNode (pcw p Black) r l]> m) root) →
  wp (rb_set_black a) Q (RbState m root).
Proof.
  intros. apply wp_bind. eapply wp_get_pc; [done..|]. simpl.
  rewrite pcw_set_black. by eapply wp_set_pc.
Qed.

(** Tests and updates guarded by a NULL check. *)
Lemma wp_and_red t p m root Q :
  rep m p t → aligned p → Q (bool_decide (root_color t = Red)) (RbState m root) →
  wp (and_red (ptr t)) Q (RbState m root).
Proof.
  intros Ht Hp HQ. unfold and_red. destruct t as [|c l a r]; simpl in *; [done|].
  destruct Ht as ([Ha _] & ? & _). rewrite (proj2 (Z.eqb_neq _ _) Ha).
  by eapply wp_rb_is_red.
Qed.
Lemma wp_null_or_black t p m root Q :
  rep m p t → aligned p → Q (bool_decide (root_color t = Black)) (RbState m root) →
  wp (null_or_black (ptr t)) Q (RbState m root).
Proof.
  intros Ht Hp HQ. unfold null_or_black.
  destruct t as [|c l a r]; simpl in *; [done|].
  destruct Ht as ([Ha _] & ? & _). rewrite (proj2 (Z.eqb_neq _ _) Ha).
  by eapply wp_rb_is_black.
Qed.
Lemma wp_and_red_node a s Q :
  a ≠ NULL → wp (rb_is_red a) Q s → wp (and_red a) Q s.
Proof. intros Ha. unfold and_red. by rewrite (proj2 (Z.eqb_neq _ _) Ha). Qed.
Lemma wp_null_or_black_node a s Q :
  a ≠ NULL → wp (rb_is_black a) Q s → wp (null_or_black a) Q s.
Proof. intros Ha. unfold null_or_black. by rewrite (proj2 (Z.eqb_neq _ _) Ha). Qed.
Lemma wp_when_node1 a p c s Q :
  a ≠ NULL → wp (rb_set_parent_color a p c) Q s →
  wp (when_set_parent_color a p c) Q s.
Proof.
  intros Ha. unfold when_set_parent_color. by rewrite (proj2 (Z.eqb_neq _ _) Ha).
Qed.
Lemma wp_when_node2 a p s Q :
  a ≠ NULL → wp (rb_set_parent a p) Q s → wp (when_set_parent a p) Q s.
Proof. intros Ha. unfold when_set_parent. by rewrite (proj2 (Z.eqb_neq _ _) Ha). Qed.

Lemma wp_get_root m root Q :
  Q root (RbState m root) → wp get_root Q (RbState m root).
Proof. done. Qed.
Lemma wp_set_root v m root Q :
  Q tt (RbState m v) → wp (set_root v) Q (RbState m root).
Proof. done. Qed.

(** Re-pointing the link that leads to the hole of a context. *)
Lemma wp_change_child old new k m root Q :
  old ≠ NULL → old ∉ caddrs k → NoDup (caddrs k) → repc m root k old →
  (∀ m' root', repc m' root' k new → (∀ x, x ∉ caddrs k → m' !! x = m !! x) →
    dom m' = dom m → Q tt (RbState m' root')) →
  wp (__rb_change_child old new (cptr k)) Q (RbState m root).
Proof.
  intros Hold Hin Hnd Hk HQ. unfold __rb_change_child.
  destruct k as [|[c a r|c l a] k]; simpl in *.
  - apply HQ; [done|done|done].
  - destruct Hk as ([Ha ?] & Hm & ? & ?). nodup_simp.
    rewrite (proj2 (Z.eqb_neq _ _) Ha). simpl.
    apply wp_bind. eapply wp_get_left; [done..|]. simpl. rewrite Z.eqb_refl.
    eapply wp_set_left; [done..|]. simpl. apply HQ.
    + rewrite lookup_insert_eq. split_and!; auto using rep_insert, repc_insert.
      by split.
    + intros x Hx. nodup_simp. by rewrite lookup_insert_ne by done.
    + rewrite dom_insert_lookup_L; [done|by eexists].
  - destruct Hk as ([Ha ?] & Hm & ? & ?). nodup_simp.
    rewrite (proj2 (Z.eqb_neq _ _) Ha). simpl.
    apply wp_bind. eapply wp_get_left; [done..|]. simpl.
    rewrite (proj2 (Z.eqb_neq _ _) (ptr_ne l old Hold ltac:(done))).
    eapply wp_set_right; [done..|]. simpl. apply HQ.
    + rewrite lookup_insert_eq. split_and!; auto using rep_insert, repc_insert.
      by split.
    + intros x Hx. nodup_simp. by rewrite lookup_insert_ne by done.
    + rewrite dom_insert_lookup_L; [done|by eexists].
Qed.
End rules.

Lemma wp_rotate_set_parents old new c c' k m root ro lo q rn ln Q :
  old ≠ NULL → new ≠ NULL → old ≠ new → new ∉ caddrs k →
  old ∉ caddrs k → NoDup (caddrs k) → repc m root k old →
  m !! old = Some (RbNode (pcw (cptr k) c) ro lo) → m !! new = Some (RbNode q rn ln) →
  (∀ m' root', repc m' root' k new →
    (∀ x, x ∉ caddrs k →
      m' !! x = <[old:=RbNode (pcw new c') ro lo]>
                  (<[new:=RbNode (pcw (cptr k) c) rn ln]> m) !! x) →
    Q tt (RbState m' root')) →
  wp (__rb_rotate_set_parents old new (colbit c')) Q (RbState m root).
Proof.
  intros Ho Hn Hne Hnk Hok Hnd Hk Hmo Hmn HQ. unfold __rb_rotate_set_parents.
  apply wp_bind. eapply wp_rb_parent; [done..|by eapply cptr_aligned|].
  apply wp_bind. eapply wp_get_pc; [done..|]. simpl.
  apply wp_bind. eapply wp_set_pc; [done..|]. simpl.
  apply wp_bind. eapply wp_rb_set_parent_color; [done|by rewrite lookup_insert_ne|].
  simpl. eapply wp_change_child; [done..| |].
  { by apply repc_insert, repc_insert. }
  intros m' root' Hk' Hm' _. by apply HQ.
Qed.

(** The context-insensitive part of a store: nodes stay where they are. *)
Ltac rb_frame :=
  let x := fresh "x" in
  let Hx := fresh "Hx" in
  intros x Hx; repeat (simpl in Hx; autorewrite with nodup in Hx);
  destruct_and?.

(** One step of the pointer code.  The side conditions are address
    inequalities and lookups in a chain of updates. *)
Ltac rb_side := first [ assumption | apply not_eq_sym; assumption | solve [lk] ].
Ltac rb_step :=
  lazymatch goal with
  | |- wp (mbind _ _) _ _ => apply wp_bind
  | |- wp (mret _) _ _ => apply wp_ret
  | |- wp (get_pc _) _ _ => eapply wp_get_pc; [rb_side|rb_side|]
  | |- wp (get_right _) _ _ => eapply wp_get_right; [rb_side|rb_side|]
  | |- wp (get_left _) _ _ => eapply wp_get_left; [rb_side|rb_side|]
  | |- wp (set_pc _ _) _ _ => eapply wp_set_pc; [rb_side|rb_side|]
  | |- wp (set_right _ _) _ _ => eapply wp_set_right; [rb_side|rb_side|]
  | |- wp (set_left _ _) _ _ => eapply wp_set_left; [rb_side|rb_side|]
  | |- wp (rb_parent _) _ _ => eapply wp_rb_parent; [rb_side|rb_side|rb_side|]
  | |- wp (rb_is_red _) _ _ => eapply wp_rb_is_red; [rb_side|rb_side|rb_side|]
  | |- wp (rb_is_black _) _ _ => eapply wp_rb_is_black; [rb_side|rb_side|rb_side|]
  | |- wp (rb_red_parent _) _ _ => eapply wp_rb_red_parent; [rb_side|rb_side|]
  | |- wp (rb_set_parent _ _) _ _ =>
      eapply wp_rb_set_parent; [rb_side|rb_side|rb_side|]
  | |- wp (rb_set_parent_color _ _ RB_RED) _ _ =>
      eapply (wp_rb_set_parent_color _ _ Red); [rb_side|rb_side|]
  | |- wp (rb_set_parent_color _ _ RB_BLACK) _ _ =>
      eapply (wp_rb_set_parent_color _ _ Black); [rb_side|rb_side|]
  | |- wp (rb_set_black _) _ _ => eapply wp_rb_set_black; [rb_side|rb_side|]
  | |- wp get_root _ _ => apply wp_get_root
  | |- wp (set_root _) _ _ => apply wp_set_root
  | |- wp (lift _) _ (_, _) => apply wp_aug_lift
  end; cbn [rb_parent_color rb_right rb_left].


Lemma eqb_ptr_l x t : x ≠ NULL → x ∉ inorder t → (x =? ptr t) = false.
Proof. intros. apply Z.eqb_neq, not_eq_sym. by apply ptr_ne. Qed.
Lemma eqb_ptr_r x t : x ≠ NULL → x ∉ inorder t → (ptr t =? x) = false.
Proof. intros. apply Z.eqb_neq. by apply ptr_ne. Qed.

(** Representation of a tree after a chain of updates. *)
Ltac rb_rep :=
  repeat match goal with
  | |- rep _ _ E => exact I
  | |- _ ∧ _ => split
  | |- _ => assumption
  | |- rep _ _ (T _ _ _ _) => cbn [rep]; split_and!
  | |- repc _ _ (_ :: _) _ => cbn [repc]; split_and!
  | |- rep (<[_:=_]> _) _ _ => apply rep_insert; [solve [nodup_done]|]
  | |- repc (<[_:=_]> _) _ _ _ => apply repc_insert; [solve [nodup_done]|]
  | |- node_ok _ => first [assumption | split; assumption]
  | H : ∀ x, x ∉ _ → ?m' !! x = _ |- rep ?m' _ _ =>
      eapply rep_agree; [exact H|solve [nodup_done]|]
  | H : ∀ x, x ∉ _ → ?m' !! x = _ |- ?m' !! _ = Some _ =>
      rewrite H by (solve [nodup_done])
  | |- _ !! _ = Some _ => first [ solve [lk] | progress lk_rw ]
  end.

(** Decide the pointer comparisons of the code. *)
Ltac rb_cmp :=
  repeat first
    [ rewrite Z.eqb_refl
    | rewrite eqb_ptr_l by assumption
    | rewrite eqb_ptr_r by assumption
    | match goal with
      | |- context [?a =? ?b] => rewrite (proj2 (Z.eqb_neq a b)) by rb_side
      end ];
  cbn [negb ptr].

(** The guarded accessors: on NULL, on a known node, on a child pointer
    [ptr t]. *)
Ltac rb_guard :=
  cbn [ptr];
  lazymatch goal with
  | |- wp (and_red NULL) _ _ => apply wp_ret
  | |- wp (and_red (ptr _)) _ _ => eapply wp_and_red; [solve [rb_rep]|rb_side|]
  | |- wp (and_red _) _ _ => apply wp_and_red_node; [rb_side|]
  | |- wp (null_or_black NULL) _ _ => apply wp_ret
  | |- wp (null_or_black (ptr _)) _ _ =>
      eapply wp_null_or_black; [solve [rb_rep]|rb_side|]
  | |- wp (null_or_black _) _ _ => apply wp_null_or_black_node; [rb_side|]
  | |- wp (when_set_parent_color NULL _ _) _ _ => apply wp_ret
  | |- wp (when_set_parent NULL _) _ _ => apply wp_ret
  | |- wp (when_set_parent_color (ptr _) _ _) _ _ => fail
  | |- wp (when_set_parent (ptr _) _) _ _ => fail
  | |- wp (when_set_parent_color _ _ _) _ _ => apply wp_when_node1; [rb_side|]
  | |- wp (when_set_parent _ _) _ _ => apply wp_when_node2; [rb_side|]
  end.

Ltac rb_bool :=
  match goal with
  | |- context [bool_decide (?a = ?b)] =>
      first [ rewrite (bool_decide_eq_true_2 (a = b)) by done
            | rewrite (bool_decide_eq_false_2 (a = b)) by done ]
  end; cbn [root_color].

Ltac rb_run :=
  repeat first [ rb_step | rb_guard | progress rb_cmp | progress cbn [root_color]
               | rb_bool ].

(** ** Fix-ups *)

(** What a fix-up leaves: the memory represents [t'] and differs from [m]
    only at the nodes [L]. *)
Definition rebuilt (m : gmap Z rb_node) (L : list Z) (t' : tree) (s : rb_state) : Prop :=
  rep (rb_mem s) NULL t' ∧ rb_root_node s = ptr t' ∧
  (∀ x, x ∉ L → rb_mem s !! x = m !! x).

Lemma rebuilt_plug m L m' root' k t :
  repc m' root' k (ptr t) → rep m' (cptr k) t → (∀ x, x ∉ L → m' !! x = m !! x) →
  rebuilt m L (plug k t) (RbState m' root').
Proof.
  intros Hk Ht Hm. assert (repc m' root' k (ptr t) ∧ rep m' (cptr k) t) as H by done.
  apply rep_plug in H as [??]. by split_and!.
Qed.

Lemma rebuilt_weaken m m1 L L1 t s :
  rebuilt m1 L1 t s → (∀ x, x ∈ L1 → x ∈ L) → (∀ x, x ∉ L → m1 !! x = m !! x) →
  rebuilt m L t s.
Proof.
  intros (? & ? & Hm) HL Hm1. split_and!; [done..|].
  intros x Hx. rewrite Hm by auto. by apply Hm1.
Qed.
