(* ===== verification/RbAug.v ===== *)
(** Values kept in the nodes (src/src/rbtree_augmented.h): what the callbacks
    of a user promise to the rebalancing code, and the two users there are,
    the trees without such values and RB_DECLARE_CALLBACKS.

    The value of a node depends on its subtree, through the sequence of nodes
    there: that is what lets [rotate] and [copy] hand the value of a subtree
    to its new root. *)
From Stdlib Require Import ZArith Lia.
From stdpp Require Import base tactics option list numbers gmap.
From S2P Require Import Prelude RbTree RbSpec RbRep.

Local Open Scope Z_scope.

(** ** Segments of a context

    [k1] below a node [p]: the path from [p]'s child down to a hole. *)
Definition segptr (p : Z) (k1 : ctx) : Z :=
  match k1 with [] => p | _ => cptr k1 end.
Fixpoint topptr (k1 : ctx) (h : Z) : Z :=
  match k1 with
  | [] => h
  | FL _ a _ :: k1 | FR _ _ a :: k1 => topptr k1 a
  end.
Fixpoint repseg (m : gmap Z rb_node) (p : Z) (k1 : ctx) (h : Z) : Prop :=
  match k1 with
  | [] => True
  | FL c a r :: k1 =>
      node_ok a ∧ m !! a = Some (RbNode (pcw (segptr p k1) c) (ptr r) h) ∧
      rep m a r ∧ repseg m p k1 a
  | FR c l a :: k1 =>
      node_ok a ∧ m !! a = Some (RbNode (pcw (segptr p k1) c) h (ptr l)) ∧
      rep m a l ∧ repseg m p k1 a
  end.

Lemma ptr_plug k t : ptr (plug k t) = topptr k (ptr t).
Proof. revert t. induction k as [|[]]; intros t; simpl; [done|..]; by rewrite IHk. Qed.

Lemma repseg_plug m p k1 t :
  rep m p (plug k1 t) ↔ repseg m p k1 (ptr t) ∧ rep m (segptr p k1) t.
Proof.
  revert t. induction k1 as [|[c a r|c l a] k1 IH]; intros t; simpl; [naive_solver|..].
  all: rewrite IH; simpl; naive_solver.
Qed.

Lemma repc_app m root k1 k0 h :
  repseg m (cptr k0) k1 h ∧ repc m root k0 (topptr k1 h) → repc m root (k1 ++ k0) h.
Proof.
  revert h. induction k1 as [|[c a r|c l a] k1 IH]; intros h; simpl; [naive_solver|..].
  all: intros [(? & Hm & ? & ?) ?]; split_and!; auto; rewrite Hm;
    by destruct k1 as [|[]].
Qed.

Lemma segptr_cptr p (k : ctx) : k ≠ [] → segptr p k = cptr k.
Proof. by destruct k as [|[]]. Qed.
Lemma cptr_app (k1 k0 : ctx) : segptr (cptr k0) k1 = cptr (k1 ++ k0).
Proof. by destruct k1 as [|[]]. Qed.

Lemma repseg_agree m m' p k1 h L :
  (∀ x, x ∉ L → m' !! x = m !! x) → disj (caddrs k1) L →
  repseg m p k1 h → repseg m' p k1 h.
Proof.
  intros Hm. revert h. induction k1 as [|[c a r|c l a] k IH]; intros h; simpl; [done|..].
  all: intros Hd (? & Ha & ? & ?); nodup_simp; rewrite Hm by done;
    split_and!; eauto using rep_agree.
Qed.

Lemma repseg_insert m a v p k1 h :
  a ∉ caddrs k1 → repseg m p k1 h → repseg (<[a:=v]> m) p k1 h.
Proof.
  intros Ha. apply (repseg_agree _ _ _ _ _ [a]).
  - intros x Hx. nodup_simp. by rewrite lookup_insert_ne by done.
  - by autorewrite with nodup.
Qed.

Lemma topptr_in k1 h : k1 ≠ [] → topptr k1 h ∈ caddrs k1.
Proof.
  revert h. induction k1 as [|[c a r|c l a] k1 IH]; intros h Hne; [done|..]; simpl.
  all: destruct (decide (k1 = [])) as [->|]; simpl; [set_solver|].
  all: specialize (IH a ltac:(done)); set_solver.
Qed.

Lemma repseg_cptr m p k1 h : repseg m p k1 h → k1 ≠ [] → node_ok (cptr k1).
Proof. destruct k1 as [|[]]; simpl; naive_solver. Qed.

(** A segment is at most as deep as the memory has nodes. *)
Lemma repseg_dom m p k h x : repseg m p k h → x ∈ caddrs k → x ∈ dom m.
Proof.
  revert h. induction k as [|[c a r|c l a] k IH]; intros h; simpl; [set_solver|..].
  all: intros (_ & Ha & Ht & Hk) [->|[?|?]%elem_of_app]%elem_of_cons; eauto using rep_dom.
  all: by apply elem_of_dom.
Qed.
Lemma repseg_fuel m p k h : repseg m p k h → NoDup (caddrs k) → (length k ≤ size m)%nat.
Proof.
  intros Hk Hn. etrans; [apply length_caddrs|].
  apply NoDup_dom_size; [done|]. intros x. by eapply repseg_dom.
Qed.
Lemma repc_seg m root k h : repc m root k h → repseg m NULL k h.
Proof.
  revert h. induction k as [|[c a r|c l a] k IH]; intros h; simpl; [done|..].
  all: intros (? & Hm & ? & ?); split_and!; auto; rewrite Hm; by destruct k as [|[]].
Qed.
Lemma repseg_nonnull m p k h : repseg m p k h → NULL ∉ caddrs k.
Proof.
  assert (∀ t p, rep m p t → NULL ∉ inorder t) as Hrep.
  { induction t as [|c l IHl a r IHr]; simpl; [set_solver|].
    intros q ([] & _ & Hl & Hr). specialize (IHl _ Hl). specialize (IHr _ Hr). set_solver. }
  revert h. induction k as [|[c a r|c l a] k IH]; intros h; simpl; [set_solver|..].
  all: intros ([] & _ & Ht & Hk); specialize (IH _ Hk); specialize (Hrep _ _ Ht); set_solver.
Qed.
Lemma ptr_notin m p k h t :
  repseg m p k h → disj (inorder t) (caddrs k) → ptr t ∉ caddrs k.
Proof.
  destruct t as [|c l a r]; simpl; intros Hk Hd; [by eapply repseg_nonnull|].
  apply Hd. set_solver.
Qed.

(** ** Values *)

(** When the value of a node is right for the sequence of its subtree. *)
Class AugValues (X : Type) := aug_ok : X → Z → list Z → Prop.

Section values.
Context {X : Type} `{!AugValues X}.
Implicit Types (g : X) (t : tree) (k : ctx).

(** The value of a child, which may be NULL. *)
Definition aug_at g (p : Z) (L : list Z) : Prop :=
  (p = NULL ∧ L = []) ∨ (p ≠ NULL ∧ aug_ok g p L).

(** All values of a tree, and of a context whose hole has the sequence [L]. *)
Fixpoint taug g t : Prop :=
  match t with
  | E => True
  | T _ l a r => aug_ok g a (inorder l ++ a :: inorder r) ∧ taug g l ∧ taug g r
  end.
Fixpoint caug g k (L : list Z) : Prop :=
  match k with
  | [] => True
  | FL _ a r :: k =>
      aug_ok g a (L ++ a :: inorder r) ∧ taug g r ∧ caug g k (L ++ a :: inorder r)
  | FR _ l a :: k =>
      aug_ok g a (inorder l ++ a :: L) ∧ taug g l ∧ caug g k (inorder l ++ a :: L)
  end.

(** A context whose hole has changed: the values above are those of some
    sequence of the first node. *)
Definition aug_path g k : Prop :=
  match k with
  | [] => True
  | FL _ a t :: k | FR _ t a :: k => ∃ L, aug_ok g a L ∧ taug g t ∧ caug g k L
  end.

(** Only the values of [S] may have become wrong. *)
Definition aug_frame g g' (S : list Z) : Prop :=
  ∀ x L, x ∉ S → aug_ok g x L → aug_ok g' x L.

Lemma taug_frame g g' S t : aug_frame g g' S → disj (inorder t) S → taug g t → taug g' t.
Proof.
  intros Hf. induction t as [|c l IHl a r IHr]; simpl; [done|].
  intros Hd (? & ? & ?). nodup_simp. auto.
Qed.
Lemma caug_frame g g' S k L :
  aug_frame g g' S → disj (caddrs k) S → caug g k L → caug g' k L.
Proof.
  intros Hf. revert L. induction k as [|[c a r|c l a] k IH]; intros L; simpl; [done|..].
  all: intros Hd (? & ? & ?); nodup_simp; split_and!; eauto using taug_frame.
Qed.
Lemma aug_frame_refl g S : aug_frame g g S.
Proof. by intros ???. Qed.
Lemma aug_frame_trans g1 g2 g3 S1 S2 :
  aug_frame g1 g2 S1 → aug_frame g2 g3 S2 → aug_frame g1 g3 (S1 ++ S2).
Proof. intros H1 H2 x L [??]%not_elem_of_app ?. auto. Qed.

Lemma taug_at g m p t : rep m p t → taug g t → aug_at g (ptr t) (inorder t).
Proof. destruct t; simpl; [by left|]. intros [[] _] [? _]. by right. Qed.
Lemma taug_root g t : (t ≠ E → ptr t ≠ NULL) → taug g t → aug_at g (ptr t) (inorder t).
Proof. destruct t; simpl; [by left|]. intros Hz [? _]. right. auto. Qed.
Lemma taug_blacken g t : taug g t → taug g (blacken t).
Proof. by destruct t. Qed.
Lemma aug_at_node g a L : a ≠ NULL → aug_ok g a L → aug_at g a L.
Proof. by right. Qed.
Lemma aug_at_NULL g : aug_at g NULL [].
Proof. by left. Qed.

Lemma taug_plug g k t : taug g (plug k t) ↔ caug g k (inorder t) ∧ taug g t.
Proof.
  revert t. induction k as [|[c a r|c l a] k IH]; intros t; simpl; [naive_solver|..].
  all: rewrite IH; simpl; naive_solver.
Qed.
Lemma caug_path g k L : caug g k L → aug_path g k.
Proof. destruct k as [|[]]; simpl; naive_solver. Qed.
Lemma caug_app g k1 k2 L :
  caug g (k1 ++ k2) L ↔ caug g k1 L ∧ caug g k2 (lefts k1 ++ L ++ rights k1).
Proof.
  revert L. induction k1 as [|[c a r|c l a] k1 IH]; intros L; simpl.
  - rewrite app_nil_r. naive_solver.
  - rewrite IH, <- !app_assoc. simpl. naive_solver.
  - rewrite IH, <- !app_assoc. simpl. naive_solver.
Qed.

(** What the rebalancing code relies on. *)
Class Augmented (cb : rb_augment_callbacks X) := {
  rotate_ok s g old new pc r l L L' Lr Ll Q :
    old ≠ NULL → new ≠ NULL → old ≠ new → new ≠ r → new ≠ l →
    rb_mem s !! old = Some (RbNode pc r l) →
    aug_ok g old L → aug_ok g new L' → aug_at g l Ll → aug_at g r Lr →
    (∀ g', aug_frame g g' [old; new] → aug_ok g' new L →
       aug_ok g' old (Ll ++ old :: Lr) → Q tt (s, g')) →
    wp (rotate cb old new) Q (s, g);
  copy_ok s g old new L L' Q :
    old ≠ NULL → new ≠ NULL → aug_ok g old L → aug_ok g new L' →
    (∀ g', aug_frame g g' [new] → aug_ok g' new L → Q tt (s, g')) →
    wp (copy cb old new) Q (s, g);
  propagate_ok s g stop k h L Q :
    repseg (rb_mem s) stop k h → stop ∉ caddrs k → NoDup (caddrs k) → aligned stop →
    h ∉ caddrs k → aug_at g h L → aug_path g k →
    (∀ g', aug_frame g g' (caddrs k) → caug g' k L → Q tt (s, g')) →
    wp (propagate cb (segptr stop k) stop) Q (s, g);
}.
End values.

(** ** Reasoning about code with callbacks *)

Section rules.
Context {X : Type} `{!AugValues X} {cb : rb_augment_callbacks X} `{!Augmented cb}.

Lemma wp_rotate m root g old new pc r l L L' Ll Lr Q :
  old ≠ NULL → new ≠ NULL → old ≠ new → m !! old = Some (RbNode pc r l) →
  new ≠ r → new ≠ l →
  aug_ok g old L → aug_ok g new L' → aug_at g l Ll → aug_at g r Lr →
  (∀ g', aug_frame g g' [old; new] → aug_ok g' new L →
     aug_ok g' old (Ll ++ old :: Lr) → Q tt (RbState m root, g')) →
  wp (rotate cb old new) Q (RbState m root, g).
Proof. intros. by apply (rotate_ok (RbState m root) g old new pc r l L L' Lr Ll). Qed.

Lemma wp_copy m root g old new L L' Q :
  old ≠ NULL → new ≠ NULL → aug_ok g old L → aug_ok g new L' →
  (∀ g', aug_frame g g' [new] → aug_ok g' new L → Q tt (RbState m root, g')) →
  wp (copy cb old new) Q (RbState m root, g).
Proof. intros. by eapply copy_ok. Qed.

(** Propagating to the root. *)
Lemma wp_propagate_up m root g k t Q :
  repc m root k (ptr t) → NoDup (caddrs k) → disj (inorder t) (caddrs k) →
  aug_at g (ptr t) (inorder t) → aug_path g k →
  (∀ g', aug_frame g g' (caddrs k) → caug g' k (inorder t) → Q tt (RbState m root, g')) →
  wp (propagate cb (cptr k) NULL) Q (RbState m root, g).
Proof.
  intros Hk Hnd Hd HL Hp HQ. pose proof (ptr_notin _ _ _ _ _ (repc_seg _ _ _ _ Hk) Hd) as Hh.
  replace (cptr k) with (segptr NULL k) by (by destruct k as [|[]]).
  eapply (propagate_ok (RbState m root)); [by eapply repc_seg|by eapply repseg_nonnull, repc_seg|done
    |apply aligned_NULL|done..].
Qed.

(** What rebalancing leaves: the tree and its values. *)
Definition arebuilt (m : gmap Z rb_node) (L : list Z) (t' : tree) (sg : rb_state * X) : Prop :=
  rebuilt m L t' (fst sg) ∧ taug (snd sg) t'.

Lemma arebuilt_plug m L m' root' g k t :
  repc m' root' k (ptr t) → rep m' (cptr k) t → (∀ x, x ∉ L → m' !! x = m !! x) →
  caug g k (inorder t) → taug g t → arebuilt m L (plug k t) (RbState m' root', g).
Proof. intros. split; [by apply rebuilt_plug|]. by apply taug_plug. Qed.

Lemma arebuilt_weaken m m1 L L1 t s :
  arebuilt m1 L1 t s → (∀ x, x ∈ L1 → x ∈ L) → (∀ x, x ∉ L → m1 !! x = m !! x) →
  arebuilt m L t s.
Proof. intros [??] ??. split; [|done]. by eapply rebuilt_weaken. Qed.
End rules.

(** Equality of sequences up to association. *)
Ltac seq_solve := repeat (progress (simpl; rewrite <- ?app_assoc)); reflexivity.

(** Values after some callbacks, from the values before. *)
Ltac aug_solve :=
  lazymatch goal with
  | |- _ ∧ _ => split; aug_solve
  | |- True => exact I
  | |- taug _ E => exact I
  | |- taug _ (T _ _ _ _) => cbn [taug]; aug_solve
  | |- caug _ [] _ => exact I
  | |- caug _ (_ :: _) _ => cbn [caug]; aug_solve
  | |- taug ?g ?t =>
      match goal with
      | H : taug g t |- _ => exact H
      | H : aug_frame _ g _ |- _ =>
          apply (taug_frame _ _ _ _ H); [solve [nodup_done]|aug_solve]
      end
  | |- caug ?g ?k ?L =>
      match goal with
      | H : caug g k ?L' |- _ => refine (eq_ind L' (caug g k) H L _); seq_solve
      | H : aug_frame _ g _ |- _ =>
          apply (caug_frame _ _ _ _ _ H); [solve [nodup_done]|aug_solve]
      end
  | |- aug_ok ?g ?a ?L =>
      match goal with
      | H : aug_ok g a _ |- _ => exact H
      | H : aug_ok g a ?L' |- _ => refine (eq_ind L' (aug_ok g a) H L _); seq_solve
      | H : aug_frame _ g _ |- _ => apply H; [solve [nodup_done]|aug_solve]
      end
  | |- aug_at _ NULL _ => apply aug_at_NULL
  | |- aug_at _ (ptr ?t) _ => eapply taug_at; [eassumption|aug_solve]
  | |- aug_at _ _ _ => apply aug_at_node; [rb_side|aug_solve]
  end.

(** A lookup, also in a memory known by what it agrees with. *)
Ltac rb_look :=
  first [ rb_side
        | match goal with
          | H : ∀ x, x ∉ _ → ?m' !! x = _ |- ?m' !! _ = Some _ =>
              rewrite H by (solve [nodup_done]); rb_look
          end ].
Ltac rb_ne_ptr :=
  first [ rb_side | apply not_eq_sym, ptr_ne; [rb_side|solve [nodup_done]] ].

Ltac rb_rotate :=
  lazymatch goal with
  | |- wp (rotate _ _ _) _ _ =>
      eapply wp_rotate;
        [rb_side|rb_side|rb_side|rb_look|rb_ne_ptr|rb_ne_ptr|
         aug_solve|aug_solve|aug_solve|aug_solve|];
      let g' := fresh "g'" in let Hg := fresh "Hg" in
      let Hn := fresh "Hn" in let Ho := fresh "Ho" in
      intros g' Hg Hn Ho
  end.
Ltac rb_arun := rb_run; repeat (rb_rotate; rb_run).

(** Split a subtree that the code re-parents. *)
Ltac rb_destruct s :=
  let c := fresh "c" in let l := fresh "l" in let a := fresh "a" in
  let r := fresh "r" in
  destruct s as [|c l a r]; cbn [rep inorder blacken taug] in *; nodup_simp;
  repeat match goal with H : node_ok _ |- _ => destruct H end.

(** Split the hypotheses about a red uncle. *)
Ltac rb_destruct_red :=
  cbn [rep inorder blacken taug] in *;
  repeat match goal with
  | H : _ ∧ _ |- _ => destruct H
  | H : node_ok _ |- _ => destruct H
  end; nodup_simp.

(** ** Trees without values *)

#[export] Instance no_values : AugValues unit := λ _ _ _, True.

Lemma no_values_taug t : taug tt t.
Proof. induction t; by simpl. Qed.
Lemma no_values_caug k L : caug tt k L.
Proof.
  revert L. induction k as [|[] k IH]; intros L; simpl;
    split_and?; auto using no_values_taug; done.
Qed.

#[export] Instance dummy_augmented : Augmented dummy_callbacks.
Proof.
  assert (∀ k L, caug tt k L) as Hc by (intros; apply no_values_caug).
  split; intros s []; intros; apply wp_ret;
    match goal with H : ∀ g', aug_frame _ g' _ → _ |- _ => apply (H tt) end;
    done.
Qed.

(** ** RB_DECLARE_CALLBACKS

    [rbcompute] computes, from the values of the children, a function [F] of
    the sequence of the subtree. *)
Section declared.
Context (rbcompute : Z → cm (rb_state * gmap Z Z) Z) (F : list Z → Z).

Definition declared : AugValues (gmap Z Z) := λ g a L, g !! a = Some (F L).
Local Existing Instance declared.

Definition computes : Prop := ∀ s g a pc r l Ll Lr Q,
  a ≠ NULL → rb_mem s !! a = Some (RbNode pc r l) →
  aug_at g l Ll → aug_at g r Lr → Q (F (Ll ++ a :: Lr)) (s, g) →
  wp (rbcompute a) Q (s, g).
Context (Hcompute : computes).

Lemma wp_get_aug (a v : Z) s g (Q : Z → _ → Prop) :
  a ≠ NULL → g !! a = Some v → Q v (s, g) → wp (get_aug a) Q (s, g).
Proof.
  intros Ha Hg HQ. unfold wp, get_aug. cbn [fst snd]. by rewrite (proj2 (Z.eqb_neq _ _) Ha), Hg.
Qed.
Lemma wp_set_aug (a v w : Z) s g (Q : unit → _ → Prop) :
  a ≠ NULL → g !! a = Some w → Q tt (s, <[a := v]> g) → wp (set_aug a v) Q (s, g).
Proof.
  intros Ha Hg HQ. unfold wp, set_aug. cbn [fst snd]. by rewrite (proj2 (Z.eqb_neq _ _) Ha), Hg.
Qed.

Lemma aug_frame_insert (g : gmap Z Z) a v : aug_frame g (<[a := v]> g) [a].
Proof. intros x L Hx%not_elem_of_cons Hg. unfold aug_ok, declared. by rewrite lookup_insert_ne by naive_solver. Qed.
Lemma aug_at_insert (g : gmap Z Z) a v p L : a ≠ p → aug_at g p L → aug_at (<[a := v]> g) p L.
Proof.
  intros Hne [?|[? Hp]]; [by left|right]. split; [done|]. unfold aug_ok, declared.
  by rewrite lookup_insert_ne.
Qed.

(** Values equal in the hole are equal above it. *)
Lemma computes_eq s g a pc r l Ll Lr Ll' Lr' :
  a ≠ NULL → rb_mem s !! a = Some (RbNode pc r l) →
  aug_at g l Ll → aug_at g r Lr → aug_at g l Ll' → aug_at g r Lr' →
  F (Ll ++ a :: Lr) = F (Ll' ++ a :: Lr').
Proof using Hcompute.
  intros Ha Hm H1 H2 H1' H2'.
  pose proof (Hcompute s g a pc r l Ll Lr (λ v _, v = F (Ll ++ a :: Lr)) Ha Hm H1 H2 eq_refl) as Hw.
  pose proof (Hcompute s g a pc r l Ll' Lr' (λ v _, v = F (Ll' ++ a :: Lr')) Ha Hm H1' H2' eq_refl) as Hw'.
  unfold wp in *. destruct (rbcompute a (s, g)) as [[v s']| | |]; [|done..].
  by rewrite <- Hw.
Qed.

Lemma caug_same s g stop k h L L' :
  repseg (rb_mem s) stop k h → aug_at g h L → aug_at g h L' → caug g k L → caug g k L'.
Proof using Hcompute.
  revert h L L'. induction k as [|[c a r|c l a] k IH]; intros h L L'; simpl; [done|..].
  all: intros ([Ha ?] & Hm & Hr & Hk) HL HL' (Hok & Ht & Hc).
  - pose proof (taug_at _ _ _ _ Hr Ht) as Hat.
    pose proof (computes_eq s g a _ _ _ _ _ _ _ Ha Hm HL Hat HL' Hat) as He.
    assert (aug_ok g a (L' ++ a :: inorder r)) as Hok'
      by (unfold aug_ok, declared in *; by rewrite <- He).
    split_and!; [exact Hok'|done|]. eapply IH; [done| | |exact Hc]; by right.
  - pose proof (taug_at _ _ _ _ Hr Ht) as Hat.
    pose proof (computes_eq s g a _ _ _ _ _ _ _ Ha Hm Hat HL Hat HL') as He.
    assert (aug_ok g a (inorder l ++ a :: L')) as Hok'
      by (unfold aug_ok, declared in *; by rewrite <- He).
    split_and!; [exact Hok'|done|]. eapply IH; [done| | |exact Hc]; by right.
Qed.

Lemma aug_propagate_wp s g stop k h L fuel Q :
  repseg (rb_mem s) stop k h → stop ∉ caddrs k → NoDup (caddrs k) → aligned stop →
  h ∉ caddrs k → aug_at g h L → aug_path g k → (length k < fuel)%nat →
  (∀ g', aug_frame g g' (caddrs k) → caug g' k L → Q tt (s, g')) →
  wp (aug_propagate_loop rbcompute fuel (segptr stop k) stop) Q (s, g).
Proof using Hcompute.
  revert k h L g Q. induction fuel as [|fuel IH]; [lia|].
  intros k h L g Q Hk Hst Hnd Hal Hh HL Hp Hf HQ. cbn [aug_propagate_loop].
  destruct k as [|f k].
  { simpl. rewrite Z.eqb_refl. apply wp_ret, HQ; [apply aug_frame_refl|done]. }
  assert (∃ a c t Lx Ln r l, segptr stop (f :: k) = a ∧ a ≠ NULL ∧ faddrs f = a :: inorder t ∧
    rb_mem s !! a = Some (RbNode (pcw (segptr stop k) c) r l) ∧ repseg (rb_mem s) stop k a ∧
    aug_ok g a Lx ∧ caug g k Lx ∧ taug g t ∧
    (∀ Q, Q (F Ln) (s, g) → wp (rbcompute a) Q (s, g)) ∧
    (∀ g', caug g' (f :: k) L ↔ aug_ok g' a Ln ∧ taug g' t ∧ caug g' k Ln))
    as (a & c & t & Lx & Ln & r & l & -> & Ha & Hfa & Hm & Hka & Hok & Hc & Ht & Hw & Hcons).
  { destruct f as [c a t|c t a]; simpl in Hk, Hp;
      destruct Hk as ([Ha Haa] & Hm & Hr & Hk), Hp as (Lx & Hok & Ht & Hc);
      pose proof (taug_at _ _ _ _ Hr Ht) as Hat; do 7 eexists;
      (split_and!; [done|done|done|exact Hm|done|exact Hok|done|exact Ht| |done]);
      intros Q' HQ'; by eapply (Hcompute s g a). }
  cbn [caddrs] in *. rewrite Hfa in *. nodup_simp.
  rewrite (proj2 (Z.eqb_neq _ _)) by (apply not_eq_sym; assumption).
  apply wp_bind, Hw, wp_bind. eapply wp_get_aug; [done..|].
  destruct (F Lx =? F Ln) eqn:He.
  - apply Z.eqb_eq in He. apply wp_ret, HQ; [apply aug_frame_refl|]. apply Hcons.
    assert (aug_ok g a Ln) as Hok' by (unfold aug_ok, declared in *; by rewrite <- He).
    split_and!; [done..|]. eapply caug_same; [done| | |exact Hc]; by right.
  - apply wp_bind. eapply wp_set_aug; [done..|]. apply wp_bind, wp_aug_lift.
    destruct s as [m root]. simpl in Hm. eapply wp_rb_parent; [done|exact Hm| |].
    { destruct k as [|[]]; simpl in Hka |- *; [done|apply Hka..]. }
    assert (aug_frame g (<[a := F Ln]> g) [a]) as Hfr by apply aug_frame_insert.
    eapply (IH k a Ln); [done..| | |simpl in Hf; lia|].
    + right. split; [done|]. unfold aug_ok, declared. by rewrite lookup_insert_eq.
    + eapply caug_path, caug_frame; [exact Hfr|nodup_done|exact Hc].
    + intros g' Hfr' Hc'. apply HQ.
      * intros x L0 Hx Hx0. simpl in Hx. nodup_simp. apply Hfr'; [done|].
        apply Hfr; [nodup_done|done].
      * apply Hcons. split_and!; [|eapply (taug_frame _ _ _ _ Hfr');
          [nodup_done|eapply (taug_frame _ _ _ _ Hfr); [nodup_done|done]]|done].
        apply Hfr'; [done|]. unfold aug_ok, declared. by rewrite lookup_insert_eq.
Qed.

Lemma declare_augmented : Augmented (RB_DECLARE_CALLBACKS rbcompute).
Proof using Hcompute.
  split; simpl.
  - intros s g old new pc r l L L' Lr Ll Q Ho Hn Hne Hnr Hnl Hm Hold Hnew Hl Hr HQ.
    unfold aug_rotate. apply wp_bind. eapply wp_get_aug; [done..|].
    apply wp_bind. eapply wp_set_aug; [done..|].
    apply wp_bind. eapply Hcompute; [done|exact Hm|by apply aug_at_insert..|].
    eapply wp_set_aug; [done| |].
    { rewrite lookup_insert_ne by done. exact Hold. }
    apply HQ.
    + intros x L0 Hx H0. nodup_simp. unfold aug_ok, declared in *.
      by rewrite !lookup_insert_ne by done.
    + unfold aug_ok, declared. by rewrite lookup_insert_ne, lookup_insert_eq by done.
    + unfold aug_ok, declared. by rewrite lookup_insert_eq.
  - intros s g old new L L' Q Ho Hn Hold Hnew HQ. unfold aug_copy.
    apply wp_bind. eapply wp_get_aug; [done..|]. eapply wp_set_aug; [done..|].
    apply HQ; [apply aug_frame_insert|]. unfold aug_ok, declared. by rewrite lookup_insert_eq.
  - intros s g stop k h L Q Hk Hst Hnd Hal Hh HL Hp HQ. apply wp_with_afuel.
    eapply aug_propagate_wp; [done..| |done].
    unfold rb_fuel. pose proof (repseg_fuel _ _ _ _ Hk Hnd). lia.
Qed.
End declared.
