(* ===== verification/RbInsert.v ===== *)
(** __rb_insert (src/src/rbtree.c) computes [ins_fix], so it re-balances the
    tree in place, keeping the sequence, every other node, and the values that
    the callbacks of the user keep right. *)
From Stdlib Require Import ZArith Lia.
From stdpp Require Import base tactics option list numbers gmap.
From S2P Require Import Prelude RbTree RbSpec RbRep RbAug.

Local Open Scope Z_scope.

(** Case 3 and the end of the loop body. *)
Ltac ins_finish cg Hfix :=
  eapply (wp_rotate_set_parents _ _ cg Red);
    [rb_side|rb_side|rb_side|rb_side|rb_side|rb_side|rb_rep|rb_side|rb_side|];
  let m' := fresh "m'" in let root' := fresh "root'" in
  let Hk' := fresh "Hk'" in let Hm' := fresh "Hm'" in
  intros m' root' Hk' Hm'; rb_arun; injection Hfix as <-; cbn [blacken];
  apply arebuilt_plug;
    [done|by rb_rep|rb_frame; rewrite Hm' by done; by lk|aug_solve|aug_solve].

(** Case 1: the loop goes on from the grandparent, now red. *)
Ltac ins_flip IH k l' g r' Hfix :=
  eapply wp_mono;
    [ eapply (IH k l' g r');
      [simpl; lia|exact Hfix|by rb_rep|by rb_rep|solve [simpl; nodup_done]|aug_solve|aug_solve]
    | let Hr := fresh "Hreb" in
      intros ? ? Hr; eapply arebuilt_weaken; [exact Hr|elem_solve|];
      rb_frame; by lk ].

Section insert.
Context {X : Type} `{!AugValues X} (cb : rb_augment_callbacks X) `{!Augmented cb}.

Lemma insert_loop_wp fuel k l n r m root v t' :
  (length k < fuel)%nat → ins_fix k (T Red l n r) = Some t' →
  repc m root k n → rep m (cptr k) (T Red l n r) →
  NoDup (inorder (T Red l n r) ++ caddrs k) →
  caug v k (inorder (T Red l n r)) → taug v (T Red l n r) →
  wp (__rb_insert_loop (rotate cb) fuel n (cptr k))
     (λ _, arebuilt m (inorder (T Red l n r) ++ caddrs k) t') (RbState m root, v).
Proof.
  revert k l n r m root v.
  induction fuel as [|fuel IH]; [lia|].
  intros k l n r m root v Hf Hfix Hk Ht Hnd Hc Hv.
  destruct k as [|[cp p s|cp s p] k].
  - (* the root: blacken it *)
    simpl in Hfix. simplify_eq. destruct Ht as ([Hn ?] & Hmn & Hl & Hr).
    simpl in *. nodup_simp. rb_run. split; [|cbn; by rewrite ?app_nil_r].
    split_and!; simpl; [|done|].
    + rewrite lookup_insert_eq. split_and!; auto using rep_insert. by split.
    + rb_frame. by rewrite lookup_insert_ne.
  - destruct Hk as ([Hp Hpa] & Hmp & Hs & Hk), Ht as ([Hn ?] & Hmn & Hl & Hr).
    pose proof (cptr_aligned _ _ _ _ Hk) as Hka. destruct cp.
    2: { simpl in *. simplify_eq. rb_run.
         apply (arebuilt_plug _ _ _ _ _ (FL Black p s :: k)); [rb_rep..|done|done|done]. }
    destruct k as [|[cg g u|cg u g] k]; [done|..].
    + (* the parent is a left child *)
      destruct Hk as ([Hg ?] & Hmg & Hu & Hk).
      clear Hka; pose proof (cptr_aligned _ _ _ _ Hk) as Hka.
      simpl in *. nodup_simp.
      destruct u as [|[] ul ua ur]; rb_run.
      * rb_destruct s; rb_run; ins_finish cg Hfix.
      * rb_destruct_red. rb_run.
        ins_flip IH k (T Black (T Red l n r) p s) g (T Black ul ua ur) Hfix.
      * rb_destruct s; rb_run; ins_finish cg Hfix.
    + (* the parent is a right child *)
      destruct Hk as ([Hg ?] & Hmg & Hu & Hk).
      clear Hka; pose proof (cptr_aligned _ _ _ _ Hk) as Hka.
      simpl in *. nodup_simp.
      destruct u as [|[] ul ua ur]; rb_run.
      * rb_destruct l; rb_arun; rb_destruct r; rb_arun; ins_finish cg Hfix.
      * rb_destruct_red. rb_run.
        ins_flip IH k (T Black ul ua ur) g (T Black (T Red l n r) p s) Hfix.
      * rb_destruct l; rb_arun; rb_destruct r; rb_arun; ins_finish cg Hfix.
  - destruct Hk as ([Hp Hpa] & Hmp & Hs & Hk), Ht as ([Hn ?] & Hmn & Hl & Hr).
    pose proof (cptr_aligned _ _ _ _ Hk) as Hka. destruct cp.
    2: { simpl in *. simplify_eq. rb_run.
         apply (arebuilt_plug _ _ _ _ _ (FR Black s p :: k)); [rb_rep..|done|done|done]. }
    destruct k as [|[cg g u|cg u g] k]; [done|..].
    + (* the parent is a left child *)
      destruct Hk as ([Hg ?] & Hmg & Hu & Hk).
      clear Hka; pose proof (cptr_aligned _ _ _ _ Hk) as Hka.
      simpl in *. nodup_simp.
      destruct u as [|[] ul ua ur]; rb_run.
      * rb_destruct l; rb_arun; rb_destruct r; rb_arun; ins_finish cg Hfix.
      * rb_destruct_red. rb_run.
        ins_flip IH k (T Black s p (T Red l n r)) g (T Black ul ua ur) Hfix.
      * rb_destruct l; rb_arun; rb_destruct r; rb_arun; ins_finish cg Hfix.
    + (* the parent is a right child *)
      destruct Hk as ([Hg ?] & Hmg & Hu & Hk).
      clear Hka; pose proof (cptr_aligned _ _ _ _ Hk) as Hka.
      simpl in *. nodup_simp.
      destruct u as [|[] ul ua ur]; rb_run.
      * rb_destruct s; rb_run; ins_finish cg Hfix.
      * rb_destruct_red. rb_run.
        ins_flip IH k (T Black ul ua ur) g (T Black s p (T Red l n r)) Hfix.
      * rb_destruct s; rb_run; ins_finish cg Hfix.
Qed.
End insert.
