(* ===== verification/RbLink.v ===== *)
(** Inserting a node: rb_link_node (src/src/rbtree.h) followed by
    rb_insert_color (src/src/rbtree.c), the pair every insertion core of the
    library ends with. *)
From Stdlib Require Import ZArith Lia.
From stdpp Require Import base tactics option list numbers gmap.
From S2P Require Import Prelude RbTree RbSpec RbRep RbAug RbInsert.

Local Open Scope Z_scope.

(** ** Linking a new node

    The place an insertion core finds: the slot of a context's hole. *)
Definition slot_of (k : ctx) : rb_slot :=
  match k with
  | [] => SRoot
  | FL _ a _ :: _ => SLeft a
  | FR _ _ a :: _ => SRight a
  end.

Lemma link_node_wp k n v m root :
  represents (RbState m root) (plug k E) → node_ok n → m !! n = Some v →
  n ∉ inorder (plug k E) →
  wp (rb_link_node n (cptr k) (slot_of k))
     (λ _ s', repc (rb_mem s') (rb_root_node s') k n ∧
        rep (rb_mem s') (cptr k) (T Red E n E) ∧
        (∀ x, x ∉ n :: caddrs k → rb_mem s' !! x = m !! x) ∧
        size (rb_mem s') = size m)
     (RbState m root).
Proof.
  intros (Ht & Hroot & Hnd) [Hn Hna] Hmn Hin. simpl in *.
  assert (repc m root k NULL ∧ rep m (cptr k) E) as [Hk _] by (apply (rep_plug m root k E); done).
  assert (n ∉ caddrs k) as Hnk.
  { rewrite caddrs_perm. rewrite inorder_plug in Hin. simpl in Hin. done. }
  assert (NoDup (caddrs k)) as Hndk.
  { rewrite caddrs_perm. rewrite inorder_plug in Hnd. done. }
  unfold rb_link_node. rb_run.
  destruct k as [|[c a r|c l a] k]; simpl in *; rb_run; simpl; rewrite ?pcw_red.
  - split_and!; try done; [by lk| |].
    + rb_frame. by lk.
    + by rewrite !insert_insert_eq, map_size_insert, Hmn.
  - destruct Hk as ([Ha ?] & Hma & Hr & Hk). nodup_simp. rb_run.
    simpl. rewrite ?pcw_red.
    split_and!; try done; try by rb_rep.
    + rb_frame. by lk.
    + rewrite !insert_insert_eq, !map_size_insert. 
      rewrite lookup_insert_ne by done. by rewrite Hma, Hmn.
  - destruct Hk as ([Ha ?] & Hma & Hr & Hk). nodup_simp. rb_run.
    simpl. rewrite ?pcw_red.
    split_and!; try done; try by rb_rep.
    + rb_frame. by lk.
    + rewrite !insert_insert_eq, !map_size_insert.
      rewrite lookup_insert_ne by done. by rewrite Hma, Hmn.
Qed.

(** ** Re-balancing after the link *)

Section insert.
Context {X : Type} `{!AugValues X} (cb : rb_augment_callbacks X) `{!Augmented cb}.

Lemma insert_aug_wp n k m root v :
  repc m root k n → rep m (cptr k) (T Red E n E) → NoDup (n :: caddrs k) →
  redblack (plug k E) → taug v (plug k (T Red E n E)) →
  wp (__rb_insert (rotate cb) n)
     (λ _ sg, ∃ t', represents (fst sg) t' ∧ redblack t' ∧
        inorder t' = lefts k ++ n :: rights k ∧ taug (snd sg) t' ∧
        (∀ x, x ∉ n :: caddrs k → rb_mem (fst sg) !! x = m !! x)) (RbState m root, v).
Proof using All.
  intros Hk Ht Hnd Hrb Hv. apply taug_plug in Hv as [Hc Hv].
  apply plug_rb_inv in Hrb as (c & b & Hck & Hb).
  destruct (ins_fix_rb k 0 E n E) as (t' & Ht' & Hrb'); [|by constructor..|].
  { inversion Hb; subst. done. }
  pose proof (ins_fix_inorder _ _ _ Ht') as Hord. rewrite inorder_plug in Hord.
  apply wp_with_afuel, wp_bind, wp_aug_lift.
  eapply wp_rb_red_parent; [apply Ht|apply Ht|]. eapply wp_mono.
  - apply (insert_loop_wp cb _ k E n E _ _ _ t'); [|done..].
    unfold rb_fuel. simpl. apply Nat.lt_succ_r.
    eapply repc_fuel; [done|]. by apply NoDup_cons in Hnd as [_ ?].
  - intros [] [[m2 root2] v'] ((Ht2 & Hr2 & Hm2) & Hv'). simpl in *.
    exists t'. rewrite Hord. split_and!; try done.
    split_and!; [done..|]. simpl. rewrite Hord. rewrite caddrs_perm in Hnd.
    by rewrite <- (Permutation_middle (lefts k) (rights k) n).
Qed.
End insert.

(** Linking a node and re-balancing: what every insertion core of the library
    ends with. *)
Definition link_and_insert (n : Z) (k : ctx) : rbm unit :=
  rb_link_node n (cptr k) (slot_of k);; rb_insert_color n.

Lemma link_and_insert_wp k n s :
  represents s (plug k E) → redblack (plug k E) → node_ok n →
  is_Some (rb_mem s !! n) → n ∉ inorder (plug k E) →
  wp (link_and_insert n k)
     (λ _ s', ∃ t', represents s' t' ∧ redblack t' ∧
        inorder t' = lefts k ++ n :: rights k ∧
        (∀ x, x ∉ n :: inorder (plug k E) → rb_mem s' !! x = rb_mem s !! x)) s.
Proof.
  destruct s as [m root]. intros Hs Hrb Hn [v Hv] Hin.
  assert (NoDup (n :: caddrs k)) as Hnd.
  { destruct Hs as (_ & _ & Hs). rewrite inorder_plug in Hs, Hin. simpl in *.
    rewrite caddrs_perm. by constructor. }
  apply wp_bind. eapply wp_mono; [by eapply link_node_wp|].
  intros [] [m1 root1] (Hk1 & Ht1 & Hm1 & _). simpl in *. apply wp_plain.
  eapply wp_mono; [apply (insert_aug_wp dummy_callbacks n k); auto using no_values_taug|].
  intros _ [s' []] (t' & ? & ? & ? & _ & Hm2). exists t'. split_and!; [done..|].
  intros x Hx. rewrite inorder_plug in Hx. simpl in Hx.
  simpl in Hm2. rewrite Hm2, Hm1; rewrite ?caddrs_perm; done.
Qed.
