(* ===== verification/RbErase.v ===== *)
(** ____rb_erase_color (src/src/rbtree.c) computes [del_fix],
    and keeps the values that the callbacks of the user keep right. *)
From Stdlib Require Import ZArith Lia.
From stdpp Require Import base tactics option list numbers gmap.
From S2P Require Import Prelude RbTree RbSpec RbRep RbAug.

Local Open Scope Z_scope.

Section post.
Context {X : Type} `{!AugValues X}.

(** What one pass of the loop owes its continuation: [tf] is the final tree,
    [L] the nodes the loop may write. *)
Definition erase_post (m : gmap Z rb_node) (root : Z) (L : list Z) (k : ctx) (p : Z)
    (cont : Z → Z → arbm X unit) (tf : tree) (res : tree + tree) : Prop :=
  match res with
  | inl t' => tf = plug k t'
  | inr t' =>
    (k = [] → tf = t') ∧
    (k ≠ [] → ∀ m' v', repc m' root k p → rep m' (cptr k) t' →
       (∀ x, x ∉ L → m' !! x = m !! x) → caug v' k (inorder t') → taug v' t' →
       wp (cont p (cptr k)) (λ _, arebuilt m L tf) (RbState m' root, v'))
  end.
End post.

Ltac erase_finish cp :=
  eapply (wp_rotate_set_parents _ _ cp Black);
    [rb_side|rb_side|rb_side|rb_side|rb_side|rb_side|rb_rep|rb_side|rb_side|];
  let m' := fresh "m'" in let root' := fresh "root'" in
  let Hk' := fresh "Hk'" in let Hm' := fresh "Hm'" in
  intros m' root' Hk' Hm'; rb_arun; cbn [blacken];
  apply arebuilt_plug;
    [done|by rb_rep|rb_frame; rewrite Hm' by done; by lk|aug_solve|aug_solve].

Lemma cptr_node_ok m root k h : repc m root k h → k ≠ [] → cptr k ≠ NULL.
Proof. destruct k as [|[]]; simpl; [done|unfold node_ok; naive_solver..]. Qed.

(** Case 2: flip the sibling, then stop at a red parent or go on. *)
Ltac erase_case2 c p k Hpost :=
  let m' := fresh in
  destruct c; rb_run;
  [ cbn in Hpost; subst; apply arebuilt_plug;
      [by rb_rep|by rb_rep|rb_frame; by lk|aug_solve|aug_solve]
  | cbn in Hpost; destruct Hpost as [Hnil Hcons]; destruct (decide (k = [])) as [->|Hne];
    [ specialize (Hnil eq_refl); subst; cbn [cptr]; rb_run;
      apply (arebuilt_plug _ _ _ _ _ []);
        [by rb_rep|by rb_rep|rb_frame; by lk|aug_solve|aug_solve]
    | match goal with
      | H : repc _ _ k _ |- _ => pose proof (cptr_node_ok _ _ _ _ H Hne)
      end; rb_run;
      apply Hcons; [done|by rb_rep|by rb_rep|rb_frame; by lk|aug_solve|aug_solve] ] ].

(** Case 3 then case 4. *)
Ltac erase_case3 c a b Hpost :=
  cbn in Hpost; subst; rb_run;
  rb_destruct a; rb_arun; rb_destruct b; rb_arun; erase_finish c.

Section black.
Context {X : Type} `{!AugValues X} (cb : rb_augment_callbacks X) `{!Augmented cb}.

Lemma erase_black_l_wp cont c t p sl s sr k m root v tf :
  repc m root (FL c p (T Black sl s sr) :: k) (ptr t) → rep m p t →
  NoDup (inorder t ++ caddrs (FL c p (T Black sl s sr) :: k)) →
  caug v (FL c p (T Black sl s sr) :: k) (inorder t) → taug v t →
  erase_post m root (inorder t ++ caddrs (FL c p (T Black sl s sr) :: k)) k p cont
    tf (del_left c t p sl s sr) →
  wp (erase_color_black_l (rotate cb) cont p s)
     (λ _, arebuilt m (inorder t ++ caddrs (FL c p (T Black sl s sr) :: k)) tf)
     (RbState m root, v).
Proof using Augmented0.
  intros Hk Ht Hnd Hc Hv Hpost. cbn [repc rep caug taug caddrs faddrs] in *.
  destruct Hk as ([Hp Hpa] & Hmp & ([Hs Hsa] & Hms & Hsl & Hsr) & Hk).
  pose proof (cptr_aligned _ _ _ _ Hk) as Hka.
  cbn [inorder] in *. nodup_simp. unfold erase_color_black_l, erase_color_case4l.
  unfold del_left in Hpost.
  destruct sr as [|[] srl sra srr].
  - rb_destruct_red. rb_run. destruct sl as [|[] sll sla slr]; rb_destruct_red; rb_run.
    + erase_case2 c p k Hpost.
    + erase_case3 c sll slr Hpost.
    + erase_case2 c p k Hpost.
  - rb_destruct_red. rb_run. cbn in Hpost. subst tf. rb_destruct sl; rb_run;
      erase_finish c.
  - rb_destruct_red. rb_run. destruct sl as [|[] sll sla slr]; rb_destruct_red; rb_run.
    + erase_case2 c p k Hpost.
    + erase_case3 c sll slr Hpost.
    + erase_case2 c p k Hpost.
Qed.

Lemma erase_black_r_wp cont c t p sl s sr k m root v tf :
  repc m root (FR c (T Black sl s sr) p :: k) (ptr t) → rep m p t →
  NoDup (inorder t ++ caddrs (FR c (T Black sl s sr) p :: k)) →
  caug v (FR c (T Black sl s sr) p :: k) (inorder t) → taug v t →
  erase_post m root (inorder t ++ caddrs (FR c (T Black sl s sr) p :: k)) k p cont
    tf (del_right c sl s sr p t) →
  wp (erase_color_black_r (rotate cb) cont p s)
     (λ _, arebuilt m (inorder t ++ caddrs (FR c (T Black sl s sr) p :: k)) tf)
     (RbState m root, v).
Proof using Augmented0.
  intros Hk Ht Hnd Hc Hv Hpost. cbn [repc rep caug taug caddrs faddrs] in *.
  destruct Hk as ([Hp Hpa] & Hmp & ([Hs Hsa] & Hms & Hsl & Hsr) & Hk).
  pose proof (cptr_aligned _ _ _ _ Hk) as Hka.
  cbn [inorder] in *. nodup_simp. unfold erase_color_black_r, erase_color_case4r.
  unfold del_right in Hpost.
  destruct sl as [|[] sll sla slr].
  - rb_destruct_red. rb_run. destruct sr as [|[] srl sra srr]; rb_destruct_red; rb_run.
    + erase_case2 c p k Hpost.
    + erase_case3 c srl srr Hpost.
    + erase_case2 c p k Hpost.
  - rb_destruct_red. rb_run. cbn in Hpost. subst tf. rb_destruct sr; rb_run;
      erase_finish c.
  - rb_destruct_red. rb_run. destruct sr as [|[] srl sra srr]; rb_destruct_red; rb_run.
    + erase_case2 c p k Hpost.
    + erase_case3 c srl srr Hpost.
    + erase_case2 c p k Hpost.
Qed.

End black.

(** ** The loop *)

(** The loop only goes on with the sibling flipped to red. *)
Lemma del_left_inr c t p sl s sr t' :
  del_left c t p sl s sr = inr t' → t' = T Black t p (T Red sl s sr).
Proof. unfold del_left. intros. by repeat case_match; simplify_eq. Qed.
Lemma del_right_inr c t p sl s sr t' :
  del_right c sl s sr p t = inr t' → t' = T Black (T Red sl s sr) p t.
Proof. unfold del_right. intros. by repeat case_match; simplify_eq. Qed.

(** Case 1: the red sibling rotates up, then the black nephew is handled by
    [lem]. *)
Ltac erase_case1 c lem Hdel :=
  eapply (wp_rotate_set_parents _ _ c Red);
    [rb_side|rb_side|rb_side|rb_side|rb_side|rb_side|rb_rep|rb_side|rb_side|];
  let m' := fresh "m'" in let root' := fresh "root'" in
  let Hk' := fresh "Hk'" in let Hm' := fresh "Hm'" in
  intros m' root' Hk' Hm'; rb_arun;
  eapply wp_mono;
    [ eapply lem;
      [ by rb_rep | by rb_rep | simpl; solve [nodup_done]
      | aug_solve | aug_solve | by rewrite Hdel ]
    | let Hr := fresh "Hreb" in
      intros ? ? Hr; eapply arebuilt_weaken; [exact Hr|elem_solve|];
      rb_frame; rewrite Hm' by done; by lk ].

(** Black sibling: the body ([lem]), then the loop ([IH]) on the context [k]
    with the tree [t'] that [inr] says. *)
Ltac erase_body lem IH k t' Hfix inr :=
  eapply lem;
    [ by rb_rep | done | by simpl; nodup_done | aug_solve | aug_solve
    | unfold erase_post ];
  match goal with
  | |- context [match ?d with inl _ => _ | inr _ => _ end] =>
      let Hd := fresh "Hdel" in
      destruct d eqn:Hd; [by injection Hfix as <-|]; apply inr in Hd; subst
  end;
  split; [intros ->; by injection Hfix as <-|];
  let Hr := fresh "Hreb" in
  intros; eapply wp_mono;
    [ eapply (IH k t');
      [ done | simpl in *; lia | done | done | done | simpl; solve [nodup_done]
      | done | done ]
    | intros ? ? Hr; eapply arebuilt_weaken; [exact Hr|elem_solve|assumption] ].

Section loop.
Context {X : Type} `{!AugValues X} (cb : rb_augment_callbacks X) `{!Augmented cb}.

Lemma erase_loop_wp fuel k t m root v tf :
  k ≠ [] → (length k ≤ fuel)%nat → del_fix k t = Some tf →
  repc m root k (ptr t) → rep m (cptr k) t → NoDup (inorder t ++ caddrs k) →
  caug v k (inorder t) → taug v t →
  wp (____rb_erase_color_loop (rotate cb) fuel (ptr t) (cptr k))
     (λ _, arebuilt m (inorder t ++ caddrs k) tf) (RbState m root, v).
Proof using Augmented0.
  revert k t m root v.
  induction fuel as [|fuel IH]; intros k t m root v Hne Hf Hfix Hk Ht Hnd Hc Hv.
  { destruct k; simpl in *; [done|lia]. }
  destruct k as [|[c p s|c s p] k]; [done|..];
    cbn [____rb_erase_color_loop cptr]; cbn [del_fix] in Hfix.
  - destruct s as [|[] sl s sr]; [done|..].
    + destruct sl as [|sc a b d]; [done|].
      destruct (del_left Red t p a b d) as [t'|] eqn:Hdel; [|done].
      injection Hfix as <-.
      cbn [repc rep caug taug caddrs faddrs inorder cptr] in *. rb_destruct_red.
      pose proof (cptr_aligned m root k p ltac:(done)) as Hka. rb_run.
      erase_case1 c (erase_black_l_wp cb (____rb_erase_color_loop (rotate cb) fuel)
        Red t p a b d (FL c s sr :: k)) Hdel.
    + cbn [repc rep caug taug caddrs faddrs inorder cptr] in *. rb_destruct_red.
      pose proof (cptr_aligned m root k p ltac:(done)) as Hka. rb_run.
      erase_body (erase_black_l_wp cb) IH k (T Black t p (T Red sl s sr)) Hfix del_left_inr.
  - destruct s as [|[] sl s sr]; [done|..].
    + destruct sr as [|sc a b d]; [done|].
      destruct (del_right Red a b d p t) as [t'|] eqn:Hdel; [|done].
      injection Hfix as <-.
      cbn [repc rep caug taug caddrs faddrs inorder cptr] in *. rb_destruct_red.
      pose proof (cptr_aligned m root k p ltac:(done)) as Hka. rb_run.
      erase_case1 c (erase_black_r_wp cb (____rb_erase_color_loop (rotate cb) fuel)
        Red t p a b d (FR c sl s :: k)) Hdel.
    + cbn [repc rep caug taug caddrs faddrs inorder cptr] in *. rb_destruct_red.
      pose proof (cptr_aligned m root k p ltac:(done)) as Hka. rb_run.
      erase_body (erase_black_r_wp cb) IH k (T Black (T Red sl s sr) p t) Hfix del_right_inr.
Qed.
End loop.
