(* ===== verification/RbUnlink.v ===== *)
(** Erasing a node: __rb_erase_augmented (src/src/rbtree_augmented.h)
    computes [unlink], rb_erase_augmented there and rb_erase (src/src/rbtree.c)
    compute [erase_at]. *)
From Stdlib Require Import ZArith Lia.
From stdpp Require Import base tactics option list numbers gmap.
From S2P Require Import Prelude RbTree RbSpec RbRep RbAug RbErase.

Local Open Scope Z_scope.

(** Writing the hole's link and the segment's upper link. *)
Lemma wp_seg_set_left k1 p h h' m root Q :
  all_left k1 → k1 ≠ [] → repseg m p k1 h → NoDup (caddrs k1) →
  (∀ m', repseg m' p k1 h' → (∀ x, x ∉ caddrs k1 → m' !! x = m !! x) →
     size m' = size m → Q tt (RbState m' root)) →
  wp (set_left (cptr k1) h') Q (RbState m root).
Proof.
  intros Hl Hne Hk Hnd HQ.
  destruct k1 as [|[c a r|c l a] k1]; [done| |by inversion Hl].
  simpl in *. destruct Hk as ([Ha ?] & Hm & ? & ?). nodup_simp. rb_run.
  apply HQ.
  - rewrite lookup_insert_eq. split_and!; auto using rep_insert, repseg_insert.
    by split.
  - rb_frame. by lk.
  - by rewrite map_size_insert, Hm.
Qed.

Lemma wp_seg_set_parent k1 p p' h m root Q :
  k1 ≠ [] → aligned p → repseg m p k1 h → NoDup (caddrs k1) →
  (∀ m', repseg m' p' k1 h → (∀ x, x ∉ caddrs k1 → m' !! x = m !! x) →
     size m' = size m → Q tt (RbState m' root)) →
  wp (rb_set_parent (topptr k1 h) p') Q (RbState m root).
Proof.
  intros Hne Hp. revert h Q.
  induction k1 as [|f k1 IH]; intros h Q Hk Hnd HQ; [done|].
  destruct (decide (k1 = [])) as [->|Hne1].
  - destruct f as [c a r|c l a]; simpl in *;
      destruct Hk as ([Ha ?] & Hm & ? & ?); nodup_simp; rb_run.
    all: apply HQ;
      [rewrite lookup_insert_eq; split_and!; auto using rep_insert; by split
      |rb_frame; by lk|by rewrite map_size_insert, Hm].
  - destruct f as [c a r|c l a]; simpl in *;
      destruct Hk as ([Ha ?] & Hm & ? & Hk); nodup_simp;
      (apply IH; [done|exact Hk|done|]); intros m' Hk' Hm' Hs'; apply HQ;
      [|rb_frame; by apply Hm'|done| |rb_frame; by apply Hm'|done].
    all: split_and!; [by split| |eapply rep_agree; [exact Hm'|solve [nodup_done]|done]|done].
    all: rewrite Hm' by done; rewrite Hm; by destruct k1 as [|[]].
Qed.

(** The walk to the successor. *)
Lemma leftmost_wp fuel lc ll la lr c a r k0 k1 sc s d p m root
    (Q : Z * Z → rb_state → Prop) :
  rep m p (T lc ll la lr) → (length (inorder (T lc ll la lr)) ≤ fuel)%nat →
  min_split c (T lc ll la lr) a r k0 = (k1, sc, s, d) →
  Q (cptr k1, s) (RbState m root) →
  wp (leftmost_loop fuel a la) Q (RbState m root).
Proof.
  revert lc la lr c a r k0 p fuel.
  induction ll as [|llc lll IH lla llr _]; intros lc la lr c a r k0 p fuel Ht Hf Hmin HQ;
    (destruct fuel as [|fuel]; [simpl in Hf; rewrite ?length_app in Hf; simpl in Hf; lia|]);
    simpl in Ht; destruct Ht as ([Hla ?] & Hmla & Hll & Hlr); cbn [leftmost_loop];
    rb_run.
  - simpl in Hmin. simplify_eq. done.
  - destruct Hll as ([Hlla ?] & Hmlla & ? & ?). rb_run.
    eapply (IH llc lla llr lc la lr); [|..|exact Hmin|done].
    + cbn [rep]. split_and!; try done; by split.
    + simpl in *. rewrite ?length_app in *. simpl in *.
      rewrite ?length_app in *. simpl in *. lia.
Qed.

(** ** Unlinking *)

(** What __rb_erase_augmented owes: the hole and its content, the parent to
    re-balance from (NULL for none), every node outside [L] untouched. *)
Definition unlinked {X} `{!AugValues X} (m : gmap Z rb_node) (L : list Z) (k : ctx)
    (t : tree) (short : bool) (reb : Z) (sg : rb_state * X) : Prop :=
  let s := fst sg in
  repc (rb_mem s) (rb_root_node s) k (ptr t) ∧ rep (rb_mem s) (cptr k) t ∧
  reb = (if short then cptr k else NULL) ∧
  (∀ x, x ∉ L → rb_mem s !! x = m !! x) ∧
  caug (snd sg) k (inorder t) ∧ taug (snd sg) t.

Lemma unlinked_intro {X} `{!AugValues X} (m : gmap Z rb_node) (L : list Z) k t
    (short : bool) reb m' root' (g : X) :
  repc m' root' k (ptr t) → rep m' (cptr k) t → reb = (if short then cptr k else NULL) →
  (∀ x, x ∉ L → m' !! x = m !! x) → caug g k (inorder t) → taug g t →
  unlinked m L k t short reb (RbState m' root', g).
Proof. repeat split; done. Qed.

(** Running up to a NULL test on the packed word of [a]. *)
Ltac rb_pc :=
  rewrite ?rb_parent_pcw, ?rb_is_black_pcw by assumption.

Section unlink.
Context {X : Type} `{!AugValues X} (cb : rb_augment_callbacks X) `{!Augmented cb}.

Lemma erase_aug_leaf k c a r m root v :
  repc m root k a → rep m (cptr k) (T c E a r) →
  NoDup (inorder (T c E a r) ++ caddrs k) →
  caug v k (inorder (T c E a r)) → taug v (T c E a r) →
  wp (__rb_erase_augmented a cb)
     (let '(k', t', short) := unlink k c E r in
      unlinked m (inorder r ++ caddrs k) k' t' short) (RbState m root, v).
Proof using Augmented0.
  intros Hk ([Ha Haa] & Hma & _ & Hr) Hnd Hc (_ & _ & Hv).
  pose proof (cptr_aligned _ _ _ _ Hk) as Hka.
  simpl in Hnd. nodup_simp. unfold __rb_erase_augmented. rb_run. rb_pc. rb_run.
  eapply (wp_change_child a (ptr r) k); [done..|].
  intros m' root' Hk' Hm' _. apply caug_path in Hc.
  pose proof (taug_at _ _ _ _ Hr Hv) as Hat. destruct r as [|rc rl ra rr]; simpl in *.
  - rb_run. eapply (wp_propagate_up _ _ _ k E); [done..|]. intros v' Hf' Hc'. rb_run. by split_and!.
  - destruct Hv as (? & ? & ?). rb_destruct_red. rb_run.
    assert (m' !! ra = m !! ra) as Hra by by apply Hm'.
    eapply wp_set_pc; [done|by rewrite Hra|]. rb_run.
    eapply (wp_propagate_up _ _ _ k (T rc rl ra rr)); [by rb_rep|done|by simpl; nodup_done|done..|]. intros v' Hf' Hc'. rb_run.
    split_and!; simpl; [rb_rep|rb_rep|done| |done|aug_solve].
    rb_frame. lk_rw. by apply Hm'.
Qed.

Lemma erase_aug_left k c lc ll la lr a m root v :
  repc m root k a → rep m (cptr k) (T c (T lc ll la lr) a E) →
  NoDup (inorder (T c (T lc ll la lr) a E) ++ caddrs k) →
  caug v k (inorder (T c (T lc ll la lr) a E)) → taug v (T c (T lc ll la lr) a E) →
  wp (__rb_erase_augmented a cb)
     (unlinked m (inorder (T lc ll la lr) ++ caddrs k) k (T c ll la lr) false)
     (RbState m root, v).
Proof using Augmented0.
  intros Hk ([Ha Haa] & Hma & ([Hla ?] & Hmla & Hll & Hlr) & _) Hnd Hc
    (_ & (? & ? & ?) & _).
  pose proof (cptr_aligned _ _ _ _ Hk) as Hka. apply caug_path in Hc.
  simpl in *. nodup_simp. unfold __rb_erase_augmented. rb_run. rb_pc.
  eapply (wp_change_child a la k); [done..|by rb_rep|].
  intros m' root' Hk' Hm' _. rb_run.
  eapply (wp_propagate_up _ _ _ k (T lc ll la lr));
    [done|done|by simpl; nodup_done|by apply aug_at_node|done|].
  intros v' Hf' Hc'. rb_run. split_and!; simpl; [done|rb_rep|done| |done|aug_solve].
  rb_frame. rewrite Hm' by done. by lk.
Qed.

(** Case 2: the successor is the right child. *)
Lemma erase_aug_succ1 k c lc ll la lr a rc ra rr m root v :
  repc m root k a → rep m (cptr k) (T c (T lc ll la lr) a (T rc E ra rr)) →
  NoDup (inorder (T c (T lc ll la lr) a (T rc E ra rr)) ++ caddrs k) →
  caug v k (inorder (T c (T lc ll la lr) a (T rc E ra rr))) →
  taug v (T c (T lc ll la lr) a (T rc E ra rr)) →
  wp (__rb_erase_augmented a cb)
     (unlinked m (inorder (T lc ll la lr) ++ inorder (T rc E ra rr) ++ caddrs k)
        (FR c (T lc ll la lr) ra :: k) (blacken rr)
        (match rr with E => bool_decide (rc = Black) | _ => false end))
     (RbState m root, v).
Proof using Augmented0.
  intros Hk ([Ha Haa] & Hma & ([Hla ?] & Hmla & Hll & Hlr) &
    ([Hra ?] & Hmra & _ & Hrr)) Hnd Hc (Hva & Hvl & Hvra & _ & Hvr).
  pose proof (cptr_aligned _ _ _ _ Hk) as Hka.
  pose proof (taug_at _ _ _ _ Hrr Hvr) as Hat.
  simpl in *. nodup_simp. unfold __rb_erase_augmented. rb_run.
  eapply wp_copy; [done|done|exact Hva|exact Hvra|]. intros v1 Hf1 Hv1. rb_run. rb_pc.
  eapply (wp_change_child a ra k); [done..|by rb_rep|].
  intros m' root' Hk' Hm' _.
  assert (m' !! ra = Some (RbNode (pcw a rc) (ptr rr) la)) as Hra'.
  { rewrite Hm' by done. by lk. }
  assert (aug_path v1 (FR c (T lc ll la lr) ra :: k)) as Hp1.
  { eexists. split_and!; [exact Hv1|aug_solve|aug_solve]. }
  assert (NoDup (caddrs (FR c (T lc ll la lr) ra :: k))) as Hnd1 by (simpl; nodup_done).
  assert (disj (inorder rr) (caddrs (FR c (T lc ll la lr) ra :: k))) as Hd1
    by (simpl; nodup_done).
  destruct rr as [|rrc rrl rra rrr]; rb_run.
  - rb_pc. eapply (wp_propagate_up _ _ _ (FR c (T lc ll la lr) ra :: k) E);
      [by rb_rep|done|done|by left|exact Hp1|].
    intros v' Hf' Hc'. rb_run. apply unlinked_intro;
      [by rb_rep|done|by destruct rc| |exact Hc'|done].
    simpl. rb_frame. lk_rw. rewrite Hm' by done. by lk.
  - rb_destruct_red.
    assert (m' !! rra = Some (RbNode (pcw ra rrc) (ptr rrr) (ptr rrl))) as Hrra
      by (rewrite Hm' by done; by lk).
    rb_run. eapply (wp_propagate_up _ _ _ (FR c (T lc ll la lr) ra :: k)
      (T rrc rrl rra rrr)); [by rb_rep|by simpl; nodup_done|by simpl; nodup_done
      |cbn [ptr inorder]; apply aug_at_node; [done|aug_solve]|exact Hp1|].
    intros v' Hf' Hc'. rb_run. apply unlinked_intro;
      [by rb_rep|by rb_rep|done| |exact Hc'|aug_solve].
    simpl. rb_frame. lk_rw. rewrite Hm' by done. by lk.
Qed.

End unlink.

Lemma topptr_irrel k1 h h' : k1 ≠ [] → topptr k1 h = topptr k1 h'.
Proof. by destruct k1 as [|[]]. Qed.

Lemma min_split_extends c l a r k k' sc s d :
  min_split c l a r k = (k', sc, s, d) → ∃ k1, k' = k1 ++ k.
Proof.
  revert c a r k. induction l as [|lc ll IH la lr _]; intros c a r k H; simpl in H.
  - simplify_eq. by exists [].
  - apply IH in H as [k1 ->]. exists (k1 ++ [FL c a r]). by rewrite <- app_assoc.
Qed.

Lemma caddrs_app k1 k2 : caddrs (k1 ++ k2) = caddrs k1 ++ caddrs k2.
Proof. induction k1 as [|f k1 IH]; simpl; [done|]. by rewrite IH, app_assoc. Qed.

(** Case 3: the successor [s] is further down, at the end of the path [k1]
    from the right child. *)
Section successor.
Context {X : Type} `{!AugValues X} (cb : rb_augment_callbacks X) `{!Augmented cb}.
Context (k : ctx) (c lc : color) (ll : tree) (la : Z) (lr : tree).
Context (a : Z) (rc rlc : color) (rll : tree) (rla : Z) (rlr : tree) (ra : Z) (rr : tree).
Context (k1 : ctx) (sc : color) (s : Z) (d : tree) (m : gmap Z rb_node) (root : Z) (v : X).
Let tl := T lc ll la lr.
Let tr := T rc (T rlc rll rla rlr) ra rr.
Context (Hk : repc m root k a) (Ht : rep m (cptr k) (T c tl a tr)).
Context (Hnd : NoDup (inorder (T c tl a tr) ++ caddrs k)).
Context (Hc : caug v k (inorder (T c tl a tr))) (Hv : taug v (T c tl a tr)).
Context (Hmin : min_split rc (T rlc rll rla rlr) ra rr [] = (k1, sc, s, d)).

Lemma succ_path :
  k1 ≠ [] ∧ all_left k1 ∧ ra = topptr k1 (ptr d) ∧
  inorder tr ≡ₚ s :: inorder d ++ caddrs k1.
Proof using Hmin.
  pose proof (min_split_spec _ _ _ _ _ _ _ _ _ Hmin) as Heq. simpl in Heq.
  assert (k1 ≠ []) as Hk1.
  { apply min_split_extends in Hmin as [k' Hk1]. intros ->. by destruct k'. }
  split_and!.
  - done.
  - eapply min_split_left; [|exact Hmin]. constructor.
  - apply (f_equal ptr) in Heq. rewrite ptr_plug in Heq. simpl in Heq.
    rewrite Heq. by apply topptr_irrel.
  - unfold tr. by rewrite Heq, inorder_plug_perm.
Qed.

Lemma succ_nodup :
  NoDup (inorder tl ++ [a] ++ [s] ++ inorder d ++ caddrs k1 ++ caddrs k).
Proof using Hmin Hnd.
  destruct succ_path as (_ & _ & _ & Hp).
  change (NoDup ((inorder tl ++ a :: inorder tr) ++ caddrs k)) in Hnd.
  rewrite Hp, <- app_assoc in Hnd. simpl in Hnd |- *.
  rewrite <- !app_assoc in Hnd |- *. simpl in *. by rewrite <- !app_assoc in Hnd.
Qed.

(** The values of the path before the successor leaves it. *)
Lemma succ_values :
  aug_ok v a (inorder tl ++ a :: inorder tr) ∧ taug v tl ∧ caug v k1 (s :: inorder d) ∧
  aug_ok v s (s :: inorder d) ∧ taug v d.
Proof using Hv Hmin.
  destruct Hv as (Hva & Hvl & Hvr).
  pose proof (min_split_spec _ _ _ _ _ _ _ _ _ Hmin) as Heq. cbn [plug] in Heq.
  assert (taug v (plug k1 (T sc E s d))) as Hp by (rewrite <- Heq; exact Hvr).
  apply taug_plug in Hp as [Hk1 (Hvs & _ & Hvd)]. by split_and!.
Qed.

Lemma erase_aug_succ3 :
  wp (__rb_erase_augmented a cb)
     (unlinked m (inorder tl ++ inorder tr ++ caddrs k)
        (k1 ++ FR c tl s :: k) (blacken d)
        (match d with E => bool_decide (sc = Black) | _ => false end)) (RbState m root, v).
Proof using All.
  destruct succ_path as (Hk1 & Hleft & Htop & Hperm).
  destruct succ_values as (Hva & Hvl & Hvk1 & Hvs & Hvd).
  pose proof succ_nodup as Hnd1.
  assert (length (inorder tr) ≤ size m)%nat as Hf.
  { apply NoDup_dom_size.
    - rewrite Hperm. clear -Hnd1. simpl in Hnd1. nodup_simp. nodup_done.
    - intros x Hx. destruct Ht as (_ & _ & _ & Hr). by eapply rep_dom. }
  clear Hnd Hv.
  pose proof Ht as Ht'. clear Ht. unfold tl, tr in Ht'. cbn [rep] in Ht'.
  destruct Ht' as ([Ha Haa] & Hma & ([Hla ?] & Hmla & Hll & Hlr) &
    ([Hra ?] & Hmra & ([Hrla ?] & Hmrla & Hrl & Hrlr) & Hrr)).
  assert (rep m a (plug k1 (T sc E s d))) as Htr1.
  { pose proof (min_split_spec _ _ _ _ _ _ _ _ _ Hmin) as Heq. simpl in Heq.
    rewrite <- Heq. by rb_rep. }
  apply repseg_plug in Htr1 as [Hseg ([Hs Hsa] & Hms & _ & Hd)].
  replace (segptr a k1) with (cptr k1) in Hms by (by destruct k1).
  pose proof (cptr_aligned _ _ _ _ Hk) as Hka.
  pose proof (taug_at _ _ _ _ Hd Hvd) as Hatd.
  simpl in Hnd1, Hma, Hmra. nodup_simp.
  unfold __rb_erase_augmented. rb_run. apply wp_with_fuel.
  eapply (leftmost_wp _ rlc rll rla rlr rc ra rr [] k1 sc s d ra);
    [by rb_rep| |exact Hmin|].
  { simpl in Hf |- *. rewrite length_app in Hf. unfold rb_fuel. simpl. lia. }
  cbn [fst snd]. rb_run.
  eapply (wp_seg_set_left k1 a s (ptr d)); [done..|].
  intros m1 Hseg1 Hm1 _. 
  assert (m1 !! s = Some (RbNode (pcw (cptr k1) sc) (ptr d) NULL)) as Hms1
    by (by rewrite Hm1).
  rb_run. rewrite Htop at 1.
  eapply (wp_seg_set_parent k1 a s (ptr d)); [done|done|by apply repseg_insert|done|].
  intros m2 Hseg2 Hm2 _.
  rb_run. eapply wp_copy; [done|done|exact Hva|exact Hvs|]. intros v1 Hf1 Hvs1. rb_run.
  rewrite <- (segptr_cptr s k1 Hk1).
  eapply (propagate_ok (RbState m2 root) v1 s k1 (ptr d) (inorder d));
    [exact Hseg2|done|done|done|by eapply ptr_notin|by eapply taug_at; [|aug_solve]
    |by eapply caug_path; aug_solve|]. intros v2 Hf2 Hc2.
  rewrite (segptr_cptr s k1 Hk1).
  assert (m2 !! s = Some (RbNode (pcw (cptr k1) sc) ra NULL)) as Hms2
    by (rewrite Hm2 by done; by lk).
  assert (∀ x, x ∉ s :: caddrs k1 → m2 !! x = m !! x) as Hm2'.
  { rb_frame. rewrite Hm2, lookup_insert_ne by done. by apply Hm1. }
  clear Hm2 Hseg1 Hms1 Hm1 m1.
  assert (m2 !! a = m !! a) as Hma2 by (apply Hm2'; nodup_done). rewrite Hma in Hma2.
  assert (m2 !! la = m !! la) as Hmla2 by (apply Hm2'; nodup_done).
  rewrite Hmla in Hmla2.
  rb_run. cbn [fst snd]. rb_run. rb_pc.
  eapply (wp_change_child a s k); [done..| |].
  { rb_rep. eapply repc_agree; [exact Hm2'|nodup_done|done]. }
  intros m3 root3 Hk3 Hm3 _.
  assert (m3 !! s = Some (RbNode (pcw (cptr k1) sc) ra la)) as Hms3
    by (rewrite Hm3 by done; by lk).
  assert (m3 !! la = Some (RbNode (pcw s lc) (ptr lr) (ptr ll))) as Hmla3
    by (rewrite Hm3 by done; by lk).
  assert (repseg m3 s k1 (ptr d)) as Hseg3.
  { eapply repseg_agree; [exact Hm3|nodup_done|].
    apply repseg_insert; [done|]. by apply repseg_insert. }
  assert (rep m3 s d) as Hd3 by rb_rep.
  assert (∀ x, x ∉ inorder tl ++ inorder tr ++ caddrs k → m3 !! x = m !! x) as HL.
  { intros x Hx. rewrite Hperm in Hx. simpl in Hx. nodup_simp.
    rewrite Hm3 by done. lk_rw. apply Hm2'. nodup_done. }
  assert (∀ w x, x ∉ inorder tl ++ inorder tr ++ caddrs k →
    <[s:=w]> m3 !! x = m !! x) as HLs.
  { intros w x Hx. rewrite lookup_insert_ne; [by apply HL|].
    intros <-. apply Hx. rewrite Hperm. clear. set_solver. }
  pose proof (repseg_cptr _ _ _ _ Hseg3 Hk1) as [_ Hk1a].
  set (w := RbNode (pcw (cptr k) c) ra la).
  assert (repc (<[s:=w]> m3) root3 (FR c tl s :: k) ra) as HkF
    by (unfold tl; rb_rep).
  assert (repseg (<[s:=w]> m3) s k1 (ptr d)) as HsegF by by apply repseg_insert.
  assert (repc (<[s:=w]> m3) root3 (k1 ++ FR c tl s :: k) (ptr d)) as HF
    by (apply repc_app; by rewrite <- Htop).
  assert (cptr (k1 ++ FR c tl s :: k) = cptr k1) as Hcp
    by (by destruct k1 as [|[]]).
  set (F := FR c tl s :: k) in *.
  assert (aug_path v2 F) as Hp2.
  { eexists. unfold tl in Hvl |- *. destruct Hvl as (? & ? & ?).
    split_and!; [apply Hf2; [done|exact Hvs1]|aug_solve|aug_solve]. }
  assert (aug_at v2 ra (inorder (plug k1 d))) as Hat2.
  { rewrite Htop, <- ptr_plug. apply taug_root; [by rewrite ptr_plug, <- Htop|].
    apply taug_plug. split; [done|aug_solve]. }
  assert (∀ m4 root4 (Q : unit → rb_state * X → Prop), repc m4 root4 F ra →
    (∀ v3, caug v3 (k1 ++ F) (inorder (blacken d)) → taug v3 (blacken d) →
       Q tt (RbState m4 root4, v3)) →
    wp (propagate cb s NULL) Q (RbState m4 root4, v2)) as Hprop.
  { intros m4 root4 Q HF4 HQ. eapply (wp_propagate_up _ _ _ F (plug k1 d)).
    - by rewrite ptr_plug, <- Htop.
    - unfold F, tl. simpl. nodup_done.
    - intros x. rewrite inorder_plug_perm. revert x.
      change (disj (inorder d ++ caddrs k1) (caddrs F)). unfold F, tl. simpl. nodup_done.
    - by rewrite ptr_plug, <- Htop.
    - done.
    - intros v3 Hf3 Hc3. rewrite inorder_plug in Hc3. apply HQ.
      + rewrite inorder_blacken. apply caug_app. split; [|done].
        eapply caug_frame; [exact Hf3|unfold F, tl; simpl; nodup_done|done].
      + apply taug_blacken. eapply taug_frame; [exact Hf3|unfold F, tl; simpl; nodup_done|].
        aug_solve. }
  assert (da_ok : ∀ x, x ∈ inorder d → x ∉ caddrs F).
  { change (disj (inorder d) (caddrs F)). unfold F, tl. simpl. nodup_done. }
  clear Hat2 Hp2. destruct d as [|dc dl da dr]; rb_run.
  - rb_pc. apply Hprop; [done|]. intros v3 Hc3 Hv3. rb_run.
    apply unlinked_intro; [done|done|by destruct sc; rewrite ?Hcp|by apply HLs|done|done].
  - specialize (da_ok da ltac:(simpl; clear; set_solver)).
    rb_destruct_red. rb_run. apply Hprop; [by apply repc_insert|].
    intros v3 Hc3 Hv3. rb_run. apply unlinked_intro; [| |done| |done|done].
    + apply repc_insert; [|done]. rewrite caddrs_app. unfold F. simpl. nodup_done.
    + rewrite Hcp. by rb_rep.
    + intros x Hx. rewrite lookup_insert_ne; [by apply HLs|].
      intros <-. apply Hx. rewrite Hperm. clear. set_solver.
Qed.
End successor.

(** ** rb_erase *)

Section unlinking.
Context {X : Type} `{!AugValues X} (cb : rb_augment_callbacks X) `{!Augmented cb}.

Lemma erase_aug_wp k c l a r m root v :
  repc m root k a → rep m (cptr k) (T c l a r) →
  NoDup (inorder (T c l a r) ++ caddrs k) →
  caug v k (inorder (T c l a r)) → taug v (T c l a r) →
  wp (__rb_erase_augmented a cb)
     (let '(k', t', short) := unlink k c l r in
      unlinked m (inorder l ++ inorder r ++ caddrs k) k' t' short) (RbState m root, v).
Proof using Augmented0.
  intros Hk Ht Hnd Hc Hv.
  destruct l as [|lc ll la lr]; [by apply (erase_aug_leaf cb _ c)|].
  destruct r as [|rc rl ra rr]; [by apply (erase_aug_left cb _ c)|].
  unfold unlink. destruct (min_split rc rl ra rr []) as [[[k1 sc] s] d] eqn:Hmin.
  destruct rl as [|rlc rll rla rlr].
  - simpl in Hmin. simplify_eq. by apply (erase_aug_succ1 cb _ c).
  - by eapply erase_aug_succ3.
Qed.
End unlinking.

Lemma find_ctx a t : a ∈ inorder t → ∃ k c l r, t = plug k (T c l a r).
Proof.
  assert (∀ k, a ∈ inorder t → ∃ k' c l r, plug k t = plug k' (T c l a r)) as H.
  { induction t as [|c l IHl b r IHr]; intros k Ha; simpl in Ha.
    - by apply not_elem_of_nil in Ha.
    - apply elem_of_app in Ha as [Ha|[->|Ha]%elem_of_cons].
      + apply (IHl (FL c b r :: k) Ha).
      + by eexists k, c, l, r.
      + apply (IHr (FR c l b :: k) Ha). }
  intros Ha. apply (H [] Ha).
Qed.

(** What a zipper says about the whole tree. *)
Lemma represents_plug m root k t :
  represents (RbState m root) (plug k t) ↔
  repc m root k (ptr t) ∧ rep m (cptr k) t ∧ NoDup (inorder t ++ caddrs k).
Proof.
  unfold represents. simpl. rewrite <- (inorder_plug_perm k t).
  pose proof (rep_plug m root k t). tauto.
Qed.

Lemma NoDup_contents (l1 l2 l3 : list Z) : NoDup (l1 ++ l2 ++ l3) → NoDup l2.
Proof. intros. nodup_simp. done. Qed.

(** Unlinking rearranges the other nodes. *)
Lemma unlink_perm k c l r k' t' short :
  unlink k c l r = (k', t', short) →
  inorder t' ++ caddrs k' ≡ₚ inorder l ++ inorder r ++ caddrs k.
Proof.
  unfold unlink. intros H. destruct l as [|lc ll la lr], r as [|rc rl ra rr].
  - by simplify_eq.
  - by simplify_eq.
  - by simplify_eq.
  - destruct (min_split rc rl ra rr []) as [[[k1 sc] s] d] eqn:Hmin.
    injection H as <- <- _. apply min_split_spec in Hmin. simpl plug in Hmin.
    rewrite Hmin, inorder_plug_perm, inorder_blacken, caddrs_app. simpl.
    solve_Permutation.
Qed.

Lemma unlink_short k c l r k' t' : unlink k c l r = (k', t', true) → t' = E.
Proof.
  unfold unlink. intros H. destruct l as [|lc ll la lr], r as [|rc rl ra rr]; simplify_eq; [done|].
  destruct (min_split rc rl ra rr []) as [[[k1 sc] s] d]. by destruct d; simplify_eq.
Qed.

(** Erasing the node [a] of a red-black tree. *)
Section erasing.
Context {X : Type} `{!AugValues X} (cb : rb_augment_callbacks X) `{!Augmented cb}.

Lemma erase_augmented_wp a m root v t :
  represents (RbState m root) t → redblack t → a ∈ inorder t → taug v t →
  wp (rb_erase_augmented a cb)
     (λ _ sg, ∃ t' l r, represents (fst sg) t' ∧ redblack t' ∧
        inorder t = l ++ a :: r ∧ inorder t' = l ++ r ∧
        (∀ x, x ∉ l ++ r → rb_mem (fst sg) !! x = m !! x) ∧ taug (snd sg) t')
     (RbState m root, v).
Proof using Augmented0.
  intros Hs Hrb Ha Hv.
  apply find_ctx in Ha as (k & c & l & r & ->). apply taug_plug in Hv as [Hc Hv].
  destruct (erase_at_rb k c l a r Hrb) as (t' & Ht' & Hrb').
  pose proof (erase_at_inorder _ _ _ _ _ Ht') as Hord.
  apply represents_plug in Hs as (Hk & Ht & Hnd). simpl in Hk.
  unfold erase_at in Ht'. destruct (unlink k c l r) as [[k' u] short] eqn:Hu.
  pose proof (unlink_perm _ _ _ _ _ _ _ Hu) as Hperm.
  apply wp_bind. eapply wp_mono; [by apply (erase_aug_wp cb k c l a r)|].
  rewrite Hu. intros reb [[m1 root1] v1] (Hk1 & Hu1 & -> & Hm1 & Hc1 & Hv1). simpl in *.
  assert (∀ sg, arebuilt m1 (inorder u ++ caddrs k') t' sg →
    ∃ (t' : tree) (l0 r0 : list Z), represents (fst sg) t' ∧ redblack t' ∧
      inorder (plug k (T c l a r)) = l0 ++ a :: r0 ∧ inorder t' = l0 ++ r0 ∧
      (∀ x, x ∉ l0 ++ r0 → rb_mem (fst sg) !! x = m !! x) ∧ taug (snd sg) t') as Hfin.
  { intros sg ((Ht2 & Hr2 & Hm2) & Hv2).
    exists t', (lefts k ++ inorder l), (inorder r ++ rights k).
    assert (inorder t' ≡ₚ inorder l ++ inorder r ++ caddrs k) as Hp'.
    { rewrite Hord, caddrs_perm. solve_Permutation. }
    split_and!; [split_and!; [done..|]| | | | |].
    - rewrite Hp'. clear -Hnd. nodup_simp. nodup_done.
    - done.
    - rewrite inorder_plug. simpl. by rewrite <- !app_assoc.
    - by rewrite Hord, <- !app_assoc.
    - intros x Hx. rewrite <- app_assoc, <- Hord, Hp' in Hx.
      rewrite Hm2 by (by rewrite Hperm). by apply Hm1.
    - done. }
  destruct short; simpl.
  - assert (u = E) as -> by (by eapply unlink_short).
    destruct (decide (k' = [])) as [->|Hne].
    + simpl in *. simplify_eq. apply wp_ret, Hfin.
      by apply (arebuilt_plug _ _ _ _ _ [] E).
    + pose proof (cptr_node_ok _ _ _ _ Hk1 Hne) as Hcp.
      assert (NoDup (caddrs k')) as Hndk.
      { simpl in Hperm. rewrite Hperm. clear -Hnd. nodup_simp. nodup_done. }
      rewrite (proj2 (Z.eqb_neq _ _) Hcp). simpl.
      apply wp_with_afuel.
      eapply wp_mono; [eapply (erase_loop_wp cb _ k' E); try done
                      | intros [] sg' Hs'; by apply Hfin].
      unfold rb_fuel. simpl. pose proof (repc_fuel _ _ _ _ Hk1 Hndk). lia.
  - simplify_eq. apply wp_ret, Hfin. by apply arebuilt_plug.
Qed.
End erasing.

Lemma rb_erase_wp a s t :
  represents s t → redblack t → a ∈ inorder t →
  wp (rb_erase a)
     (λ _ s', ∃ t' l r, represents s' t' ∧ redblack t' ∧
        inorder t = l ++ a :: r ∧ inorder t' = l ++ r ∧
        (∀ x, x ∉ l ++ r → rb_mem s' !! x = rb_mem s !! x)) s.
Proof.
  destruct s as [m root]. intros Hs Hrb Ha. apply wp_plain.
  eapply wp_mono; [exact (erase_augmented_wp dummy_callbacks a m root tt t Hs Hrb Ha
    (no_values_taug t))|].
  intros _ [s' []] (t' & l & r & ? & ? & ? & ? & ? & _). by exists t', l, r.
Qed.
