(* ===== verification/RbIter.v ===== *)
(** Walking a tree: rb_first, rb_last, rb_next, rb_prev, the post-order walk
    and rb_replace_node (src/src/rbtree.c), as functions of the in-order and
    post-order sequences of the tree that the memory represents. *)
From Stdlib Require Import ZArith Lia.
From stdpp Require Import base tactics option list numbers gmap.
From S2P Require Import Prelude RbTree RbSpec RbRep RbAug RbUnlink.

Local Open Scope Z_scope.

(** The element of a sequence that a C function returns, NULL at its end. *)
Definition first_of (l : list Z) : Z := default NULL (head l).
Definition last_of (l : list Z) : Z := default NULL (last l).

(** The order rb_next_postorder promises: children before their parent. *)
Fixpoint postorder (t : tree) : list Z :=
  match t with E => [] | T _ l a r => postorder l ++ postorder r ++ [a] end.
Fixpoint post_rest (k : ctx) : list Z :=
  match k with
  | [] => []
  | FL _ a r :: k => postorder r ++ a :: post_rest k
  | FR _ _ a :: k => a :: post_rest k
  end.
Fixpoint post_before (k : ctx) : list Z :=
  match k with
  | [] => []
  | FL _ _ _ :: k => post_before k
  | FR _ l _ :: k => post_before k ++ postorder l
  end.

Lemma postorder_plug k t : postorder (plug k t) = post_before k ++ postorder t ++ post_rest k.
Proof.
  revert t. induction k as [|[c a r|c l a] k IH]; intros t; simpl.
  - by rewrite app_nil_r.
  - rewrite IH. simpl. by rewrite <- !app_assoc.
  - rewrite IH. simpl. by rewrite <- !app_assoc.
Qed.

Lemma first_of_app l1 l2 : l1 ≠ [] → first_of (l1 ++ l2) = first_of l1.
Proof. by destruct l1. Qed.
Lemma last_of_app l1 l2 : l2 ≠ [] → last_of (l1 ++ l2) = last_of l2.
Proof.
  intros H. unfold last_of. rewrite last_app.
  destruct (last l2) eqn:E; [done|]. by apply last_None in E.
Qed.
Lemma inorder_ne c l a r : inorder (T c l a r) ≠ [].
Proof. simpl. by destruct (inorder l). Qed.
Lemma postorder_ne c l a r : postorder (T c l a r) ≠ [].
Proof. simpl. by destruct (postorder l), (postorder r). Qed.

Lemma first_of_left c l a r :
  first_of (inorder (T c l a r)) = match l with E => a | _ => first_of (inorder l) end.
Proof. destruct l as [|c' l' a' r']; [done|]. apply first_of_app, (inorder_ne c' l' a' r'). Qed.
Lemma last_of_right c l a r :
  last_of (inorder (T c l a r)) = match r with E => a | _ => last_of (inorder r) end.
Proof.
  destruct r as [|c' l' a' r']; simpl; rewrite last_of_app by done.
  - done.
  - change (a :: inorder l' ++ a' :: inorder r') with ([a] ++ inorder (T c' l' a' r')).
    apply last_of_app, (inorder_ne c' l' a' r').
Qed.

Lemma length_postorder t : length (postorder t) = length (inorder t).
Proof. induction t; simpl; rewrite ?length_app; simpl; lia. Qed.

(** ** Going down *)

Lemma go_left_wp fuel m p c l a r root :
  (length (inorder (T c l a r)) ≤ fuel)%nat → rep m p (T c l a r) →
  wp (go_left fuel a)
     (λ v s, v = first_of (inorder (T c l a r)) ∧ s = RbState m root) (RbState m root).
Proof.
  revert p c l a r. induction fuel as [|fuel IH]; intros p c l a r Hf Hr.
  { simpl in Hf. rewrite length_app in Hf. simpl in Hf. lia. }
  simpl in Hr. destruct Hr as ([Ha ?] & Hm & Hl & Hr).
  rewrite first_of_left. simpl. rb_run. destruct l as [|lc ll la lr].
  - rb_run. done.
  - simpl in Hl. pose proof Hl as ([Hla _] & _). simpl ptr.
    rewrite (proj2 (Z.eqb_neq _ _) Hla). simpl.
    eapply IH; [|exact Hl]. revert Hf. cbn [inorder]. rewrite !length_app.
    simpl. rewrite ?length_app. simpl. lia.
Qed.

Lemma go_right_wp fuel m p c l a r root :
  (length (inorder (T c l a r)) ≤ fuel)%nat → rep m p (T c l a r) →
  wp (go_right fuel a)
     (λ v s, v = last_of (inorder (T c l a r)) ∧ s = RbState m root) (RbState m root).
Proof.
  revert p c l a r. induction fuel as [|fuel IH]; intros p c l a r Hf Hr.
  { simpl in Hf. rewrite length_app in Hf. simpl in Hf. lia. }
  simpl in Hr. destruct Hr as ([Ha ?] & Hm & Hl & Hr).
  rewrite last_of_right. simpl. rb_run. destruct r as [|rc rl ra rr].
  - rb_run. done.
  - simpl in Hr. pose proof Hr as ([Hra _] & _). simpl ptr.
    rewrite (proj2 (Z.eqb_neq _ _) Hra). simpl.
    eapply IH; [|exact Hr]. revert Hf. cbn [inorder]. rewrite !length_app.
    simpl. rewrite ?length_app. simpl. lia.
Qed.

Lemma left_deepest_wp fuel m p c l a r root :
  (length (postorder (T c l a r)) ≤ fuel)%nat → rep m p (T c l a r) →
  wp (left_deepest_loop fuel a)
     (λ v s, v = first_of (postorder (T c l a r)) ∧ s = RbState m root) (RbState m root).
Proof.
  revert p c l a r. induction fuel as [|fuel IH]; intros p c l a r Hf Hr.
  { simpl in Hf. rewrite !length_app in Hf. simpl in Hf. lia. }
  simpl in Hr. destruct Hr as ([Ha ?] & Hm & Hl & Hr). simpl in Hf.
  rewrite !length_app in Hf. simpl in Hf.
  simpl. rb_run. destruct l as [|lc ll la lr].
  - rb_run. destruct r as [|rc rl ra rr]; [by rb_run|].
    simpl in Hr. pose proof Hr as ([Hra _] & _).
    simpl ptr. rewrite (proj2 (Z.eqb_neq _ _) Hra). simpl app.
    rewrite (first_of_app (postorder (T rc rl ra rr))) by apply (postorder_ne rc).
    eapply IH; [|exact Hr]. lia.
  - simpl in Hl. pose proof Hl as ([Hla _] & _). simpl ptr.
    rewrite (proj2 (Z.eqb_neq _ _) Hla).
    cbn [postorder].
    rewrite (first_of_app (postorder (T lc ll la lr))) by apply (postorder_ne lc).
    eapply IH; [|exact Hl]. cbn [postorder] in *. lia.
Qed.

(** ** Going up *)

Lemma up_from_right_wp fuel m k t p root :
  (length k < fuel)%nat → repc m root k (ptr t) → rep m p t →
  NoDup (inorder t ++ caddrs k) → t ≠ E → p = cptr k →
  wp (up_from_right fuel (ptr t))
     (λ v s, v = first_of (rights k) ∧ s = RbState m root) (RbState m root).
Proof.
  revert k t p. induction fuel as [|fuel IH]; intros k t p Hf Hk Ht Hnd Hne ->; [lia|].
  destruct t as [|c l a r]; [done|]. simpl in Ht. pose proof (cptr_aligned _ _ _ _ Hk).
  destruct Ht as ([Ha ?] & Hm & Hl & Hr). simpl. rb_run.
  destruct k as [|[kc ka kr|kc kl ka] k]; simpl in *; rb_run; [done|..].
  - destruct Hk as ([Hka ?] & Hmk & ? & ?). nodup_simp. by rb_run.
  - destruct Hk as ([Hka ?] & Hmk & ? & ?). nodup_simp. rb_run.
    apply (IH k (T kc kl ka (T c l a r)) (cptr k)); [lia|done| |by simpl; nodup_done|done|done].
    simpl. by rb_rep.
Qed.

Lemma up_from_left_wp fuel m k t p root :
  (length k < fuel)%nat → repc m root k (ptr t) → rep m p t →
  NoDup (inorder t ++ caddrs k) → t ≠ E → p = cptr k →
  wp (up_from_left fuel (ptr t))
     (λ v s, v = last_of (lefts k) ∧ s = RbState m root) (RbState m root).
Proof.
  revert k t p. induction fuel as [|fuel IH]; intros k t p Hf Hk Ht Hnd Hne ->; [lia|].
  destruct t as [|c l a r]; [done|]. simpl in Ht. pose proof (cptr_aligned _ _ _ _ Hk).
  destruct Ht as ([Ha ?] & Hm & Hl & Hr). simpl. rb_run.
  destruct k as [|[kc ka kr|kc kl ka] k]; simpl in *; rb_run; [done|..].
  - destruct Hk as ([Hka ?] & Hmk & ? & ?). nodup_simp. rb_run.
    apply (IH k (T kc (T c l a r) ka kr) (cptr k)); [lia|done| |by simpl; nodup_done|done|done].
    simpl. by rb_rep.
  - destruct Hk as ([Hka ?] & Hmk & ? & ?). nodup_simp. rb_run.
    rewrite app_assoc, last_of_app by done. done.
Qed.

(** ** The traversal functions *)

Lemma rep_size m p t : rep m p t → NoDup (inorder t) → (length (inorder t) ≤ size m)%nat.
Proof. intros Ht Hn. apply NoDup_dom_size; [done|]. intros x. by eapply rep_dom. Qed.

Lemma rb_first_wp s t :
  represents s t → wp rb_first (λ v s', v = first_of (inorder t) ∧ s' = s) s.
Proof.
  destruct s as [m root]. intros (Ht & Hroot & Hnd). simpl in *. subst root.
  unfold rb_first. rb_run. destruct t as [|c l a r]; [by rb_run|].
  pose proof Ht as Ht'. destruct Ht' as ([Ha _] & _). simpl ptr. rb_run.
  apply wp_with_fuel. eapply go_left_wp; [|exact Ht].
  pose proof (rep_size _ _ _ Ht Hnd). unfold rb_fuel. simpl rb_mem. lia.
Qed.

Lemma rb_last_wp s t :
  represents s t → wp rb_last (λ v s', v = last_of (inorder t) ∧ s' = s) s.
Proof.
  destruct s as [m root]. intros (Ht & Hroot & Hnd). simpl in *. subst root.
  unfold rb_last. rb_run. destruct t as [|c l a r]; [by rb_run|].
  pose proof Ht as Ht'. destruct Ht' as ([Ha _] & _). simpl ptr. rb_run.
  apply wp_with_fuel. eapply go_right_wp; [|exact Ht].
  pose proof (rep_size _ _ _ Ht Hnd). unfold rb_fuel. simpl rb_mem. lia.
Qed.

(** A node that is in a tree is never [RB_EMPTY_NODE]: its parent word is not
    its own address. *)
Lemma pcw_ne_self p c a : node_ok a → aligned p → p ≠ a → pcw p c ≠ a.
Proof.
  intros [_ [_ Ha]] Hp Hne. rewrite pcw_add by done. destruct Hp as [_ Hp].
  pose proof (Z.div_mod p 8). pose proof (Z.div_mod a 8).
  destruct c; simpl; unfold RB_RED, RB_BLACK; lia.
Qed.

Lemma RB_EMPTY_NODE_wp m root k c l a r :
  repc m root k a → rep m (cptr k) (T c l a r) → a ∉ caddrs k →
  wp (RB_EMPTY_NODE a) (λ b s, b = false ∧ s = RbState m root) (RbState m root).
Proof.
  intros Hk ([Ha Hal] & Hm & _) Hin. unfold RB_EMPTY_NODE. rb_run.
  split; [|done]. apply Z.eqb_neq, pcw_ne_self; [by split|by eapply cptr_aligned|].
  destruct (decide (k = [])) as [->|Hne]; [done|].
  intros <-. by apply Hin, cptr_in.
Qed.

(** The split of the in-order sequence at a node is the node's place in the
    tree. *)
Lemma inorder_split k c l a r l1 l2 :
  NoDup (inorder (plug k (T c l a r))) → inorder (plug k (T c l a r)) = l1 ++ a :: l2 →
  l1 = lefts k ++ inorder l ∧ l2 = inorder r ++ rights k.
Proof.
  rewrite inorder_plug. simpl. rewrite <- app_assoc, app_assoc. simpl. intros Hn Hs.
  destruct (NoDup_pivot _ _ _ _ _ Hs Hn) as [<- <-]. done.
Qed.

(** [if (t) rb_set_parent(t, p')] on a subtree. *)
Lemma wp_reparent t p p' m root Q :
  rep m p t → aligned p → NoDup (inorder t) →
  (∀ m', rep m' p' t → (∀ x, x ∉ inorder t → m' !! x = m !! x) → Q tt (RbState m' root)) →
  wp (when_set_parent (ptr t) p') Q (RbState m root).
Proof.
  intros Ht Hp Hnd HQ. destruct t as [|c l a r]; [by apply HQ|].
  simpl in Hnd. rb_destruct_red. rb_run. apply HQ; [by rb_rep|]. simpl. rb_frame. by lk.
Qed.

Section neighbours.
Context (s : rb_state) (k : ctx) (c : color) (l : tree) (a : Z) (r : tree).
Hypothesis Hs : represents s (plug k (T c l a r)).

Lemma rb_next_wp :
  wp (rb_next a) (λ v s', v = first_of (inorder r ++ rights k) ∧ s' = s) s.
Proof.
  destruct s as [m root]. apply represents_plug in Hs as (Hk & Ht & Hnd).
  pose proof (repc_fuel _ _ _ _ Hk ltac:(nodup_simp; done)) as Hf.
  simpl ptr in Hk. pose proof Ht as ([Ha ?] & Hm & Hl & Hr). unfold rb_next. rb_run.
  eapply wp_mono; [eapply (RB_EMPTY_NODE_wp _ _ _ _ _ _ _ Hk Ht)|].
  { simpl in Hnd. nodup_simp. done. }
  intros b s' [-> ->]. rb_run. destruct r as [|rc rl ra rr].
  - rb_run. apply wp_with_fuel.
    apply (up_from_right_wp _ _ k (T c l a E) (cptr k)); try done.
    unfold rb_fuel. simpl. lia.
  - pose proof Hr as ([Hra _] & _). rb_run. apply wp_with_fuel.
    rewrite first_of_app by apply (inorder_ne rc).
    eapply go_left_wp; [|exact Hr]. unfold rb_fuel. simpl rb_mem.
    etrans; [eapply rep_size; [exact Hr|]|lia].
    change (inorder (T c l a (T rc rl ra rr))) with
      (inorder l ++ a :: inorder (T rc rl ra rr)) in Hnd.
    clear -Hnd. nodup_simp. done.
Qed.

Lemma rb_prev_wp :
  wp (rb_prev a) (λ v s', v = last_of (lefts k ++ inorder l) ∧ s' = s) s.
Proof.
  destruct s as [m root]. apply represents_plug in Hs as (Hk & Ht & Hnd).
  pose proof (repc_fuel _ _ _ _ Hk ltac:(nodup_simp; done)) as Hf.
  simpl ptr in Hk. pose proof Ht as ([Ha ?] & Hm & Hl & Hr). unfold rb_prev. rb_run.
  eapply wp_mono; [eapply (RB_EMPTY_NODE_wp _ _ _ _ _ _ _ Hk Ht)|].
  { simpl in Hnd. nodup_simp. done. }
  intros b s' [-> ->]. rb_run. destruct l as [|lc ll la lr].
  - rb_run. apply wp_with_fuel. cbn [inorder]. rewrite app_nil_r.
    apply (up_from_left_wp _ _ k (T c E a r) (cptr k)); try done.
    unfold rb_fuel. simpl. lia.
  - pose proof Hl as ([Hla _] & _). rb_run. apply wp_with_fuel.
    rewrite last_of_app by apply (inorder_ne lc).
    eapply go_right_wp; [|exact Hl]. unfold rb_fuel. simpl rb_mem.
    etrans; [eapply rep_size; [exact Hl|]|lia].
    change (inorder (T c (T lc ll la lr) a r)) with
      (inorder (T lc ll la lr) ++ a :: inorder r) in Hnd.
    clear -Hnd. nodup_simp. done.
Qed.

Lemma rb_next_postorder_wp :
  wp (rb_next_postorder a) (λ v s', v = first_of (post_rest k) ∧ s' = s) s.
Proof.
  destruct s as [m root]. apply represents_plug in Hs as (Hk & Ht & Hnd).
  pose proof (cptr_aligned _ _ _ _ Hk) as Hkal. simpl ptr in Hk.
  pose proof Ht as ([Ha ?] & Hm & Hl & Hr). unfold rb_next_postorder. rb_run.
  destruct k as [|[kc ka kr|kc kl ka] k']; simpl in *; rb_run.
  - done.
  - destruct Hk as ([Hka ?] & Hmk & Hkr & ?). nodup_simp. rb_run.
    destruct kr as [|rc rl ra rr]; [by rb_run|].
    pose proof Hkr as ([Hra _] & _). rb_run. apply wp_with_fuel.
    rewrite first_of_app by apply (postorder_ne rc).
    eapply left_deepest_wp; [|exact Hkr]. rewrite length_postorder.
    unfold rb_fuel. simpl rb_mem. etrans; [eapply rep_size; [exact Hkr|]|lia].
    done.
  - destruct Hk as ([Hka ?] & Hmk & Hkr & ?). nodup_simp. by rb_run.
Qed.

(** rb_replace_node puts [new] at the victim's place. *)
Lemma rb_replace_node_wp new :
  node_ok new → is_Some (rb_mem s !! new) → new ∉ inorder (plug k (T c l a r)) →
  wp (rb_replace_node a new)
     (λ _ s', represents s' (plug k (T c l new r)) ∧
        (∀ x, x ∉ new :: inorder (plug k (T c l a r)) → rb_mem s' !! x = rb_mem s !! x)) s.
Proof.
  destruct s as [m root]. apply represents_plug in Hs as (Hk & Ht & Hnd).
  intros [Hnew Hna] [v Hv] Hin. simpl in Hv.
  rewrite inorder_plug_perm in Hin. simpl in Hin, Hnd.
  pose proof (cptr_aligned _ _ _ _ Hk) as Hkal. simpl ptr in Hk.
  destruct Ht as ([Ha ?] & Hm & Hl & Hr). nodup_simp.
  unfold rb_replace_node. rb_run. apply wp_change_child; [done..|].
  intros m' root' Hk' Hm' _.
  assert (rep m' a l) as Hl' by rb_rep. assert (rep m' a r) as Hr' by rb_rep.
  assert (m' !! a = Some (RbNode (pcw (cptr k) c) (ptr r) (ptr l))) as Hma by rb_rep.
  assert (m' !! new = Some v) as Hmn by (by rewrite Hm').
  rb_run. apply (wp_reparent _ a); [done..|]. intros m1 Hl1 Hm1.
  assert (m1 !! a = m' !! a) as Hma1 by (by apply Hm1). rewrite Hma in Hma1.
  assert (rep m1 a r) as Hr1 by rb_rep.
  rb_run. apply (wp_reparent _ a); [done..|]. intros m2 Hr2 Hm2.
  eapply wp_bind, wp_load; [done|rewrite Hm2 by done; exact Hma1|].
  eapply wp_store; [done|rewrite Hm2, Hm1 by done; exact Hmn|].
  split; [|intros x Hx; rewrite inorder_plug_perm in Hx; revert x Hx; simpl; rb_frame;
           lk_rw; by rewrite Hm2, Hm1, Hm'].
  apply represents_plug. simpl. split_and!; try by rb_rep.
  - apply repc_insert; [done|]. by do 2 (eapply repc_agree; [eassumption|nodup_done|]).
  - nodup_done.
Qed.
End neighbours.

Lemma rb_first_postorder_wp s t :
  represents s t → wp rb_first_postorder (λ v s', v = first_of (postorder t) ∧ s' = s) s.
Proof.
  destruct s as [m root]. intros (Ht & Hroot & Hnd). simpl in *. subst root.
  unfold rb_first_postorder. rb_run. destruct t as [|c l a r]; [by rb_run|].
  pose proof Ht as Ht'. destruct Ht' as ([Ha _] & _). simpl ptr. rb_run.
  apply wp_with_fuel. eapply left_deepest_wp; [|exact Ht]. rewrite length_postorder.
  pose proof (rep_size _ _ _ Ht Hnd). unfold rb_fuel. simpl rb_mem. lia.
Qed.

(** ** Nodes by their place in the sequence *)

Lemma find_split t l1 a l2 :
  inorder t = l1 ++ a :: l2 → NoDup (inorder t) →
  ∃ k c l r, t = plug k (T c l a r) ∧ l1 = lefts k ++ inorder l ∧ l2 = inorder r ++ rights k.
Proof.
  intros Hs Hn. destruct (find_ctx a t) as (k & c & l & r & ->).
  { rewrite Hs. set_solver. }
  exists k, c, l, r. split; [done|]. by apply (inorder_split k c l a r).
Qed.

Lemma rb_next_at s t l1 a l2 :
  represents s t → inorder t = l1 ++ a :: l2 →
  wp (rb_next a) (λ v s', v = first_of l2 ∧ s' = s) s.
Proof.
  intros Hs Hsp. destruct (find_split t l1 a l2 Hsp) as (k & c & l & r & -> & _ & ->);
    [apply Hs|by eapply rb_next_wp].
Qed.

(** ** Erasing and clearing *)

Lemma rep_nonnull m p t x : rep m p t → x ∈ inorder t → x ≠ NULL.
Proof.
  revert p. induction t as [|c l IHl a r IHr]; intros p; simpl; [set_solver|].
  intros ([Ha _] & _ & ? & ?) [?|[->|?]%elem_of_cons]%elem_of_app; eauto.
Qed.

Lemma represents_nonnull s t x : represents s t → x ∈ inorder t → x ≠ NULL.
Proof. intros [Ht _]. by eapply rep_nonnull. Qed.

Lemma rb_erase_init_wp a s t l r :
  represents s t → redblack t → inorder t = l ++ a :: r →
  wp (rb_erase_init a)
     (λ _ s', ∃ t' v, represents s' t' ∧ redblack t' ∧ inorder t' = l ++ r ∧
        (∀ x, x ∉ a :: l ++ r → rb_mem s' !! x = rb_mem s !! x) ∧
        rb_mem s' !! a = Some v ∧ rb_parent_color v = a) s.
Proof.
  intros Hs Hrb Hsp. apply wp_bind. eapply wp_mono.
  { apply (rb_erase_wp a s t Hs Hrb). rewrite Hsp. set_solver. }
  intros _ [m root] (t' & l' & r' & Hs' & ? & Hsp' & Hord & Hm).
  pose proof Hs as (Ht & _ & Hn).
  rewrite Hsp' in Hn. rewrite Hsp in Hsp'.
  destruct (NoDup_pivot _ _ _ _ _ (eq_sym Hsp') Hn) as [-> ->].
  assert (a ∉ l ++ r) as Ha by (nodup_simp; autorewrite with nodup; done).
  assert (a ≠ NULL).
  { eapply rep_nonnull; [exact Ht|]. rewrite Hsp. set_solver. }
  assert (is_Some (m !! a)) as [v Hv].
  { specialize (Hm a Ha). simpl in Hm. rewrite Hm. apply elem_of_dom.
    eapply rep_dom; [exact Ht|]. rewrite Hsp. set_solver. }
  rewrite <- Hord in Ha. unfold RB_CLEAR_NODE. eapply wp_set_pc; [done..|].
  exists t', (RbNode a (rb_right v) (rb_left v)). simpl. split_and!; try done.
  - destruct Hs' as (? & ? & ?). split_and!; [by apply rep_insert|done|done].
  - intros x Hx. nodup_simp. rewrite lookup_insert_ne by done. apply Hm. notin_from Hx.
  - by lk.
Qed.
