(* ===== verification/RbProps.v ===== *)
(** What rbtree.c promises its users: the theorems on insertion, erasure,
    traversal and replacement, stated on memories that represent a tree, and
    their instances on a concrete tree of three nodes. *)
From Stdlib Require Import ZArith Lia.
From stdpp Require Import base tactics option list numbers gmap.
From S2P Require Import Prelude RbTree RbSpec RbRep RbLink RbUnlink RbIter.

Local Open Scope Z_scope.

(** ** Whole walks

    [for (nd = rb_first(root); nd; nd = rb_next(nd))], the loop the users of
    the library write, and rbtree_postorder_for_each; the visited nodes are
    collected in order. *)
Fixpoint walk (step : Z → rbm Z) (fuel : nat) (nd : Z) : rbm (list Z) :=
  match fuel with
  | O => c_nofuel
  | S fuel =>
    if nd =? NULL then mret [] else
    nd' ← step nd;
    l ← walk step fuel nd';
    mret (nd :: l)
  end.

Definition rb_for_each : rbm (list Z) :=
  with_fuel (λ fuel, nd ← rb_first; walk rb_next fuel nd).
Definition rb_postorder_for_each : rbm (list Z) :=
  with_fuel (λ fuel, nd ← rb_first_postorder; walk rb_next_postorder fuel nd).

(** A step function that follows the sequence [L] makes the walk collect it. *)
Lemma walk_wp step s fuel pre L :
  (∀ x, x ∈ L → x ≠ NULL) → (length L < fuel)%nat →
  (∀ l1 a l2, pre ++ L = l1 ++ a :: l2 → wp (step a) (λ v s', v = first_of l2 ∧ s' = s) s) →
  wp (walk step fuel (first_of L)) (λ l s', l = L ∧ s' = s) s.
Proof.
  revert pre L. induction fuel as [|fuel IH]; intros pre L Hnz Hf Hstep; [lia|].
  destruct L as [|a L]; [done|]. cbn [walk first_of head].
  change (first_of (a :: L)) with a.
  rewrite (proj2 (Z.eqb_neq _ _) (Hnz a ltac:(left))). simpl in Hf.
  apply wp_bind. eapply wp_mono; [by eapply Hstep|]. intros v s' [-> ->].
  apply wp_bind. eapply wp_mono.
  { apply (IH (pre ++ [a]) L); [intros; apply Hnz; by right|lia|].
    intros l1 b l2 Hl. eapply Hstep. by rewrite <- app_assoc in Hl. }
  by intros l s' [-> ->].
Qed.

Lemma postorder_perm t : postorder t ≡ₚ inorder t.
Proof.
  induction t as [|c l IHl a r IHr]; simpl; [done|].
  rewrite IHl, IHr. solve_Permutation.
Qed.

Lemma find_post_split t l1 a l2 :
  postorder t = l1 ++ a :: l2 → NoDup (inorder t) →
  ∃ k c l r, t = plug k (T c l a r) ∧ l2 = post_rest k.
Proof.
  intros Hs Hn. destruct (find_ctx a t) as (k & c & l & r & ->).
  { rewrite <- postorder_perm, Hs. set_solver. }
  exists k, c, l, r. split; [done|].
  rewrite <- postorder_perm, postorder_plug in Hn. rewrite postorder_plug in Hs.
  simpl in Hs, Hn. rewrite <- !app_assoc in Hs, Hn. simpl in Hs, Hn.
  rewrite !app_assoc in Hs, Hn. by destruct (NoDup_pivot _ _ _ _ _ Hs Hn) as [_ <-].
Qed.

Lemma walk_represents step first s t L :
  represents s t → L ≡ₚ inorder t →
  wp first (λ v s', v = first_of L ∧ s' = s) s →
  (∀ l1 a l2, L = l1 ++ a :: l2 → wp (step a) (λ v s', v = first_of l2 ∧ s' = s) s) →
  wp (with_fuel (λ fuel, nd ← first; walk step fuel nd)) (λ l s', l = L ∧ s' = s) s.
Proof.
  intros (Ht & Hroot & Hn) HL Hfirst Hstep. apply wp_with_fuel, wp_bind.
  eapply wp_mono; [exact Hfirst|]. intros v s' [-> ->].
  apply (walk_wp _ _ _ []); [|unfold rb_fuel; pose proof (rep_size _ _ _ Ht Hn)|done].
  - intros x. rewrite HL. by eapply rep_nonnull.
  - rewrite HL. lia.
Qed.

(** ** The promises *)

(** C1. Inserting: rb_link_node at the hole that a descent found, followed by
    rb_insert_color, returns; the memory then represents a red-black tree
    whose in-order sequence has the new node exactly at the hole, and no
    object outside the tree and the new node is touched. *)
Theorem rb_insert_correct (n : Z) (k : ctx) (s : rb_state) :
  represents s (plug k E) → redblack (plug k E) → node_ok n →
  is_Some (rb_mem s !! n) → n ∉ inorder (plug k E) →
  wp (rb_link_node n (cptr k) (slot_of k);; rb_insert_color n)
     (λ _ s', ∃ t', represents s' t' ∧ redblack t' ∧
        inorder t' = lefts k ++ n :: rights k ∧
        (∀ x, x ∉ n :: inorder (plug k E) → rb_mem s' !! x = rb_mem s !! x)) s.
Proof. apply link_and_insert_wp. Qed.

(** C2. Erasing: rb_erase of a node of a red-black tree returns; the memory
    then represents a red-black tree whose in-order sequence is the old one
    without that node, and no object outside the remaining tree is touched,
    the erased node included. *)
Theorem rb_erase_correct (a : Z) (s : rb_state) (t : tree) (l r : list Z) :
  represents s t → redblack t → inorder t = l ++ a :: r →
  wp (rb_erase a)
     (λ _ s', ∃ t', represents s' t' ∧ redblack t' ∧ inorder t' = l ++ r ∧
        (∀ x, x ∉ l ++ r → rb_mem s' !! x = rb_mem s !! x)) s.
Proof.
  intros Hs Hrb Hsp. pose proof Hs as (_ & _ & Hn). eapply wp_mono.
  { apply (rb_erase_wp a s t Hs Hrb). rewrite Hsp. set_solver. }
  intros _ s' (t' & l' & r' & ? & ? & Hsp' & ? & ?). exists t'.
  rewrite Hsp in Hn, Hsp'. by destruct (NoDup_pivot _ _ _ _ _ Hsp' Hn) as [<- <-].
Qed.

(** C4. The loop [for (nd = rb_first(root); nd; nd = rb_next(nd))] terminates
    and visits exactly the nodes of the tree, each once, in order;
    rbtree_postorder_for_each visits them in post-order (children before
    their parent); rb_next and rb_prev of a node are its in-order neighbours,
    NULL at the ends, and nothing of this writes to the tree. *)
Theorem rb_walks_correct (s : rb_state) (t : tree) :
  represents s t →
  wp rb_for_each (λ l s', l = inorder t ∧ s' = s) s ∧
  wp rb_postorder_for_each (λ l s', l = postorder t ∧ s' = s) s ∧
  ∀ a l r, inorder t = l ++ a :: r →
    wp (rb_next a) (λ v s', v = first_of r ∧ s' = s) s ∧
    wp (rb_prev a) (λ v s', v = last_of l ∧ s' = s) s.
Proof.
  intros Hs. split_and!; [apply (walk_represents _ _ _ t); try done..|].
  - by apply rb_first_wp.
  - intros l1 a l2. by apply rb_next_at.
  - apply postorder_perm.
  - by apply rb_first_postorder_wp.
  - intros l1 a l2 Hsp. destruct (find_post_split t l1 a l2 Hsp)
      as (k & c & l & r & -> & ->); [apply Hs|]. by eapply rb_next_postorder_wp.
  - intros a l r Hsp.
    destruct (find_split t l a r Hsp) as (k & c & tl & tr & -> & -> & ->); [apply Hs|].
    split; [by eapply rb_next_wp|by eapply rb_prev_wp].
Qed.

(** rb_erase_init leaves the erased node marked as not being in any tree:
    RB_EMPTY_NODE answers true for it and false for every node still in the
    tree. *)
Theorem rb_erase_init_correct (a : Z) (s : rb_state) (t : tree) (l r : list Z) :
  represents s t → redblack t → inorder t = l ++ a :: r →
  wp (rb_erase_init a)
     (λ _ s', ∃ t', represents s' t' ∧ redblack t' ∧ inorder t' = l ++ r ∧
        ∀ x, x ∈ inorder t → wp (RB_EMPTY_NODE x)
          (λ b s'', b = bool_decide (x = a) ∧ s'' = s') s') s.
Proof.
  intros Hs Hrb Hsp. eapply wp_mono; [by apply (rb_erase_init_wp a s t l r)|].
  intros _ [m root] (t' & v & Hs' & ? & Hord & _ & Hv & Hpc). simpl in Hv.
  assert (a ≠ NULL) as Hanz.
  { destruct Hs as (Ht & _). eapply rep_nonnull; [exact Ht|]. rewrite Hsp. set_solver. }
  exists t'. split_and!; [done..|]. intros x Hx.
  destruct (decide (x = a)) as [->|Hne].
  - rewrite bool_decide_eq_true_2 by done. unfold RB_EMPTY_NODE. rb_run.
    by rewrite Hpc, Z.eqb_refl.
  - assert (x ∈ inorder t') as Hx'.
    { rewrite Hord. rewrite Hsp in Hx. set_solver. }
    rewrite bool_decide_eq_false_2 by done.
    destruct (find_ctx x t' Hx') as (k & c & lx & rx & ->).
    apply represents_plug in Hs' as (Hk & Htx & Hnd). simpl in Hnd.
    eapply RB_EMPTY_NODE_wp; [done..|]. nodup_simp. done.
Qed.

(** rb_replace_node puts the new node at the victim's place of the tree,
    with its colour and children, without touching the rest. *)
Theorem rb_replace_node_correct (victim new : Z) (s : rb_state) (k : ctx) (c : color)
    (l r : tree) :
  represents s (plug k (T c l victim r)) → node_ok new → is_Some (rb_mem s !! new) →
  new ∉ inorder (plug k (T c l victim r)) →
  wp (rb_replace_node victim new)
     (λ _ s', represents s' (plug k (T c l new r)) ∧
        (∀ x, x ∉ new :: inorder (plug k (T c l victim r)) → rb_mem s' !! x = rb_mem s !! x)) s.
Proof. intros Hs. by apply rb_replace_node_wp. Qed.

(** The parent pointer and the colour share one word without loss: for
    any aligned parent, rb_set_parent_color followed by rb_parent, rb_color
    reads back what was written, rb_set_parent keeps the colour and
    rb_set_black keeps the parent. *)
Theorem rb_parent_color_roundtrip (a p q : Z) (c : color) (n : rb_node) (s : rb_state) :
  a ≠ NULL → rb_mem s !! a = Some n → aligned p → aligned q →
  wp (rb_set_parent_color a p (colbit c);;
      p1 ← rb_parent a; c1 ← rb_color a;
      rb_set_parent a q;;
      p2 ← rb_parent a; c2 ← rb_color a;
      rb_set_black a;;
      p3 ← rb_parent a; c3 ← rb_color a;
      mret [p1; c1; p2; c2; p3; c3])
     (λ v _, v = [p; colbit c; q; colbit c; q; RB_BLACK]) s.
Proof.
  destruct s as [m root]. intros Ha Hm Hp Hq. simpl in Hm.
  assert (∀ d, __rb_color (pcw p d) = colbit d ∧ __rb_color (pcw q d) = colbit d) as Hc.
  { intros d. by rewrite !rb_color_pcw by done. }
  apply wp_bind. eapply wp_rb_set_parent_color; [done..|].
  rb_run. unfold rb_color. rb_run. rewrite (proj1 (Hc c)). rb_run.
  rewrite (proj2 (Hc c)). rb_run.
  by rewrite (proj2 (Hc Black)).
Qed.

(** ** Instances *)

Definition ex_tree : tree := T Black (T Red E 16 E) 32 (T Red E 48 E).
Definition ex_state : rb_state :=
  RbState (<[16 := RbNode 32 0 0]> (<[32 := RbNode 1 48 16]> (<[48 := RbNode 32 0 0]>
    (<[64 := RbNode 64 0 0]> ∅)))) 32.

Lemma ex_represents : represents ex_state ex_tree.
Proof.
  split_and!; [|done|].
  - repeat split; done.
  - apply (bool_decide_unpack (NoDup (inorder ex_tree))). by vm_compute.
Qed.
Lemma ex_redblack : redblack ex_tree.
Proof. exists 1%nat. apply (rb_B Red Red); repeat constructor. Qed.
Lemma ex_node_ok : node_ok 64.
Proof. repeat split; done. Qed.
Lemma ex_fresh : 64 ∉ inorder ex_tree.
Proof. apply (bool_decide_unpack (64 ∉ inorder ex_tree)). by vm_compute. Qed.

Definition ex_hole : ctx := [FR Red E 48; FR Black (T Red E 16 E) 32].

Lemma rb_insert_correct_witness :
  wp (rb_link_node 64 (cptr ex_hole) (slot_of ex_hole);; rb_insert_color 64)
     (λ _ s', ∃ t', represents s' t' ∧ redblack t' ∧ inorder t' = [16; 32; 48; 64] ∧
        (∀ x, x ∉ [64; 16; 32; 48] → rb_mem s' !! x = rb_mem ex_state !! x)) ex_state.
Proof.
  apply (rb_insert_correct 64 ex_hole ex_state);
    [apply ex_represents|apply ex_redblack|apply ex_node_ok|by eexists|apply ex_fresh].
Defined.

Lemma rb_erase_correct_witness :
  wp (rb_erase 32)
     (λ _ s', ∃ t', represents s' t' ∧ redblack t' ∧ inorder t' = [16; 48] ∧
        (∀ x, x ∉ [16; 48] → rb_mem s' !! x = rb_mem ex_state !! x)) ex_state.
Proof.
  apply (rb_erase_correct 32 ex_state ex_tree [16] [48]);
    [apply ex_represents|apply ex_redblack|reflexivity].
Defined.

Lemma rb_walks_correct_witness :
  wp rb_for_each (λ l s', l = [16; 32; 48] ∧ s' = ex_state) ex_state ∧
  wp rb_postorder_for_each (λ l s', l = [16; 48; 32] ∧ s' = ex_state) ex_state ∧
  ∀ a l r, [16; 32; 48] = l ++ a :: r →
    wp (rb_next a) (λ v s', v = first_of r ∧ s' = ex_state) ex_state ∧
    wp (rb_prev a) (λ v s', v = last_of l ∧ s' = ex_state) ex_state.
Proof. apply (rb_walks_correct ex_state ex_tree), ex_represents. Defined.

Lemma rb_erase_init_correct_witness :
  wp (rb_erase_init 32)
     (λ _ s', ∃ t', represents s' t' ∧ redblack t' ∧ inorder t' = [16; 48] ∧
        ∀ x, x ∈ [16; 32; 48] → wp (RB_EMPTY_NODE x)
          (λ b s'', b = bool_decide (x = 32) ∧ s'' = s') s') ex_state.
Proof.
  apply (rb_erase_init_correct 32 ex_state ex_tree [16] [48]);
    [apply ex_represents|apply ex_redblack|reflexivity].
Defined.

Lemma rb_replace_node_correct_witness :
  wp (rb_replace_node 32 64)
     (λ _ s', represents s' (T Black (T Red E 16 E) 64 (T Red E 48 E)) ∧
        (∀ x, x ∉ [64; 16; 32; 48] → rb_mem s' !! x = rb_mem ex_state !! x)) ex_state.
Proof.
  apply (rb_replace_node_correct 32 64 ex_state [] Black (T Red E 16 E) (T Red E 48 E));
    [apply ex_represents|apply ex_node_ok|by eexists|apply ex_fresh].
Defined.

Lemma rb_parent_color_roundtrip_witness :
  wp (rb_set_parent_color 64 48 (colbit Red);;
      p1 ← rb_parent 64; c1 ← rb_color 64;
      rb_set_parent 64 32;;
      p2 ← rb_parent 64; c2 ← rb_color 64;
      rb_set_black 64;;
      p3 ← rb_parent 64; c3 ← rb_color 64;
      mret [p1; c1; p2; c2; p3; c3])
     (λ v _, v = [48; 0; 32; 0; 32; 1]) ex_state.
Proof.
  apply (rb_parent_color_roundtrip 64 48 32 Red (RbNode 64 0 0) ex_state);
    [done|reflexivity|split; [by split|done]..].
Defined.
