(* ===== verification/RbAugProps.v ===== *)
(** Augmented trees (src/src/rbtree_augmented.h): insertion and erasure with
    the callbacks of RB_DECLARE_CALLBACKS keep the value of every node what
    [rbcompute] makes of its subtree, shown for any such computation and run
    on the sizes of subtrees. *)
From Stdlib Require Import ZArith Lia.
From stdpp Require Import base tactics option list numbers gmap.
From S2P Require Import Prelude RbTree RbSpec RbRep RbAug RbLink RbUnlink RbProps.

Local Open Scope Z_scope.

(** Every node of [t] holds [F] of the sequence of its subtree. *)
Definition values_right (F : list Z → Z) (g : gmap Z Z) (t : tree) : Prop :=
  ∀ k c l a r, t = plug k (T c l a r) → g !! a = Some (F (inorder l ++ a :: inorder r)).

Lemma values_right_taug F g t : values_right F g t ↔ @taug _ (declared F) g t.
Proof.
  split.
  - assert (∀ k, values_right F g (plug k t) → @taug _ (declared F) g t) as H;
      [|by apply (H [])].
    induction t as [|c l IHl a r IHr]; intros k Hv; simpl; [done|]. split_and!.
    + by eapply Hv.
    + by apply (IHl (FL c a r :: k)).
    + by apply (IHr (FR c l a :: k)).
  - intros Ht k c l a r ->. by apply taug_plug in Ht as [_ [? _]].
Qed.

Section augmented.
Context (rbcompute : Z → cm (rb_state * gmap Z Z) Z) (F : list Z → Z).
Context (Hcompute : computes rbcompute F).
Local Abbreviation callbacks := (RB_DECLARE_CALLBACKS rbcompute).
Local Instance right_values : AugValues (gmap Z Z) := declared F.
Local Instance callbacks_ok : Augmented callbacks := declare_augmented _ _ Hcompute.

Lemma insert_augmented_wp n k s g :
  represents s (plug k E) → redblack (plug k E) → node_ok n →
  is_Some (rb_mem s !! n) → n ∉ inorder (plug k E) →
  taug g (plug k (T Red E n E)) →
  wp (lift (rb_link_node n (cptr k) (slot_of k));; rb_insert_augmented n callbacks)
     (λ _ sg, ∃ t', represents (fst sg) t' ∧ redblack t' ∧
        inorder t' = lefts k ++ n :: rights k ∧ taug (snd sg) t') (s, g).
Proof using Hcompute.
  destruct s as [m root]. intros Hs Hrb Hn [v Hv] Hin Hg.
  assert (NoDup (n :: caddrs k)) as Hnd.
  { destruct Hs as (_ & _ & Hs). rewrite inorder_plug in Hs, Hin. simpl in *.
    rewrite caddrs_perm. by constructor. }
  apply wp_bind, wp_aug_lift. eapply wp_mono; [by eapply link_node_wp|].
  intros [] [m1 root1] (Hk1 & Ht1 & _).
  eapply wp_mono; [by apply (insert_aug_wp callbacks n k)|].
  intros _ sg (t' & ? & ? & ? & ? & _). by exists t'.
Qed.
End augmented.

(** C3. An augmented tree stays augmented: whatever function [F] of the
    sequence of its subtree [rbcompute] computes for a node from the values
    of the children, linking a node where a descent ended and calling
    rb_insert_augmented, the values on the path being those of the tree with
    the new node as the interface asks, returns with a red-black tree, the
    new node at its place in the sequence and every value right; so does
    rb_erase_augmented of a node, with the node gone from the sequence. *)
Theorem rb_augmented_correct (rbcompute : Z → cm (rb_state * gmap Z Z) Z) (F : list Z → Z)
    (s : rb_state) (g : gmap Z Z) (t : tree) :
  computes rbcompute F → represents s t → redblack t →
  (∀ n k, t = plug k E → node_ok n → is_Some (rb_mem s !! n) → n ∉ inorder t →
     values_right F g (plug k (T Red E n E)) →
     wp (lift (rb_link_node n (cptr k) (slot_of k));;
         rb_insert_augmented n (RB_DECLARE_CALLBACKS rbcompute))
        (λ _ sg, ∃ t', represents (fst sg) t' ∧ redblack t' ∧
           inorder t' = lefts k ++ n :: rights k ∧ values_right F (snd sg) t') (s, g)) ∧
  (∀ a l r, inorder t = l ++ a :: r → values_right F g t →
     wp (rb_erase_augmented a (RB_DECLARE_CALLBACKS rbcompute))
        (λ _ sg, ∃ t', represents (fst sg) t' ∧ redblack t' ∧
           inorder t' = l ++ r ∧ values_right F (snd sg) t') (s, g)).
Proof.
  intros Hc Hs Hrb. split.
  - intros n k -> Hn Hv Hin Hg%values_right_taug.
    eapply wp_mono; [exact (insert_augmented_wp _ F Hc n k s g Hs Hrb Hn Hv Hin Hg)|].
    intros _ sg (t' & ? & ? & ? & ?%values_right_taug). by exists t'.
  - intros a l r Hsp Hg%values_right_taug. destruct s as [m root].
    pose proof (declare_augmented _ _ Hc) as Haug.
    eapply wp_mono; [apply (@erase_augmented_wp _ (declared F) _ Haug a m root g t); try done|].
    { rewrite Hsp. set_solver. }
    intros _ sg (t' & l' & r' & ? & ? & Hsp' & ? & _ & ?%values_right_taug).
    exists t'. destruct Hs as (_ & _ & Hnd). rewrite Hsp in Hnd, Hsp'.
    by destruct (NoDup_pivot _ _ _ _ _ Hsp' Hnd) as [<- <-].
Qed.

(** ** The sizes of subtrees *)

Definition child_value (p : Z) : cm (rb_state * gmap Z Z) Z :=
  if p =? NULL then mret 0 else get_aug p.
Definition size_compute (a : Z) : cm (rb_state * gmap Z Z) Z :=
  l ← lift (get_left a); vl ← child_value l;
  r ← lift (get_right a); vr ← child_value r;
  mret (vl + 1 + vr).
Definition seq_size (L : list Z) : Z := Z.of_nat (length L).

Lemma child_value_wp s g p L (Q : Z → _ → Prop) :
  @aug_at _ (declared seq_size) g p L → Q (seq_size L) (s, g) → wp (child_value p) Q (s, g).
Proof.
  intros [[-> ->]|[Hp Hg]] HQ; unfold child_value; [done|].
  rewrite (proj2 (Z.eqb_neq _ _) Hp). by eapply wp_get_aug.
Qed.
Lemma size_computes : computes size_compute seq_size.
Proof.
  intros [m root] g a pc r l Ll Lr Q Ha Hm Hl Hr HQ. unfold size_compute.
  apply wp_bind, wp_aug_lift. eapply wp_get_left; [done..|].
  apply wp_bind. eapply child_value_wp; [done|].
  apply wp_bind, wp_aug_lift. eapply wp_get_right; [done..|].
  apply wp_bind. eapply child_value_wp; [done|]. apply wp_ret.
  replace (seq_size Ll + 1 + seq_size Lr) with (seq_size (Ll ++ a :: Lr)); [done|].
  unfold seq_size. rewrite length_app. simpl. lia.
Qed.

(** The tree of three nodes, before and after the update of the path. *)
Definition ex_sizes : gmap Z Z := <[16 := 1]> (<[32 := 3]> (<[48 := 1]> ∅)).
Definition ex_sizes_path : gmap Z Z :=
  <[16 := 1]> (<[32 := 4]> (<[48 := 2]> (<[64 := 1]> ∅))).

Lemma rb_augmented_correct_witness :
  wp (lift (rb_link_node 64 (cptr ex_hole) (slot_of ex_hole));;
      rb_insert_augmented 64 (RB_DECLARE_CALLBACKS size_compute))
     (λ _ sg, ∃ t', represents (fst sg) t' ∧ redblack t' ∧
        inorder t' = [16; 32; 48; 64] ∧ values_right seq_size (snd sg) t')
     (ex_state, ex_sizes_path) ∧
  wp (rb_erase_augmented 32 (RB_DECLARE_CALLBACKS size_compute))
     (λ _ sg, ∃ t', represents (fst sg) t' ∧ redblack t' ∧
        inorder t' = [16; 48] ∧ values_right seq_size (snd sg) t') (ex_state, ex_sizes).
Proof.
  split.
  - refine (proj1 (rb_augmented_correct size_compute seq_size ex_state ex_sizes_path ex_tree
      size_computes ex_represents ex_redblack) 64 ex_hole eq_refl ex_node_ok _ ex_fresh _);
      [by eexists|]. apply values_right_taug. by repeat split.
  - refine (proj2 (rb_augmented_correct size_compute seq_size ex_state ex_sizes ex_tree
      size_computes ex_represents ex_redblack) 32 [16] [48] eq_refl _).
    apply values_right_taug. by repeat split.
Defined.

(** Concrete runs: the root moves and every size follows. *)
Example size_run :
  (match (lift (rb_link_node 64 (cptr ex_hole) (slot_of ex_hole));;
          rb_insert_augmented 64 (RB_DECLARE_CALLBACKS size_compute);;
          rb_erase_augmented 16 (RB_DECLARE_CALLBACKS size_compute))
         (ex_state, ex_sizes_path) with
   | Ok (_, (s, g)) => Some (rb_root_node s, g !! 32, g !! 48, g !! 64)
   | _ => None
   end) = Some (48, Some 1, Some 3, Some 1).
Proof. vm_compute. reflexivity. Qed.
