(* ===== verification/ListHead.v ===== *)
(** Circular doubly linked lists: src/src/list.h.

    The memory of the [struct list_head]s is a finite map from addresses to
    the two pointers; every inline function of the header's first half is one
    definition.  ListRep.v says what list a memory holds and ListSplice.v what
    the operations on whole lists do to it. *)
From Stdlib Require Import ZArith Lia.
From stdpp Require Import base tactics option list numbers gmap.
From S2P Require Import Prelude.

Local Open Scope Z_scope.

Record list_head := ListHead { lh_next : Z; lh_prev : Z }.

Abbreviation list_mem := (gmap Z list_head).
Abbreviation lm := (cm list_mem).

(** The poison pointers of utility.h. *)
Definition POISON_POINTER_DELTA : Z := 0xdead000000000000.
Definition LIST_POISON1 : Z := 0x100 + POISON_POINTER_DELTA.
Definition LIST_POISON2 : Z := 0x200 + POISON_POINTER_DELTA.

Definition lh_load (a : Z) : lm list_head := λ m,
  if a =? 0 then Fault
  else match m !! a with Some n => Ok (n, m) | None => Fault end.
Definition lh_store (a : Z) (f : list_head → list_head) : lm unit := λ m,
  if a =? 0 then Fault
  else match m !! a with Some n => Ok (tt, <[a := f n]> m) | None => Fault end.

Definition get_next (a : Z) : lm Z := n ← lh_load a; mret (lh_next n).
Definition get_prev (a : Z) : lm Z := n ← lh_load a; mret (lh_prev n).
Definition set_next (a v : Z) : lm unit := lh_store a (λ n, ListHead v (lh_prev n)).
Definition set_prev (a v : Z) : lm unit := lh_store a (λ n, ListHead (lh_next n) v).

Definition INIT_LIST_HEAD (list : Z) : lm unit :=
  set_next list list;; set_prev list list.

Definition __list_add (new prev next : Z) : lm unit :=
  set_prev next new;;
  set_next new next;;
  set_prev new prev;;
  set_next prev new.

Definition list_add (new head : Z) : lm unit :=
  next ← get_next head; __list_add new head next.

Definition list_add_tail (new head : Z) : lm unit :=
  prev ← get_prev head; __list_add new prev head.

Definition __list_del (prev next : Z) : lm unit :=
  set_prev next prev;; set_next prev next.

Definition __list_del_entry (entry : Z) : lm unit :=
  prev ← get_prev entry; next ← get_next entry; __list_del prev next.

Definition list_del (entry : Z) : lm unit :=
  prev ← get_prev entry; next ← get_next entry; __list_del prev next;;
  set_next entry LIST_POISON1;; set_prev entry LIST_POISON2.

Definition list_replace (old new : Z) : lm unit :=
  on ← get_next old; set_next new on;;
  nn ← get_next new; set_prev nn new;;
  op ← get_prev old; set_prev new op;;
  np ← get_prev new; set_next np new.

Definition list_replace_init (old new : Z) : lm unit :=
  list_replace old new;; INIT_LIST_HEAD old.

Definition list_del_init (entry : Z) : lm unit :=
  __list_del_entry entry;; INIT_LIST_HEAD entry.

Definition list_move (list head : Z) : lm unit :=
  __list_del_entry list;; list_add list head.

Definition list_move_tail (list head : Z) : lm unit :=
  __list_del_entry list;; list_add_tail list head.

Definition list_is_last (list head : Z) : lm bool :=
  n ← get_next list; mret (n =? head).

Definition list_empty (head : Z) : lm bool :=
  n ← get_next head; mret (n =? head).

Definition list_empty_careful (head : Z) : lm bool :=
  next ← get_next head;
  if next =? head then p ← get_prev head; mret (next =? p) else mret false.

Definition list_rotate_left (head : Z) : lm unit :=
  e ← list_empty head;
  if negb e then first ← get_next head; list_move_tail first head else mret tt.

Definition list_is_singular (head : Z) : lm bool :=
  e ← list_empty head;
  if negb e then n ← get_next head; p ← get_prev head; mret (n =? p)
  else mret false.

Definition __list_cut_position (list head entry : Z) : lm unit :=
  new_first ← get_next entry;
  hn ← get_next head; set_next list hn;;
  ln ← get_next list; set_prev ln list;;
  set_prev list entry;;
  set_next entry list;;
  set_next head new_first;;
  set_prev new_first head.

Definition list_cut_position (list head entry : Z) : lm unit :=
  e ← list_empty head;
  if (e : bool) then mret tt else
  sg ← list_is_singular head;
  skip ← (if (sg : bool) then
            n ← get_next head;
            mret (negb (n =? entry) && negb (head =? entry))
          else mret false);
  if (skip : bool) then mret tt else
  if entry =? head then INIT_LIST_HEAD list
  else __list_cut_position list head entry.

Definition __list_splice (list prev next : Z) : lm unit :=
  first ← get_next list;
  last ← get_prev list;
  set_prev first prev;;
  set_next prev first;;
  set_next last next;;
  set_prev next last.

Definition list_splice (list head : Z) : lm unit :=
  e ← list_empty list;
  if negb e then next ← get_next head; __list_splice list head next else mret tt.

Definition list_splice_tail (list head : Z) : lm unit :=
  e ← list_empty list;
  if negb e then prev ← get_prev head; __list_splice list prev head else mret tt.

Definition list_splice_init (list head : Z) : lm unit :=
  e ← list_empty list;
  if negb e then
    next ← get_next head; __list_splice list head next;; INIT_LIST_HEAD list
  else mret tt.

Definition list_splice_tail_init (list head : Z) : lm unit :=
  e ← list_empty list;
  if negb e then
    prev ← get_prev head; __list_splice list prev head;; INIT_LIST_HEAD list
  else mret tt.
