(* ===== verification/ListRep.v ===== *)
(** The sequence a ring of [struct list_head]s holds, and the effect on it of
    the operations of src/src/list.h on one entry: [is_list m h xs] says that
    [h] is a list head whose entries are [xs], in order. *)
From Stdlib Require Import ZArith Lia.
From stdpp Require Import base tactics option list numbers gmap.
From S2P Require Import Prelude ListHead.

Local Open Scope Z_scope.

(** ** The sequence of a list *)

Definition nx (m : list_mem) (a : Z) : option Z := lh_next <$> m !! a.
Definition pv (m : list_mem) (a : Z) : option Z := lh_prev <$> m !! a.

Definition lnk (m : list_mem) (u v : Z) : Prop := nx m u = Some v ∧ pv m v = Some u.

Fixpoint chain (m : list_mem) (u : Z) (l : list Z) : Prop :=
  match l with
  | [] => True
  | v :: l => lnk m u v ∧ chain m v l
  end.

Definition is_list (m : list_mem) (h : Z) (xs : list Z) : Prop :=
  chain m h (xs ++ [h]) ∧ NoDup (h :: xs) ∧ 0 ∉ h :: xs.

(** The last node of the path [u :: l]. *)
Fixpoint lastd (u : Z) (l : list Z) : Z :=
  match l with [] => u | v :: l => lastd v l end.

Lemma lastd_snoc u l v : lastd u (l ++ [v]) = v.
Proof. revert u. induction l; simpl; auto. Qed.
Lemma lastd_in u l : lastd u l ∈ u :: l.
Proof. revert u. induction l as [|v l IH]; intros u; simpl; [set_solver|]. specialize (IH v). set_solver. Qed.
Lemma lastd_app u l1 l2 : lastd u (l1 ++ l2) = lastd (lastd u l1) l2.
Proof. revert u. induction l1; simpl; auto. Qed.

Lemma chain_cut m u l1 v l2 :
  chain m u (l1 ++ v :: l2) ↔ chain m u l1 ∧ lnk m (lastd u l1) v ∧ chain m v l2.
Proof. revert u. induction l1 as [|w l1 IH]; intros u; simpl; [tauto|]. rewrite IH. tauto. Qed.

Lemma chain_frame m m' u l :
  NoDup (u :: l) → (∀ x, x ∈ u :: l → x ≠ lastd u l → nx m' x = nx m x) →
  (∀ x, x ∈ l → pv m' x = pv m x) → chain m u l → chain m' u l.
Proof.
  revert u. induction l as [|v l IH]; intros u Hn Hx Hp; simpl; [done|].
  intros [[Hu Hv] Hc]. apply NoDup_cons in Hn as [Hun Hn]. split; [split|].
  - rewrite Hx; [done|left|]. simpl. intros Hu'. apply Hun. rewrite Hu'. apply lastd_in.
  - rewrite Hp; [done|left].
  - apply IH; [done| |set_solver|done]. intros x ??. apply Hx; [set_solver|done].
Qed.

(** ** Updates *)

Definition wn (a v : Z) (m : list_mem) : list_mem := alter (λ n, ListHead v (lh_prev n)) a m.
Definition wv (a v : Z) (m : list_mem) : list_mem := alter (λ n, ListHead (lh_next n) v) a m.

Lemma nx_wn_eq a v m : is_Some (nx m a) → nx (wn a v m) a = Some v.
Proof. unfold nx, wn. rewrite lookup_alter_eq. by intros [? [? [-> _]]%fmap_Some]. Qed.
Lemma nx_wn_ne a v m x : x ≠ a → nx (wn a v m) x = nx m x.
Proof. unfold nx, wn. intros. by rewrite lookup_alter_ne. Qed.
Lemma pv_wv_eq a v m : is_Some (nx m a) → pv (wv a v m) a = Some v.
Proof. unfold nx, pv, wv. rewrite lookup_alter_eq. by intros [? [? [-> _]]%fmap_Some]. Qed.
Lemma pv_wv_ne a v m x : x ≠ a → pv (wv a v m) x = pv m x.
Proof. unfold pv, wv. intros. by rewrite lookup_alter_ne. Qed.
Lemma nx_wv a v m x : nx (wv a v m) x = nx m x.
Proof.
  unfold nx, wv. destruct (decide (x = a)) as [->|].
  - rewrite lookup_alter_eq. by destruct (m !! a).
  - by rewrite lookup_alter_ne.
Qed.
Lemma pv_wn a v m x : pv (wn a v m) x = pv m x.
Proof.
  unfold pv, wn. destruct (decide (x = a)) as [->|].
  - rewrite lookup_alter_eq. by destruct (m !! a).
  - by rewrite lookup_alter_ne.
Qed.
Lemma wn_other a v m x : x ≠ a → wn a v m !! x = m !! x.
Proof. intros. by apply lookup_alter_ne. Qed.
Lemma wv_other a v m x : x ≠ a → wv a v m !! x = m !! x.
Proof. intros. by apply lookup_alter_ne. Qed.
Lemma wn_live a v m x : is_Some (nx m x) → is_Some (nx (wn a v m) x).
Proof. destruct (decide (x = a)) as [->|]; [intros; rewrite nx_wn_eq; by eauto|by rewrite nx_wn_ne]. Qed.
Lemma wv_live a v m x : is_Some (nx m x) → is_Some (nx (wv a v m) x).
Proof. by rewrite nx_wv. Qed.
Lemma pv_live m x : is_Some (pv m x) → is_Some (nx m x).
Proof. unfold pv, nx. by destruct (m !! x). Qed.

Create HintDb lh.
#[export] Hint Resolve wn_live wv_live pv_live : lh.

Section rules.
Implicit Types (m : list_mem) (a v : Z).

Lemma wp_get_next a v m Q : a ≠ 0 → nx m a = Some v → Q v m → wp (get_next a) Q m.
Proof.
  intros Ha Hn HQ. unfold wp, get_next, lh_load, mbind, cm_bind.
  rewrite (proj2 (Z.eqb_neq _ _) Ha). apply fmap_Some in Hn as (n & -> & ->). done.
Qed.
Lemma wp_get_prev a v m Q : a ≠ 0 → pv m a = Some v → Q v m → wp (get_prev a) Q m.
Proof.
  intros Ha Hn HQ. unfold wp, get_prev, lh_load, mbind, cm_bind.
  rewrite (proj2 (Z.eqb_neq _ _) Ha). apply fmap_Some in Hn as (n & -> & ->). done.
Qed.
Lemma lh_store_alter a f m n :
  m !! a = Some n → <[a:=f n]> m = alter f a m.
Proof.
  intros Hn. apply map_eq. intros x. destruct (decide (x = a)) as [->|].
  - by rewrite lookup_insert_eq, lookup_alter_eq, Hn.
  - by rewrite lookup_insert_ne, lookup_alter_ne.
Qed.
Lemma wp_set_next a v m Q :
  a ≠ 0 → is_Some (nx m a) → Q tt (wn a v m) → wp (set_next a v) Q m.
Proof.
  intros Ha [w Hn] HQ. unfold wp, set_next, lh_store.
  rewrite (proj2 (Z.eqb_neq _ _) Ha). apply fmap_Some in Hn as (n & Hn & ->).
  rewrite Hn. by rewrite (lh_store_alter _ (λ n, ListHead v (lh_prev n)) _ _ Hn).
Qed.
Lemma wp_set_prev a v m Q :
  a ≠ 0 → is_Some (nx m a) → Q tt (wv a v m) → wp (set_prev a v) Q m.
Proof.
  intros Ha [w Hn] HQ. unfold wp, set_prev, lh_store.
  rewrite (proj2 (Z.eqb_neq _ _) Ha). apply fmap_Some in Hn as (n & Hn & ->).
  rewrite Hn. by rewrite (lh_store_alter _ (λ n, ListHead (lh_next n) v) _ _ Hn).
Qed.
End rules.

(** Rewrite the fields of an updated memory; inequalities from the context. *)
Ltac lh_ne := first [assumption | apply not_eq_sym; assumption | congruence].
Ltac lh_rw :=
  repeat first
    [ rewrite nx_wv | rewrite pv_wn
    | rewrite nx_wn_eq by eauto 10 with lh
    | rewrite pv_wv_eq by eauto 10 with lh
    | rewrite nx_wn_ne by lh_ne
    | rewrite pv_wv_ne by lh_ne ].
Ltac lh_step :=
  lazymatch goal with
  | |- wp (mbind _ _) _ _ => apply wp_bind
  | |- wp (mret _) _ _ => apply wp_ret
  | |- wp (get_next _) _ _ => eapply wp_get_next; [lh_ne|lh_rw; eassumption|]
  | |- wp (get_prev _) _ _ => eapply wp_get_prev; [lh_ne|lh_rw; eassumption|]
  | |- wp (set_next _ _) _ _ => eapply wp_set_next; [lh_ne|solve [eauto 10 with lh]|]
  | |- wp (set_prev _ _) _ _ => eapply wp_set_prev; [lh_ne|solve [eauto 10 with lh]|]
  end.

(** The two links of an update at one place of the ring. *)
Definition hdd (h : Z) (l : list Z) : Z := match l with [] => h | v :: _ => v end.

Lemma snoc_hdd h (l : list Z) : l ++ [h] = hdd h l :: tail (l ++ [h]).
Proof. by destruct l. Qed.

Lemma is_list_cut m h l1 l2 :
  is_list m h (l1 ++ l2) →
  chain m h l1 ∧ lnk m (lastd h l1) (hdd h l2) ∧ chain m (hdd h l2) (tail (l2 ++ [h])).
Proof.
  intros (Hc & _). rewrite <- app_assoc, (snoc_hdd h l2) in Hc. by apply chain_cut in Hc.
Qed.

Lemma lastd_ne h l x : x ∉ h :: l → lastd h l ≠ x.
Proof. intros Hx <-. apply Hx, lastd_in. Qed.
Lemma hdd_in h l : hdd h l ∈ l ++ [h].
Proof. destruct l; set_solver. Qed.
Lemma hdd_ne h l x : x ∉ h :: l → hdd h l ≠ x.
Proof. intros Hx <-. pose proof (hdd_in h l). set_solver. Qed.
Lemma hdd_not_in h l1 l2 : NoDup (h :: l1 ++ l2) → hdd h l2 ∉ l1.
Proof. intros Hn. nodup_simp. destruct l2; simpl; [done|]. nodup_simp. done. Qed.
Lemma lastd_tail h l : lastd (hdd h l) (tail (l ++ [h])) = h.
Proof. destruct l; simpl; [done|]. apply lastd_snoc. Qed.
Lemma NoDup_tail h l : NoDup (h :: l) → NoDup (hdd h l :: tail (l ++ [h])).
Proof.
  intros. nodup_simp. rewrite <- snoc_hdd. nodup_done.
Qed.

(** A memory that differs from [m] by [prev], [next] fields at the two ends of
    a cut keeps both halves. *)
Lemma halves_frame m m' h l1 l2 :
  NoDup (h :: l1 ++ l2) →
  (∀ x, x ∈ h :: l1 ++ l2 → x ≠ lastd h l1 → nx m' x = nx m x) →
  (∀ x, x ∈ h :: l1 ++ l2 → x ≠ hdd h l2 → pv m' x = pv m x) →
  chain m h l1 → chain m (hdd h l2) (tail (l2 ++ [h])) →
  chain m' h l1 ∧ chain m' (hdd h l2) (tail (l2 ++ [h])).
Proof.
  intros Hn Hx Hp H1 H2. split.
  - eapply chain_frame; [nodup_simp; nodup_done| | |exact H1].
    + intros x Hin. apply Hx. set_solver.
    + intros x Hin. apply Hp; [set_solver|]. intros ->. by apply hdd_not_in in Hin.
  - eapply chain_frame; [apply NoDup_tail; nodup_simp; nodup_done| | |exact H2].
    + intros x. rewrite <- snoc_hdd, lastd_tail. intros Hin Hne. apply Hx; [set_solver|].
      intros ->. pose proof (lastd_in h l1). nodup_simp. destruct l1; simpl in *; [done|].
      set_solver.
    + intros x Hin.
      assert (NoDup (hdd h l2 :: tail (l2 ++ [h]))) as Hnt by (apply NoDup_tail; nodup_simp; nodup_done).
      apply Hp; [|intros ->; by apply NoDup_cons in Hnt as [? _]].
      assert (x ∈ l2 ++ [h]); [|set_solver]. rewrite snoc_hdd. by right.
Qed.

(** ** Insertion *)

Lemma list_add_between_wp new h l1 l2 m :
  is_list m h (l1 ++ l2) → is_Some (nx m new) → new ∉ h :: l1 ++ l2 → new ≠ 0 →
  wp (__list_add new (lastd h l1) (hdd h l2))
     (λ _ m', is_list m' h (l1 ++ new :: l2) ∧
        (∀ x, x ∉ new :: h :: l1 ++ l2 → m' !! x = m !! x) ∧ dom m' = dom m) m.
Proof.
  intros Hl Hnew Hin Hnz. pose proof (is_list_cut _ _ _ _ Hl) as (H1 & [Hln Hlp] & H2).
  destruct Hl as (_ & Hn & H0).
  pose proof (lastd_in h l1) as Hp. pose proof (hdd_in h l2) as Hq.
  assert (lastd h l1 ≠ new) by (apply lastd_ne; set_solver).
  assert (hdd h l2 ≠ new) by (apply hdd_ne; set_solver).
  assert (lastd h l1 ≠ 0) by (apply lastd_ne; set_solver).
  assert (hdd h l2 ≠ 0) by (apply hdd_ne; set_solver).
  unfold __list_add. repeat lh_step.
  split_and!.
  - split_and!; [|nodup_simp; nodup_done|set_solver].
    rewrite <- app_assoc. simpl. apply chain_cut. rewrite snoc_hdd. simpl.
    destruct (halves_frame m (wn (lastd h l1) new (wv new (lastd h l1)
      (wn new (hdd h l2) (wv (hdd h l2) new m)))) h l1 l2) as [??]; try done.
    + intros x Hx Hxe. assert (x ≠ new) by set_solver. by lh_rw.
    + intros x Hx Hxe. assert (x ≠ new) by set_solver. by lh_rw.
    + split_and!; try done; split; by lh_rw.
  - intros x Hx. rewrite !wn_other, !wv_other, ?wn_other, ?wv_other; set_solver.
  - unfold wn, wv. by rewrite !dom_alter_L.
Qed.

(** What the ends of a list read. *)
Lemma is_list_next m h xs : is_list m h xs → nx m h = Some (hdd h xs).
Proof. intros (_ & [H _] & _)%(is_list_cut _ _ [] xs). done. Qed.
Lemma is_list_prev m h xs : is_list m h xs → pv m h = Some (lastd h xs).
Proof.
  intros Hl. rewrite <- (app_nil_r xs) in Hl. by apply is_list_cut in Hl as (_ & [_ H] & _).
Qed.
Lemma is_list_entry m h l1 e l2 :
  is_list m h (l1 ++ e :: l2) →
  lnk m (lastd h l1) e ∧ lnk m e (hdd h l2) ∧
  chain m h l1 ∧ chain m (hdd h l2) (tail (l2 ++ [h])).
Proof.
  intros Hl. pose proof (is_list_cut _ _ _ _ Hl) as (H1 & H2 & H3).
  simpl in H3. rewrite snoc_hdd in H3. by destruct H3 as [??].
Qed.
Lemma is_list_nz m h xs x : is_list m h xs → x ∈ h :: xs → x ≠ 0.
Proof. intros (_ & _ & Hz) Hx ->. done. Qed.
Lemma is_list_live m h xs x : is_list m h xs → x ∈ h :: xs → is_Some (nx m x).
Proof.
  intros Hl [->|(l1 & l2 & ->)%list_elem_of_split]%elem_of_cons.
  - rewrite (is_list_next _ _ _ Hl). by eexists.
  - apply is_list_entry in Hl as (_ & [-> _] & _). by eexists.
Qed.
Lemma is_list_agree m m' h xs :
  (∀ x, x ∈ h :: xs → m' !! x = m !! x) → is_list m h xs → is_list m' h xs.
Proof.
  intros Hm (Hc & Hn & Hz). split_and!; [|done..].
  rewrite (snoc_hdd h xs) in *. simpl in *. destruct Hc as [[Ha Hb] Hc].
  assert (∀ x, x ∈ hdd h xs :: tail (xs ++ [h]) → x ∈ h :: xs) as Hs.
  { intros x. rewrite <- snoc_hdd. set_solver. }
  assert (hdd h xs ∈ h :: xs) by (apply Hs; left).
  split; [split; unfold nx, pv; by rewrite Hm by set_solver|].
  eapply chain_frame; [by apply NoDup_tail| | |exact Hc].
  - intros x Hx _. unfold nx. by rewrite Hm by auto.
  - intros x Hx. unfold pv. rewrite Hm; [done|]. apply Hs. by right.
Qed.

(** The post-condition of the operations on the ring of [h]: the entries are
    [xs'], and only the nodes [touched] have changed. *)
Definition list_becomes (m : list_mem) (h : Z) (xs' touched : list Z) (m' : list_mem) : Prop :=
  is_list m' h xs' ∧ (∀ x, x ∉ touched → m' !! x = m !! x) ∧ dom m' = dom m.

Lemma list_add_wp new h xs m :
  is_list m h xs → is_Some (nx m new) → new ∉ h :: xs → new ≠ 0 →
  wp (list_add new h) (λ _, list_becomes m h (new :: xs) (new :: h :: xs)) m.
Proof.
  intros Hl Hnew Hin Hnz. pose proof (is_list_next _ _ _ Hl).
  assert (h ≠ 0) by (eapply is_list_nz; [done|left]).
  unfold list_add. repeat lh_step. by apply (list_add_between_wp _ _ []).
Qed.

Lemma list_add_tail_wp new h xs m :
  is_list m h xs → is_Some (nx m new) → new ∉ h :: xs → new ≠ 0 →
  wp (list_add_tail new h) (λ _, list_becomes m h (xs ++ [new]) (new :: h :: xs)) m.
Proof.
  intros Hl Hnew Hin Hnz. pose proof (is_list_prev _ _ _ Hl).
  assert (h ≠ 0) by (eapply is_list_nz; [done|left]).
  unfold list_add_tail. repeat lh_step.
  pose proof (list_add_between_wp new h xs [] m) as Hw. rewrite app_nil_r in Hw. by apply Hw.
Qed.

(** ** Deletion *)

Lemma list_del_between_wp h l1 e l2 m :
  is_list m h (l1 ++ e :: l2) →
  wp (__list_del (lastd h l1) (hdd h l2))
     (λ _ m', list_becomes m h (l1 ++ l2) (h :: l1 ++ l2) m') m.
Proof.
  intros Hl. pose proof (is_list_entry _ _ _ _ _ Hl) as ([Hln Hlp] & [Hrn Hrp] & H1 & H2).
  destruct Hl as (_ & Hn & H0).
  assert (NoDup (h :: l1 ++ l2)) as Hn' by (nodup_simp; nodup_done).
  pose proof (lastd_in h l1) as Hp. pose proof (hdd_in h l2) as Hq.
  assert (lastd h l1 ≠ 0) by (apply lastd_ne; set_solver).
  assert (hdd h l2 ≠ 0) by (apply hdd_ne; set_solver).
  unfold __list_del. repeat lh_step. split_and!.
  - split_and!; [|done|set_solver].
    rewrite <- app_assoc, snoc_hdd. apply chain_cut.
    destruct (halves_frame m (wn (lastd h l1) (hdd h l2)
      (wv (hdd h l2) (lastd h l1) m)) h l1 l2) as [??]; try done.
    + intros x Hx Hxe. by lh_rw.
    + intros x Hx Hxe. by lh_rw.
    + split_and!; try done; split; by lh_rw.
  - intros x Hx. rewrite wn_other, wv_other; set_solver.
  - unfold wn, wv. by rewrite !dom_alter_L.
Qed.

Lemma __list_del_entry_wp h l1 e l2 m :
  is_list m h (l1 ++ e :: l2) →
  wp (__list_del_entry e) (λ _, list_becomes m h (l1 ++ l2) (h :: l1 ++ l2)) m.
Proof.
  intros Hl. pose proof (is_list_entry _ _ _ _ _ Hl) as ([Hln Hlp] & [Hrn Hrp] & _).
  assert (e ≠ 0) by (eapply is_list_nz; [done|set_solver]).
  unfold __list_del_entry. repeat lh_step. by apply (list_del_between_wp _ _ e).
Qed.

(** The deleted entry itself keeps pointing into the ring until the caller
    re-initialises or poisons it. *)
Lemma INIT_LIST_HEAD_wp e m :
  e ≠ 0 → is_Some (nx m e) →
  wp (INIT_LIST_HEAD e) (λ _, list_becomes m e [] [e]) m.
Proof.
  intros He Hl. unfold INIT_LIST_HEAD. repeat lh_step. split_and!.
  - split_and!; [|apply NoDup_singleton|set_solver].
    simpl. split; [split; by lh_rw|done].
  - intros x Hx. rewrite wv_other, wn_other; set_solver.
  - unfold wn, wv. by rewrite !dom_alter_L.
Qed.

Lemma dom_live m m' x : dom m' = dom m → is_Some (nx m x) → is_Some (nx m' x).
Proof.
  unfold nx. rewrite !fmap_is_Some, <- !elem_of_dom. by intros ->.
Qed.

Lemma list_del_init_wp h l1 e l2 m :
  is_list m h (l1 ++ e :: l2) →
  wp (list_del_init e)
     (λ _ m', list_becomes m h (l1 ++ l2) (h :: l1 ++ e :: l2) m' ∧ is_list m' e []) m.
Proof.
  intros Hl. apply wp_bind. eapply wp_mono; [by apply __list_del_entry_wp|].
  intros _ m1 (Hl1 & Hm1 & Hd1).
  assert (e ∈ h :: l1 ++ e :: l2) as Hin by set_solver.
  eapply wp_mono; [apply INIT_LIST_HEAD_wp|].
  { by apply (is_list_nz _ _ _ _ Hl). }
  { eapply dom_live; [done|]. by apply (is_list_live _ _ _ _ Hl). }
  intros _ m2 (Hl2 & Hm2 & Hd2). split; [|done]. split_and!.
  - eapply is_list_agree; [|done]. intros x Hx. apply Hm2.
    destruct Hl as (_ & Hn & _). nodup_simp. set_solver.
  - intros x Hx. rewrite Hm2, Hm1; set_solver.
  - by rewrite Hd2.
Qed.

Lemma list_del_wp h l1 e l2 m :
  is_list m h (l1 ++ e :: l2) →
  wp (list_del e)
     (λ _ m', list_becomes m h (l1 ++ l2) (h :: l1 ++ e :: l2) m' ∧
        nx m' e = Some LIST_POISON1 ∧ pv m' e = Some LIST_POISON2) m.
Proof.
  intros Hl. pose proof (is_list_entry _ _ _ _ _ Hl) as ([Hln Hlp] & [Hrn Hrp] & _).
  assert (e ∈ h :: l1 ++ e :: l2) as Hin by set_solver.
  assert (e ≠ 0) by (by apply (is_list_nz _ _ _ _ Hl)).
  unfold list_del. do 4 lh_step. apply wp_bind.
  eapply wp_mono; [by apply (list_del_between_wp _ _ e)|].
  intros _ m1 (Hl1 & Hm1 & Hd1).
  assert (is_Some (nx m1 e)) by (eapply dom_live; [done|by apply (is_list_live _ _ _ _ Hl)]).
  repeat lh_step. split; [split_and!|split; by lh_rw].
  - eapply is_list_agree; [|done]. intros x Hx. destruct Hl as (_ & Hn & _).
    nodup_simp. rewrite wv_other, wn_other; set_solver.
  - intros x Hx. rewrite wv_other, wn_other, Hm1; set_solver.
  - unfold wn, wv. by rewrite !dom_alter_L.
Qed.

(** ** Moves *)

(** After [__list_del_entry], the entry is a live node outside the ring. *)
Lemma del_entry_facts m h l1 e l2 m1 :
  is_list m h (l1 ++ e :: l2) → dom m1 = dom m →
  e ≠ 0 ∧ is_Some (nx m1 e) ∧ e ∉ h :: l1 ++ l2.
Proof.
  intros Hl Hd. assert (e ∈ h :: l1 ++ e :: l2) as Hin by set_solver. split_and!.
  - by apply (is_list_nz _ _ _ _ Hl).
  - eapply dom_live; [done|]. by apply (is_list_live _ _ _ _ Hl).
  - destruct Hl as (_ & Hn & _). nodup_simp. set_solver.
Qed.

(** Moving inside one list. *)
Lemma list_move_wp h l1 e l2 m :
  is_list m h (l1 ++ e :: l2) →
  wp (list_move e h) (λ _, list_becomes m h (e :: l1 ++ l2) (h :: l1 ++ e :: l2)) m.
Proof.
  intros Hl. apply wp_bind. eapply wp_mono; [by apply __list_del_entry_wp|].
  intros _ m1 (Hl1 & Hm1 & Hd1).
  destruct (del_entry_facts _ _ _ _ _ _ Hl Hd1) as (? & ? & ?).
  eapply wp_mono; [by apply (list_add_wp _ _ (l1 ++ l2))|].
  intros _ m2 (Hl2 & Hm2 & Hd2). split_and!; [done| |by rewrite Hd2].
  intros x Hx. rewrite Hm2, Hm1; set_solver.
Qed.

Lemma list_move_tail_wp h l1 e l2 m :
  is_list m h (l1 ++ e :: l2) →
  wp (list_move_tail e h)
     (λ _, list_becomes m h (l1 ++ l2 ++ [e]) (h :: l1 ++ e :: l2)) m.
Proof.
  intros Hl. apply wp_bind. eapply wp_mono; [by apply __list_del_entry_wp|].
  intros _ m1 (Hl1 & Hm1 & Hd1).
  destruct (del_entry_facts _ _ _ _ _ _ Hl Hd1) as (? & ? & ?).
  eapply wp_mono; [by apply (list_add_tail_wp _ _ (l1 ++ l2))|].
  intros _ m2 (Hl2 & Hm2 & Hd2). rewrite <- app_assoc in Hl2.
  split_and!; [done| |by rewrite Hd2].
  intros x Hx. rewrite Hm2, Hm1; set_solver.
Qed.

(** Moving to another list. *)
Lemma list_move_across_wp h l1 e l2 h' ys m :
  is_list m h (l1 ++ e :: l2) → is_list m h' ys → disj (h :: l1 ++ e :: l2) (h' :: ys) →
  wp (list_move e h')
     (λ _ m', is_list m' h (l1 ++ l2) ∧ is_list m' h' (e :: ys) ∧
        (∀ x, x ∉ h :: l1 ++ e :: l2 ++ h' :: ys → m' !! x = m !! x)) m.
Proof.
  intros Hl Hl' Hd. apply wp_bind. eapply wp_mono; [by apply __list_del_entry_wp|].
  intros _ m1 (Hl1 & Hm1 & Hd1).
  destruct (del_entry_facts _ _ _ _ _ _ Hl Hd1) as (? & ? & ?).
  assert (is_list m1 h' ys) as Hl1'.
  { eapply is_list_agree; [|exact Hl']. intros x Hx. apply Hm1.
    intros Hx'. apply (Hd x); set_solver. }
  assert (e ∉ h' :: ys) by (apply Hd; set_solver).
  eapply wp_mono; [by apply (list_add_wp _ h' ys)|].
  intros _ m2 (Hl2 & Hm2 & Hd2). split_and!; [|done|].
  - eapply is_list_agree; [|exact Hl1]. intros x Hx. apply Hm2.
    apply not_elem_of_cons. split; [set_solver|]. apply Hd. set_solver.
  - intros x Hx. rewrite Hm2, Hm1; set_solver.
Qed.

(** ** Tests *)

Lemma list_empty_wp h xs m :
  is_list m h xs → wp (list_empty h) (λ b m', b = bool_decide (xs = []) ∧ m' = m) m.
Proof.
  intros Hl. pose proof (is_list_next _ _ _ Hl).
  assert (h ≠ 0) by (apply (is_list_nz _ _ _ _ Hl); left).
  unfold list_empty. repeat lh_step. split; [|done].
  destruct Hl as (_ & Hn & _). destruct xs as [|x xs]; simpl; [by rewrite Z.eqb_refl|].
  nodup_simp. by apply Z.eqb_neq.
Qed.

Lemma list_empty_careful_wp h xs m :
  is_list m h xs → wp (list_empty_careful h) (λ b m', b = bool_decide (xs = []) ∧ m' = m) m.
Proof.
  intros Hl. pose proof (is_list_next _ _ _ Hl). pose proof (is_list_prev _ _ _ Hl).
  assert (h ≠ 0) by (apply (is_list_nz _ _ _ _ Hl); left).
  unfold list_empty_careful. repeat lh_step.
  destruct Hl as (_ & Hn & _). destruct xs as [|x xs]; simpl.
  - rewrite Z.eqb_refl. repeat lh_step. by rewrite Z.eqb_refl.
  - nodup_simp. rewrite (proj2 (Z.eqb_neq x h)) by done. by repeat lh_step.
Qed.

Lemma list_is_singular_wp h xs m :
  is_list m h xs →
  wp (list_is_singular h) (λ b m', b = bool_decide (length xs = 1%nat) ∧ m' = m) m.
Proof.
  intros Hl. pose proof (is_list_next _ _ _ Hl). pose proof (is_list_prev _ _ _ Hl).
  assert (h ≠ 0) by (apply (is_list_nz _ _ _ _ Hl); left).
  apply wp_bind. eapply wp_mono; [by apply list_empty_wp|]. intros b m' [-> ->].
  destruct Hl as (_ & Hn & _). destruct xs as [|x [|y xs]]; simpl.
  - by repeat lh_step.
  - repeat lh_step. simpl. by rewrite Z.eqb_refl.
  - repeat lh_step. simpl. split; [|done]. apply Z.eqb_neq. intros ->.
    pose proof (lastd_in y xs). nodup_simp. set_solver.
Qed.

Lemma list_is_last_wp h l1 e l2 m :
  is_list m h (l1 ++ e :: l2) →
  wp (list_is_last e h) (λ b m', b = bool_decide (l2 = []) ∧ m' = m) m.
Proof.
  intros Hl. pose proof (is_list_entry _ _ _ _ _ Hl) as (_ & [Hrn _] & _).
  assert (e ≠ 0) by (apply (is_list_nz _ _ _ _ Hl); set_solver).
  unfold list_is_last. repeat lh_step. split; [|done].
  destruct Hl as (_ & Hn & _). destruct l2 as [|x l2]; simpl; [by rewrite Z.eqb_refl|].
  nodup_simp. by apply Z.eqb_neq.
Qed.

Lemma list_rotate_left_wp h xs m :
  is_list m h xs →
  wp (list_rotate_left h)
     (λ _, list_becomes m h (tail xs ++ option_list (head xs)) (h :: xs)) m.
Proof.
  intros Hl. pose proof (is_list_next _ _ _ Hl).
  assert (h ≠ 0) by (apply (is_list_nz _ _ _ _ Hl); left).
  apply wp_bind. eapply wp_mono; [by apply list_empty_wp|]. intros b m' [-> ->].
  destruct xs as [|x xs]; [by repeat lh_step|]. simpl. repeat lh_step. simpl.
  by apply (list_move_tail_wp _ []).
Qed.
