(* ===== verification/ListSplice.v ===== *)
(** The operations of src/src/list.h on whole lists (list_replace, the four
    list_splice variants, list_cut_position) and the iteration macros. *)
From Stdlib Require Import ZArith Lia.
From stdpp Require Import base tactics option list numbers gmap.
From S2P Require Import Prelude ListHead ListRep.

Local Open Scope Z_scope.

(** ** Replacing, cutting and joining *)

Lemma list_replace_wp old new h l1 l2 m :
  is_list m h (l1 ++ old :: l2) → is_Some (nx m new) → new ∉ h :: l1 ++ old :: l2 →
  new ≠ 0 →
  wp (list_replace old new)
     (λ _, list_becomes m h (l1 ++ new :: l2) (new :: h :: l1 ++ l2)) m.
Proof.
  intros Hl Hnew Hin Hnz.
  pose proof (is_list_entry _ _ _ _ _ Hl) as ([Hln Hlp] & [Hrn Hrp] & H1 & H2).
  assert (old ≠ 0) by (apply (is_list_nz _ _ _ _ Hl); set_solver).
  destruct Hl as (_ & Hn & H0).
  assert (NoDup (h :: l1 ++ l2)) as Hn' by (nodup_simp; nodup_done).
  pose proof (lastd_in h l1) as Hp. pose proof (hdd_in h l2) as Hq.
  assert (lastd h l1 ≠ new) by (apply lastd_ne; set_solver).
  assert (hdd h l2 ≠ new) by (apply hdd_ne; set_solver).
  assert (hdd h l2 ≠ old) by (apply hdd_ne; nodup_simp; set_solver).
  assert (lastd h l1 ≠ 0) by (apply lastd_ne; set_solver).
  assert (hdd h l2 ≠ 0) by (apply hdd_ne; set_solver).
  assert (old ≠ new) by set_solver.
  unfold list_replace. lh_step. lh_step. do 2 lh_step. lh_step.
  eapply wp_get_next; [done|by lh_rw|]. do 2 lh_step. lh_step. lh_step. lh_step. lh_step.
  lh_step. eapply wp_get_prev; [done|by lh_rw|]. lh_step.
  split_and!.
  - split_and!; [|nodup_simp; nodup_done|set_solver].
    rewrite <- app_assoc. simpl. apply chain_cut. rewrite snoc_hdd. simpl.
    match goal with |- chain ?m1 _ _ ∧ _ =>
      destruct (halves_frame m m1 h l1 l2) as [??]; try done end.
    + intros x Hx Hxe. assert (x ≠ new) by set_solver. by lh_rw.
    + intros x Hx Hxe. assert (x ≠ new) by set_solver. by lh_rw.
    + split_and!; try done; split; by lh_rw.
  - intros x Hx. rewrite ?wn_other, ?wv_other, ?wn_other, ?wv_other; set_solver.
  - unfold wn, wv. by rewrite !dom_alter_L.
Qed.

Lemma __list_splice_wp list ys h l1 l2 m :
  is_list m list ys → ys ≠ [] → is_list m h (l1 ++ l2) →
  disj (list :: ys) (h :: l1 ++ l2) →
  wp (__list_splice list (lastd h l1) (hdd h l2))
     (λ _, list_becomes m h (l1 ++ ys ++ l2) (h :: l1 ++ ys ++ l2)) m.
Proof.
  intros Hy Hne Hl Hd. pose proof (is_list_cut _ _ _ _ Hl) as (H1 & [Hln Hlp] & H2).
  pose proof (is_list_next _ _ _ Hy) as Hyn. pose proof (is_list_prev _ _ _ Hy) as Hyp.
  assert (list ≠ 0) by (apply (is_list_nz _ _ _ _ Hy); left).
  destruct ys as [|f ys]; [done|]. simpl in Hyn, Hyp.
  assert (is_Some (nx m f)) by (apply (is_list_live _ _ _ _ Hy); set_solver).
  assert (is_Some (nx m (lastd f ys))).
  { apply (is_list_live _ _ _ _ Hy). right. apply lastd_in. }
  assert (chain m f ys) as Hc.
  { destruct Hy as ([_ Hc] & _). by apply chain_cut in Hc as [Hc _]. }
  destruct Hl as (_ & Hn & Hl0). destruct Hy as (_ & Hny & Hy0).
  pose proof (lastd_in h l1) as Hp. pose proof (hdd_in h l2) as Hq.
  pose proof (lastd_in f ys) as Hf.
  assert (∀ x, x ∈ f :: ys → x ≠ lastd h l1 ∧ x ≠ hdd h l2) as Hsep.
  { intros x Hx. assert (x ∉ h :: l1 ++ l2) by (apply Hd; by right).
    split; apply not_eq_sym; [apply lastd_ne|apply hdd_ne]; clear -H4; set_solver. }
  destruct (Hsep f ltac:(left)) as [??]. destruct (Hsep _ Hf) as [??].
  assert (f ≠ 0) by set_solver. assert (lastd f ys ≠ 0) by (intros Hz; rewrite Hz in Hf; set_solver).
  assert (lastd h l1 ≠ 0) by (apply lastd_ne; set_solver).
  assert (hdd h l2 ≠ 0) by (apply hdd_ne; set_solver).
  assert (list ≠ lastd h l1) by (apply not_eq_sym, lastd_ne; assert (list ∉ h :: l1 ++ l2) as Hi by (apply Hd; left); clear -Hi; set_solver).
  assert (list ≠ hdd h l2) by (apply not_eq_sym, hdd_ne; assert (list ∉ h :: l1 ++ l2) as Hi by (apply Hd; left); clear -Hi; set_solver).
  assert (∀ x, x ∈ h :: l1 ++ l2 → x ∉ f :: ys) as Hsep'.
  { intros x Hx Hx'. apply (Hd x); [by right|done]. }
  unfold __list_splice. repeat lh_step. split_and!.
  - split_and!.
    + rewrite <- !app_assoc. simpl. apply chain_cut. rewrite snoc_hdd.
      match goal with |- chain ?m1 _ _ ∧ _ =>
        destruct (halves_frame m m1 h l1 l2) as [??]; try done end.
      * intros x Hx Hxe. specialize (Hsep' x Hx).
        assert (x ≠ lastd f ys) by (by intros ->). by lh_rw.
      * intros x Hx Hxe. specialize (Hsep' x Hx).
        assert (x ≠ f) by (intros ->; apply Hsep'; left). by lh_rw.
      * split; [done|]. split; [split; by lh_rw|]. apply chain_cut.
        split_and!; [|split; by lh_rw|done].
        apply NoDup_cons in Hny as [_ Hny]. apply (chain_frame m); try done.
        -- intros x Hx Hxe. destruct (Hsep x Hx). by lh_rw.
        -- intros x Hx. destruct (Hsep x ltac:(by right)). apply NoDup_cons in Hny as [Hny _].
           assert (x ≠ f) by (by intros ->). by lh_rw.
    + nodup_simp. nodup_done.
    + set_solver.
  - intros x Hx. assert (x ≠ f ∧ x ≠ lastd f ys ∧ x ≠ lastd h l1 ∧ x ≠ hdd h l2)
      as (? & ? & ? & ?) by (clear -Hx Hf Hp Hq; split_and!; intros ->; set_solver).
    by rewrite wv_other, !wn_other, wv_other.
  - unfold wn, wv. by rewrite !dom_alter_L.
Qed.

Section splice.
Context (list h : Z) (ys xs : Datatypes.list Z) (m : list_mem).
Hypothesis Hy : is_list m list ys.
Hypothesis Hx : is_list m h xs.
Hypothesis Hd : disj (list :: ys) (h :: xs).

(** What every variant establishes; [init] tells whether the emptied list is
    re-initialised. *)
Definition spliced (xs' : Datatypes.list Z) (init : bool) (m' : list_mem) : Prop :=
  is_list m' h xs' ∧ (init = true → is_list m' list []) ∧
  (∀ x, x ∉ list :: h :: ys ++ xs → m' !! x = m !! x).

Lemma splice_frame l1 l2 m' :
  xs = l1 ++ l2 → list_becomes m h (l1 ++ ys ++ l2) (h :: l1 ++ ys ++ l2) m' →
  spliced (l1 ++ ys ++ l2) false m'.
Proof.
  intros Hxs (Hl & Hm & Hdom). split_and!; [done|done|].
  intros x Hnx. rewrite Hxs in Hnx. apply Hm. notin_from Hnx.
Qed.

(** Re-initialising the emptied head after the splice. *)
Lemma splice_init l1 l2 m' :
  xs = l1 ++ l2 → list_becomes m h (l1 ++ ys ++ l2) (h :: l1 ++ ys ++ l2) m' →
  wp (INIT_LIST_HEAD list) (λ _, spliced (l1 ++ ys ++ l2) true) m'.
Proof.
  intros Hxs (Hl & Hm & Hdom). eapply wp_mono.
  { apply INIT_LIST_HEAD_wp; [apply (is_list_nz _ _ _ _ Hy); left|].
    eapply dom_live; [done|]. apply (is_list_live _ _ _ _ Hy). left. }
  intros _ m2 (Hl2 & Hm2 & Hd2). split_and!; [|done|].
  - eapply is_list_agree; [|exact Hl]. intros x Hin. apply Hm2.
    intros ->%list_elem_of_singleton. destruct Hy as (_ & Hny & _).
    assert (list ∉ h :: l1 ++ l2) as Hlx by (rewrite <- Hxs; apply Hd; left). apply NoDup_cons in Hny as [Hny _].
    set_solver.
  - intros x Hnx. rewrite Hxs in Hnx. rewrite Hm2, Hm; [done|..]; notin_from Hnx.
Qed.

Lemma list_splice_wp :
  wp (list_splice list h) (λ _, spliced (ys ++ xs) false) m.
Proof.
  apply wp_bind. eapply wp_mono; [by apply list_empty_wp|]. intros b m' [-> ->].
  pose proof (is_list_next _ _ _ Hx). assert (h ≠ 0) by (apply (is_list_nz _ _ _ _ Hx); left).
  destruct (decide (ys = [])) as [Hys|Hys].
  - rewrite bool_decide_eq_true_2 by done. rewrite Hys. apply wp_ret.
    pose proof Hy as Hy'. rewrite Hys in Hy'. by split_and!.
  - rewrite bool_decide_eq_false_2 by done. simpl. repeat lh_step.
    eapply wp_mono; [by apply (__list_splice_wp list ys h [] xs)|].
    intros [] m' Hb. by apply (splice_frame [] xs).
Qed.

Lemma list_splice_tail_wp :
  wp (list_splice_tail list h) (λ _, spliced (xs ++ ys) false) m.
Proof.
  apply wp_bind. eapply wp_mono; [by apply list_empty_wp|]. intros b m' [-> ->].
  pose proof (is_list_prev _ _ _ Hx). assert (h ≠ 0) by (apply (is_list_nz _ _ _ _ Hx); left).
  destruct (decide (ys = [])) as [Hys|Hys].
  - rewrite bool_decide_eq_true_2 by done. rewrite Hys, app_nil_r. apply wp_ret.
    pose proof Hy as Hy'. rewrite Hys in Hy'. by split_and!.
  - rewrite bool_decide_eq_false_2 by done. simpl. repeat lh_step.
    pose proof (__list_splice_wp list ys h xs [] m) as Hw.
    pose proof (splice_frame xs []) as Hf. rewrite !app_nil_r in Hw, Hf.
    eapply wp_mono; [by apply Hw|]. intros [] m' Hb. by apply Hf.
Qed.

Lemma list_splice_init_wp :
  wp (list_splice_init list h) (λ _, spliced (ys ++ xs) true) m.
Proof.
  apply wp_bind. eapply wp_mono; [by apply list_empty_wp|]. intros b m' [-> ->].
  pose proof (is_list_next _ _ _ Hx). assert (h ≠ 0) by (apply (is_list_nz _ _ _ _ Hx); left).
  destruct (decide (ys = [])) as [Hys|Hys].
  - rewrite bool_decide_eq_true_2 by done. rewrite Hys. apply wp_ret.
    pose proof Hy as Hy'. rewrite Hys in Hy'. by split_and!.
  - rewrite bool_decide_eq_false_2 by done. simpl. repeat lh_step.
    eapply wp_mono; [by apply (__list_splice_wp list ys h [] xs)|].
    intros [] m' Hb. by apply (splice_init [] xs).
Qed.

Lemma list_splice_tail_init_wp :
  wp (list_splice_tail_init list h) (λ _, spliced (xs ++ ys) true) m.
Proof.
  apply wp_bind. eapply wp_mono; [by apply list_empty_wp|]. intros b m' [-> ->].
  pose proof (is_list_prev _ _ _ Hx). assert (h ≠ 0) by (apply (is_list_nz _ _ _ _ Hx); left).
  destruct (decide (ys = [])) as [Hys|Hys].
  - rewrite bool_decide_eq_true_2 by done. rewrite Hys, app_nil_r. apply wp_ret.
    pose proof Hy as Hy'. rewrite Hys in Hy'. by split_and!.
  - rewrite bool_decide_eq_false_2 by done. simpl. repeat lh_step.
    pose proof (__list_splice_wp list ys h xs [] m) as Hw.
    pose proof (splice_init xs []) as Hf. rewrite !app_nil_r in Hw, Hf.
    eapply wp_mono; [by apply Hw|]. intros [] m' Hb. by apply Hf.
Qed.
End splice.

(** Cutting the entries up to [e] off to [list]. *)
Lemma __list_cut_position_wp list h l1 e l2 m :
  is_list m h (l1 ++ e :: l2) → is_Some (nx m list) → list ∉ h :: l1 ++ e :: l2 → list ≠ 0 →
  wp (__list_cut_position list h e)
     (λ _ m', is_list m' list (l1 ++ [e]) ∧ is_list m' h l2 ∧
        (∀ x, x ∉ list :: h :: l1 ++ e :: l2 → m' !! x = m !! x) ∧ dom m' = dom m) m.
Proof.
  intros Hl Hlive Hin Hnz.
  pose proof (is_list_entry _ _ _ _ _ Hl) as (_ & [Hrn Hrp] & _ & H2).
  pose proof (is_list_next _ _ _ Hl) as Hhn.
  destruct Hl as (Hc & Hn & Hl0).
  assert (∃ f rest, l1 ++ [e] = f :: rest) as (f & rest & Hf) by (destruct l1; by eexists _, _).
  assert (lastd f rest = e) as Hlast.
  { transitivity (lastd h (l1 ++ [e])); [by rewrite Hf|apply lastd_snoc]. }
  replace (l1 ++ e :: l2) with (f :: rest ++ l2) in *
    by (rewrite app_comm_cons, <- Hf, <- app_assoc; done).
  simpl in Hhn, Hc. destruct Hc as [[_ Hfp] Hc].
  rewrite <- app_assoc, (snoc_hdd h l2) in Hc. apply chain_cut in Hc as (Hc & _ & _).
  assert (e ∈ f :: rest) as Hef by (rewrite <- Hlast; apply lastd_in).
  pose proof (hdd_in h l2) as Hq.
  assert (∀ x, x ∈ f :: rest → x ≠ h ∧ (x ∉ l2) ∧ x ≠ list ∧ x ≠ 0 ∧ x ≠ hdd h l2) as Hsep.
  { intros x Hx. nodup_simp.
    assert (x ≠ h ∧ (x ∉ l2) ∧ x ≠ list ∧ x ≠ 0) as (? & ? & ? & ?).
    { split_and!; [set_solver..|]. intros ->. set_solver. }
    split_and!; try done. apply not_eq_sym, hdd_ne. set_solver. }
  destruct (Hsep e Hef) as (? & ? & ? & ? & ?).
  destruct (Hsep f ltac:(left)) as (? & ? & ? & ? & ?).
  assert (h ≠ 0 ∧ list ≠ h) as [??] by set_solver.
  assert (hdd h l2 ≠ 0) by (apply hdd_ne; clear -Hl0; set_solver).
  assert (hdd h l2 ≠ list) by (apply hdd_ne; clear -Hin; set_solver).
  assert (is_Some (nx m f) ∧ is_Some (nx m e) ∧ is_Some (nx m h) ∧ is_Some (nx m (hdd h l2)))
    as (? & ? & ? & ?).
  { rewrite Hrn, Hhn. split_and!; [apply pv_live; by eexists|by eexists|by eexists|].
    apply pv_live. by eexists. }
  unfold __list_cut_position. do 7 lh_step.
  eapply wp_get_next; [done|by lh_rw|]. repeat lh_step.
  rewrite Hf. split_and!.
  - split_and!; [|clear -Hn Hin; nodup_simp; nodup_done|clear -Hl0 Hnz; set_solver].
    simpl. split; [split; by lh_rw|]. apply chain_cut. simpl. rewrite Hlast.
    split_and!; [|split; by lh_rw|done].
    clear -Hn Hsep Hc Hlast. apply (chain_frame m); [nodup_simp; nodup_done|..|done].
    + intros x Hx Hxe. destruct (Hsep x Hx) as (? & ? & ? & ? & ?).
      rewrite Hlast in Hxe. by lh_rw.
    + intros x Hx. destruct (Hsep x ltac:(by right)) as (? & ? & ? & ? & ?).
      assert (x ≠ f) by (intros ->; nodup_simp; done). by lh_rw.
  - assert (NoDup (h :: l2)) as Hn2 by (clear -Hn; nodup_simp; nodup_done).
    assert (list ∉ h :: l2) as Hin2 by (clear -Hin; set_solver).
    split_and!; [|done|clear -Hl0; set_solver].
    rewrite snoc_hdd. split; [split; by lh_rw|].
    apply (chain_frame m); [by apply NoDup_tail|..|done].
    + rewrite lastd_tail, <- snoc_hdd. intros x Hx Hxe.
      assert (x ≠ list) by (clear -Hx Hin2; set_solver).
      assert (x ≠ e) by (intros ->; apply elem_of_app in Hx as [?|?%list_elem_of_singleton]; done).
      by lh_rw.
    + intros x Hx. assert (x ∈ l2 ++ [h]) as Hx' by (rewrite snoc_hdd; by right).
      assert (x ≠ list) by (clear -Hx' Hin2; set_solver).
      assert (x ≠ f) by (intros ->; apply elem_of_app in Hx' as [?|?%list_elem_of_singleton]; done).
      assert (x ≠ hdd h l2).
      { intros ->. apply NoDup_tail, NoDup_cons in Hn2 as [??]. done. }
      by lh_rw.
  - intros x Hx.
    assert (x ≠ f ∧ x ≠ e ∧ x ≠ h ∧ x ≠ list ∧ x ≠ hdd h l2) as (? & ? & ? & ? & ?).
    { clear -Hx Hef Hq. split_and!; intros ->; set_solver. }
    by rewrite ?wn_other, ?wv_other, ?wn_other, ?wv_other, ?wn_other, ?wv_other, ?wn_other.
  - unfold wn, wv. by rewrite !dom_alter_L.
Qed.

Lemma list_cut_position_wp list h l1 e l2 m :
  is_list m h (l1 ++ e :: l2) → is_Some (nx m list) → list ∉ h :: l1 ++ e :: l2 → list ≠ 0 →
  wp (list_cut_position list h e)
     (λ _ m', is_list m' list (l1 ++ [e]) ∧ is_list m' h l2 ∧
        (∀ x, x ∉ list :: h :: l1 ++ e :: l2 → m' !! x = m !! x) ∧ dom m' = dom m) m.
Proof.
  intros Hl Hlive Hin Hnz. unfold list_cut_position.
  apply wp_bind. eapply wp_mono; [by apply list_empty_wp|]. intros b m' [-> ->].
  rewrite bool_decide_eq_false_2 by (by destruct l1).
  apply wp_bind. eapply wp_mono; [by apply list_is_singular_wp|]. intros b m' [-> ->].
  assert (e ≠ h) as Heh.
  { destruct Hl as (_ & Hn & _). nodup_simp. set_solver. }
  apply wp_bind. eapply (wp_mono _ (λ b m', b = false ∧ m' = m)).
  - case_bool_decide as Hlen; [|by apply wp_ret].
    assert (l1 = []) as ->.
    { rewrite length_app in Hlen. simpl in Hlen. destruct l1; [done|simpl in Hlen; lia]. }
    pose proof (is_list_next _ _ _ Hl). assert (h ≠ 0) by (apply (is_list_nz _ _ _ _ Hl); left).
    repeat lh_step. by rewrite Z.eqb_refl.
  - intros b m' [-> ->]. rewrite (proj2 (Z.eqb_neq _ _) Heh). by apply __list_cut_position_wp.
Qed.

(** [entry == head]: nothing is cut and [list] is initialised empty, unless
    the list has at most one entry, when [list] is left alone. *)
Lemma list_cut_position_head_wp list h x y xs m :
  is_list m h (x :: y :: xs) → is_Some (nx m list) → list ∉ h :: x :: y :: xs → list ≠ 0 →
  wp (list_cut_position list h h)
     (λ _ m', is_list m' list [] ∧ is_list m' h (x :: y :: xs) ∧
        (∀ z, z ≠ list → m' !! z = m !! z)) m.
Proof.
  intros Hl Hlive Hin Hnz. unfold list_cut_position.
  apply wp_bind. eapply wp_mono; [by apply list_empty_wp|]. intros b m' [-> ->]. simpl.
  apply wp_bind. eapply wp_mono; [by apply list_is_singular_wp|]. intros b m' [-> ->]. simpl.
  apply wp_bind, wp_ret. simpl. rewrite Z.eqb_refl.
  eapply wp_mono; [by apply INIT_LIST_HEAD_wp|]. intros _ m' (Hl' & Hm & _).
  split_and!; [done| |].
  - eapply is_list_agree; [|exact Hl]. intros z Hz. apply Hm.
    intros ->%list_elem_of_singleton. done.
  - intros z Hz. apply Hm. by intros ->%list_elem_of_singleton.
Qed.

(** ** The size of a ring *)

Lemma is_list_size m h xs : is_list m h xs → (length xs < size m)%nat.
Proof.
  intros Hl. rewrite <- size_dom. change (length (h :: xs) ≤ size (dom m))%nat.
  pose proof Hl as (_ & Hn & _).
  rewrite <- (size_list_to_set (C:=gset Z)) by done.
  apply subseteq_size. intros x Hx%elem_of_list_to_set.
  apply (is_list_live _ _ _ _ Hl) in Hx as [? Hx].
  apply fmap_Some in Hx as (n & Hn' & _). by apply elem_of_dom.
Qed.
