(* ===== verification/ListIter.v ===== *)
(** The iteration macros of src/src/list.h.

    A loop of C over the entries of a list is a combinator here: the macro with
    the loop's body as an argument.  The body runs over any store that holds
    the memory of the lists; its result says whether the loop goes on ([None])
    or returns from the function ([Some]).  An entry is the address of a struct
    whose [struct list_head] is [member] bytes into it. *)
From Stdlib Require Import ZArith Lia.
From stdpp Require Import base tactics option list numbers gmap.
From S2P Require Import Prelude ListHead ListRep ListSplice.

Local Open Scope Z_scope.

(** ** The macros *)

Section macros.
Context {S : Type} `{HS : !Store S list_mem} {A : Type}.
Variable member : Z.

Definition list_entry (ptr : Z) : Z := ptr - member.

Definition list_first_entry (ptr : Z) : cm S Z :=
  n ← lift (get_next ptr); mret (list_entry n).

Definition list_last_entry (ptr : Z) : cm S Z :=
  p ← lift (get_prev ptr); mret (list_entry p).

Definition list_first_entry_or_null (ptr : Z) : cm S Z :=
  e ← lift (list_empty ptr);
  if negb e then list_first_entry ptr else mret NULL.

Definition list_next_entry (pos : Z) : cm S Z :=
  n ← lift (get_next (pos + member)); mret (list_entry n).

Definition list_prev_entry (pos : Z) : cm S Z :=
  p ← lift (get_prev (pos + member)); mret (list_entry p).

Definition list_prepare_entry (pos head : Z) : Z :=
  if negb (pos =? NULL) then pos else list_entry head.

(** [for (; &pos->member != head; pos = step pos) body] *)
Fixpoint for_entries (fuel : nat) (step : Z → cm S Z) (head : Z)
    (body : Z → cm S (option A)) (pos : Z) : cm S (option A) :=
  match fuel with
  | O => c_nofuel
  | Datatypes.S fuel =>
    if pos + member =? head then mret None else
    r ← body pos;
    match r with
    | Some a => mret (Some a)
    | None => pos' ← step pos; for_entries fuel step head body pos'
    end
  end.

(** [for (; &pos->member != head; pos = n, n = step n) body] *)
Fixpoint for_entries_safe (fuel : nat) (step : Z → cm S Z) (head : Z)
    (body : Z → cm S (option A)) (pos n : Z) : cm S (option A) :=
  match fuel with
  | O => c_nofuel
  | Datatypes.S fuel =>
    if pos + member =? head then mret None else
    r ← body pos;
    match r with
    | Some a => mret (Some a)
    | None => n' ← step n; for_entries_safe fuel step head body n n'
    end
  end.

(** As many turns as the memory has nodes, and one. *)
Definition list_fuel : cm S nat := c_get (λ s, Datatypes.S (size (part (T:=list_mem) s))).

Definition list_for_each_entry (body : Z → cm S (option A)) (head : Z) : cm S (option A) :=
  fuel ← list_fuel;
  pos ← list_first_entry head;
  for_entries fuel list_next_entry head body pos.

Definition list_for_each_entry_reverse (body : Z → cm S (option A)) (head : Z) : cm S (option A) :=
  fuel ← list_fuel;
  pos ← list_last_entry head;
  for_entries fuel list_prev_entry head body pos.

Definition list_for_each_entry_continue (body : Z → cm S (option A)) (pos head : Z) : cm S (option A) :=
  fuel ← list_fuel;
  pos ← list_next_entry pos;
  for_entries fuel list_next_entry head body pos.

Definition list_for_each_entry_continue_reverse (body : Z → cm S (option A)) (pos head : Z) :
    cm S (option A) :=
  fuel ← list_fuel;
  pos ← list_prev_entry pos;
  for_entries fuel list_prev_entry head body pos.

Definition list_for_each_entry_from (body : Z → cm S (option A)) (pos head : Z) : cm S (option A) :=
  fuel ← list_fuel;
  for_entries fuel list_next_entry head body pos.

Definition list_for_each_entry_from_reverse (body : Z → cm S (option A)) (pos head : Z) :
    cm S (option A) :=
  fuel ← list_fuel;
  for_entries fuel list_prev_entry head body pos.

Definition list_for_each_entry_safe (body : Z → cm S (option A)) (head : Z) : cm S (option A) :=
  fuel ← list_fuel;
  pos ← list_first_entry head;
  n ← list_next_entry pos;
  for_entries_safe fuel list_next_entry head body pos n.

Definition list_for_each_entry_safe_continue (body : Z → cm S (option A)) (pos head : Z) :
    cm S (option A) :=
  fuel ← list_fuel;
  pos ← list_next_entry pos;
  n ← list_next_entry pos;
  for_entries_safe fuel list_next_entry head body pos n.

Definition list_for_each_entry_safe_from (body : Z → cm S (option A)) (pos head : Z) :
    cm S (option A) :=
  fuel ← list_fuel;
  n ← list_next_entry pos;
  for_entries_safe fuel list_next_entry head body pos n.

Definition list_for_each_entry_safe_reverse (body : Z → cm S (option A)) (head : Z) : cm S (option A) :=
  fuel ← list_fuel;
  pos ← list_last_entry head;
  n ← list_prev_entry pos;
  for_entries_safe fuel list_prev_entry head body pos n.

(** The new value of [n]. *)
Definition list_safe_reset_next (pos : Z) : cm S Z := list_next_entry pos.
End macros.

(** The macros whose cursor is the [struct list_head] itself. *)
Section nodes.
Context {S : Type} `{HS : !Store S list_mem} {A : Type}.

Definition list_for_each (body : Z → cm S (option A)) (head : Z) : cm S (option A) :=
  list_for_each_entry 0 body head.

Definition __list_for_each (body : Z → cm S (option A)) (head : Z) : cm S (option A) :=
  list_for_each_entry 0 body head.

Definition list_for_each_prev (body : Z → cm S (option A)) (head : Z) : cm S (option A) :=
  list_for_each_entry_reverse 0 body head.

Definition list_for_each_safe (body : Z → cm S (option A)) (head : Z) : cm S (option A) :=
  list_for_each_entry_safe 0 body head.

Definition list_for_each_prev_safe (body : Z → cm S (option A)) (head : Z) : cm S (option A) :=
  list_for_each_entry_safe_reverse 0 body head.
End nodes.

(** ** Walking a ring *)

Lemma list_entry_node member x : list_entry member (x + member) = x.
Proof. unfold list_entry. lia. Qed.
Lemma list_entry_at member x : list_entry member x + member = x.
Proof. unfold list_entry. lia. Qed.

(** A macro walks with a [step], along the ring or against it: [along m h l]
    says that the nodes from the head [h] on in that direction are [l]. *)
Class Walk {S} `{HS : !Store S list_mem} (member : Z) (step : Z → cm S Z)
    (along : list_mem → Z → list Z → Prop) := {
  walk_step l1 x l2 h s : along (part s) h (l1 ++ x :: l2) →
    wp (step (list_entry member x)) (λ v s', v = list_entry member (hdd h l2) ∧ s' = s) s;
  walk_first l h s : along (part s) h l →
    wp (step (list_entry member h)) (λ v s', v = list_entry member (hdd h l) ∧ s' = s) s;
  walk_ring m h l : along m h l → NoDup (h :: l) ∧ (length l < size m)%nat;
}.

Section walks.
Context {S : Type} `{HS : !Store S list_mem}.
Variable member : Z.

(** The step forward from a node and from the head. *)
Lemma step_forward x v s :
  x ≠ 0 → nx (part s) x = Some v →
  wp (list_next_entry (S := S) member (list_entry member x))
     (λ r s', r = list_entry member v ∧ s' = s) s.
Proof.
  intros Hx Hv. unfold list_next_entry. apply wp_bind, (wp_lift_pure _ (λ n, n = v)).
  - rewrite list_entry_at. by eapply wp_get_next.
  - intros n ->. by apply wp_ret.
Qed.
Lemma step_backward x v s :
  x ≠ 0 → pv (part s) x = Some v →
  wp (list_prev_entry (S := S) member (list_entry member x))
     (λ r s', r = list_entry member v ∧ s' = s) s.
Proof.
  intros Hx Hv. unfold list_prev_entry. apply wp_bind, (wp_lift_pure _ (λ n, n = v)).
  - rewrite list_entry_at. by eapply wp_get_prev.
  - intros n ->. by apply wp_ret.
Qed.

#[export] Instance walk_forward : Walk (S := S) member (list_next_entry member) is_list.
Proof.
  split.
  - intros l1 x l2 h s Hl. apply step_forward; [eapply is_list_nz; [done|set_solver]|].
    by apply is_list_entry in Hl as (_ & [? _] & _).
  - intros l h s Hl. apply step_forward; [by eapply is_list_nz; [|left]|]. by apply is_list_next.
  - intros m h l Hl. split; [by destruct Hl as (_ & ? & _)|by eapply is_list_size].
Qed.

Lemma lastd_reverse h l : lastd h (reverse l) = hdd h l.
Proof. destruct l as [|x l]; [done|]. by rewrite reverse_cons, lastd_snoc. Qed.

#[export] Instance walk_backward :
  Walk (S := S) member (list_prev_entry member) (λ m h l, is_list m h (reverse l)).
Proof.
  split.
  - intros l1 x l2 h s Hl. rewrite reverse_app, reverse_cons, <- app_assoc in Hl.
    apply step_backward; [eapply is_list_nz; [done|set_solver]|].
    apply is_list_entry in Hl as ([_ Hp] & _). by rewrite lastd_reverse in Hp.
  - intros l h s Hl. apply step_backward; [by eapply is_list_nz; [|left]|].
    apply is_list_prev in Hl. by rewrite lastd_reverse in Hl.
  - intros m h l Hl. split.
    + destruct Hl as (_ & Hn & _). by rewrite reverse_Permutation in Hn.
    + apply is_list_size in Hl. by rewrite length_reverse in Hl.
Qed.
End walks.

(** ** The rules of the loops *)

Section loops.
Context {S : Type} `{HS : !Store S list_mem} {A : Type}.
Variables (member : Z) (step : Z → cm S Z) (along : list_mem → Z → list Z → Prop).
Context `{HW : !Walk member step along}.
Variable head : Z.

Definition nodes (xs : list Z) : list Z := (λ x, x + member) <$> xs.
(** The nodes of these entries end the ring. *)
Definition ahead (rest : list Z) (s : S) : Prop := ∃ l1, along (part s) head (l1 ++ nodes rest).

Lemma ahead_head_ne x rest s : ahead (x :: rest) s → x + member ≠ head.
Proof.
  intros [l1 [Hn _]%(walk_ring (step := step) (along := along))]. nodup_simp. set_solver.
Qed.

Lemma ahead_tail x rest s : ahead (x :: rest) s → ahead rest s.
Proof. intros [l1 Hl]. exists (l1 ++ [x + member]). by rewrite <- app_assoc. Qed.

Variable body : Z → cm S (option A).
(** What holds with the entries of a list still to visit, and the result. *)
Variables (K : list Z → S → Prop) (Q : option A → S → Prop).

(** The body: it may change the ring, but the entry it is at stays
    ([keeping]), or at least those after it ([leaving], which allows it to take
    its entry out). *)
Definition body_ok (stays : list Z → list Z) : Prop := ∀ x rest s, K (x :: rest) s → ahead (x :: rest) s →
  wp (body x) (λ r s', match r with
    | Some a => Q (Some a) s'
    | None => K rest s' ∧ ahead (stays (x :: rest)) s'
    end) s.
Definition keeping (l : list Z) : list Z := l.
Definition leaving (l : list Z) : list Z := tail l.

Lemma for_entries_wp rest : ∀ fuel s,
  body_ok keeping → (∀ s, K [] s → Q None s) →
  K rest s → ahead rest s → (length rest < fuel)%nat →
  wp (for_entries member fuel step head body (list_entry member (hdd head (nodes rest)))) Q s.
Proof.
  induction rest as [|x rest IH]; intros [|fuel] s Hbody Hend HK Hl Hf; simpl in Hf; try lia;
    cbn [for_entries nodes hdd fmap list_fmap].
  - rewrite list_entry_at, Z.eqb_refl. by apply wp_ret, Hend.
  - rewrite list_entry_node, (proj2 (Z.eqb_neq _ _)) by by eapply ahead_head_ne.
    apply wp_bind. eapply wp_mono; [by apply Hbody|]. intros [a|] s'; [by apply wp_ret|].
    intros [HK' [l1 Hl']]. apply wp_bind. eapply wp_mono.
    { rewrite <- (list_entry_node member x). by apply (walk_step l1 _ (nodes rest)). }
    intros v s2 [-> ->]. apply IH; [done..| |lia]. eapply ahead_tail. by exists l1.
Qed.

Lemma for_entries_safe_wp rest : ∀ fuel n s,
  body_ok leaving → (∀ s, K [] s → Q None s) →
  K rest s → ahead rest s → (length rest < fuel)%nat →
  (rest ≠ [] → n = list_entry member (hdd head (nodes (tail rest)))) →
  wp (for_entries_safe member fuel step head body (list_entry member (hdd head (nodes rest))) n) Q s.
Proof.
  induction rest as [|x rest IH]; intros [|fuel] n s Hbody Hend HK Hl Hf Hn; simpl in Hf; try lia;
    cbn [for_entries_safe nodes hdd fmap list_fmap].
  - rewrite list_entry_at, Z.eqb_refl. by apply wp_ret, Hend.
  - rewrite list_entry_node, (proj2 (Z.eqb_neq _ _)) by by eapply ahead_head_ne.
    apply wp_bind. eapply wp_mono; [by apply Hbody|]. intros [a|] s'; [by apply wp_ret|].
    intros [HK' Hl']. pose proof Hl' as [l1 Hr]. rewrite (Hn ltac:(done)). cbn [leaving tail] in *.
    apply wp_bind. destruct rest as [|y rest]; cbn [nodes hdd fmap list_fmap tail] in *.
    + eapply wp_mono; [by eapply walk_first|]. intros v s2 [_ ->]. apply (IH fuel v); try done; simpl in *; lia.
    + eapply wp_mono; [by apply (walk_step l1 _ (nodes rest))|]. intros v s2 [-> ->].
      apply (IH fuel); try done; simpl in *; lia.
Qed.
End loops.

(** ** The macros *)

Section rules.
Context {S : Type} `{HS : !Store S list_mem} {A : Type}.
Variables (member head : Z) (body : Z → cm S (option A)).
Variables (K : list Z → S → Prop) (Q : option A → S → Prop).
Abbreviation nodes := (nodes member).
Abbreviation backwards := (λ m h l, is_list m h (reverse l)).

Lemma wp_list_fuel {B} (k : nat → cm S B) (R : B → S → Prop) s :
  wp (k (Datatypes.S (size (part (T := list_mem) s)))) R s → wp (fuel ← list_fuel; k fuel) R s.
Proof. intros. by apply wp_bind, wp_get. Qed.

Lemma first_entry_wp (l : list Z) s :
  is_list (part s) head l →
  wp (list_first_entry (S := S) member head) (λ v s', v = list_entry member (hdd head l) ∧ s' = s) s.
Proof.
  intros Hl. eapply wp_run_eq; [|by apply (walk_first (step := list_next_entry member) l)].
  unfold list_next_entry. by rewrite list_entry_at.
Qed.
Lemma last_entry_wp (l : list Z) s :
  is_list (part s) head (reverse l) →
  wp (list_last_entry (S := S) member head) (λ v s', v = list_entry member (hdd head l) ∧ s' = s) s.
Proof.
  intros Hl. eapply wp_run_eq; [|by apply (walk_first (step := list_prev_entry member)
    (along := λ m h l, is_list m h (reverse l)) l)].
  unfold list_prev_entry. by rewrite list_entry_at.
Qed.

Hypothesis Hend : ∀ s, K [] s → Q None s.

(** A loop with a plain step that starts at what is left of the ring. *)
Lemma loop_wp step along `{!Walk (S := S) member step along} l1 rest s :
  body_ok member along head body K Q keeping → K rest s → along (part s) head (l1 ++ nodes rest) →
  wp (for_entries member (Datatypes.S (size (part (T := list_mem) s))) step head body
       (list_entry member (hdd head (nodes rest)))) Q s.
Proof.
  intros Hbody HK Hl. eapply for_entries_wp; [done|done|done|done|by exists l1|].
  apply (walk_ring (S := S) (step := step)) in Hl as [_ Hl]. unfold ListIter.nodes in Hl.
  rewrite length_app, length_fmap in Hl. lia.
Qed.
Lemma loop_safe_wp step along `{!Walk (S := S) member step along} l1 rest n s :
  body_ok member along head body K Q leaving → K rest s → along (part s) head (l1 ++ nodes rest) →
  (rest ≠ [] → n = list_entry member (hdd head (nodes (tail rest)))) →
  wp (for_entries_safe member (Datatypes.S (size (part (T := list_mem) s))) step head body
       (list_entry member (hdd head (nodes rest))) n) Q s.
Proof.
  intros Hbody HK Hl Hn. eapply for_entries_safe_wp; [done|done|done|done|by exists l1| |done].
  apply (walk_ring (S := S) (step := step)) in Hl as [_ Hl]. unfold ListIter.nodes in Hl.
  rewrite length_app, length_fmap in Hl. lia.
Qed.
(** The second cursor of such a loop, read ahead. *)
Lemma second_wp step along `{!Walk (S := S) member step along} l1 rest s :
  along (part s) head (l1 ++ nodes rest) →
  wp (step (list_entry member (hdd head (nodes rest))))
     (λ v s', (rest ≠ [] → v = list_entry member (hdd head (nodes (tail rest)))) ∧ s' = s) s.
Proof.
  intros Hl. destruct rest as [|x rest]; cbn [ListIter.nodes fmap list_fmap hdd tail] in *.
  - eapply wp_mono; [by eapply walk_first|]. by intros v s' [_ ->].
  - eapply wp_mono; [by apply (walk_step l1 _ (nodes rest))|]. by intros v s' [-> ->].
Qed.

Lemma list_for_each_entry_wp xs s :
  body_ok member is_list head body K Q keeping → K xs s → is_list (part s) head (nodes xs) →
  wp (list_for_each_entry member body head) Q s.
Proof.
  intros Hbody HK Hl. apply wp_list_fuel, wp_bind.
  eapply wp_mono; [by apply first_entry_wp|]. intros v s' [-> ->]. by eapply (loop_wp _ _ []).
Qed.
Lemma list_for_each_entry_reverse_wp xs s :
  body_ok member backwards head body K Q keeping → K xs s → is_list (part s) head (reverse (nodes xs)) →
  wp (list_for_each_entry_reverse member body head) Q s.
Proof.
  intros Hbody HK Hl. apply wp_list_fuel, wp_bind.
  eapply wp_mono; [by apply last_entry_wp|]. intros v s' [-> ->]. by eapply (loop_wp _ backwards []).
Qed.
Lemma list_for_each_entry_continue_wp l1 x xs s :
  body_ok member is_list head body K Q keeping → K xs s →
  is_list (part s) head (l1 ++ nodes (x :: xs)) →
  wp (list_for_each_entry_continue member body x head) Q s.
Proof.
  intros Hbody HK Hl. apply wp_list_fuel, wp_bind.
  eapply wp_mono; [rewrite <- (list_entry_node member x); by apply (walk_step l1 _ (nodes xs))|].
  intros v s' [-> ->]. eapply (loop_wp _ _ (l1 ++ [x + member])); [done|done|]. by rewrite <- app_assoc.
Qed.
Lemma list_for_each_entry_continue_reverse_wp l1 x xs s :
  body_ok member backwards head body K Q keeping → K xs s →
  is_list (part s) head (reverse (l1 ++ nodes (x :: xs))) →
  wp (list_for_each_entry_continue_reverse member body x head) Q s.
Proof.
  intros Hbody HK Hl. apply wp_list_fuel, wp_bind.
  eapply wp_mono.
  { rewrite <- (list_entry_node member x).
    by apply (walk_step (step := list_prev_entry member) (along := backwards) l1 _ (nodes xs)). }
  intros v s' [-> ->]. eapply (loop_wp _ backwards (l1 ++ [x + member])); [done|done|].
  by rewrite <- app_assoc.
Qed.
Lemma list_for_each_entry_from_wp l1 x xs s :
  body_ok member is_list head body K Q keeping → K (x :: xs) s →
  is_list (part s) head (l1 ++ nodes (x :: xs)) →
  wp (list_for_each_entry_from member body x head) Q s.
Proof.
  intros Hbody HK Hl. apply wp_list_fuel. rewrite <- (list_entry_node member x).
  by apply (loop_wp _ is_list l1 (x :: xs)).
Qed.
Lemma list_for_each_entry_from_reverse_wp l1 x xs s :
  body_ok member backwards head body K Q keeping → K (x :: xs) s →
  is_list (part s) head (reverse (l1 ++ nodes (x :: xs))) →
  wp (list_for_each_entry_from_reverse member body x head) Q s.
Proof.
  intros Hbody HK Hl. apply wp_list_fuel. rewrite <- (list_entry_node member x).
  by apply (loop_wp _ backwards l1 (x :: xs)).
Qed.

Lemma list_for_each_entry_safe_wp xs s :
  body_ok member is_list head body K Q leaving → K xs s → is_list (part s) head (nodes xs) →
  wp (list_for_each_entry_safe member body head) Q s.
Proof.
  intros Hbody HK Hl. apply wp_list_fuel, wp_bind.
  eapply wp_mono; [by apply first_entry_wp|]. intros v s' [-> ->]. apply wp_bind.
  eapply wp_mono; [by apply (second_wp _ is_list [])|]. intros n s' [Hn ->].
  by eapply (loop_safe_wp _ _ []).
Qed.
Lemma list_for_each_entry_safe_reverse_wp xs s :
  body_ok member backwards head body K Q leaving → K xs s → is_list (part s) head (reverse (nodes xs)) →
  wp (list_for_each_entry_safe_reverse member body head) Q s.
Proof.
  intros Hbody HK Hl. apply wp_list_fuel, wp_bind.
  eapply wp_mono; [by apply last_entry_wp|]. intros v s' [-> ->]. apply wp_bind.
  eapply wp_mono; [by apply (second_wp _ backwards [])|]. intros n s' [Hn ->].
  by eapply (loop_safe_wp _ backwards []).
Qed.
Lemma list_for_each_entry_safe_continue_wp l1 x xs s :
  body_ok member is_list head body K Q leaving → K xs s →
  is_list (part s) head (l1 ++ nodes (x :: xs)) →
  wp (list_for_each_entry_safe_continue member body x head) Q s.
Proof.
  intros Hbody HK Hl. apply wp_list_fuel, wp_bind.
  eapply wp_mono; [rewrite <- (list_entry_node member x); by apply (walk_step l1 _ (nodes xs))|].
  intros v s' [-> ->].
  assert (is_list (part s) head ((l1 ++ [x + member]) ++ nodes xs)) as Hl2 by by rewrite <- app_assoc.
  apply wp_bind. eapply wp_mono; [by apply (second_wp _ is_list (l1 ++ [x + member]))|].
  intros n s' [Hn ->]. by apply (loop_safe_wp _ is_list (l1 ++ [x + member])).
Qed.
Lemma list_for_each_entry_safe_from_wp l1 x xs s :
  body_ok member is_list head body K Q leaving → K (x :: xs) s →
  is_list (part s) head (l1 ++ nodes (x :: xs)) →
  wp (list_for_each_entry_safe_from member body x head) Q s.
Proof.
  intros Hbody HK Hl. apply wp_list_fuel, wp_bind.
  pose proof (second_wp _ is_list l1 (x :: xs) s Hl) as H2. cbn [ListIter.nodes fmap list_fmap hdd] in H2.
  rewrite list_entry_node in H2. eapply wp_mono; [exact H2|]. intros n s' [Hn ->].
  pose proof (loop_safe_wp _ is_list l1 (x :: xs) n s Hbody HK Hl Hn) as H3.
  cbn [ListIter.nodes fmap list_fmap hdd] in H3. by rewrite list_entry_node in H3.
Qed.
End rules.

(** ** A body that leaves the lists alone *)

Section visits.
Context {S : Type} `{HS : !Store S list_mem} {A : Type}.
Variable body : Z → cm S (option A).

(** The reference: the body on each entry in turn, until it returns. *)
Fixpoint visit_all (xs : list Z) : cm S (option A) :=
  match xs with
  | [] => mret None
  | x :: xs =>
    r ← body x;
    match r with Some a => mret (Some a) | None => visit_all xs end
  end.

Definition leaves_lists : Prop := ∀ x s r s', body x s = Ok (r, s') → part (T := list_mem) s' = part s.
Hypothesis Hbody : leaves_lists.

Lemma for_entries_run member step along `{!Walk (S := S) member step along} head rest :
  ∀ fuel s, ahead member along head rest s → (length rest < fuel)%nat →
  for_entries member fuel step head body (list_entry member (hdd head (nodes member rest))) s =
    visit_all rest s.
Proof.
  induction rest as [|x rest IH]; intros [|fuel] s Hl Hf; simpl in Hf; try lia;
    cbn [for_entries nodes hdd fmap list_fmap visit_all].
  - by rewrite list_entry_at, Z.eqb_refl.
  - rewrite list_entry_node, (proj2 (Z.eqb_neq _ _)) by by eapply (ahead_head_ne _ _ _ _ x rest).
    unfold mbind, cm_bind. destruct (body x s) as [[[a|] s']| | |] eqn:E; try done.
    destruct Hl as [l1 Hl]. rewrite <- (Hbody _ _ _ _ E) in Hl.
    destruct (wp_elim _ _ _ (walk_step l1 _ (nodes member rest) _ _ Hl)) as (v & s2 & Hrun & -> & ->).
    rewrite list_entry_node in Hrun. rewrite Hrun. apply IH; [|lia].
    exists (l1 ++ [x + member]). by rewrite <- app_assoc.
Qed.

Lemma for_entries_safe_run member step along `{!Walk (S := S) member step along} head rest :
  ∀ fuel n s, ahead member along head rest s → (length rest < fuel)%nat →
  (rest ≠ [] → n = list_entry member (hdd head (nodes member (tail rest)))) →
  for_entries_safe member fuel step head body (list_entry member (hdd head (nodes member rest))) n s =
    visit_all rest s.
Proof.
  induction rest as [|x rest IH]; intros [|fuel] n s Hl Hf Hn; simpl in Hf; try lia;
    cbn [for_entries_safe nodes hdd fmap list_fmap visit_all].
  - by rewrite list_entry_at, Z.eqb_refl.
  - rewrite list_entry_node, (proj2 (Z.eqb_neq _ _)) by by eapply (ahead_head_ne _ _ _ _ x rest).
    unfold mbind, cm_bind. destruct (body x s) as [[[a|] s']| | |] eqn:E; try done.
    destruct Hl as [l1 Hl]. rewrite <- (Hbody _ _ _ _ E) in Hl.
    assert (along (part s') head ((l1 ++ [x + member]) ++ nodes member rest)) as Hl2
      by by rewrite <- app_assoc.
    rewrite (Hn ltac:(done)). cbn [tail].
    destruct (wp_elim _ _ _ (second_wp member head step along _ _ _ Hl2)) as (v & s2 & Hrun & Hv & ->).
    rewrite Hrun. apply IH; [by eexists|lia|done].
Qed.

Lemma ring_fuel member m head xs : is_list m head (nodes member xs) → (length xs < Datatypes.S (size m))%nat.
Proof. intros Hl%is_list_size. unfold nodes in Hl. rewrite length_fmap in Hl. lia. Qed.

Lemma nodes_reverse member xs : nodes member (reverse xs) = reverse (nodes member xs).
Proof. apply fmap_reverse. Qed.

Lemma list_for_each_entry_run member head xs s :
  is_list (part s) head (nodes member xs) →
  list_for_each_entry member body head s = visit_all xs s.
Proof.
  intros Hl. unfold list_for_each_entry. rewrite (bind_ok _ _ _ _ _ eq_refl).
  destruct (wp_elim _ _ _ (first_entry_wp member head _ _ Hl)) as (v & s2 & Hrun & -> & ->).
  rewrite (bind_ok _ _ _ _ _ Hrun). apply (for_entries_run _ _ is_list); [by exists []|by eapply ring_fuel].
Qed.

Lemma list_for_each_entry_reverse_run member head xs s :
  is_list (part s) head (nodes member xs) →
  list_for_each_entry_reverse member body head s = visit_all (reverse xs) s.
Proof.
  intros Hl. pose proof (ring_fuel _ _ _ _ Hl) as Hf.
  rewrite <- (reverse_involutive (nodes _ _)), <- nodes_reverse in Hl.
  unfold list_for_each_entry_reverse. rewrite (bind_ok _ _ _ _ _ eq_refl).
  destruct (wp_elim _ _ _ (last_entry_wp member head _ _ Hl)) as (v & s2 & Hrun & -> & ->).
  rewrite (bind_ok _ _ _ _ _ Hrun).
  apply (for_entries_run _ _ (λ m h l, is_list m h (reverse l))); [by exists []|by rewrite length_reverse].
Qed.

Lemma list_for_each_entry_safe_run member head xs s :
  is_list (part s) head (nodes member xs) →
  list_for_each_entry_safe member body head s = visit_all xs s.
Proof.
  intros Hl. unfold list_for_each_entry_safe. rewrite (bind_ok _ _ _ _ _ eq_refl).
  destruct (wp_elim _ _ _ (first_entry_wp member head _ _ Hl)) as (v & s2 & Hrun & -> & ->).
  rewrite (bind_ok _ _ _ _ _ Hrun).
  destruct (wp_elim _ _ _ (second_wp member head (list_next_entry member) is_list [] xs s Hl))
    as (n & s2 & Hrun2 & Hn & ->).
  rewrite (bind_ok _ _ _ _ _ Hrun2).
  apply (for_entries_safe_run _ _ is_list); [by exists []|by eapply ring_fuel|done].
Qed.

Lemma list_for_each_entry_safe_reverse_run member head xs s :
  is_list (part s) head (nodes member xs) →
  list_for_each_entry_safe_reverse member body head s = visit_all (reverse xs) s.
Proof.
  intros Hl. pose proof (ring_fuel _ _ _ _ Hl) as Hf.
  rewrite <- (reverse_involutive (nodes _ _)), <- nodes_reverse in Hl.
  unfold list_for_each_entry_safe_reverse. rewrite (bind_ok _ _ _ _ _ eq_refl).
  destruct (wp_elim _ _ _ (last_entry_wp member head _ _ Hl)) as (v & s2 & Hrun & -> & ->).
  rewrite (bind_ok _ _ _ _ _ Hrun).
  destruct (wp_elim _ _ _ (second_wp member head (list_prev_entry member)
    (λ m h l, is_list m h (reverse l)) [] _ s Hl)) as (n & s2 & Hrun2 & Hn & ->).
  rewrite (bind_ok _ _ _ _ _ Hrun2).
  apply (for_entries_safe_run _ _ (λ m h l, is_list m h (reverse l)));
    [by exists []|by rewrite length_reverse|done].
Qed.
End visits.

(** ** Taking entries out while walking *)

Section removal.
Context {S : Type} `{HS : !Store S list_mem}.
Variables (member : Z) (unwanted : Z → bool).

Definition remove_body (pos : Z) : cm S (option unit) :=
  if unwanted pos then lift (list_del_init (pos + member));; mret None else mret None.

Definition wanted (xs : list Z) : list Z := filter (λ x, unwanted x = false) xs.

Lemma remove_body_ok head xs m0 :
  body_ok (S := S) member is_list head remove_body
    (λ rest s, ∃ done, xs = done ++ rest ∧
       list_becomes m0 head (nodes member (wanted done ++ rest)) (head :: nodes member xs) (part s))
    (λ r s, r = None ∧
       list_becomes m0 head (nodes member (wanted xs)) (head :: nodes member xs) (part s)) leaving.
Proof.
  intros x rest s (l & -> & Hl) _. unfold remove_body. destruct (unwanted x) eqn:E.
  - apply wp_bind, wp_lift. destruct Hl as (Hl & Hs & Hd).
    unfold nodes in Hl. rewrite fmap_app, fmap_cons in Hl.
    eapply wp_mono; [by apply list_del_init_wp|]. intros u m ((Hl' & Hs' & Hd') & _).
    apply wp_ret. split.
    + exists (l ++ [x]). rewrite <- app_assoc, part_with. split; [done|].
      unfold wanted. rewrite filter_app, filter_cons_False, app_nil_r by congruence.
      unfold nodes at 1. rewrite fmap_app. split; [done|]. split; [|congruence].
      intros y Hy. rewrite Hs', Hs; [done|done|]. intros Hin. apply Hy. revert Hin.
      unfold nodes, wanted. rewrite fmap_app, fmap_cons, !elem_of_cons, !elem_of_app, !elem_of_cons.
      intros [?|[(z & -> & Hz%list_elem_of_filter)%list_elem_of_fmap|[?|?]]]; auto.
      right. left. apply list_elem_of_fmap. exists z. tauto.
    + cbn [leaving tail]. exists (nodes member (wanted l)). by rewrite part_with.
  - apply wp_ret. split.
    + exists (l ++ [x]). rewrite <- app_assoc. split; [done|].
      unfold wanted. rewrite filter_app, filter_cons_True by done. by rewrite <- app_assoc.
    + destruct Hl as (Hl & _). cbn [leaving tail]. exists (nodes member (wanted l ++ [x])).
      unfold nodes in *. by rewrite <- fmap_app, <- app_assoc.
Qed.

(** list_for_each_entry_safe with a body that takes entries out. *)
Lemma list_remove_wp head xs s :
  is_list (part s) head (nodes member xs) →
  wp (list_for_each_entry_safe member remove_body head)
     (λ r s', r = None ∧
        list_becomes (part s) head (nodes member (wanted xs)) (head :: nodes member xs) (part s')) s.
Proof.
  intros Hl. eapply list_for_each_entry_safe_wp; [|by apply (remove_body_ok head xs)| |done].
  - intros s' (l & -> & Hs). rewrite !app_nil_r in *. done.
  - exists []. split; [done|]. by split_and!.
Qed.
End removal.
