(* ===== verification/ListProps.v ===== *)
(** What list.h promises its users: the theorems on the operations of
    src/src/list.h, stated on the sequence a ring holds, and their instances
    on two concrete rings. *)
From Stdlib Require Import ZArith Lia.
From stdpp Require Import base tactics option list numbers gmap.
From S2P Require Import Prelude ListHead ListRep ListSplice ListIter.

Local Open Scope Z_scope.

(** ** A concrete memory: the ring 8 -> 16 -> 24, the ring 40 -> 48 and the
    lone node 32 *)
Definition ex_lists : list_mem :=
  <[8 := ListHead 16 24]> (<[16 := ListHead 24 8]> (<[24 := ListHead 8 16]>
  (<[32 := ListHead 32 32]> (<[40 := ListHead 48 48]> (<[48 := ListHead 40 40]> ∅))))).

Lemma ex_ring8 : is_list ex_lists 8 [16; 24].
Proof.
  split_and!; [repeat split| |].
  - apply (bool_decide_unpack (NoDup [8; 16; 24])). by vm_compute.
  - apply (bool_decide_unpack (0 ∉ [8; 16; 24])). by vm_compute.
Qed.
Lemma ex_ring40 : is_list ex_lists 40 [48].
Proof.
  split_and!; [repeat split| |].
  - apply (bool_decide_unpack (NoDup [40; 48])). by vm_compute.
  - apply (bool_decide_unpack (0 ∉ [40; 48])). by vm_compute.
Qed.
Lemma ex_live32 : is_Some (nx ex_lists 32).
Proof. by eexists. Qed.
Lemma ex_out32 : 32 ∉ [8; 16; 24].
Proof. apply (bool_decide_unpack (32 ∉ [8; 16; 24])). by vm_compute. Qed.
Lemma ex_disj : disj [40; 48] [8; 16; 24].
Proof.
  intros x Hx Hy. assert (bool_decide (Forall (λ x, x ∉ [8; 16; 24]) [40; 48]) = true) as H
    by (by vm_compute).
  apply bool_decide_eq_true in H. rewrite Forall_forall in H. by apply (H x).
Qed.

(** ** The promises *)

(** C5. The operations of list.h on single entries do to the sequence of a ring
    what their names say, for every ring, empty ones included, and touch only
    its nodes and the new one: list_add puts the new entry first, list_add_tail
    last; list_del (which poisons the entry) and list_del_init (which makes it
    an empty ring) take an entry out; list_move and list_move_tail bring it to
    the front and to the back; list_rotate_left brings the first to the back;
    list_replace puts the new node at its place; list_cut_position moves it
    and all before it to a new ring.  The list_splice functions put all the
    entries of another ring at the front (list_splice, list_splice_init) or at
    the back (the tail variants), also when either is empty; the init variants
    leave the other ring empty. *)
Theorem list_entries_correct (new h : Z) (xs : list Z) (m : list_mem) :
  is_list m h xs → is_Some (nx m new) → new ∉ h :: xs → new ≠ 0 →
  wp (list_add new h) (λ _, list_becomes m h (new :: xs) (new :: h :: xs)) m ∧
  wp (list_add_tail new h) (λ _, list_becomes m h (xs ++ [new]) (new :: h :: xs)) m ∧
  wp (list_rotate_left h) (λ _, list_becomes m h (tail xs ++ option_list (head xs)) (h :: xs)) m ∧
  (∀ l1 e l2, xs = l1 ++ e :: l2 →
    wp (list_del e)
       (λ _ m', list_becomes m h (l1 ++ l2) (h :: xs) m' ∧
          nx m' e = Some LIST_POISON1 ∧ pv m' e = Some LIST_POISON2) m ∧
    wp (list_del_init e)
       (λ _ m', list_becomes m h (l1 ++ l2) (h :: xs) m' ∧ is_list m' e []) m ∧
    wp (list_move e h) (λ _, list_becomes m h (e :: l1 ++ l2) (h :: xs)) m ∧
    wp (list_move_tail e h) (λ _, list_becomes m h (l1 ++ l2 ++ [e]) (h :: xs)) m ∧
    wp (list_replace e new) (λ _, list_becomes m h (l1 ++ new :: l2) (new :: h :: l1 ++ l2)) m ∧
    wp (list_cut_position new h e)
       (λ _ m', is_list m' new (l1 ++ [e]) ∧ is_list m' h l2 ∧
          (∀ x, x ∉ new :: h :: xs → m' !! x = m !! x) ∧ dom m' = dom m) m) ∧
  (∀ list ys, is_list m list ys → disj (list :: ys) (h :: xs) →
    wp (list_splice list h) (λ _, spliced list h ys xs m (ys ++ xs) false) m ∧
    wp (list_splice_tail list h) (λ _, spliced list h ys xs m (xs ++ ys) false) m ∧
    wp (list_splice_init list h) (λ _, spliced list h ys xs m (ys ++ xs) true) m ∧
    wp (list_splice_tail_init list h) (λ _, spliced list h ys xs m (xs ++ ys) true) m).
Proof.
  intros Hl Hn Hin Hz. split; [by apply list_add_wp|]. split; [by apply list_add_tail_wp|].
  split; [by apply list_rotate_left_wp|]. split.
  - intros l1 e l2 ->. split_and!; [by apply list_del_wp|by apply list_del_init_wp|
      by apply list_move_wp|by apply list_move_tail_wp|by apply list_replace_wp|
      by apply list_cut_position_wp].
  - intros. split_and!; [by apply list_splice_wp|by apply list_splice_tail_wp|
      by apply list_splice_init_wp|by apply list_splice_tail_init_wp].
Qed.

Lemma list_entries_correct_witness :
  wp (list_add 32 8) (λ _, list_becomes ex_lists 8 [32; 16; 24] [32; 8; 16; 24]) ex_lists ∧
  wp (list_del 16)
     (λ _ m', list_becomes ex_lists 8 [24] [8; 16; 24] m' ∧
        nx m' 16 = Some LIST_POISON1 ∧ pv m' 16 = Some LIST_POISON2) ex_lists ∧
  wp (list_move_tail 16 8) (λ _, list_becomes ex_lists 8 [24; 16] [8; 16; 24]) ex_lists ∧
  wp (list_splice_init 40 8)
     (λ _, spliced 40 8 [48] [16; 24] ex_lists [48; 16; 24] true) ex_lists.
Proof.
  destruct (list_entries_correct 32 8 [16; 24] ex_lists ex_ring8 ex_live32 ex_out32 ltac:(done))
    as (Ha & _ & _ & He & Hs).
  destruct (He [] 16 [24] eq_refl) as (Hd & _ & _ & Hm & _).
  destruct (Hs 40 [48] ex_ring40 ex_disj) as (_ & _ & Hi & _).
  split; [exact Ha|]. split; [exact Hd|]. split; [exact Hm|exact Hi].
Defined.

(** The emptiness tests answer for the length of the sequence. *)
Theorem list_empty_correct (h : Z) (xs : list Z) (m : list_mem) :
  is_list m h xs →
  wp (list_empty h) (λ b m', b = bool_decide (xs = []) ∧ m' = m) m ∧
  wp (list_empty_careful h) (λ b m', b = bool_decide (xs = []) ∧ m' = m) m ∧
  wp (list_is_singular h) (λ b m', b = bool_decide (length xs = 1%nat) ∧ m' = m) m.
Proof.
  intros Hl. split_and!; [by apply list_empty_wp|by apply list_empty_careful_wp|
    by apply list_is_singular_wp].
Qed.

Lemma list_empty_correct_witness :
  wp (list_empty 8) (λ b m', b = false ∧ m' = ex_lists) ex_lists ∧
  wp (list_empty_careful 8) (λ b m', b = false ∧ m' = ex_lists) ex_lists ∧
  wp (list_is_singular 8) (λ b m', b = false ∧ m' = ex_lists) ex_lists.
Proof. apply (list_empty_correct 8 [16; 24]), ex_ring8. Defined.

(** C6. The iteration macros terminate on a ring whatever the body does, as long
    as it leaves the rings alone: the body runs on the struct of each entry in
    turn, in order or in reverse order, until it returns from the function.
    The body of list_for_each_entry_safe may moreover take out the entry it is
    at: with one that unlinks the unwanted entries the loop terminates and
    leaves exactly the others, in order, and every other node as it was. *)
Theorem list_iterate_correct {S A : Type} `{HS : !Store S list_mem}
    (body : Z → cm S (option A)) (member h : Z) (xs : list Z) (s : S) :
  leaves_lists body → is_list (part s) h (nodes member xs) →
  list_for_each_entry member body h s = visit_all body xs s ∧
  list_for_each_entry_reverse member body h s = visit_all body (reverse xs) s ∧
  list_for_each_entry_safe member body h s = visit_all body xs s ∧
  list_for_each_entry_safe_reverse member body h s = visit_all body (reverse xs) s ∧
  ∀ unwanted : Z → bool,
    wp (list_for_each_entry_safe member (remove_body member unwanted) h)
       (λ r s', r = None ∧ list_becomes (part s) h
          (nodes member (filter (λ x, unwanted x = false) xs)) (h :: nodes member xs) (part s')) s.
Proof.
  intros Hb Hl. split_and!; [by apply list_for_each_entry_run|by apply list_for_each_entry_reverse_run|
    by apply list_for_each_entry_safe_run|by apply list_for_each_entry_safe_reverse_run|].
  intros unwanted. by apply list_remove_wp.
Qed.

(** The rings and a log; the body logs the entry and returns at 28. *)
Definition logged := (list_mem * list Z)%type.
#[export] Instance logged_store : Store logged list_mem.
Proof. refine {| part := fst; with_part m s := (m, snd s) |}; by try intros ? ? []; try intros []. Defined.
Definition log_body (x : Z) : cm logged (option Z) :=
  c_modify (λ s, (fst s, snd s ++ [x]));; mret (if x =? 28 then Some x else None).

Lemma list_iterate_correct_witness :
  list_for_each_entry 4 log_body 8 (ex_lists, []) = Ok (None, (ex_lists, [12; 20])) ∧
  list_for_each_entry_reverse 4 log_body 8 (ex_lists, []) = Ok (None, (ex_lists, [20; 12])) ∧
  list_for_each_entry_safe 4 log_body 8 (ex_lists, []) = Ok (None, (ex_lists, [12; 20])) ∧
  list_for_each_entry_safe_reverse 4 log_body 8 (ex_lists, []) = Ok (None, (ex_lists, [20; 12])) ∧
  wp (list_for_each_entry_safe 4 (remove_body 4 (λ x, x =? 12)) 8)
     (λ r s', r = None ∧ list_becomes ex_lists 8 [24] [8; 16; 24] (fst s')) ((ex_lists, []) : logged).
Proof.
  assert (leaves_lists log_body) as Hb.
  { intros x [m l] r [m' l'] Hr. by injection Hr as <- <- <-. }
  destruct (list_iterate_correct log_body 4 8 [12; 20] (ex_lists, []) Hb ex_ring8)
    as (H1 & H2 & H3 & H4 & H5).
  exact (conj H1 (conj H2 (conj H3 (conj H4 (H5 (λ x, x =? 12)))))).
Defined.
