(* ===== verification/Queue.v ===== *)
(** Intrusive queues: the macros of src/src/queue.h.

    A QUEUE is two words, the next and the previous node, so its memory is the
    one of the list nodes of list.h ([list_head]); the macros are compared with
    the operations of list.h, and their effect on whole queues is proved on the
    sequence a ring holds. *)
From Stdlib Require Import ZArith Lia.
From stdpp Require Import base tactics option list numbers gmap.
From S2P Require Import Prelude ListHead ListRep ListSplice ListIter ListProps.

Local Open Scope Z_scope.

(** ** The macros *)

Definition QUEUE_NEXT (q : Z) : lm Z := get_next q.
Definition QUEUE_PREV (q : Z) : lm Z := get_prev q.

(** Stores to [QUEUE_PREV_NEXT(q)] and [QUEUE_NEXT_PREV(q)]. *)
Definition QUEUE_PREV_NEXT (q v : Z) : lm unit := p ← QUEUE_PREV q; set_next p v.
Definition QUEUE_NEXT_PREV (q v : Z) : lm unit := n ← QUEUE_NEXT q; set_prev n v.

Definition QUEUE_DATA (ptr field : Z) : Z := ptr - field.

Definition QUEUE_FOREACH {S A} `{HS : !Store S list_mem} (body : Z → cm S (option A)) (h : Z) :
    cm S (option A) :=
  fuel ← list_fuel;
  q ← lift (QUEUE_NEXT h);
  for_entries 0 fuel (λ q, lift (QUEUE_NEXT q)) h body q.

Definition QUEUE_EMPTY (q : Z) : lm bool := n ← QUEUE_NEXT q; mret (q =? n).

Definition QUEUE_HEAD (q : Z) : lm Z := QUEUE_NEXT q.

Definition QUEUE_INIT (q : Z) : lm unit := set_next q q;; set_prev q q.

Definition QUEUE_ADD (h n : Z) : lm unit :=
  v ← QUEUE_NEXT n; QUEUE_PREV_NEXT h v;;
  v ← QUEUE_PREV h; QUEUE_NEXT_PREV n v;;
  v ← QUEUE_PREV n; set_prev h v;;
  QUEUE_PREV_NEXT h h.

Definition QUEUE_SPLIT (h q n : Z) : lm unit :=
  v ← QUEUE_PREV h; set_prev n v;;
  QUEUE_PREV_NEXT n n;;
  set_next n q;;
  v ← QUEUE_PREV q; set_prev h v;;
  QUEUE_PREV_NEXT h h;;
  set_prev q n.

Definition QUEUE_MOVE (h n : Z) : lm unit :=
  e ← QUEUE_EMPTY h;
  if (e : bool) then QUEUE_INIT n
  else q ← QUEUE_HEAD h; QUEUE_SPLIT h q n.

Definition QUEUE_INSERT_HEAD (h q : Z) : lm unit :=
  v ← QUEUE_NEXT h; set_next q v;;
  set_prev q h;;
  QUEUE_NEXT_PREV q q;;
  set_next h q.

Definition QUEUE_INSERT_TAIL (h q : Z) : lm unit :=
  set_next q h;;
  v ← QUEUE_PREV h; set_prev q v;;
  QUEUE_PREV_NEXT q q;;
  set_prev h q.

Definition QUEUE_REMOVE (q : Z) : lm unit :=
  v ← QUEUE_NEXT q; QUEUE_PREV_NEXT q v;;
  v ← QUEUE_PREV q; QUEUE_NEXT_PREV q v.

(** ** Writes to different words commute *)

Lemma wn_wv a v b w m : wn a v (wv b w m) = wv b w (wn a v m).
Proof.
  apply map_eq. intros x. unfold wn, wv. destruct (decide (a = x)), (decide (b = x)); subst;
    repeat first [rewrite lookup_alter_eq | rewrite lookup_alter_ne by done]; try done.
  by destruct (m !! x).
Qed.
Lemma wv_wv a v b w m : a ≠ b → wv a v (wv b w m) = wv b w (wv a v m).
Proof. intros. by apply alter_alter_ne. Qed.

(** Two runs with the same results. *)
Lemma same_run {S A} (c1 c2 : cm S A) s a s' :
  wp c1 (λ v t, v = a ∧ t = s') s → wp c2 (λ v t, v = a ∧ t = s') s → c1 s = c2 s.
Proof.
  intros (? & ? & -> & -> & ->)%wp_elim (? & ? & -> & -> & ->)%wp_elim. done.
Qed.

Ltac queue_step := first
  [ lh_step
  | lazymatch goal with
    | |- wp (QUEUE_NEXT _) _ _ => unfold QUEUE_NEXT
    | |- wp (QUEUE_PREV _) _ _ => unfold QUEUE_PREV
    | |- wp (QUEUE_PREV_NEXT _ _) _ _ => unfold QUEUE_PREV_NEXT, QUEUE_PREV
    | |- wp (QUEUE_NEXT_PREV _ _) _ _ => unfold QUEUE_NEXT_PREV, QUEUE_NEXT
    | |- wp (get_next _) _ _ => eapply wp_get_next; [lh_ne|by lh_rw|]
    | |- wp (get_prev _) _ _ => eapply wp_get_prev; [lh_ne|by lh_rw|]
    end ].

(** ** Single nodes: the same as list.h *)

Section same.
Variables (h q : Z) (m : list_mem).

Lemma queue_insert_head_same xs :
  is_list m h xs → is_Some (nx m q) → q ∉ h :: xs → q ≠ 0 → QUEUE_INSERT_HEAD h q m = list_add q h m.
Proof.
  intros Hl Hq Hin Hz. pose proof (is_list_next _ _ _ Hl).
  assert (h ≠ 0) by (eapply is_list_nz; [done|left]).
  assert (h ≠ q) by set_solver.
  assert (hdd h xs ≠ q) by by apply hdd_ne.
  assert (hdd h xs ≠ 0) by (apply hdd_ne; by destruct Hl as (_ & _ & ?)).
  assert (is_Some (nx m h)) by (by eapply is_list_live; [|left]).
  assert (is_Some (nx m (hdd h xs))).
  { eapply is_list_live; [done|]. pose proof (hdd_in h xs). set_solver. }
  eapply same_run; [unfold QUEUE_INSERT_HEAD; repeat queue_step; by split|].
  unfold list_add, __list_add. repeat queue_step. split; [done|].
  by rewrite !wn_wv, (wv_wv q) by done.
Qed.

Lemma queue_insert_tail_same xs :
  is_list m h xs → is_Some (nx m q) → q ∉ h :: xs → q ≠ 0 →
  QUEUE_INSERT_TAIL h q m = list_add_tail q h m.
Proof.
  intros Hl Hq Hin Hz. pose proof (is_list_prev _ _ _ Hl).
  assert (h ≠ 0) by (eapply is_list_nz; [done|left]).
  assert (h ≠ q) by set_solver.
  assert (lastd h xs ≠ q) by by apply lastd_ne.
  assert (lastd h xs ≠ 0) by (apply lastd_ne; by destruct Hl as (_ & _ & ?)).
  assert (is_Some (nx m h)) by (by eapply is_list_live; [|left]).
  assert (is_Some (nx m (lastd h xs))) by (eapply is_list_live; [done|apply lastd_in]).
  eapply same_run; [unfold QUEUE_INSERT_TAIL; repeat queue_step; by split|].
  unfold list_add_tail, __list_add. repeat queue_step. split; [done|].
  by rewrite !wn_wv, (wv_wv q) by done.
Qed.

Lemma queue_remove_same l1 l2 :
  is_list m h (l1 ++ q :: l2) → QUEUE_REMOVE q m = __list_del_entry q m.
Proof.
  intros Hl. pose proof (is_list_entry _ _ _ _ _ Hl) as ([Hln Hlp] & [Hrn Hrp] & _).
  assert (q ≠ 0) by (apply (is_list_nz _ _ _ _ Hl); set_solver).
  destruct Hl as (_ & Hn & H0).
  assert ((q ∉ h :: l1) ∧ (q ∉ h :: l2)) as [??] by (nodup_simp; set_solver).
  assert (lastd h l1 ≠ q) by by apply lastd_ne.
  assert (hdd h l2 ≠ q) by by apply hdd_ne.
  assert (lastd h l1 ≠ 0) by (apply lastd_ne; set_solver).
  assert (hdd h l2 ≠ 0) by (apply hdd_ne; set_solver).
  assert (is_Some (nx m (hdd h l2))) by (apply pv_live; by eexists).
  assert (is_Some (nx m (lastd h l1))) by by eexists.
  eapply same_run; [unfold QUEUE_REMOVE; repeat queue_step; by split|].
  unfold __list_del_entry, __list_del. repeat queue_step. split; [done|]. by rewrite wn_wv.
Qed.
End same.

(** ** Whole queues *)

(** QUEUE_ADD of a queue that is not empty is the splice of list.h. *)
Lemma queue_add_same h n xs ys m :
  is_list m h xs → is_list m n ys → ys ≠ [] → disj (n :: ys) (h :: xs) →
  QUEUE_ADD h n m = __list_splice n (lastd h xs) h m.
Proof.
  intros Hl Hy Hne Hd. pose proof (is_list_prev _ _ _ Hl) as Hp.
  pose proof (is_list_next _ _ _ Hy) as Hyn. pose proof (is_list_prev _ _ _ Hy) as Hyp.
  destruct ys as [|f ys]; [done|]. cbn [hdd lastd] in Hyn, Hyp.
  pose proof (lastd_in f ys) as Hb. pose proof (lastd_in h xs) as Ha.
  assert (n ≠ 0) by (apply (is_list_nz _ _ _ _ Hy); left).
  assert (h ≠ 0) by (apply (is_list_nz _ _ _ _ Hl); left).
  assert (f ≠ 0) by (apply (is_list_nz _ _ _ _ Hy); set_solver).
  assert (lastd f ys ≠ 0) by (apply (is_list_nz _ _ _ _ Hy); by right).
  assert (lastd h xs ≠ 0) by by apply (is_list_nz _ _ _ _ Hl).
  assert (is_Some (nx m f)) by (apply (is_list_live _ _ _ _ Hy); set_solver).
  assert (is_Some (nx m (lastd f ys))) by (apply (is_list_live _ _ _ _ Hy); by right).
  assert (is_Some (nx m (lastd h xs))) by by apply (is_list_live _ _ _ _ Hl).
  assert (is_Some (nx m h)) by (apply (is_list_live _ _ _ _ Hl); left).
  assert (n ≠ lastd h xs) by (intros E; apply (Hd n); [left|by rewrite E]).
  assert (h ≠ n) by (intros E; apply (Hd n); [left|rewrite <- E; left]).
  assert (h ≠ f) by (intros E; apply (Hd f); [right; left|rewrite <- E; left]).
  assert (n ≠ f ∧ n ≠ lastd f ys) as [??].
  { destruct Hy as (_ & [Hn _]%NoDup_cons & _). split; [set_solver|by intros E; rewrite E in Hn]. }
  eapply same_run; [unfold QUEUE_ADD; repeat queue_step; by split|].
  unfold __list_splice. repeat queue_step. split; [done|]. by rewrite !wn_wv.
Qed.

(** An empty queue adds nothing; its own back link is left behind. *)
Lemma queue_add_empty_wp h n xs m :
  is_list m h xs → is_list m n [] → n ∉ h :: xs →
  wp (QUEUE_ADD h n) (λ _, list_becomes m h xs (n :: h :: xs)) m.
Proof.
  intros Hl Hy Hin. pose proof (is_list_prev _ _ _ Hl) as Hp.
  pose proof (is_list_next _ _ _ Hy) as Hyn. pose proof (is_list_prev _ _ _ Hy) as Hyp.
  cbn [hdd lastd] in Hyn, Hyp. pose proof (lastd_in h xs) as Ha.
  assert (n ≠ 0) by (apply (is_list_nz _ _ _ _ Hy); left).
  assert (h ≠ 0) by (apply (is_list_nz _ _ _ _ Hl); left).
  assert (lastd h xs ≠ 0) by by apply (is_list_nz _ _ _ _ Hl).
  assert (is_Some (nx m n)) by by eexists.
  assert (is_Some (nx m (lastd h xs))) as Hal by by apply (is_list_live _ _ _ _ Hl).
  assert (is_Some (nx m h)) by (apply (is_list_live _ _ _ _ Hl); left).
  assert (n ≠ lastd h xs) by (intros E; apply Hin; by rewrite E).
  assert (lastd h xs ≠ n) by done.
  assert (h ≠ n) by set_solver.
  unfold QUEUE_ADD. repeat queue_step. split_and!.
  - destruct Hl as (Hc & Hn & Hz). split_and!; [|done|done]. apply chain_cut in Hc as (Hc & _ & _).
    apply chain_cut. split_and!; [|split; by lh_rw|done]. apply (chain_frame m); [done|..|done].
    + intros x Hx Hxe. by lh_rw.
    + intros x Hx. assert (x ≠ n ∧ x ≠ h) as [??].
      { split; intros ->; [apply Hin; by right|by apply NoDup_cons in Hn as [? _]]. }
      by lh_rw.
  - intros x Hx. assert (x ≠ n ∧ x ≠ h ∧ x ≠ lastd h xs) as (? & ? & ?).
    { split_and!; intros ->; apply Hx; [left|right; left|by right]. }
    by rewrite wn_other, wv_other, wv_other, wn_other.
  - unfold wn, wv. by rewrite !dom_alter_L.
Qed.

Lemma queue_add_wp h n xs ys m :
  is_list m h xs → is_list m n ys → disj (n :: ys) (h :: xs) →
  wp (QUEUE_ADD h n) (λ _, list_becomes m h (xs ++ ys) (n :: h :: xs ++ ys)) m.
Proof.
  intros Hl Hy Hd. destruct (decide (ys = [])) as [->|Hne].
  - rewrite app_nil_r. apply queue_add_empty_wp; [done|done|]. apply Hd. left.
  - eapply wp_run_eq; [by eapply queue_add_same|].
    pose proof (__list_splice_wp n ys h xs [] m Hy Hne) as Hw. rewrite !app_nil_r in Hw.
    eapply wp_mono; [by apply Hw|]. intros u m' (H1 & H2 & H3). split_and!; [done| |done].
    intros x Hx. apply H2. intros Hx'. apply Hx. by right.
Qed.

(** QUEUE_SPLIT cuts the queue before [q]. *)
Lemma queue_split_wp h q n l1 l2 m :
  is_list m h (l1 ++ q :: l2) → is_Some (nx m n) → n ∉ h :: l1 ++ q :: l2 → n ≠ 0 →
  wp (QUEUE_SPLIT h q n)
     (λ _ m', is_list m' h l1 ∧ is_list m' n (q :: l2) ∧
        (∀ x, x ∉ n :: h :: l1 ++ q :: l2 → m' !! x = m !! x) ∧ dom m' = dom m) m.
Proof.
  intros Hl Hn Hin Hz. pose proof (is_list_prev _ _ _ Hl) as Hp. rewrite lastd_app in Hp.
  cbn [lastd] in Hp. pose proof (is_list_entry _ _ _ _ _ Hl) as ([Hln Hlp] & [Hrn _] & H1 & _).
  pose proof Hl as (Hc & Hnd & Hz0). rewrite <- app_assoc in Hc.
  apply chain_cut in Hc as (_ & _ & Hc). apply chain_cut in Hc as (H2 & _ & _).
  pose proof (lastd_in h l1) as Ha. pose proof (lastd_in q l2) as Hb.
  set (a := lastd h l1) in *. set (b := lastd q l2) in *.
  assert (∀ x, x ∈ h :: l1 → (x ∉ q :: l2) ∧ x ≠ n ∧ x ≠ 0 ∧ is_Some (nx m x)) as S1.
  { intros x Hx. assert (x ∈ h :: l1 ++ q :: l2) by (clear -Hx; set_solver).
    split_and!; [|by intros ->|by eapply is_list_nz|by eapply is_list_live].
    clear -Hx Hnd. nodup_simp. set_solver. }
  assert (∀ x, x ∈ q :: l2 → (x ∉ h :: l1) ∧ x ≠ n ∧ x ≠ 0 ∧ is_Some (nx m x)) as S2.
  { intros x Hx. assert (x ∈ h :: l1 ++ q :: l2) by (clear -Hx; set_solver).
    split_and!; [|by intros ->|by eapply is_list_nz|by eapply is_list_live].
    intros Hx'. by destruct (S1 x Hx') as [? _]. }
  assert (NoDup (h :: l1) ∧ NoDup (q :: l2)) as [N1 N2] by (clear -Hnd; nodup_simp; split; nodup_done).
  destruct (S1 h ltac:(left)) as (Hhq & ? & ? & ?). destruct (S1 a Ha) as (Haq & ? & ? & ?).
  destruct (S2 q ltac:(left)) as (Hqh & ? & ? & ?). destruct (S2 b Hb) as (Hbh & ? & ? & ?).
  assert (h ≠ q ∧ b ≠ h ∧ a ≠ b ∧ a ≠ q) as (? & ? & ? & ?).
  { split_and!; [|intros E..]; [intros ->; apply Hhq; left|..].
    - apply Hbh. rewrite E. left.
    - apply Haq. by rewrite E.
    - apply Haq. rewrite E. left. }
  unfold QUEUE_SPLIT. repeat queue_step.
  pose proof Hnd as [Hh Hnd']%NoDup_cons. split_and!.
  - split_and!; [|done|clear -Hz0; set_solver]. apply chain_cut. split_and!; [|split; by lh_rw|done].
    apply (chain_frame m); [done|..|done].
    + intros x Hx Hxe. destruct (S1 x Hx) as (Hxq & ? & ? & ?). fold a in Hxe.
      assert (x ≠ b) by by intros ->. by lh_rw.
    + intros x Hx. destruct (S1 x ltac:(by right)) as (Hxq & ? & ? & ?).
      assert (x ≠ q) by (intros ->; apply Hxq; left).
      assert (x ≠ h) by (intros ->; by apply NoDup_cons in N1 as [? _]). by lh_rw.
  - split_and!; [|apply NoDup_cons; split; [clear -Hin; set_solver|done]|clear -Hz0 Hz; set_solver].
    cbn [app chain]. split; [split; by lh_rw|]. apply chain_cut. fold b.
    split_and!; [|split; by lh_rw|done]. apply (chain_frame m); [done|..|done].
    + intros x Hx Hxe. destruct (S2 x Hx) as (Hxh & ? & ? & ?). fold b in Hxe.
      assert (x ≠ a) by by intros ->. by lh_rw.
    + intros x Hx. destruct (S2 x ltac:(by right)) as (Hxh & ? & ? & ?).
      assert (x ≠ h) by (intros ->; apply Hxh; left).
      assert (x ≠ q) by (intros ->; by apply NoDup_cons in N2 as [? _]). by lh_rw.
  - intros x Hx. assert (x ≠ n ∧ x ≠ h ∧ x ≠ a ∧ x ≠ q ∧ x ≠ b) as (? & ? & ? & ? & ?).
    { clear -Hx Ha Hb. split_and!; intros ->; apply Hx; set_solver. }
    by rewrite wv_other, wn_other, wv_other, wn_other, wn_other, wv_other.
  - unfold wn, wv. by rewrite !dom_alter_L.
Qed.

Lemma queue_move_wp h n xs m :
  is_list m h xs → is_Some (nx m n) → n ∉ h :: xs → n ≠ 0 →
  wp (QUEUE_MOVE h n)
     (λ _ m', is_list m' h [] ∧ is_list m' n xs ∧
        (∀ x, x ∉ n :: h :: xs → m' !! x = m !! x) ∧ dom m' = dom m) m.
Proof.
  intros Hl Hn Hin Hz. pose proof (is_list_next _ _ _ Hl) as Hnx.
  assert (h ≠ 0) by (apply (is_list_nz _ _ _ _ Hl); left).
  unfold QUEUE_MOVE, QUEUE_EMPTY, QUEUE_HEAD. repeat queue_step.
  destruct xs as [|q xs]; cbn [hdd] in *.
  - rewrite Z.eqb_refl. eapply wp_mono; [by apply INIT_LIST_HEAD_wp|].
    intros u m' (H1 & H2 & H3). split_and!; [|done| |done].
    + eapply is_list_agree; [|exact Hl]. intros x Hx. apply H2.
      intros ->%list_elem_of_singleton. done.
    + intros x Hx. apply H2. intros ->%list_elem_of_singleton. apply Hx. left.
  - assert (h ≠ q) as Hne by (destruct Hl as (_ & [? _]%NoDup_cons & _); set_solver).
    rewrite (proj2 (Z.eqb_neq _ _) Hne). repeat queue_step.
    by apply (queue_split_wp h q n [] xs).
Qed.

(** ** Iteration *)

#[export] Instance walk_queue {S} `{HS : !Store S list_mem} :
  Walk (S := S) 0 (λ q, lift (QUEUE_NEXT q)) is_list.
Proof.
  pose proof (walk_forward (S := S) 0) as [Hs Hf Hr].
  assert (∀ v x (s : S), wp (list_next_entry (S := S) 0 (list_entry 0 x))
    (λ r s', r = list_entry 0 v ∧ s' = s) s →
    wp (lift (QUEUE_NEXT (list_entry 0 x))) (λ r s', r = list_entry 0 v ∧ s' = s) s) as Hq.
  { intros v x s. unfold list_next_entry, QUEUE_NEXT. rewrite !Z.add_0_r.
    unfold wp, mbind, cm_bind. destruct (lift _ s) as [[r s']| | |]; try done.
    unfold mret, cm_ret, list_entry. intros [H ->]. split; [lia|done]. }
  split; [|intros; by apply Hq, Hf|done]. intros. apply Hq. by eapply Hs.
Qed.

Lemma queue_foreach_run {S A} `{HS : !Store S list_mem} (body : Z → cm S (option A)) h xs s :
  leaves_lists body → is_list (part s) h xs → QUEUE_FOREACH body h s = visit_all body xs s.
Proof.
  intros Hb Hl. unfold QUEUE_FOREACH. rewrite (bind_ok _ _ _ _ _ eq_refl).
  assert (nodes 0 xs = xs) as Hx.
  { unfold nodes. rewrite <- (list_fmap_id xs) at 2. apply list_fmap_ext. intros. apply Z.add_0_r. }
  rewrite <- Hx in Hl.
  assert (wp (lift (QUEUE_NEXT h)) (λ v s', v = list_entry 0 (hdd h (nodes 0 xs)) ∧ s' = s) s) as Hw.
  { pose proof (walk_first (step := λ q, lift (QUEUE_NEXT q)) _ _ _ Hl) as Hw.
    unfold list_entry in Hw at 1. by rewrite Z.sub_0_r in Hw. }
  destruct (wp_elim _ _ _ Hw) as (v & s' & Hrun & -> & ->). rewrite (bind_ok _ _ _ _ _ Hrun).
  apply (for_entries_run _ Hb _ _ is_list); [by exists []|by eapply ring_fuel].
Qed.

(** ** The promises *)

(** C7. The queue macros on one node are the operations of list.h, word for
    word of the memory: inserting at the head is list_add, inserting at the tail
    list_add_tail, removing __list_del_entry.  QUEUE_SPLIT cuts the queue before
    a node and puts the rest in a new queue, and QUEUE_ADD appends it again,
    after which the queue holds the same nodes in the same order. *)
Theorem queue_correct (h q n : Z) (l1 l2 : list Z) (m : list_mem) :
  is_list m h (l1 ++ q :: l2) → is_Some (nx m n) → n ∉ h :: l1 ++ q :: l2 → n ≠ 0 →
  QUEUE_INSERT_HEAD h n m = list_add n h m ∧
  QUEUE_INSERT_TAIL h n m = list_add_tail n h m ∧
  QUEUE_REMOVE q m = __list_del_entry q m ∧
  wp (QUEUE_SPLIT h q n) (λ _ m1, is_list m1 h l1 ∧ is_list m1 n (q :: l2) ∧
    wp (QUEUE_ADD h n)
       (λ _, list_becomes m h (l1 ++ q :: l2) (n :: h :: l1 ++ q :: l2)) m1) m.
Proof.
  intros Hl Hn Hin Hz. split_and!; [by eapply queue_insert_head_same|by eapply queue_insert_tail_same|
    by eapply queue_remove_same|].
  eapply wp_mono; [by apply queue_split_wp|].
  intros u m1 (H1 & H2 & H3 & H4). split_and!; [done|done|]. eapply wp_mono.
  - apply queue_add_wp; [done|done|]. destruct Hl as (_ & Hnd & _).
    intros x Hx Hx'. clear -Hx Hx' Hnd Hin. nodup_simp. set_solver.
  - intros u2 m2 (H5 & H6 & H7). split_and!; [done| |congruence].
    intros x Hx. by rewrite H6, H3.
Qed.

Lemma queue_correct_witness :
  QUEUE_INSERT_HEAD 8 32 ex_lists = list_add 32 8 ex_lists ∧
  QUEUE_INSERT_TAIL 8 32 ex_lists = list_add_tail 32 8 ex_lists ∧
  QUEUE_REMOVE 24 ex_lists = __list_del_entry 24 ex_lists ∧
  wp (QUEUE_SPLIT 8 24 32) (λ _ m1, is_list m1 8 [16] ∧ is_list m1 32 [24] ∧
    wp (QUEUE_ADD 8 32) (λ _, list_becomes ex_lists 8 [16; 24] [32; 8; 16; 24]) m1) ex_lists.
Proof. apply (queue_correct 8 24 32 [16] []); [apply ex_ring8|apply ex_live32|apply ex_out32|done]. Defined.

(** QUEUE_MOVE empties a queue into a new one, and QUEUE_FOREACH visits the nodes
    in order. *)
Theorem queue_move_correct (h n : Z) (xs : list Z) (m : list_mem) :
  is_list m h xs → is_Some (nx m n) → n ∉ h :: xs → n ≠ 0 →
  wp (QUEUE_MOVE h n)
     (λ _ m', is_list m' h [] ∧ is_list m' n xs ∧
        (∀ x, x ∉ n :: h :: xs → m' !! x = m !! x) ∧ dom m' = dom m) m.
Proof. apply queue_move_wp. Qed.
