(* ===== verification/Hlist.v ===== *)
(** Lists with a single-pointer head: the hlist half of src/src/list.h.

    [first] of a head and [next] of a node are the first word of their
    structs, and [pprev] of a node is the address of such a word, so the memory
    has two tables: the word at each address where a head or a node starts,
    and the [pprev] field of each node. *)
From Stdlib Require Import ZArith Lia.
From stdpp Require Import base tactics option list numbers gmap.
From S2P Require Import Prelude ListHead ListRep.

Local Open Scope Z_scope.

(** ** Memory and operations *)

Record hlist_mem := HlistMem { hl_first : gmap Z Z; hl_pprev : gmap Z Z }.

#[export] Instance hlist_first_store : Store hlist_mem (gmap Z Z).
Proof.
  refine {| part := hl_first; with_part f m := HlistMem f (hl_pprev m) |};
    by try intros ? ? []; try intros [].
Defined.

Abbreviation hm := (cm hlist_mem).

(** [h->first], [n->next] and [*pprev] *)
Definition get_first (a : Z) : hm Z := lift (obj_load a).
Definition set_first (a v : Z) : hm unit := lift (obj_store a (λ _, v)).
Definition get_pprev (a : Z) : hm Z := λ m,
  match obj_load a (hl_pprev m) with
  | Ok (v, _) => Ok (v, m) | Fault => Fault | Abort => Abort | NoFuel => NoFuel
  end.
Definition set_pprev (a v : Z) : hm unit := λ m,
  match obj_store a (λ _, v) (hl_pprev m) with
  | Ok (_, p) => Ok (tt, HlistMem (hl_first m) p)
  | Fault => Fault | Abort => Abort | NoFuel => NoFuel
  end.

Definition INIT_HLIST_HEAD (ptr : Z) : hm unit := set_first ptr NULL.

Definition INIT_HLIST_NODE (h : Z) : hm unit :=
  set_first h NULL;; set_pprev h NULL.

Definition hlist_unhashed (h : Z) : hm bool := p ← get_pprev h; mret (p =? NULL).

Definition hlist_empty (h : Z) : hm bool := f ← get_first h; mret (f =? NULL).

Definition __hlist_del (n : Z) : hm unit :=
  next ← get_first n;
  pprev ← get_pprev n;
  set_first pprev next;;
  if negb (next =? NULL) then set_pprev next pprev else mret tt.

Definition hlist_del (n : Z) : hm unit :=
  __hlist_del n;;
  set_first n LIST_POISON1;;
  set_pprev n LIST_POISON2.

Definition hlist_del_init (n : Z) : hm unit :=
  u ← hlist_unhashed n;
  if negb u then __hlist_del n;; INIT_HLIST_NODE n else mret tt.

Definition hlist_add_head (n h : Z) : hm unit :=
  first ← get_first h;
  set_first n first;;
  (if negb (first =? NULL) then set_pprev first n else mret tt);;
  set_first h n;;
  set_pprev n h.

Definition hlist_add_before (n next : Z) : hm unit :=
  p ← get_pprev next;
  set_pprev n p;;
  set_first n next;;
  set_pprev next n;;
  p ← get_pprev n;
  set_first p n.

Definition hlist_add_behind (n prev : Z) : hm unit :=
  next ← get_first prev;
  set_first n next;;
  set_first prev n;;
  set_pprev n prev;;
  next ← get_first n;
  if negb (next =? NULL) then next ← get_first n; set_pprev next n else mret tt.

Definition hlist_add_fake (n : Z) : hm unit := set_pprev n n.

Definition hlist_move_list (old new : Z) : hm unit :=
  first ← get_first old;
  set_first new first;;
  first ← get_first new;
  (if negb (first =? NULL) then first ← get_first new; set_pprev first new else mret tt);;
  set_first old NULL.

(** ** What list a memory holds *)

(** The cells from the word at [p] through the nodes [l] to [e]. *)
Fixpoint hchain (m : hlist_mem) (p : Z) (l : list Z) (e : Z) : Prop :=
  match l with
  | [] => hl_first m !! p = Some e
  | x :: l => hl_first m !! p = Some x ∧ hl_pprev m !! x = Some p ∧ hchain m x l e
  end.

Definition is_hlist (m : hlist_mem) (h : Z) (xs : list Z) : Prop :=
  hchain m h xs NULL ∧ NoDup (h :: xs) ∧ NULL ∉ h :: xs.

(** The first node of what follows a cell; [lastd p l] is the last cell of a
    chain. *)
Definition hhead (l : list Z) : Z := match l with [] => NULL | x :: _ => x end.

Lemma hchain_app m p l1 x l2 e :
  hchain m p (l1 ++ x :: l2) e ↔
  hchain m p l1 x ∧ hl_pprev m !! x = Some (lastd p l1) ∧ hchain m x l2 e.
Proof.
  revert p. induction l1 as [|y l1 IH]; intros p; simpl; [done|].
  rewrite IH. tauto.
Qed.

Lemma hchain_end m p l e : hchain m p l e → hl_first m !! lastd p l = Some e.
Proof.
  revert p. induction l as [|x l IH]; intros p; simpl; [done|]. intros (_ & _ & H).
  by apply IH.
Qed.

(** A chain changes only with its cells. *)
Lemma hchain_frame m m' p l e :
  (∀ x, x ∈ p :: l → hl_first m' !! x = hl_first m !! x) →
  (∀ x, x ∈ l → hl_pprev m' !! x = hl_pprev m !! x) → hchain m p l e → hchain m' p l e.
Proof.
  revert p. induction l as [|x l IH]; intros p Hf Hp; simpl.
  - rewrite Hf; [done|left].
  - intros (H1 & H2 & H3). rewrite Hf by left. rewrite Hp by left. split_and!; [done|done|].
    apply IH; [| |done]; intros y Hy; [apply Hf|apply Hp]; by right.
Qed.

(** Redirecting the last cell. *)
Lemma hchain_redirect m m' p l e e' :
  NoDup (p :: l) →
  (∀ x, x ∈ p :: l → x ≠ lastd p l → hl_first m' !! x = hl_first m !! x) →
  (∀ x, x ∈ l → hl_pprev m' !! x = hl_pprev m !! x) →
  hl_first m' !! lastd p l = Some e' → hchain m p l e → hchain m' p l e'.
Proof.
  revert p. induction l as [|x l IH]; intros p Hn Hf Hp He; simpl; [done|].
  intros (H1 & H2 & H3). apply NoDup_cons in Hn as [Hpn Hn].
  split_and!.
  - rewrite Hf; [done|left|]. intros Hpe. apply Hpn. simpl in Hpe. rewrite Hpe. apply lastd_in.
  - rewrite Hp; [done|left].
  - apply IH; [done| | |done|done].
    + intros y Hy. apply Hf. by right.
    + intros y Hy. apply Hp. by right.
Qed.

(** ** Steps *)

Lemma wp_get_first a v m Q : a ≠ NULL → hl_first m !! a = Some v → Q v m → wp (get_first a) Q m.
Proof.
  intros Ha Hm HQ. apply (wp_lift_pure _ (λ w, w = v)); [by eapply wp_obj_load|by intros w ->].
Qed.
Lemma wp_set_first a v m Q :
  a ≠ NULL → is_Some (hl_first m !! a) → Q tt (HlistMem (<[a := v]> (hl_first m)) (hl_pprev m)) →
  wp (set_first a v) Q m.
Proof. intros Ha [w Hm] HQ. apply wp_lift. by eapply wp_obj_store. Qed.
Lemma wp_get_pprev a v m Q : a ≠ NULL → hl_pprev m !! a = Some v → Q v m → wp (get_pprev a) Q m.
Proof.
  intros Ha Hm HQ. unfold wp, get_pprev, obj_load. by rewrite (proj2 (Z.eqb_neq _ _) Ha), Hm.
Qed.
Lemma wp_set_pprev a v m Q :
  a ≠ NULL → is_Some (hl_pprev m !! a) → Q tt (HlistMem (hl_first m) (<[a := v]> (hl_pprev m))) →
  wp (set_pprev a v) Q m.
Proof.
  intros Ha [w Hm] HQ. unfold wp, set_pprev, obj_store.
  by rewrite (proj2 (Z.eqb_neq _ _) Ha), Hm.
Qed.

Ltac hl_step := match goal with
  | |- wp (mbind _ _) _ _ => apply wp_bind
  | |- wp (mret _) _ _ => apply wp_ret
  | |- wp (get_first _) _ _ => eapply wp_get_first; [done|simpl; solve [lk]|]
  | |- wp (get_pprev _) _ _ => eapply wp_get_pprev; [done|simpl; solve [lk]|]
  | |- wp (set_first _ _) _ _ => eapply wp_set_first; [done|eexists; simpl; solve [lk]|]
  | |- wp (set_pprev _ _) _ _ => eapply wp_set_pprev; [done|eexists; simpl; solve [lk]|]
  end; cbv beta; simpl hl_first; simpl hl_pprev.

(** Memory outside the cells [L] is untouched. *)
Definition hl_same (m m' : hlist_mem) (L : list Z) : Prop :=
  ∀ x, x ∉ L → hl_first m' !! x = hl_first m !! x ∧ hl_pprev m' !! x = hl_pprev m !! x.

(** The list becomes [xs] and the other cells stay. *)
Definition hlist_becomes (m : hlist_mem) (h : Z) (xs L : list Z) (m' : hlist_mem) : Prop :=
  is_hlist m' h xs ∧ hl_same m m' L.

Definition hnode (m : hlist_mem) (n : Z) : Prop :=
  n ≠ NULL ∧ is_Some (hl_first m !! n) ∧ is_Some (hl_pprev m !! n).

Lemma hlist_node m h l1 n l2 :
  is_hlist m h (l1 ++ n :: l2) →
  hchain m h l1 n ∧ hl_pprev m !! n = Some (lastd h l1) ∧ hl_first m !! n = Some (hhead l2) ∧
  hl_first m !! lastd h l1 = Some n ∧ hchain m n l2 NULL ∧
  lastd h l1 ≠ NULL ∧ n ≠ NULL ∧ n ≠ lastd h l1.
Proof.
  intros ((H1 & H2 & H3)%hchain_app & Hn & H0).
  assert (lastd h l1 ∈ h :: l1) as Hin by apply lastd_in.
  split_and!; [done|done| |by apply hchain_end|done| |..].
  - destruct l2; [done|apply H3].
  - intros He. apply H0. rewrite He in Hin. clear -Hin. set_solver.
  - intros ->. apply H0. clear. set_solver.
  - intros He. rewrite <- He in Hin. clear -Hin Hn. nodup_simp. set_solver.
Qed.

(** Unlinking: [*pprev = next; if (next) next->pprev = pprev]. *)
Lemma __hlist_del_wp h l1 n l2 m :
  is_hlist m h (l1 ++ n :: l2) →
  wp (__hlist_del n)
     (λ _ m', hlist_becomes m h (l1 ++ l2) (h :: l1 ++ l2) m' ∧
        hl_first m' !! n = hl_first m !! n ∧ hl_pprev m' !! n = hl_pprev m !! n) m.
Proof.
  intros Hl. pose proof (hlist_node _ _ _ _ _ Hl) as (H1 & Hp & Hf & Hend & H2 & Hpz & Hnz & Hnp).
  destruct Hl as (_ & Hn & H0). set (p := lastd h l1) in *.
  assert (p ∈ h :: l1) as Hpin by apply lastd_in.
  unfold __hlist_del. repeat hl_step.
  destruct l2 as [|y l2]; simpl hhead in *.
  - rewrite Z.eqb_refl. simpl. apply wp_ret. rewrite app_nil_r in *.
    split; [|by simpl; rewrite lookup_insert_ne]. split.
    + split; [|split; [nodup_simp; nodup_done|clear -H0; set_solver]].
      eapply hchain_redirect; [nodup_simp; nodup_done| | | |exact H1]; simpl.
      * intros x Hx Hxe. by rewrite lookup_insert_ne.
      * done.
      * fold p. by rewrite lookup_insert_eq.
    + intros x Hx. simpl. rewrite lookup_insert_ne; [done|]. intros <-. by apply Hx.
  - destruct H2 as (_ & Hpy & H2).
    assert (y ≠ NULL ∧ y ≠ n ∧ (y ∉ h :: l1) ∧ NoDup (y :: l2) ∧ disj (h :: l1) (y :: l2) ∧
      (n ∉ l2) ∧ (NULL ∉ h :: l1 ++ y :: l2) ∧ NoDup (h :: l1 ++ y :: l2))
      as (Hyz & Hyn & Hyl & Hny & Hd & Hnl & H0' & Hnn).
    { clear -Hn H0. nodup_simp. split_and!; try done; nodup_done. }
    rewrite (proj2 (Z.eqb_neq _ _) Hyz). simpl. hl_step.
    split; [|split; simpl; [by rewrite lookup_insert_ne|by rewrite lookup_insert_ne]].
    split.
    + split; [|done]. apply hchain_app. split; [|split].
      * eapply hchain_redirect; [by apply (NoDup_app (h::l1)) in Hnn as [? _]| | | |exact H1]; simpl.
        { intros x Hx Hxe. by rewrite lookup_insert_ne. }
        { intros x Hx. rewrite lookup_insert_ne; [done|]. intros <-. apply Hyl. by right. }
        { fold p. by rewrite lookup_insert_eq. }
      * simpl. fold p. by rewrite lookup_insert_eq.
      * eapply hchain_frame; [| |exact H2]; simpl.
        { intros x Hx. rewrite lookup_insert_ne; [done|]. intros <-. by apply (Hd p). }
        { intros x Hx. rewrite lookup_insert_ne; [done|]. intros <-.
          apply NoDup_cons in Hny as [? _]. done. }
    + intros x Hx. simpl. rewrite !lookup_insert_ne; [done|..]; intros <-; apply Hx;
        [clear; set_solver|clear -Hpin; set_solver].
Qed.

Lemma hlist_live m h xs x : is_hlist m h xs → x ∈ h :: xs → is_Some (hl_first m !! x).
Proof.
  intros (Hc & _ & _). revert Hc. generalize h as p. induction xs as [|y xs IH]; intros p; simpl.
  - intros ? ->%list_elem_of_singleton. by eexists.
  - intros (H1 & _ & H2) [->|Hx]%elem_of_cons; [by eexists|by eapply IH].
Qed.

(** A node between two neighbours of a list. *)
Lemma hlist_insert_between m m' h l1 n l2 :
  is_hlist m h (l1 ++ l2) → n ∉ h :: l1 ++ l2 → n ≠ NULL →
  hl_first m' !! lastd h l1 = Some n → hl_first m' !! n = Some (hhead l2) →
  hl_pprev m' !! n = Some (lastd h l1) →
  (l2 ≠ [] → hl_pprev m' !! hhead l2 = Some n) →
  (∀ x, x ∈ h :: l1 ++ l2 → x ≠ lastd h l1 → hl_first m' !! x = hl_first m !! x) →
  (∀ x, x ∈ l1 ++ l2 → x ≠ hhead l2 → hl_pprev m' !! x = hl_pprev m !! x) →
  is_hlist m' h (l1 ++ n :: l2).
Proof.
  intros (Hc & Hn & H0) Hin Hnz Hp Hf Hpn Hy Hsf Hsp.
  assert (NoDup (h :: l1) ∧ NoDup l2 ∧ disj (h :: l1) l2) as (Hn1 & Hn2 & Hd).
  { clear -Hn. nodup_simp. split_and!; nodup_done. }
  pose proof (lastd_in h l1) as Hpin.
  split; [|split].
  2: { clear -Hn Hin. nodup_simp. nodup_done. }
  2: { clear -H0 Hnz. set_solver. }
  apply hchain_app. split; [|split; [done|]].
  - assert (∃ e, hchain m h l1 e) as [e He].
    { destruct l2 as [|y l2]; [rewrite app_nil_r in Hc; by eexists|].
      apply hchain_app in Hc as (? & _). by eexists. }
    eapply hchain_redirect; [done| | |done|exact He].
    + intros x Hx Hxe. apply Hsf; [|done]. rewrite app_comm_cons, elem_of_app. by left.
    + intros x Hx. apply Hsp; [apply elem_of_app; by left|].
      destruct l2 as [|y l2]; simpl.
      * intros ->. apply H0. right. apply elem_of_app. by left.
      * intros ->. apply (Hd y); [by right|left].
  - destruct l2 as [|y l2]; [done|]. simpl in *. apply hchain_app in Hc as (_ & _ & Hc).
    split; [done|]. split; [by apply Hy|]. apply NoDup_cons in Hn2 as [Hyn Hn2].
    eapply hchain_frame; [| |exact Hc].
    + intros x Hx. apply Hsf; [apply elem_of_cons; right; apply elem_of_app; by right|].
      intros ->. by apply (Hd (lastd h l1)).
    + intros x Hx. apply Hsp; [apply elem_of_app; right; by right|]. by intros ->.
Qed.

(** What an insertion does outside the list. *)
Lemma hl_same_pair m f p L :
  (∀ x, x ∉ L → f !! x = hl_first m !! x) → (∀ x, x ∉ L → p !! x = hl_pprev m !! x) →
  hl_same m (HlistMem f p) L.
Proof. intros Hf Hp x Hx. split; [by apply Hf|by apply Hp]. Qed.

Ltac hl_frame Hin :=
  let x := fresh "x" in let Hx := fresh "Hx" in
  apply hl_same_pair; intros x Hx; rewrite ?lookup_insert_ne; try done;
  intros <-; apply Hx; clear -Hin; set_solver.

Lemma hlist_add_head_wp n h xs m :
  is_hlist m h xs → hnode m n → n ∉ h :: xs →
  wp (hlist_add_head n h) (λ _, hlist_becomes m h (n :: xs) (n :: h :: xs)) m.
Proof.
  intros Hl (Hnz & Hnf & Hnp) Hin. pose proof Hl as (Hc & Hnd & H0).
  assert (h ≠ NULL) as Hhz by (clear -H0; set_solver).
  assert (h ≠ n) as Hhn by (clear -Hin; set_solver).
  assert (hl_first m !! h = Some (hhead xs)) as Hfh by (destruct xs; [done|apply Hc]).
  destruct Hnf as [nf Hnf], Hnp as [np Hnp]. unfold hlist_add_head.
  repeat hl_step. destruct xs as [|y xs]; simpl hhead in *.
  - rewrite Z.eqb_refl. simpl negb. cbv iota. repeat hl_step. split.
    + apply (hlist_insert_between m _ h [] n []); simpl; try done; try lk.
      * intros x ->%list_elem_of_singleton. done.
      * intros x Hx. by apply elem_of_nil in Hx.
    + hl_frame Hin.
  - destruct Hc as (_ & Hpy & _).
    assert (y ≠ NULL ∧ y ≠ n ∧ y ≠ h) as (Hyz & Hyn & Hyh).
    { clear -H0 Hin Hnd. nodup_simp. split; [|split]; by apply not_eq_sym. }
    rewrite (proj2 (Z.eqb_neq _ _) Hyz). simpl negb. cbv iota. repeat hl_step. split.
    + apply (hlist_insert_between m _ h [] n (y :: xs)); simpl; try done; try lk.
      * intros x Hx Hxe. rewrite !lookup_insert_ne; [done|..]; intros <-; done.
      * intros x Hx Hxe. rewrite !lookup_insert_ne; [done|..]; intros <-; try done.
        apply Hin. by right.
    + hl_frame Hin.
Qed.

Lemma hlist_add_before_wp n h l1 x l2 m :
  is_hlist m h (l1 ++ x :: l2) → hnode m n → n ∉ h :: l1 ++ x :: l2 →
  wp (hlist_add_before n x)
     (λ _, hlist_becomes m h (l1 ++ n :: x :: l2) (n :: h :: l1 ++ x :: l2)) m.
Proof.
  intros Hl (Hnz & [nf Hnf] & [np Hnp]) Hin.
  pose proof (hlist_node _ _ _ _ _ Hl) as (_ & Hpx & Hfx & Hpf & _ & Hpz & Hxz & Hxp).
  pose proof (lastd_in h l1) as Hpin. set (p := lastd h l1) in *.
  assert (p ≠ n) as Hpn.
  { intros <-. apply Hin. rewrite app_comm_cons, elem_of_app. by left. }
  assert (x ≠ n) as Hxn by (clear -Hin; set_solver).
  unfold hlist_add_before. repeat hl_step. split.
  - apply (hlist_insert_between m _ h l1 n (x :: l2)); simpl; try done; try (fold p; lk).
    + intros z Hz Hze. fold p in Hze. rewrite !lookup_insert_ne; [done|..]; intros <-; done.
    + intros z Hz Hze. rewrite !lookup_insert_ne; [done|..]; intros <-; try done.
      apply Hin. by right.
  - hl_frame Hpin.
Qed.

Lemma hlist_add_behind_wp n h l1 x l2 m :
  is_hlist m h (l1 ++ x :: l2) → hnode m n → n ∉ h :: l1 ++ x :: l2 →
  wp (hlist_add_behind n x)
     (λ _, hlist_becomes m h (l1 ++ x :: n :: l2) (n :: h :: l1 ++ x :: l2)) m.
Proof.
  intros Hl (Hnz & [nf Hnf] & [np Hnp]) Hin.
  pose proof (hlist_node _ _ _ _ _ Hl) as (_ & Hpx & Hfx & _ & Hc & _ & Hxz & _).
  assert (x ≠ n) as Hxn by (clear -Hin; set_solver).
  assert (x ∈ h :: l1 ++ x :: l2) as Hxin by (clear; set_solver).
  replace (l1 ++ x :: n :: l2) with ((l1 ++ [x]) ++ n :: l2) by (by rewrite <- app_assoc).
  replace (l1 ++ x :: l2) with ((l1 ++ [x]) ++ l2) in * by (by rewrite <- app_assoc).
  pose proof (lastd_snoc h l1 x) as Hlast.
  unfold hlist_add_behind. repeat hl_step. destruct l2 as [|y l2]; simpl hhead in *.
  - rewrite Z.eqb_refl. simpl negb. cbv iota. repeat hl_step. split.
    + apply (hlist_insert_between m _ h (l1 ++ [x]) n []); simpl; rewrite ?Hlast; try done; try lk.
      * intros z Hz Hze. rewrite !lookup_insert_ne; [done|..]; intros <-; done.
      * intros z Hz Hze. rewrite !lookup_insert_ne; [done|..]; intros <-. apply Hin. by right.
    + hl_frame Hxin.
  - destruct Hc as (_ & Hpy & _).
    assert (y ≠ NULL ∧ y ≠ n ∧ y ≠ x) as (Hyz & Hyn & Hyx).
    { destruct Hl as (_ & Hnd & H0). clear -H0 Hin Hnd. nodup_simp.
      split; [|split]; by apply not_eq_sym. }
    rewrite (proj2 (Z.eqb_neq _ _) Hyz). simpl negb. cbv iota. repeat hl_step. split.
    + apply (hlist_insert_between m _ h (l1 ++ [x]) n (y :: l2)); simpl; rewrite ?Hlast;
        try done; try lk.
      * intros z Hz Hze. rewrite !lookup_insert_ne; [done|..]; intros <-; done.
      * intros z Hz Hze. rewrite !lookup_insert_ne; [done|..]; intros <-; try done.
        apply Hin. by right.
    + hl_frame Hxin.
Qed.

Lemma hlist_del_wp h l1 n l2 m :
  is_hlist m h (l1 ++ n :: l2) →
  wp (hlist_del n)
     (λ _ m', hlist_becomes m h (l1 ++ l2) (h :: l1 ++ n :: l2) m' ∧
        hl_first m' !! n = Some LIST_POISON1 ∧ hl_pprev m' !! n = Some LIST_POISON2) m ∧
  wp (hlist_del_init n)
     (λ _ m', hlist_becomes m h (l1 ++ l2) (h :: l1 ++ n :: l2) m' ∧
        wp (hlist_unhashed n) (λ b m'', b = true ∧ m'' = m') m') m.
Proof.
  intros Hl. pose proof (hlist_node _ _ _ _ _ Hl) as (_ & Hp & Hf & _ & _ & Hpz & Hnz & _).
  assert (n ∉ h :: l1 ++ l2) as Hout.
  { destruct Hl as (_ & Hn & _). clear -Hn. nodup_simp. nodup_done. }
  assert (∀ m' v w, hlist_becomes m h (l1 ++ l2) (h :: l1 ++ l2) m' →
    hlist_becomes m h (l1 ++ l2) (h :: l1 ++ n :: l2)
      (HlistMem (<[n := v]> (hl_first m')) (<[n := w]> (hl_pprev m')))) as Hset.
  { intros m' v w [(Hc & Hnd & H0) Hs]. split; [split; [|done]|].
    - eapply hchain_frame; [| |exact Hc]; intros x Hx; simpl; rewrite lookup_insert_ne; try done;
        intros <-; apply Hout; [done|by right].
    - intros x Hx. simpl. rewrite !lookup_insert_ne by (intros <-; apply Hx; clear; set_solver).
      apply Hs. clear -Hx. set_solver. }
  pose proof (__hlist_del_wp h l1 n l2 m Hl) as Hdel. split.
  - unfold hlist_del. hl_step. eapply wp_mono; [exact Hdel|].
    intros [] m' (Hb & Hf' & Hp'). rewrite Hf in Hf'. rewrite Hp in Hp'. repeat hl_step.
    split; [by apply Hset|]. by rewrite !lookup_insert_eq.
  - unfold hlist_del_init, hlist_unhashed, INIT_HLIST_NODE. repeat hl_step.
    rewrite (proj2 (Z.eqb_neq _ _) Hpz). simpl negb. cbv iota. hl_step.
    eapply wp_mono; [exact Hdel|]. intros [] m' (Hb & Hf' & Hp').
    rewrite Hf in Hf'. rewrite Hp in Hp'. repeat hl_step. split; [by apply Hset|].
    repeat hl_step. done.
Qed.

Lemma hlist_move_list_wp old new xs m :
  is_hlist m old xs → is_Some (hl_first m !! new) → new ≠ NULL → new ∉ old :: xs →
  wp (hlist_move_list old new)
     (λ _ m', is_hlist m' new xs ∧ is_hlist m' old [] ∧ hl_same m m' (new :: old :: xs)) m.
Proof.
  intros (Hc & Hn & H0) [v Hv] Hnz Hin.
  assert (old ≠ NULL) as Hoz by (clear -H0; set_solver).
  assert (old ≠ new) as Hon by (clear -Hin; set_solver).
  assert (hl_first m !! old = Some (hhead xs)) as Hfo by (destruct xs; [done|apply Hc]).
  assert (NoDup (new :: xs) ∧ NoDup [old] ∧ (NULL ∉ new :: xs) ∧ NULL ∉ [old]) as (? & ? & ? & ?).
  { clear -Hn H0 Hin Hnz Hoz. nodup_simp.
    split; [nodup_done|]. split; [nodup_done|]. split; set_solver. }
  unfold hlist_move_list. repeat hl_step. destruct xs as [|y xs]; simpl hhead in *.
  - rewrite Z.eqb_refl. simpl negb. cbv iota. repeat hl_step. split; [|split].
    + split; [|done]. simpl. lk.
    + split; [|done]. simpl. lk.
    + hl_frame Hin.
  - destruct Hc as (_ & Hpy & Hc).
    assert (y ≠ NULL ∧ (y ∉ xs) ∧ (old ∉ y :: xs)) as (Hyz & Hyx & Hox).
    { clear -H0 Hn. nodup_simp. split; [by apply not_eq_sym|]. split; [done|nodup_done]. }
    rewrite (proj2 (Z.eqb_neq _ _) Hyz). simpl negb. cbv iota. repeat hl_step. split; [|split].
    + split; [|done]. simpl. split; [lk|]. split; [lk|].
      eapply hchain_frame; [| |exact Hc]; simpl; intros z Hz; rewrite !lookup_insert_ne; try done;
        intros <-; try done. apply Hin. by right.
    + split; [|done]. simpl. lk.
    + hl_frame Hin.
Qed.
