(* ===== verification/HlistIter.v ===== *)
(** The iteration macros of the hlists of src/src/list.h, as combinators over the
    body of the loop like those of ListIter.v, and what the hlist half of the
    header promises. *)
From Stdlib Require Import ZArith Lia.
From stdpp Require Import base tactics option list numbers gmap.
From S2P Require Import Prelude ListHead ListRep ListIter Hlist.

Local Open Scope Z_scope.

(** ** The macros *)

Section macros.
Context {S : Type} `{HS : !Store S hlist_mem} {A : Type}.
Variable member : Z.

Definition hlist_entry (ptr : Z) : Z := ptr - member.

Definition hlist_entry_safe (ptr : Z) : Z :=
  if negb (ptr =? NULL) then hlist_entry ptr else NULL.

(** [for (; pos; pos = hlist_entry_safe(pos->member.next)) body] *)
Fixpoint for_hentries (fuel : nat) (body : Z → cm S (option A)) (pos : Z) : cm S (option A) :=
  match fuel with
  | O => c_nofuel
  | Datatypes.S fuel =>
    if pos =? NULL then mret None else
    r ← body pos;
    match r with
    | Some a => mret (Some a)
    | None => next ← lift (get_first (pos + member)); for_hentries fuel body (hlist_entry_safe next)
    end
  end.

(** [for (; pos && ({ n = pos->member.next; 1; }); pos = hlist_entry_safe(n)) body] *)
Fixpoint for_hentries_safe (fuel : nat) (body : Z → cm S (option A)) (pos : Z) : cm S (option A) :=
  match fuel with
  | O => c_nofuel
  | Datatypes.S fuel =>
    if pos =? NULL then mret None else
    n ← lift (get_first (pos + member));
    r ← body pos;
    match r with
    | Some a => mret (Some a)
    | None => for_hentries_safe fuel body (hlist_entry_safe n)
    end
  end.

Definition hlist_fuel : cm S nat :=
  c_get (λ s, Datatypes.S (size (hl_first (part (T := hlist_mem) s)))).

Definition hlist_for_each_entry (body : Z → cm S (option A)) (head : Z) : cm S (option A) :=
  fuel ← hlist_fuel;
  first ← lift (get_first head);
  for_hentries fuel body (hlist_entry_safe first).

Definition hlist_for_each_entry_continue (body : Z → cm S (option A)) (pos : Z) : cm S (option A) :=
  fuel ← hlist_fuel;
  next ← lift (get_first (pos + member));
  for_hentries fuel body (hlist_entry_safe next).

Definition hlist_for_each_entry_from (body : Z → cm S (option A)) (pos : Z) : cm S (option A) :=
  fuel ← hlist_fuel;
  for_hentries fuel body pos.

Definition hlist_for_each_entry_safe (body : Z → cm S (option A)) (head : Z) : cm S (option A) :=
  fuel ← hlist_fuel;
  first ← lift (get_first head);
  for_hentries_safe fuel body (hlist_entry_safe first).
End macros.

(** The macros whose cursor is the node itself. *)
Section nodes.
Context {S : Type} `{HS : !Store S hlist_mem} {A : Type}.

Definition hlist_for_each (body : Z → cm S (option A)) (head : Z) : cm S (option A) :=
  hlist_for_each_entry 0 body head.
Definition hlist_for_each_safe (body : Z → cm S (option A)) (head : Z) : cm S (option A) :=
  hlist_for_each_entry_safe 0 body head.
End nodes.

(** ** The rules *)

Section rules.
Context {S : Type} `{HS : !Store S hlist_mem} {A : Type}.
Variables (body : Z → cm S (option A)) (member : Z).

Definition leaves_hlists : Prop :=
  ∀ x s r s', body x s = Ok (r, s') → part (T := hlist_mem) s' = part s.
Hypothesis Hbody : leaves_hlists.

(** The nodes of these entries, after the cell [p], end the list; no entry is
    at NULL, where the loop would take it for the end. *)
Definition hahead (p : Z) (xs : list Z) (s : S) : Prop :=
  hchain (part s) p (nodes member xs) NULL ∧ (NULL ∉ nodes member xs) ∧ NULL ∉ xs.

Lemma hahead_first p xs s :
  p ≠ NULL → hahead p xs s →
  lift (get_first p) s = Ok (hhead (nodes member xs), s) ∧
  hlist_entry_safe member (hhead (nodes member xs)) = hhead xs.
Proof.
  intros Hp (Hc & Hn & _). split.
  - assert (hl_first (part s) !! p = Some (hhead (nodes member xs))) as Hf by (destruct xs; [done|apply Hc]).
    destruct (wp_elim _ _ _ (wp_get_first p _ (part s) (λ v m, v = hhead (nodes member xs) ∧ m = part s)
      Hp Hf ltac:(done))) as (v & m & Hrun & -> & ->).
    unfold lift. by rewrite Hrun, with_part_id.
  - destruct xs as [|x xs]; [done|]. unfold hlist_entry_safe, hlist_entry.
    cbn [nodes hhead fmap list_fmap] in *. rewrite (proj2 (Z.eqb_neq _ _)); [simpl; lia|].
    intros He. apply Hn. rewrite <- He. left.
Qed.

Lemma hahead_tail p x xs s : hahead p (x :: xs) s → hahead (x + member) xs s ∧ x ≠ NULL ∧ x + member ≠ NULL.
Proof.
  intros ((_ & _ & Hc) & Hn & Hx). apply not_elem_of_cons in Hn as [Hn1 Hn2], Hx as [Hx1 Hx2].
  split_and!; [done|by apply not_eq_sym|by apply not_eq_sym].
Qed.

Lemma for_hentries_run xs : ∀ fuel p s,
  hahead p xs s → (length xs < fuel)%nat →
  for_hentries member fuel body (hhead xs) s = visit_all body xs s.
Proof.
  induction xs as [|x xs IH]; intros [|fuel] p s Hl Hf; simpl in Hf; try lia;
    cbn [for_hentries hhead visit_all]; [done|].
  apply hahead_tail in Hl as (Hl & Hx & Hxm). rewrite (proj2 (Z.eqb_neq _ _) Hx).
  unfold mbind, cm_bind. destruct (body x s) as [[[a|] s']| | |] eqn:E; try done.
  assert (hahead (x + member) xs s') as Hl' by (unfold hahead; by rewrite (Hbody _ _ _ _ E)).
  destruct (hahead_first _ _ _ Hxm Hl') as [-> ->]. apply (IH fuel (x + member)); [done|lia].
Qed.

Lemma for_hentries_safe_run xs : ∀ fuel p s,
  hahead p xs s → (length xs < fuel)%nat →
  for_hentries_safe member fuel body (hhead xs) s = visit_all body xs s.
Proof.
  induction xs as [|x xs IH]; intros [|fuel] p s Hl Hf; simpl in Hf; try lia;
    cbn [for_hentries_safe hhead visit_all]; [done|].
  apply hahead_tail in Hl as (Hl & Hx & Hxm). rewrite (proj2 (Z.eqb_neq _ _) Hx).
  destruct (hahead_first _ _ _ Hxm Hl) as [Hrun He]. rewrite (bind_ok _ _ _ _ _ Hrun), He.
  unfold mbind, cm_bind. destruct (body x s) as [[[a|] s']| | |] eqn:E; try done.
  apply (IH fuel (x + member)); [|lia]. unfold hahead. by rewrite (Hbody _ _ _ _ E).
Qed.

Lemma hlist_size m h xs : is_hlist m h xs → (length xs < size (hl_first m))%nat.
Proof.
  intros Hl. pose proof Hl as (_ & Hn & _). change (length (h :: xs) ≤ size (hl_first m))%nat.
  rewrite <- size_dom, <- (size_list_to_set (C := gset Z)) by done.
  apply subseteq_size. intros x Hx%elem_of_list_to_set.
  by apply elem_of_dom, (hlist_live _ _ _ _ Hl).
Qed.

Lemma hlist_for_each_run h xs s :
  is_hlist (part s) h (nodes member xs) → NULL ∉ xs →
  hlist_for_each_entry member body h s = visit_all body xs s ∧
  hlist_for_each_entry_safe member body h s = visit_all body xs s.
Proof.
  intros Hl Hx. pose proof (hlist_size _ _ _ Hl) as Hs. unfold nodes in Hs at 1. rewrite length_fmap in Hs.
  pose proof Hl as (Hc & _ & H0). apply not_elem_of_cons in H0 as [Hh H0].
  assert (hahead h xs s) as Ha by done.
  destruct (hahead_first _ _ _ (not_eq_sym Hh) Ha) as [Hrun He].
  unfold hlist_for_each_entry, hlist_for_each_entry_safe.
  rewrite !(bind_ok (hlist_fuel) _ _ _ _ eq_refl), !(bind_ok _ _ _ _ _ Hrun), He.
  split; [apply (for_hentries_run _ _ h)|apply (for_hentries_safe_run _ _ h)]; done || lia.
Qed.
End rules.

(** ** The promises *)

(** C8. The hlist operations do to the list of nodes what their names say:
    hlist_add_head, hlist_add_before and hlist_add_behind insert the node
    first, before and behind; hlist_del and hlist_del_init take it out, the
    first poisoning it and the second leaving it unhashed; the iteration macros
    terminate and run the body on each entry in turn, in order, until it
    returns. *)
Theorem hlist_correct (n h x : Z) (l1 l2 : list Z) (m : hlist_mem) :
  is_hlist m h (l1 ++ x :: l2) → hnode m n → n ∉ h :: l1 ++ x :: l2 →
  wp (hlist_add_head n h)
     (λ _, hlist_becomes m h (n :: l1 ++ x :: l2) (n :: h :: l1 ++ x :: l2)) m ∧
  wp (hlist_add_before n x)
     (λ _, hlist_becomes m h (l1 ++ n :: x :: l2) (n :: h :: l1 ++ x :: l2)) m ∧
  wp (hlist_add_behind n x)
     (λ _, hlist_becomes m h (l1 ++ x :: n :: l2) (n :: h :: l1 ++ x :: l2)) m ∧
  wp (hlist_del x)
     (λ _ m', hlist_becomes m h (l1 ++ l2) (h :: l1 ++ x :: l2) m' ∧
        hl_first m' !! x = Some LIST_POISON1 ∧ hl_pprev m' !! x = Some LIST_POISON2) m ∧
  wp (hlist_del_init x)
     (λ _ m', hlist_becomes m h (l1 ++ l2) (h :: l1 ++ x :: l2) m' ∧
        wp (hlist_unhashed x) (λ b m'', b = true ∧ m'' = m') m') m ∧
  ∀ (S A : Type) (HS : Store S hlist_mem) (body : Z → cm S (option A)) (member : Z) (xs : list Z) (s : S),
    part s = m → leaves_hlists body → nodes member xs = l1 ++ x :: l2 → NULL ∉ xs →
    hlist_for_each_entry member body h s = visit_all body xs s ∧
    hlist_for_each_entry_safe member body h s = visit_all body xs s.
Proof.
  intros Hl Hnode Hin. destruct (hlist_del_wp _ _ _ _ _ Hl) as [Hdel Hdeli].
  split; [by apply hlist_add_head_wp|]. split; [by apply hlist_add_before_wp|].
  split; [by apply hlist_add_behind_wp|]. split; [done|]. split; [done|].
  intros S A HS body member xs s <- Hb Hx Hnull. apply hlist_for_each_run; [done|by rewrite Hx|done].
Qed.

(** The head at 8 with the nodes 16 and 24, and the node 32 outside. *)
Definition ex_hlist : hlist_mem :=
  HlistMem (<[8 := 16]> (<[16 := 24]> (<[24 := 0]> (<[32 := 0]> ∅))))
    (<[16 := 8]> (<[24 := 16]> (<[32 := 0]> ∅))).

(** The hlist and a log. *)
Definition hlogged := (hlist_mem * list Z)%type.
#[export] Instance hlogged_store : Store hlogged hlist_mem.
Proof. refine {| part := fst; with_part m s := (m, snd s) |}; by try intros ? ? []; try intros []. Defined.
Definition hlog_body (x : Z) : cm hlogged (option Z) :=
  c_modify (λ s, (fst s, snd s ++ [x]));; mret (if x =? 20 then Some x else None).

Lemma hlist_correct_witness :
  wp (hlist_add_behind 32 24) (λ _, hlist_becomes ex_hlist 8 [16; 24; 32] [32; 8; 16; 24]) ex_hlist ∧
  hlist_for_each_entry 4 hlog_body 8 (ex_hlist, []) = Ok (Some 20, (ex_hlist, [12; 20])) ∧
  hlist_for_each_entry_safe 4 hlog_body 8 (ex_hlist, []) = Ok (Some 20, (ex_hlist, [12; 20])).
Proof.
  assert (is_hlist ex_hlist 8 ([16] ++ 24 :: [])) as Hl.
  { split; [repeat split|split].
    - apply (bool_decide_unpack (NoDup [8; 16; 24])). by vm_compute.
    - apply (bool_decide_unpack (NULL ∉ [8; 16; 24])). by vm_compute. }
  assert (hnode ex_hlist 32) as Hn by (split; [done|split; by eexists]).
  assert (32 ∉ [8; 16; 24]) as Hin
    by (apply (bool_decide_unpack (32 ∉ [8; 16; 24])); by vm_compute).
  destruct (hlist_correct 32 8 24 [16] [] ex_hlist Hl Hn Hin) as (_ & _ & H1 & _ & _ & H2).
  split; [exact H1|]. apply (H2 hlogged Z hlogged_store hlog_body 4 [12; 20] (ex_hlist, []));
    [done| |done|apply (bool_decide_unpack (NULL ∉ [12; 20])); by vm_compute].
  intros x [m l] r [m' l'] Hr. by injection Hr as <- <- <-.
Defined.
