(* ===== verification/Refcount.v ===== *)
(** Reference counts: src/src/refcount.h.

    The counter is an [atomic_uint], a 32-bit value that wraps.  The first
    half is the sequential meaning of the four operations; the second half
    models refcount_dec_and_test as the two atomic steps it is made of, run by
    any number of threads in any interleaving. *)
From Stdlib Require Import ZArith Lia.
From stdpp Require Import base tactics option list numbers gmap relations.
From S2P Require Import Prelude.

Local Open Scope Z_scope.

(** ** The operations, on the value of the counter *)

Definition refcount_set (n : Z) : Z := w32 n.
Definition refcount_read (refs : Z) : Z := refs.
Definition refcount_inc (refs : Z) : Z := w32 (refs + 1).

(** [atomic_fetch_sub] and then a second access, [atomic_load]. *)
Definition refcount_sub (refs : Z) : Z := w32 (refs - 1).
Definition refcount_test (refs : Z) : bool := refs =? 0.
Definition refcount_dec_and_test (refs : Z) : Z * bool :=
  let refs := refcount_sub refs in (refs, refcount_test refs).

Lemma w32_dec n : 0 < n < 2 ^ 32 → refcount_sub n = n - 1.
Proof. intros. apply w32_small. unfold is_u32. lia. Qed.
Lemma w32_inc n : 0 ≤ n < 2 ^ 32 - 1 → refcount_inc n = n + 1.
Proof. intros. apply w32_small. unfold is_u32. lia. Qed.

(** ** Threads that drop references concurrently *)

(** Where a thread is in refcount_dec_and_test. *)
Inductive rc_pc :=
  | Start
  | Subbed
  | Done (r : bool).

Record rc_state := RcState { rc_refs : Z; rc_threads : list rc_pc }.

Inductive rc_step : rc_state → rc_state → Prop :=
  | rc_sub refs ts i :
      ts !! i = Some Start →
      rc_step (RcState refs ts) (RcState (refcount_sub refs) (<[i := Subbed]> ts))
  | rc_load refs ts i :
      ts !! i = Some Subbed →
      rc_step (RcState refs ts) (RcState refs (<[i := Done (refcount_test refs)]> ts)).

#[export] Instance rc_pc_eq_dec : EqDecision rc_pc.
Proof. solve_decision. Defined.

(** The threads that have not dropped their reference yet. *)
Definition pending (ts : list rc_pc) : nat := length (filter (λ p, p = Start) ts).

Lemma pending_cons p ts :
  pending (p :: ts) = ((if decide (p = Start) then 1 else 0) + pending ts)%nat.
Proof. unfold pending. rewrite filter_cons. by case_decide. Qed.

Lemma pending_insert ts i p q :
  ts !! i = Some p →
  (pending (<[i := q]> ts) + (if decide (p = Start) then 1 else 0) =
   pending ts + (if decide (q = Start) then 1 else 0))%nat.
Proof.
  revert i. induction ts as [|t ts IH]; intros [|i] H; simplify_eq/=.
  - rewrite !pending_cons. lia.
  - rewrite !pending_cons. specialize (IH i H). lia.
Qed.

(** Each live reference belongs to a thread that has not dropped it, and once
    all are dropped some thread is on its way to answer "last". *)
Definition rc_inv (s : rc_state) : Prop :=
  rc_refs s = Z.of_nat (pending (rc_threads s)) ∧
  (pending (rc_threads s) = 0%nat →
   Subbed ∈ rc_threads s ∨ Done true ∈ rc_threads s) ∧
  Z.of_nat (length (rc_threads s)) < 2 ^ 32.

Lemma insert_in (ts : list rc_pc) i p : is_Some (ts !! i) → p ∈ <[i := p]> ts.
Proof.
  intros Hi%lookup_lt_is_Some. apply list_elem_of_lookup. exists i.
  by rewrite list_lookup_insert_eq.
Qed.

Lemma pending_length ts : (pending ts ≤ length ts)%nat.
Proof. apply length_filter. Qed.

Lemma rc_step_inv s s' : rc_step s s' → rc_inv s → rc_inv s'.
Proof.
  intros [refs ts i Hi|refs ts i Hi] (Hr & Hz & Hl); unfold rc_inv in *; simpl in *.
  - pose proof (pending_insert ts i Start Subbed Hi) as Hp.
    destruct (decide (Start = Start)); [|done]. destruct (decide (Subbed = Start)); [done|].
    pose proof (pending_length ts). rewrite length_insert. split_and!; [|left|done].
    + rewrite w32_dec; lia.
    + apply insert_in. by eexists.
  - pose proof (pending_insert ts i Subbed (Done (refcount_test refs)) Hi) as Hp.
    destruct (decide (Subbed = Start)); [done|].
    destruct (decide (Done (refcount_test refs) = Start)); [done|].
    rewrite length_insert. split_and!; [lia| |done].
    intros Hpz. right. unfold refcount_test. rewrite (proj2 (Z.eqb_eq refs 0)) by lia.
    apply insert_in. by eexists.
Qed.

Lemma rc_reachable_inv s s' : rtc rc_step s s' → rc_inv s → rc_inv s'.
Proof. induction 1; eauto using rc_step_inv. Qed.

Lemma rc_init_inv n : (0 < n)%nat → Z.of_nat n < 2 ^ 32 → rc_inv (RcState (Z.of_nat n) (replicate n Start)).
Proof.
  intros Hn Hl. unfold rc_inv. simpl. rewrite length_replicate.
  assert (pending (replicate n Start) = n) as ->.
  { clear. induction n as [|n IH]; simpl; [done|]. rewrite pending_cons, IH. done. }
  split_and!; [done|lia|done].
Qed.

(** The accesses that are still to come. *)
Definition accesses (p : rc_pc) : nat :=
  match p with Start => 2 | Subbed => 1 | Done _ => 0 end.
Definition accesses_left (ts : list rc_pc) : nat := sum_list_with accesses ts.

Lemma accesses_insert ts i p q :
  ts !! i = Some p →
  (accesses_left (<[i := q]> ts) + accesses p = accesses_left ts + accesses q)%nat.
Proof.
  unfold accesses_left. revert i. induction ts as [|t ts IH]; intros [|i] H; simplify_eq/=; [lia|].
  specialize (IH i H). lia.
Qed.

Lemma rc_step_decreases s s' :
  rc_step s s' → (accesses_left (rc_threads s') < accesses_left (rc_threads s))%nat.
Proof.
  intros [refs ts i Hi|refs ts i Hi]; simpl.
  - pose proof (accesses_insert ts i _ Subbed Hi). simpl in *. lia.
  - pose proof (accesses_insert ts i _ (Done (refcount_test refs)) Hi). simpl in *. lia.
Qed.

Lemma rc_terminates s : sn rc_step s.
Proof.
  induction s as [s IH] using (induction_ltof1 _ (λ s, accesses_left (rc_threads s))).
  constructor. intros s' Hs. by apply IH, rc_step_decreases.
Qed.

(** A thread that is not done can move. *)
Lemma rc_stuck_done s p : nf rc_step s → p ∈ rc_threads s → ∃ r, p = Done r.
Proof.
  destruct s as [refs ts]. intros Hn [i Hi]%list_elem_of_lookup. destruct p; [..|by eexists].
  - destruct Hn. eexists. by eapply rc_sub.
  - destruct Hn. eexists. by eapply rc_load.
Qed.

(** C9. Dropping references never loses the object: when [n] threads hold the
    [n] references and run refcount_dec_and_test, every interleaving ends, and
    where it ends all have their answer, the counter is 0 and at least one of
    them was told that it dropped the last reference. *)
Theorem refcount_eventually_last (n : nat) :
  (0 < n)%nat → Z.of_nat n < 2 ^ 32 →
  sn rc_step (RcState (Z.of_nat n) (replicate n Start)) ∧
  ∀ s, rtc rc_step (RcState (Z.of_nat n) (replicate n Start)) s → nf rc_step s →
    (∀ p, p ∈ rc_threads s → ∃ r, p = Done r) ∧ rc_refs s = 0 ∧ Done true ∈ rc_threads s.
Proof.
  intros Hn Hl. split; [apply rc_terminates|]. intros s Hr Hnf.
  assert (∀ p, p ∈ rc_threads s → ∃ r, p = Done r) as Hdone by (intros p; by apply rc_stuck_done).
  split; [done|]. apply rc_reachable_inv in Hr as (Hrefs & Hz & _); [|by apply rc_init_inv].
  assert (pending (rc_threads s) = 0%nat) as Hp.
  { destruct s as [refs ts]. simpl in *. clear -Hdone. induction ts as [|p ts IH]; [done|].
    rewrite pending_cons, IH by (intros q ?; apply Hdone; by right).
    destruct (Hdone p ltac:(by left)) as [r ->]. done. }
  rewrite Hp in Hrefs. split; [done|]. destruct (Hz Hp) as [Hs|]; [|done].
  by destruct (Hdone _ Hs).
Qed.

Lemma refcount_eventually_last_witness :
  sn rc_step (RcState 1 [Start]) ∧
  rc_refs (RcState 0 [Done true]) = 0 ∧ Done true ∈ rc_threads (RcState 0 [Done true]).
Proof.
  destruct (refcount_eventually_last 1) as [Hsn Hend]; [lia|lia|].
  split; [exact Hsn|]. apply Hend.
  - eapply rtc_l; [apply (rc_sub 1 [Start] 0); reflexivity|].
    eapply rtc_l; [apply (rc_load 0 [Subbed] 0); reflexivity|]. apply rtc_refl.
  - intros [s' Hs]. inversion Hs as [refs ts i Hi|refs ts i Hi]; subst; destruct i as [|[]]; done.
Defined.

(** C10. The subtraction and the test of refcount_dec_and_test are two atomic
    accesses, not one: two threads that drop the last two references can both
    be told that theirs was the last, so both destroy the object. *)
Theorem refcount_double_last :
  rtc rc_step (RcState 2 [Start; Start]) (RcState 0 [Done true; Done true]).
Proof.
  eapply rtc_l; [apply (rc_sub 2 [Start; Start] 0); reflexivity|].
  eapply rtc_l; [apply (rc_sub 1 [Subbed; Start] 1); reflexivity|].
  eapply rtc_l; [apply (rc_load 0 [Subbed; Subbed] 0); reflexivity|].
  eapply rtc_l; [apply (rc_load 0 [Done true; Subbed] 1); reflexivity|].
  apply rtc_refl.
Qed.

(** Run by one thread, a get followed by a put gives the old count back
    and reports "last" exactly when the count was 0 before the get, for every
    count that does not overflow; a put of the last reference reports it. *)
Theorem refcount_inc_dec (n : Z) :
  is_u32 n →
  refcount_dec_and_test (refcount_inc n) = (n, n =? 0) ∧
  (refcount_read (refcount_set 1) = 1 ∧ refcount_dec_and_test (refcount_set 1) = (0, true)).
Proof.
  intros Hn. split; [|done]. unfold refcount_dec_and_test, refcount_inc, refcount_sub, w32.
  rewrite Zminus_mod_idemp_l. replace (n + 1 - 1) with n by lia.
  rewrite Z.mod_small by apply Hn. done.
Qed.

Lemma refcount_inc_dec_witness :
  refcount_dec_and_test (refcount_inc (2 ^ 32 - 1)) = (2 ^ 32 - 1, false) ∧
  (refcount_read (refcount_set 1) = 1 ∧ refcount_dec_and_test (refcount_set 1) = (0, true)).
Proof. apply (refcount_inc_dec (2 ^ 32 - 1)). split; lia. Defined.
