(* ===== verification/DsoRef.v ===== *)
(** References to dsos: dso__get and dso__put of src/src/dso.c.

    The counts live in a table by dso address.  The maps, the list of dsos and
    the machine each hold such a table as a part of their state, so the two
    functions are written for any such state. *)
From Stdlib Require Import ZArith Lia.
From stdpp Require Import base tactics option list numbers gmap.
From S2P Require Import Prelude Refcount.

Local Open Scope Z_scope.

Section refs.
Context {S : Type} `{Store S (gmap Z Z)}.

Definition dso__get (dso : Z) : cm S Z :=
  if dso =? NULL then mret dso else
  r ← lift (obj_load dso);
  lift (obj_store dso (λ _, refcount_inc r));;
  mret dso.

(** The body of [dso__delete] is empty. *)
Definition dso__delete (dso : Z) : cm S unit := mret tt.

Definition dso__put (dso : Z) : cm S unit :=
  if dso =? NULL then mret tt else
  r ← lift (obj_load dso);
  let '(r', last) := refcount_dec_and_test r in
  lift (obj_store dso (λ _, r'));;
  if (last : bool) then dso__delete dso else mret tt.

(** What a put does to the table. *)
Definition drop_dso (d : Z) (D : gmap Z Z) : gmap Z Z :=
  if d =? NULL then D else alter refcount_sub d D.

Lemma wp_dso_get d r (s : S) (Q : Z → S → Prop) :
  d ≠ NULL → part s !! d = Some r → Q d (with_part (<[d := refcount_inc r]> (part s)) s) →
  wp (dso__get d) Q s.
Proof.
  intros Hd Hr HQ. unfold dso__get. rewrite (proj2 (Z.eqb_neq _ _) Hd). apply wp_bind.
  apply (wp_lift_pure _ (λ v, v = r)); [by eapply wp_obj_load|]. intros v ->.
  apply wp_bind, wp_lift. eapply wp_obj_store; [done|exact Hr|]. by apply wp_ret.
Qed.

Lemma wp_dso_put d (s : S) (Q : unit → S → Prop) :
  d = NULL ∨ is_Some (part s !! d) → Q tt (with_part (drop_dso d (part s)) s) →
  wp (dso__put d) Q s.
Proof.
  intros Hd HQ. unfold dso__put, drop_dso in *. destruct (Z.eqb_spec d NULL) as [->|Hne].
  - apply wp_ret. by rewrite with_part_id in HQ.
  - destruct Hd as [?|[r Hr]]; [done|]. apply wp_bind.
    apply (wp_lift_pure _ (λ v, v = r)); [by eapply wp_obj_load|]. intros v ->.
    simpl. apply wp_bind, wp_lift. eapply wp_obj_store; [done|exact Hr|].
    assert (∀ b : bool, Q tt (with_part (<[d:=refcount_sub r]> (part s)) s) →
      wp (if b then dso__delete d else mret tt) Q (with_part (<[d:=refcount_sub r]> (part s)) s)) as Hdel
      by by intros []; intros ?; apply wp_ret.
    apply Hdel. replace (<[d:=refcount_sub r]> (part s)) with (alter refcount_sub d (part s)); [done|].
    apply map_eq. intros x. destruct (decide (x = d)) as [->|].
    + by rewrite lookup_alter_eq, lookup_insert_eq, Hr.
    + by rewrite lookup_alter_ne, lookup_insert_ne.
Qed.
End refs.

Lemma drop_dso_live d (D : gmap Z Z) x : is_Some (D !! x) → is_Some (drop_dso d D !! x).
Proof.
  unfold drop_dso. case_match; [done|]. destruct (decide (x = d)) as [->|].
  - rewrite lookup_alter_eq. by intros [? ->].
  - by rewrite lookup_alter_ne.
Qed.
