(* ===== verification/RbSearch.v ===== *)
(** Trees inside a larger store, and the descent every client writes.

    The components that embed a tree in their own state (src/src/map.c,
    src/src/dso.c, src/src/machine.c) are [Store]s with an [rb_state] part.
    [rb_descend] is the loop
    [while ( *p != NULL) { parent = *p; ... }] those files share, its body
    being the component's own comparison. *)
From Stdlib Require Import ZArith Lia.
From stdpp Require Import base tactics option list numbers gmap sorting.
From S2P Require Import Prelude RbTree RbSpec RbRep RbLink RbUnlink RbIter.

Local Open Scope Z_scope.

(** ** The descent *)

(** What the body of the loop decides at a node. *)
Inductive turn (A : Type) := GoLeft | GoRight | Stop (a : A).
Arguments GoLeft {A}.
Arguments GoRight {A}.
Arguments Stop {A} a.

Fixpoint rb_descend {S} `{Store S rb_state} {A} (fuel : nat) (visit : Z → cm S (turn A))
    (p : rb_slot) (parent : Z) : cm S (A + Z * rb_slot) :=
  match fuel with
  | O => c_nofuel
  | Datatypes.S fuel =>
    cur ← lift (get_slot p);
    if cur =? NULL then mret (inr (parent, p)) else
    t ← visit cur;
    match t with
    | GoLeft => rb_descend fuel visit (SLeft cur) cur
    | GoRight => rb_descend fuel visit (SRight cur) cur
    | Stop a => mret (inl a)
    end
  end.

(** From the root of the tree; [inl] when the body left the loop, [inr] with
    [parent] and [p] when it ended at an empty slot. *)
Definition rb_search {S} `{Store S rb_state} {A} (visit : Z → cm S (turn A)) :
    cm S (A + Z * rb_slot) :=
  λ s, rb_descend (Datatypes.S (rb_fuel (part s))) visit SRoot NULL s.

(** The same walk on the functional tree. *)
Fixpoint descend {A} (dir : Z → turn A) (t : tree) (k : ctx) : A + ctx :=
  match t with
  | E => inr k
  | T c l a r =>
    match dir a with
    | GoLeft => descend dir l (FL c a r :: k)
    | GoRight => descend dir r (FR c l a :: k)
    | Stop v => inl v
    end
  end.

Definition at_hole {A} (x : A + ctx) : A + Z * rb_slot :=
  match x with inl a => inl a | inr k => inr (cptr k, slot_of k) end.

Section descend.
Context {A : Type} (dir : Z → turn A).

Lemma descend_plug t k k' : descend dir t k = inr k' → plug k' E = plug k t.
Proof.
  revert k. induction t as [|c l IHl a r IHr]; intros k; simpl; [congruence|].
  destruct (dir a); [|by apply IHr|done]. intros H%IHl. done.
Qed.

(** The nodes left of the hole were passed to the right, those right of it to
    the left. *)
Definition passed (k : ctx) : Prop :=
  Forall (λ a, dir a = GoRight) (lefts k) ∧ Forall (λ a, dir a = GoLeft) (rights k).

(** The directions are monotone along a sequence: everything before a node
    that sends right sends right, everything after a node that sends left
    sends left. *)
Definition mono (l : list Z) : Prop :=
  ∀ l1 a l2, l = l1 ++ a :: l2 →
    (dir a = GoRight → Forall (λ x, dir x = GoRight) l1) ∧
    (dir a = GoLeft → Forall (λ x, dir x = GoLeft) l2).

Lemma mono_app_l l1 l2 : mono (l1 ++ l2) → mono l1.
Proof.
  intros H k1 a k2 ->. destruct (H k1 a (k2 ++ l2)) as [Hr Hl].
  { by rewrite <- app_assoc. }
  split; [done|]. intros Ha. apply Hl, Forall_app in Ha. naive_solver.
Qed.
Lemma mono_app_r l1 l2 : mono (l1 ++ l2) → mono l2.
Proof.
  intros H k1 a k2 ->. destruct (H (l1 ++ k1) a k2) as [Hr Hl].
  { by rewrite <- app_assoc. }
  split; [|done]. intros Ha. apply Hr, Forall_app in Ha. naive_solver.
Qed.

Lemma descend_passed t k k' :
  mono (inorder t) → passed k → descend dir t k = inr k' → passed k'.
Proof.
  revert k. induction t as [|c l IHl a r IHr]; intros k Hm [Hl Hr] Hd; simpl in *.
  - by injection Hd as <-.
  - destruct (Hm (inorder l) a (inorder r) eq_refl) as [HR HL].
    destruct (dir a) eqn:Ha; [| |done].
    + eapply IHl; [by eapply mono_app_l| |done]. split; [done|]. simpl.
      constructor; [done|]. apply Forall_app. auto.
    + eapply IHr; [apply (mono_app_r (inorder l ++ [a])); by rewrite <- app_assoc| |done].
      split; [|done]. simpl. apply Forall_app. split; [done|].
      apply Forall_app. auto.
Qed.

Lemma descend_stop t k v :
  descend dir t k = inl v → ∃ a, a ∈ inorder t ∧ dir a = Stop v.
Proof.
  revert k. induction t as [|c l IHl a r IHr]; intros k; simpl; [done|].
  destruct (dir a) eqn:Ha; intros H.
  - apply IHl in H as (b & ? & ?). exists b. set_solver.
  - apply IHr in H as (b & ? & ?). exists b. set_solver.
  - simplify_eq. exists a. set_solver.
Qed.

Lemma descend_none t k' :
  mono (inorder t) → descend dir t [] = inr k' →
  inorder t = lefts k' ++ rights k' ∧
  Forall (λ a, dir a = GoRight) (lefts k') ∧ Forall (λ a, dir a = GoLeft) (rights k').
Proof.
  intros Hm Hd. split.
  - apply descend_plug in Hd. simpl in Hd. by rewrite <- Hd, inorder_plug.
  - by apply (descend_passed t []).
Qed.
End descend.

(** Sequences sorted by a relation the directions respect. *)
Lemma sorted_mono {A} (dir : Z → turn A) (R : Z → Z → Prop) l :
  StronglySorted R l →
  (∀ x y, x ∈ l → y ∈ l → R x y → dir y = GoRight → dir x = GoRight) →
  (∀ x y, x ∈ l → y ∈ l → R x y → dir x = GoLeft → dir y = GoLeft) →
  mono dir l.
Proof.
  intros Hs HR HL l1 a l2 ->.
  apply StronglySorted_app in Hs as (Hc & _ & Hs2). split; intros Ha; apply Forall_forall.
  - intros x Hx. apply (HR x a); [set_solver..| |done]. apply Hc; set_solver.
  - intros x Hx. apply (HL a x); [set_solver..| |done].
    inversion Hs2 as [|?? _ Hf]; subst. rewrite Forall_forall in Hf. by apply Hf.
Qed.

(** The pointer loop computes [descend] when the body is a read-only function
    of the node. *)
Lemma rb_descend_wp {S} `{Store S rb_state} {A} (visit : Z → cm S (turn A)) (dir : Z → turn A)
    fuel s t k :
  represents (part s) (plug k t) →
  (∀ a, a ∈ inorder t → wp (visit a) (λ v s', v = dir a ∧ s' = s) s) →
  (length (inorder t) < fuel)%nat →
  wp (rb_descend fuel visit (slot_of k) (cptr k))
     (λ v s', v = at_hole (descend dir t k) ∧ s' = s) s.
Proof.
  revert t k. induction fuel as [|fuel IH]; intros t k Hs Hv Hf; [lia|].
  simpl. apply wp_bind. apply (wp_lift_pure _ (λ v, v = ptr t)).
  { destruct (part s) as [m root]. apply represents_plug in Hs as (Hk & Ht & Hnd).
    destruct k as [|[c a r|c l a] k]; simpl in *; unfold get_root.
    - by subst.
    - destruct Hk as ([Ha ?] & Hm & _). by rb_run.
    - destruct Hk as ([Ha ?] & Hm & _). by rb_run. }
  intros cur ->. destruct t as [|c l a r]; simpl ptr; [by apply wp_ret|].
  assert (a ≠ NULL) as Ha.
  { destruct (part s). apply represents_plug in Hs as (_ & ([Ha _] & _) & _). done. }
  rewrite (proj2 (Z.eqb_neq _ _) Ha). apply wp_bind.
  eapply wp_mono; [apply Hv; simpl; set_solver|]. intros v s' [-> ->].
  simpl in Hf. rewrite length_app in Hf. simpl in Hf.
  simpl. destruct (dir a); [| |by apply wp_ret].
  - apply (IH l (FL c a r :: k)); [done| |lia]. intros b Hb. apply Hv. simpl. set_solver.
  - apply (IH r (FR c l a :: k)); [done| |lia]. intros b Hb. apply Hv. simpl. set_solver.
Qed.

(** Memory outside a tree does not matter to it. *)
Lemma represents_frame r r' t :
  represents r t → (∀ a, a ∈ inorder t → rb_mem r' !! a = rb_mem r !! a) →
  rb_root_node r' = rb_root_node r → represents r' t.
Proof.
  intros (Ht & Hroot & Hn) Hm Hr. split_and!; [|by rewrite Hr|done].
  clear -Ht Hm. revert Ht. generalize NULL.
  induction t as [|c tl IHl a tr IHr]; intros p; simpl in *; [done|].
  intros (? & Ha & ? & ?). split_and!; [done| | |].
  - rewrite Hm; [done|]. set_solver.
  - apply IHl; [intros; apply Hm; set_solver|done].
  - apply IHr; [intros; apply Hm; set_solver|done].
Qed.

Lemma represents_size s t : represents s t → (length (inorder t) ≤ size (rb_mem s))%nat.
Proof. intros (Ht & _ & Hn). by apply (rep_size _ NULL). Qed.

Lemma rb_search_wp {S} `{Store S rb_state} {A} (visit : Z → cm S (turn A)) (dir : Z → turn A) s t :
  represents (part s) t →
  (∀ a, a ∈ inorder t → wp (visit a) (λ v s', v = dir a ∧ s' = s) s) →
  wp (rb_search visit) (λ v s', v = at_hole (descend dir t []) ∧ s' = s) s.
Proof.
  intros Hs Hv. apply (rb_descend_wp _ _ _ s t []); [done|done|].
  pose proof (represents_size _ _ Hs). unfold rb_fuel. lia.
Qed.

(** The insertion that follows a failed search: the new node goes between the
    nodes that sent right and those that sent left. *)
Lemma insert_at_hole_wp {S} `{Store S rb_state} {A} (dir : Z → turn A) n s t k' :
  represents (part s) t → redblack t → descend dir t [] = inr k' →
  node_ok n → is_Some (rb_mem (part s) !! n) → n ∉ inorder t →
  wp (lift (rb_link_node n (cptr k') (slot_of k'));; lift (rb_insert_color n))
     (λ _ s', ∃ t' r', s' = with_part r' s ∧ represents r' t' ∧ redblack t' ∧
        inorder t' = lefts k' ++ n :: rights k' ∧
        (∀ x, x ∉ n :: inorder t → rb_mem r' !! x = rb_mem (part s) !! x)) s.
Proof.
  intros Hs Hrb Hd Hn Hin Hfresh. apply descend_plug in Hd. simpl in Hd. subst t.
  pose proof (link_and_insert_wp k' n (part s) Hs Hrb Hn Hin Hfresh) as Hw.
  unfold wp, link_and_insert, mbind, cm_bind in *. unfold lift.
  destruct (rb_link_node n (cptr k') (slot_of k') (part s)) as [[[] r1]| | |]; try done.
  rewrite part_with. destruct (rb_insert_color n r1) as [[[] r2]| | |]; try done.
  destruct Hw as (t' & ? & ? & ? & ?). exists t', r2. by rewrite with_part_twice.
Qed.
