(* ===== verification/Rwsem.v ===== *)
(** Reader-writer locks: src/src/rwsem.c.

    Taking and releasing call pthread unless the program is single-threaded;
    [singlethreaded] (src/src/utility.c) is set to true and assigned nowhere
    else, so in this program they change nothing.  The pthread functions are
    parameters. *)
From Stdlib Require Import ZArith Lia.
From stdpp Require Import base tactics option list numbers gmap.
From S2P Require Import Prelude.

Local Open Scope Z_scope.

Definition singlethreaded : bool := true.

(** The pthread functions on one lock.  Creating and destroying a lock change
    nothing but the lock, which is no part of the state. *)
Record pthread_rwlock (S : Type) := PthreadRwlock {
  pthread_rwlock_init : cm S Z;
  pthread_rwlock_destroy : cm S Z;
  pthread_rwlock_rdlock : cm S Z;
  pthread_rwlock_wrlock : cm S Z;
  pthread_rwlock_unlock : cm S Z;
  rwlock_init_wp s : wp pthread_rwlock_init (λ _ s', s' = s) s;
  rwlock_destroy_wp s : wp pthread_rwlock_destroy (λ _ s', s' = s) s;
}.
Arguments pthread_rwlock_init {S}.
Arguments pthread_rwlock_destroy {S}.
Arguments pthread_rwlock_rdlock {S}.
Arguments pthread_rwlock_wrlock {S}.
Arguments pthread_rwlock_unlock {S}.

Section rwsem.
Context {S : Type} (sem : pthread_rwlock S).

Definition init_rwsem : cm S Z := pthread_rwlock_init sem.
Definition exit_rwsem : cm S Z := pthread_rwlock_destroy sem.
Definition down_read : cm S Z :=
  if singlethreaded then mret 0 else pthread_rwlock_rdlock sem.
Definition up_read : cm S Z :=
  if singlethreaded then mret 0 else pthread_rwlock_unlock sem.
Definition down_write : cm S Z :=
  if singlethreaded then mret 0 else pthread_rwlock_wrlock sem.
Definition up_write : cm S Z :=
  if singlethreaded then mret 0 else pthread_rwlock_unlock sem.

(** The rules of creation and destruction in a sequence of steps. *)
Lemma wp_init_rwsem {A} (k : cm S A) Q s : wp k Q s → wp (init_rwsem;; k) Q s.
Proof.
  intros Hk. apply wp_bind. eapply wp_mono; [apply rwlock_init_wp|]. by intros u s' ->.
Qed.
Lemma wp_exit_rwsem {A} (k : cm S A) Q s : wp k Q s → wp (exit_rwsem;; k) Q s.
Proof.
  intros Hk. apply wp_bind. eapply wp_mono; [apply rwlock_destroy_wp|]. by intros u s' ->.
Qed.
End rwsem.

(** A lock that does nothing, for concrete runs. *)
Definition no_rwlock {S : Type} : pthread_rwlock S.
Proof. refine (PthreadRwlock S (mret 0) (mret 0) (mret 0) (mret 0) (mret 0) _ _); intros s; by apply wp_ret. Defined.
