(* ===== verification/Maps.v ===== *)
(** The memory maps of a thread group: src/src/map.h and src/src/map.c.

    A [struct map] at address [a] is its [rb_node] (offset 0, so at [a]), its
    list node [node] (after the three words of the [rb_node]) and the other
    fields, the record [map]; the three live in the tree memory, the list
    memory and the table of maps of the state.  One [struct maps] is the root
    word of the tree and the list head [ms_head]. *)
From Stdlib Require Import ZArith Lia.
From stdpp Require Import base tactics option list numbers gmap sorting.
From S2P Require Import Prelude RbTree RbSpec RbRep RbUnlink RbIter RbSearch.
From S2P Require Import ListHead ListRep ListSplice Refcount DsoRef Rwsem.

Local Open Scope Z_scope.

(** ** Data *)

(** The fields of [struct mmap2_event] (event.h) that map.c reads. *)
Record mmap2_event := Mmap2Event {
  ev_start : Z; ev_len : Z; ev_pgoff : Z;
  ev_maj : Z; ev_min : Z; ev_ino : Z; ev_ino_generation : Z;
  ev_prot : Z; ev_flags : Z;
}.

Record map := Map {
  m_start : Z; m_end : Z; m_prot : Z; m_flags : Z; m_pgoff : Z; m_reloc : Z;
  m_maj : Z; m_min : Z; m_ino : Z; m_ino_generation : Z;
  m_dso : Z; m_refcnt : Z;
}.

Record maps_st := MapsSt {
  ms_rb : rb_state;       (* the rb_nodes and [maps->entries] *)
  ms_list : list_mem;     (* the list nodes *)
  ms_map : gmap Z map;    (* the other fields of the live maps *)
  ms_dso : gmap Z Z;      (* the reference counts of the dsos *)
  ms_head : Z;            (* [&maps->head] *)
}.

#[export] Instance maps_rb_store : Store maps_st rb_state.
Proof.
  refine {| part := ms_rb;
    with_part r s := MapsSt r (ms_list s) (ms_map s) (ms_dso s) (ms_head s) |};
    by try intros ? ? []; try intros [].
Defined.
#[export] Instance maps_list_store : Store maps_st list_mem.
Proof.
  refine {| part := ms_list;
    with_part l s := MapsSt (ms_rb s) l (ms_map s) (ms_dso s) (ms_head s) |};
    by try intros ? ? []; try intros [].
Defined.
#[export] Instance maps_map_store : Store maps_st (gmap Z map).
Proof.
  refine {| part := ms_map;
    with_part m s := MapsSt (ms_rb s) (ms_list s) m (ms_dso s) (ms_head s) |};
    by try intros ? ? []; try intros [].
Defined.
#[export] Instance maps_dso_store : Store maps_st (gmap Z Z).
Proof.
  refine {| part := ms_dso;
    with_part d s := MapsSt (ms_rb s) (ms_list s) (ms_map s) d (ms_head s) |};
    by try intros ? ? []; try intros [].
Defined.

Abbreviation mm := (cm maps_st).

(** [&map->node] and [rb_entry]: the [rb_node] is the first member. *)
Definition map_node (map : Z) : Z := map + 24.

Definition map_load (a : Z) : mm map := lift (obj_load a).
Definition map_store (a : Z) (f : map → map) : mm unit := lift (obj_store a f).

Definition map_set_refcnt (a v : Z) : mm unit :=
  map_store a (λ m, Map (m_start m) (m_end m) (m_prot m) (m_flags m) (m_pgoff m)
    (m_reloc m) (m_maj m) (m_min m) (m_ino m) (m_ino_generation m) (m_dso m) v).
Definition map_set_dso (a v : Z) : mm unit :=
  map_store a (λ m, Map (m_start m) (m_end m) (m_prot m) (m_flags m) (m_pgoff m)
    (m_reloc m) (m_maj m) (m_min m) (m_ino m) (m_ino_generation m) v (m_refcnt m)).

(** [free(map)]: every part of the object leaves the memory. *)
Definition map_free (a : Z) : mm unit := λ s,
  if a =? NULL then Ok (tt, s) else
  Ok (tt, MapsSt (RbState (delete a (rb_mem (ms_rb s))) (rb_root_node (ms_rb s)))
            (delete (map_node a) (ms_list s)) (delete a (ms_map s)) (ms_dso s) (ms_head s)).

(** ** map.h *)

Definition map_ip (m : map) (ip : Z) : Z := w64 (w64 (ip - m_start m) + m_pgoff m).
Definition unmap_ip (m : map) (ip : Z) : Z := w64 (w64 (ip + m_start m) - m_pgoff m).

(** ** References (map.h:59-64, map.c:48-69) *)

Definition map__get (map : Z) : mm Z :=
  if map =? NULL then mret map else
  m ← map_load map;
  map_set_refcnt map (refcount_inc (m_refcnt m));;
  mret map.

(** [__dso__zput] on the field [map->dso]. *)
Definition __dso__zput (map : Z) : mm unit :=
  m ← map_load map;
  dso__put (m_dso m);;
  map_set_dso map NULL.

(** [assert(RB_EMPTY_NODE(...)); dso__zput(map->dso)] *)
Definition map__exit (map : Z) : mm unit :=
  e ← lift (RB_EMPTY_NODE map);
  c_assert e;;
  __dso__zput map.

Definition map__delete (map : Z) : mm unit :=
  map__exit map;; map_free map.

Definition map__put (map : Z) : mm unit :=
  if map =? NULL then mret tt else
  m ← map_load map;
  let '(r, last) := refcount_dec_and_test (m_refcnt m) in
  map_set_refcnt map r;;
  if (last : bool) then
    lift (list_del_init (map_node map));;
    map__delete map
  else mret tt.

(** ** map__init (map.c:9-27), on an object of uninitialised memory *)
Definition map__init (map : Z) (event : mmap2_event) (dso : Z) : mm unit :=
  map_store map (λ m, Map
    (ev_start event) (w64 (ev_start event + ev_len event))
    (ev_prot event) (ev_flags event) (ev_pgoff event) 0
    (ev_maj event) (ev_min event) (ev_ino event) (ev_ino_generation event)
    (m_dso m) (m_refcnt m));;
  d ← dso__get dso;
  map_set_dso map d;;
  lift (RB_CLEAR_NODE map);;
  lift (INIT_LIST_HEAD (map_node map));;
  map_set_refcnt map (refcount_set 1).

(** ** The set of maps (map.c:71-196) *)

Section maps.
Variable lock : pthread_rwlock maps_st.

Definition maps__init : mm unit :=
  lift (set_root NULL);;
  head ← c_get ms_head;
  lift (INIT_LIST_HEAD head);;
  init_rwsem lock;;
  mret tt.

Definition map__next (map : Z) : mm Z := lift (rb_next map).

Definition maps__first : mm Z := lift rb_first.

Definition maps__empty : mm bool :=
  f ← maps__first; mret (if negb (f =? NULL) then false else true).

(** The loop of maps__find: [goto out] with the map the body found. *)
Definition find_visit (ip cur : Z) : mm (turn Z) :=
  m ← map_load cur;
  mret (if ip <? m_start m then GoLeft
        else if m_end m <=? ip then GoRight
        else Stop cur).

Definition maps__find (ip : Z) : mm Z :=
  down_read lock;;
  r ← rb_search (find_visit ip);
  let m := match r with inl m => m | inr _ => NULL end in
  up_read lock;;
  mret m.

Definition insert_visit (ip cur : Z) : mm (turn Empty_set) :=
  m ← map_load cur;
  mret (if ip <? m_start m then GoLeft else GoRight).

Definition __maps__insert (map : Z) : mm unit :=
  m ← map_load map;
  let ip := m_start m in
  r ← rb_search (insert_visit ip);
  match (r : Empty_set + Z * rb_slot) with
  | inl e => match (e : Empty_set) with end
  | inr (parent, p) =>
    lift (rb_link_node map parent p);;
    lift (rb_insert_color map);;
    head ← c_get ms_head;
    lift (list_add_tail (map_node map) head);;
    map__get map;;
    mret tt
  end.

Definition maps__insert (map : Z) : mm unit :=
  down_write lock;;
  __maps__insert map;;
  up_write lock;;
  mret tt.

(** The [while (next)] of __maps__purge. *)
Fixpoint purge_loop (fuel : nat) (next : Z) : mm unit :=
  match fuel with
  | O => c_nofuel
  | S fuel =>
    if next =? NULL then mret tt else
    let pos := next in
    next ← lift (rb_next pos);
    lift (rb_erase_init pos);;
    map__put pos;;
    purge_loop fuel next
  end.

Definition __maps__purge : mm unit := λ s,
  (next ← lift rb_first; purge_loop (rb_fuel (ms_rb s)) next) s.

Definition maps__exit : mm unit :=
  down_write lock;; __maps__purge;; up_write lock;; mret tt.
End maps.

(** ** The contents of a set of maps *)

Definition start_of (M : gmap Z map) (a : Z) : Z := from_option m_start 0 (M !! a).
Definition end_of (M : gmap Z map) (a : Z) : Z := from_option m_end 0 (M !! a).

(** The range test of maps__find and the search it stands for: the first map
    of a sequence whose range holds [ip]. *)
Definition holds (M : gmap Z map) (ip a : Z) : bool :=
  (start_of M a <=? ip) && (ip <? end_of M a).
Fixpoint find_map (M : gmap Z map) (ip : Z) (l : list Z) : Z :=
  match l with
  | [] => NULL
  | a :: l => if holds M ip a then a else find_map M ip l
  end.

(** [l] are the maps in the tree, in tree order, and [xs] those in the list,
    in list order. *)
Record maps_inv (s : maps_st) (l xs : list Z) : Prop := {
  mi_tree : ∃ t, represents (ms_rb s) t ∧ redblack t ∧ inorder t = l;
  mi_live : ∀ a, a ∈ l → is_Some (ms_map s !! a);
  mi_list : is_list (ms_list s) (ms_head s) (map_node <$> xs);
}.

(** Ranges are ordered and do not overlap. *)
Definition disjoint_maps (M : gmap Z map) (l : list Z) : Prop :=
  StronglySorted (λ a b, end_of M a ≤ start_of M b) l ∧
  ∀ a, a ∈ l → start_of M a ≤ end_of M a.

(** The order __maps__insert keeps. *)
Definition sorted_maps (M : gmap Z map) (l : list Z) : Prop :=
  StronglySorted (λ a b, start_of M a ≤ start_of M b) l.

Lemma disjoint_sorted M l : disjoint_maps M l → sorted_maps M l.
Proof.
  intros [Hs Hle]. unfold sorted_maps. induction Hs as [|a l Hs IH Hf]; constructor.
  - apply IH. set_solver.
  - rewrite Forall_forall in *. intros x Hx. specialize (Hf x Hx). simpl in *.
    assert (start_of M a ≤ end_of M a) by (apply Hle; left). lia.
Qed.

Lemma find_map_none M ip l : (∀ a, a ∈ l → holds M ip a = false) → find_map M ip l = NULL.
Proof.
  induction l as [|a l IH]; intros H; simpl; [done|].
  rewrite H by left. apply IH. intros b Hb. apply H. by right.
Qed.

Lemma find_map_some M ip l a :
  disjoint_maps M l → a ∈ l → holds M ip a = true → find_map M ip l = a.
Proof.
  intros [Hs Hle] Ha Hh. induction Hs as [|b l Hs IH Hf]; [set_solver|]. simpl.
  apply elem_of_cons in Ha as [->|Ha]; [by rewrite Hh|].
  rewrite Forall_forall in Hf. specialize (Hf a Ha). simpl in Hf.
  unfold holds in *. destruct (start_of M b <=? ip) eqn:E1, (ip <? end_of M b) eqn:E2; simpl.
  - lia.
  - apply IH; [set_solver|done].
  - apply IH; [set_solver|done].
  - apply IH; [set_solver|done].
Qed.

(** ** maps__find *)

Definition find_dir (M : gmap Z map) (ip a : Z) : turn Z :=
  if ip <? start_of M a then GoLeft else if end_of M a <=? ip then GoRight else Stop a.

Section rules.
Context (s : maps_st).

Lemma wp_map_load a m Q : a ≠ NULL → ms_map s !! a = Some m → Q m s → wp (map_load a) Q s.
Proof.
  intros Ha Hm HQ. apply (wp_lift_pure _ (λ v, v = m)); [by eapply wp_obj_load|by intros v ->].
Qed.

Lemma find_visit_wp ip a :
  a ≠ NULL → is_Some (ms_map s !! a) →
  wp (find_visit ip a) (λ v s', v = find_dir (ms_map s) ip a ∧ s' = s) s.
Proof.
  intros Ha [m Hm]. apply wp_bind. eapply wp_map_load; [done..|]. apply wp_ret.
  unfold find_dir, start_of, end_of. by rewrite Hm.
Qed.

Definition insert_dir (M : gmap Z map) (ip a : Z) : turn Empty_set :=
  if ip <? start_of M a then GoLeft else GoRight.

Lemma insert_visit_wp ip a :
  a ≠ NULL → is_Some (ms_map s !! a) →
  wp (insert_visit ip a) (λ v s', v = insert_dir (ms_map s) ip a ∧ s' = s) s.
Proof.
  intros Ha [m Hm]. apply wp_bind. eapply wp_map_load; [done..|]. apply wp_ret.
  unfold insert_dir, start_of. by rewrite Hm.
Qed.
End rules.

Lemma find_dir_mono M ip l : disjoint_maps M l → mono (find_dir M ip) l.
Proof.
  intros [Hs Hle]. eapply sorted_mono; [exact Hs|..]; unfold find_dir; intros x y Hx Hy HR.
  all: pose proof (Hle x Hx); pose proof (Hle y Hy).
  all: repeat case_match; try done; lia.
Qed.

Lemma maps_find_wp lock ip s l xs :
  maps_inv s l xs → disjoint_maps (ms_map s) l →
  wp (maps__find lock ip) (λ v s', v = find_map (ms_map s) ip l ∧ s' = s) s.
Proof.
  intros [(t & Ht & Hrb & <-) Hlive _] Hd. unfold maps__find, down_read, up_read. simpl.
  apply wp_bind, wp_ret, wp_bind. eapply wp_mono.
  { apply (rb_search_wp _ (find_dir (ms_map s) ip) s t); [done|].
    intros a Ha. apply find_visit_wp; [by eapply represents_nonnull|auto]. }
  intros r s' [-> ->]. apply wp_bind, wp_ret, wp_ret. split; [|done].
  destruct (descend (find_dir (ms_map s) ip) t []) as [v|k'] eqn:Hdesc; simpl.
  - apply descend_stop in Hdesc as (a & Ha & Hdir). symmetry.
    unfold find_dir in Hdir. repeat case_match; simplify_eq.
    apply find_map_some; [done..|]. unfold holds. lia.
  - apply descend_none in Hdesc as (Hl & HR & HL); [|by apply find_dir_mono].
    symmetry. apply find_map_none. intros a. rewrite Hl, elem_of_app.
    rewrite Forall_forall in HR, HL. unfold holds.
    intros [Ha|Ha]; [apply HR in Ha|apply HL in Ha]; unfold find_dir in Ha;
      repeat case_match; simplify_eq; lia.
Qed.

(** ** maps__insert *)

(** A live map that is in no set yet. *)
Record fresh_map (s : maps_st) (l xs : list Z) (a : Z) (m : map) : Prop := {
  fm_ok : node_ok a;
  fm_rb : is_Some (rb_mem (ms_rb s) !! a);
  fm_node : is_Some (nx (ms_list s) (map_node a));
  fm_map : ms_map s !! a = Some m;
  fm_tree : a ∉ l;
  fm_list : a ∉ xs;
  fm_head : map_node a ≠ ms_head s;
}.

Definition with_refcnt (m : map) (r : Z) : map :=
  Map (m_start m) (m_end m) (m_prot m) (m_flags m) (m_pgoff m) (m_reloc m)
    (m_maj m) (m_min m) (m_ino m) (m_ino_generation m) (m_dso m) r.

Lemma map_node_ne a x : map_node a = map_node x → a = x.
Proof. unfold map_node. lia. Qed.
Lemma map_node_nz a : node_ok a → map_node a ≠ 0.
Proof. intros [_ [[? ?] _]]. unfold map_node. lia. Qed.
Lemma map_node_not_in a (xs : list Z) : a ∉ xs → map_node a ∉ map_node <$> xs.
Proof. intros Ha (x & ->%map_node_ne & Hx)%list_elem_of_fmap. done. Qed.

Lemma wp_map_get a m s Q :
  a ≠ NULL → ms_map s !! a = Some m →
  Q a (with_part (<[a := with_refcnt m (refcount_inc (m_refcnt m))]> (ms_map s)) s) →
  wp (map__get a) Q s.
Proof.
  intros Ha Hm HQ. unfold map__get. rewrite (proj2 (Z.eqb_neq _ _) Ha).
  apply wp_bind. eapply wp_map_load; [done..|]. apply wp_bind, wp_lift.
  by eapply wp_obj_store.
Qed.

Lemma insert_dir_mono M ip l : sorted_maps M l → mono (insert_dir M ip) l.
Proof.
  intros Hs. eapply sorted_mono; [exact Hs|..]; unfold insert_dir; intros x y _ _ HR.
  all: repeat case_match; try done; lia.
Qed.

Lemma sorted_insert M a m l1 l2 :
  sorted_maps M (l1 ++ l2) → a ∉ l1 ++ l2 →
  Forall (λ x, start_of M x ≤ m_start m) l1 → Forall (λ x, m_start m < start_of M x) l2 →
  sorted_maps (<[a := m]> M) (l1 ++ a :: l2).
Proof.
  intros Hs Ha H1 H2. rewrite Forall_forall in H1, H2.
  assert (∀ x, x ∈ l1 ++ l2 → start_of (<[a:=m]> M) x = start_of M x) as Hx.
  { intros x Hx. unfold start_of. rewrite lookup_insert_ne; [done|]. intros ->. done. }
  assert (start_of (<[a:=m]> M) a = m_start m) as Hxa.
  { unfold start_of. by rewrite lookup_insert_eq. }
  apply sorted_mid.
  - eapply sorted_impl; [|exact Hs]. intros x y Hx1 Hy. by rewrite !Hx.
  - apply Forall_forall. intros x Hx1. rewrite Hxa, Hx by set_solver. by apply H1.
  - apply Forall_forall. intros x Hx2. rewrite Hxa, Hx by set_solver.
    specialize (H2 x Hx2). simpl in H2. lia.
Qed.

Lemma maps_insert_wp lock a m s l xs :
  maps_inv s l xs → sorted_maps (ms_map s) l → fresh_map s l xs a m →
  wp (maps__insert lock a)
     (λ _ s', ∃ l1 l2, l = l1 ++ l2 ∧ maps_inv s' (l1 ++ a :: l2) (xs ++ [a]) ∧
        Forall (λ x, start_of (ms_map s) x ≤ m_start m) l1 ∧
        Forall (λ x, m_start m < start_of (ms_map s) x) l2 ∧
        ms_map s' = <[a := with_refcnt m (refcount_inc (m_refcnt m))]> (ms_map s) ∧
        ms_dso s' = ms_dso s ∧ ms_head s' = ms_head s ∧
        (∀ x, x ∉ a :: l → rb_mem (ms_rb s') !! x = rb_mem (ms_rb s) !! x) ∧
        (∀ x, x ∉ map_node a :: ms_head s :: (map_node <$> xs) →
           ms_list s' !! x = ms_list s !! x)) s.
Proof.
  intros [(t & Ht & Hrb & <-) Hlive Hlist] Hsort [Hok Hrbm Hnode Hm Hnt Hnl Hnh].
  pose proof Hok as [Hnz _].
  unfold maps__insert, down_write, up_write. simpl.
  apply wp_bind, wp_ret, wp_bind. unfold __maps__insert.
  apply wp_bind. eapply wp_map_load; [done..|]. apply wp_bind. eapply wp_mono.
  { apply (rb_search_wp _ (insert_dir (ms_map s) (m_start m)) s t); [done|].
    intros b Hb. apply insert_visit_wp; [by eapply represents_nonnull|auto]. }
  intros r s' [-> ->].
  destruct (descend (insert_dir (ms_map s) (m_start m)) t []) as [[]|k'] eqn:Hdesc. simpl.
  pose proof (insert_at_hole_wp _ a s t k' Ht Hrb Hdesc Hok Hrbm Hnt) as Hins.
  apply descend_none in Hdesc as (Hl & HR & HL); [|by apply insert_dir_mono].
  apply wp_assoc, wp_bind. eapply wp_mono; [exact Hins|].
  intros [] s1 (t' & r' & -> & Ht' & Hrb' & Hord & Hfr).
  apply wp_bind, wp_bind, wp_lift. eapply wp_mono.
  { apply (list_add_tail_wp _ _ (map_node <$> xs)); [done|done| |by apply map_node_nz].
    apply not_elem_of_cons. split; [done|by apply map_node_not_in]. }
  intros [] L' (HL' & HLf & _). apply wp_bind. eapply wp_map_get; [done|exact Hm|].
  apply wp_ret, wp_bind, wp_ret, wp_ret. simpl.
  exists (lefts k'), (rights k'). split_and!; try done.
  - split; simpl.
    + by exists t'.
    + intros x Hx. destruct (decide (x = a)) as [->|Hne].
      * rewrite lookup_insert_eq. by eexists.
      * rewrite lookup_insert_ne by done. apply Hlive. rewrite Hl. set_solver.
    + by rewrite fmap_app.
  - eapply Forall_impl; [exact HR|]. intros x. unfold insert_dir. case_match; [done|lia].
  - eapply Forall_impl; [exact HL|]. intros x. unfold insert_dir. case_match; [lia|done].
Qed.

(** ** map__put *)

Lemma wp_map_store a f m s Q :
  a ≠ NULL → ms_map s !! a = Some m → Q tt (with_part (<[a := f m]> (ms_map s)) s) →
  wp (map_store a f) Q s.
Proof. intros. apply wp_lift. by eapply wp_obj_store. Qed.

(** A reference that is not the last. *)
Lemma map_put_more_wp a m s :
  a ≠ NULL → ms_map s !! a = Some m → 2 ≤ m_refcnt m < 2 ^ 32 →
  wp (map__put a)
     (λ _ s', s' = with_part (<[a := with_refcnt m (m_refcnt m - 1)]> (ms_map s)) s) s.
Proof.
  intros Ha Hm Hr. unfold map__put. rewrite (proj2 (Z.eqb_neq _ _) Ha).
  apply wp_bind. eapply wp_map_load; [done..|]. simpl.
  apply wp_bind. eapply wp_map_store; [done..|]. rewrite w32_dec by lia.
  unfold refcount_test. rewrite (proj2 (Z.eqb_neq _ _)) by lia. by apply wp_ret.
Qed.

(** The last reference of a map that is out of the tree: it leaves the list
    and every part of it is freed. *)
Lemma map_put_last_wp a m v s l1 l2 :
  node_ok a → ms_map s !! a = Some m → m_refcnt m = 1 →
  rb_mem (ms_rb s) !! a = Some v → rb_parent_color v = a →
  m_dso m = NULL ∨ is_Some (ms_dso s !! m_dso m) →
  is_list (ms_list s) (ms_head s) (map_node <$> l1 ++ a :: l2) →
  wp (map__put a)
     (λ _ s', ms_rb s' = RbState (delete a (rb_mem (ms_rb s))) (rb_root_node (ms_rb s)) ∧
        is_list (ms_list s') (ms_head s) (map_node <$> l1 ++ l2) ∧
        ms_map s' = delete a (ms_map s) ∧ ms_dso s' = drop_dso (m_dso m) (ms_dso s) ∧
        ms_head s' = ms_head s ∧
        (∀ x, x ∉ ms_head s :: (map_node <$> l1 ++ a :: l2) →
           ms_list s' !! x = ms_list s !! x)) s.
Proof.
  intros [Ha Hal] Hm Hr Hv Hpc Hd Hl. unfold map__put. rewrite (proj2 (Z.eqb_neq _ _) Ha).
  apply wp_bind. eapply wp_map_load; [done..|]. simpl.
  apply wp_bind. eapply wp_map_store; [done..|]. rewrite Hr. simpl.
  apply wp_bind, wp_lift. rewrite fmap_app in Hl. simpl in Hl.
  eapply wp_mono; [by apply (list_del_init_wp (ms_head s))|].
  intros [] L ((HL & HLf & _) & _). simpl.
  apply wp_bind. unfold map__exit. apply wp_bind.
  apply (wp_lift_pure _ (λ b, b = true)).
  { simpl. destruct (ms_rb s) as [mem root]. simpl in Hv. unfold RB_EMPTY_NODE.
    apply wp_bind. eapply wp_get_pc; [done..|]. apply wp_ret. by rewrite Hpc, Z.eqb_refl. }
  intros b ->. apply wp_bind, wp_assert; [done|].
  unfold __dso__zput. apply wp_bind. eapply wp_map_load; [done|by simpl; lk|]. simpl.
  apply wp_bind. apply wp_dso_put; [done|]. simpl.
  eapply wp_map_store; [done|by simpl; lk|]. simpl.
  unfold wp, map_free. rewrite (proj2 (Z.eqb_neq _ _) Ha). simpl.
  split_and!; try done.
  - eapply is_list_agree; [|rewrite fmap_app; exact HL]. intros x Hx.
    rewrite lookup_delete_ne; [done|]. intros <-. destruct Hl as (_ & Hn & _).
    rewrite fmap_app in Hx. nodup_simp. set_solver.
  - rewrite !insert_insert_eq. by rewrite delete_insert_eq.
  - intros x Hx. rewrite lookup_delete_ne.
    + apply HLf. by rewrite fmap_app in Hx.
    + intros <-. apply Hx. right. rewrite fmap_app, elem_of_app, fmap_cons, elem_of_cons. auto.
Qed.

(** ** __maps__purge *)

Definition refcnt_of (M : gmap Z map) (a : Z) : Z := from_option m_refcnt 0 (M !! a).

(** What the purge of the maps [l] leaves of one map, of the list, and of the
    dsos' counts. *)
Definition purged_map (l : list Z) (a : Z) (m : option map) : option map :=
  if decide (a ∈ l)
  then m ≫= λ m, if m_refcnt m =? 1 then None else Some (with_refcnt m (m_refcnt m - 1))
  else m.
Definition kept (M : gmap Z map) (l xs : list Z) : list Z :=
  filter (λ a, a ∉ l ∨ refcnt_of M a ≠ 1) xs.
Fixpoint purged_dsos (M : gmap Z map) (l : list Z) (D : gmap Z Z) : gmap Z Z :=
  match l with
  | [] => D
  | a :: l =>
    purged_dsos M l
      (match M !! a with
       | Some m => if m_refcnt m =? 1 then drop_dso (m_dso m) D else D
       | None => D
       end)
  end.

(** What the purge relies on: every map of the tree is in the list, holds a
    reference for the tree, and points to a live dso. *)
Definition purgeable (s : maps_st) (l xs : list Z) : Prop :=
  maps_inv s l xs ∧ (∀ a, a ∈ l → a ∈ xs) ∧
  ∀ a, a ∈ l → node_ok a ∧ ∃ m, ms_map s !! a = Some m ∧ 1 ≤ m_refcnt m < 2 ^ 32 ∧
    (m_dso m = NULL ∨ is_Some (ms_dso s !! m_dso m)).

Lemma purged_dsos_agree M M' l D :
  (∀ a, a ∈ l → M' !! a = M !! a) → purged_dsos M' l D = purged_dsos M l D.
Proof.
  revert D. induction l as [|a l IH]; intros D HM; simpl; [done|].
  rewrite (HM a) by left. apply IH. intros b Hb. apply HM. by right.
Qed.

Definition purge_post (s : maps_st) (l xs : list Z) (s' : maps_st) : Prop :=
  maps_inv s' [] (kept (ms_map s) l xs) ∧
  (∀ a, ms_map s' !! a = purged_map l a (ms_map s !! a)) ∧
  ms_dso s' = purged_dsos (ms_map s) l (ms_dso s) ∧ ms_head s' = ms_head s ∧
  (∀ x, x ∉ l → rb_mem (ms_rb s') !! x = rb_mem (ms_rb s) !! x) ∧
  (∀ x, x ∉ ms_head s :: (map_node <$> xs) → ms_list s' !! x = ms_list s !! x).

(** Removing the first map of the tree is one step of the whole. *)
Lemma purge_post_step s s1 a l xs xs1 s' m :
  a ∉ l → ms_map s !! a = Some m →
  (∀ x, x ≠ a → ms_map s1 !! x = ms_map s !! x) →
  ms_map s1 !! a = purged_map [a] a (Some m) →
  ms_dso s1 = (if m_refcnt m =? 1 then drop_dso (m_dso m) (ms_dso s) else ms_dso s) →
  ms_head s1 = ms_head s → xs1 = kept (ms_map s) [a] xs →
  (∀ x, x ∉ a :: l → rb_mem (ms_rb s1) !! x = rb_mem (ms_rb s) !! x) →
  (∀ x, x ∉ ms_head s :: (map_node <$> xs) → ms_list s1 !! x = ms_list s !! x) →
  purge_post s1 l xs1 s' → purge_post s (a :: l) xs s'.
Proof.
  intros Ha Hm Hne Heq Hd Hh -> Hfr Hfl (Hinv & HM & HD & Hh' & Hfr' & Hfl').
  assert (∀ x, x ∈ l → ms_map s1 !! x = ms_map s !! x) as Hl.
  { intros x Hx. apply Hne. by intros ->. }
  split_and!.
  - replace (kept (ms_map s) (a :: l) xs) with
      (kept (ms_map s1) l (kept (ms_map s) [a] xs)); [done|].
    unfold kept. rewrite list_filter_filter. apply list_filter_iff. intros x.
    destruct (decide (x = a)) as [->|Hxa].
    + set_solver.
    + unfold refcnt_of. rewrite Hne by done. set_solver.
  - intros x. rewrite HM. unfold purged_map in *.
    destruct (decide (x = a)) as [->|Hxa].
    + rewrite decide_False, decide_True by (done || set_solver).
      rewrite Heq, Hm, decide_True by set_solver. done.
    + rewrite Hne by done. destruct (decide (x ∈ l)).
      * by rewrite decide_True by set_solver.
      * by rewrite decide_False by set_solver.
  - rewrite HD, Hd. simpl. rewrite Hm. by apply purged_dsos_agree.
  - by rewrite Hh'.
  - intros x Hx. rewrite Hfr' by set_solver. by apply Hfr.
  - intros x Hx. rewrite Hfl'; [by apply Hfl|]. rewrite Hh. intros Hx'. apply Hx.
    apply elem_of_cons in Hx' as [->|(y & -> & Hy)%list_elem_of_fmap]; [left|]. right.
    apply list_elem_of_filter in Hy as [_ Hy]. by apply list_elem_of_fmap_2.
Qed.

Lemma kept_last M a l1 l2 :
  refcnt_of M a = 1 → NoDup (l1 ++ a :: l2) → kept M [a] (l1 ++ a :: l2) = l1 ++ l2.
Proof.
  intros Hr Hn. unfold kept. rewrite filter_app, filter_cons_False by set_solver.
  apply NoDup_app in Hn as (_ & H1 & H2). apply NoDup_cons in H2 as [H2 _].
  f_equal; apply filter_all; intros x Hx; left; intros ->%list_elem_of_singleton.
  - apply (H1 a Hx). left.
  - done.
Qed.

Lemma kept_more M a xs : refcnt_of M a ≠ 1 → kept M [a] xs = xs.
Proof.
  intros Hr. apply filter_all. intros x _.
  destruct (decide (x = a)) as [->|]; [by right|left; set_solver].
Qed.

Lemma purgeable_keep s1 s a l xs :
  maps_inv s1 l (kept (ms_map s) [a] xs) → purgeable s (a :: l) xs → a ∉ l →
  (∀ x, x ≠ a → ms_map s1 !! x = ms_map s !! x) →
  (∀ x, is_Some (ms_dso s !! x) → is_Some (ms_dso s1 !! x)) →
  purgeable s1 l (kept (ms_map s) [a] xs).
Proof.
  intros Hinv (_ & Hsub & Hl) Ha Hne Hd. split_and!; [done| |].
  - intros x Hx. apply list_elem_of_filter. split; [left; set_solver|]. apply Hsub. by right.
  - intros x Hx. destruct (Hl x ltac:(by right)) as (Hok & m & Hm & Hr & Hdso).
    split; [done|]. exists m. rewrite Hne by (by intros ->). naive_solver.
Qed.

Lemma NoDup_map_node (xs : list Z) : NoDup (map_node <$> xs) → NoDup xs.
Proof. apply NoDup_fmap_1. Qed.

Lemma purge_step_wp s a l xs :
  purgeable s (a :: l) xs →
  wp (lift (rb_erase_init a);; map__put a)
     (λ _ s1, purgeable s1 l (kept (ms_map s) [a] xs) ∧
        ∀ s', purge_post s1 l (kept (ms_map s) [a] xs) s' → purge_post s (a :: l) xs s') s.
Proof.
  intros Hp. pose proof Hp as ([(t & Ht & Hrb & Hord) Hlive Hlist] & Hsub & Hl).
  destruct (Hl a ltac:(left)) as (Hok & m & Hm & Hr & Hdso).
  assert (a ∉ l) as Hal.
  { destruct Ht as (_ & _ & Hn). rewrite Hord in Hn. by apply NoDup_cons in Hn as [? _]. }
  apply wp_bind, wp_lift. eapply wp_mono; [by apply (rb_erase_init_wp a _ t [] l)|].
  intros [] r1 (t' & v & Ht' & Hrb' & Hord' & Hfr & Hv & Hpc). simpl in Hord', Hfr.
  destruct (decide (m_refcnt m = 1)) as [Hr1|Hr1].
  - destruct (list_elem_of_split xs a) as (l1 & l2 & ->); [apply Hsub; left|].
    assert (NoDup (l1 ++ a :: l2)) as Hn.
    { destruct Hlist as (_ & Hn & _). apply NoDup_cons in Hn as [_ Hn].
      by apply NoDup_map_node. }
    assert (refcnt_of (ms_map s) a = 1) as Hra by (unfold refcnt_of; by rewrite Hm).
    pose proof (kept_last (ms_map s) a l1 l2 Hra Hn) as Hk.
    eapply wp_mono; [by apply (map_put_last_wp a m v _ l1 l2)|]. simpl.
    intros [] s1 (Hrb1 & Hl1 & Hm1 & Hd1 & Hh1 & Hfl1).
    assert (∀ x, x ≠ a → ms_map s1 !! x = ms_map s !! x) as Hne.
    { intros x Hx. by rewrite Hm1, lookup_delete_ne. }
    split.
    + eapply purgeable_keep; [|done..|]; [|intros x; rewrite Hd1; apply drop_dso_live].
      rewrite Hk. split.
      * exists t'. split_and!; [|done|done]. rewrite Hrb1.
        destruct Ht' as (Ht1 & Ht2 & Ht3). split_and!; [|done|done].
        eapply (rep_agree _ _ _ _ [a]); [|rewrite Hord'; autorewrite with nodup; done|exact Ht1].
        intros x Hx. simpl. rewrite lookup_delete_ne; [done|]. set_solver.
      * intros x Hx. rewrite Hne by (by intros ->). apply Hlive. by right.
      * by rewrite Hh1.
    + intros s'. eapply purge_post_step; try done.
      * rewrite Hm1, lookup_delete_eq. unfold purged_map.
        rewrite decide_True by left. simpl. by rewrite Hr1.
      * by rewrite Hr1.
      * intros x Hx. rewrite Hrb1. simpl. rewrite lookup_delete_ne by set_solver. by apply Hfr.
  - eapply wp_mono; [apply (map_put_more_wp a m); [apply Hok|done|lia]|].
    intros [] s1 ->. simpl.
    assert (refcnt_of (ms_map s) a ≠ 1) as Hra by (unfold refcnt_of; by rewrite Hm).
    pose proof (kept_more (ms_map s) a xs Hra) as Hk.
    split.
    + eapply purgeable_keep; [|done..| |done].
      * rewrite Hk. split; simpl; [by exists t'| |done].
        intros x Hx. destruct (decide (x = a)) as [->|]; [done|].
        rewrite lookup_insert_ne by done. apply Hlive. by right.
      * intros x Hx. simpl. by rewrite lookup_insert_ne.
    + intros s'. eapply purge_post_step; try done; simpl.
      * intros x Hx. by rewrite lookup_insert_ne.
      * rewrite lookup_insert_eq. unfold purged_map. rewrite decide_True by left. simpl.
        by rewrite (proj2 (Z.eqb_neq _ _) Hr1).
      * by rewrite (proj2 (Z.eqb_neq _ _) Hr1).
Qed.

Lemma purge_post_nil s xs : maps_inv s [] xs → purge_post s [] xs s.
Proof.
  intros Hi. split_and!; [|done..].
  unfold kept. rewrite filter_all; [done|]. set_solver.
Qed.

Lemma purge_loop_wp fuel s l xs :
  purgeable s l xs → (length l < fuel)%nat →
  wp (purge_loop fuel (first_of l)) (λ _ s', purge_post s l xs s') s.
Proof.
  revert s l xs. induction fuel as [|fuel IH]; intros s l xs Hp Hf; [lia|].
  destruct l as [|a l]; [apply wp_ret, purge_post_nil, Hp|].
  pose proof Hp as ([(t & Ht & Hrb & Hord) _ _] & _ & Hl).
  destruct (Hl a ltac:(left)) as ([Ha _] & _).
  cbn [purge_loop]. change (first_of (a :: l)) with a.
  rewrite (proj2 (Z.eqb_neq _ _) Ha). apply wp_bind.
  apply (wp_lift_pure _ (λ v, v = first_of l)); [by apply (rb_next_at _ t [])|].
  intros v ->. apply wp_assoc, wp_bind. eapply wp_mono; [by apply purge_step_wp|].
  intros [] s1 [Hp1 Hpost]. simpl in Hf.
  eapply wp_mono; [apply (IH _ _ _ Hp1); lia|]. intros [] s'. apply Hpost.
Qed.

Lemma maps_purge_wp s l xs :
  purgeable s l xs → wp __maps__purge (λ _ s', purge_post s l xs s') s.
Proof.
  intros Hp. pose proof Hp as ([(t & Ht & Hrb & Hord) _ _] & _).
  change (wp (next ← lift rb_first; purge_loop (rb_fuel (ms_rb s)) next)
    (λ _ s', purge_post s l xs s') s).
  apply wp_bind, (wp_lift_pure _ (λ v, v = first_of l)).
  { rewrite <- Hord. by apply rb_first_wp. }
  intros v ->. apply purge_loop_wp; [done|].
  pose proof (represents_size _ _ Ht). rewrite Hord in H. unfold rb_fuel. lia.
Qed.
