(* ===== verification/MapsProps.v ===== *)
(** What map.c promises: the theorems on address translation, on initialising
    a map, and on finding, inserting and purging the maps of a thread group,
    with instances on a set of two maps. *)
From Stdlib Require Import ZArith Lia.
From stdpp Require Import base tactics option list numbers gmap sorting.
From S2P Require Import Prelude RbTree RbSpec RbRep RbIter RbSearch.
From S2P Require Import ListHead ListRep Refcount DsoRef Rwsem Maps.

Local Open Scope Z_scope.

(** ** A concrete set: maps 4096 and 8192 in the set, 12288 outside *)

Definition ex_map (start end_ pgoff dso refs : Z) : map :=
  Map start end_ 5 2 pgoff 0 8 1 41038 0 dso refs.
Definition ex_maps : maps_st :=
  MapsSt
    (RbState (<[4096 := RbNode 1 8192 0]> (<[8192 := RbNode 4096 0 0]>
      (<[12288 := RbNode 12288 0 0]> ∅))) 4096)
    (<[64 := ListHead 4120 8216]> (<[4120 := ListHead 8216 64]> (<[8216 := ListHead 64 4120]>
      (<[12312 := ListHead 12312 12312]> ∅))))
    (<[4096 := ex_map 100 200 0 512 1]> (<[8192 := ex_map 300 400 10 512 2]>
      (<[12288 := ex_map 200 300 0 512 1]> ∅)))
    (<[512 := 4]> ∅) 64.
Definition ex_maps_tree : tree := T Black E 4096 (T Red E 8192 E).

Lemma ex_maps_inv : maps_inv ex_maps [4096; 8192] [4096; 8192].
Proof.
  split.
  - exists ex_maps_tree. split_and!; [|exists 1%nat; apply (rb_B Black Red); repeat constructor|done].
    split_and!; [repeat split; done|done|].
    apply (bool_decide_unpack (NoDup (inorder ex_maps_tree))). by vm_compute.
  - intros a Ha. assert (bool_decide (Forall (λ a, is_Some (ms_map ex_maps !! a)) [4096; 8192])
      = true) as H by (by vm_compute).
    apply bool_decide_eq_true in H. rewrite Forall_forall in H. by apply H.
  - split_and!; [repeat split|..].
    + apply (bool_decide_unpack (NoDup [64; 4120; 8216])). by vm_compute.
    + apply (bool_decide_unpack (0 ∉ [64; 4120; 8216])). by vm_compute.
Qed.
Lemma ex_maps_disjoint : disjoint_maps (ms_map ex_maps) [4096; 8192].
Proof.
  split.
  - repeat constructor. by vm_compute.
  - intros a Ha. assert (bool_decide (Forall (λ a, start_of (ms_map ex_maps) a ≤
      end_of (ms_map ex_maps) a) [4096; 8192]) = true) as H by (by vm_compute).
    apply bool_decide_eq_true in H. rewrite Forall_forall in H. by apply H.
Qed.
Lemma ex_maps_fresh : fresh_map ex_maps [4096; 8192] [4096; 8192] 12288 (ex_map 200 300 0 512 1).
Proof.
  split; [repeat split; done|by eexists|by eexists|done|..|done].
  all: apply (bool_decide_unpack (12288 ∉ [4096; 8192])); by vm_compute.
Qed.
Lemma ex_maps_purgeable : purgeable ex_maps [4096; 8192] [4096; 8192].
Proof.
  split_and!; [apply ex_maps_inv|done|].
  intros a [->|[->|[]%elem_of_nil]%elem_of_cons]%elem_of_cons.
  all: split; [repeat split; done|eexists]; split_and!; [done|done|done|].
  all: right; by eexists.
Qed.
(** Any locks will do: the program never takes them. *)
Definition ex_lock : pthread_rwlock maps_st :=
  no_rwlock.

(** ** Lookup *)

(** C11. maps__find returns the map of the set whose range holds the address,
    and NULL when no range does: on ordered, non-overlapping maps it computes
    the same as a linear search of all of them, and it changes nothing. *)
Theorem maps_find_correct (lock : pthread_rwlock maps_st) (ip : Z) (s : maps_st) (l xs : list Z) :
  maps_inv s l xs → disjoint_maps (ms_map s) l →
  wp (maps__find lock ip) (λ v s', v = find_map (ms_map s) ip l ∧ s' = s) s.
Proof. apply maps_find_wp. Qed.

Lemma maps_find_correct_witness :
  wp (maps__find ex_lock 399) (λ v s', v = 8192 ∧ s' = ex_maps) ex_maps ∧
  wp (maps__find ex_lock 200) (λ v s', v = NULL ∧ s' = ex_maps) ex_maps.
Proof.
  split; [apply (maps_find_correct ex_lock 399 ex_maps [4096; 8192] [4096; 8192])
         |apply (maps_find_correct ex_lock 200 ex_maps [4096; 8192] [4096; 8192])];
    apply ex_maps_inv || apply ex_maps_disjoint.
Defined.

(** ** Insertion *)

(** C12. maps__insert puts the map after every map that starts no later and
    before every map that starts later, keeps the tree a red-black tree
    sorted by start, appends the map to the list and takes one reference. *)
Theorem maps_insert_correct (lock : pthread_rwlock maps_st) (a : Z) (m : map) (s : maps_st)
    (l xs : list Z) :
  maps_inv s l xs → sorted_maps (ms_map s) l → fresh_map s l xs a m →
  wp (maps__insert lock a)
     (λ _ s', ∃ l1 l2, l = l1 ++ l2 ∧
        Forall (λ x, start_of (ms_map s) x ≤ m_start m) l1 ∧
        Forall (λ x, m_start m < start_of (ms_map s) x) l2 ∧
        maps_inv s' (l1 ++ a :: l2) (xs ++ [a]) ∧ sorted_maps (ms_map s') (l1 ++ a :: l2) ∧
        ms_map s' = <[a := with_refcnt m (refcount_inc (m_refcnt m))]> (ms_map s)) s.
Proof.
  intros Hinv Hs Hf. eapply wp_mono; [by apply (maps_insert_wp lock a m s l xs)|].
  intros _ s' (l1 & l2 & -> & Hinv' & H1 & H2 & Hm & _ & _).
  exists l1, l2. split_and!; try done. rewrite Hm.
  apply sorted_insert; [done|apply Hf|done|done].
Qed.

Lemma maps_insert_correct_witness :
  wp (maps__insert ex_lock 12288)
     (λ _ s', ∃ l1 l2, [4096; 8192] = l1 ++ l2 ∧
        Forall (λ x, start_of (ms_map ex_maps) x ≤ 200) l1 ∧
        Forall (λ x, 200 < start_of (ms_map ex_maps) x) l2 ∧
        maps_inv s' (l1 ++ 12288 :: l2) [4096; 8192; 12288] ∧
        sorted_maps (ms_map s') (l1 ++ 12288 :: l2) ∧
        ms_map s' = <[12288 := ex_map 200 300 0 512 2]> (ms_map ex_maps)) ex_maps.
Proof.
  apply (maps_insert_correct ex_lock 12288 (ex_map 200 300 0 512 1) ex_maps
           [4096; 8192] [4096; 8192]);
    [apply ex_maps_inv|apply disjoint_sorted, ex_maps_disjoint|apply ex_maps_fresh].
Defined.

(** A new range that meets none of the others fits between its neighbours. *)
Lemma disjoint_insert M a m l1 l2 :
  disjoint_maps M (l1 ++ l2) → a ∉ l1 ++ l2 → m_start m < m_end m →
  (∀ x, x ∈ l1 ++ l2 → end_of M x ≤ m_start m ∨ m_end m ≤ start_of M x) →
  Forall (λ x, start_of M x ≤ m_start m) l1 → Forall (λ x, m_start m < start_of M x) l2 →
  disjoint_maps (<[a := m]> M) (l1 ++ a :: l2).
Proof.
  intros [Hs Hle] Ha Hm Hsep H1 H2. rewrite Forall_forall in H1, H2.
  assert (∀ x, x ∈ l1 ++ l2 → start_of (<[a:=m]> M) x = start_of M x ∧
    end_of (<[a:=m]> M) x = end_of M x) as Hx.
  { intros x Hx. unfold start_of, end_of. rewrite lookup_insert_ne; [done|]. by intros ->. }
  assert (start_of (<[a:=m]> M) a = m_start m ∧ end_of (<[a:=m]> M) a = m_end m) as [Hsa Hea].
  { unfold start_of, end_of. by rewrite lookup_insert_eq. }
  split.
  - apply sorted_mid.
    + eapply sorted_impl; [|exact Hs]. intros x y Hx1 Hy.
      by destruct (Hx x Hx1) as [_ ->], (Hx y Hy) as [-> _].
    + apply Forall_forall. intros x Hx1. rewrite Hsa.
      destruct (Hx x ltac:(set_solver)) as [_ ->]. specialize (H1 x Hx1). simpl in H1.
      destruct (Hsep x ltac:(set_solver)); [done|]. pose proof (Hle x ltac:(set_solver)). lia.
    + apply Forall_forall. intros y Hy. rewrite Hea.
      destruct (Hx y ltac:(set_solver)) as [-> _]. specialize (H2 y Hy). simpl in H2.
      destruct (Hsep y ltac:(set_solver)); [|done]. pose proof (Hle y ltac:(set_solver)). lia.
  - intros x Hxl. destruct (decide (x = a)) as [->|Hne]; [rewrite Hsa, Hea; lia|].
    destruct (Hx x ltac:(set_solver)) as [-> ->]. apply Hle. set_solver.
Qed.

Lemma find_map_insert M ip a m l1 l2 :
  disjoint_maps (<[a := m]> M) (l1 ++ a :: l2) → a ∉ l1 ++ l2 →
  find_map (<[a := m]> M) ip (l1 ++ a :: l2) =
    if (m_start m <=? ip) && (ip <? m_end m) then a else find_map M ip (l1 ++ l2).
Proof.
  intros Hd Ha.
  assert (∀ x, x ≠ a → holds (<[a:=m]> M) ip x = holds M ip x) as Hx.
  { intros x Hx. unfold holds, start_of, end_of. by rewrite lookup_insert_ne. }
  assert (holds (<[a:=m]> M) ip a = (m_start m <=? ip) && (ip <? m_end m)) as Hha.
  { unfold holds, start_of, end_of. by rewrite lookup_insert_eq. }
  destruct ((m_start m <=? ip) && (ip <? m_end m)) eqn:E.
  - apply find_map_some; [done|set_solver|done].
  - clear Hd. induction l1 as [|b l1 IH]; simpl.
    + rewrite Hha. simpl in Ha. clear -Ha Hx. induction l2 as [|c l2 IH]; simpl; [done|].
      rewrite Hx by set_solver. case_match; [done|]. apply IH. set_solver.
    + rewrite Hx by set_solver. case_match; [done|]. apply IH. set_solver.
Qed.

(** After a non-empty range that overlaps no other is inserted,
    maps__find answers the new map for the addresses of that range and for
    every other address what it answered before. *)
Theorem maps_insert_find (lock : pthread_rwlock maps_st) (a ip : Z) (m : map) (s : maps_st)
    (l xs : list Z) :
  maps_inv s l xs → disjoint_maps (ms_map s) l → fresh_map s l xs a m →
  m_start m < m_end m →
  (∀ x, x ∈ l → end_of (ms_map s) x ≤ m_start m ∨ m_end m ≤ start_of (ms_map s) x) →
  wp (maps__insert lock a;; maps__find lock ip)
     (λ v s', v = if (m_start m <=? ip) && (ip <? m_end m) then a
                  else find_map (ms_map s) ip l) s.
Proof.
  intros Hinv Hd Hf Hne Hsep. pose proof (fm_tree _ _ _ _ _ Hf) as Ha. apply wp_bind.
  eapply wp_mono; [apply (maps_insert_wp lock a m s l xs);
    [done|by apply disjoint_sorted|done]|].
  intros _ s' (l1 & l2 & -> & Hinv' & H1 & H2 & Hm & _ & _).
  assert (disjoint_maps (ms_map s') (l1 ++ a :: l2)) as Hd'.
  { rewrite Hm. by apply disjoint_insert. }
  eapply wp_mono; [by apply (maps_find_wp lock ip s' (l1 ++ a :: l2) (xs ++ [a]))|].
  intros v s'' [-> _]. rewrite Hm in Hd' |- *.
  exact (find_map_insert _ ip a (with_refcnt m _) l1 l2 Hd' Ha).
Qed.

Lemma maps_insert_find_witness :
  wp (maps__insert ex_lock 12288;; maps__find ex_lock 250) (λ v s', v = 12288) ex_maps.
Proof.
  apply (maps_insert_find ex_lock 12288 250 (ex_map 200 300 0 512 1) ex_maps
           [4096; 8192] [4096; 8192]);
    [apply ex_maps_inv|apply ex_maps_disjoint|apply ex_maps_fresh|done|].
  intros x [->|[->|[]%elem_of_nil]%elem_of_cons]%elem_of_cons; [left|right]; by vm_compute.
Defined.

(** ** Purge *)

(** C13. __maps__purge terminates with an empty tree; it drops exactly one
    reference of every map of the tree, and a map whose count reaches zero
    leaves the list, gives its dso reference back and is freed, while a map
    with other references stays alive and listed. *)
Theorem maps_purge_correct (s : maps_st) (l xs : list Z) :
  purgeable s l xs →
  wp __maps__purge
     (λ _ s', maps_inv s' [] (kept (ms_map s) l xs) ∧
        (∀ a, ms_map s' !! a = purged_map l a (ms_map s !! a)) ∧
        ms_dso s' = purged_dsos (ms_map s) l (ms_dso s)) s.
Proof.
  intros Hp. eapply wp_mono; [by apply maps_purge_wp|].
  intros _ s' (? & ? & ? & _). done.
Qed.

Lemma maps_purge_correct_witness :
  wp __maps__purge
     (λ _ s', maps_inv s' [] [8192] ∧
        (∀ a, ms_map s' !! a = purged_map [4096; 8192] a (ms_map ex_maps !! a)) ∧
        ms_dso s' = <[512 := 3]> ∅) ex_maps.
Proof. apply (maps_purge_correct ex_maps [4096; 8192] [4096; 8192]), ex_maps_purgeable. Defined.

(** ** Translation and initialisation *)

(** map_ip and unmap_ip are inverse to each other on all 64-bit
    addresses, wrap-around included, and map_ip takes the start of the map to
    its file offset. *)
Theorem map_ip_roundtrip (m : map) (ip : Z) :
  is_u64 ip → is_u64 (m_pgoff m) →
  unmap_ip m (map_ip m ip) = ip ∧ map_ip m (unmap_ip m ip) = ip ∧
  map_ip m (m_start m) = m_pgoff m.
Proof.
  unfold is_u64, map_ip, unmap_ip, w64. change (2 ^ 64) with 18446744073709551616.
  intros Hip Hpg. split_and!; [| |rewrite Z.sub_diag; by apply Z.mod_small].
  all: Z.div_mod_to_equations; lia.
Qed.

Lemma map_ip_roundtrip_witness :
  unmap_ip (ex_map 300 400 10 0 1) (map_ip (ex_map 300 400 10 0 1) 0) = 0 ∧
  map_ip (ex_map 300 400 10 0 1) (unmap_ip (ex_map 300 400 10 0 1) 0) = 0 ∧
  map_ip (ex_map 300 400 10 0 1) 300 = 10.
Proof. apply (map_ip_roundtrip (ex_map 300 400 10 0 1) 0); split; done. Defined.

(** map__init fills a raw object with the event's range (its end wrapping
    at 64 bits), one reference and one new reference to the dso; the object is
    then in no tree (RB_EMPTY_NODE) and its list node is an empty ring. *)
Theorem map_init_correct (a dso r : Z) (ev : mmap2_event) (m0 : map) (s : maps_st) :
  node_ok a → is_Some (rb_mem (ms_rb s) !! a) → is_Some (nx (ms_list s) (map_node a)) →
  ms_map s !! a = Some m0 → dso ≠ NULL → ms_dso s !! dso = Some r →
  wp (map__init a ev dso)
     (λ _ s', ms_map s' = <[a := Map (ev_start ev) (w64 (ev_start ev + ev_len ev)) (ev_prot ev)
                 (ev_flags ev) (ev_pgoff ev) 0 (ev_maj ev) (ev_min ev) (ev_ino ev)
                 (ev_ino_generation ev) dso 1]> (ms_map s) ∧
        ms_dso s' = <[dso := refcount_inc r]> (ms_dso s) ∧
        is_list (ms_list s') (map_node a) [] ∧
        (∀ b, b ≠ a → rb_mem (ms_rb s') !! b = rb_mem (ms_rb s) !! b) ∧
        wp (RB_EMPTY_NODE a) (λ b _, b = true) (ms_rb s')) s.
Proof.
  intros [Ha Hal] [v Hv] Hn Hm Hd Hr. unfold map__init.
  apply wp_bind. eapply wp_map_store; [done..|]. simpl.
  apply wp_bind. unfold dso__get. rewrite (proj2 (Z.eqb_neq _ _) Hd).
  apply wp_bind, (wp_lift_pure _ (λ v, v = r)); [by eapply wp_obj_load|]. intros ? ->.
  apply wp_bind, wp_lift. eapply wp_obj_store; [done|exact Hr|]. simpl. apply wp_ret.
  apply wp_bind. eapply wp_map_store; [done|by simpl; lk|]. simpl.
  apply wp_bind, wp_lift. destruct s as [[mem root] L M D h]. simpl in *.
  unfold RB_CLEAR_NODE. eapply wp_set_pc; [done..|].
  apply wp_bind, wp_lift. eapply wp_mono; [apply INIT_LIST_HEAD_wp; [by apply map_node_nz|done]|].
  intros _ L' (HL & _ & _). simpl.
  eapply wp_map_store; [done|by simpl; lk|]. simpl. split_and!; try done.
  - by rewrite !insert_insert_eq.
  - intros b Hb. by rewrite lookup_insert_ne.
  - unfold RB_EMPTY_NODE. by rb_run.
Qed.

Lemma map_init_correct_witness :
  wp (map__init 12288 (Mmap2Event (2 ^ 64 - 4096) 8192 0 8 1 7 0 5 2) 512)
     (λ _ s', ms_map s' = <[12288 := Map (2 ^ 64 - 4096) 4096 5 2 0 0 8 1 7 0 512 1]>
                 (ms_map ex_maps) ∧
        ms_dso s' = <[512 := 5]> (ms_dso ex_maps) ∧
        is_list (ms_list s') 12312 [] ∧
        (∀ b, b ≠ 12288 → rb_mem (ms_rb s') !! b = rb_mem (ms_rb ex_maps) !! b) ∧
        wp (RB_EMPTY_NODE 12288) (λ b _, b = true) (ms_rb s')) ex_maps.
Proof.
  apply (map_init_correct 12288 512 4 (Mmap2Event (2 ^ 64 - 4096) 8192 0 8 1 7 0 5 2)
           (ex_map 200 300 0 512 1) ex_maps);
    [repeat split; done|by eexists|by eexists|done|done|done].
Defined.
