(* ===== verification/Utility.v ===== *)
(** Formatting into bounded buffers: src/src/utility.c (vscnprintf, scnprintf,
    path__join) and the wrapper of src/src/symbol.h.

    A C string is the sequence of its bytes before the terminator.  A buffer
    of [size] bytes receives a string and its terminator. *)
From Stdlib Require Import ZArith Lia String Ascii.
From stdpp Require Import base tactics option list numbers strings.
From S2P Require Import Prelude.

Local Open Scope Z_scope.

Definition slen (s : string) : Z := Z.of_nat (String.length s).

(** [vsnprintf] of the C library: at most [size - 1] bytes and the terminator
    are stored ([None]: nothing at all), the result is the full length. *)
Definition vsnprintf (size : Z) (out : string) : option string * Z :=
  (if size =? 0 then None else Some (String.substring 0 (Z.to_nat (size - 1)) out),
   slen out).

Definition vscnprintf (size : Z) (out : string) : option string * Z :=
  let '(buf, i) := vsnprintf size out in
  (* [i < size] compares an int with a size_t *)
  if w64 i <? size then (buf, i)
  else if negb (size =? 0) then (buf, size - 1)
  else (buf, 0).

(** The format is ["%s%s%s"]. *)
Definition path__join (size : Z) (path1 path2 : string) : option string * Z :=
  vscnprintf size
    (path1 ++ (match path1 with EmptyString => "" | _ => "/" end) ++ path2)%string.

Definition __symbol__join_symfs (size : Z) (path : string) : option string * Z :=
  path__join size "" path.

(** [S_ISREG] of <sys/stat.h>, and a file test on the mode that stat gives
    ([None] when stat fails). *)
Definition S_ISREG (mode : Z) : bool := Z.land mode 0xf000 =? 0x8000.

Definition is_regular_file (sys_stat : string → option Z) (file : string) : bool :=
  match sys_stat file with
  | None => false
  | Some st_mode => S_ISREG st_mode
  end.

(** For concrete runs: every path is a regular file with mode 0644. *)
Definition ex_stat (_ : string) : option Z := Some 0x81a4.

Lemma substring_length n s :
  String.length (String.substring 0 n s) = Nat.min n (String.length s).
Proof.
  revert n. induction s as [|c s IH]; intros [|n]; simpl; try done. by rewrite IH.
Qed.
Lemma substring_all n s : (String.length s ≤ n)%nat → String.substring 0 n s = s.
Proof.
  revert n. induction s as [|c s IH]; intros [|n] Hn; simpl in *; try done; [lia|].
  f_equal. apply IH. lia.
Qed.

Lemma length_append s1 s2 :
  String.length (s1 ++ s2)%string = (String.length s1 + String.length s2)%nat.
Proof. induction s1 as [|c s1 IH]; simpl; [done|]. by rewrite IH. Qed.

Lemma vscnprintf_spec size out :
  0 < size < 2 ^ 31 → slen out < 2 ^ 31 →
  ∃ buf r, vscnprintf size out = (Some buf, r) ∧ r = slen buf ∧ r < size ∧
    (slen out < size → buf = out) ∧
    (size ≤ slen out → buf = String.substring 0 (Z.to_nat (size - 1)) out).
Proof.
  intros Hs Ho. unfold vscnprintf, vsnprintf. rewrite (proj2 (Z.eqb_neq size 0)) by lia.
  assert (0 ≤ slen out) by (unfold slen; lia).
  rewrite w64_small by (unfold is_u64; lia). simpl.
  pose proof (substring_length (Z.to_nat (size - 1)) out) as Hl.
  destruct (Z.ltb_spec (slen out) size) as [Hlt|Hge]; do 2 eexists; split_and!; try done.
  - rewrite substring_all; [done|]. unfold slen in *. lia.
  - intros _. apply substring_all. unfold slen in *. lia.
  - unfold slen in *. rewrite Hl. lia.
  - lia.
  - lia.
Qed.

(** C14. path__join stores its two paths, joined by one slash unless the first
    is empty, cut to the buffer; the result is always the length of what was
    stored, so it never reaches the size of the buffer. *)
Theorem path_join_correct (size : Z) (path1 path2 : string) :
  0 < size < 2 ^ 31 → slen path1 + slen path2 + 1 < 2 ^ 31 →
  let full := (if decide (path1 = "") then path2 else path1 ++ "/" ++ path2)%string in
  ∃ buf r, path__join size path1 path2 = (Some buf, r) ∧ r = slen buf ∧ r < size ∧
    (slen full < size → buf = full) ∧
    (size ≤ slen full → buf = String.substring 0 (Z.to_nat (size - 1)) full).
Proof.
  intros Hs Hl full. unfold path__join.
  assert ((path1 ++ (match path1 with EmptyString => "" | _ => "/" end) ++ path2)%string = full)
    as ->.
  { subst full. destruct path1; case_decide; done. }
  apply vscnprintf_spec; [done|]. subst full. unfold slen in *.
  case_decide; [lia|]. rewrite !length_append. simpl. lia.
Qed.

Lemma path_join_correct_witness :
  ∃ buf r, path__join 6 "" "abcdefgh" = (Some buf, r) ∧ r = slen buf ∧ r < 6 ∧
    (slen "abcdefgh" < 6 → buf = "abcdefgh"%string) ∧
    (6 ≤ slen "abcdefgh" → buf = String.substring 0 (Z.to_nat (6 - 1)) "abcdefgh").
Proof. apply (path_join_correct 6 "" "abcdefgh"); [lia|by vm_compute]. Defined.
