(* ===== verification/DsoData.v ===== *)
(** Reading the file of a dso through its block cache: src/src/dso.c, from
    dso__read_binary_type_filename to dso__data_read_addr.

    A [struct dso_cache] at address [a] is its [rb_node] (at [a]), its
    [offset] and [size], and the bytes of [data] that pread has filled;
    copying a byte that was never filled faults.  The addresses that malloc
    will return are a list of the state, so a run allocates as the program
    does and an empty list is a failing malloc.  The [u8 *data] argument of
    the reading functions is the list of bytes they store there.  open,
    stat, fstat, pread and errno are parameters. *)
From Stdlib Require Import ZArith Lia String.
From stdpp Require Import base tactics option list numbers gmap sorting.
From S2P Require Import Prelude RbTree RbSpec RbRep RbUnlink RbIter RbSearch Utility.

Local Open Scope Z_scope.

(** ** Data (dso.h) *)

Definition DSO__DATA_CACHE_SIZE : Z := 4096.
Definition DSO__DATA_CACHE_MASK : Z := w64 (Z.lnot (DSO__DATA_CACHE_SIZE - 1)).
Definition PATH_MAX : Z := 4096.

Inductive dso_data_status :=
  DSO_DATA_STATUS_ERROR | DSO_DATA_STATUS_UNKNOWN | DSO_DATA_STATUS_OK.
#[export] Instance dso_data_status_eq_dec : EqDecision dso_data_status.
Proof. solve_decision. Defined.

Record dso_cache := DsoCache { dc_offset : Z; dc_size : Z; dc_data : list Z }.

(** [dso->data] with the memory it lives in. *)
Record dso_st := DsoSt {
  ds_rb : rb_state;               (* the rb_nodes and [data.cache] *)
  ds_cache : gmap Z dso_cache;    (* the other fields of the live blocks *)
  ds_fd : Z;
  ds_status : dso_data_status;
  ds_file_size : Z;
  ds_pool : list Z;               (* what malloc returns next *)
}.

#[export] Instance dso_rb_store : Store dso_st rb_state.
Proof.
  refine {| part := ds_rb;
    with_part r s := DsoSt r (ds_cache s) (ds_fd s) (ds_status s) (ds_file_size s) (ds_pool s) |};
    by try intros ? ? []; try intros [].
Defined.
#[export] Instance dso_cache_store : Store dso_st (gmap Z dso_cache).
Proof.
  refine {| part := ds_cache;
    with_part c s := DsoSt (ds_rb s) c (ds_fd s) (ds_status s) (ds_file_size s) (ds_pool s) |};
    by try intros ? ? []; try intros [].
Defined.

Abbreviation dm := (cm dso_st).

Definition set_fd (fd : Z) : dm unit := c_modify (λ s,
  DsoSt (ds_rb s) (ds_cache s) fd (ds_status s) (ds_file_size s) (ds_pool s)).
Definition set_status (st : dso_data_status) : dm unit := c_modify (λ s,
  DsoSt (ds_rb s) (ds_cache s) (ds_fd s) st (ds_file_size s) (ds_pool s)).
Definition set_file_size (n : Z) : dm unit := c_modify (λ s,
  DsoSt (ds_rb s) (ds_cache s) (ds_fd s) (ds_status s) n (ds_pool s)).

(** [xmalloc] of a block: fresh, uninitialised memory, or a failing assert. *)
Definition xmalloc_cache : dm Z := λ s,
  match ds_pool s with
  | [] => Abort
  | a :: pool =>
    Ok (a, DsoSt (RbState (<[a := RbNode 0 0 0]> (rb_mem (ds_rb s))) (rb_root_node (ds_rb s)))
             (<[a := DsoCache 0 0 []]> (ds_cache s)) (ds_fd s) (ds_status s)
             (ds_file_size s) pool)
  end.

(** [free(cache)] *)
Definition free_cache (a : Z) : dm unit := λ s,
  if a =? NULL then Ok (tt, s) else
  match ds_cache s !! a with
  | None => Fault
  | Some _ =>
    Ok (tt, DsoSt (RbState (delete a (rb_mem (ds_rb s))) (rb_root_node (ds_rb s)))
              (delete a (ds_cache s)) (ds_fd s) (ds_status s) (ds_file_size s) (ds_pool s))
  end.

Definition cache_load (a : Z) : dm dso_cache := lift (obj_load a).

Section dso_data.
Variables (long_name : string)
          (sys_stat : string → option Z)      (* st_mode, None on failure *)
          (sys_open : string → Z)             (* open(name, O_RDONLY) *)
          (errno : Z)
          (sys_fstat : Z → option Z)          (* st_size, None on failure *)
          (sys_pread : Z → Z → Z → Z * list Z). (* fd, count, offset *)

(** ** Opening (dso.c:190-270) *)

(** The path buffer holds the terminated string path__join stored. *)
Definition dso__read_binary_type_filename (size : Z) : string :=
  default EmptyString (fst (__symbol__join_symfs size long_name)).

Definition do_open (name : string) : dm Z :=
  let fd := sys_open name in
  if 0 <=? fd then mret fd else c_abort.

Definition open_dso : dm Z :=
  let name := dso__read_binary_type_filename PATH_MAX in
  c_assert (is_regular_file sys_stat name);;
  do_open name.

Definition try_to_open_dso : dm unit :=
  fd ← c_get ds_fd;
  if 0 <=? fd then mret tt else
  fd ← open_dso;
  set_fd fd;;
  if 0 <=? fd then set_status DSO_DATA_STATUS_OK else set_status DSO_DATA_STATUS_ERROR.

Definition dso__data_get_fd : dm Z :=
  st ← c_get ds_status;
  if decide (st = DSO_DATA_STATUS_ERROR) then mret (-1) else
  try_to_open_dso;;
  c_get ds_fd.

(** The body of dso__data_put_fd is empty. *)
Definition dso__data_put_fd : dm unit := mret tt.

(** ** The cache (dso.c:272-405) *)

Definition cache_visit (offset cur : Z) : dm (turn Z) :=
  cache ← cache_load cur;
  let end_ := w64 (dc_offset cache + DSO__DATA_CACHE_SIZE) in
  mret (if offset <? dc_offset cache then GoLeft
        else if end_ <=? offset then GoRight
        else Stop cur).

Definition dso_cache__find (offset : Z) : dm Z :=
  r ← rb_search (cache_visit offset);
  mret (match r with inl cache => cache | inr _ => NULL end).

Definition dso_cache__insert (new : Z) : dm Z :=
  n ← cache_load new;
  let offset := dc_offset n in
  r ← rb_search (cache_visit offset);
  match r with
  | inl cache => mret cache
  | inr (parent, p) =>
    lift (rb_link_node new parent p);;
    lift (rb_insert_color new);;
    mret NULL
  end.

(** [memcpy(data, cache->data + cache_offset, cache_size)]; the result is
    converted to ssize_t. *)
Definition dso_cache__memcpy (cache offset size : Z) : dm (Z * list Z) :=
  c ← cache_load cache;
  let cache_offset := w64 (offset - dc_offset c) in
  let cache_size := Z.min (w64 (dc_size c - cache_offset)) size in
  if cache_offset + cache_size <=? Z.of_nat (length (dc_data c)) then
    mret (signed 64 cache_size,
          take (Z.to_nat cache_size) (drop (Z.to_nat cache_offset) (dc_data c)))
  else c_fault.

Definition dso_cache__read (offset size : Z) : dm (Z * list Z) :=
  cache ← xmalloc_cache;
  try_to_open_dso;;
  fd ← c_get ds_fd;
  ret ←
    (if fd <? 0 then
       set_status DSO_DATA_STATUS_ERROR;; mret (- errno)
     else
       let cache_offset := Z.land offset DSO__DATA_CACHE_MASK in
       let '(ret, bytes) := sys_pread fd DSO__DATA_CACHE_SIZE cache_offset in
       if ret <=? 0 then mret ret else
       lift (obj_store cache (λ _, DsoCache cache_offset ret bytes));;
       mret ret);
  '(ret, data, cache) ←
    (if 0 <? ret then
       old ← dso_cache__insert cache;
       cache ← (if negb (old =? NULL) then free_cache cache;; mret old else mret cache);
       '(ret, data) ← dso_cache__memcpy cache offset (w64 size);
       mret (ret, data, cache)
     else mret (ret, [], cache));
  if ret <=? 0 then free_cache cache;; mret (ret, data) else mret (ret, data).

Definition dso_cache_read (offset size : Z) : dm (Z * list Z) :=
  cache ← dso_cache__find offset;
  if negb (cache =? NULL) then dso_cache__memcpy cache offset (w64 size)
  else dso_cache__read offset size.

(** The [do ... while (size)] of cached_read; [r] and [acc] are what earlier
    iterations returned and stored. *)
Fixpoint cached_read_loop (fuel : nat) (offset size r : Z) (acc : list Z) : dm (Z * list Z) :=
  match fuel with
  | O => c_nofuel
  | S fuel =>
    '(ret, data) ← dso_cache_read offset size;
    if ret <? 0 then mret (ret, acc ++ data) else
    if ret =? 0 then mret (r, acc) else
    c_assert (ret <=? size);;
    let size' := size - ret in
    if size' =? 0 then mret (r + ret, acc ++ data)
    else cached_read_loop fuel (w64 (offset + ret)) size' (r + ret) (acc ++ data)
  end.

(** Every iteration that does not leave the loop stores a byte. *)
Definition cached_read (offset size : Z) : dm (Z * list Z) :=
  cached_read_loop (S (Z.to_nat size)) offset size 0 [].

(** ** Reading (dso.c:407-508) *)

Definition data_file_size : dm Z :=
  fsz ← c_get ds_file_size;
  if negb (fsz =? 0) then mret 0 else
  st ← c_get ds_status;
  if decide (st = DSO_DATA_STATUS_ERROR) then mret (-1) else
  try_to_open_dso;;
  fd ← c_get ds_fd;
  if fd <? 0 then set_status DSO_DATA_STATUS_ERROR;; mret (- errno)
  else match sys_fstat fd with
       | None => set_status DSO_DATA_STATUS_ERROR;; mret (- errno)
       | Some n => set_file_size n;; mret 0
       end.

Definition data_read_offset (offset size : Z) : dm (Z * list Z) :=
  rc ← data_file_size;
  if negb (rc =? 0) then mret (-1, []) else
  fsz ← c_get ds_file_size;
  if fsz <? offset then mret (-1, []) else
  if w64 (offset + w64 size) <? offset then mret (-1, []) else
  cached_read offset size.

Definition dso__data_read_offset (offset size : Z) : dm (Z * list Z) :=
  st ← c_get ds_status;
  if decide (st = DSO_DATA_STATUS_ERROR) then mret (-1, [])
  else data_read_offset offset size.

Definition dso__data_read_addr (map_ip : Z → Z) (addr size : Z) : dm (Z * list Z) :=
  dso__data_read_offset (map_ip addr) size.
End dso_data.

(** ** The contents of a cache

    [file] is the contents of the dso's file. *)
Definition slice (file : list Z) (off n : Z) : list Z :=
  take (Z.to_nat n) (drop (Z.to_nat off) file).
Definition flen (file : list Z) : Z := Z.of_nat (length file).

(** The block of the file that contains an offset. *)
Definition block_of (off : Z) : Z := Z.land off DSO__DATA_CACHE_MASK.

Definition off_of (C : gmap Z dso_cache) (a : Z) : Z := from_option dc_offset 0 (C !! a).

Definition block_ok (file : list Z) (c : dso_cache) : Prop :=
  (4096 | dc_offset c) ∧ 0 ≤ dc_offset c < flen file ∧
  dc_data c = slice file (dc_offset c) DSO__DATA_CACHE_SIZE ∧
  dc_size c = Z.of_nat (length (dc_data c)).

(** The blocks of the cache, in tree order, are distinct blocks of the file. *)
Definition cache_holds (file : list Z) (s : dso_st) (l : list Z) : Prop :=
  (∃ t, represents (ds_rb s) t ∧ redblack t ∧ inorder t = l) ∧
  (∀ a, a ∈ l → ∃ c, ds_cache s !! a = Some c ∧ block_ok file c) ∧
  StronglySorted (λ a b, off_of (ds_cache s) a < off_of (ds_cache s) b) l.

(** What malloc promises for the addresses it has still to return. *)
Definition pool_ok (s : dso_st) (l : list Z) : Prop :=
  NoDup (ds_pool s) ∧ ∀ a, a ∈ ds_pool s → node_ok a ∧ a ∉ l.

Lemma length_slice file off n :
  0 ≤ off → 0 ≤ n → Z.of_nat (length (slice file off n)) = Z.min n (Z.max 0 (flen file - off)).
Proof. intros. unfold slice, flen. rewrite length_take, length_drop. lia. Qed.

Lemma slice_slice file o n k m :
  0 ≤ o → 0 ≤ k → 0 ≤ m → k + m ≤ n →
  take (Z.to_nat m) (drop (Z.to_nat k) (slice file o n)) = slice file (o + k) m.
Proof.
  intros. unfold slice. rewrite skipn_firstn_comm, take_take, drop_drop. f_equal; [lia|].
  f_equal. lia.
Qed.

Lemma slice_app file o n m :
  0 ≤ o → 0 ≤ n → 0 ≤ m → slice file o n ++ slice file (o + n) m = slice file o (n + m).
Proof.
  intros. unfold slice. rewrite (Z2Nat.inj_add n m), (Z2Nat.inj_add o n) by lia.
  rewrite <- (drop_drop _ (Z.to_nat n) (Z.to_nat o)). by rewrite take_take_drop.
Qed.

Lemma slice_full file o n m :
  0 ≤ o ≤ flen file → flen file - o ≤ n → flen file - o ≤ m → slice file o n = slice file o m.
Proof.
  intros. unfold slice, flen in *. rewrite !take_ge; [done|..]; rewrite length_drop; lia.
Qed.

Lemma block_of_spec off :
  is_u64 off → block_of off = 4096 * (off / 4096).
Proof.
  intros Hoff. unfold block_of, DSO__DATA_CACHE_MASK, DSO__DATA_CACHE_SIZE.
  change (w64 (Z.lnot (4096 - 1))) with (Z.shiftl (Z.ones 52) 12).
  transitivity (Z.shiftl (Z.shiftr off 12) 12).
  - apply Z.bits_inj'. intros i Hi. rewrite Z.land_spec. destruct (Z_lt_dec i 12).
    + rewrite !Z.shiftl_spec_low by lia. by rewrite andb_false_r.
    + rewrite !Z.shiftl_spec, Z.shiftr_spec by lia. replace (i - 12 + 12) with i by lia.
      destruct (Z_lt_dec i 64).
      * rewrite Z.ones_spec_low by lia. by rewrite andb_true_r.
      * rewrite <- (Z.mod_small off (2 ^ 64)) by (unfold is_u64 in Hoff; lia).
        by rewrite Z.mod_pow2_bits_high by lia.
  - rewrite Z.shiftl_mul_pow2, Z.shiftr_div_pow2 by lia. change (2 ^ 12) with 4096. lia.
Qed.

Definition cache_dir (C : gmap Z dso_cache) (offset a : Z) : turn Z :=
  if offset <? off_of C a then GoLeft
  else if w64 (off_of C a + DSO__DATA_CACHE_SIZE) <=? offset then GoRight
  else Stop a.

Lemma wp_cache_load a c s Q : a ≠ NULL → ds_cache s !! a = Some c → Q c s → wp (cache_load a) Q s.
Proof.
  intros Ha Hm HQ. apply (wp_lift_pure _ (λ v, v = c)); [by eapply wp_obj_load|by intros v ->].
Qed.

Lemma cache_visit_wp offset a s :
  a ≠ NULL → is_Some (ds_cache s !! a) →
  wp (cache_visit offset a) (λ v s', v = cache_dir (ds_cache s) offset a ∧ s' = s) s.
Proof.
  intros Ha [c Hc]. apply wp_bind. eapply wp_cache_load; [done..|]. apply wp_ret.
  unfold cache_dir, off_of. by rewrite Hc.
Qed.

Section cache.
Context (file : list Z).
(** Offsets of files are [off_t], 63 bits. *)
Hypothesis Hfile : flen file + 4096 < 2 ^ 63.

Lemma holds_end s l a :
  cache_holds file s l → a ∈ l →
  w64 (off_of (ds_cache s) a + DSO__DATA_CACHE_SIZE) = off_of (ds_cache s) a + 4096 ∧
  (4096 | off_of (ds_cache s) a) ∧ 0 ≤ off_of (ds_cache s) a < flen file.
Proof.
  intros (_ & Hl & _) Ha. destruct (Hl a Ha) as (c & Hc & Hd & Ho & _).
  unfold off_of. rewrite Hc. simpl. split_and!; try done; [|lia|lia].
  apply w64_small. unfold is_u64, DSO__DATA_CACHE_SIZE. lia.
Qed.

Lemma cache_dir_mono s l offset :
  cache_holds file s l → mono (cache_dir (ds_cache s) offset) l.
Proof.
  intros Hc. pose proof Hc as (_ & _ & Hs). eapply sorted_mono; [exact Hs|..].
  all: intros x y Hx Hy HR; simpl in HR; unfold cache_dir.
  all: destruct (holds_end s l x Hc Hx) as (-> & [kx Hkx] & ?).
  all: destruct (holds_end s l y Hc Hy) as (-> & [ky Hky] & ?).
  all: repeat case_match; try done; lia.
Qed.

(** The block that a lookup finds, or none when no block holds the offset. *)
Lemma cache_search_wp s l offset :
  cache_holds file s l →
  wp (rb_search (cache_visit offset))
     (λ r s', s' = s ∧ ∃ t, represents (ds_rb s) t ∧ redblack t ∧ inorder t = l ∧
        r = at_hole (descend (cache_dir (ds_cache s) offset) t [])) s.
Proof.
  intros Hc. pose proof Hc as ((t & Ht & Hrb & Hord) & Hl & _). eapply wp_mono.
  { apply (rb_search_wp _ (cache_dir (ds_cache s) offset) s t); [done|].
    intros a Ha. apply cache_visit_wp; [by eapply represents_nonnull|].
    rewrite Hord in Ha. destruct (Hl a Ha) as (c & ? & _). by eexists. }
  intros r s' [-> ->]. split; [done|]. by exists t.
Qed.

Lemma dir_stop s l offset a b :
  cache_holds file s l → a ∈ l → cache_dir (ds_cache s) offset a = Stop b →
  b = a ∧ off_of (ds_cache s) a ≤ offset < off_of (ds_cache s) a + 4096.
Proof.
  intros Hc Ha. destruct (holds_end s l a Hc Ha) as (Hw & _ & _).
  unfold cache_dir. rewrite Hw. repeat case_match; intros; simplify_eq. lia.
Qed.

Lemma dir_miss s l offset a :
  cache_holds file s l → a ∈ l →
  (∀ v, cache_dir (ds_cache s) offset a ≠ Stop v) →
  ¬ off_of (ds_cache s) a ≤ offset < off_of (ds_cache s) a + 4096.
Proof.
  intros Hc Ha Hd. destruct (holds_end s l a Hc Ha) as (Hw & _ & _).
  unfold cache_dir in Hd. rewrite Hw in Hd. repeat case_match; [lia|lia|by destruct (Hd a)].
Qed.

Lemma dso_cache_find_wp s l offset :
  cache_holds file s l →
  wp (dso_cache__find offset)
     (λ v s', s' = s ∧
        ((v ∈ l ∧ v ≠ NULL ∧ off_of (ds_cache s) v ≤ offset < off_of (ds_cache s) v + 4096) ∨
         (v = NULL ∧ ∀ a, a ∈ l →
            ¬ off_of (ds_cache s) a ≤ offset < off_of (ds_cache s) a + 4096))) s.
Proof.
  intros Hc. apply wp_bind. eapply wp_mono; [by apply cache_search_wp|].
  intros r s' (-> & t & Ht & Hrb & <- & ->). apply wp_ret. split; [done|].
  destruct (descend _ t []) as [v|k'] eqn:Hd; simpl.
  - left. apply descend_stop in Hd as (a & Ha & Hdir).
    destruct (dir_stop _ _ _ _ _ Hc Ha Hdir) as [-> ?].
    split_and!; [done|by eapply represents_nonnull|lia|lia].
  - right. split; [done|]. apply descend_none in Hd as (Hl & HR & HL);
      [|by apply cache_dir_mono].
    intros a Ha. apply (dir_miss s (inorder t)); [done|done|].
    rewrite Hl in Ha. rewrite Forall_forall in HR, HL.
    apply elem_of_app in Ha as [Ha|Ha]; [apply HR in Ha|apply HL in Ha];
      intros v Hv; by rewrite Hv in Ha.
Qed.

(** Copying out of a block that holds the offset. *)
Lemma memcpy_wp s a c offset size :
  a ≠ NULL → ds_cache s !! a = Some c → block_ok file c →
  dc_offset c ≤ offset < dc_offset c + 4096 → offset ≤ flen file → 0 ≤ size < 2 ^ 63 →
  wp (dso_cache__memcpy a offset size)
     (λ v s', s' = s ∧
        v = (let n := Z.min (Z.min (dc_offset c + 4096) (flen file) - offset) size in
             (n, slice file offset n))) s.
Proof.
  intros Ha Hc (_ & Ho & Hdata & Hsize) Hin Hle Hs. unfold dso_cache__memcpy.
  apply wp_bind. eapply wp_cache_load; [done..|].
  rewrite (w64_small (offset - dc_offset c)) by (unfold is_u64; lia).
  assert (dc_size c = Z.min 4096 (flen file - dc_offset c)) as Hsz.
  { rewrite Hsize, Hdata, length_slice; unfold DSO__DATA_CACHE_SIZE; lia. }
  rewrite w64_small by (unfold is_u64; lia).
  set (n := Z.min (dc_size c - (offset - dc_offset c)) size).
  rewrite <- Hsize. destruct (Z.leb_spec (offset - dc_offset c + n) (dc_size c)); [|lia].
  apply wp_ret. split; [done|]. simpl.
  replace (Z.min (Z.min (dc_offset c + 4096) (flen file) - offset) size) with n by lia.
  f_equal.
  - unfold signed. rewrite Z.mod_small by lia. change (2 ^ (64 - 1)) with (2 ^ 63).
    destruct (Z.ltb_spec n (2 ^ 63)); lia.
  - rewrite Hdata, slice_slice by (unfold DSO__DATA_CACHE_SIZE; lia). f_equal. lia.
Qed.
End cache.

(** ** Reading through the cache *)

(** Cached blocks stay where they are when memory outside them changes. *)
Lemma cache_holds_frame file s s' l :
  cache_holds file s l →
  (∀ a, a ∈ l → ds_cache s' !! a = ds_cache s !! a) →
  (∀ a, a ∈ l → rb_mem (ds_rb s') !! a = rb_mem (ds_rb s) !! a) →
  rb_root_node (ds_rb s') = rb_root_node (ds_rb s) →
  cache_holds file s' l.
Proof.
  intros ((t & Ht & Hrb & Hord) & Hl & Hs) Hc Hm Hr. split; [|split].
  - exists t. split; [|done]. eapply represents_frame; [done|by rewrite Hord|done].
  - intros a Ha. rewrite Hc by done. by apply Hl.
  - eapply sorted_impl; [|exact Hs]. intros x y Hx Hy. unfold off_of. by rewrite !Hc.
Qed.

Definition covered (s : dso_st) (l : list Z) (off : Z) : Prop :=
  ∃ a, a ∈ l ∧ off_of (ds_cache s) a ≤ off < off_of (ds_cache s) a + 4096.

Section read.
Context (file : list Z) (long_name : string) (sys_stat : string → option Z)
  (sys_open : string → Z) (errno : Z) (sys_fstat : Z → option Z)
  (sys_pread : Z → Z → Z → Z * list Z).
Hypothesis Hfile : flen file + 4096 < 2 ^ 63.

(** What fstat and pread promise for an open descriptor of the file: pread
    returns the bytes from the offset on, as many as asked or as there
    are. *)
Definition fd_ok (fd : Z) : Prop :=
  0 ≤ fd ∧ sys_fstat fd = Some (flen file) ∧
  ∀ off, 0 ≤ off →
    sys_pread fd DSO__DATA_CACHE_SIZE off =
      (Z.of_nat (length (slice file off DSO__DATA_CACHE_SIZE)),
       slice file off DSO__DATA_CACHE_SIZE).

(** The path of the dso names the file: it is a regular file that opens. *)
Definition opens : Prop :=
  is_regular_file sys_stat (dso__read_binary_type_filename long_name PATH_MAX) = true ∧
  fd_ok (sys_open (dso__read_binary_type_filename long_name PATH_MAX)).

Hypothesis Hopens : opens.

(** The dso has a descriptor of the file, or none yet. *)
Definition ready (s : dso_st) : Prop := ds_fd s < 0 ∨ fd_ok (ds_fd s).

Lemma try_to_open_wp s :
  ready s →
  wp (try_to_open_dso long_name sys_stat sys_open)
     (λ _ s', ∃ fd st, s' = DsoSt (ds_rb s) (ds_cache s) fd st (ds_file_size s) (ds_pool s) ∧
        fd_ok fd ∧ (st = ds_status s ∨ st = DSO_DATA_STATUS_OK)) s.
Proof.
  intros Hr. destruct Hopens as [Hreg Hok]. pose proof Hok as [Hfd _].
  unfold try_to_open_dso. apply wp_bind, wp_get.
  destruct (Z.leb_spec 0 (ds_fd s)) as [Hle|Hlt].
  - destruct Hr as [Hr|Hr]; [lia|]. apply wp_ret. exists (ds_fd s), (ds_status s).
    split_and!; [by destruct s|done|by left].
  - unfold open_dso, do_open. apply wp_bind, wp_bind, wp_assert; [done|].
    rewrite (proj2 (Z.leb_le _ _) Hfd). apply wp_ret, wp_bind, wp_modify.
    rewrite (proj2 (Z.leb_le _ _) Hfd). apply wp_modify. eexists _, _. split_and!; [done|done|by right].
Qed.

Lemma xmalloc_wp s l a pool :
  cache_holds file s l → pool_ok s l → ds_pool s = a :: pool →
  wp xmalloc_cache
     (λ v s', v = a ∧ cache_holds file s' l ∧ pool_ok s' l ∧ ds_pool s' = pool ∧
        node_ok a ∧ (a ∉ l) ∧ (a ∉ pool) ∧
        s' = DsoSt (RbState (<[a := RbNode 0 0 0]> (rb_mem (ds_rb s)))
                      (rb_root_node (ds_rb s)))
               (<[a := DsoCache 0 0 []]> (ds_cache s)) (ds_fd s) (ds_status s)
               (ds_file_size s) pool) s.
Proof.
  intros Hc [Hnd Hp] Hpool. unfold wp, xmalloc_cache. rewrite Hpool in *.
  apply NoDup_cons in Hnd as [Hna Hnd]. destruct (Hp a ltac:(left)) as [Hok Hal].
  split; [done|]. split.
  { eapply cache_holds_frame; [exact Hc|..]; simpl; [| |done];
      intros x Hx; by rewrite lookup_insert_ne by (by intros ->). }
  split_and!; try done. split; [done|]. intros x Hx. apply Hp. by right.
Qed.

Lemma free_wp s l a :
  cache_holds file s l → pool_ok s l → a ∉ l → a ≠ NULL → is_Some (ds_cache s !! a) →
  wp (free_cache a)
     (λ _ s', cache_holds file s' l ∧ pool_ok s' l ∧ ds_pool s' = ds_pool s ∧
        ds_fd s' = ds_fd s ∧ ds_status s' = ds_status s ∧ ds_file_size s' = ds_file_size s ∧
        ∀ x, x ∈ l → ds_cache s' !! x = ds_cache s !! x) s.
Proof.
  intros Hc Hp Ha Hz [c Hac]. unfold wp, free_cache.
  rewrite (proj2 (Z.eqb_neq _ _) Hz), Hac. simpl.
  assert (∀ x, x ∈ l → delete a (ds_cache s) !! x = ds_cache s !! x).
  { intros x Hx. by rewrite lookup_delete_ne by (by intros ->). }
  split; [|done]. eapply cache_holds_frame; [exact Hc|done| |done].
  intros x Hx. simpl. by rewrite lookup_delete_ne by (by intros ->).
Qed.

(** Linking a freshly filled block whose offsets no block covers. *)
Lemma insert_block_wp s l a c :
  cache_holds file s l → pool_ok s l → node_ok a → a ∉ l → a ∉ ds_pool s →
  is_Some (rb_mem (ds_rb s) !! a) → ds_cache s !! a = Some c → block_ok file c →
  ¬ covered s l (dc_offset c) →
  wp (dso_cache__insert a)
     (λ v s', v = NULL ∧ ∃ (r' : rb_state) l1 l2, l = l1 ++ l2 ∧ s' = with_part r' s ∧
        cache_holds file s' (l1 ++ a :: l2) ∧ pool_ok s' (l1 ++ a :: l2)) s.
Proof.
  intros Hc [Hnd Hp] Hok Hal Hap Hmem Hac Hblk Hcov. unfold dso_cache__insert.
  apply wp_bind. eapply wp_cache_load; [apply Hok|done|].
  apply wp_bind. eapply wp_mono; [by apply (cache_search_wp file)|].
  intros r s' (-> & t & Ht & Hrb & <- & ->).
  destruct (descend _ t []) as [v|k'] eqn:Hd; simpl.
  { exfalso. apply Hcov. apply descend_stop in Hd as (b & Hb & Hdir).
    destruct (dir_stop file Hfile _ _ _ _ _ Hc Hb Hdir) as [-> ?]. by exists b. }
  pose proof (insert_at_hole_wp _ a s t k' Ht Hrb Hd Hok Hmem Hal) as Hins.
  apply descend_none in Hd as (Hl & HR & HL); [|by apply (cache_dir_mono file Hfile)].
  apply wp_assoc, wp_bind. eapply wp_mono; [exact Hins|].
  intros [] s1 (t' & r' & -> & Ht' & Hrb' & Hord & _). apply wp_ret. split; [done|].
  exists r', (lefts k'), (rights k'). split_and!; [done|done|..].
  - destruct Hc as (_ & Hblocks & Hs). split_and!; simpl.
    + by exists t'.
    + intros x Hx. destruct (decide (x = a)) as [->|Hne]; [by exists c|].
      apply Hblocks. rewrite Hl. set_solver.
    + rewrite Forall_forall in HR, HL.
      assert (off_of (ds_cache s) a = dc_offset c) as Hoa by (unfold off_of; by rewrite Hac).
      apply sorted_mid; [by rewrite <- Hl|..]; apply Forall_forall; intros x Hx;
        rewrite Hoa; [specialize (HR x Hx) as Hdir|specialize (HL x Hx) as Hdir];
        unfold cache_dir in Hdir; repeat case_match; try done; [|lia].
      destruct (holds_end file Hfile s (inorder t) x) as (Hw & _ & _);
        [split_and!; [by exists t|done|done]|rewrite Hl; set_solver|lia].
  - split; [done|]. intros x Hx. simpl in Hx. destruct (Hp x Hx) as [Hxo Hxt].
    split; [done|]. rewrite Hl in Hxt. assert (x ≠ a) by (by intros ->). set_solver.
Qed.

(** How many bytes one step of cached_read copies: up to the end of the
    block, of the file and of the request. *)
Definition step_len (offset size : Z) : Z :=
  Z.min (Z.min (4096 * (offset / 4096) + 4096) (flen file) - offset) size.

Definition keeps (s : dso_st) (l : list Z) (s' : dso_st) (l' : list Z) : Prop :=
  cache_holds file s' l' ∧ pool_ok s' l' ∧ ready s' ∧
  (ds_status s ≠ DSO_DATA_STATUS_ERROR → ds_status s' ≠ DSO_DATA_STATUS_ERROR) ∧
  ds_file_size s' = ds_file_size s ∧
  (∀ x, covered s l x → covered s' l' x).

Lemma covered_base s l a offset :
  cache_holds file s l → a ∈ l →
  off_of (ds_cache s) a ≤ offset < off_of (ds_cache s) a + 4096 →
  off_of (ds_cache s) a = 4096 * (offset / 4096).
Proof.
  intros Hc Ha Hin. destruct (holds_end file Hfile s l a Hc Ha) as (_ & [k Hk] & _).
  rewrite Hk in *. rewrite (Z.div_unique offset 4096 k (offset - k * 4096)); lia.
Qed.

Lemma covered_block s l a c x :
  a ∈ l → ds_cache s !! a = Some c → dc_offset c ≤ x < dc_offset c + 4096 → covered s l x.
Proof. intros Ha Hc Hx. exists a. unfold off_of. by rewrite Hc. Qed.

(** The first half of dso_cache__read: a block allocated and the file open. *)
Lemma read_prepare_wp s l (k : Z → dm (Z * list Z)) Q :
  cache_holds file s l → pool_ok s l → ready s → ds_pool s ≠ [] →
  (∀ a s', node_ok a → a ∉ l → a ∉ ds_pool s' → cache_holds file s' l → pool_ok s' l →
     fd_ok (ds_fd s') → ds_pool s = a :: ds_pool s' → is_Some (rb_mem (ds_rb s') !! a) →
     is_Some (ds_cache s' !! a) → keeps s l s' l → 
     (∀ x, x ∈ l → ds_cache s' !! x = ds_cache s !! x) →
     wp (k a) Q s') →
  wp (a ← xmalloc_cache;
      try_to_open_dso long_name sys_stat sys_open;; k a) Q s.
Proof.
  intros Hc Hp Hr Hne Hk. destruct (ds_pool s) as [|a pool] eqn:Hpool; [done|].
  apply wp_bind. eapply wp_mono; [by eapply xmalloc_wp|].
  intros v s1 (-> & Hc1 & Hp1 & Hpool1 & Hok & Hal & Hap & Heq).
  apply wp_bind. eapply wp_mono; [apply try_to_open_wp; by rewrite Heq|].
  intros _ s2 (fd & st & Heq2 & Hfd & Hst).
  assert (cache_holds file s2 l) as Hc2.
  { rewrite Heq2. by eapply cache_holds_frame; [exact Hc1|..]. }
  assert (pool_ok s2 l) as Hp2 by (by rewrite Heq2).
  assert (∀ x, x ∈ l → ds_cache s2 !! x = ds_cache s !! x) as Hx2.
  { intros x Hx. rewrite Heq2, Heq. simpl. by rewrite lookup_insert_ne by (by intros ->). }
  apply Hk; try done.
  - rewrite Heq2. simpl. by rewrite Hpool1.
  - by rewrite Heq2.
  - rewrite Heq2. simpl. by rewrite Hpool1.
  - rewrite Heq2, Heq. simpl. rewrite lookup_insert_eq. by eexists.
  - rewrite Heq2, Heq. simpl. rewrite lookup_insert_eq. by eexists.
  - split_and!; [exact Hc2|exact Hp2|..]; rewrite ?Heq2; simpl.
    + by right.
    + rewrite Heq in Hst. simpl in Hst. by destruct Hst as [->| ->].
    + by rewrite Heq.
    + intros x (b & Hb & Hin). exists b. split; [done|].
      assert (ds_cache s1 !! b = ds_cache s !! b) as Hb2.
      { rewrite <- (Hx2 b Hb), Heq2. done. }
      unfold off_of. simpl. by rewrite Hb2.
Qed.

Lemma slice_nil o n : flen file ≤ o → slice file o n = [].
Proof.
  unfold slice, flen. intros Ho. rewrite drop_ge by lia. apply take_nil.
Qed.

Lemma keeps_trans s l s1 l1 s2 l2 :
  keeps s l s1 l1 → keeps s1 l1 s2 l2 → keeps s l s2 l2.
Proof.
  intros (_ & _ & _ & H1 & H2 & H3) (? & ? & ? & H4 & H5 & H6).
  split_and!; auto; congruence.
Qed.

Lemma covered_agree s s' l x :
  (∀ a, a ∈ l → ds_cache s' !! a = ds_cache s !! a) → covered s l x → covered s' l x.
Proof. intros Ha (a & Hal & Hin). exists a. unfold off_of. by rewrite Ha. Qed.

(** At the end of the file nothing is read and the block is given back. *)
Lemma read_eof_wp s l offset size :
  cache_holds file s l → pool_ok s l → ready s → ds_pool s ≠ [] →
  offset = flen file → (4096 | flen file) → 0 ≤ size →
  wp (dso_cache__read long_name sys_stat sys_open errno sys_pread offset size)
     (λ v s', v = (0, []) ∧ keeps s l s' l ∧
        length (ds_pool s) = S (length (ds_pool s'))) s.
Proof.
  intros Hc Hp Hr Hne -> [k Hk] Hs. apply read_prepare_wp with (l := l); [done..|].
  intros a s1 Hok Hal Hap Hc1 Hp1 Hfd Hpool Hmem Hca Hkeep Hsame.
  assert (0 ≤ flen file) by (unfold flen; lia).
  pose proof Hfd as (Hfd0 & _ & Hread).
  apply wp_bind, wp_get. rewrite (proj2 (Z.ltb_ge _ _) Hfd0).
  cbv zeta.
  assert (Z.land (flen file) DSO__DATA_CACHE_MASK = flen file) as ->.
  { change (block_of (flen file) = flen file). rewrite block_of_spec by (unfold is_u64; lia).
    rewrite Hk, Z.div_mul by lia. lia. }
  rewrite Hread by done. rewrite slice_nil by lia. simpl.
  apply wp_bind, wp_ret. simpl. apply wp_bind, wp_ret. simpl.
  apply wp_bind. eapply wp_mono; [apply (free_wp s1 l a); try done; apply Hok|].
  intros _ s2 (Hc2 & Hp2 & Hpool2 & Hfd2 & Hst2 & Hfs2 & Hsame2). apply wp_ret.
  split; [done|]. split; [|by rewrite Hpool, Hpool2].
  eapply keeps_trans; [exact Hkeep|]. split_and!; [exact Hc2|exact Hp2|..].
  - right. by rewrite Hfd2.
  - by rewrite Hst2.
  - by rewrite Hfs2.
  - intros x. by apply covered_agree.
Qed.

(** Inside the file a block is read, linked and copied from. *)
Lemma read_block_wp s l offset size :
  cache_holds file s l → pool_ok s l → ready s → ds_pool s ≠ [] →
  0 ≤ offset < flen file → 0 < size < 2 ^ 63 → ¬ covered s l offset →
  wp (dso_cache__read long_name sys_stat sys_open errno sys_pread offset size)
     (λ v s', v = (step_len offset size, slice file offset (step_len offset size)) ∧
        ∃ l', keeps s l s' l' ∧ covered s' l' offset ∧
          length (ds_pool s) = S (length (ds_pool s'))) s.
Proof.
  intros Hc Hp Hr Hne Hoff Hs Hcov. apply read_prepare_wp with (l := l); [done..|].
  intros a s1 Hok Hal Hap Hc1 Hp1 Hfd Hpool Hmem [c0 Hca] Hkeep Hsame.
  pose proof Hfd as (Hfd0 & _ & Hread).
  apply wp_bind, wp_get. rewrite (proj2 (Z.ltb_ge _ _) Hfd0).
  cbv zeta.
  change (Z.land offset DSO__DATA_CACHE_MASK) with (block_of offset).
  rewrite block_of_spec by (unfold is_u64; lia).
  set (base := 4096 * (offset / 4096)).
  assert (base ≤ offset < base + 4096) as Hbase.
  { subst base. pose proof (Z.div_mod offset 4096). pose proof (Z.mod_pos_bound offset 4096). lia. }
  assert (0 ≤ base) as Hb0 by (subst base; pose proof (Z.div_pos offset 4096); lia).
  rewrite Hread by done.
  set (d := slice file base DSO__DATA_CACHE_SIZE).
  assert (Z.of_nat (length d) = Z.min 4096 (flen file - base)) as Hd.
  { subst d. rewrite length_slice; unfold DSO__DATA_CACHE_SIZE; lia. }
  destruct (Z.leb_spec (Z.of_nat (length d)) 0); [lia|].
  set (c := DsoCache base (Z.of_nat (length d)) d).
  apply wp_bind, wp_bind, wp_lift. eapply wp_obj_store; [apply Hok|exact Hca|]. apply wp_ret.
  rewrite (proj2 (Z.ltb_lt _ _)) by lia.
  set (s2 := with_part (<[a:=c]> (part s1)) s1).
  assert (block_ok file c) as Hblk.
  { split_and!; simpl; try done; try lia. subst base. exists (offset / 4096). lia. }
  assert (∀ x, x ∈ l → ds_cache s2 !! x = ds_cache s1 !! x) as Hsame2.
  { intros x Hx. simpl. by rewrite lookup_insert_ne by (by intros ->). }
  assert (cache_holds file s2 l) as Hc2.
  { by eapply cache_holds_frame; [exact Hc1|..]. }
  assert (¬ covered s2 l (dc_offset c)) as Hcov2.
  { simpl. intros (b & Hb & Hin). apply Hcov. exists b. split; [done|].
    pose proof (covered_base s2 l b base Hc2 Hb Hin) as Hbb.
    assert (off_of (ds_cache s2) b = off_of (ds_cache s) b) as <-.
    { unfold off_of. by rewrite Hsame2, Hsame. }
    assert (base / 4096 = offset / 4096) as Hdiv.
    { subst base. rewrite (Z.mul_comm 4096). by apply Z.div_mul. }
    rewrite Hbb, Hdiv. fold base. lia. }
  apply wp_bind, wp_bind. eapply wp_mono.
  { apply (insert_block_wp s2 l a c); try done. simpl. by rewrite lookup_insert_eq. }
  intros v s3 (-> & r' & l1 & l2 & -> & Hs3 & Hc3 & Hp3). simpl.
  assert (ds_cache s3 = <[a:=c]> (ds_cache s1)) as Hcache3 by (by rewrite Hs3).
  apply wp_bind, wp_ret, wp_bind. rewrite w64_small by (unfold is_u64; lia).
  eapply wp_mono.
  { apply (memcpy_wp file s3 a c offset size); try done; simpl; try lia; [apply Hok|].
    by rewrite Hcache3, lookup_insert_eq. }
  intros v s4 (-> & ->). cbv zeta.
  change (dc_offset c) with (4096 * (offset / 4096)). fold (step_len offset size).
  assert (0 < step_len offset size) as Hpos by (unfold step_len; fold base; lia).
  apply wp_ret. simpl. rewrite (proj2 (Z.leb_gt _ _)) by done. apply wp_ret.
  split; [done|]. exists (l1 ++ a :: l2). split_and!.
  - eapply keeps_trans; [exact Hkeep|]. split_and!; [exact Hc3|exact Hp3|..].
    + rewrite Hs3. by right.
    + by rewrite Hs3.
    + by rewrite Hs3.
    + intros x (b & Hb & Hin). exists b. split; [set_solver|].
      unfold off_of. rewrite Hcache3, lookup_insert_ne by (by intros ->). done.
  - eapply (covered_block s3 _ a c); [set_solver|by rewrite Hcache3, lookup_insert_eq|done].
  - by rewrite Hpool, Hs3.
Qed.

Lemma dso_cache_read_wp s l offset size :
  cache_holds file s l → pool_ok s l → ready s → 0 ≤ offset ≤ flen file →
  0 < size < 2 ^ 63 →
  covered s l offset ∨ (ds_pool s ≠ [] ∧ (offset < flen file ∨ (4096 | flen file))) →
  wp (dso_cache_read long_name sys_stat sys_open errno sys_pread offset size)
     (λ v s', v = (step_len offset size, slice file offset (step_len offset size)) ∧
        ∃ l', keeps s l s' l' ∧ (offset < flen file → covered s' l' offset) ∧
          (length (ds_pool s) ≤ S (length (ds_pool s')))%nat) s.
Proof.
  intros Hc Hp Hr Hoff Hs Hcase. apply wp_bind.
  eapply wp_mono; [by apply (dso_cache_find_wp file)|].
  intros v s' (-> & [(Hv & Hnz & Hin)|(-> & Hmiss)]).
  - rewrite (proj2 (Z.eqb_neq _ _) Hnz). simpl. rewrite w64_small by (unfold is_u64; lia).
    destruct (proj1 (proj2 Hc) v Hv) as (c & Hvc & Hblk).
    assert (off_of (ds_cache s) v = dc_offset c) as Hoc by (unfold off_of; by rewrite Hvc).
    pose proof (covered_base s l v offset Hc Hv Hin) as Hbase. rewrite Hoc in Hbase, Hin.
    eapply wp_mono; [apply (memcpy_wp file s v c offset size); try done; lia|].
    intros w s' (-> & ->). rewrite Hbase. split; [done|]. exists l.
    split; [done|]. split; [|lia]. intros _. by eapply covered_block.
  - rewrite Z.eqb_refl. simpl.
    assert (¬ covered s l offset) as Hcov by (intros (b & Hb & ?); by apply (Hmiss b)).
    destruct Hcase as [?|[Hne Hcase]]; [done|].
    destruct (decide (offset < flen file)) as [Hlt|Hge].
    + eapply wp_mono; [apply (read_block_wp s l offset size); try done; lia|].
      intros v s' (-> & l' & Hk & Hcv & Hlen). split; [done|]. exists l'.
      split; [done|]. split; [done|lia].
    + assert (offset = flen file) as -> by lia. destruct Hcase as [?|Hdiv]; [lia|].
      eapply wp_mono; [apply (read_eof_wp s l _ size); try done; lia|].
      intros v s' (-> & Hk & Hlen).
      assert (step_len (flen file) size = 0) as ->.
      { unfold step_len. destruct Hdiv as [k ->]. rewrite Z.div_mul by lia. lia. }
      split; [done|]. exists l. split; [done|]. split; lia.
Qed.

(** How many blocks a request can need: the blocks it touches, and one more
    for the end of the file. *)
Definition needed (offset size : Z) : nat :=
  Z.to_nat ((offset mod 4096 + size) / 4096 + 2).

Definition can_read (s : dso_st) (l : list Z) (offset size : Z) : Prop :=
  (offset = flen file ∧ covered s l offset) ∨
  ((needed offset size ≤ length (ds_pool s))%nat ∧
   (offset < flen file ∨ (4096 | flen file))).

Lemma can_read_next s l s' l' offset size :
  can_read s l offset size → 0 ≤ offset < flen file →
  step_len offset size < size → covered s' l' offset → cache_holds file s' l' →
  (length (ds_pool s) ≤ S (length (ds_pool s')))%nat →
  can_read s' l' (offset + step_len offset size) (size - step_len offset size).
Proof.
  intros Hcan Hoff Hlt Hcov Hc Hlen. unfold can_read, step_len in *.
  pose proof (Z.div_mod offset 4096). pose proof (Z.mod_pos_bound offset 4096).
  set (base := 4096 * (offset / 4096)) in *.
  destruct Hcan as [[? _]|[Hneed _]]; [lia|].
  destruct (decide (base + 4096 ≤ flen file)) as [Hle|Hgt].
  - right. replace (Z.min (Z.min (base + 4096) (flen file) - offset) size)
      with (base + 4096 - offset) in * by lia.
    replace (offset + (base + 4096 - offset)) with (base + 4096) by lia.
    split.
    + unfold needed in *. replace ((base + 4096) mod 4096) with 0.
      * replace (offset mod 4096 + size) with
          (0 + (size - (base + 4096 - offset)) + 1 * 4096) in Hneed by lia.
        rewrite Z.div_add in Hneed by lia.
        pose proof (Z.div_pos (0 + (size - (base + 4096 - offset))) 4096). lia.
      * subst base. replace (4096 * (offset / 4096) + 4096) with
          ((offset / 4096 + 1) * 4096) by lia. by rewrite Z.mod_mul.
    + destruct (decide (base + 4096 < flen file)); [by left|right].
      exists (offset / 4096 + 1). lia.
  - left. replace (Z.min (Z.min (base + 4096) (flen file) - offset) size)
      with (flen file - offset) by lia.
    split; [lia|]. destruct Hcov as (a & Ha & Hin).
    pose proof (covered_base s' l' a offset Hc Ha Hin) as Hb.
    exists a. split; [done|]. rewrite Hb. fold base. lia.
Qed.

Lemma cached_read_loop_wp fuel s l offset size r acc :
  cache_holds file s l → pool_ok s l → ready s → 0 ≤ offset ≤ flen file →
  0 < size < 2 ^ 63 → (Z.to_nat size < fuel)%nat → can_read s l offset size →
  wp (cached_read_loop long_name sys_stat sys_open errno sys_pread
        fuel offset size r acc)
     (λ v s', v = (let n := Z.min size (flen file - offset) in
                   (r + n, acc ++ slice file offset n)) ∧
        ∃ l', keeps s l s' l') s.
Proof.
  revert s l offset size r acc.
  induction fuel as [|fuel IH]; intros s l offset size r acc Hc Hp Hr Hoff Hs Hf Hcan; [lia|].
  cbn [cached_read_loop]. apply wp_bind. eapply wp_mono.
  { apply (dso_cache_read_wp s l offset size); try done.
    destruct Hcan as [[_ ?]|[Hneed ?]]; [by left|right]. split; [|done].
    intros Hnil. rewrite Hnil in Hneed. unfold needed in Hneed. simpl in Hneed.
    pose proof (Z.mod_pos_bound offset 4096).
    pose proof (Z.div_pos (offset mod 4096 + size) 4096). lia. }
  intros v s1 (-> & l1 & Hk1 & Hcov & Hlen). pose proof Hk1 as (Hc1 & Hp1 & Hr1 & _).
  pose proof (Z.div_mod offset 4096). pose proof (Z.mod_pos_bound offset 4096).
  assert (0 ≤ step_len offset size ≤ size ∧ step_len offset size ≤ flen file - offset ∧
    (step_len offset size = 0 ↔ offset = flen file)) as (Hn & Hnf & Hn0)
    by (unfold step_len; lia).
  rewrite (proj2 (Z.ltb_ge _ _)) by lia.
  destruct (Z.eqb_spec (step_len offset size) 0) as [Hz|Hnz].
  { apply wp_ret. cbv zeta. rewrite (proj1 Hn0 Hz), Z.sub_diag.
    rewrite Z.min_r by lia. rewrite Z.add_0_r, (slice_nil (flen file)), app_nil_r by done.
    split; [done|]. by exists l1. }
  assert (offset < flen file) as Hlt by lia. specialize (Hcov Hlt).
  apply wp_bind, wp_assert; [lia|]. cbv zeta.
  destruct (Z.eqb_spec (size - step_len offset size) 0) as [Hd|Hd].
  { apply wp_ret. replace (Z.min size (flen file - offset)) with (step_len offset size) by lia.
    split; [done|]. by exists l1. }
  rewrite w64_small by (unfold is_u64; lia). eapply wp_mono.
  { apply (IH s1 l1); [done..|lia|lia|lia|]. eapply can_read_next; try done; lia. }
  intros v s' (-> & l' & Hk'). split; [|exists l'; by eapply keeps_trans].
  cbv zeta. rewrite <- app_assoc, slice_app by lia.
  replace (step_len offset size +
    Z.min (size - step_len offset size) (flen file - (offset + step_len offset size)))
    with (Z.min size (flen file - offset)) by lia.
  f_equal. lia.
Qed.

(** ** From the entry point *)

Lemma data_file_size_wp s l :
  cache_holds file s l → pool_ok s l → ready s → ds_status s ≠ DSO_DATA_STATUS_ERROR →
  ds_file_size s = 0 ∨ ds_file_size s = flen file →
  wp (data_file_size long_name sys_stat sys_open errno sys_fstat)
     (λ rc s', rc = 0 ∧ ds_file_size s' = flen file ∧ ds_pool s' = ds_pool s ∧
        ds_cache s' = ds_cache s ∧
        cache_holds file s' l ∧ pool_ok s' l ∧ ready s' ∧
        ds_status s' ≠ DSO_DATA_STATUS_ERROR) s.
Proof.
  intros Hc Hp Hr Hst Hfs. unfold data_file_size. apply wp_bind, wp_get.
  destruct (Z.eqb_spec (ds_file_size s) 0) as [Hz|Hnz]; simpl.
  - apply wp_bind, wp_get. rewrite decide_False by done.
    apply wp_bind. eapply wp_mono; [by apply try_to_open_wp|].
    intros _ s' (fd & st & -> & Hfd & Hst'). pose proof Hfd as (Hfd0 & Hstat & _).
    apply wp_bind, wp_get. simpl. rewrite (proj2 (Z.ltb_ge _ _) Hfd0), Hstat.
    apply wp_bind, wp_modify, wp_ret. simpl.
    split; [done|]. split; [done|]. split; [done|]. split; [done|]. split.
    { by eapply cache_holds_frame; [exact Hc|..]. }
    split; [done|]. split; [by right|]. by destruct Hst' as [->| ->].
  - apply wp_ret. destruct Hfs as [?|Hfs]; [done|].
    split; [done|]. split; [done|]. split; [done|]. done.
Qed.

Lemma data_read_offset_wp s l offset size :
  cache_holds file s l → pool_ok s l → ready s → ds_status s ≠ DSO_DATA_STATUS_ERROR →
  ds_file_size s = 0 ∨ ds_file_size s = flen file →
  0 ≤ offset → 0 < size < 2 ^ 63 → (offset ≤ flen file → can_read s l offset size) →
  wp (dso__data_read_offset long_name sys_stat sys_open errno sys_fstat sys_pread
        offset size)
     (λ v s', v = (if flen file <? offset then (-1, []) else
                   let n := Z.min size (flen file - offset) in (n, slice file offset n)) ∧
        ∃ l', cache_holds file s' l' ∧ pool_ok s' l' ∧ ready s' ∧
          ds_status s' ≠ DSO_DATA_STATUS_ERROR ∧ ds_file_size s' = flen file ∧
          ∀ x, covered s l x → covered s' l' x) s.
Proof.
  intros Hc Hp Hr Hst Hfs Hoff Hs Hcan. unfold dso__data_read_offset, data_read_offset.
  apply wp_bind, wp_get. rewrite decide_False by done.
  apply wp_bind. eapply wp_mono; [by apply (data_file_size_wp s l)|].
  intros rc s1 (-> & Hfs1 & Hpool1 & Hca1 & Hc1 & Hp1 & Hr1 & Hst1). simpl.
  apply wp_bind, wp_get. rewrite Hfs1.
  destruct (Z.ltb_spec (flen file) offset) as [Hgt|Hle].
  { apply wp_ret. split; [done|]. exists l. split; [done|]. split; [done|].
    split; [done|]. split; [done|]. split; [done|]. intros x.
    apply covered_agree. by rewrite Hca1. }
  rewrite (w64_small size), (w64_small (offset + size)) by (unfold is_u64; lia).
  destruct (Z.ltb_spec (offset + size) offset); [lia|].
  eapply wp_mono.
  { apply (cached_read_loop_wp _ s1 l); try done; [lia|].
    specialize (Hcan Hle). unfold can_read, covered in *. by rewrite Hpool1, Hca1. }
  intros v s' (-> & l' & Hk). split; [done|]. exists l'.
  destruct Hk as (? & ? & ? & Hst' & Hfs' & Hcv).
  split; [done|]. split; [done|]. split; [done|]. split; [auto|].
  split; [by rewrite Hfs'|]. intros x Hx. apply Hcv. revert Hx. apply covered_agree.
  by rewrite Hca1.
Qed.

(** A root that points to a freed block makes every lookup fault. *)
Lemma find_dangles off s a :
  rb_root_node (ds_rb s) = a → a ≠ NULL → ds_cache s !! a = None →
  dso_cache__find off s = Fault.
Proof.
  intros Hroot Ha Hc. apply bind_fault. unfold rb_search. cbn [rb_descend].
  rewrite (bind_ok _ _ s a s) by (unfold lift; simpl; by rewrite Hroot; destruct s).
  rewrite (proj2 (Z.eqb_neq _ _) Ha). apply bind_fault, bind_fault.
  unfold cache_load, lift, obj_load. rewrite (proj2 (Z.eqb_neq a NULL) Ha). simpl. by rewrite Hc.
Qed.

(** ** The end of a file whose last block is partial and not cached

  dso_cache__read links the block, copies nothing, and frees the block it
  has just linked. *)
Lemma read_eof_dangles s offset size :
  cache_holds file s [] → pool_ok s [] → ready s → ds_pool s ≠ [] →
  offset = flen file → flen file mod 4096 ≠ 0 → 0 ≤ size < 2 ^ 63 →
  wp (dso_cache__read long_name sys_stat sys_open errno sys_pread offset size)
     (λ v s', v = (0, []) ∧ rb_root_node (ds_rb s') ≠ NULL ∧
        rb_mem (ds_rb s') !! rb_root_node (ds_rb s') = None ∧
        ∀ off, dso_cache__find off s' = Fault) s.
Proof.
  intros Hc Hp Hr Hne -> Hmod Hs. apply read_prepare_wp with (l := []); [done..|].
  intros a s1 Hok Hal Hap Hc1 Hp1 Hfd Hpool Hmem [c0 Hca] Hkeep _.
  assert (0 ≤ flen file) by (unfold flen; lia).
  pose proof Hfd as (Hfd0 & _ & Hread).
  apply wp_bind, wp_get. rewrite (proj2 (Z.ltb_ge _ _) Hfd0). cbv zeta.
  change (Z.land (flen file) DSO__DATA_CACHE_MASK) with (block_of (flen file)).
  rewrite block_of_spec by (unfold is_u64; lia).
  pose proof (Z.div_mod (flen file) 4096). pose proof (Z.mod_pos_bound (flen file) 4096).
  pose proof (Z.div_pos (flen file) 4096).
  set (base := 4096 * (flen file / 4096)) in *.
  rewrite Hread by lia. set (d := slice file base DSO__DATA_CACHE_SIZE).
  assert (Z.of_nat (length d) = flen file - base) as Hd.
  { subst d. rewrite length_slice; unfold DSO__DATA_CACHE_SIZE; lia. }
  destruct (Z.leb_spec (Z.of_nat (length d)) 0); [lia|].
  set (c := DsoCache base (Z.of_nat (length d)) d).
  apply wp_bind, wp_bind, wp_lift. eapply wp_obj_store; [apply Hok|exact Hca|]. apply wp_ret.
  rewrite (proj2 (Z.ltb_lt _ _)) by lia.
  set (s2 := with_part (<[a:=c]> (part s1)) s1).
  assert (block_ok file c) as Hblk.
  { split; [exists (flen file / 4096); simpl; lia|]. split; [simpl; lia|done]. }
  assert (cache_holds file s2 []) as Hc2.
  { eapply cache_holds_frame; [exact Hc1|..]; try done; set_solver. }
  apply wp_bind, wp_bind. eapply wp_mono.
  { apply (insert_block_wp s2 [] a c); try done; [simpl; by rewrite lookup_insert_eq|].
    intros (b & Hb & _). set_solver. }
  intros v s3 (-> & r' & l1 & l2 & Hnil & Hs3 & Hc3 & Hp3). simpl.
  symmetry in Hnil. apply app_nil in Hnil as [-> ->]. simpl in Hc3.
  assert (ds_cache s3 !! a = Some c) as Hcache3 by (rewrite Hs3; simpl; by rewrite lookup_insert_eq).
  apply wp_bind, wp_ret, wp_bind. rewrite w64_small by (unfold is_u64; lia).
  eapply wp_mono.
  { apply (memcpy_wp file s3 a c (flen file) size); try done; simpl; try lia. apply Hok. }
  intros v s4 (-> & ->). cbv zeta.
  replace (Z.min (Z.min (dc_offset c + 4096) (flen file) - flen file) size) with 0 by (simpl; lia).
  apply wp_ret. simpl. destruct Hc3 as ((t & (Ht & Hroot & _) & _ & Hord) & _).
  assert (rb_root_node (ds_rb s3) = a) as Hra.
  { destruct t as [|tc tl x tr]; simpl in Hord; [done|].
    apply app_eq_unit in Hord as [[_ Hx]|[_ ?]]; [|done]. by injection Hx as ->. }
  assert (a ≠ NULL) as Hnz by apply Hok.
  apply wp_bind. unfold wp, free_cache. rewrite (proj2 (Z.eqb_neq _ _) Hnz), Hcache3. simpl.
  rewrite Hra, lookup_delete_eq. split; [done|]. split; [done|]. split; [done|].
  intros off. apply (find_dangles _ _ a); [done|done|]. simpl. by rewrite lookup_delete_eq.
Qed.
End read.
