(* ===== verification/DsoProps.v ===== *)
(** What reading a dso promises: the theorems on the block cache of
    src/src/dso.c, and one on what it does at the end of a file. *)
From Stdlib Require Import ZArith Lia String.
From stdpp Require Import base tactics option list numbers gmap sorting.
From S2P Require Import Prelude RbTree RbSpec RbRep RbSearch DsoData Utility.

Local Open Scope Z_scope.

(** ** A concrete dso: a file of five bytes, not open yet, nothing cached *)

Definition ex_file : list Z := [10; 20; 30; 40; 50].
Definition ex_pread (fd count off : Z) : Z * list Z :=
  let d := slice ex_file off count in (Z.of_nat (length d), d).
Definition ex_dso : dso_st :=
  DsoSt (RbState ∅ NULL) ∅ (-1) DSO_DATA_STATUS_UNKNOWN 0 [4096; 8192; 12288].
(** The same dso, opened. *)
Definition ex_dso_open : dso_st :=
  DsoSt (RbState ∅ NULL) ∅ 3 DSO_DATA_STATUS_OK 5 [4096; 8192; 12288].

Definition ex_opens :=
  opens ex_file "f" ex_stat (λ _, 3) (λ _, Some 5) ex_pread.

Lemma ex_opens_ok : ex_opens.
Proof. split; [done|]. split_and!; done. Qed.
Lemma ex_cache_empty file s : ds_rb s = RbState ∅ NULL → cache_holds file s [].

Proof.
  intros Hs. split_and!; [|intros a Ha; by apply not_elem_of_nil in Ha|constructor].
  exists E. rewrite Hs. split_and!; [split_and!; [done|done|constructor]| |done].
  exists 0%nat. constructor.
Qed.
Lemma ex_pool_ok s : ds_pool s = [4096; 8192; 12288] → pool_ok s [].
Proof.
  intros Hs. unfold pool_ok. rewrite Hs. split.
  - apply (bool_decide_unpack (NoDup [4096; 8192; 12288])). by vm_compute.
  - intros a Ha. split; [|apply not_elem_of_nil].
    assert (a ∈ [4096; 8192; 12288] → a ≠ NULL ∧ (0 ≤ a < 2 ^ 64) ∧ a mod 8 = 0) as H.
    { intros [->|[->|[->|[]%elem_of_nil]%elem_of_cons]%elem_of_cons]%elem_of_cons; done. }
    destruct (H Ha) as (? & ? & ?). done.
Qed.

(** ** Reading *)

(** C15. dso__data_read_offset returns the bytes of the file: for an offset
    inside the file it copies min(size, file size - offset) bytes starting
    there, whatever part of them was cached before, and -1 beyond the end of
    the file; the cache stays a red-black tree of distinct blocks of the file,
    sorted by offset, and nothing cached is lost.  The read may not start at the
    end of a file whose partial last block is not cached ([can_read]). *)
Theorem dso_read_correct (file : list Z) (long_name : string)
    (sys_stat : string → option Z) (sys_open : string → Z) (errno : Z)
    (sys_fstat : Z → option Z) (sys_pread : Z → Z → Z → Z * list Z)
    (s : dso_st) (l : list Z) (offset size : Z) :
  flen file + 4096 < 2 ^ 63 →
  opens file long_name sys_stat sys_open sys_fstat sys_pread →
  cache_holds file s l → pool_ok s l → ready file sys_fstat sys_pread s →
  ds_status s ≠ DSO_DATA_STATUS_ERROR →
  ds_file_size s = 0 ∨ ds_file_size s = flen file →
  0 ≤ offset → 0 < size < 2 ^ 63 → (offset ≤ flen file → can_read file s l offset size) →
  wp (dso__data_read_offset long_name sys_stat sys_open errno sys_fstat sys_pread
        offset size)
     (λ v s', v = (if flen file <? offset then (-1, []) else
                   let n := Z.min size (flen file - offset) in (n, slice file offset n)) ∧
        ∃ l', cache_holds file s' l' ∧ pool_ok s' l' ∧ ready file sys_fstat sys_pread s' ∧
          ds_status s' ≠ DSO_DATA_STATUS_ERROR ∧ ds_file_size s' = flen file ∧
          ∀ x, covered s l x → covered s' l' x) s.
Proof. intros. by apply data_read_offset_wp. Qed.

Lemma dso_read_correct_witness :
  wp (dso__data_read_offset "f" ex_stat (λ _, 3) 0 (λ _, Some 5) ex_pread 1 10)
     (λ v s', v = (4, [20; 30; 40; 50]) ∧
        ∃ l', cache_holds ex_file s' l' ∧ pool_ok s' l' ∧
          ready ex_file (λ _, Some 5) ex_pread s' ∧
          ds_status s' ≠ DSO_DATA_STATUS_ERROR ∧ ds_file_size s' = 5 ∧
          ∀ x, covered ex_dso [] x → covered s' l' x) ex_dso.
Proof.
  apply (dso_read_correct ex_file "f" ex_stat (λ _, 3) 0 (λ _, Some 5) ex_pread
           ex_dso [] 1 10);
    [done|apply ex_opens_ok|by apply ex_cache_empty|by apply ex_pool_ok|by left|done|by left
    |done|done|].
  intros _. right. split; [by apply (bool_decide_unpack (needed 1 10 ≤ 3)%nat)|by left].
Defined.

(** C16. Reading at the end of a file whose partial last block is not cached
    frees the block that was just linked into the cache: the read answers 0,
    the root of the cache is left pointing to freed memory, and every later
    lookup in that cache follows it. *)
Theorem dso_read_eof_use_after_free (file : list Z) (long_name : string)
    (sys_stat : string → option Z) (sys_open : string → Z) (errno : Z)
    (sys_fstat : Z → option Z) (sys_pread : Z → Z → Z → Z * list Z)
    (s : dso_st) (size : Z) :
  flen file + 4096 < 2 ^ 63 →
  opens file long_name sys_stat sys_open sys_fstat sys_pread →
  cache_holds file s [] → pool_ok s [] → ready file sys_fstat sys_pread s →
  ds_pool s ≠ [] → flen file mod 4096 ≠ 0 → 0 ≤ size < 2 ^ 63 →
  wp (dso_cache__read long_name sys_stat sys_open errno sys_pread (flen file) size)
     (λ v s', v = (0, []) ∧ rb_root_node (ds_rb s') ≠ NULL ∧
        rb_mem (ds_rb s') !! rb_root_node (ds_rb s') = None ∧
        ∀ off, dso_cache__find off s' = Fault) s.
Proof. intros. by eapply read_eof_dangles. Qed.

Lemma dso_read_eof_use_after_free_witness :
  wp (dso_cache__read "f" ex_stat (λ _, 3) 0 ex_pread 5 8)
     (λ v s', v = (0, []) ∧ rb_root_node (ds_rb s') ≠ NULL ∧
        rb_mem (ds_rb s') !! rb_root_node (ds_rb s') = None ∧
        ∀ off, dso_cache__find off s' = Fault) ex_dso_open.
Proof.
  apply (dso_read_eof_use_after_free ex_file "f" ex_stat (λ _, 3) 0 (λ _, Some 5) ex_pread
           ex_dso_open 8);
    [done|apply ex_opens_ok|by apply ex_cache_empty|by apply ex_pool_ok| |done|done|done].
  right. split_and!; done.
Defined.

(** C17. Copying out of a cached block is bounded by the block only as long as
    the offset is not past the bytes it holds: up to there
    min(bytes left, size) bytes are copied; past them the unsigned
    subtraction wraps and the copy reads bytes that the block does not hold
    (uninitialised, or beyond the allocation).  Offsets past the end arise only
    when the file has changed after its size was read. *)
Theorem dso_memcpy_bounds (a offset size : Z) (c : dso_cache) (s : dso_st) :
  a ≠ NULL → ds_cache s !! a = Some c → dc_size c = Z.of_nat (length (dc_data c)) →
  is_u64 offset → dc_offset c ≤ offset → 0 ≤ dc_offset c → dc_size c ≤ DSO__DATA_CACHE_SIZE →
  0 < size < 2 ^ 63 →
  (offset - dc_offset c ≤ dc_size c →
   wp (dso_cache__memcpy a offset size)
      (λ v s', s' = s ∧ fst v = Z.min (dc_size c - (offset - dc_offset c)) size ∧
         snd v = slice (dc_data c) (offset - dc_offset c) (fst v)) s) ∧
  (dc_size c < offset - dc_offset c →
   size ≤ 2 ^ 64 - (offset - dc_offset c) → dso_cache__memcpy a offset size s = Fault).
Proof.
  unfold is_u64, DSO__DATA_CACHE_SIZE. intros Ha Hc Hsz Hu Hoff Ho Hmax Hs. split.
  - intros Hin. unfold dso_cache__memcpy. apply wp_bind. eapply wp_cache_load; [done..|].
    rewrite (w64_small (offset - dc_offset c)), w64_small by (unfold is_u64; lia).
    set (n := Z.min (dc_size c - (offset - dc_offset c)) size). rewrite <- Hsz.
    destruct (Z.leb_spec (offset - dc_offset c + n) (dc_size c)); [|lia].
    apply wp_ret. split; [done|]. simpl.
    assert (signed 64 n = n) as ->; [|done].
    unfold signed. rewrite Z.mod_small by lia. change (2 ^ (64 - 1)) with (2 ^ 63).
    destruct (Z.ltb_spec n (2 ^ 63)); lia.
  - intros Hout Hroom. unfold dso_cache__memcpy.
    rewrite (bind_ok _ _ s c s).
    + rewrite (w64_small (offset - dc_offset c)) by (unfold is_u64; lia).
      assert (w64 (dc_size c - (offset - dc_offset c)) =
        2 ^ 64 + (dc_size c - (offset - dc_offset c))) as ->.
      { unfold w64. symmetry. apply (Z.mod_unique_pos _ _ (-1)); lia. }
      rewrite <- Hsz. set (n := Z.min _ _).
      destruct (Z.leb_spec (offset - dc_offset c + n) (dc_size c)); [|done]. lia.
    + unfold cache_load, lift, obj_load. rewrite (proj2 (Z.eqb_neq a NULL) Ha). simpl.
      rewrite Hc. by destruct s.
Qed.

Definition ex_block : dso_st :=
  DsoSt (RbState ∅ NULL) (<[4096 := DsoCache 0 5 ex_file]> ∅) 3 DSO_DATA_STATUS_OK 5 [].

Lemma dso_memcpy_bounds_witness :
  wp (dso_cache__memcpy 4096 3 9)
     (λ v s', s' = ex_block ∧ fst v = 2 ∧ snd v = slice ex_file 3 (fst v)) ex_block ∧
  dso_cache__memcpy 4096 6 9 ex_block = Fault.
Proof.
  split.
  - apply (dso_memcpy_bounds 4096 3 9 (DsoCache 0 5 ex_file) ex_block); done.
  - apply (dso_memcpy_bounds 4096 6 9 (DsoCache 0 5 ex_file) ex_block); done.
Defined.
