(* ===== verification/Ptrace.v ===== *)
(** Register files: src/src/ptrace.h and the register numbering of
    src/src/unwind_libunwind.c (LIBUNWIND__ARCH_REG_ID).

    A [struct pt_regs] is the list of its 21 words in memory order; reading
    it at a byte offset that is not one of those words faults. *)
From Stdlib Require Import ZArith Lia.
From stdpp Require Import base tactics option list numbers.
From S2P Require Import Prelude.

Local Open Scope Z_scope.

(** ** struct pt_regs *)

Record pt_regs := PtRegs {
  r15 : Z; r14 : Z; r13 : Z; r12 : Z; bp : Z; bx : Z;
  r11 : Z; r10 : Z; r9 : Z; r8 : Z; ax : Z; cx : Z; dx : Z; si : Z; di : Z;
  orig_ax : Z;
  ip : Z; cs : Z; flags : Z; sp : Z; ss : Z;
}.

(** The words of the struct, in the order of its members. *)
Definition pt_regs_words (r : pt_regs) : list Z :=
  [r15 r; r14 r; r13 r; r12 r; bp r; bx r; r11 r; r10 r; r9 r; r8 r; ax r; cx r; dx r;
   si r; di r; orig_ax r; ip r; cs r; flags r; sp r; ss r].

(** [enum x86_regs] *)
Definition X86_AX : Z := 0.
Definition X86_BX : Z := 1.
Definition X86_CX : Z := 2.
Definition X86_DX : Z := 3.
Definition X86_SI : Z := 4.
Definition X86_DI : Z := 5.
Definition X86_BP : Z := 6.
Definition X86_SP : Z := 7.
Definition X86_IP : Z := 8.
Definition X86_R8 : Z := 16.
Definition X86_R9 : Z := 17.
Definition X86_R10 : Z := 18.
Definition X86_R11 : Z := 19.
Definition X86_R12 : Z := 20.
Definition X86_R13 : Z := 21.
Definition X86_R14 : Z := 22.
Definition X86_R15 : Z := 23.
Definition X86_64_MAX : Z := X86_R15 + 1.

(** [offsetof(struct pt_regs, r)] for the member at a position. *)
Definition offsetof (pos : Z) : Z := 8 * pos.

(** The table, indexed by [enum x86_regs]; the segment registers that pt_regs
    does not store have the offset [(unsigned int) -1]. *)
Definition pt_regs_offset : list Z :=
  [offsetof 10; offsetof 5; offsetof 11; offsetof 12; offsetof 13; offsetof 14; offsetof 4;
   offsetof 19; offsetof 16; offsetof 18; offsetof 17; offsetof 20;
   w32 (-1); w32 (-1); w32 (-1); w32 (-1);
   offsetof 9; offsetof 8; offsetof 7; offsetof 6; offsetof 3; offsetof 2; offsetof 1;
   offsetof 0].

(** The word at a byte offset from the start of the struct. *)
Definition read_regs (regs : pt_regs) (offset : Z) : option Z :=
  if offset mod 8 =? 0 then pt_regs_words regs !! Z.to_nat (offset / 8) else None.

(** The assert compares an int with a size_t, so a negative index fails it. *)
Definition reg_value {S} (regs : pt_regs) (idx : Z) : cm S Z :=
  c_assert (w64 idx <? Z.of_nat (length pt_regs_offset));;
  match pt_regs_offset !! Z.to_nat (w64 idx) ≫= read_regs regs with
  | Some v => mret v
  | None => c_fault
  end.

(** ** Register numbers of libunwind (libunwind-x86_64.h) *)

(** [UNW_X86_64_RAX] to [UNW_X86_64_RIP]: the DWARF numbers 0 to 16. *)
Definition LIBUNWIND__ARCH_REG_ID (regnum : Z) : Z :=
  match regnum with
  | 0 => X86_AX
  | 1 => X86_DX
  | 2 => X86_CX
  | 3 => X86_BX
  | 4 => X86_SI
  | 5 => X86_DI
  | 6 => X86_BP
  | 7 => X86_SP
  | 8 => X86_R8
  | 9 => X86_R9
  | 10 => X86_R10
  | 11 => X86_R11
  | 12 => X86_R12
  | 13 => X86_R13
  | 14 => X86_R14
  | 15 => X86_R15
  | 16 => X86_IP
  | _ => - EINVAL
  end.

(** access_reg: writes are ignored ([None]: nothing stored). *)
Definition access_reg {S} (regs : pt_regs) (regnum : Z) (__write : bool) : cm S (option Z * Z) :=
  if __write then mret (None, 0) else
  let id := LIBUNWIND__ARCH_REG_ID regnum in
  v ← reg_value regs id;
  mret (Some v, 0).

(** What the DWARF numbering means: the register of each number. *)
Definition dwarf_reg (regs : pt_regs) (regnum : Z) : option Z :=
  if (0 <=? regnum) && (regnum <=? 16) then
    [ax regs; dx regs; cx regs; bx regs; si regs; di regs; bp regs; sp regs;
     r8 regs; r9 regs; r10 regs; r11 regs; r12 regs; r13 regs; r14 regs; r15 regs;
     ip regs] !! Z.to_nat regnum
  else None.

Lemma reg_value_sp {S} (regs : pt_regs) (s : S) : reg_value regs X86_SP s = Ok (sp regs, s).
Proof. done. Qed.
Lemma reg_value_ip {S} (regs : pt_regs) (s : S) : reg_value regs X86_IP s = Ok (ip regs, s).
Proof. done. Qed.

Lemma dwarf_reg_cases regs regnum v :
  dwarf_reg regs regnum = Some v →
  (0 ≤ regnum ≤ 16) ∧ ∀ S (s : S),
    reg_value regs (LIBUNWIND__ARCH_REG_ID regnum) s = Ok (v, s).
Proof.
  unfold dwarf_reg. intros H. destruct ((0 <=? regnum) && (regnum <=? 16)) eqn:Hr; [|done].
  assert (0 ≤ regnum ≤ 16) as Hrange by lia. split; [done|]. clear Hr. intros S s.
  assert (regnum = 0 ∨ regnum = 1 ∨ regnum = 2 ∨ regnum = 3 ∨ regnum = 4 ∨ regnum = 5 ∨
    regnum = 6 ∨ regnum = 7 ∨ regnum = 8 ∨ regnum = 9 ∨ regnum = 10 ∨ regnum = 11 ∨
    regnum = 12 ∨ regnum = 13 ∨ regnum = 14 ∨ regnum = 15 ∨ regnum = 16) as Hc by lia.
  destruct_or! Hc; subst regnum; injection H as <-; reflexivity.
Qed.

Lemma reg_id_unknown regnum : regnum < 0 ∨ 16 < regnum → LIBUNWIND__ARCH_REG_ID regnum = - EINVAL.
Proof.
  intros H. unfold LIBUNWIND__ARCH_REG_ID. repeat case_match; try done; lia.
Qed.

(** C18. access_reg gives libunwind the register that the DWARF number names,
    for all of 0 (rax) to 16 (rip), and ignores writes. *)
Theorem access_reg_correct {S} (regs : pt_regs) (regnum v : Z) (s : S) :
  dwarf_reg regs regnum = Some v →
  access_reg regs regnum false s = Ok ((Some v, 0), s) ∧
  access_reg regs regnum true s = Ok ((None, 0), s).
Proof.
  intros Hv. apply dwarf_reg_cases in Hv as [_ Hv]. split; [|done].
  unfold access_reg. by rewrite (bind_ok _ _ s v s).
Qed.

Definition ex_regs : pt_regs :=
  PtRegs 15 14 13 12 106 103 11 10 9 8 100 102 101 104 105 0 116 1 2 107 3.

Lemma access_reg_correct_witness :
  access_reg (S:=unit) ex_regs 7 false tt = Ok ((Some 107, 0), tt) ∧
  access_reg (S:=unit) ex_regs 7 true tt = Ok ((None, 0), tt).
Proof. apply (access_reg_correct ex_regs 7 107 tt). reflexivity. Defined.

(** For any other register number LIBUNWIND__ARCH_REG_ID reports -EINVAL,
    but access_reg uses the error code as an index and aborts the program
    instead of returning an error to libunwind. *)
Theorem access_reg_unknown_aborts {S} (regs : pt_regs) (regnum : Z) (s : S) :
  regnum < 0 ∨ 16 < regnum →
  LIBUNWIND__ARCH_REG_ID regnum = - EINVAL ∧ access_reg regs regnum false s = Abort.
Proof.
  intros Hr. pose proof (reg_id_unknown regnum Hr) as Hid. split; [done|].
  unfold access_reg. by rewrite Hid.
Qed.

Lemma access_reg_unknown_aborts_witness :
  LIBUNWIND__ARCH_REG_ID 17 = - EINVAL ∧ access_reg (S:=unit) ex_regs 17 false tt = Abort.
Proof. apply (access_reg_unknown_aborts ex_regs 17 tt). by right. Defined.
