(* ===== verification/SymbolElf.v ===== *)
(** Looking a section up by name: src/src/symbol_elf.c, and
    elf_section_offset of src/src/unwind_libunwind.c.

    libelf is a parameter: the section headers it hands out one after the
    other, each with the name elf_strptr finds for it (NULL when it finds
    none) and its sh_offset. *)
From Stdlib Require Import ZArith Lia String.
From stdpp Require Import base tactics option list numbers strings.
From S2P Require Import Prelude.

Local Open Scope Z_scope.

Record shdr := Shdr { sh_name : option string; sh_offset : Z }.

(** What libelf reports for one file. *)
Record elf := Elf {
  elf_rawdata_ok : bool;      (* the string table section has data *)
  elf_ehdr_ok : bool;         (* gelf_getehdr *)
  elf_sections : list shdr;
}.

(** The [while] loop: [shp] is the caller's header buffer, [cnt] the count;
    the result is the section found with its index, and the buffer. *)
Fixpoint elf_section_loop (secs : list shdr) (name : string) (shp : shdr) (cnt : Z) :
    option Z * shdr :=
  match secs with
  | [] => (None, shp)
  | sec :: secs =>
    match sh_name sec with
    | Some str => if String.eqb name str then (Some cnt, sec)
                  else elf_section_loop secs name sec (cnt + 1)
    | None => elf_section_loop secs name sec (cnt + 1)
    end
  end.

Definition elf_section_by_name (e : elf) (name : string) (shp : shdr) : option Z * shdr :=
  if negb (elf_rawdata_ok e) then (None, shp)
  else elf_section_loop (elf_sections e) name shp 1.

(** elf_section_offset: [None] is a failing elf_begin. *)
Definition elf_section_offset (e : option elf) (name : string) : Z :=
  match e with
  | None => 0
  | Some e =>
    if negb (elf_ehdr_ok e) then 0 else
    match elf_section_by_name e name (Shdr None 0) with
    | (None, _) => 0
    | (Some _, shdr) => sh_offset shdr
    end
  end.

Definition named (name : string) (s : shdr) : bool :=
  match sh_name s with Some str => String.eqb name str | None => false end.

Lemma last_nonempty {A} (x : A) l d d' : List.last (x :: l) d = List.last (x :: l) d'.
Proof. revert x. induction l as [|y l IH]; intros x; [done|]. apply IH. Qed.

Lemma elf_section_loop_spec secs name shp cnt :
  elf_section_loop secs name shp cnt =
    match list_find (λ s, Is_true (named name s)) secs with
    | Some (i, s) => (Some (cnt + Z.of_nat i), s)
    | None => (None, List.last secs shp)
    end.
Proof.
  revert shp cnt. induction secs as [|s secs IH]; intros shp cnt; [done|].
  simpl elf_section_loop. simpl list_find.
  assert (elf_section_loop secs name s (cnt + 1) =
    match prod_map S id <$> list_find (λ s, Is_true (named name s)) secs with
    | Some (i, s) => (Some (cnt + Z.of_nat i), s)
    | None => (None, List.last (s :: secs) shp)
    end) as Hnext.
  { rewrite IH. destruct (list_find _ secs) as [[i s']|]; simpl.
    - f_equal. f_equal. lia.
    - destruct secs as [|s' secs]; [done|]. f_equal. apply last_nonempty. }
  destruct (decide (named name s)) as [Hd|Hd]; unfold named in Hd.
  - destruct (sh_name s) as [str|]; [|done]. apply Is_true_true in Hd. rewrite Hd.
    f_equal. f_equal. lia.
  - destruct (sh_name s) as [str|]; [|done]. destruct (String.eqb name str); [by destruct Hd|done].
Qed.

(** C19. elf_section_by_name returns the first section of that name with its
    position counted from 1; elf_section_offset is the file offset of that
    section, and 0 when the file cannot be read or has none. *)
Theorem elf_section_correct (e : elf) (name : string) (shp : shdr) :
  let found := list_find (λ s, Is_true (named name s)) (elf_sections e) in
  (elf_rawdata_ok e = true →
   fst (elf_section_by_name e name shp) = (λ x, 1 + Z.of_nat (fst x)) <$> found ∧
   (∀ i s, found = Some (i, s) → snd (elf_section_by_name e name shp) = s)) ∧
  elf_section_offset (Some e) name =
    (if elf_ehdr_ok e && elf_rawdata_ok e
     then from_option (λ x, sh_offset (snd x)) 0 found else 0) ∧
  elf_section_offset None name = 0.
Proof.
  intros found. subst found. unfold elf_section_offset, elf_section_by_name.
  destruct (elf_rawdata_ok e), (elf_ehdr_ok e); simpl; rewrite ?elf_section_loop_spec.
  all: destruct (list_find _ (elf_sections e)) as [[i s]|]; simpl; split_and!; try done.
  all: intros _; split; [done|]; intros; by simplify_eq.
Qed.

Lemma elf_section_correct_witness :
  let e := Elf true true [Shdr (Some ".text") 64; Shdr None 1; Shdr (Some ".eh_frame_hdr") 96;
                          Shdr (Some ".eh_frame_hdr") 200] in
  elf_section_offset (Some e) ".eh_frame_hdr" = 96 ∧
  fst (elf_section_by_name e ".eh_frame_hdr" (Shdr None 0)) = Some 3.
Proof.
  intros e. pose proof (elf_section_correct e ".eh_frame_hdr" (Shdr None 0)) as (H1 & H2 & _).
  split; [exact H2|]. destruct (H1 eq_refl) as [H _]. exact H.
Defined.
