(* ===== verification/EhFrame.v ===== *)
(** Decoding the .eh_frame_hdr of a dso: src/src/unwind_libunwind.c, dw_read,
    __dw_read_encoded_value, unwind_spec_ehframe and
    read_unwind_spec_eh_frame.

    A buffer is its bytes and the address it lies at (which pc-relative
    encodings add to the value); [None] is the result -EINVAL, and reading a
    byte outside the buffer faults. *)
From Stdlib Require Import ZArith Lia String.
From stdpp Require Import base tactics option list numbers gmap sorting.
From S2P Require Import Prelude RbTree RbSpec RbRep RbSearch DsoData SymbolElf Utility.

Local Open Scope Z_scope.

(** ** Encodings *)

Definition DW_EH_PE_FORMAT_MASK : Z := 0x0f.
Definition DW_EH_PE_APPL_MASK : Z := 0x70.
Definition DW_EH_PE_omit : Z := 0xff.
Definition DW_EH_PE_ptr : Z := 0x00.
Definition DW_EH_PE_udata4 : Z := 0x03.
Definition DW_EH_PE_udata8 : Z := 0x04.
Definition DW_EH_PE_sdata4 : Z := 0x0b.
Definition DW_EH_PE_sdata8 : Z := 0x0c.
Definition DW_EH_PE_absptr : Z := 0x00.
Definition DW_EH_PE_pcrel : Z := 0x10.

(** Little-endian words. *)
Fixpoint le_value (bs : list Z) : Z :=
  match bs with [] => 0 | b :: bs => b + 256 * le_value bs end.
Fixpoint le_bytes (n : nat) (v : Z) : list Z :=
  match n with O => [] | S n => v mod 256 :: le_bytes n (v / 256) end.

Section buffer.
Variables (base : Z) (mem : list Z).

(** [dw_read(ptr, type, end)] for a type of [n] bytes: the value and the
    advanced pointer. *)
Definition dw_read (ptr n end_ : Z) : outcome (option (Z * Z)) :=
  if end_ <? ptr + n then Ok None
  else if (base <=? ptr) && (ptr + n <=? base + Z.of_nat (length mem))
  then Ok (Some (le_value (slice mem (ptr - base) n), ptr + n))
  else Fault.

Definition __dw_read_encoded_value (p end_ encoding : Z) : outcome (option (Z * Z)) :=
  if encoding =? DW_EH_PE_omit then Ok (Some (0, p)) else
  if encoding =? DW_EH_PE_ptr then dw_read p 8 end_ else
  let appl := Z.land encoding DW_EH_PE_APPL_MASK in
  if negb (appl =? DW_EH_PE_absptr) && negb (appl =? DW_EH_PE_pcrel) then Ok None else
  let val := if appl =? DW_EH_PE_pcrel then w64 p else 0 in
  let encoding := if Z.land encoding 0x07 =? 0 then Z.lor encoding DW_EH_PE_udata4
                  else encoding in
  let fmt := Z.land encoding DW_EH_PE_FORMAT_MASK in
  let add (n : Z) (conv : Z → Z) :=
    match dw_read p n end_ with
    | Ok (Some (v, p')) => Ok (Some (w64 (val + conv v), p'))
    | o => o
    end in
  if fmt =? DW_EH_PE_sdata4 then add 4 (signed 32)
  else if fmt =? DW_EH_PE_udata4 then add 4 id
  else if fmt =? DW_EH_PE_sdata8 then add 8 (signed 64)
  else if fmt =? DW_EH_PE_udata8 then add 8 id
  else Ok None.
End buffer.

(** ** The header (unwind_libunwind.c:61-83, 178-226)

    [sizeof(struct eh_frame_hdr)], and the offset of [enc]. *)
Definition sizeof_hdr : Z := 20.
Definition offsetof_enc : Z := 4.

Definition of_outcome {S A} (o : outcome A) : cm S A := λ s,
  match o with
  | Ok a => Ok (a, s)
  | Fault => Fault
  | Abort => Abort
  | NoFuel => NoFuel
  end.

Section ehframe.
Variables (long_name : string) (sys_stat : string → option Z) (sys_open : string → Z)
          (errno : Z) (sys_fstat : Z → option Z) (sys_pread : Z → Z → Z → Z * list Z)
          (hdr_addr : Z)                     (* where the local [hdr] lies *)
          (elf_begin : Z → option elf).      (* libelf, on a descriptor *)

(** The three results are [*table_data], [*segbase] and [*fde_count]. *)
Definition unwind_spec_ehframe (offset : Z) : dm (option (Z * Z * Z)) :=
  '(r, hdr) ← dso__data_read_offset long_name sys_stat sys_open errno sys_fstat
                sys_pread offset sizeof_hdr;
  if negb (r =? sizeof_hdr) then mret None else
  let enc := hdr_addr + offsetof_enc in
  let end_ := hdr_addr + sizeof_hdr in
  let eh_frame_ptr_enc := nth 1 hdr 0 in
  let fde_count_enc := nth 2 hdr 0 in
  skip ← of_outcome (__dw_read_encoded_value hdr_addr hdr enc end_ eh_frame_ptr_enc);
  match skip with
  | None => mret None
  | Some (_, enc) =>
    count ← of_outcome (__dw_read_encoded_value hdr_addr hdr enc end_ fde_count_enc);
    match count with
    | None => mret None
    | Some (fde_count, enc) =>
      mret (Some (w64 ((enc - hdr_addr) + offset), offset, fde_count))
    end
  end.

(** [hdr_off] is the field [dso->data.eh_frame_hdr_offset]; the first result
    is its new value. *)
Definition read_unwind_spec_eh_frame (hdr_off : Z) : dm (Z * option (Z * Z * Z)) :=
  found ←
    (if hdr_off =? 0 then
       fd ← dso__data_get_fd long_name sys_stat sys_open;
       if fd <? 0 then mret None
       else
         let offset := elf_section_offset (elf_begin fd) ".eh_frame_hdr" in
         dso__data_put_fd;;
         mret (Some offset)
     else mret (Some hdr_off));
  match found with
  | None => mret (hdr_off, None)
  | Some offset =>
    if negb (offset =? 0) then
      r ← unwind_spec_ehframe offset; mret (offset, r)
    else mret (offset, None)
  end.
End ehframe.

(** ** Lemmas *)

Lemma le_bytes_length n v : length (le_bytes n v) = n.
Proof. revert v. induction n as [|n IH]; intros v; simpl; [done|]. by rewrite IH. Qed.

Lemma le_roundtrip n v : le_value (le_bytes n v) = v mod 256 ^ Z.of_nat n.
Proof.
  revert v. induction n as [|n IH]; intros v; simpl le_bytes; simpl le_value.
  - change (256 ^ Z.of_nat 0) with 1. by rewrite Z.mod_1_r.
  - rewrite IH. replace (256 ^ Z.of_nat (S n)) with (256 * 256 ^ Z.of_nat n)
      by (rewrite <- Z.pow_succ_r by lia; f_equal; lia).
    rewrite Z.rem_mul_r by lia. done.
Qed.

Definition is_byte (b : Z) : Prop := 0 ≤ b < 256.

Lemma le_value_range bs :
  Forall is_byte bs → 0 ≤ le_value bs < 256 ^ Z.of_nat (length bs).
Proof.
  induction 1 as [|b bs Hb _ IH]; simpl length; simpl le_value; [done|].
  replace (256 ^ Z.of_nat (S (length bs))) with (256 * 256 ^ Z.of_nat (length bs))
    by (rewrite <- Z.pow_succ_r by lia; f_equal; lia).
  unfold is_byte in Hb. lia.
Qed.

Lemma Forall_slice mem o n : Forall is_byte mem → Forall is_byte (slice mem o n).
Proof. intros H. unfold slice. by apply Forall_take, Forall_drop. Qed.

Section decode.
Context (base : Z) (mem : list Z).
Hypothesis Hmem : Forall is_byte mem.

Lemma dw_read_bounds p n end_ :
  base ≤ p → end_ ≤ base + Z.of_nat (length mem) → 0 ≤ n ≤ 8 →
  dw_read base mem p n end_ =
    (if end_ <? p + n then Ok None
     else Ok (Some (le_value (slice mem (p - base) n), p + n))).
Proof.
  intros Hp He Hn. unfold dw_read. destruct (Z.ltb_spec end_ (p + n)); [done|].
  by replace ((base <=? p) && (p + n <=? base + Z.of_nat (length mem))) with true by lia.
Qed.

Lemma dw_read_u64 p n end_ v p' :
  0 ≤ n ≤ 8 → base ≤ p → dw_read base mem p n end_ = Ok (Some (v, p')) →
  is_u64 v ∧ p' = p + n ∧ p + n ≤ end_.
Proof.
  unfold dw_read. intros Hn Hb H. repeat case_match; simplify_eq. split; [|lia].
  pose proof (le_value_range _ (Forall_slice mem (p - base) n Hmem)) as Hr.
  assert (256 ^ Z.of_nat (length (slice mem (p - base) n)) ≤ 256 ^ 8); [|unfold is_u64; lia].
  apply Z.pow_le_mono_r; [lia|]. unfold slice. rewrite length_take. lia.
Qed.
End decode.

(** ** What the decoder promises *)

(** The bytes of a value [v] encoded at address [p]; [None] when the format
    cannot hold it. *)
Definition dw_encode (encoding p v : Z) : option (list Z) :=
  if encoding =? DW_EH_PE_ptr then Some (le_bytes 8 v) else
  let rel := w64 (v - (if Z.land encoding DW_EH_PE_APPL_MASK =? DW_EH_PE_pcrel then p else 0)) in
  let fmt := Z.land encoding DW_EH_PE_FORMAT_MASK in
  if fmt =? DW_EH_PE_sdata4 then
    if (- 2 ^ 31 <=? signed 64 rel) && (signed 64 rel <? 2 ^ 31) then Some (le_bytes 4 rel) else None
  else if fmt =? DW_EH_PE_udata4 then
    if rel <? 2 ^ 32 then Some (le_bytes 4 rel) else None
  else if (fmt =? DW_EH_PE_sdata8) || (fmt =? DW_EH_PE_udata8) then Some (le_bytes 8 rel)
  else None.

(** The encodings the decoder supports besides [DW_EH_PE_omit]: absolute and
    pc-relative, in the four formats. *)
Definition dw_encodings : list Z :=
  [DW_EH_PE_ptr; 0x03; 0x04; 0x0b; 0x0c; 0x13; 0x14; 0x1b; 0x1c].

Lemma signed_w64 n z : n = 32 ∨ n = 64 → ∃ k, signed n z = z + k * 2 ^ n.
Proof.
  intros Hn. unfold signed. pose proof (Z.div_mod z (2 ^ n)) as Hd.
  destruct (Z.ltb_spec (z mod 2 ^ n) (2 ^ (n - 1))).
  - exists (- (z / 2 ^ n)). destruct Hn; subst; lia.
  - exists (- (z / 2 ^ n) - 1). destruct Hn; subst; lia.
Qed.

Lemma w64_eq a b k : is_u64 b → a = b + k * 2 ^ 64 → w64 a = b.
Proof. intros Hb ->. unfold w64. rewrite Z_mod_plus_full. by apply w64_small. Qed.

(** The four ways a field is added to the address it is relative to. *)
Lemma decode_sum val v rel :
  is_u64 v → rel = w64 (v - val) →
  (signed 64 rel = signed 32 (rel mod 2 ^ 32) → w64 (val + signed 32 (rel mod 2 ^ 32)) = v) ∧
  (rel < 2 ^ 32 → w64 (val + rel mod 2 ^ 32) = v) ∧
  w64 (val + signed 64 (rel mod 2 ^ 64)) = v ∧ w64 (val + rel mod 2 ^ 64) = v.
Proof.
  intros Hv ->. pose proof (w64_range (v - val)) as Hr. unfold is_u64 in Hr.
  assert (∃ k, w64 (v - val) = v - val + k * 2 ^ 64) as [k Hk].
  { exists (- ((v - val) / 2 ^ 64)). unfold w64. pose proof (Z.div_mod (v - val) (2 ^ 64)). lia. }
  rewrite (Z.mod_small (w64 (v - val)) (2 ^ 64)) by lia.
  destruct (signed_w64 64 (w64 (v - val))) as [j Hj]; [by right|]. split_and!.
  - intros <-. apply (w64_eq _ _ (k + j)); [done|]. rewrite Hj, Hk. lia.
  - intros Hlt. rewrite Z.mod_small by lia. apply (w64_eq _ _ k); [done|]. lia.
  - apply (w64_eq _ _ (k + j)); [done|]. rewrite Hj, Hk. lia.
  - apply (w64_eq _ _ k); [done|]. lia.
Qed.

Lemma signed_narrow rel :
  is_u64 rel → - 2 ^ 31 ≤ signed 64 rel < 2 ^ 31 →
  signed 64 rel = signed 32 (rel mod 2 ^ 32).
Proof.
  unfold is_u64, signed. intros Hr. rewrite (Z.mod_small rel) by lia.
  rewrite Z.mod_mod by lia. change (64 - 1) with 63. change (32 - 1) with 31.
  pose proof (Z.div_mod rel (2 ^ 32)). pose proof (Z.mod_pos_bound rel (2 ^ 32)).
  destruct (Z.ltb_spec rel (2 ^ 63)); intros Hs.
  - rewrite (Z.mod_small rel (2 ^ 32)) by lia. destruct (Z.ltb_spec rel (2 ^ 31)); lia.
  - assert (rel mod 2 ^ 32 = rel - (2 ^ 64 - 2 ^ 32)) as ->.
    { symmetry. apply (Z.mod_unique_pos _ _ (2 ^ 32 - 1)); lia. }
    destruct (Z.ltb_spec (rel - (2 ^ 64 - 2 ^ 32)) (2 ^ 31)); lia.
Qed.

(** C20. Decoding inverts encoding: for each supported encoding, a value
    written at [p] (absolute or relative to [p], in 4 or 8 bytes) is read back
    as the same 64-bit value, and the cursor moves past exactly its bytes. *)
Theorem dw_encoded_value_roundtrip (base : Z) (mem : list Z) (encoding p end_ v : Z)
    (bs : list Z) :
  encoding ∈ dw_encodings → dw_encode encoding p v = Some bs → is_u64 v → is_u64 p →
  slice mem (p - base) (Z.of_nat (length bs)) = bs → base ≤ p →
  p + Z.of_nat (length bs) ≤ end_ → end_ ≤ base + Z.of_nat (length mem) →
  __dw_read_encoded_value base mem p end_ encoding =
    Ok (Some (v, p + Z.of_nat (length bs))).
Proof.
  intros Henc Hbs Hv Hp Hmem Hb He1 He2.
  assert (∀ n (m : nat) u, n = Z.of_nat m → (m ≤ 8)%nat → bs = le_bytes m u →
    dw_read base mem p n end_ = Ok (Some (u mod 256 ^ n, p + Z.of_nat (length bs)))) as Hread.
  { intros n m u -> Hm Hbs'. assert (length bs = m) as Hlen by (rewrite Hbs'; apply le_bytes_length).
    rewrite dw_read_bounds, <- Hlen, Hmem by lia.
    rewrite (proj2 (Z.ltb_ge _ _)) by lia. by rewrite Hbs', le_roundtrip, le_bytes_length. }
  pose proof (signed_narrow (w64 (v - 0)) (w64_range _)) as Hn0.
  pose proof (signed_narrow (w64 (v - p)) (w64_range _)) as Hnp.
  destruct (decode_sum 0 v _ Hv eq_refl) as (A1 & A2 & A3 & A4).
  destruct (decode_sum p v _ Hv eq_refl) as (P1 & P2 & P3 & P4).
  assert (w64 p = p) as Hwp by (by apply w64_small).
  unfold dw_encodings in Henc. rewrite !elem_of_cons, elem_of_nil in Henc.
  destruct_or! Henc; subst encoding; try done; unfold dw_encode in Hbs; simpl in Hbs;
    unfold __dw_read_encoded_value; simpl; rewrite ?Hwp.
  1: { injection Hbs as Hbs. rewrite (Hread 8 8%nat v) by (done || lia).
       change (256 ^ 8) with (2 ^ 64). by rewrite Z.mod_small by apply Hv. }
  all: try (match type of Hbs with (if ?b then _ else _) = _ => destruct b eqn:Hc end;
            [|done]); injection Hbs as Hbs.
  all: first [ rewrite (Hread 4 4%nat _ eq_refl ltac:(lia) (eq_sym Hbs)); change (256 ^ 4) with (2 ^ 32)
             | rewrite (Hread 8 8%nat _ eq_refl ltac:(lia) (eq_sym Hbs)); change (256 ^ 8) with (2 ^ 64) ].
  all: cbn [id]; do 3 f_equal.
  all: first [exact A3|exact A4|exact P3|exact P4|apply A2; lia|apply P2; lia
             |apply A1, Hn0; lia|apply P1, Hnp; lia].
Qed.

Lemma dw_encoded_value_roundtrip_witness :
  __dw_read_encoded_value 1000 [0; 252; 255; 255; 255; 7] 1001 1006 0x1b = Ok (Some (997, 1005)).
Proof.
  apply (dw_encoded_value_roundtrip 1000 [0; 252; 255; 255; 255; 7] 0x1b 1001 1006 997
           [252; 255; 255; 255]);
    [|reflexivity|split; done|split; done|reflexivity|done|done|done].
  apply (bool_decide_unpack (0x1b ∈ dw_encodings)). by vm_compute.
Defined.

(** C21. Whatever the encoding byte, decoding reads only inside the buffer and
    below [end], returns -EINVAL or a 64-bit value, and on success leaves the
    cursor between where it was and [end]. *)
Theorem dw_encoded_value_bounds (base : Z) (mem : list Z) (encoding p end_ : Z) :
  Forall is_byte mem → base ≤ p ≤ end_ → end_ ≤ base + Z.of_nat (length mem) →
  ∃ r, __dw_read_encoded_value base mem p end_ encoding = Ok r ∧
    (∀ v p', r = Some (v, p') → is_u64 v ∧ p ≤ p' ≤ end_).
Proof.
  intros Hmem Hp He.
  assert (∀ n, n = 4 ∨ n = 8 → ∃ r, dw_read base mem p n end_ = Ok r ∧
    ∀ v p', r = Some (v, p') → is_u64 v ∧ p ≤ p' ≤ end_) as Hread.
  { intros n Hn. rewrite dw_read_bounds by (destruct Hn; subst; lia).
    destruct (Z.ltb_spec end_ (p + n)); [by eexists|]. eexists. split; [done|].
    intros v p' Heq. simplify_eq. split; [|destruct Hn; subst; lia].
    eapply (dw_read_u64 base mem Hmem p n end_); [destruct Hn; subst; lia|apply Hp|].
    rewrite dw_read_bounds by (destruct Hn; subst; lia).
    by rewrite (proj2 (Z.ltb_ge _ _)). }
  unfold __dw_read_encoded_value. destruct (_ =? _) eqn:E1.
  { eexists. split; [done|]. intros v p' Heq. simplify_eq. split; [split; done|lia]. }
  destruct (_ =? DW_EH_PE_ptr) eqn:E2; [by apply Hread; right|].
  destruct (_ && _) eqn:E3; [by eexists|].
  destruct (Hread 4) as (r4 & H4 & Hr4); [by left|].
  destruct (Hread 8) as (r8 & H8 & Hr8); [by right|]. cbv zeta. rewrite H4, H8.
  repeat match goal with |- context [if ?b then _ else _] =>
    lazymatch b with Z.land _ _ =? DW_EH_PE_pcrel => fail | _ => destruct b end end.
  all: try (by eexists).
  all: match goal with |- ∃ _, match ?x with _ => _ end = _ ∧ _ => destruct x as [[v p']|] end.
  all: eexists; (split; [done|]); intros u q Heq; simplify_eq.
  all: split; [apply w64_range|first [by eapply Hr4|by eapply Hr8]].
Qed.

Lemma dw_encoded_value_bounds_witness :
  ∃ r, __dw_read_encoded_value 1000 [1; 2; 3] 1000 1003 0x0b = Ok r ∧
    (∀ v p', r = Some (v, p') → is_u64 v ∧ 1000 ≤ p' ≤ 1003).
Proof.
  apply (dw_encoded_value_bounds 1000 [1; 2; 3] 0x0b 1000 1003);
    [repeat constructor; done|done|done].
Defined.

Lemma unwind_spec_ehframe_wp (file : list Z) (long_name : string)
    (sys_stat : string → option Z) (sys_open : string → Z) (errno : Z)
    (sys_fstat : Z → option Z) (sys_pread : Z → Z → Z → Z * list Z) (hdr_addr : Z)
    (s : dso_st) (l : list Z) (offset : Z) :
  flen file + 4096 < 2 ^ 63 → Forall is_byte file → 0 ≤ hdr_addr →
  opens file long_name sys_stat sys_open sys_fstat sys_pread →
  cache_holds file s l → pool_ok s l → ready file sys_fstat sys_pread s →
  ds_status s ≠ DSO_DATA_STATUS_ERROR → ds_file_size s = 0 ∨ ds_file_size s = flen file →
  0 ≤ offset ≤ flen file → can_read file s l offset sizeof_hdr →
  nth (Z.to_nat offset + 1) file 0 = 0x1b → nth (Z.to_nat offset + 2) file 0 = 0x03 →
  wp (unwind_spec_ehframe long_name sys_stat sys_open errno sys_fstat sys_pread
        hdr_addr offset)
     (λ v _, v = if flen file - offset <? sizeof_hdr then None
                 else Some (offset + 12, offset, le_value (slice file (offset + 8) 4))) s.
Proof.
  intros Hfile Hbytes Haddr Hop Hc Hp Hr Hst Hfs Hoff Hcan Hn1 Hn2.
  unfold unwind_spec_ehframe. apply wp_bind. eapply wp_mono.
  { eapply (data_read_offset_wp file long_name sys_stat sys_open errno sys_fstat
      sys_pread Hfile Hop s l offset sizeof_hdr); try done; unfold sizeof_hdr; lia. }
  intros v s' (-> & _). rewrite (proj2 (Z.ltb_ge _ _)) by lia. cbv zeta.
  destruct (Z.ltb_spec (flen file - offset) sizeof_hdr) as [Hlt|Hge].
  { rewrite Z.min_r by lia. rewrite (proj2 (Z.eqb_neq _ _)) by lia. done. }
  rewrite Z.min_l by lia. rewrite Z.eqb_refl. cbn [negb].
  assert (∀ i, (i < 20)%nat → nth i (slice file offset sizeof_hdr) 0 =
    nth (Z.to_nat offset + i) file 0) as Hnth.
  { intros i Hi. unfold slice. rewrite !nth_lookup, lookup_take_lt, lookup_drop;
      [done|unfold sizeof_hdr; lia]. }
  set (hdr := slice file offset sizeof_hdr) in *.
  assert (Z.of_nat (length hdr) = 20) as Hlen.
  { subst hdr. rewrite length_slice; unfold sizeof_hdr in *; lia. }
  rewrite (Hnth 1%nat), (Hnth 2%nat), Hn1, Hn2 by lia.
  assert (Forall is_byte hdr) as Hhb by (by apply Forall_slice).
  unfold offsetof_enc, sizeof_hdr in *.
  assert (∀ p, hdr_addr ≤ p → p + 4 ≤ hdr_addr + 20 →
    dw_read hdr_addr hdr p 4 (hdr_addr + 20) =
      Ok (Some (le_value (slice hdr (p - hdr_addr) 4), p + 4))) as Hread.
  { intros p Hp1 Hp2. rewrite dw_read_bounds by lia. by rewrite (proj2 (Z.ltb_ge _ _)) by lia. }
  unfold __dw_read_encoded_value. simpl. rewrite Hread by lia.
  apply wp_bind. unfold wp, of_outcome at 1. rewrite Hread by lia.
  replace (hdr_addr + 4 + 4 - hdr_addr) with 8 by lia.
  assert (slice hdr 8 4 = slice file (offset + 8) 4) as -> by (by apply slice_slice; lia).
  pose proof (le_value_range _ (Forall_slice file (offset + 8) 4 Hbytes)) as Hr4.
  assert (Z.of_nat (length (slice file (offset + 8) 4)) = 4) as Hl4 by (rewrite length_slice; lia).
  rewrite Hl4 in Hr4. unfold mbind, cm_bind, of_outcome, mret, cm_ret.
  rewrite !w64_small by (unfold is_u64; lia). do 3 f_equal. lia.
Qed.

(** For the header every linker writes (eh_frame_ptr pc-relative signed 4
    bytes, fde_count unsigned 4 bytes), unwind_spec_ehframe returns the offset
    of the header as segment base, the table 12 bytes into the header and the
    fde count stored at byte 8; a header cut short by the end of the file is
    -EINVAL. *)
Theorem unwind_spec_ehframe_correct (file : list Z) (long_name : string)
    (sys_stat : string → option Z) (sys_open : string → Z) (errno : Z)
    (sys_fstat : Z → option Z) (sys_pread : Z → Z → Z → Z * list Z) (hdr_addr : Z)
    (s : dso_st) (l : list Z) (offset : Z) :
  flen file + 4096 < 2 ^ 63 → Forall is_byte file → 0 ≤ hdr_addr →
  opens file long_name sys_stat sys_open sys_fstat sys_pread →
  cache_holds file s l → pool_ok s l → ready file sys_fstat sys_pread s →
  ds_status s ≠ DSO_DATA_STATUS_ERROR → ds_file_size s = 0 ∨ ds_file_size s = flen file →
  0 ≤ offset ≤ flen file → can_read file s l offset sizeof_hdr →
  nth (Z.to_nat offset + 1) file 0 = 0x1b → nth (Z.to_nat offset + 2) file 0 = 0x03 →
  wp (unwind_spec_ehframe long_name sys_stat sys_open errno sys_fstat sys_pread
        hdr_addr offset)
     (λ v _, v = if flen file - offset <? sizeof_hdr then None
                 else Some (offset + 12, offset, le_value (slice file (offset + 8) 4))) s.
Proof. intros. by eapply unwind_spec_ehframe_wp. Qed.

Definition ex_hdr_file : list Z :=
  [1; 0x1b; 0x03; 0x3b; 0x10; 0; 0; 0; 7; 1; 0; 0; 9; 9; 9; 9; 9; 9; 9; 9; 9].
Definition ex_hdr_pread (fd count off : Z) : Z * list Z :=
  let d := slice ex_hdr_file off count in (Z.of_nat (length d), d).
Definition ex_hdr_dso : dso_st :=
  DsoSt (RbState ∅ NULL) ∅ 3 DSO_DATA_STATUS_OK 21 [4096; 8192; 12288].

Lemma unwind_spec_ehframe_correct_witness :
  wp (unwind_spec_ehframe "f" ex_stat (λ _, 3) 0 (λ _, Some 21) ex_hdr_pread 1000 0)
     (λ v _, v = Some (12, 0, 263)) ex_hdr_dso.
Proof.
  apply (unwind_spec_ehframe_correct ex_hdr_file "f" ex_stat (λ _, 3) 0 (λ _, Some 21)
           ex_hdr_pread 1000 ex_hdr_dso [] 0); try done.
  - repeat constructor; done.
  - split_and!; [| |constructor].
    + exists E. split_and!; [split_and!; [done|done|constructor]|exists 0%nat; constructor|done].
    + intros a Ha. by apply not_elem_of_nil in Ha.
  - split.
    + apply (bool_decide_unpack (NoDup [4096; 8192; 12288])). by vm_compute.
    + intros a [->|[->|[->|[]%elem_of_nil]%elem_of_cons]%elem_of_cons]%elem_of_cons;
        (split; [repeat split; done|apply not_elem_of_nil]).
  - right. split_and!; done.
  - by right.
  - right. split; [by apply (bool_decide_unpack (needed 0 sizeof_hdr ≤ 3)%nat)|by left].
Defined.
