(* ===== verification/Unwind.v ===== *)
(** Unwinding a sampled stack: the accessors that src/src/unwind_libunwind.c
    gives to libunwind (find_proc_info, access_mem), and its walk of the frames
    (get_entries) with the life cycle of an address space.

    The state joins the maps of the thread group and the data of the dsos.
    libunwind itself (the cursor functions, dwarf_search_unwind_table,
    unw_create_addr_space) is a parameter. *)
From Stdlib Require Import ZArith Lia String.
From stdpp Require Import base tactics option list numbers gmap sorting.
From S2P Require Import Prelude RbTree RbSpec RbRep RbSearch Rwsem Maps DsoData SymbolElf.
From S2P Require Import Ptrace EhFrame.

Local Open Scope Z_scope.

(** ** State *)

(** One [struct dso]: its data, its long name and
    [data.eh_frame_hdr_offset]. *)
Record dso_ent := DsoEnt { de_st : dso_st; de_name : string; de_hdr_off : Z }.

Record us_st := UsSt { us_maps : maps_st; us_dsos : gmap Z dso_ent }.

#[export] Instance us_maps_store : Store us_st maps_st.
Proof.
  refine {| part := us_maps; with_part m s := UsSt m (us_dsos s) |};
    by try intros ? ? []; try intros [].
Defined.

Abbreviation um := (cm us_st).

(** Run code on the data of the dso at address [d]. *)
Definition on_dso {A} (d : Z) (f : dso_ent → dm A) (upd : A → Z → Z) : um A := λ s,
  match us_dsos s !! d with
  | None => Fault
  | Some e =>
    match f e (de_st e) with
    | Ok (a, st) =>
      Ok (a, UsSt (us_maps s)
               (<[d := DsoEnt st (de_name e) (upd a (de_hdr_off e))]> (us_dsos s)))
    | Fault => Fault
    | Abort => Abort
    | NoFuel => NoFuel
    end
  end.

(** [struct unwind_ctx]: a sample. *)
Record unwind_ctx := UnwindCtx {
  uc_ts : Z; uc_tid : Z; uc_tgid : Z;
  uc_uregs : pt_regs; uc_name : string; uc_size : Z; uc_data : list Z;
}.

(** [unw_dyn_info_t] as find_proc_info fills it (the remote-table variant). *)
Record unw_dyn_info := UnwDynInfo {
  di_start_ip : Z; di_end_ip : Z; di_segbase : Z; di_table_data : Z; di_table_len : Z;
}.

(** The arithmetic of find_proc_info (unwind_libunwind.c:250-258);
    [sizeof(struct table_entry)] and [sizeof(unw_word_t)] are 8. *)
Definition fill_di (m : map) (table_data segbase fde_count : Z) : unw_dyn_info :=
  UnwDynInfo (m_start m) (m_end m)
    (w64 (w64 (m_start m + segbase) - m_pgoff m))
    (w64 (w64 (m_start m + table_data) - m_pgoff m))
    (w64 (fde_count * 8) / 8).

Section accessors.
Variables (lock : pthread_rwlock maps_st) (sys_stat : string → option Z)
          (sys_open : string → Z) (errno : Z) (sys_fstat : Z → option Z)
          (sys_pread : Z → Z → Z → Z * list Z) (hdr_addr : Z) (elf_begin : Z → option elf)
          (dwarf_search_unwind_table : Z → unw_dyn_info → um Z).

Definition find_map (ip : Z) : um Z := lift (maps__find lock ip).

Definition find_proc_info (ip : Z) : um Z :=
  map ← find_map ip;
  if map =? NULL then mret (- EINVAL) else
  m ← lift (map_load map);
  if m_dso m =? NULL then mret (- EINVAL) else
  '(_, spec) ← on_dso (m_dso m)
    (λ e, read_unwind_spec_eh_frame (de_name e) sys_stat sys_open errno sys_fstat
            sys_pread hdr_addr elf_begin (de_hdr_off e))
    (λ r _, fst r);
  match spec with
  | None => mret (- EINVAL)
  | Some (table_data, segbase, fde_count) =>
    dwarf_search_unwind_table ip (fill_di m table_data segbase fde_count)
  end.

(** The value is [*data]; [None] when the eight bytes were not all read. *)
Definition access_dso_mem (addr : Z) : um (Z * option Z) :=
  map ← find_map addr;
  if map =? NULL then mret (-1, None) else
  m ← lift (map_load map);
  if m_dso m =? NULL then mret (-1, None) else
  '(size, data) ← on_dso (m_dso m)
    (λ e, dso__data_read_addr (de_name e) sys_stat sys_open errno sys_fstat sys_pread
            (map_ip m) addr 8)
    (λ _ off, off);
  if size =? 8 then mret (0, Some (le_value data)) else mret (1, None).

(** The result and [*valp] ([None]: not stored). *)
Definition access_mem (uc : unwind_ctx) (addr : Z) (__write : bool) : um (Z * option Z) :=
  let ss := uc_size uc in
  if __write || (ss <=? 0) then mret (0, Some 0) else
  start ← reg_value (uc_uregs uc) X86_SP;
  let end_ := w64 (start + ss) in
  if w64 (addr + 8) <? addr then mret (- EINVAL, None) else
  if (addr <? start) || (end_ <=? w64 (addr + 8)) then
    '(ret, data) ← access_dso_mem addr;
    if negb (ret =? 0) then mret (ret, Some 0) else mret (0, data)
  else
    let offset := signed 32 (w64 (addr - start)) in
    if (0 <=? offset) && (offset + 8 <=? Z.of_nat (length (uc_data uc))) then
      mret (0, Some (le_value (slice (uc_data uc) offset 8)))
    else c_fault.
End accessors.

(** ** Walking the frames *)

Record stacktrace := Stacktrace { st_depth : Z; st_ips : option (list Z) }.

Section entries.
Context {S C : Type}.
Variables (unw_init_remote : cm S (Z * C)) (unw_step : C → cm S (Z * C))
          (unw_get_ip : C → cm S Z) (unw_is_signal_frame : C → cm S Z).

(** [st->ips[i] = v] *)
Definition ips_store (ips : list Z) (i v : Z) : cm S (list Z) :=
  if (0 <=? i) && (i <? Z.of_nat (length ips)) then mret (<[Z.to_nat i := v]> ips)
  else c_fault.

(** [while (!ret && unw_step(&c) > 0 && i < st->depth)]; at most [depth]
    iterations. *)
Fixpoint step_loop (fuel : nat) (c : C) (ret depth i : Z) (ips : list Z) :
    cm S (Z * list Z) :=
  match fuel with
  | O => c_nofuel
  | Datatypes.S fuel =>
    if negb (ret =? 0) then mret (i, ips) else
    '(r, c) ← unw_step c;
    if (r <=? 0) || (depth <=? i) then mret (i, ips) else
    ip ← unw_get_ip c;
    ips ← ips_store ips i ip;
    sig ← unw_is_signal_frame c;
    ips ← (if sig <=? 0 then ips_store ips i (w64 (ip - 1)) else mret ips);
    step_loop fuel c ret depth (i + 1) ips
  end.

(** The result and the updated stacktrace. *)
Definition get_entries (uregs : pt_regs) (addr_space : Z) (st : stacktrace) :
    cm S (Z * stacktrace) :=
  match st_ips st with
  | None => mret (EINVAL, st)
  | Some ips =>
    if st_depth st <? 1 then mret (EINVAL, st) else
    val ← reg_value uregs X86_IP;
    ips ← ips_store ips 0 val;
    if addr_space =? 0 then mret (-1, Stacktrace (st_depth st) (Some ips)) else
    '(ret, c) ← unw_init_remote;
    '(i, ips) ← step_loop (Datatypes.S (Z.to_nat (st_depth st))) c ret (st_depth st) 1 ips;
    mret (ret, Stacktrace i (Some ips))
  end.
End entries.

(** ** The other accessors (unwind_libunwind.c:262-274, 367-397)

    The error numbers are those of libunwind.h. *)

Section other_accessors.
Variables (UNW_EUNSPEC UNW_EBADREG UNW_EINVAL UNW_ENOINFO : Z).

Definition get_dyn_info_list_addr : Z := - UNW_ENOINFO.
Definition access_fpreg : Z := - UNW_EINVAL.
Definition resume : Z := - UNW_EINVAL.
Definition get_proc_name : Z := - UNW_EINVAL.

(** The message printed, if any. *)
Definition display_error (err : Z) : option string :=
  if err =? UNW_EINVAL then Some "unwind: Only supports local."%string else
  if err =? UNW_EUNSPEC then Some "unwind: Unspecified error."%string else
  if err =? UNW_EBADREG then Some "unwind: Register unavailable."%string else None.
End other_accessors.

(** ** Address spaces (unwind_libunwind.c:415-440, 572-637)

    The fields [addr_space] and [ulops] of a thread ([tu_ulops]: whether it is
    set, there is one set of operations) with its pointer to maps. *)
Record thread_unwind := ThreadUnwind { tu_addr_space : Z; tu_ulops : bool; tu_maps : Z }.

Section address_space.
Context {S C : Type}.
(** libunwind, on the program's state. *)
Variables (unw_create_addr_space : cm S Z) (unw_set_caching_policy : Z → cm S unit)
          (unw_flush_cache unw_destroy_addr_space : Z → cm S unit).
Variables (unw_init_remote : cm S (Z * C)) (unw_step : C → cm S (Z * C))
          (unw_get_ip : C → cm S Z) (unw_is_signal_frame : C → cm S Z).

Definition _prepare_access (th : thread_unwind) : cm S (Z * thread_unwind) :=
  as_ ← unw_create_addr_space;
  let th := ThreadUnwind as_ (tu_ulops th) (tu_maps th) in
  if tu_addr_space th =? 0 then mret (- ENOMEM, th) else
  unw_set_caching_policy (tu_addr_space th);;
  mret (0, th).

Definition _flush_access (th : thread_unwind) : cm S unit := unw_flush_cache (tu_addr_space th).
Definition _finish_access (th : thread_unwind) : cm S unit :=
  unw_destroy_addr_space (tu_addr_space th).

(** [thread->maps->machine] is read first. *)
Definition _get_entries (th : thread_unwind) (uc : unwind_ctx) (st : stacktrace) :
    cm S (Z * stacktrace) :=
  (if tu_maps th =? NULL then c_fault else mret tt);;
  get_entries unw_init_remote unw_step unw_get_ip unw_is_signal_frame
    (uc_uregs uc) (tu_addr_space th) st.

Definition unwind_register_ops (th : thread_unwind) : thread_unwind :=
  ThreadUnwind (tu_addr_space th) true (tu_maps th).

(** The result, [*initialized] and the thread. *)
Definition unwind__prepare_access (th : thread_unwind) : cm S (Z * bool * thread_unwind) :=
  if negb (tu_addr_space th =? 0) then mret (0, true, th) else
  let th := unwind_register_ops th in
  '(err, th) ← _prepare_access th;
  mret (err, (if negb (err =? 0) then false else true), th).

Definition unwind__flush_access (th : thread_unwind) : cm S unit :=
  if tu_ulops th then _flush_access th else mret tt.
Definition unwind__finish_access (th : thread_unwind) : cm S unit :=
  if tu_ulops th then _finish_access th else mret tt.

Definition unwind__get_entries (th : thread_unwind) (uc : unwind_ctx) (st : stacktrace) :
    cm S (Z * stacktrace) :=
  if tu_ulops th then _get_entries th uc st else mret (0, st).
End address_space.
