(* ===== verification/UnwindProps.v ===== *)
(** What the unwinder promises: the memory it shows to libunwind
    (access_mem, access_dso_mem), the table it describes to it
    (find_proc_info), and the bounds of the walk (get_entries). *)
From Stdlib Require Import ZArith Lia String.
From stdpp Require Import base tactics option list numbers gmap sorting.
From S2P Require Import Prelude RbTree RbSpec RbRep RbSearch Rwsem Maps MapsProps DsoData Utility.
From S2P Require Import DsoProps SymbolElf Ptrace EhFrame Unwind.

Local Open Scope Z_scope.

(** ** Lemmas *)

Lemma reg_value_wp {S} (regs : pt_regs) (idx v : Z) (Q : Z → S → Prop) (s : S) :
  reg_value regs idx s = Ok (v, s) → Q v s → wp (reg_value regs idx) Q s.
Proof. unfold wp. by intros ->. Qed.

Lemma on_dso_wp {A} (d : Z) (f : dso_ent → dm A) (upd : A → Z → Z) (e : dso_ent)
    (Q : A → us_st → Prop) (s : us_st) :
  us_dsos s !! d = Some e →
  wp (f e) (λ a st, Q a (UsSt (us_maps s)
    (<[d := DsoEnt st (de_name e) (upd a (de_hdr_off e))]> (us_dsos s)))) (de_st e) →
  wp (on_dso d f upd) Q s.
Proof. intros He. unfold wp, on_dso. rewrite He. by destruct (f e (de_st e)) as [[a st]| | |]. Qed.

(** Translating with a map and back. *)
Lemma map_ip_segment (m : map) (x : Z) :
  is_u64 x → map_ip m (w64 (w64 (m_start m + x) - m_pgoff m)) = x.
Proof.
  unfold is_u64, map_ip, w64. change (2 ^ 64) with 18446744073709551616. intros Hx.
  Z.div_mod_to_equations; lia.
Qed.

Section accessors.
Context (lock : pthread_rwlock maps_st) (sys_stat : string → option Z)
  (sys_open : string → Z) (errno : Z) (sys_fstat : Z → option Z)
  (sys_pread : Z → Z → Z → Z * list Z).

Lemma find_map_wp ip (s : us_st) l xs :
  maps_inv (us_maps s) l xs → disjoint_maps (ms_map (us_maps s)) l →
  wp (Unwind.find_map lock ip)
     (λ v s', v = Maps.find_map (ms_map (us_maps s)) ip l ∧ s' = s) s.
Proof.
  intros Hinv Hd. apply (wp_lift_pure _ (λ v, v = Maps.find_map (ms_map (us_maps s)) ip l));
    [by apply (maps_find_wp lock ip (us_maps s) l xs)|done].
Qed.

Lemma find_map_in M ip l : Maps.find_map M ip l ≠ NULL → Maps.find_map M ip l ∈ l.
Proof.
  induction l as [|a l IH]; simpl; [done|]. case_match; intros Hn; [left|right; auto].
Qed.

(** A map of the set that belongs to a dso. *)
Record mapped (s : us_st) (l xs : list Z) (ip : Z) (m : map) (e : dso_ent) : Prop := {
  mp_inv : maps_inv (us_maps s) l xs;
  mp_disj : disjoint_maps (ms_map (us_maps s)) l;
  mp_found : Maps.find_map (ms_map (us_maps s)) ip l ≠ NULL;
  mp_map : ms_map (us_maps s) !! Maps.find_map (ms_map (us_maps s)) ip l = Some m;
  mp_nodso : m_dso m ≠ NULL;
  mp_dso : us_dsos s !! m_dso m = Some e;
}.

(** The dso can serve a read of [size] bytes at [offset] of the file. *)
Record servable (file : list Z) (e : dso_ent) (l : list Z) (offset size : Z) : Prop := {
  sv_opens : opens file (de_name e) sys_stat sys_open sys_fstat sys_pread;
  sv_cache : cache_holds file (de_st e) l;
  sv_pool : pool_ok (de_st e) l;
  sv_ready : ready file sys_fstat sys_pread (de_st e);
  sv_status : ds_status (de_st e) ≠ DSO_DATA_STATUS_ERROR;
  sv_size : ds_file_size (de_st e) = 0 ∨ ds_file_size (de_st e) = flen file;
  sv_can : offset ≤ flen file → can_read file (de_st e) l offset size;
}.

Abbreviation access_dso_mem :=
  (access_dso_mem lock sys_stat sys_open errno sys_fstat sys_pread).
Abbreviation access_mem :=
  (access_mem lock sys_stat sys_open errno sys_fstat sys_pread).

Lemma access_dso_mem_wp (file : list Z) (addr : Z) (s : us_st) l xs m e lc :
  flen file + 4096 < 2 ^ 63 → mapped s l xs addr m e →
  servable file e lc (map_ip m addr) 8 →
  wp (access_dso_mem addr)
     (λ v s', v = (if map_ip m addr + 8 <=? flen file
                   then (0, Some (le_value (slice file (map_ip m addr) 8))) else (1, None)) ∧
        us_maps s' = us_maps s) s.
Proof.
  intros Hfile [Hinv Hd Hn Hm Hnd He] []. unfold Unwind.access_dso_mem.
  pose proof (w64_range (w64 (addr - m_start m) + m_pgoff m)) as Hr. unfold is_u64 in Hr.
  apply wp_bind. eapply wp_mono; [by apply (find_map_wp addr s l xs)|]. intros a s' [-> ->].
  rewrite (proj2 (Z.eqb_neq _ _) Hn). apply wp_bind, wp_lift. eapply wp_map_load; [done..|].
  rewrite with_part_id, (proj2 (Z.eqb_neq _ _) Hnd).
  apply wp_bind. eapply on_dso_wp; [done|]. unfold dso__data_read_addr. eapply wp_mono.
  { apply (data_read_offset_wp file (de_name e) sys_stat sys_open errno sys_fstat
      sys_pread Hfile sv_opens0 (de_st e) lc (map_ip m addr) 8); try done; unfold map_ip; lia. }
  intros v st (-> & _). change (map_ip m addr) with (w64 (w64 (addr - m_start m) + m_pgoff m)).
  set (o := w64 _) in *. destruct (Z.leb_spec (o + 8) (flen file)) as [Hle|Hgt].
  - rewrite (proj2 (Z.ltb_ge _ _)) by lia. cbv zeta. rewrite Z.min_l by lia. by apply wp_ret.
  - destruct (Z.ltb_spec (flen file) o); cbv zeta; [by apply wp_ret|].
    cbv beta iota. destruct (Z.eqb_spec (Z.min 8 (flen file - o)) 8); [lia|]. by apply wp_ret.
Qed.

(** ** access_mem *)

(** The addresses access_mem serves from the sampled stack. *)
Definition on_stack (uc : unwind_ctx) (addr : Z) : Prop :=
  sp (uc_uregs uc) ≤ addr ∧ addr + 8 < sp (uc_uregs uc) + uc_size uc.

(** A sample: a size within the buffer, a stack that does not wrap around the
    address space. *)
Definition sample_ok (uc : unwind_ctx) : Prop :=
  0 < uc_size uc ≤ Z.of_nat (length (uc_data uc)) ∧ uc_size uc < 2 ^ 31 ∧
  0 ≤ sp (uc_uregs uc) ∧ sp (uc_uregs uc) + uc_size uc < 2 ^ 64.

Lemma access_mem_stack (uc : unwind_ctx) (addr : Z) (s : us_st) :
  sample_ok uc → on_stack uc addr →
  access_mem uc addr false s =
    Ok ((0, Some (le_value (slice (uc_data uc) (addr - sp (uc_uregs uc)) 8))), s).
Proof.
  intros (Hs1 & Hs2 & Hsp & Hend) [Hlo Hhi]. unfold Unwind.access_mem. simpl.
  rewrite (proj2 (Z.leb_gt _ _)) by lia.
  rewrite (bind_ok _ _ _ _ _ (reg_value_sp (uc_uregs uc) s)). cbv zeta.
  rewrite !w64_small by (unfold is_u64; lia).
  rewrite !(proj2 (Z.ltb_ge _ _)) by lia.
  rewrite (proj2 (Z.leb_gt _ _)) by lia. simpl.
  assert (signed 32 (addr - sp (uc_uregs uc)) = addr - sp (uc_uregs uc)) as ->.
  { unfold signed. rewrite Z.mod_small by lia. change (2 ^ (32 - 1)) with (2 ^ 31).
    by rewrite (proj2 (Z.ltb_lt _ _)) by lia. }
  rewrite (proj2 (Z.leb_le _ _)), (proj2 (Z.leb_le _ _)) by lia. done.
Qed.

(** Everything else that does not wrap goes to the files. *)
Lemma access_mem_off_stack (uc : unwind_ctx) (addr : Z) (s : us_st) Q :
  sample_ok uc → ¬ on_stack uc addr → 0 ≤ addr → addr + 8 < 2 ^ 64 →
  wp (access_dso_mem addr)
    (λ v s', Q (if fst v =? 0 then (0, snd v) else (fst v, Some 0)) s') s →
  wp (access_mem uc addr false) Q s.
Proof.
  intros (Hs1 & Hs2 & Hsp & Hend) Hoff H0 H1 HQ. unfold Unwind.access_mem. simpl.
  rewrite (proj2 (Z.leb_gt _ _)) by lia.
  apply wp_bind. eapply reg_value_wp; [apply reg_value_sp|]. cbv zeta.
  rewrite !w64_small by (unfold is_u64; lia).
  rewrite (proj2 (Z.ltb_ge _ _)) by lia.
  assert ((addr <? sp (uc_uregs uc)) || (sp (uc_uregs uc) + uc_size uc <=? addr + 8) = true)
    as -> by (unfold on_stack in Hoff; lia).
  apply wp_bind. eapply wp_mono; [exact HQ|]. intros [r v] s'. simpl.
  destruct (Z.eqb_spec r 0) as [->|]; done.
Qed.
End accessors.

(** ** find_proc_info *)

Section proc_info.
Context (lock : pthread_rwlock maps_st) (sys_stat : string → option Z)
  (sys_open : string → Z) (errno : Z) (sys_fstat : Z → option Z)
  (sys_pread : Z → Z → Z → Z * list Z) (hdr_addr : Z) (elf_begin : Z → option elf)
  (dwarf_search_unwind_table : Z → unw_dyn_info → um Z).

(** Where the .eh_frame_hdr section of the dso is: remembered in the dso, or
    found in its sections by libelf. *)
Definition hdr_at (file : list Z) (e : dso_ent) (offset : Z) : Prop :=
  de_hdr_off e = offset ∨
  de_hdr_off e = 0 ∧
  ∀ fd, fd_ok file sys_fstat sys_pread fd →
    elf_section_offset (elf_begin fd) ".eh_frame_hdr" = offset.

Lemma read_unwind_spec_wp (file : list Z) (e : dso_ent) (lc : list Z) (offset : Z) :
  flen file + 4096 < 2 ^ 63 → Forall is_byte file → 0 ≤ hdr_addr →
  servable sys_stat sys_open sys_fstat sys_pread file e lc offset sizeof_hdr →
  hdr_at file e offset → 0 < offset ≤ flen file →
  nth (Z.to_nat offset + 1) file 0 = 0x1b → nth (Z.to_nat offset + 2) file 0 = 0x03 →
  wp (read_unwind_spec_eh_frame (de_name e) sys_stat sys_open errno sys_fstat
        sys_pread hdr_addr elf_begin (de_hdr_off e))
     (λ v _, v = (offset,
        if flen file - offset <? sizeof_hdr then None
        else Some (offset + 12, offset, le_value (slice file (offset + 8) 4)))) (de_st e).
Proof.
  intros Hfile Hb Ha Hsv Hat Hoff Hn1 Hn2. destruct Hsv as [Hop Hc Hp Hr Hst Hsz Hcan].
  unfold read_unwind_spec_eh_frame. apply wp_bind.
  assert (∀ st, cache_holds file st lc → pool_ok st lc → ready file sys_fstat sys_pread st →
    ds_status st ≠ DSO_DATA_STATUS_ERROR → ds_file_size st = 0 ∨ ds_file_size st = flen file →
    can_read file st lc offset sizeof_hdr →
    wp (if negb (offset =? 0) then
          r ← unwind_spec_ehframe (de_name e) sys_stat sys_open errno sys_fstat
                sys_pread hdr_addr offset; mret (offset, r)
        else mret (offset, None))
     (λ v _, v = (offset,
        if flen file - offset <? sizeof_hdr then None
        else Some (offset + 12, offset, le_value (slice file (offset + 8) 4)))) st) as Hspec.
  { intros st ??????. rewrite (proj2 (Z.eqb_neq _ _)) by lia. apply wp_bind. eapply wp_mono.
    { apply (unwind_spec_ehframe_wp file (de_name e) sys_stat sys_open errno sys_fstat
        sys_pread hdr_addr st lc offset); try done; lia. }
    by intros v st' ->. }
  destruct (Z.eqb_spec (de_hdr_off e) 0) as [Hz|Hnz].
  - destruct Hat as [?|[_ Helf]]; [lia|]. apply wp_bind. unfold dso__data_get_fd.
    apply wp_bind, wp_get. rewrite decide_False by done.
    apply wp_bind. eapply wp_mono; [by apply (try_to_open_wp file (de_name e)
      sys_stat sys_open sys_fstat sys_pread)|].
    intros _ st (fd & sts & -> & Hfd & Hsts). apply wp_get. cbn [ds_fd].
    rewrite (proj2 (Z.ltb_ge _ _)) by apply Hfd. apply wp_ret. rewrite Helf by done.
    apply Hspec; [by eapply cache_holds_frame; [exact Hc|..]|done|by right| |done|].
    + by destruct Hsts as [->| ->].
    + apply Hcan. lia.
  - destruct Hat as [->|[? _]]; [|lia]. apply wp_ret. apply Hspec; auto. apply Hcan. lia.
Qed.

(** The table find_proc_info describes: the range of the map, and addresses
    that the map translates back to the header and its table in the file. *)
Record describes (m : map) (offset fde_count : Z) (di : unw_dyn_info) : Prop := {
  dd_start : di_start_ip di = m_start m;
  dd_end : di_end_ip di = m_end m;
  dd_segbase : map_ip m (di_segbase di) = offset;
  dd_table : map_ip m (di_table_data di) = offset + 12;
  dd_len : di_table_len di = fde_count;
}.

Abbreviation find_proc_info :=
  (find_proc_info lock sys_stat sys_open errno sys_fstat sys_pread hdr_addr elf_begin
     dwarf_search_unwind_table).

Lemma find_proc_info_wp (file : list Z) (ip : Z) (s : us_st) l xs m e lc offset Q :
  flen file + 4096 < 2 ^ 63 → Forall is_byte file → 0 ≤ hdr_addr →
  mapped s l xs ip m e →
  servable sys_stat sys_open sys_fstat sys_pread file e lc offset sizeof_hdr →
  hdr_at file e offset → 0 < offset ≤ flen file →
  nth (Z.to_nat offset + 1) file 0 = 0x1b → nth (Z.to_nat offset + 2) file 0 = 0x03 →
  (∀ s1, us_maps s1 = us_maps s → flen file - offset < sizeof_hdr → Q (- EINVAL) s1) →
  (∀ di s1, us_maps s1 = us_maps s →
     describes m offset (le_value (slice file (offset + 8) 4)) di →
     wp (dwarf_search_unwind_table ip di) Q s1) →
  wp (find_proc_info ip) Q s.
Proof.
  intros Hfile Hb Ha [Hinv Hd Hn Hm Hnd He] Hsv Hat Hoff Hn1 Hn2 Hcut Hfull.
  unfold Unwind.find_proc_info. apply wp_bind.
  eapply wp_mono; [by apply (find_map_wp lock ip s l xs)|]. intros a s' [-> ->].
  rewrite (proj2 (Z.eqb_neq _ _) Hn). apply wp_bind, wp_lift. eapply wp_map_load; [done..|].
  rewrite with_part_id, (proj2 (Z.eqb_neq _ _) Hnd).
  apply wp_bind. eapply on_dso_wp; [done|]. eapply wp_mono.
  { by apply (read_unwind_spec_wp file e lc offset). }
  intros v st ->. cbv beta iota.
  destruct (Z.ltb_spec (flen file - offset) sizeof_hdr) as [Hlt|Hge].
  { apply wp_ret, Hcut; done. }
  apply Hfull; [done|]. unfold sizeof_hdr in Hge.
  pose proof (le_value_range _ (Forall_slice file (offset + 8) 4 Hb)) as Hr.
  assert (Z.of_nat (length (slice file (offset + 8) 4)) = 4) as Hl by (rewrite length_slice; lia).
  rewrite Hl in Hr.
  constructor; try done; simpl; [apply map_ip_segment; unfold is_u64; lia
    |apply map_ip_segment; unfold is_u64; lia|].
  rewrite w64_small by (unfold is_u64; lia). by apply Z.div_mul.
Qed.
End proc_info.

(** ** The walk of the frames *)

Section entries.
Context {S C : Type} (unw_init_remote : cm S (Z * C)) (unw_step : C → cm S (Z * C))
  (unw_get_ip : C → cm S Z) (unw_is_signal_frame : C → cm S Z).

(** The caller frames of a cursor, at most [n]: the specification of the loop
    of get_entries.  The cursor is stepped once more than frames are
    recorded. *)
Fixpoint frames (n : nat) (c : C) : cm S (list Z) :=
  '(r, c) ← unw_step c;
  match n with
  | O => mret []
  | Datatypes.S n =>
    if r <=? 0 then mret [] else
    ip ← unw_get_ip c;
    sig ← unw_is_signal_frame c;
    rest ← frames n c;
    mret ((if sig <=? 0 then w64 (ip - 1) else ip) :: rest)
  end.

Lemma frames_length n c s fs s' : frames n c s = Ok (fs, s') → (length fs ≤ n)%nat.
Proof.
  revert c s fs s'. induction n as [|n IH]; intros c s fs s' H; simpl in H;
    unfold mbind, cm_bind, mret, cm_ret in H;
    repeat (case_match; simplify_eq/=; try done); try lia.
  assert (Hle : (length l ≤ n)%nat) by (by eapply IH). lia.
Qed.

(** The frames stored from index [i] on. *)
Definition with_frames (ips : list Z) (i : nat) (fs : list Z) : list Z :=
  take i ips ++ fs ++ drop (i + length fs) ips.

Lemma ips_store_ok ips i v (s : S) :
  0 ≤ i < Z.of_nat (length ips) →
  ips_store ips i v s = Ok (<[Z.to_nat i := v]> ips, s).
Proof. intros Hi. unfold ips_store. by replace (_ && _) with true by lia. Qed.

Lemma with_frames_cons ips i f fs :
  (i < length ips)%nat → with_frames (<[i := f]> ips) (Datatypes.S i) fs = with_frames ips i (f :: fs).
Proof.
  intros Hi. unfold with_frames. simpl. rewrite insert_take_drop by done.
  rewrite take_app_ge, drop_app_ge by (rewrite length_take; lia).
  rewrite length_take, Nat.min_l by lia.
  replace (Datatypes.S i - i)%nat with 1%nat by lia.
  replace (Datatypes.S (i + length fs) - i)%nat with (Datatypes.S (length fs)) by lia. simpl.
  rewrite <- app_assoc, drop_drop. simpl. do 4 f_equal. lia.
Qed.

Lemma step_loop_frames fuel c depth i ips (s : S) :
  0 ≤ i ≤ depth → depth ≤ Z.of_nat (length ips) → (Z.to_nat (depth - i) < fuel)%nat →
  step_loop unw_step unw_get_ip unw_is_signal_frame fuel c 0 depth i ips s =
  (fs ← frames (Z.to_nat (depth - i)) c;
   mret (i + Z.of_nat (length fs), with_frames ips (Z.to_nat i) fs)) s.
Proof.
  revert c i ips s. induction fuel as [|fuel IH]; intros c i ips s Hi Hd Hf; [lia|].
  cbn [step_loop]. simpl (negb _). cbv iota.
  destruct (Z.to_nat (depth - i)) as [|n] eqn:Hn; cbn [frames].
  - unfold mbind at 1 3, cm_bind. unfold mbind, cm_bind.
    destruct (unw_step c s) as [[[r c'] s1]| | |]; try done.
    rewrite (proj2 (Z.leb_le depth i)), orb_true_r by lia. unfold with_frames; simpl.
    by rewrite Z.add_0_r, Nat.add_0_r, take_drop.
  - unfold mbind, cm_bind.
    destruct (unw_step c s) as [[[r c'] s1]| | |]; try done.
    rewrite (proj2 (Z.leb_gt depth i)), orb_false_r by lia.
    destruct (r <=? 0).
    { unfold with_frames; simpl. by rewrite Z.add_0_r, Nat.add_0_r, take_drop. }
    destruct (unw_get_ip c' s1) as [[ip s2]| | |]; try done.
    rewrite ips_store_ok by lia.
    destruct (unw_is_signal_frame c' s2) as [[sig s3]| | |]; try done.
    set (f := if sig <=? 0 then w64 (ip - 1) else ip).
    assert ((if sig <=? 0 then ips_store (<[Z.to_nat i:=ip]> ips) i (w64 (ip - 1))
             else mret (<[Z.to_nat i:=ip]> ips)) s3 = Ok (<[Z.to_nat i:=f]> ips, s3)) as ->.
    { subst f. destruct (sig <=? 0); [|done].
      rewrite ips_store_ok by (rewrite length_insert; lia). by rewrite list_insert_insert_eq. }
    rewrite IH by (rewrite ?length_insert; lia).
    replace (Z.to_nat (depth - (i + 1))) with n by lia.
    unfold mbind, cm_bind. destruct (frames n c' s3) as [[fs s4]| | |]; try done.
    unfold mret, cm_ret. replace (Z.to_nat (i + 1)) with (Datatypes.S (Z.to_nat i)) by lia.
    rewrite with_frames_cons by lia. do 3 f_equal. simpl. lia.
Qed.

Abbreviation get_entries :=
  (get_entries unw_init_remote unw_step unw_get_ip unw_is_signal_frame).

Lemma get_entries_frames uregs addr_space depth ips (s : S) :
  1 ≤ depth ≤ Z.of_nat (length ips) →
  get_entries uregs addr_space (Stacktrace depth (Some ips)) s =
    (let ips := <[0%nat := ip uregs]> ips in
     if addr_space =? 0 then mret (-1, Stacktrace depth (Some ips)) else
     '(ret, c) ← unw_init_remote;
     if negb (ret =? 0) then mret (ret, Stacktrace 1 (Some ips)) else
     fs ← frames (Z.to_nat (depth - 1)) c;
     mret (0, Stacktrace (1 + Z.of_nat (length fs)) (Some (with_frames ips 1 fs)))) s.
Proof.
  intros Hd. unfold Unwind.get_entries. cbn [st_ips st_depth].
  rewrite (proj2 (Z.ltb_ge _ _)) by lia.
  rewrite (bind_ok _ _ _ _ _ (reg_value_ip uregs s)).
  rewrite (bind_ok _ _ _ _ _ (ips_store_ok ips 0 (ip uregs) s ltac:(lia))). cbv zeta.
  change (Z.to_nat 0) with 0%nat. set (ips0 := <[0%nat := ip uregs]> ips).
  destruct (addr_space =? 0); [done|]. unfold mbind, cm_bind.
  destruct (unw_init_remote s) as [[[ret c] s1]| | |]; try done.
  destruct (Z.eqb_spec ret 0) as [->|Hr]; simpl negb; cbv iota.
  - rewrite step_loop_frames by (subst ips0; rewrite ?length_insert; lia).
    unfold mbind, cm_bind. simpl. by destruct (frames _ c s1) as [[fs s2]| | |].
  - unfold step_loop. rewrite (proj2 (Z.eqb_neq _ _) Hr). done.
Qed.

(** libunwind's functions return, and change the state only within [R]. *)
Definition within (R : S → S → Prop) : Prop :=
  (∀ s, wp unw_init_remote (λ _ s', R s s') s) ∧ (∀ c s, wp (unw_step c) (λ _ s', R s s') s) ∧
  (∀ c s, wp (unw_get_ip c) (λ _ s', R s s') s) ∧
  (∀ c s, wp (unw_is_signal_frame c) (λ _ s', R s s') s).

#[export] Instance anywhere_preorder : PreOrder (λ _ _ : S, True).
Proof. by split. Qed.

(** libunwind's functions return. *)
Definition returning : Prop := within (λ _ _, True).

Lemma frames_wp R `{!PreOrder R} n c s :
  within R → wp (frames n c) (λ fs s', (length fs ≤ n)%nat ∧ R s s') s.
Proof.
  intros (_ & Hstep & Hip & Hsig). revert c s. induction n as [|n IH]; intros c s; cbn [frames];
    apply wp_bind; (eapply wp_mono; [apply Hstep|]); intros [r c'] s1 H1; [by apply wp_ret; split; [simpl; lia|]|].
  destruct (r <=? 0); [apply wp_ret; simpl; split; [lia|done]|].
  apply wp_bind. eapply wp_mono; [apply Hip|]. intros v s2 H2.
  apply wp_bind. eapply wp_mono; [apply Hsig|]. intros sig s3 H3.
  apply wp_bind. eapply wp_mono; [apply IH|]. intros fs s4 [Hl H4]. apply wp_ret.
  split; [simpl in *; lia|]. etrans; [exact H1|]. etrans; [exact H2|]. by etrans; [exact H3|].
Qed.

Lemma with_frames_spec ips fs :
  (1 + length fs ≤ length ips)%nat →
  length (with_frames ips 1 fs) = length ips ∧ with_frames ips 1 fs !! 0%nat = ips !! 0%nat ∧
  ∀ i, (1 + length fs ≤ i)%nat → with_frames ips 1 fs !! i = ips !! i.
Proof.
  intros Hl. unfold with_frames. rewrite !length_app, length_take, length_drop.
  split; [lia|]. split.
  - destruct ips; simpl in *; [lia|done].
  - intros i Hi. rewrite lookup_app_r by (rewrite length_take; lia).
    rewrite length_take, Nat.min_l by lia.
    rewrite lookup_app_r, lookup_drop by lia. f_equal. lia.
Qed.

Lemma get_entries_wp R `{!PreOrder R} uregs addr_space depth ips (s : S) :
  within R → 1 ≤ depth ≤ Z.of_nat (length ips) →
  wp (get_entries uregs addr_space (Stacktrace depth (Some ips)))
     (λ v s', (∃ depth' ips', snd v = Stacktrace depth' (Some ips') ∧ 1 ≤ depth' ≤ depth ∧
        length ips' = length ips ∧ ips' !! 0%nat = Some (ip uregs) ∧
        ∀ i, (Z.to_nat depth' ≤ i)%nat → ips' !! i = ips !! i) ∧ R s s') s.
Proof.
  intros Hret Hd. eapply wp_run_eq; [by apply get_entries_frames|]. cbv zeta.
  set (ips0 := <[0%nat := ip uregs]> ips).
  assert (length ips0 = length ips ∧ ips0 !! 0%nat = Some (ip uregs) ∧
    ∀ i, (1 ≤ i)%nat → ips0 !! i = ips !! i) as (Hl & H0 & Hi).
  { subst ips0. rewrite length_insert, list_lookup_insert_eq by lia.
    split_and!; [done|done|]. intros i Hi. rewrite list_lookup_insert_ne by lia. done. }
  destruct (addr_space =? 0).
  { apply wp_ret. split; [|done]. exists depth, ips0. split_and!; try done; try lia.
    intros i ?. apply Hi. lia. }
  apply wp_bind. eapply wp_mono; [apply Hret|]. intros [ret c] s1 H1.
  destruct (negb (ret =? 0)).
  { apply wp_ret. split; [|done]. exists 1, ips0. split_and!; try done; lia. }
  apply wp_bind. eapply wp_mono; [by apply (frames_wp R)|]. intros fs s2 [Hfs H2]. apply wp_ret.
  split; [|by etrans].
  destruct (with_frames_spec ips0 fs) as (Hl' & H0' & Hi'); [lia|].
  eexists _, _. split; [done|]. split; [lia|]. split; [lia|]. split; [by rewrite H0'|].
  intros i ?. rewrite Hi', Hi by lia. done.
Qed.
End entries.

(** ** The promises *)

(** C22. access_mem shows libunwind the sampled stack and the files: a word
    inside the sample is read from it (little endian, never outside the
    buffer); any other address is translated by the map that holds it and read
    from its file, with result 1 past the end of the file and -1 when no map
    holds it, *valp being 0 then. *)
Theorem access_mem_correct (lock : pthread_rwlock maps_st) (sys_stat : string → option Z)
    (sys_open : string → Z) (errno : Z) (sys_fstat : Z → option Z)
    (sys_pread : Z → Z → Z → Z * list Z) (uc : unwind_ctx) (addr : Z) (s : us_st) (l xs : list Z) :
  sample_ok uc → 0 ≤ addr → addr + 8 < 2 ^ 64 →
  maps_inv (us_maps s) l xs → disjoint_maps (ms_map (us_maps s)) l →
  (on_stack uc addr →
   access_mem lock sys_stat sys_open errno sys_fstat sys_pread uc addr false s =
     Ok ((0, Some (le_value (slice (uc_data uc) (addr - sp (uc_uregs uc)) 8))), s)) ∧
  (¬ on_stack uc addr → ∀ file m e lc,
   flen file + 4096 < 2 ^ 63 → mapped s l xs addr m e →
   servable sys_stat sys_open sys_fstat sys_pread file e lc (map_ip m addr) 8 →
   wp (access_mem lock sys_stat sys_open errno sys_fstat sys_pread uc addr false)
      (λ v _, v = if map_ip m addr + 8 <=? flen file
                  then (0, Some (le_value (slice file (map_ip m addr) 8)))
                  else (1, Some 0)) s) ∧
  (¬ on_stack uc addr → Maps.find_map (ms_map (us_maps s)) addr l = NULL →
   wp (access_mem lock sys_stat sys_open errno sys_fstat sys_pread uc addr false)
      (λ v s', v = (-1, Some 0) ∧ s' = s) s).
Proof.
  intros Hok H0 H1 Hinv Hd. split; [by apply access_mem_stack|]. split.
  - intros Hoff file m e lc Hfile Hm Hsv. apply access_mem_off_stack; [done..|].
    eapply wp_mono; [by eapply access_dso_mem_wp|]. intros v s' [-> _].
    by destruct (map_ip m addr + 8 <=? flen file).
  - intros Hoff Hnull. apply access_mem_off_stack; [done..|]. unfold Unwind.access_dso_mem.
    apply wp_bind. eapply wp_mono; [by apply (find_map_wp lock addr s l xs)|].
    intros a s' [-> ->]. by rewrite Hnull.
Qed.

(** ** A concrete process: the two maps of MapsProps.v, whose dso at address
    512 is a file of 25 bytes with a header at offset 4; a sample of 32 bytes
    of stack at address 107 *)

Definition ex_us_file : list Z := [0; 0; 0; 0] ++ ex_hdr_file.
Definition ex_us_pread (fd count off : Z) : Z * list Z :=
  let d := slice ex_us_file off count in (Z.of_nat (length d), d).
Definition ex_us_dso : dso_ent := DsoEnt ex_dso "f" 4.
Definition ex_us : us_st := UsSt ex_maps (<[512 := ex_us_dso]> ∅).
Definition ex_uc : unwind_ctx := UnwindCtx 0 0 0 ex_regs "" 16 (seqZ 1 32).

Lemma ex_mapped ip :
  Maps.find_map (ms_map ex_maps) ip [4096; 8192] = 4096 →
  mapped ex_us [4096; 8192] [4096; 8192] ip (ex_map 100 200 0 512 1) ex_us_dso.
Proof.
  intros H. split; [apply ex_maps_inv|apply ex_maps_disjoint|..];
    change (us_maps ex_us) with ex_maps; rewrite ?H; done.
Qed.

Lemma ex_servable offset size :
  (needed offset size ≤ 3)%nat → offset < 25 →
  servable ex_stat (λ _, 3) (λ _, Some 25) ex_us_pread ex_us_file ex_us_dso [] offset size.
Proof.
  intros Hn Ho. split.
  - split; [done|]. split_and!; done.
  - by apply ex_cache_empty.
  - by apply ex_pool_ok.
  - by left.
  - done.
  - by left.
  - intros _. right. split; [done|]. by left.
Qed.

Lemma ex_sample_ok : sample_ok ex_uc.
Proof. done. Qed.

Lemma access_mem_correct_witness :
  access_mem ex_lock ex_stat (λ _, 3) 0 (λ _, Some 25) ex_us_pread ex_uc 108 false ex_us =
    Ok ((0, Some (le_value (slice (uc_data ex_uc) (108 - sp (uc_uregs ex_uc)) 8))), ex_us) ∧
  wp (access_mem ex_lock ex_stat (λ _, 3) 0 (λ _, Some 25) ex_us_pread ex_uc 104 false)
     (λ v _, v = (0, Some 0x103b031b01)) ex_us ∧
  wp (access_mem ex_lock ex_stat (λ _, 3) 0 (λ _, Some 25) ex_us_pread ex_uc 250 false)
     (λ v s', v = (-1, Some 0) ∧ s' = ex_us) ex_us.
Proof.
  split; [|split].
  - by refine (proj1 (access_mem_correct ex_lock ex_stat (λ _, 3) 0 (λ _, Some 25) ex_us_pread ex_uc 108
      ex_us [4096; 8192] [4096; 8192] ex_sample_ok ltac:(done) ltac:(done) ex_maps_inv ex_maps_disjoint) _).
  - refine (proj1 (proj2 (access_mem_correct ex_lock ex_stat (λ _, 3) 0 (λ _, Some 25) ex_us_pread ex_uc 104
      ex_us [4096; 8192] [4096; 8192] ex_sample_ok ltac:(done) ltac:(done) ex_maps_inv ex_maps_disjoint)) _
      ex_us_file (ex_map 100 200 0 512 1) ex_us_dso [] ltac:(done) (ex_mapped 104 eq_refl) _);
      [by intros [? _]|].
    by apply ex_servable; [apply (bool_decide_unpack (needed 4 8 ≤ 3)%nat)|].
  - by refine (proj2 (proj2 (access_mem_correct ex_lock ex_stat (λ _, 3) 0 (λ _, Some 25) ex_us_pread ex_uc 250
      ex_us [4096; 8192] [4096; 8192] ex_sample_ok ltac:(done) ltac:(done) ex_maps_inv ex_maps_disjoint)) _ eq_refl);
      intros [_ ?].
Defined.

(** The last full word of the sample is not served from it: with
    addr + 8 equal to the end of the sampled stack, the eight bytes are in the
    buffer, but access_mem looks for a map and, when none holds the stack,
    fails with -1. *)
Theorem access_mem_last_word (lock : pthread_rwlock maps_st) (sys_stat : string → option Z)
    (sys_open : string → Z) (errno : Z) (sys_fstat : Z → option Z)
    (sys_pread : Z → Z → Z → Z * list Z) (uc : unwind_ctx) (s : us_st) (l xs : list Z) :
  let addr := sp (uc_uregs uc) + uc_size uc - 8 in
  sample_ok uc → 8 ≤ uc_size uc →
  maps_inv (us_maps s) l xs → disjoint_maps (ms_map (us_maps s)) l →
  Maps.find_map (ms_map (us_maps s)) addr l = NULL →
  length (slice (uc_data uc) (addr - sp (uc_uregs uc)) 8) = 8%nat ∧
  wp (access_mem lock sys_stat sys_open errno sys_fstat sys_pread uc addr false)
     (λ v s', v = (-1, Some 0) ∧ s' = s) s.
Proof.
  intros addr Hok H8 Hinv Hd Hnull. pose proof Hok as (Hs1 & Hs2 & Hsp & Hend). split.
  { unfold slice. rewrite length_take, length_drop. subst addr. lia. }
  apply access_mem_off_stack; [done|unfold on_stack; lia|lia|lia|].
  unfold Unwind.access_dso_mem. apply wp_bind.
  eapply wp_mono; [by apply (find_map_wp lock addr s l xs)|].
  intros a s' [-> ->]. by rewrite Hnull.
Qed.

Lemma access_mem_last_word_witness :
  length (slice (seqZ 1 32) 8 8) = 8%nat ∧
  wp (access_mem ex_lock ex_stat (λ _, 3) 0 (λ _, Some 25) ex_us_pread
        (UnwindCtx 0 0 0 (PtRegs 0 0 0 0 0 0 0 0 0 0 0 0 0 0 0 0 0 0 0 800 0) "" 16 (seqZ 1 32)) 808 false)
     (λ v s', v = (-1, Some 0) ∧ s' = ex_us) ex_us.
Proof.
  apply (access_mem_last_word ex_lock ex_stat (λ _, 3) 0 (λ _, Some 25) ex_us_pread
    (UnwindCtx 0 0 0 (PtRegs 0 0 0 0 0 0 0 0 0 0 0 0 0 0 0 0 0 0 0 800 0) "" 16 (seqZ 1 32)) ex_us
    [4096; 8192] [4096; 8192]); try done; [apply ex_maps_inv|apply ex_maps_disjoint].
Defined.

(** C23. find_proc_info hands libunwind the search table of the object at the
    ip: the range of its map, and addresses of the .eh_frame_hdr section and
    of its table that translate back to their offsets in the file, with the
    fde count of the header; a header cut short by the end of the file, and an
    ip that no map holds, are -EINVAL. *)
Theorem find_proc_info_correct (lock : pthread_rwlock maps_st) (sys_stat : string → option Z)
    (sys_open : string → Z) (errno : Z) (sys_fstat : Z → option Z)
    (sys_pread : Z → Z → Z → Z * list Z) (hdr_addr : Z) (elf_begin : Z → option elf)
    (dwarf_search : Z → unw_dyn_info → um Z)
    (file : list Z) (ip : Z) (s : us_st) (l xs : list Z) :
  let find := find_proc_info lock sys_stat sys_open errno sys_fstat sys_pread hdr_addr
                elf_begin dwarf_search ip in
  (∀ m e lc offset Q,
   flen file + 4096 < 2 ^ 63 → Forall is_byte file → 0 ≤ hdr_addr →
   mapped s l xs ip m e →
   servable sys_stat sys_open sys_fstat sys_pread file e lc offset sizeof_hdr →
   hdr_at sys_fstat sys_pread elf_begin file e offset → 0 < offset ≤ flen file →
   nth (Z.to_nat offset + 1) file 0 = 0x1b → nth (Z.to_nat offset + 2) file 0 = 0x03 →
   (flen file - offset < sizeof_hdr → ∀ s1, Q (- EINVAL) s1) →
   (∀ di s1, us_maps s1 = us_maps s →
      describes m offset (le_value (slice file (offset + 8) 4)) di →
      wp (dwarf_search ip di) Q s1) →
   wp find Q s) ∧
  (maps_inv (us_maps s) l xs → disjoint_maps (ms_map (us_maps s)) l →
   Maps.find_map (ms_map (us_maps s)) ip l = NULL →
   wp find (λ v s', v = - EINVAL ∧ s' = s) s).
Proof.
  intros find. split.
  - intros m e lc offset Q Hf Hb Ha Hm Hsv Hat Hoff Hn1 Hn2 Hcut Hfull.
    eapply find_proc_info_wp; eauto.
  - intros Hinv Hd Hnull. unfold find, Unwind.find_proc_info. apply wp_bind.
    eapply wp_mono; [by apply (find_map_wp lock ip s l xs)|].
    intros a s' [-> ->]. by rewrite Hnull.
Qed.

Lemma find_proc_info_correct_witness :
  wp (find_proc_info ex_lock ex_stat (λ _, 3) 0 (λ _, Some 25) ex_us_pread 1000 (λ _, None)
        (λ _ di, mret (di_table_len di)) 110) (λ v _, v = 263) ex_us ∧
  wp (find_proc_info ex_lock ex_stat (λ _, 3) 0 (λ _, Some 25) ex_us_pread 1000 (λ _, None)
        (λ _ di, mret (di_table_len di)) 250) (λ v s', v = - EINVAL ∧ s' = ex_us) ex_us.
Proof.
  split.
  - apply (find_proc_info_correct ex_lock ex_stat (λ _, 3) 0 (λ _, Some 25) ex_us_pread 1000
      (λ _, None) (λ _ di, mret (di_table_len di)) ex_us_file 110 ex_us [4096; 8192] [4096; 8192])
      with (m := ex_map 100 200 0 512 1) (e := ex_us_dso) (lc := []) (offset := 4);
      try done; [repeat constructor; done|by apply ex_mapped| |by left|].
    + by apply ex_servable; [apply (bool_decide_unpack (needed 4 sizeof_hdr ≤ 3)%nat)|].
    + intros di s1 _ []. apply wp_ret. by rewrite dd_len0.
  - apply (find_proc_info_correct ex_lock ex_stat (λ _, 3) 0 (λ _, Some 25) ex_us_pread 1000
      (λ _, None) (λ _ di, mret (di_table_len di)) ex_us_file 250 ex_us
      [4096; 8192] [4096; 8192]); [apply ex_maps_inv|apply ex_maps_disjoint|done].
Defined.

(** C24. get_entries computes the frame sequence: entry 0 is the sampled ip,
    the following entries are the caller frames the cursor yields, in order,
    with the ip moved back by one except in signal frames, as many as fit the
    depth; the depth becomes their number.  A missing array or a depth below 1
    is EINVAL, a missing address space -1, and an error of unw_init_remote is
    returned with only entry 0. *)
Theorem get_entries_correct {S C : Type} (unw_init_remote : cm S (Z * C))
    (unw_step : C → cm S (Z * C)) (unw_get_ip unw_is_signal_frame : C → cm S Z)
    (uregs : pt_regs) (addr_space depth : Z) (st : stacktrace) (ips : list Z) (s : S) :
  let entries := get_entries unw_init_remote unw_step unw_get_ip unw_is_signal_frame
                   uregs addr_space in
  (st_ips st = None ∨ (∃ ips, st_ips st = Some ips) ∧ st_depth st < 1 →
   entries st s = Ok ((EINVAL, st), s)) ∧
  (1 ≤ depth ≤ Z.of_nat (length ips) →
   entries (Stacktrace depth (Some ips)) s =
     (let ips := <[0%nat := ip uregs]> ips in
      if addr_space =? 0 then mret (-1, Stacktrace depth (Some ips)) else
      '(ret, c) ← unw_init_remote;
      if negb (ret =? 0) then mret (ret, Stacktrace 1 (Some ips)) else
      fs ← frames unw_step unw_get_ip unw_is_signal_frame (Z.to_nat (depth - 1)) c;
      mret (0, Stacktrace (1 + Z.of_nat (length fs)) (Some (with_frames ips 1 fs)))) s).
Proof.
  intros entries. split; [|apply get_entries_frames].
  destruct st as [d o]. unfold entries, Unwind.get_entries. simpl.
  intros [->|[[l ->] Hd]]; [done|]. by rewrite (proj2 (Z.ltb_lt _ _)).
Qed.

(** A libunwind whose cursor counts down: frame [n] is at [1000 * n], and
    frame 1 is a signal frame. *)
Definition ex_step (c : nat) : cm unit (Z * nat) :=
  match c with O => mret (0, O) | Datatypes.S c => mret (1, c) end.
Definition ex_get_ip (c : nat) : cm unit Z := mret (1000 * Z.of_nat c).
Definition ex_is_signal (c : nat) : cm unit Z := mret (if bool_decide (c = 1%nat) then 1 else 0).
Definition ex_init : cm unit (Z * nat) := mret (0, 3%nat).

Lemma get_entries_correct_witness :
  get_entries ex_init ex_step ex_get_ip ex_is_signal ex_regs 1
    (Stacktrace 3 (Some [7; 7; 7; 7])) tt =
    Ok ((0, Stacktrace 3 (Some [116; 1999; 1000; 7])), tt).
Proof.
  refine (eq_trans (proj2 (get_entries_correct ex_init ex_step ex_get_ip ex_is_signal ex_regs 1 3
    (Stacktrace 3 None) [7; 7; 7; 7] tt) _) _); [split; done|reflexivity].
Defined.

(** Whatever libunwind answers, as long as it returns, the walk ends and
    stays in bounds: it writes no entry from the new depth on, the new depth
    is between 1 and the old one, and entry 0 is the sampled ip. *)
Theorem get_entries_bounds {S C : Type} (unw_init_remote : cm S (Z * C))
    (unw_step : C → cm S (Z * C)) (unw_get_ip unw_is_signal_frame : C → cm S Z)
    (uregs : pt_regs) (addr_space depth : Z) (ips : list Z) (s : S) :
  returning unw_init_remote unw_step unw_get_ip unw_is_signal_frame →
  1 ≤ depth ≤ Z.of_nat (length ips) →
  wp (get_entries unw_init_remote unw_step unw_get_ip unw_is_signal_frame uregs addr_space
        (Stacktrace depth (Some ips)))
     (λ v _, ∃ depth' ips', snd v = Stacktrace depth' (Some ips') ∧ 1 ≤ depth' ≤ depth ∧
        length ips' = length ips ∧ ips' !! 0%nat = Some (ip uregs) ∧
        ∀ i, (Z.to_nat depth' ≤ i)%nat → ips' !! i = ips !! i) s.
Proof.
  intros Hret Hd. eapply wp_mono; [by apply (get_entries_wp _ _ _ _ (λ _ _, True))|]. by intros v s' [? _].
Qed.

Lemma get_entries_bounds_witness :
  wp (get_entries ex_init ex_step ex_get_ip ex_is_signal ex_regs 1
        (Stacktrace 3 (Some [7; 7; 7; 7])))
     (λ v _, ∃ depth' ips', snd v = Stacktrace depth' (Some ips') ∧ 1 ≤ depth' ≤ 3 ∧
        length ips' = 4%nat ∧ ips' !! 0%nat = Some 116 ∧
        ∀ i, (Z.to_nat depth' ≤ i)%nat → ips' !! i = [7; 7; 7; 7] !! i) tt.
Proof.
  apply (get_entries_bounds ex_init ex_step ex_get_ip ex_is_signal ex_regs 1 3 [7; 7; 7; 7] tt);
    [|done].
  split_and!; try done. by intros [|c] [].
Defined.
