(* ===== verification/CString.v ===== *)
(** The string functions of the C library that src/src/dso.c,
    src/src/thread.c and src/src/event.c use.

    A C string is the sequence of its bytes before the terminator. *)
From Stdlib Require Import ZArith Lia String Ascii.
From stdpp Require Import base tactics option list numbers strings.
From S2P Require Import Prelude Utility.

Local Open Scope Z_scope.

(** ** Comparison

    The difference of the first bytes that differ, as [unsigned char]; the
    callers use only its sign. *)
Definition byte_val (c : ascii) : Z := Z.of_nat (nat_of_ascii c).

Fixpoint strcmp (s1 s2 : string) : Z :=
  match s1, s2 with
  | EmptyString, EmptyString => 0
  | EmptyString, String _ _ => -1
  | String _ _, EmptyString => 1
  | String c1 s1, String c2 s2 =>
    if byte_val c1 =? byte_val c2 then strcmp s1 s2 else byte_val c1 - byte_val c2
  end.

(** [strncmp]: at most [n] bytes are compared. *)
Definition strncmp (s1 s2 : string) (n : nat) : Z :=
  strcmp (String.substring 0 n s1) (String.substring 0 n s2).

(** The order of the names in the tree of dsos. *)
Definition name_lt (s1 s2 : string) : Prop := strcmp s1 s2 < 0.

Lemma byte_val_inj c1 c2 : byte_val c1 = byte_val c2 → c1 = c2.
Proof.
  unfold byte_val. intros H. rewrite <- (ascii_nat_embedding c1), <- (ascii_nat_embedding c2).
  f_equal. lia.
Qed.

Lemma strcmp_refl s : strcmp s s = 0.
Proof. induction s as [|c s IH]; simpl; [done|]. by rewrite Z.eqb_refl. Qed.

Lemma strcmp_eq s1 s2 : strcmp s1 s2 = 0 ↔ s1 = s2.
Proof.
  split; [|intros ->; apply strcmp_refl].
  revert s2. induction s1 as [|c1 s1 IH]; intros [|c2 s2]; simpl; try done.
  destruct (Z.eqb_spec (byte_val c1) (byte_val c2)) as [->%byte_val_inj|]; [|lia].
  intros ->%IH. done.
Qed.

Lemma strcmp_sym s1 s2 : strcmp s1 s2 < 0 ↔ 0 < strcmp s2 s1.
Proof.
  revert s2. induction s1 as [|c1 s1 IH]; intros [|c2 s2]; simpl; try lia.
  rewrite (Z.eqb_sym (byte_val c2)).
  destruct (Z.eqb_spec (byte_val c1) (byte_val c2)); [apply IH|lia].
Qed.

Lemma name_lt_trans s1 s2 s3 : name_lt s1 s2 → name_lt s2 s3 → name_lt s1 s3.
Proof.
  unfold name_lt. revert s2 s3.
  induction s1 as [|c1 s1 IH]; intros [|c2 s2] [|c3 s3]; simpl; try lia.
  destruct (Z.eqb_spec (byte_val c1) (byte_val c2)), (Z.eqb_spec (byte_val c2) (byte_val c3)),
    (Z.eqb_spec (byte_val c1) (byte_val c3)); try lia; apply IH.
Qed.

Lemma strcmp_cases s1 s2 : name_lt s1 s2 ∨ s1 = s2 ∨ name_lt s2 s1.
Proof.
  unfold name_lt. destruct (Z.lt_trichotomy (strcmp s1 s2) 0) as [?|[?%strcmp_eq|?]];
    [by left|by right; left|]. right; right. by apply strcmp_sym.
Qed.

(** ** basename

    POSIX [basename]: the part after the last slash, trailing slashes aside;
    ["/"] when there is nothing but slashes and ["."] for the empty string. *)
Definition is_slash (c : ascii) : bool := Ascii.eqb c "/".

(** The longest slash-free suffix. *)
Fixpoint last_part (s : string) (acc : string) : string :=
  match s with
  | EmptyString => acc
  | String c s => last_part s (if is_slash c then "" else acc ++ String c "")
  end.

(** Without the slashes at the end. *)
Fixpoint strip_slashes (s : string) : string :=
  match s with
  | EmptyString => EmptyString
  | String c s =>
    match strip_slashes s with
    | EmptyString => if is_slash c then EmptyString else String c EmptyString
    | t => String c t
    end
  end.

Definition basename (path : string) : string :=
  match path with
  | EmptyString => "."
  | _ => match strip_slashes path with
         | EmptyString => "/"
         | t => last_part t ""
         end
  end.

Example basename_path : basename "/usr/lib/libc.so.6" = "libc.so.6".
Proof. reflexivity. Qed.
Example basename_slashes : (basename "//", basename "/usr/", basename "cat") = ("/", "usr", "cat").
Proof. reflexivity. Qed.
