(* ===== verification/Dsos.v ===== *)
(** The dsos of a machine: the list and the name tree of src/src/dso.c
    (__dso__findlink_by_longname to dso__new, __dsos__add to dsos__findnew) and
    their set-up and purge in src/src/machine.c.

    A [struct dso] at address [a] is its list node at [dso_node a], its
    [rb_node] at [dso_rb a] (after a pthread_mutex_t of 40 bytes, as on
    x86-64), its reference count, and its other fields, the record [dso]. *)
From Stdlib Require Import ZArith Lia String.
From stdpp Require Import base tactics option list numbers gmap sorting strings.
From S2P Require Import Prelude RbTree RbSpec RbRep RbUnlink RbIter RbSearch.
From S2P Require Import ListHead ListRep ListSplice ListIter Refcount DsoRef Rwsem Utility CString DsoData.

Local Open Scope Z_scope.

(** ** Data *)

(** A name is [None] when the pointer is NULL; [d_root] tells whether
    [dso->root] points to the tree (there is one). *)
Record dso := Dso {
  d_name : string;
  d_long_name : option string; d_long_name_len : Z; d_long_name_allocated : bool;
  d_short_name : option string; d_short_name_len : Z; d_short_name_allocated : bool;
  d_root : bool;
  d_cache : Z; d_fd : Z; d_status : dso_data_status;    (* [dso->data] *)
}.

Record dsos_st := DsosSt {
  dn_rb : rb_state;        (* the rb_nodes and [dsos->root] *)
  dn_list : list_mem;      (* the list nodes *)
  dn_dso : gmap Z dso;     (* the other fields of the dsos *)
  dn_refs : gmap Z Z;      (* their reference counts *)
  dn_head : Z;             (* [&dsos->head] *)
  dn_pool : list Z;        (* what calloc returns next *)
}.

#[export] Instance dsos_rb_store : Store dsos_st rb_state.
Proof.
  refine {| part := dn_rb;
    with_part r s := DsosSt r (dn_list s) (dn_dso s) (dn_refs s) (dn_head s) (dn_pool s) |};
    by try intros ? ? []; try intros [].
Defined.
#[export] Instance dsos_list_store : Store dsos_st list_mem.
Proof.
  refine {| part := dn_list;
    with_part l s := DsosSt (dn_rb s) l (dn_dso s) (dn_refs s) (dn_head s) (dn_pool s) |};
    by try intros ? ? []; try intros [].
Defined.
#[export] Instance dsos_dso_store : Store dsos_st (gmap Z dso).
Proof.
  refine {| part := dn_dso;
    with_part d s := DsosSt (dn_rb s) (dn_list s) d (dn_refs s) (dn_head s) (dn_pool s) |};
    by try intros ? ? []; try intros [].
Defined.
#[export] Instance dsos_refs_store : Store dsos_st (gmap Z Z).
Proof.
  refine {| part := dn_refs;
    with_part r s := DsosSt (dn_rb s) (dn_list s) (dn_dso s) r (dn_head s) (dn_pool s) |};
    by try intros ? ? []; try intros [].
Defined.

Abbreviation sm := (cm dsos_st).

(** [&dso->node], [&dso->rb_node] and the [rb_entry] of the latter. *)
Definition dso_node (dso : Z) : Z := dso + 40.
Definition dso_rb (dso : Z) : Z := dso + 56.
Definition rb_dso (node : Z) : Z := node - 56.

Definition dso_load (a : Z) : sm dso := lift (obj_load a).
Definition dso_store (a : Z) (f : dso → dso) : sm unit := lift (obj_store a f).

Definition set_long (name : string) (alloc : bool) (d : dso) : dso :=
  Dso (d_name d) (Some name) (w16 (slen name)) alloc
    (d_short_name d) (d_short_name_len d) (d_short_name_allocated d)
    (d_root d) (d_cache d) (d_fd d) (d_status d).
Definition set_short (name : string) (alloc : bool) (d : dso) : dso :=
  Dso (d_name d) (d_long_name d) (d_long_name_len d) (d_long_name_allocated d)
    (Some name) (w16 (slen name)) alloc (d_root d) (d_cache d) (d_fd d) (d_status d).
Definition set_droot (b : bool) (d : dso) : dso :=
  Dso (d_name d) (d_long_name d) (d_long_name_len d) (d_long_name_allocated d)
    (d_short_name d) (d_short_name_len d) (d_short_name_allocated d)
    b (d_cache d) (d_fd d) (d_status d).
Definition set_data (cache fd : Z) (st : dso_data_status) (d : dso) : dso :=
  Dso (d_name d) (d_long_name d) (d_long_name_len d) (d_long_name_allocated d)
    (d_short_name d) (d_short_name_len d) (d_short_name_allocated d) (d_root d) cache fd st.

(** The string a pointer designates. *)
Definition str {S} (s : option string) : cm S string :=
  match s with Some s => mret s | None => c_fault end.

(** ** The name tree (dso.c:23-104) *)

Definition findlink_visit (dso : Z) (name : string) (cur : Z) : sm (turn Z) :=
  let this := rb_dso cur in
  d ← dso_load this;
  long ← str (d_long_name d);
  let rc := strcmp name long in
  if rc =? 0 then
    if (dso =? NULL) || (dso =? this) then mret (Stop this) else
    e ← dso_load dso;
    s1 ← str (d_short_name e);
    s2 ← str (d_short_name d);
    let rc := strcmp s1 s2 in
    if rc =? 0 then mret (Stop NULL)
    else mret (if rc <? 0 then GoLeft else GoRight)
  else mret (if rc <? 0 then GoLeft else GoRight).

Definition __dso__findlink_by_longname (dso : Z) (name : option string) : sm Z :=
  name ← (match name with
          | Some name => mret name
          | None => d ← dso_load dso; str (d_long_name d)
          end);
  r ← rb_search (findlink_visit dso name);
  match r with
  | inl this => mret this
  | inr (parent, p) =>
    if negb (dso =? NULL) then
      lift (rb_link_node (dso_rb dso) parent p);;
      lift (rb_insert_color (dso_rb dso));;
      dso_store dso (set_droot true);;
      mret NULL
    else mret NULL
  end.

Definition __dso__find_by_longname (name : string) : sm Z :=
  __dso__findlink_by_longname NULL (Some name).

(** Freeing the old name has no effect on the names that are modelled as
    values. *)
Definition dso__set_long_name (dso : Z) (name : option string) (name_allocated : bool) : sm unit :=
  d ← dso_load dso;
  let root := d_root d in
  match name with
  | None => mret tt
  | Some name =>
    (if root then
       lift (rb_erase (dso_rb dso));;
       lift (RB_CLEAR_NODE (dso_rb dso));;
       dso_store dso (set_droot false)
     else mret tt);;
    dso_store dso (set_long name name_allocated);;
    if root then __dso__findlink_by_longname dso None;; mret tt else mret tt
  end.

(** ** Names and creation (dso.c:106-180) *)

Definition dso__set_short_name (dso : Z) (name : option string) (name_allocated : bool) : sm unit :=
  match name with
  | None => mret tt
  | Some name => dso_store dso (set_short name name_allocated)
  end.

Section dsos.
(** [strdup]: a copy of the string, or NULL when memory is exhausted. *)
Variable strdup : string → option string.
Variable lock : pthread_rwlock dsos_st.

Definition dso__set_basename (dso : Z) : sm unit :=
  d ← dso_load dso;
  long ← str (d_long_name d);
  match strdup long with
  | None => mret tt
  | Some lname =>
    match strdup (basename lname) with
    | None => mret tt
    | Some base => dso__set_short_name dso (Some base) true
    end
  end.

(** [xcalloc]: zeroed memory, or a failing assert. *)
Definition xcalloc_dso : sm Z := λ s,
  match dn_pool s with
  | [] => Abort
  | a :: pool =>
    Ok (a, DsosSt
      (RbState (<[dso_rb a := RbNode 0 0 0]> (rb_mem (dn_rb s))) (rb_root_node (dn_rb s)))
      (<[dso_node a := ListHead 0 0]> (dn_list s))
      (<[a := Dso "" None 0 false None 0 false false 0 0 DSO_DATA_STATUS_UNKNOWN]> (dn_dso s))
      (<[a := 0]> (dn_refs s)) (dn_head s) pool)
  end.

(** [strcpy(dso->name, name)] *)
Definition strcpy_name (dso : Z) (name : string) : sm unit :=
  dso_store dso (λ d, Dso name (d_long_name d) (d_long_name_len d) (d_long_name_allocated d)
    (d_short_name d) (d_short_name_len d) (d_short_name_allocated d)
    (d_root d) (d_cache d) (d_fd d) (d_status d)).

Definition dso__new (name : string) : sm Z :=
  dso ← xcalloc_dso;
  strcpy_name dso name;;
  d ← dso_load dso;
  dso__set_long_name dso (Some (d_name d)) false;;
  d ← dso_load dso;
  dso__set_short_name dso (Some (d_name d)) false;;
  dso_store dso (set_data NULL (-1) DSO_DATA_STATUS_UNKNOWN);;
  lift (RB_CLEAR_NODE (dso_rb dso));;
  dso_store dso (set_droot false);;
  lift (INIT_LIST_HEAD (dso_node dso));;
  lift (obj_store dso (λ _, refcount_set 1));;
  mret dso.

(** ** The list of dsos (dso.c:521-604) *)

Definition __dsos__add (dso : Z) : sm unit :=
  head ← c_get dn_head;
  lift (list_add_tail (dso_node dso) head);;
  __dso__findlink_by_longname dso None;;
  dso__get dso;;
  mret tt.

Definition dsos__add (dso : Z) : sm unit :=
  down_write lock;; __dsos__add dso;; up_write lock;; mret tt.

(** [if (strcmp(pos->short_name, name) == 0) return pos;] *)
Definition find_short (name : string) (pos : Z) : sm (option Z) :=
  d ← dso_load pos;
  s ← str (d_short_name d);
  mret (if strcmp s name =? 0 then Some pos else None).

Definition __dsos__find (name : string) (cmp_short : bool) : sm Z :=
  if cmp_short then
    head ← c_get dn_head;
    r ← list_for_each_entry 40 (find_short name) head;
    mret (default NULL r)
  else __dso__find_by_longname name.

Definition dsos__find (name : string) (cmp_short : bool) : sm Z :=
  down_read lock;;
  dso ← __dsos__find name cmp_short;
  up_read lock;;
  mret dso.

Definition __dsos__addnew (name : string) : sm Z :=
  dso ← dso__new name;
  (if negb (dso =? NULL) then
     __dsos__add dso;;
     dso__set_basename dso;;
     dso__put dso
   else mret tt);;
  mret dso.

Definition __dsos__findnew (name : string) : sm Z :=
  dso ← __dsos__find name false;
  if negb (dso =? NULL) then mret dso else __dsos__addnew name.

Definition dsos__findnew (name : string) : sm Z :=
  down_write lock;;
  dso ← __dsos__findnew name;
  dso ← dso__get dso;
  up_write lock;;
  mret dso.

(** ** Set-up and purge (machine.c:13-43) *)

Definition dsos__init : sm unit :=
  head ← c_get dn_head;
  lift (INIT_LIST_HEAD head);;
  lift (set_root NULL);;
  init_rwsem lock;;
  mret tt.

Definition purge_dso (pos : Z) : sm (option unit) :=
  lift (RB_CLEAR_NODE (dso_rb pos));;
  dso_store pos (set_droot false);;
  lift (list_del_init (dso_node pos));;
  dso__put pos;;
  mret None.

Definition dsos__purge : sm unit :=
  down_write lock;;
  head ← c_get dn_head;
  list_for_each_entry_safe 40 purge_dso head;;
  up_write lock;;
  mret tt.
End dsos.
