(* ===== verification/DsosInv.v ===== *)
(** The contents of the list of dsos: its invariant, and the rules of the
    operations of Dsos.v on it. *)
From Stdlib Require Import ZArith Lia String.
From stdpp Require Import base tactics option list numbers gmap sorting strings.
From S2P Require Import Prelude RbTree RbSpec RbRep RbUnlink RbIter RbSearch.
From S2P Require Import ListHead ListRep ListSplice Refcount DsoRef Rwsem Utility CString DsoData Dsos.

Local Open Scope Z_scope.

(** ** The invariant *)

Definition long_of (D : gmap Z dso) (a : Z) : string :=
  default ""%string (D !! a ≫= d_long_name).
Definition short_of (D : gmap Z dso) (a : Z) : string :=
  default ""%string (D !! a ≫= d_short_name).

(** A dso that has its names and is in the tree. *)
Definition dso_live (D : gmap Z dso) (a : Z) : Prop :=
  ∃ d, D !! a = Some d ∧ is_Some (d_long_name d) ∧ is_Some (d_short_name d) ∧ d_root d = true.

(** The tree holds the dsos [l], sorted by long name, all different. *)
Record names_inv (s : dsos_st) (l : list Z) : Prop := {
  ni_tree : ∃ t, represents (dn_rb s) t ∧ redblack t ∧ inorder t = dso_rb <$> l;
  ni_live : ∀ a, a ∈ l → a ≠ NULL ∧ dso_live (dn_dso s) a;
  ni_sorted : StronglySorted (λ a b, name_lt (long_of (dn_dso s) a) (long_of (dn_dso s) b)) l;
}.

(** [ds] are the dsos in list order; the tree holds the same ones, and all have
    a reference count. *)
Definition dsos_inv (s : dsos_st) (ds : list Z) : Prop :=
  (∃ l, names_inv s l ∧ l ≡ₚ ds) ∧
  is_list (dn_list s) (dn_head s) (dso_node <$> ds) ∧
  ∀ a, a ∈ ds → is_Some (dn_refs s !! a).

(** The reference: the first dso of the list with that long, or short,
    name. *)
Fixpoint find_by (name_of : Z → string) (name : string) (l : list Z) : Z :=
  match l with
  | [] => NULL
  | a :: l => if bool_decide (name_of a = name) then a else find_by name_of name l
  end.

Lemma rb_dso_rb a : rb_dso (dso_rb a) = a.
Proof. unfold rb_dso, dso_rb. lia. Qed.
#[export] Instance dso_rb_inj : Inj (=) (=) dso_rb.
Proof. intros x y. unfold dso_rb. lia. Qed.
#[export] Instance dso_node_inj : Inj (=) (=) dso_node.
Proof. intros x y. unfold dso_node. lia. Qed.

Lemma find_by_none name_of name l :
  (∀ a, a ∈ l → name_of a ≠ name) → find_by name_of name l = NULL.
Proof.
  induction l as [|a l IH]; intros H; simpl; [done|].
  rewrite bool_decide_eq_false_2 by (apply H; left). apply IH. intros b Hb. apply H. by right.
Qed.

Lemma find_by_unique name_of name l a :
  a ∈ l → name_of a = name → (∀ b, b ∈ l → name_of b = name → b = a) →
  find_by name_of name l = a.
Proof.
  induction l as [|b l IH]; intros Ha Hn Hu; [by apply not_elem_of_nil in Ha|]. simpl.
  case_bool_decide as Hb; [apply Hu; [left|done]|].
  apply IH; [|done|intros; apply Hu; [by right|done]].
  apply elem_of_cons in Ha as [->|?]; done.
Qed.

Lemma find_by_in name_of name l :
  find_by name_of name l ≠ NULL →
  find_by name_of name l ∈ l ∧ name_of (find_by name_of name l) = name.
Proof.
  induction l as [|a l IH]; simpl; [done|]. case_bool_decide as Hb; [split; [left|done]|].
  intros [? ?]%IH. split; [by right|done].
Qed.

(** Long names tell the dsos apart. *)
Lemma names_differ (D : gmap Z dso) l a b :
  StronglySorted (λ a b, name_lt (long_of D a) (long_of D b)) l →
  a ∈ l → b ∈ l → long_of D a = long_of D b → a = b.
Proof.
  intros Hs. induction Hs as [|c l Hs IH Hf]; intros Ha Hb He; [by apply not_elem_of_nil in Ha|].
  rewrite Forall_forall in Hf. unfold name_lt in Hf.
  apply elem_of_cons in Ha as [->|Ha], Hb as [->|Hb]; [done|..|by apply IH].
  - apply Hf in Hb. rewrite He, strcmp_refl in Hb. lia.
  - apply Hf in Ha. rewrite He, strcmp_refl in Ha. lia.
Qed.

(** ** The search *)

Definition find_dir (D : gmap Z dso) (name : string) (cur : Z) : turn Z :=
  let rc := strcmp name (long_of D (rb_dso cur)) in
  if rc =? 0 then Stop (rb_dso cur) else if rc <? 0 then GoLeft else GoRight.

Lemma wp_dso_load a d s Q : a ≠ NULL → dn_dso s !! a = Some d → Q d s → wp (dso_load a) Q s.
Proof.
  intros Ha Hm HQ. apply (wp_lift_pure _ (λ v, v = d)); [by eapply wp_obj_load|by intros v ->].
Qed.
Lemma wp_dso_store a f d s Q :
  a ≠ NULL → dn_dso s !! a = Some d → Q tt (with_part (<[a := f d]> (dn_dso s)) s) →
  wp (dso_store a f) Q s.
Proof. intros. apply wp_lift. by eapply wp_obj_store. Qed.

(** A dso that is looked for by name only, or that is not in the tree yet and
    whose long name is new. *)
Lemma findlink_visit_wp dso name cur s :
  rb_dso cur ≠ NULL → dso_live (dn_dso s) (rb_dso cur) →
  dso = NULL ∨ name ≠ long_of (dn_dso s) (rb_dso cur) →
  wp (findlink_visit dso name cur) (λ v s', v = find_dir (dn_dso s) name cur ∧ s' = s) s.
Proof.
  intros Hnz (d & Hd & [ln Hl] & _ & _) Hdso. unfold findlink_visit, find_dir.
  apply wp_bind. eapply wp_dso_load; [done..|]. rewrite Hl. simpl. apply wp_bind, wp_ret.
  assert (long_of (dn_dso s) (rb_dso cur) = ln) as Hlong.
  { unfold long_of. by rewrite Hd; simpl; rewrite Hl. }
  rewrite Hlong in *. destruct (Z.eqb_spec (strcmp name ln) 0) as [He%strcmp_eq|He]; [|by apply wp_ret].
  destruct Hdso as [->|?]; [|done]. by apply wp_ret.
Qed.

Lemma name_dir_mono (D : gmap Z dso) name l :
  StronglySorted (λ a b, name_lt (long_of D a) (long_of D b)) l →
  mono (find_dir D name) (dso_rb <$> l).
Proof.
  intros Hs.
  apply (sorted_mono _ (λ a b, name_lt (long_of D (rb_dso a)) (long_of D (rb_dso b)))).
  - clear -Hs. induction Hs as [|a l Hs IH Hf]; simpl; constructor; [done|].
    apply Forall_fmap. eapply Forall_impl; [exact Hf|]. intros x. simpl. by rewrite !rb_dso_rb.
  - intros x y _ _ Hlt. unfold find_dir. set (u := long_of D (rb_dso x)) in *.
    set (v := long_of D (rb_dso y)) in *.
    repeat case_match; try done; intros _; exfalso.
    + assert (name = u) as -> by (apply strcmp_eq; lia). unfold name_lt in Hlt. lia.
    + assert (name_lt name v) as Hv by (eapply name_lt_trans; [|exact Hlt]; unfold name_lt; lia).
      unfold name_lt in Hv. lia.
  - intros x y _ _ Hlt. unfold find_dir. set (u := long_of D (rb_dso x)) in *.
    set (v := long_of D (rb_dso y)) in *.
    repeat case_match; try done; intros _; exfalso.
    + assert (name = v) as -> by (apply strcmp_eq; lia). apply strcmp_sym in Hlt. lia.
    + assert (name_lt name v) as Hv by (eapply name_lt_trans; [|exact Hlt]; unfold name_lt; lia).
      unfold name_lt in Hv. lia.
Qed.

Lemma names_live_in s l x : names_inv s l → x ∈ dso_rb <$> l →
  rb_dso x ∈ l ∧ rb_dso x ≠ NULL ∧ dso_live (dn_dso s) (rb_dso x).
Proof.
  intros [_ Hl _] (a & -> & Ha)%list_elem_of_fmap. rewrite rb_dso_rb. split; [done|by apply Hl].
Qed.

Lemma findlink_search_wp dso name s l :
  names_inv s l → dso = NULL ∨ (∀ a, a ∈ l → long_of (dn_dso s) a ≠ name) →
  wp (rb_search (findlink_visit dso name))
     (λ r s', s' = s ∧ ∃ t, represents (dn_rb s) t ∧ redblack t ∧ inorder t = dso_rb <$> l ∧
        r = at_hole (descend (find_dir (dn_dso s) name) t [])) s.
Proof.
  intros Hinv Hdso. destruct (ni_tree _ _ Hinv) as (t & Ht & Hrb & Hord).
  eapply wp_mono.
  { apply (rb_search_wp _ (find_dir (dn_dso s) name) s t); [done|]. rewrite Hord.
    intros x Hx. destruct (names_live_in _ _ _ Hinv Hx) as (Hin & Hnz & Hlv).
    apply findlink_visit_wp; [done..|]. destruct Hdso as [->|H]; [by left|].
    right. intros ->. by apply (H _ Hin). }
  intros r s' [-> ->]. split; [done|]. by exists t.
Qed.

(** A name that the descent leaves a hole for belongs to no dso of the tree. *)
Lemma find_dir_stop (D : gmap Z dso) name x v :
  find_dir D name x = Stop v → v = rb_dso x ∧ long_of D (rb_dso x) = name.
Proof.
  unfold find_dir. repeat case_match; try done. intros [= <-]. split; [done|].
  symmetry. apply strcmp_eq. lia.
Qed.

Lemma find_longname_wp name s l :
  names_inv s l →
  wp (__dso__find_by_longname name)
     (λ v s', v = find_by (long_of (dn_dso s)) name l ∧ s' = s) s.
Proof.
  intros Hinv. unfold __dso__find_by_longname, __dso__findlink_by_longname.
  apply wp_bind, wp_ret, wp_bind.
  eapply wp_mono; [by apply (findlink_search_wp NULL name s l); [|left]|].
  intros r s' (-> & t & Ht & Hrb & Hord & ->).
  destruct (descend _ t []) as [v|k] eqn:Hd; simpl; apply wp_ret; (split; [|done]); symmetry.
  - apply descend_stop in Hd as (x & Hx & [-> Hn]%find_dir_stop). rewrite Hord in Hx.
    destruct (names_live_in _ _ _ Hinv Hx) as (Hin & _). apply find_by_unique; [done..|].
    intros b Hb Hbn. eapply names_differ; [apply Hinv|done|done|]. by rewrite Hn.
  - apply descend_none in Hd as (Hl & HR & HL);
      [|by rewrite Hord; apply name_dir_mono, Hinv].
    apply find_by_none. intros a Ha Hn. rewrite Hord in Hl.
    assert (dso_rb a ∈ lefts k ++ rights k) as [Hx|Hx]%elem_of_app
      by (rewrite <- Hl; by apply list_elem_of_fmap_2).
    all: rewrite Forall_forall in HR, HL; first [apply HR in Hx|apply HL in Hx];
      unfold find_dir in Hx; rewrite rb_dso_rb, Hn, strcmp_refl in Hx; done.
Qed.

(** The two orders of the same dsos. *)
Lemma find_by_perm name (D : gmap Z dso) l ds :
  StronglySorted (λ a b, name_lt (long_of D a) (long_of D b)) l → l ≡ₚ ds →
  find_by (long_of D) name l = find_by (long_of D) name ds.
Proof.
  intros Hs Hp.
  destruct (decide (Exists (λ a, long_of D a = name) l)) as [(a & Ha & Hn)%Exists_exists|He].
  - assert (∀ b, b ∈ l → long_of D b = name → b = a).
    { intros b Hb Hbn. eapply names_differ; [done..|]. by rewrite Hn. }
    rewrite !(find_by_unique _ name _ a); try done; [by rewrite <- Hp|].
    intros b Hb. rewrite <- Hp in Hb. auto.
  - assert (∀ a, a ∈ l → long_of D a ≠ name) as Hno.
    { intros a Ha Hn. apply He, Exists_exists. by exists a. }
    rewrite !find_by_none; try done. intros a Ha. rewrite <- Hp in Ha. auto.
Qed.

(** ** Insertion *)

(** Linking a dso with a new long name. *)
Lemma findlink_insert_wp a d name s l :
  names_inv s l → a ≠ NULL → node_ok (dso_rb a) → is_Some (rb_mem (dn_rb s) !! dso_rb a) →
  dn_dso s !! a = Some d → d_long_name d = Some name → is_Some (d_short_name d) → a ∉ l →
  (∀ b, b ∈ l → long_of (dn_dso s) b ≠ name) →
  wp (__dso__findlink_by_longname a None)
     (λ v s', v = NULL ∧ ∃ (r' : rb_state) l1 l2, l = l1 ++ l2 ∧
        s' = with_part (<[a := set_droot true d]> (dn_dso s)) (with_part r' s) ∧
        names_inv s' (l1 ++ a :: l2)) s.
Proof.
  intros Hinv Hnz Hok Hmem Hd Hlong Hshort Hal Hnew.
  unfold __dso__findlink_by_longname. apply wp_bind, wp_bind. eapply wp_dso_load; [done..|].
  rewrite Hlong. simpl. apply wp_ret, wp_bind.
  eapply wp_mono; [by apply (findlink_search_wp a name s l); [|right]|].
  intros r s' (-> & t & Ht & Hrb & Hord & ->).
  destruct (descend _ t []) as [v|k] eqn:Hdesc; simpl.
  { exfalso. apply descend_stop in Hdesc as (x & Hx & [-> Hn]%find_dir_stop).
    rewrite Hord in Hx. destruct (names_live_in _ _ _ Hinv Hx) as (Hin & _). by apply (Hnew _ Hin). }
  rewrite (proj2 (Z.eqb_neq _ _) Hnz). simpl.
  assert (dso_rb a ∉ inorder t) as Hat.
  { rewrite Hord. by intros (b & ->%(inj _) & Hb)%list_elem_of_fmap. }
  pose proof (insert_at_hole_wp _ (dso_rb a) s t k Ht Hrb Hdesc Hok Hmem Hat) as Hins.
  apply descend_none in Hdesc as (Hl & HR & HL);
    [|by rewrite Hord; apply name_dir_mono, Hinv].
  apply wp_assoc, wp_bind. eapply wp_mono; [exact Hins|].
  intros [] s1 (t' & r' & -> & Ht' & Hrb' & Hord' & _).
  apply wp_bind. eapply wp_dso_store; [done|exact Hd|]. apply wp_ret. split; [done|].
  rewrite Hord in Hl. apply fmap_app_inv in Hl as (l1 & l2 & Hl1 & Hl2 & ->).
  exists r', l1, l2. split; [done|]. split; [done|].
  set (D' := <[a:=set_droot true d]> (dn_dso s)).
  assert (∀ b, b ∈ l1 ++ l2 → D' !! b = dn_dso s !! b) as Hother.
  { intros b Hb. subst D'. rewrite lookup_insert_ne; [done|]. by intros ->. }
  assert (long_of D' a = name) as Hna.
  { unfold long_of, D'. rewrite lookup_insert_eq. simpl. by rewrite Hlong. }
  split; simpl.
  - exists t'. split_and!; [done..|]. by rewrite Hord', Hl1, Hl2, fmap_app.
  - intros b Hb. destruct (decide (b = a)) as [->|Hne].
    + split; [done|]. eexists. split; [apply lookup_insert_eq|]. simpl. by rewrite Hlong.
    + assert (b ∈ l1 ++ l2) as Hb' by (clear -Hb Hne; set_solver).
      destruct (ni_live _ _ Hinv b Hb') as [? (e & He & ?)]. split; [done|].
      exists e. by rewrite Hother.
  - apply sorted_mid.
    + eapply sorted_impl; [|apply Hinv]. intros x y Hx Hy. unfold long_of. by rewrite !Hother.
    + rewrite Hl1 in HR. apply Forall_fmap in HR. rewrite Forall_forall in HR |- *.
      intros x Hx. specialize (HR x Hx). change (name_lt (long_of D' x) (long_of D' a)). rewrite Hna. unfold compose, find_dir in HR.
      rewrite rb_dso_rb in HR. unfold long_of. rewrite Hother by (clear -Hx; set_solver).
      fold (long_of (dn_dso s) x). apply strcmp_sym. repeat case_match; done || lia.
    + rewrite Hl2 in HL. apply Forall_fmap in HL. rewrite Forall_forall in HL |- *.
      intros x Hx. specialize (HL x Hx). change (name_lt (long_of D' a) (long_of D' x)). rewrite Hna. unfold compose, find_dir in HL.
      rewrite rb_dso_rb in HL. unfold long_of. rewrite Hother by (clear -Hx; set_solver).
      fold (long_of (dn_dso s) x). unfold name_lt. repeat case_match; done || lia.
Qed.

(** ** Creation *)

Lemma names_inv_rename s s' l :
  names_inv s l →
  (∀ a, a ∈ l → rb_mem (dn_rb s') !! dso_rb a = rb_mem (dn_rb s) !! dso_rb a) →
  rb_root_node (dn_rb s') = rb_root_node (dn_rb s) →
  (∀ a, a ∈ l → dso_live (dn_dso s') a ∧ long_of (dn_dso s') a = long_of (dn_dso s) a) →
  names_inv s' l.
Proof.
  intros [(t & Ht & Hrb & Hord) Hlive Hsort] Hm Hr Hd. split.
  - exists t. split; [|done]. eapply represents_frame; [done|rewrite Hord|done].
    intros x (a & -> & Ha)%list_elem_of_fmap. by apply Hm.
  - intros a Ha. split; [by apply Hlive|by apply Hd].
  - eapply sorted_impl; [|exact Hsort]. intros x y Hx Hy.
    by destruct (Hd x Hx) as [_ ->], (Hd y Hy) as [_ ->].
Qed.

Lemma names_inv_frame s s' l :
  names_inv s l →
  (∀ a, a ∈ l → rb_mem (dn_rb s') !! dso_rb a = rb_mem (dn_rb s) !! dso_rb a) →
  rb_root_node (dn_rb s') = rb_root_node (dn_rb s) →
  (∀ a, a ∈ l → dn_dso s' !! a = dn_dso s !! a) → names_inv s' l.
Proof.
  intros Hn Hm Hr Hd. eapply names_inv_rename; [done..|]. intros a Ha.
  unfold dso_live, long_of. rewrite Hd by done. split; [by apply Hn|done].
Qed.

(** What calloc returns: memory that nothing of the list uses. *)
Record fresh_dso (s : dsos_st) (ds : list Z) (a : Z) (pool : list Z) : Prop := {
  fd_pool : dn_pool s = a :: pool;
  fd_nz : a ≠ NULL;
  fd_rb : node_ok (dso_rb a);
  fd_in : a ∉ ds;
  fd_node : dso_node a ≠ 0 ∧ dso_node a ≠ dn_head s;
}.

(** The memory calloc has left is fresh, all of it. *)
Definition dso_pool_ok (s : dsos_st) (ds : list Z) : Prop :=
  NoDup (dn_pool s) ∧ ∀ a, a ∈ dn_pool s →
    a ≠ NULL ∧ node_ok (dso_rb a) ∧ (a ∉ ds) ∧ dso_node a ≠ 0 ∧ dso_node a ≠ dn_head s.

Lemma dso_pool_fresh s ds a pool :
  dso_pool_ok s ds → dn_pool s = a :: pool → fresh_dso s ds a pool.
Proof. intros [_ Hp] He. destruct (Hp a) as (? & ? & ? & ? & ?); [rewrite He; left|]. done. Qed.

Lemma dso_pool_next s s' ds a pool :
  dso_pool_ok s ds → dn_pool s = a :: pool → dn_pool s' = pool → dn_head s' = dn_head s →
  dso_pool_ok s' (ds ++ [a]).
Proof.
  intros [Hn Hp] He He' Hh. rewrite He in Hn, Hp. apply NoDup_cons in Hn as [Hna Hn].
  split; [by rewrite He'|]. intros b Hb. rewrite He' in Hb.
  destruct (Hp b ltac:(by right)) as (? & ? & ? & ? & ?). rewrite Hh.
  split_and!; try done. rewrite elem_of_app, list_elem_of_singleton. intros [?| ->]; done.
Qed.

(** The object dso__new builds. *)
Definition new_dso (name : string) : dso :=
  Dso name (Some name) (w16 (slen name)) false (Some name) (w16 (slen name)) false
    false NULL (-1) DSO_DATA_STATUS_UNKNOWN.

Lemma dso_new_wp name s ds a pool :
  fresh_dso s ds a pool →
  wp (dso__new name)
     (λ v s', v = a ∧
        dn_rb s' = RbState (<[dso_rb a := RbNode (dso_rb a) 0 0]> (rb_mem (dn_rb s)))
                     (rb_root_node (dn_rb s)) ∧
        (∀ x, x ≠ dso_node a → dn_list s' !! x = dn_list s !! x) ∧
        is_Some (nx (dn_list s') (dso_node a)) ∧
        dn_dso s' = <[a := new_dso name]> (dn_dso s) ∧ dn_refs s' = <[a := 1]> (dn_refs s) ∧
        dn_head s' = dn_head s ∧ dn_pool s' = pool) s.
Proof.
  intros [Hpool Hnz [Hrz Hral] Hin [Hn0 Hnh]]. unfold dso__new. apply wp_bind.
  unfold wp at 1, xcalloc_dso. rewrite Hpool. simpl.
  apply wp_bind. unfold strcpy_name. eapply wp_dso_store; [done|apply lookup_insert_eq|].
  simpl. rewrite insert_insert_eq.
  apply wp_bind. eapply wp_dso_load; [done|apply lookup_insert_eq|]. simpl.
  apply wp_bind. unfold dso__set_long_name. apply wp_bind.
  eapply wp_dso_load; [done|apply lookup_insert_eq|]. simpl.
  apply wp_bind, wp_ret, wp_bind. eapply wp_dso_store; [done|apply lookup_insert_eq|].
  simpl. rewrite insert_insert_eq. apply wp_ret.
  apply wp_bind. eapply wp_dso_load; [done|apply lookup_insert_eq|]. simpl.
  apply wp_bind. eapply wp_dso_store; [done|apply lookup_insert_eq|].
  simpl. rewrite insert_insert_eq.
  apply wp_bind. eapply wp_dso_store; [done|apply lookup_insert_eq|].
  simpl. rewrite insert_insert_eq.
  apply wp_bind, wp_lift. simpl. unfold RB_CLEAR_NODE.
  eapply wp_set_pc; [done|apply lookup_insert_eq|]. rewrite insert_insert_eq.
  apply wp_bind. eapply wp_dso_store; [done|apply lookup_insert_eq|].
  simpl. rewrite insert_insert_eq.
  apply wp_bind, wp_lift. simpl. eapply wp_mono.
  { apply INIT_LIST_HEAD_wp; [done|]. unfold nx. rewrite lookup_insert_eq. by eexists. }
  intros [] L (HL & HLo & HLd). simpl.
  apply wp_bind, wp_lift. simpl. eapply wp_obj_store; [done|apply lookup_insert_eq|].
  simpl. rewrite insert_insert_eq. apply wp_ret. simpl.
  split_and!; try done.
  - intros x Hx. rewrite HLo by set_solver. by rewrite lookup_insert_ne.
  - eapply is_list_live; [exact HL|left].
Qed.

Section addnew.
Variable strdup : string → option string.
Hypothesis Hstrdup : ∀ s t, strdup s = Some t → t = s.

(** The short name of a new dso: the basename of its path, unless memory is
    exhausted. *)
Definition short_name_for (name : string) : string :=
  if decide (is_Some (strdup name) ∧ is_Some (strdup (basename name)))
  then basename name else name.

(** The new object in the list. *)
Definition listed_dso (name : string) (d : dso) : Prop :=
  d_name d = name ∧ d_long_name d = Some name ∧ d_short_name d = Some (short_name_for name) ∧
  d_long_name_len d = w16 (slen name) ∧ d_short_name_len d = w16 (slen (short_name_for name)) ∧
  d_root d = true ∧ d_cache d = NULL ∧ d_fd d = -1 ∧ d_status d = DSO_DATA_STATUS_UNKNOWN.

Lemma set_basename_wp a name s :
  a ≠ NULL → dn_dso s !! a = Some (set_droot true (new_dso name)) →
  wp (dso__set_basename strdup a)
     (λ _ s', ∃ d, s' = with_part (<[a := d]> (dn_dso s)) s ∧ listed_dso name d) s.
Proof.
  intros Ha Hd. assert (short_name_for name = name →
    wp (mret tt) (λ _ s', ∃ d, s' = with_part (<[a := d]> (dn_dso s)) s ∧ listed_dso name d) s)
    as Hsame.
  { intros Hn. apply wp_ret. exists (set_droot true (new_dso name)). split.
    - rewrite insert_id by done. by destruct s.
    - unfold listed_dso. rewrite Hn. done. }
  unfold dso__set_basename. apply wp_bind. eapply wp_dso_load; [done..|]. simpl.
  apply wp_bind, wp_ret. destruct (strdup name) as [t|] eqn:E1.
  - pose proof (Hstrdup _ _ E1) as ->. destruct (strdup (basename name)) as [b|] eqn:E2.
    + pose proof (Hstrdup _ _ E2) as ->. eapply wp_dso_store; [done..|].
      eexists. split; [done|]. unfold listed_dso, short_name_for.
      rewrite E1, E2, decide_True by (split; by eexists). done.
    + apply Hsame. unfold short_name_for. rewrite E2, decide_False; [done|].
      by intros [_ [? ?]].
  - apply Hsame. unfold short_name_for. rewrite E1, decide_False; [done|]. by intros [[? ?] _].
Qed.

Lemma dsos_addnew_wp name s ds a pool :
  dsos_inv s ds → fresh_dso s ds a pool →
  (∀ b, b ∈ ds → long_of (dn_dso s) b ≠ name) →
  wp (__dsos__addnew strdup name)
     (λ v s', v = a ∧ dsos_inv s' (ds ++ [a]) ∧
        (∃ d, dn_dso s' = <[a := d]> (dn_dso s) ∧ listed_dso name d) ∧
        dn_refs s' = <[a := 1]> (dn_refs s) ∧ dn_head s' = dn_head s ∧ dn_pool s' = pool) s.
Proof.
  intros ((l & Hn & Hp) & Hlist & Hrefs) Hf Hnew. unfold __dsos__addnew. apply wp_bind.
  eapply wp_mono; [by apply (dso_new_wp name s ds a pool)|].
  intros v s1 (-> & Hrb1 & Hl1 & Hnode1 & Hd1 & Hr1 & Hh1 & Hpool1).
  destruct Hf as [_ Hnz Hok Hin [Hn0 Hnh]]. rewrite (proj2 (Z.eqb_neq _ _) Hnz). simpl.
  assert (a ∉ l) as Hal by (by rewrite Hp).
  assert (names_inv s1 l) as Hn1.
  { eapply names_inv_frame; [exact Hn|..]; rewrite ?Hrb1; simpl; [|done|].
    - intros b Hb. rewrite lookup_insert_ne; [done|]. intros ?%(inj _). by subst.
    - intros b Hb. rewrite Hd1, lookup_insert_ne; [done|]. intros ->. done. }
  apply wp_bind, wp_bind. unfold __dsos__add. apply wp_bind, wp_get, wp_bind, wp_lift.
  eapply wp_mono.
  { apply (list_add_tail_wp (dso_node a) (dn_head s1) (dso_node <$> ds)); [|done| |done].
    - eapply is_list_agree; [|by rewrite Hh1]. intros x Hx. apply Hl1. intros ->.
      apply elem_of_cons in Hx as [?|(b & Hb%(inj _) & ?)%list_elem_of_fmap]; [congruence|]. by subst.
    - apply not_elem_of_cons. split; [by rewrite Hh1|].
      intros (b & Hb%(inj _) & ?)%list_elem_of_fmap. by subst. }
  intros [] L (HL & HLo & _). set (s2 := with_part L s1).
  apply wp_bind. eapply wp_mono.
  { apply (findlink_insert_wp a (new_dso name) name s2 l); try done.
    - eapply names_inv_frame; [exact Hn1|..]; done.
    - simpl. rewrite Hrb1. simpl. rewrite lookup_insert_eq. by eexists.
    - simpl. by rewrite Hd1, lookup_insert_eq.
    - intros b Hb. simpl. unfold long_of. rewrite Hd1, lookup_insert_ne by (by intros ->).
      apply Hnew. by rewrite <- Hp. }
  intros v s3 (-> & r' & l1 & l2 & Hl12 & Hs3 & Hn3). apply wp_bind.
  apply (wp_dso_get a 1); [done| |]; subst s3; simpl.
  { by rewrite Hr1, lookup_insert_eq. }
  apply wp_ret. apply wp_bind. eapply wp_mono.
  { apply (set_basename_wp a name); [done|]. simpl. by rewrite lookup_insert_eq. }
  intros [] s4 (d & -> & Hd). simpl. rewrite Hr1, Hd1, !insert_insert_eq.
  apply (wp_dso_put a); simpl; [right; rewrite lookup_insert_eq; by eexists|].
  apply wp_ret. simpl.
  assert (drop_dso a (<[a:=refcount_inc 1]> (dn_refs s)) = <[a:=1]> (dn_refs s)) as ->.
  { unfold drop_dso. rewrite (proj2 (Z.eqb_neq _ _) Hnz). apply map_eq. intros x.
    destruct (decide (x = a)) as [->|Hx].
    - by rewrite lookup_alter_eq, !lookup_insert_eq.
    - by rewrite lookup_alter_ne, !lookup_insert_ne. }
  split; [done|]. split; [|split; [by exists d|split; [done|split; [done|done]]]].
  split; [|split]; simpl.
  - exists (l1 ++ a :: l2). split.
    + eapply names_inv_rename; [exact Hn3|done|done|]. simpl. rewrite Hd1, insert_insert_eq.
      intros b Hb. destruct (ni_live _ _ Hn3 b Hb) as [_ Hlv]. simpl in Hlv.
      rewrite Hd1, insert_insert_eq in Hlv. unfold dso_live, long_of in *.
      destruct (decide (b = a)) as [->|Hne].
      * rewrite !lookup_insert_eq. simpl. destruct Hd as (_ & Hd2 & Hd3 & _ & _ & Hd4 & _).
        rewrite Hd2. split; [|done]. exists d. rewrite Hd2, Hd3. split_and!; done || by eexists.
      * rewrite lookup_insert_ne in Hlv by done. rewrite !lookup_insert_ne by done. done.
    + subst l. rewrite <- Hp, <- Permutation_middle. apply Permutation_cons_append.
  - by rewrite fmap_app.
  - intros b [Hb| ->%list_elem_of_singleton]%elem_of_app.
    + rewrite lookup_insert_ne; [by apply Hrefs|]. by intros ->.
    + rewrite lookup_insert_eq. by eexists.
Qed.

(** ** dsos__findnew *)

Lemma names_search s ds name :
  dsos_inv s ds →
  wp (__dsos__find name false) (λ v s', v = find_by (long_of (dn_dso s)) name ds ∧ s' = s) s.
Proof.
  intros ((l & Hn & Hp) & _). eapply wp_mono; [by apply find_longname_wp|].
  intros v s' [-> ->]. split; [|done]. apply find_by_perm; [apply Hn|done].
Qed.

Lemma find_by_nz (D : gmap Z dso) s ds name :
  dsos_inv s ds → D = dn_dso s → find_by (long_of D) name ds = NULL →
  ∀ b, b ∈ ds → long_of D b ≠ name.
Proof.
  intros ((l & Hn & Hp) & _) -> Hf b Hb Hbn.
  assert (find_by (long_of (dn_dso s)) name ds = b) as He.
  { apply find_by_unique; [done..|]. intros c Hc Hcn. rewrite <- Hp in Hc, Hb.
    eapply names_differ; [apply Hn|done|done|]. by rewrite Hcn. }
  rewrite <- Hp in Hb. destruct (ni_live _ _ Hn b Hb) as [? _]. congruence.
Qed.

Lemma dsos_findnew_wp lock name s ds :
  dsos_inv s ds →
  dso_pool_ok s ds → dn_pool s ≠ [] →
  wp (dsos__findnew strdup lock name)
     (λ v s', dn_head s' = dn_head s ∧
        if decide (find_by (long_of (dn_dso s)) name ds = NULL) then
          ∃ pool d, dn_pool s = v :: pool ∧ dn_pool s' = pool ∧ dsos_inv s' (ds ++ [v]) ∧
            dn_dso s' = <[v := d]> (dn_dso s) ∧ listed_dso name d ∧
            dn_refs s' = <[v := 2]> (dn_refs s)
        else v = find_by (long_of (dn_dso s)) name ds ∧ dsos_inv s' ds ∧
          dn_dso s' = dn_dso s ∧ dn_pool s' = dn_pool s ∧
          dn_refs s' = alter refcount_inc v (dn_refs s)) s.
Proof.
  intros Hinv Hpool Hne. unfold dsos__findnew, down_write, up_write. simpl.
  apply wp_bind, wp_ret, wp_bind. unfold __dsos__findnew. apply wp_bind.
  eapply wp_mono; [by apply names_search|]. intros v s' [-> ->].
  set (f := find_by (long_of (dn_dso s)) name ds) in *.
  destruct (Z.eqb_spec f NULL) as [Hz|Hnz]; simpl.
  - destruct (dn_pool s) as [|a pool] eqn:Hps; [done|].
    pose proof (dso_pool_fresh _ _ _ _ Hpool Hps) as Hf. destruct (decide (f = NULL)); [|done].
    eapply wp_mono.
    { apply (dsos_addnew_wp name s ds a pool); [done|done|by eapply find_by_nz]. }
    intros v s1 (-> & Hinv1 & (d & Hd & Hl) & Hr & Hh & Hp). apply wp_bind.
    assert (a ≠ NULL) by apply Hf.
    apply (wp_dso_get a 1); [done|simpl; by rewrite Hr, lookup_insert_eq|].
    apply wp_bind, wp_ret, wp_ret. simpl. split; [done|].
    exists pool, d. split; [done|]. split; [done|]. split; [|split; [done|split; [done|]]].
    + destruct Hinv1 as ((l & Hn & Hpm) & HL & Hrefs). split; [|split; [done|]].
      * exists l. split; [|done]. by eapply names_inv_frame; [exact Hn|..].
      * intros b Hb. simpl. destruct (decide (b = a)) as [->|Hba].
        { rewrite lookup_insert_eq. by eexists. }
        rewrite lookup_insert_ne by done. by apply Hrefs.
    + by rewrite Hr, insert_insert_eq.
  - destruct (decide (f = NULL)); [done|]. apply wp_ret, wp_bind.
    destruct (find_by_in _ _ _ Hnz) as [Hin _]. destruct Hinv as (Hn & HL & Hrefs).
    destruct (Hrefs f Hin) as [r Hr]. apply (wp_dso_get f r); [done..|].
    apply wp_bind, wp_ret, wp_ret. simpl. split; [done|]. split; [done|].
    split; [|split; [done|split; [done|]]].
    + split; [|split; [done|]].
      * destruct Hn as (l & Hn & ?). exists l. split; [|done].
        by eapply names_inv_frame; [exact Hn|..].
      * intros b Hb. simpl. destruct (decide (b = f)) as [->|Hba].
        { rewrite lookup_insert_eq. by eexists. }
        rewrite lookup_insert_ne by done. by apply Hrefs.
    + apply map_eq. intros x. destruct (decide (x = f)) as [->|].
      * by rewrite lookup_insert_eq, lookup_alter_eq, Hr.
      * by rewrite lookup_insert_ne, lookup_alter_ne.
Qed.
End addnew.
