(* ===== verification/DsosProps.v ===== *)
(** What the list of dsos promises: the theorems on looking names up and on
    finding or creating the dso of a path. *)
From Stdlib Require Import ZArith Lia String.
From stdpp Require Import base tactics option list numbers gmap sorting strings.
From S2P Require Import Prelude RbTree RbSpec RbRep RbUnlink RbIter RbSearch.
From S2P Require Import ListHead ListRep ListSplice ListIter Refcount DsoRef Rwsem Utility CString DsoData.
From S2P Require Import Dsos DsosInv.

Local Open Scope Z_scope.

(** ** The search by short name *)

Lemma find_short_wp name s ds :
  dsos_inv s ds →
  wp (__dsos__find name true) (λ v s', v = find_by (short_of (dn_dso s)) name ds ∧ s' = s) s.
Proof.
  intros ((l & Hn & Hp) & Hl & _). unfold __dsos__find. apply wp_bind, wp_get, wp_bind.
  assert (∀ a, a ∈ ds → a ≠ NULL ∧ dso_live (dn_dso s) a) as Hlive.
  { intros a Ha. rewrite <- Hp in Ha. by apply Hn. }
  eapply (list_for_each_entry_wp 40 _ _ (λ rest s', s' = s ∧ (∀ a, a ∈ rest → a ∈ ds) ∧
      find_by (short_of (dn_dso s)) name ds = find_by (short_of (dn_dso s)) name rest)).
  - intros s' (-> & _ & ->). by apply wp_ret.
  - intros a rest s' (-> & Hin & Hf) Ha.
    destruct (Hlive a ltac:(apply Hin; left)) as [Hnz (d & Hd & _ & [sn Hsn] & _)].
    apply wp_bind. eapply wp_dso_load; [done..|]. rewrite Hsn. apply wp_bind, wp_ret, wp_ret.
    assert (short_of (dn_dso s) a = sn) as Hs by (unfold short_of; by rewrite Hd; simpl; rewrite Hsn).
    cbn [find_by] in Hf. rewrite Hs in Hf.
    destruct (Z.eqb_spec (strcmp sn name) 0) as [He|He]; rewrite strcmp_eq in He.
    + apply wp_ret. by rewrite Hf, bool_decide_eq_true_2.
    + rewrite bool_decide_eq_false_2 in Hf by done. split; [|done]. split_and!; [done| |done].
      intros b Hb. apply Hin. by right.
  - by split_and!.
  - done.
Qed.

(** ** A concrete list: the dso at 1024 for "/bin/cat", the next dso at 2048 *)

Definition ex_strdup (s : string) : option string := Some s.
Definition ex_dsos_lock : pthread_rwlock dsos_st :=
  no_rwlock.
Definition ex_dsos : dsos_st :=
  DsosSt (RbState (<[1080 := RbNode 1 0 0]> ∅) 1080)
    (<[64 := ListHead 1064 1064]> (<[1064 := ListHead 64 64]> ∅))
    (<[1024 := set_short "cat" true (set_droot true (new_dso "/bin/cat"))]> ∅)
    (<[1024 := 1]> ∅) 64 [2048; 4096].

Lemma ex_dsos_inv : dsos_inv ex_dsos [1024].
Proof.
  split; [|split].
  - exists [1024]. split; [|done]. split.
    + exists (T Black E 1080 E). split_and!; [|exists 1%nat; apply (rb_B Black Black); constructor|done].
      split_and!; [repeat split; done|done|].
      apply (bool_decide_unpack (NoDup [1080])). by vm_compute.
    + intros a ->%list_elem_of_singleton. split; [done|]. eexists. split; [reflexivity|].
      split_and!; [by eexists|by eexists|done].
    + repeat constructor.
  - split_and!; [repeat split|..].
    + apply (bool_decide_unpack (NoDup [64; 1064])). by vm_compute.
    + apply (bool_decide_unpack (0 ∉ [64; 1064])). by vm_compute.
  - intros a ->%list_elem_of_singleton. by eexists.
Qed.
Lemma ex_dsos_pool : dso_pool_ok ex_dsos [1024].
Proof.
  split; [apply (bool_decide_unpack (NoDup [2048; 4096])); by vm_compute|].
  intros a [->|[->|[]%elem_of_nil]%elem_of_cons]%elem_of_cons.
  all: split_and!; [done|repeat split; done| |done|done]; intros ?%list_elem_of_singleton; done.
Qed.

(** ** The promises *)

(** C25. __dsos__find answers the dso of the list with that long name (the
    search in the name tree computes the linear search of the list), or, for
    the short name, the first dso of the list that has it; NULL when there is
    none; nothing changes. *)
Theorem dsos_find_correct (name : string) (s : dsos_st) (ds : list Z) :
  dsos_inv s ds →
  wp (__dsos__find name false) (λ v s', v = find_by (long_of (dn_dso s)) name ds ∧ s' = s) s ∧
  wp (__dsos__find name true) (λ v s', v = find_by (short_of (dn_dso s)) name ds ∧ s' = s) s.
Proof. split; [by apply names_search|by apply find_short_wp]. Qed.

Lemma dsos_find_correct_witness :
  wp (__dsos__find "/bin/cat" false) (λ v s', v = 1024 ∧ s' = ex_dsos) ex_dsos ∧
  wp (__dsos__find "cat" true) (λ v s', v = 1024 ∧ s' = ex_dsos) ex_dsos.
Proof.
  split; [apply (proj1 (dsos_find_correct "/bin/cat" ex_dsos [1024] ex_dsos_inv))
         |apply (proj2 (dsos_find_correct "cat" ex_dsos [1024] ex_dsos_inv))].
Defined.

(** What a request leaves, found or created. *)
(** The reference for the caller, of an old or a new dso. *)
Definition dso_taken (ds ds' : list Z) (R R' : gmap Z Z) (v : Z) : Prop :=
  (v ∈ ds) ∧ ds' = ds ∧ R' = alter refcount_inc v R ∨
  (v ∉ ds) ∧ ds' = ds ++ [v] ∧ R' = <[v := 2]> R.

Lemma findnew_found strdup lock name s ds :
  (∀ s t, strdup s = Some t → t = s) → dsos_inv s ds → dso_pool_ok s ds → dn_pool s ≠ [] →
  wp (dsos__findnew strdup lock name)
     (λ v s', ∃ ds', dsos_inv s' ds' ∧ ds `prefix_of` ds' ∧ v ∈ ds' ∧
        long_of (dn_dso s') v = name ∧ dso_pool_ok s' ds' ∧
        (length (dn_pool s) ≤ S (length (dn_pool s')))%nat ∧
        (∀ a, a ∈ ds → long_of (dn_dso s') a = long_of (dn_dso s) a) ∧
        dso_taken ds ds' (dn_refs s) (dn_refs s') v) s.
Proof.
  intros Hsd Hinv Hpool Hne. eapply wp_mono; [by apply (dsos_findnew_wp strdup Hsd lock name s ds)|].
  intros v s' [Hh Hv]. case_decide as Hf.
  - destruct Hv as (pool & d & Hp & Hp' & Hinv' & Hd & (_ & Hl & _) & Hr).
    pose proof (dso_pool_fresh _ _ _ _ Hpool Hp) as [_ _ _ Hin _].
    exists (ds ++ [v]). split; [done|]. split; [by apply prefix_app_r|].
    split; [apply elem_of_app; right; left|]. split.
    { unfold long_of. by rewrite Hd, lookup_insert_eq; simpl; rewrite Hl. }
    split; [by eapply dso_pool_next|]. split; [rewrite Hp, Hp'; simpl; lia|].
    split; [|by right].
    intros a Ha. unfold long_of. rewrite Hd, lookup_insert_ne; [done|]. by intros ->.
  - destruct Hv as (-> & Hinv' & Hd & Hp & Hr). destruct (find_by_in _ _ _ Hf) as [Hin Hl].
    exists ds. rewrite Hd, Hp. split_and!; try done; [|lia|by left].
    destruct Hpool as [Hn Hp0]. unfold dso_pool_ok. by rewrite Hp, Hh.
Qed.

(** Two requests for dsos give the same object exactly when they name the
    same path, and a path that was requested is found again: the long names of
    the two results are the two paths. *)
Lemma dsos_findnew_twice (strdup : string → option string)
    (lock : pthread_rwlock dsos_st) (n1 n2 : string) (s : dsos_st) (ds : list Z) :
  (∀ s t, strdup s = Some t → t = s) → dsos_inv s ds →
  dso_pool_ok s ds → (2 ≤ length (dn_pool s))%nat →
  wp (d1 ← dsos__findnew strdup lock n1; d2 ← dsos__findnew strdup lock n2; mret (d1, d2))
     (λ v s', (fst v = snd v ↔ n1 = n2) ∧ ∃ ds', dsos_inv s' ds' ∧ ds `prefix_of` ds' ∧
        fst v ∈ ds' ∧ snd v ∈ ds' ∧
        long_of (dn_dso s') (fst v) = n1 ∧ long_of (dn_dso s') (snd v) = n2) s.
Proof.
  intros Hsd Hinv Hpool Hlen. apply wp_bind. eapply wp_mono.
  { apply findnew_found; [done..|]. intros Hz. rewrite Hz in Hlen. simpl in Hlen. lia. }
  intros d1 s1 (ds1 & Hinv1 & Hpre1 & Hin1 & Hn1 & Hpool1 & Hlen1 & Hk1).
  apply wp_bind. eapply wp_mono.
  { apply (findnew_found strdup lock n2 s1 ds1); [done..|]. intros Hz. rewrite Hz in Hlen1. simpl in Hlen1. lia. }
  intros d2 s2 (ds2 & Hinv2 & Hpre2 & Hin2 & Hn2 & _ & _ & Hk2 & _). apply wp_ret. simpl.
  assert (d1 ∈ ds2) as Hin12 by (by eapply elem_of_prefix).
  assert (long_of (dn_dso s2) d1 = n1) as Hn12 by (by rewrite Hk2).
  split; [|by exists ds2; split_and!; try done; etrans].
  split; [intros ->; congruence|]. intros ->.
  destruct Hinv2 as ((l & Hl & Hp) & _). rewrite <- Hp in Hin12, Hin2.
  eapply names_differ; [apply Hl|done|done|congruence].
Qed.

(** C26. dsos__findnew returns the dso of that path: the one of the list, with
    one more reference, or a new one appended to the list and linked into the
    name tree, with two references (the list's and the caller's), its long
    name the path, its short name the last component of the path (the path
    itself when strdup fails) and no open file; the other dsos do not
    change.  Two requests give the same object exactly when they name the same
    path, and the long names of their results are the paths. *)
Theorem dsos_findnew_correct (strdup : string → option string)
    (lock : pthread_rwlock dsos_st) (name : string) (s : dsos_st) (ds : list Z) :
  (∀ s t, strdup s = Some t → t = s) → dsos_inv s ds →
  dso_pool_ok s ds → dn_pool s ≠ [] →
  wp (dsos__findnew strdup lock name)
     (λ v s', dn_head s' = dn_head s ∧
        if decide (find_by (long_of (dn_dso s)) name ds = NULL) then
          ∃ pool d, dn_pool s = v :: pool ∧ dn_pool s' = pool ∧ dsos_inv s' (ds ++ [v]) ∧
            dn_dso s' = <[v := d]> (dn_dso s) ∧ listed_dso strdup name d ∧
            dn_refs s' = <[v := 2]> (dn_refs s)
        else v = find_by (long_of (dn_dso s)) name ds ∧ dsos_inv s' ds ∧
          dn_dso s' = dn_dso s ∧ dn_pool s' = dn_pool s ∧
          dn_refs s' = alter refcount_inc v (dn_refs s)) s ∧
  ∀ name', (2 ≤ length (dn_pool s))%nat →
    wp (d1 ← dsos__findnew strdup lock name; d2 ← dsos__findnew strdup lock name'; mret (d1, d2))
       (λ v s', (fst v = snd v ↔ name = name') ∧ ∃ ds', dsos_inv s' ds' ∧ ds `prefix_of` ds' ∧
          fst v ∈ ds' ∧ snd v ∈ ds' ∧
          long_of (dn_dso s') (fst v) = name ∧ long_of (dn_dso s') (snd v) = name') s.
Proof. intros. split; [by apply dsos_findnew_wp|]. intros. by apply dsos_findnew_twice. Qed.

Lemma dsos_findnew_correct_witness :
  wp (dsos__findnew ex_strdup ex_dsos_lock "/usr/lib/libc.so")
     (λ v s', v = 2048 ∧ dsos_inv s' [1024; 2048] ∧
        short_of (dn_dso s') 2048 = "libc.so"%string ∧ dn_refs s' !! 2048 = Some 2) ex_dsos ∧
  wp (d1 ← dsos__findnew ex_strdup ex_dsos_lock "/usr/lib/libc.so";
      d2 ← dsos__findnew ex_strdup ex_dsos_lock "/bin/ls"; mret (d1, d2))
     (λ v s', (fst v = snd v ↔ "/usr/lib/libc.so" = "/bin/ls"%string) ∧
        ∃ ds', dsos_inv s' ds' ∧ [1024] `prefix_of` ds' ∧ fst v ∈ ds' ∧ snd v ∈ ds' ∧
          long_of (dn_dso s') (fst v) = "/usr/lib/libc.so"%string ∧
          long_of (dn_dso s') (snd v) = "/bin/ls"%string) ex_dsos.
Proof.
  destruct (dsos_findnew_correct ex_strdup ex_dsos_lock "/usr/lib/libc.so" ex_dsos [1024])
    as [H1 H2]; [by intros s t [= <-]|apply ex_dsos_inv|apply ex_dsos_pool|done|].
  split; [|exact (H2 "/bin/ls"%string ltac:(simpl; lia))].
  eapply wp_mono; [exact H1|]. clear H1 H2.
  intros v s' (_ & pool & d & Hp & _ & Hinv & Hd & (_ & _ & Hs & _) & Hr).
  injection Hp as <- <-. split; [done|]. split; [exact Hinv|]. unfold short_of.
  by rewrite Hd, Hr, !lookup_insert_eq; simpl; rewrite Hs.
Defined.
