(* ===== verification/DsosPurge.v ===== *)
(** Purging the list of dsos: dsos__purge of src/src/machine.c.  Every dso
    leaves the list and gives back the reference of the list; nothing is freed
    (dso__delete has an empty body), and the root of the tree keeps its
    value. *)
From Stdlib Require Import ZArith Lia String.
From stdpp Require Import sorting strings base tactics option list numbers gmap.
From S2P Require Import Prelude RbTree RbSpec RbRep RbUnlink RbIter ListHead ListRep ListSplice ListIter Refcount DsoRef.
From S2P Require Import Rwsem DsoData Dsos DsosInv.

Local Open Scope Z_scope.

(** The parts of a dso that the purge writes. *)
Record dso_ready (s : dsos_st) (a : Z) : Prop := {
  dr_null : a ≠ NULL ∧ dso_rb a ≠ NULL;
  dr_rb : is_Some (rb_mem (dn_rb s) !! dso_rb a);
  dr_dso : is_Some (dn_dso s !! a);
  dr_refs : is_Some (dn_refs s !! a);
}.

Definition update_on {V} (l : list Z) (f : V → V) (M M' : gmap Z V) : Prop :=
  ∀ x, M' !! x = if decide (x ∈ l) then f <$> M !! x else M !! x.

Lemma update_on_nil {V} (f : V → V) M : update_on [] f M M.
Proof. intros x. rewrite decide_False; [done|]. apply not_elem_of_nil. Qed.

Lemma update_on_cons {V} (f : V → V) a l v (M M' : gmap Z V) :
  a ∉ l → M !! a = Some v → update_on l f (<[a := f v]> M) M' → update_on (a :: l) f M M'.
Proof.
  intros Ha Hv Hu x. rewrite Hu. destruct (decide (x = a)) as [->|Hx].
  - rewrite lookup_insert_eq, Hv. rewrite decide_False by done. by rewrite decide_True by left.
  - rewrite lookup_insert_ne by done. repeat case_decide; try done; set_solver.
Qed.

(** What purging the dsos [l] leaves. *)
Record dsos_purged (s s' : dsos_st) (l : list Z) : Prop := {
  dp_list : is_list (dn_list s') (dn_head s') [];
  dp_dso : update_on l (set_droot false) (dn_dso s) (dn_dso s');
  dp_refs : update_on l refcount_sub (dn_refs s) (dn_refs s');
  dp_node a : a ∈ l → ∃ v, rb_mem (dn_rb s') !! dso_rb a = Some v ∧ rb_parent_color v = dso_rb a;
  dp_rb x : x ∉ dso_rb <$> l → rb_mem (dn_rb s') !! x = rb_mem (dn_rb s) !! x;
  dp_root : rb_root_node (dn_rb s') = rb_root_node (dn_rb s);
  dp_head : dn_head s' = dn_head s;
  dp_pool : dn_pool s' = dn_pool s;
}.

(** One dso leaves. *)
Lemma purge_dso_wp a l (Q : option unit → dsos_st → Prop) s :
  is_list (dn_list s) (dn_head s) (dso_node <$> a :: l) → dso_ready s a → a ∉ l →
  (∀ s1, is_list (dn_list s1) (dn_head s1) (dso_node <$> l) → dn_head s1 = dn_head s →
     (∀ b, b ∈ l → dso_ready s b → dso_ready s1 b) →
     (∀ s', dsos_purged s1 s' l → dsos_purged s s' (a :: l)) → Q None s1) →
  wp (purge_dso a) Q s.
Proof.
  intros Hl [[Ha Hra] [v Hv] [d Hd] [r Hr]] Hal HQ. rewrite fmap_cons in Hl.
  apply wp_bind, wp_lift. unfold RB_CLEAR_NODE. simpl.
  destruct (dn_rb s) as [mem root] eqn:Hrb. simpl in Hv. eapply wp_set_pc; [done|exact Hv|].
  apply wp_bind. eapply wp_dso_store; [done|exact Hd|].
  apply wp_bind, wp_lift. simpl.
  eapply wp_mono; [by apply (list_del_init_wp (dn_head s) [] (dso_node a) (dso_node <$> l))|].
  intros _ L ((HL & _ & _) & _). apply wp_bind, wp_dso_put; [right; by eexists|].
  unfold drop_dso. rewrite (proj2 (Z.eqb_neq _ _) Ha). simpl.
  assert (alter refcount_sub a (dn_refs s) = <[a := refcount_sub r]> (dn_refs s)) as ->.
  { apply map_eq. intros x. destruct (decide (x = a)) as [->|?].
    - by rewrite lookup_alter_eq, lookup_insert_eq, Hr.
    - by rewrite lookup_alter_ne, lookup_insert_ne. }
  apply wp_ret, HQ; [exact HL|done|..].
  - intros b Hb [Hn Hbr Hbd Hbf]. assert (b ≠ a) as Hne by by intros ->. rewrite Hrb in Hbr.
    split; simpl; [done|rewrite lookup_insert_ne; [done|]..]; intros He.
    + apply Hne. by apply (inj dso_rb).
    + by apply Hne.
    + by apply Hne.
  - intros s' [PL PD PR PN PB PT PH PP]. simpl in *.
    assert (dso_rb a ∉ dso_rb <$> l) as Hnr.
    { by intros (b & ->%(inj dso_rb) & Hb)%list_elem_of_fmap. }
    split; [done|by eapply update_on_cons|by eapply update_on_cons| | |by rewrite Hrb|done|done].
    + intros b [->|Hb]%elem_of_cons; [|by apply PN]. eexists. rewrite PB by done.
      by rewrite lookup_insert_eq.
    + intros x Hx. rewrite fmap_cons in Hx. apply not_elem_of_cons in Hx as [Hx Hxl].
      rewrite PB by done. rewrite Hrb. by rewrite lookup_insert_ne.
Qed.

(** A well-formed list is ready. *)
Lemma dsos_ready s ds : dsos_inv s ds → ∀ a, a ∈ ds → dso_ready s a.
Proof.
  intros ((l & [(t & Ht & _ & Ho) Hlive _] & Hp) & _ & Hrefs) a Ha. rewrite <- Hp in Ha.
  assert (dso_rb a ∈ inorder t) as Hin by (rewrite Ho; by apply list_elem_of_fmap_2).
  destruct (Hlive a Ha) as (Hz & d & Hd & _). split.
  - split; [done|]. by eapply represents_nonnull.
  - destruct Ht as (Hrep & _). apply elem_of_dom. by eapply rep_dom.
  - by eexists.
  - apply Hrefs. by rewrite <- Hp.
Qed.

Lemma dsos_purge_wp lock s ds :
  dsos_inv s ds → wp (dsos__purge lock) (λ _ s', dsos_purged s s' ds) s.
Proof.
  intros Hinv. pose proof Hinv as (_ & Hl & _).
  unfold dsos__purge, down_write, up_write. simpl. apply wp_bind, wp_ret, wp_bind, wp_get.
  apply wp_bind. eapply wp_mono; [|by intros r s' Hp; apply wp_bind, wp_ret, wp_ret; exact Hp].
  eapply (list_for_each_entry_safe_wp 40 _ _ (λ rest s1,
    is_list (dn_list s1) (dn_head s) (dso_node <$> rest) ∧ dn_head s1 = dn_head s ∧
    (∀ a, a ∈ rest → dso_ready s1 a) ∧ ∀ s', dsos_purged s1 s' rest → dsos_purged s s' ds)).
  - intros s1 (Hl1 & Hh & _ & Hpost). apply Hpost. split; try done; try apply update_on_nil.
    + by rewrite Hh.
    + by intros a ?%not_elem_of_nil.
  - intros a rest s1 (Hl1 & Hh & Hr & Hpost) _.
    pose proof Hl1 as (_ & [_ [Hna _]%NoDup_cons]%NoDup_cons & _).
    apply (purge_dso_wp a rest); [by rewrite Hh|apply Hr; left| |].
    + by intros ?%(list_elem_of_fmap_2 dso_node).
    + intros s2 Hl2 Hh2 Hr2 Hpost2. rewrite Hh2, Hh in Hl2. split; [|by exists []].
      split_and!; [done|congruence| |auto]. intros b Hb. apply Hr2; [done|]. apply Hr. by right.
  - split_and!; [done|done|by apply dsos_ready|done].
  - done.
Qed.
