(* ===== verification/Threads.v ===== *)
(** The threads of a machine: src/src/thread.c and the thread table of
    src/src/machine.c.

    A [struct thread] at address [a] starts with a union of its [rb_node] and
    its list node: the same words are the links of the tree while the thread
    is in the table and the links of the dead list afterwards.  [as_nodes]
    reads the words as list nodes (next is the first word, prev the second),
    and [lift_list] runs list code on them.

    The maps of the thread groups are used through the interface [MapsOps];
    libunwind's unw_destroy_addr_space is a parameter. *)
From Stdlib Require Import ZArith Lia String.
From stdpp Require Import base tactics option list numbers gmap fin vector finite strings.
From S2P Require Import Prelude RbTree RbSearch ListHead Refcount Rwsem CString Unwind.

Local Open Scope Z_scope.

(** ** Data *)

Record thread := Thread {
  t_maps : Z; t_tgid : Z; t_tid : Z;
  t_name : string; t_addr_space : Z; t_ulops : bool; t_refcnt : Z;
}.

(** [struct threads]: the root of the tree, [nr], the address of [dead] and
    [last_match]. *)
Record threads := Threads { th_entries : Z; th_nr : Z; th_dead : Z; th_last_match : Z }.

Definition THREADS__TABLE_SIZE : nat := 256.

Record machine_st := MachineSt {
  ma_node : gmap Z rb_node;      (* the union of each thread *)
  ma_dead : list_mem;            (* the heads of the dead lists *)
  ma_thread : gmap Z thread;     (* the other fields of the threads *)
  ma_threads : vec threads THREADS__TABLE_SIZE;
  ma_pool : list Z;              (* what calloc returns next *)
}.

#[export] Instance machine_thread_store : Store machine_st (gmap Z thread).
Proof.
  refine {| part := ma_thread;
    with_part t s := MachineSt (ma_node s) (ma_dead s) t (ma_threads s) (ma_pool s) |};
    by try intros ? ? []; try intros [].
Defined.

Definition set_entries (r : Z) (b : threads) : threads :=
  Threads r (th_nr b) (th_dead b) (th_last_match b).
Definition set_nr (n : Z) (b : threads) : threads :=
  Threads (th_entries b) n (th_dead b) (th_last_match b).
Definition set_last_match (th : Z) (b : threads) : threads :=
  Threads (th_entries b) (th_nr b) (th_dead b) th.

Definition update_threads (i : fin THREADS__TABLE_SIZE) (f : threads → threads)
    (s : machine_st) : machine_st :=
  MachineSt (ma_node s) (ma_dead s) (ma_thread s)
    (vinsert i (f (ma_threads s !!! i)) (ma_threads s)) (ma_pool s).

Lemma vinsert_twice {A n} (i : fin n) (x y : A) (v : vec A n) :
  vinsert i x (vinsert i y v) = vinsert i x v.
Proof.
  apply vec_eq. intros j. destruct (decide (i = j)) as [->|?].
  - by rewrite !vlookup_insert.
  - by rewrite !vlookup_insert_ne.
Qed.

(** The tree [machine->threads[i].entries]. *)
Definition entries_store (i : fin THREADS__TABLE_SIZE) : Store machine_st rb_state.
Proof.
  refine {|
    part s := RbState (ma_node s) (th_entries (ma_threads s !!! i));
    with_part r s :=
      MachineSt (rb_mem r) (ma_dead s) (ma_thread s)
        (vinsert i (set_entries (rb_root_node r) (ma_threads s !!! i)) (ma_threads s))
        (ma_pool s) |}.
  - intros [m r] s. simpl. by rewrite vlookup_insert.
  - intros [n d t v p]. simpl. f_equal.
    replace (set_entries (th_entries (v !!! i)) (v !!! i)) with (v !!! i)
      by (by destruct (v !!! i)).
    apply vlookup_insert_self.
  - intros [m r] [m' r'] s. simpl. rewrite vlookup_insert. by f_equal; apply vinsert_twice.
Defined.

(** The words of the union as list nodes. *)
Definition as_nodes (nodes : gmap Z rb_node) : list_mem :=
  (λ n, ListHead (rb_parent_color n) (rb_right n)) <$> nodes.

(** List code on the union nodes and the heads of the dead lists. *)
Definition lift_list {A} (m : lm A) : cm machine_st A := λ s,
  match m (ma_dead s ∪ as_nodes (ma_node s)) with
  | Ok (a, L) =>
    Ok (a, MachineSt
      (map_imap (λ x n, Some (match L !! x with
         | Some h => RbNode (lh_next h) (lh_prev h) (rb_left n)
         | None => n
         end)) (ma_node s))
      (map_imap (λ x h, Some (default h (L !! x))) (ma_dead s))
      (ma_thread s) (ma_threads s) (ma_pool s))
  | Fault => Fault
  | Abort => Abort
  | NoFuel => NoFuel
  end.

(** [machine__threads]: the bucket of a tid, taken as an unsigned int. *)
Lemma bucket_bound (tid : Z) : (Z.to_nat (w32 tid mod 256) < THREADS__TABLE_SIZE)%nat.
Proof.
  pose proof (Z.mod_pos_bound (w32 tid) 256 ltac:(lia)). unfold THREADS__TABLE_SIZE. lia.
Qed.
Definition machine__threads (tid : Z) : fin THREADS__TABLE_SIZE :=
  nat_to_fin (bucket_bound tid).

(** What threads need of the maps of their group (map.c): the implementation
    is in MapsObj.v. *)
Class MapsOps (S : Type) := {
  maps__new : cm S Z;
  maps__get : Z → cm S Z;
  maps__put : Z → cm S unit;
  maps__empty : Z → cm S bool;
  maps__insert_at : Z → Z → cm S unit;    (* maps__insert(maps, map) *)
}.

(** ** Threads (thread.c) *)

Section threads.
Context {S : Type} `{!Store S machine_st} `{!MapsOps S}.
Variables (unw_create_addr_space : cm S Z) (unw_set_caching_policy : Z → cm S unit)
          (unw_flush_cache unw_destroy_addr_space : Z → cm S unit).
Variable lock : pthread_rwlock S.

Definition thread_load (a : Z) : cm S thread := lift (lift (obj_load a) : cm machine_st thread).
Definition thread_store (a : Z) (f : thread → thread) : cm S unit :=
  lift (lift (obj_store a f) : cm machine_st unit).

Definition entries_in (i : fin THREADS__TABLE_SIZE) : Store S rb_state :=
  store_compose _ (entries_store i).
Definition entries {A} (i : fin THREADS__TABLE_SIZE) (m : cm rb_state A) : cm S A :=
  @lift _ _ _ (entries_in i) m.
Definition nodes {A} (m : lm A) : cm S A := lift (lift_list m).
(** Tree code on a node that no root is needed for. *)
Definition rb_words {A} (m : cm rb_state A) : cm S A := lift (λ s : machine_st,
  match m (RbState (ma_node s) NULL) with
  | Ok (a, r) => Ok (a, MachineSt (rb_mem r) (ma_dead s) (ma_thread s) (ma_threads s) (ma_pool s))
  | Fault => Fault | Abort => Abort | NoFuel => NoFuel
  end).
Definition get_threads {A} (i : fin THREADS__TABLE_SIZE) (f : threads → A) : cm S A :=
  lift (c_get (λ s : machine_st, f (ma_threads s !!! i))).
Definition set_threads (i : fin THREADS__TABLE_SIZE) (f : threads → threads) : cm S unit :=
  lift (c_modify (update_threads i f)).

Definition with_refs (n : Z) (t : thread) : thread :=
  Thread (t_maps t) (t_tgid t) (t_tid t) (t_name t) (t_addr_space t) (t_ulops t) n.
Definition with_maps (m : Z) (t : thread) : thread :=
  Thread m (t_tgid t) (t_tid t) (t_name t) (t_addr_space t) (t_ulops t) (t_refcnt t).
Definition with_tgid (tgid : Z) (t : thread) : thread :=
  Thread (t_maps t) tgid (t_tid t) (t_name t) (t_addr_space t) (t_ulops t) (t_refcnt t).
Definition with_tid (tid : Z) (t : thread) : thread :=
  Thread (t_maps t) (t_tgid t) tid (t_name t) (t_addr_space t) (t_ulops t) (t_refcnt t).
Definition with_name (name : string) (t : thread) : thread :=
  Thread (t_maps t) (t_tgid t) (t_tid t) name (t_addr_space t) (t_ulops t) (t_refcnt t).
Definition with_unwind (u : thread_unwind) (t : thread) : thread :=
  Thread (t_maps t) (t_tgid t) (t_tid t) (t_name t) (tu_addr_space u) (tu_ulops u) (t_refcnt t).
Definition unwind_of (t : thread) : thread_unwind :=
  ThreadUnwind (t_addr_space t) (t_ulops t) (t_maps t).

(** [xcalloc(sizeof( *thread), 1)] *)
Definition xcalloc_thread : cm S Z := lift (λ s : machine_st,
  match ma_pool s with
  | [] => Abort
  | a :: pool =>
    Ok (a, MachineSt (<[a := RbNode 0 0 0]> (ma_node s)) (ma_dead s)
             (<[a := Thread NULL 0 0 "" 0 false 0]> (ma_thread s)) (ma_threads s) pool)
  end).

Definition free_thread (a : Z) : cm S unit := lift (λ s : machine_st,
  match ma_thread s !! a with
  | None => Fault
  | Some _ => Ok (tt, MachineSt (delete a (ma_node s)) (ma_dead s)
                        (delete a (ma_thread s)) (ma_threads s) (ma_pool s))
  end).

Definition thread__new (tgid tid : Z) : cm S Z :=
  thread ← xcalloc_thread;
  thread_store thread (with_tgid tgid);;
  thread_store thread (with_tid tid);;
  thread_store thread (with_refs (refcount_set 1));;
  rb_words (RB_CLEAR_NODE thread);;
  mret thread.

Definition thread__delete (thread : Z) : cm S unit :=
  e ← rb_words (RB_EMPTY_NODE thread);
  c_assert e;;
  t ← thread_load thread;
  (if negb (t_maps t =? NULL) then
     maps__put (t_maps t);; thread_store thread (with_maps NULL)
   else mret tt);;
  t ← thread_load thread;
  unwind__finish_access unw_destroy_addr_space (unwind_of t);;
  free_thread thread.

Definition thread__get (thread : Z) : cm S Z :=
  if thread =? NULL then mret thread else
  t ← thread_load thread;
  thread_store thread (with_refs (refcount_inc (t_refcnt t)));;
  mret thread.

Definition thread__put (thread : Z) : cm S unit :=
  if thread =? NULL then mret tt else
  t ← thread_load thread;
  let '(r, last) := refcount_dec_and_test (t_refcnt t) in
  thread_store thread (with_refs r);;
  if (last : bool) then
    nodes (list_del_init thread);;
    thread__delete thread
  else mret tt.

(** [findnew] is __machine__findnew_thread. *)
Definition thread__init_maps (findnew : Z → Z → cm S Z) (thread : Z) : cm S Z :=
  t ← thread_load thread;
  let tgid := t_tgid t in
  (if tgid =? t_tid t then
     m ← maps__new; thread_store thread (with_maps m)
   else
     leader ← findnew tgid tgid;
     if negb (leader =? NULL) then
       l ← thread_load leader;
       m ← maps__get (t_maps l);
       thread_store thread (with_maps m);;
       thread__put leader
     else mret tt);;
  t ← thread_load thread;
  mret (if negb (t_maps t =? NULL) then 0 else -1).

Definition thread__insert_map (thread map : Z) : cm S Z :=
  t ← thread_load thread;
  '(ret, _, u) ← unwind__prepare_access unw_create_addr_space unw_set_caching_policy (unwind_of t);
  thread_store thread (with_unwind u);;
  if negb (ret =? 0) then mret ret else
  t ← thread_load thread;
  maps__insert_at (t_maps t) map;;
  mret 0.

(** [strncpy] into the 16 bytes of the name; a name of 16 bytes or more is
    stored without its terminator. *)
Definition TASK_COMM_LEN : nat := 16.
Definition thread__set_comm (thread : Z) (str : string) : cm S unit :=
  t ← thread_load thread;
  if strncmp str (t_name t) TASK_COMM_LEN =? 0 then
    thread_store thread (with_name (String.substring 0 TASK_COMM_LEN str));;
    t ← thread_load thread;
    unwind__flush_access unw_flush_cache (unwind_of t)
  else mret tt.

(** ** The table (machine.c) *)

Definition machine__update_thread_tgid (findnew : Z → Z → cm S Z) (th tgid : Z) : cm S unit :=
  t ← thread_load th;
  if tgid =? t_tgid t then mret tt else
  thread_store th (with_tgid tgid);;
  t ← thread_load th;
  if t_tgid t =? t_tid t then mret tt else
  leader ← findnew (t_tgid t) (t_tgid t);
  if leader =? NULL then c_abort else
  l ← thread_load leader;
  (if t_maps l =? NULL then
     m ← maps__new; thread_store leader (with_maps m)
   else mret tt);;
  l ← thread_load leader;
  if t_maps l =? NULL then c_abort else
  t ← thread_load th;
  if t_maps t =? t_maps l then mret tt else
  (if negb (t_maps t =? NULL) then
     e ← maps__empty (t_maps t);
     c_assert e;;
     maps__put (t_maps t)
   else mret tt);;
  m ← maps__get (t_maps l);
  thread_store th (with_maps m);;
  thread__put leader.

Definition tid_visit (tid cur : Z) : cm S (turn Z) :=
  t ← thread_load cur;
  mret (if t_tid t =? tid then Stop cur
        else if tid <? t_tid t then GoLeft else GoRight).

(** The descent from [&threads->entries.rb_node]. *)
Definition tid_search (i : fin THREADS__TABLE_SIZE) (tid : Z) : cm S (Z + Z * rb_slot) :=
  @rb_search S (entries_in i) Z (tid_visit tid).

(** The end of ____machine__findnew_thread (machine.c:230-259), where the
    search ended at [p] below [parent]. *)
Definition create_thread (findnew : Z → Z → cm S Z) (i : fin THREADS__TABLE_SIZE)
    (tgid tid parent : Z) (p : rb_slot) : cm S Z :=
  th ← thread__new tgid tid;
  if negb (th =? NULL) then
    entries i (rb_link_node th parent p);;
    entries i (rb_insert_color th);;
    ret ← thread__init_maps findnew th;
    if negb (ret =? 0) then
      entries i (rb_erase_init th);;
      entries i (RB_CLEAR_NODE th);;
      thread__put th;;
      mret NULL
    else
      thread__get th;;
      set_threads i (set_last_match th);;
      set_threads i (λ b, set_nr (w32 (th_nr b + 1)) b);;
      mret th
  else mret th.

(** [fuel] bounds the nesting of the calls through thread__init_maps and
    machine__update_thread_tgid. *)
Fixpoint ____machine__findnew_thread (fuel : nat) (i : fin THREADS__TABLE_SIZE)
    (tgid tid : Z) (create : bool) : cm S Z :=
  match fuel with
  | O => c_nofuel
  | Datatypes.S fuel =>
    let findnew tgid tid :=
      ____machine__findnew_thread fuel (machine__threads tid) tgid tid true in
    th ← get_threads i th_last_match;
    cached ←
      (if negb (th =? NULL) then
         t ← thread_load th;
         if t_tid t =? tid then mret true
         else set_threads i (set_last_match NULL);; mret false
       else mret false);
    if (cached : bool) then
      machine__update_thread_tgid findnew th tgid;;
      thread__get th
    else
    r ← tid_search i tid;
    match r with
    | inl th =>
      set_threads i (set_last_match th);;
      machine__update_thread_tgid findnew th tgid;;
      thread__get th
    | inr (parent, p) =>
      if negb create then mret NULL
      else create_thread findnew i tgid tid parent p
    end
  end.

(** The leader of a leader is itself, so the calls nest at most twice. *)
Definition __machine__findnew_thread (tgid tid : Z) : cm S Z :=
  ____machine__findnew_thread 2 (machine__threads tid) tgid tid true.

Definition machine__findnew_thread (tgid tid : Z) : cm S Z :=
  down_write lock;;
  th ← __machine__findnew_thread tgid tid;
  up_write lock;;
  mret th.

Definition __machine__remove_thread (th : Z) (take_lock : bool) : cm S unit :=
  t ← thread_load th;
  let i := machine__threads (t_tid t) in
  last ← get_threads i th_last_match;
  (if last =? th then set_threads i (set_last_match NULL) else mret tt);;
  t ← thread_load th;
  c_assert (negb (refcount_read (t_refcnt t) =? 0));;
  (if take_lock then down_write lock;; mret tt else mret tt);;
  entries i (rb_erase_init th);;
  entries i (RB_CLEAR_NODE th);;
  set_threads i (λ b, set_nr (w32 (th_nr b - 1)) b);;
  dead ← get_threads i th_dead;
  nodes (list_add_tail th dead);;
  (if take_lock then up_write lock;; mret tt else mret tt);;
  thread__put th.

(** The [while (nd)] of machine__delete_threads. *)
Fixpoint delete_threads_loop (fuel : nat) (i : fin THREADS__TABLE_SIZE) (nd : Z) : cm S unit :=
  match fuel with
  | O => c_nofuel
  | Datatypes.S fuel =>
    if nd =? NULL then mret tt else
    let t := nd in
    nd ← entries i (rb_next nd);
    __machine__remove_thread t false;;
    delete_threads_loop fuel i nd
  end.

Definition delete_bucket (i : fin THREADS__TABLE_SIZE) : cm S unit :=
  down_write lock;;
  nd ← entries i rb_first;
  fuel ← lift (c_get (λ s : machine_st, Datatypes.S (size (ma_node s))));
  delete_threads_loop fuel i nd;;
  up_write lock;;
  mret tt.

(** [for (i = 0; i < THREADS__TABLE_SIZE; i++)] *)
Fixpoint for_buckets (body : fin THREADS__TABLE_SIZE → cm S unit)
    (bs : list (fin THREADS__TABLE_SIZE)) : cm S unit :=
  match bs with
  | [] => mret tt
  | i :: bs => body i;; for_buckets body bs
  end.

Definition machine__delete_threads : cm S unit :=
  for_buckets delete_bucket (enum (fin THREADS__TABLE_SIZE)).

(** The body of the loop of machine__threads_init. *)
Definition init_bucket (i : fin THREADS__TABLE_SIZE) : cm S unit :=
  entries i (set_root NULL);;
  init_rwsem lock;;
  set_threads i (set_nr 0);;
  dead ← get_threads i th_dead;
  nodes (INIT_LIST_HEAD dead);;
  set_threads i (set_last_match NULL).

Definition machine__threads_init : cm S unit :=
  for_buckets init_bucket (enum (fin THREADS__TABLE_SIZE)).
End threads.
