(* ===== verification/ThreadsInv.v ===== *)
(** The contents of the thread table: its invariant, the interface the table
    asks of the maps, and the rules of the single steps of Threads.v. *)
From Stdlib Require Import ZArith Lia String.
From stdpp Require Import base tactics option list numbers gmap sorting fin vector finite strings.
From S2P Require Import Prelude RbTree RbSpec RbRep RbLink RbUnlink RbIter RbSearch.
From S2P Require Import ListHead Refcount Rwsem CString Unwind Threads.

Local Open Scope Z_scope.

(** ** The interface of the maps *)

(** [maps_refs] are the reference counts of the maps that exist, [maps_room]
    the allocations that succeed.  The maps and the table are different parts
    of the state.  [maps_evolves] is what creating sets of maps and counting
    references does to the rest of the state: an implementation says what it
    leaves alone. *)
Class MapsLaws (S : Type) `{!Store S machine_st, !MapsOps S} := {
  maps_refs : S → gmap Z Z;
  maps_room : S → nat;
  maps_evolves : S → S → Prop;
  maps_evolves_trans : ∀ s1 s2 s3, maps_evolves s1 s2 → maps_evolves s2 s3 → maps_evolves s1 s3;
  maps_evolves_with : ∀ (M : machine_st) s, maps_evolves s (with_part M s);
  maps_refs_with : ∀ (M : machine_st) s, maps_refs (with_part M s) = maps_refs s;
  maps_room_with : ∀ (M : machine_st) s, maps_room (with_part M s) = maps_room s;
  maps_new_wp : ∀ s, (0 < maps_room s)%nat →
    wp maps__new (λ m s', m ≠ NULL ∧ maps_refs s !! m = None ∧
      maps_refs s' = <[m := 1]> (maps_refs s) ∧
      part s' = part s ∧ maps_room s = Datatypes.S (maps_room s') ∧ maps_evolves s s') s;
  maps_get_wp : ∀ s m n, m ≠ NULL → maps_refs s !! m = Some n →
    wp (maps__get m) (λ v s', v = m ∧
      maps_refs s' = <[m := refcount_inc n]> (maps_refs s) ∧
      part s' = part s ∧ maps_room s' = maps_room s ∧ maps_evolves s s') s;
}.

(** ** The invariant *)

Abbreviation bucket := (fin THREADS__TABLE_SIZE).

Definition tid_of (T : gmap Z thread) (a : Z) : Z := from_option t_tid 0 (T !! a).
Definition entries_of (s : machine_st) (i : bucket) : rb_state :=
  RbState (ma_node s) (th_entries (ma_threads s !!! i)).

(** A thread with an address space has the operations of libunwind. *)
Definition has_ops (t : thread) : Prop := t_addr_space t ≠ 0 → t_ulops t = true.

(** [ls i] are the threads in the tree of bucket [i]; those in [pend] are
    linked and not set up yet. *)
Record table_inv (s : machine_st) (R : gmap Z Z) (pend : list Z) (ls : bucket → list Z) : Prop := {
  ti_tree i : ∃ t, represents (entries_of s i) t ∧ redblack t ∧ inorder t = ls i;
  ti_thread i a : a ∈ ls i → ∃ t, ma_thread s !! a = Some t ∧
    machine__threads (t_tid t) = i ∧ 0 < t_refcnt t < 2 ^ 32;
  ti_sorted i : StronglySorted (λ a b, tid_of (ma_thread s) a < tid_of (ma_thread s) b) (ls i);
  ti_last i : th_last_match (ma_threads s !!! i) = NULL ∨
    (th_last_match (ma_threads s !!! i) ∈ ls i) ∧ (th_last_match (ma_threads s !!! i) ∉ pend);
  ti_nr i : th_nr (ma_threads s !!! i) =
    w32 (Z.of_nat (length (filter (λ a, a ∉ pend) (ls i))));
  ti_ops i a t : a ∈ ls i → ma_thread s !! a = Some t → has_ops t;
  ti_group i a t : a ∈ ls i → a ∉ pend → ma_thread s !! a = Some t →
    t_maps t ≠ NULL ∧ is_Some (R !! t_maps t) ∧
    ∃ b l, (b ∈ ls (machine__threads (t_tgid t))) ∧ (b ∉ pend) ∧ ma_thread s !! b = Some l ∧
      t_tid l = t_tgid t ∧ t_maps l = t_maps t;
}.

(** What calloc returns is not in use. *)
Definition thread_pool_ok (s : machine_st) : Prop :=
  NoDup (ma_pool s) ∧ ∀ a, a ∈ ma_pool s → node_ok a ∧ ma_thread s !! a = None.

Definition set_bucket (i : bucket) (l : list Z) (ls : bucket → list Z) : bucket → list Z :=
  λ j, if decide (j = i) then l else ls j.

Lemma set_bucket_eq i l ls : set_bucket i l ls i = l.
Proof. unfold set_bucket. by rewrite decide_True. Qed.
Lemma set_bucket_ne i j l ls : j ≠ i → set_bucket i l ls j = ls j.
Proof. intros. unfold set_bucket. by rewrite decide_False. Qed.

(** The table after its set-up. *)
Lemma empty_table M R :
  (∀ i, ma_threads M !!! i = Threads NULL 0 (th_dead (ma_threads M !!! i)) NULL) →
  table_inv M R [] (λ _, []).
Proof.
  intros Hi. split.
  - intros i. exists E. unfold entries_of. rewrite Hi. split_and!; [|by exists 0%nat; constructor|done].
    split_and!; [done|done|apply NoDup_nil_2].
  - intros i a []%not_elem_of_nil.
  - intros i. constructor.
  - intros i. rewrite Hi. by left.
  - intros i. by rewrite Hi.
  - intros i a t []%not_elem_of_nil.
  - intros i a t []%not_elem_of_nil.
Qed.

Section facts.
Context {s : machine_st} {R : gmap Z Z} {pend : list Z} {ls : bucket → list Z}.
Hypothesis Hinv : table_inv s R pend ls.

Lemma inv_nonnull i a : a ∈ ls i → a ≠ NULL.
Proof.
  intros Ha. destruct (ti_tree _ _ _ _ Hinv i) as (t & Ht & _ & Ho).
  rewrite <- Ho in Ha. by eapply represents_nonnull.
Qed.

(** A thread is in one bucket. *)
Lemma inv_bucket i j a : a ∈ ls i → a ∈ ls j → i = j.
Proof.
  intros (t & Ht & <- & _)%(ti_thread _ _ _ _ Hinv) (t' & Ht' & <- & _)%(ti_thread _ _ _ _ Hinv).
  congruence.
Qed.

Lemma inv_fresh a i : ma_thread s !! a = None → a ∉ ls i.
Proof. intros Ha (t & Ht & _)%(ti_thread _ _ _ _ Hinv). congruence. Qed.

(** The threads of a table have different ids. *)
Lemma inv_unique i j a b :
  a ∈ ls i → b ∈ ls j → tid_of (ma_thread s) a = tid_of (ma_thread s) b → a = b.
Proof.
  intros Ha Hb He.
  assert (i = j) as <-.
  { destruct (ti_thread _ _ _ _ Hinv _ _ Ha) as (t & Ht & <- & _).
    destruct (ti_thread _ _ _ _ Hinv _ _ Hb) as (u & Hu & <- & _).
    unfold tid_of in He. rewrite Ht, Hu in He. simpl in He. by rewrite He. }
  pose proof (ti_sorted _ _ _ _ Hinv i) as Hs. revert Ha Hb Hs. generalize (ls i) as l.
  induction l as [|c l IH]; intros Ha Hb Hs; [by apply not_elem_of_nil in Ha|].
  inversion Hs as [|?? Hs' Hf]; subst. rewrite Forall_forall in Hf.
  apply elem_of_cons in Ha as [->|Ha], Hb as [->|Hb]; [done|..|by apply IH].
  - apply Hf in Hb. lia.
  - apply Hf in Ha. lia.
Qed.
End facts.

(** ** Changes that keep the invariant *)

(** Only the fields of the invariant matter. *)
Lemma inv_refs s R R' pend ls :
  (∀ m, is_Some (R !! m) → is_Some (R' !! m)) →
  table_inv s R pend ls → table_inv s R' pend ls.
Proof.
  intros HR [H1 H2 H3 H4 H5 Hops H6]. split; [done..|].
  intros i a t Ha Hp Ht. destruct (H6 i a t Ha Hp Ht) as (? & ? & ?). auto.
Qed.

Lemma some_insert (R : gmap Z Z) m v x : is_Some (R !! x) → is_Some (<[m := v]> R !! x).
Proof.
  intros Hx. destruct (decide (x = m)) as [->|?];
    [by rewrite lookup_insert_eq; eexists|by rewrite lookup_insert_ne].
Qed.

Lemma tid_of_insert T a t b :
  tid_of (<[a := t]> T) b = if decide (b = a) then t_tid t else tid_of T b.
Proof.
  unfold tid_of. case_decide as Hb; [subst; by rewrite lookup_insert_eq|by rewrite lookup_insert_ne].
Qed.

Definition set_threads_map (T : gmap Z thread) (s : machine_st) : machine_st :=
  MachineSt (ma_node s) (ma_dead s) T (ma_threads s) (ma_pool s).

(** Changing a thread that is not set up, the group of a thread to itself, or a
    count. *)
Lemma inv_update s R pend ls i a t t' :
  table_inv s R pend ls → a ∈ ls i → ma_thread s !! a = Some t →
  t_tid t' = t_tid t → 0 < t_refcnt t' < 2 ^ 32 → (has_ops t → has_ops t') →
  a ∈ pend ∨ t_maps t' = t_maps t ∧ (t_tgid t' = t_tgid t ∨ t_tgid t' = t_tid t) →
  table_inv (set_threads_map (<[a := t']> (ma_thread s)) s) R pend ls.
Proof.
  intros Hinv Ha Ht Htid Hr Hho Hch. pose proof Hinv as [H1 H2 H3 H4 H5 Hops H6].
  assert (∀ b, tid_of (<[a := t']> (ma_thread s)) b = tid_of (ma_thread s) b) as Hto.
  { intros b. rewrite tid_of_insert. case_decide as Hb; [|done]. subst. unfold tid_of. by rewrite Ht. }
  assert (∀ b u, (b ∉ pend) → ma_thread s !! b = Some u →
    ∃ u', <[a := t']> (ma_thread s) !! b = Some u' ∧
    t_tid u' = t_tid u ∧ t_maps u' = t_maps u) as Hlook.
  { intros b u Hb Hu. destruct (decide (b = a)) as [->|Hne].
    - exists t'. rewrite lookup_insert_eq. split; [done|]. destruct Hch as [?|[? _]]; [done|].
      by simplify_eq.
    - exists u. by rewrite lookup_insert_ne. }
  split; simpl; [done| | |done|done| |].
  - intros j b Hb. destruct (decide (b = a)) as [->|Hne].
    + exists t'. rewrite lookup_insert_eq. split_and!; [done| |lia..]. rewrite Htid.
      destruct (H2 _ _ Hb) as (u & Hu & <- & _). by simplify_eq.
    + rewrite lookup_insert_ne by done. by apply H2.
  - intros j. eapply sorted_impl; [|apply H3]. intros x y _ _. by rewrite !Hto.
  - intros j b u Hb. destruct (decide (b = a)) as [->|Hne].
    + rewrite lookup_insert_eq. intros [= <-]. eapply Hho, Hops; done.
    + rewrite lookup_insert_ne by done. by eapply Hops.
  - intros j b u Hb Hp Hu. destruct (decide (b = a)) as [->|Hne].
    + rewrite lookup_insert_eq in Hu. injection Hu as <-.
      destruct Hch as [?|[Hmaps Htgid]]; [done|].
      destruct (H6 j a t Hb Hp Ht) as (Hm & HR & c & l & Hc & Hcp & Hl & Hlt & Hlm).
      rewrite Hmaps. split_and!; [done..|]. destruct Htgid as [->| ->].
      * destruct (Hlook _ _ Hcp Hl) as (l' & Hl' & Ht1 & Ht2). exists c, l'. split_and!; congruence.
      * exists a, t'. rewrite lookup_insert_eq. split_and!; try done.
        destruct (H2 _ _ Hb) as (u & Hu & <- & _). simplify_eq. done.
    + rewrite lookup_insert_ne in Hu by done.
      destruct (H6 j b u Hb Hp Hu) as (Hm & HR & c & l & Hc & Hcp & Hl & Hlt & Hlm).
      split_and!; [done..|]. destruct (Hlook _ _ Hcp Hl) as (l' & Hl' & Ht1 & Ht2).
      exists c, l'. split_and!; congruence.
Qed.

Lemma lookup_update_threads i j f s :
  ma_threads (update_threads i f s) !!! j =
    if decide (j = i) then f (ma_threads s !!! j) else ma_threads s !!! j.
Proof.
  simpl. case_decide as Hj; [subst; by rewrite vlookup_insert|by rewrite vlookup_insert_ne].
Qed.

Lemma inv_last s R pend ls i x :
  table_inv s R pend ls → x = NULL ∨ (x ∈ ls i) ∧ (x ∉ pend) →
  table_inv (update_threads i (set_last_match x) s) R pend ls.
Proof.
  intros [H1 H2 H3 H4 H5 Hops H6] Hx. split; [|done|done|..|done|done].
  - intros j. destruct (H1 j) as (t & Ht & ?). exists t. split; [|done].
    unfold entries_of. rewrite lookup_update_threads. by case_decide.
  - intros j. rewrite lookup_update_threads. case_decide as Hj; [by subst|done].
  - intros j. rewrite lookup_update_threads. case_decide; [|done]. simpl. apply H5.
Qed.

Lemma filter_pend_cons (a : Z) (pend l : list Z) :
  a ∉ l → filter (λ x, x ∉ a :: pend) l = filter (λ x, x ∉ pend) l.
Proof.
  induction l as [|b l IH]; intros Ha; [done|]. apply not_elem_of_cons in Ha as [Hne Ha].
  rewrite !filter_cons, (IH Ha).
  destruct (decide (b ∉ pend)) as [Hb|Hb], (decide (b ∉ a :: pend)) as [Hb'|Hb']; try done.
  - destruct Hb'. apply not_elem_of_cons. split; [by apply not_eq_sym|done].
  - destruct Hb. by apply not_elem_of_cons in Hb' as [_ ?].
Qed.

Lemma filter_pend_link (a : Z) (pend l1 l2 : list Z) :
  (a ∉ l1 ++ l2) → filter (λ x, x ∉ a :: pend) (l1 ++ a :: l2) = filter (λ x, x ∉ pend) (l1 ++ l2).
Proof.
  intros Ha. rewrite !filter_app, filter_cons_False by (intros H; apply H; left).
  apply not_elem_of_app in Ha as [H1 H2]. by rewrite !filter_pend_cons.
Qed.

(** A new thread in the tree of bucket [i]. *)
Lemma inv_link s R pend ls i a t l1 l2 r' tr pool :
  table_inv s R pend ls → ma_thread s !! a = None → machine__threads (t_tid t) = i →
  0 < t_refcnt t < 2 ^ 32 → has_ops t → ls i = l1 ++ l2 →
  Forall (λ b, tid_of (ma_thread s) b < t_tid t) l1 →
  Forall (λ b, t_tid t < tid_of (ma_thread s) b) l2 →
  represents r' tr → redblack tr → inorder tr = l1 ++ a :: l2 →
  (∀ x, x ∉ a :: ls i → rb_mem r' !! x = ma_node s !! x) →
  table_inv (MachineSt (rb_mem r') (ma_dead s) (<[a := t]> (ma_thread s))
      (vinsert i (set_entries (rb_root_node r') (ma_threads s !!! i)) (ma_threads s)) pool)
    R (a :: pend) (set_bucket i (l1 ++ a :: l2) ls).
Proof.
  intros Hinv Hfresh Hi Hr Hho Hl HL HR Ht Hrb Ho Hm. pose proof Hinv as [H1 H2 H3 H4 H5 Hops H6].
  assert (∀ j, a ∉ ls j) as Hal by (intros j; by eapply inv_fresh).
  assert (∀ j b, b ∈ ls j → b ≠ a) as Hne by (intros j b Hb ->; by apply (Hal j)).
  assert (∀ j b, b ∈ set_bucket i (l1 ++ a :: l2) ls j → b = a ∧ j = i ∨ b ∈ ls j) as Hin.
  { intros j b. unfold set_bucket. case_decide as Hj; [subst j|by right].
    rewrite Hl, !elem_of_app, elem_of_cons. tauto. }
  assert (∀ j b, b ∈ ls j → b ∈ set_bucket i (l1 ++ a :: l2) ls j) as Hin'.
  { intros j b. unfold set_bucket. case_decide as Hj; [subst j|done].
    rewrite Hl, !elem_of_app, elem_of_cons. tauto. }
  split; simpl.
  - intros j. destruct (decide (j = i)) as [->|Hj].
    + exists tr. rewrite set_bucket_eq. split_and!; [|done|done].
      unfold entries_of. simpl. rewrite vlookup_insert. simpl. by destruct r'.
    + destruct (H1 j) as (u & Hu & ? & Huo). exists u. rewrite set_bucket_ne by done.
      split; [|done]. eapply represents_frame; [exact Hu| |].
      * intros x Hx. simpl. apply Hm. rewrite Huo in Hx. apply not_elem_of_cons. split; [by eapply Hne|].
        intros Hxi. apply Hj. by eapply inv_bucket.
      * simpl. by rewrite vlookup_insert_ne.
  - intros j b [[-> ->]|Hb]%Hin; [exists t; by rewrite lookup_insert_eq|].
    rewrite lookup_insert_ne by (apply not_eq_sym; by eapply Hne). by apply H2.
  - intros j. unfold set_bucket. case_decide as Hj; [subst j|].
    + rewrite Forall_forall in HL, HR. specialize (H3 i). rewrite Hl in H3.
      assert (∀ b, b ∈ l1 ++ l2 → tid_of (<[a:=t]> (ma_thread s)) b = tid_of (ma_thread s) b) as Ho'.
      { intros b Hb. rewrite tid_of_insert, decide_False; [done|]. eapply Hne. by rewrite Hl. }
      apply sorted_mid.
      * eapply sorted_impl; [|exact H3]. intros x y Hx Hy. by rewrite !Ho'.
      * apply Forall_forall. intros x Hx. rewrite Ho' by (apply elem_of_app; by left).
        rewrite tid_of_insert, decide_True by done. by apply HL.
      * apply Forall_forall. intros x Hx. rewrite (Ho' x) by (apply elem_of_app; by right).
        rewrite tid_of_insert, decide_True by done. by apply HR.
    + eapply sorted_impl; [|apply H3]. intros x y Hx Hy.
      by rewrite !tid_of_insert, !decide_False by (by eapply Hne).
  - intros j.
    assert (th_last_match (vinsert i (set_entries (rb_root_node r') (ma_threads s !!! i))
      (ma_threads s) !!! j) = th_last_match (ma_threads s !!! j)) as ->.
    { destruct (decide (j = i)) as [->|?]; [by rewrite vlookup_insert|by rewrite vlookup_insert_ne]. }
    destruct (H4 j) as [?|[Hj Hp]]; [by left|]. right. split; [by apply Hin'|].
    apply not_elem_of_cons. split; [by eapply Hne|done].
  - intros j. unfold set_bucket. case_decide as Hj; [subst j|].
    + rewrite vlookup_insert, filter_pend_link by (rewrite <- Hl; apply Hal). simpl.
      by rewrite H5, Hl.
    + rewrite vlookup_insert_ne by done. by rewrite filter_pend_cons.
  - intros j b u [[-> ->]|Hb]%Hin; [rewrite lookup_insert_eq; by intros [= <-]|].
    rewrite lookup_insert_ne by (apply not_eq_sym; by eapply Hne). by eapply Hops.
  - intros j b u [[-> ->]|Hb]%Hin Hbp Hu; [by destruct Hbp; left|].
    apply not_elem_of_cons in Hbp as [Hba Hbp].
    rewrite lookup_insert_ne in Hu by (by apply not_eq_sym).
    destruct (H6 j b u Hb Hbp Hu) as (Hmn & HRm & c & l & Hc & Hcp & Hcl & Hlt & Hlm).
    split_and!; [done..|]. exists c, l. pose proof (Hne _ _ Hc) as Hca.
    rewrite lookup_insert_ne by (by apply not_eq_sym).
    split_and!; try done; [by apply Hin'|by apply not_elem_of_cons].
Qed.

(** The last pending thread is set up: it has its maps, the extra reference and
    is counted. *)
Lemma inv_register s R pend ls i a t t' :
  table_inv s R (a :: pend) ls → a ∈ ls i → (a ∉ pend) → ma_thread s !! a = Some t →
  t_tid t' = t_tid t → 0 < t_refcnt t' < 2 ^ 32 → (has_ops t → has_ops t') → t_maps t' ≠ NULL → is_Some (R !! t_maps t') →
  (t_tgid t' = t_tid t' ∨ ∃ b l, (b ∈ ls (machine__threads (t_tgid t'))) ∧ (b ∉ a :: pend) ∧
     ma_thread s !! b = Some l ∧ t_tid l = t_tgid t' ∧ t_maps l = t_maps t') →
  table_inv
    (update_threads i (λ b, set_nr (w32 (th_nr b + 1)) b)
      (update_threads i (set_last_match a) (set_threads_map (<[a := t']> (ma_thread s)) s)))
    R pend ls.
Proof.
  intros Hinv Ha Hap Ht Htid Hr Hho Hmaps HRm Hlead. pose proof Hinv as [H1 H2 H3 H4 H5 Hops H6].
  assert (∀ b, tid_of (<[a := t']> (ma_thread s)) b = tid_of (ma_thread s) b) as Hto.
  { intros b. rewrite tid_of_insert. case_decide as Hb; [|done]. subst. unfold tid_of. by rewrite Ht. }
  assert (machine__threads (t_tid t') = i) as Hbk.
  { rewrite Htid. destruct (H2 _ _ Ha) as (u & Hu & <- & _). by simplify_eq. }
  assert (NoDup (ls i)) as Hnd.
  { destruct (H1 i) as (u & (_ & _ & Hn) & _ & <-). done. }
  split; [| | | | | |].
  - intros j. destruct (H1 j) as (u & Hu & ?). exists u. split; [|done].
    unfold entries_of in *. rewrite !lookup_update_threads. simpl. by repeat case_decide.
  - intros j b Hb. simpl. destruct (decide (b = a)) as [->|Hne].
    + exists t'. rewrite lookup_insert_eq. split_and!; [done| |lia..]. rewrite Hbk. by eapply inv_bucket.
    + rewrite lookup_insert_ne by done. by apply H2.
  - intros j. simpl. eapply sorted_impl; [|apply H3]. intros x y _ _. by rewrite !Hto.
  - intros j. rewrite !lookup_update_threads. case_decide as Hj; simpl.
    + subst j. by right.
    + destruct (H4 j) as [?|[? [? ?]%not_elem_of_cons]]; [by left|by right].
  - intros j. rewrite !lookup_update_threads. case_decide as Hj; simpl.
    + subst j. rewrite H5. apply list_elem_of_split in Ha as (k1 & k2 & Hk). rewrite Hk in *.
      assert (a ∉ k1 ++ k2) as Hn by (clear -Hnd; nodup_simp; autorewrite with nodup; done).
      rewrite filter_pend_link by done. rewrite !filter_app, filter_cons_True by done.
      rewrite !length_app. simpl. unfold w32. rewrite Zplus_mod_idemp_l. f_equal. lia.
    + rewrite H5, filter_pend_cons; [done|]. intros Haj. apply Hj. by eapply inv_bucket.
  - intros j b u Hb. simpl. destruct (decide (b = a)) as [->|Hne].
    + rewrite lookup_insert_eq. intros [= <-]. eapply Hho, Hops; done.
    + rewrite lookup_insert_ne by done. by eapply Hops.
  - intros j b u Hb Hbp Hu. simpl in *. destruct (decide (b = a)) as [->|Hne].
    + rewrite lookup_insert_eq in Hu. injection Hu as <-. split_and!; [done..|].
      destruct Hlead as [Heq|(b & l & Hb' & [Hba Hbp']%not_elem_of_cons & Hl & ? & ?)].
      * exists a, t'. rewrite lookup_insert_eq, Heq, Hbk. done.
      * exists b, l. by rewrite lookup_insert_ne by (by apply not_eq_sym).
    + rewrite lookup_insert_ne in Hu by (by apply not_eq_sym).
      destruct (H6 j b u Hb ltac:(by apply not_elem_of_cons) Hu) as
        (Hmn & HRm' & c & l & Hc & [Hca Hcp]%not_elem_of_cons & Hcl & Hlt & Hlm).
      split_and!; [done..|]. exists c, l. by rewrite lookup_insert_ne by (by apply not_eq_sym).
Qed.

(** ** Single steps *)

Section steps.
Context {S : Type} `{!Store S machine_st}.
Implicit Types (s : S) (M : machine_st).

Lemma wp_machine {A} (m : cm machine_st A) (Q : A → S → Prop) M s :
  wp m (λ a M', Q a (with_part M' s)) M → wp (lift m) Q (with_part M s).
Proof.
  intros Hm. apply wp_lift. rewrite part_with. eapply wp_mono; [exact Hm|].
  intros a M' HQ. by rewrite with_part_twice.
Qed.

Lemma wp_thread_load a t M s (Q : thread → S → Prop) :
  a ≠ NULL → ma_thread M !! a = Some t → Q t (with_part M s) →
  wp (thread_load a) Q (with_part M s).
Proof.
  intros Ha Ht HQ. apply wp_machine, (wp_lift_pure _ (λ v, v = t)); [by eapply wp_obj_load|].
  by intros v ->.
Qed.

Lemma wp_thread_store a f t M s (Q : unit → S → Prop) :
  a ≠ NULL → ma_thread M !! a = Some t →
  Q tt (with_part (set_threads_map (<[a := f t]> (ma_thread M)) M) s) →
  wp (thread_store a f) Q (with_part M s).
Proof. intros Ha Ht HQ. apply wp_machine, wp_lift. by eapply wp_obj_store. Qed.

Lemma wp_get_threads {A} i (f : threads → A) M s (Q : A → S → Prop) :
  Q (f (ma_threads M !!! i)) (with_part M s) → wp (get_threads i f) Q (with_part M s).
Proof. intros HQ. by apply wp_machine, wp_get. Qed.

Lemma wp_set_threads i f M s (Q : unit → S → Prop) :
  Q tt (with_part (update_threads i f M) s) → wp (set_threads i f) Q (with_part M s).
Proof. intros HQ. by apply wp_machine, wp_modify. Qed.

Lemma wp_thread_get a t M s (Q : Z → S → Prop) :
  a ≠ NULL → ma_thread M !! a = Some t →
  Q a (with_part (set_threads_map
    (<[a := with_refs (refcount_inc (t_refcnt t)) t]> (ma_thread M)) M) s) →
  wp (thread__get a) Q (with_part M s).
Proof.
  intros Ha Ht HQ. unfold thread__get. rewrite (proj2 (Z.eqb_neq _ _) Ha).
  apply wp_bind. eapply wp_thread_load; [done..|]. apply wp_bind.
  eapply wp_thread_store; [done..|]. by apply wp_ret.
Qed.

(** A reference that is not the last. *)
Lemma wp_thread_put `{!MapsOps S} destroy a t M s (Q : unit → S → Prop) :
  a ≠ NULL → ma_thread M !! a = Some t → refcount_sub (t_refcnt t) ≠ 0 →
  Q tt (with_part (set_threads_map
    (<[a := with_refs (refcount_sub (t_refcnt t)) t]> (ma_thread M)) M) s) →
  wp (thread__put destroy a) Q (with_part M s).
Proof.
  intros Ha Ht Hr HQ. unfold thread__put. rewrite (proj2 (Z.eqb_neq _ _) Ha).
  apply wp_bind. eapply wp_thread_load; [done..|].
  unfold refcount_dec_and_test, refcount_test. rewrite (proj2 (Z.eqb_neq _ _) Hr).
  apply wp_bind. eapply wp_thread_store; [done..|]. by apply wp_ret.
Qed.

(** A thread as thread__new leaves it. *)
Definition fresh_thread (tgid tid : Z) : thread := Thread NULL tgid tid "" 0 false 1.

Lemma wp_thread_new tgid tid a pool M s (Q : Z → S → Prop) :
  ma_pool M = a :: pool → a ≠ NULL →
  Q a (with_part (MachineSt (<[a := RbNode a 0 0]> (ma_node M)) (ma_dead M)
    (<[a := fresh_thread tgid tid]> (ma_thread M)) (ma_threads M) pool) s) →
  wp (thread__new tgid tid) Q (with_part M s).
Proof.
  intros Hp Ha HQ. unfold thread__new. apply wp_bind, wp_machine.
  unfold wp at 1. rewrite Hp. do 3 (apply wp_bind; eapply wp_thread_store;
    [done|simpl; apply lookup_insert_eq|]). simpl.
  apply wp_bind, wp_machine. unfold wp at 1, RB_CLEAR_NODE, set_pc, store. simpl.
  rewrite (proj2 (Z.eqb_neq _ _) Ha), lookup_insert_eq. simpl. apply wp_ret.
  by rewrite !insert_insert_eq.
Qed.

(** ** The search by thread id *)

Definition tid_dir (T : gmap Z thread) (tid a : Z) : turn Z :=
  if tid_of T a =? tid then Stop a else if tid <? tid_of T a then GoLeft else GoRight.

Lemma tid_dir_mono T tid l :
  StronglySorted (λ a b, tid_of T a < tid_of T b) l → mono (tid_dir T tid) l.
Proof.
  intros Hs. eapply sorted_mono; [exact Hs|..]; unfold tid_dir; intros x y _ _ HR;
    repeat case_match; try done; lia.
Qed.

(** The search finds the thread of that id in the bucket, or the hole where it
    belongs. *)
Lemma tid_search_wp R pend ls i tid M s :
  table_inv M R pend ls →
  wp (tid_search i tid)
     (λ r s', s' = with_part M s ∧
        match r with
        | inl a => a ∈ ls i ∧ tid_of (ma_thread M) a = tid
        | inr (parent, p) => ∃ t k, represents (entries_of M i) t ∧ redblack t ∧ inorder t = ls i ∧
            parent = cptr k ∧ p = slot_of k ∧
            descend (tid_dir (ma_thread M) tid) t [] = inr k ∧ ls i = lefts k ++ rights k ∧
            Forall (λ b, tid_of (ma_thread M) b < tid) (lefts k) ∧
            Forall (λ b, tid < tid_of (ma_thread M) b) (rights k)
        end) (with_part M s).
Proof.
  intros Hinv. destruct (ti_tree _ _ _ _ Hinv i) as (t & Ht & Hrb & Ho).
  assert (@part _ _ (entries_in i) (with_part M s) = entries_of M i) as Hpart.
  { unfold entries_in, store_compose, entries_of. simpl. by rewrite part_with. }
  eapply wp_mono.
  { unfold tid_search.
    apply (@rb_search_wp S (entries_in i) Z _ (tid_dir (ma_thread M) tid) _ t);
      [by rewrite Hpart|].
    intros a Ha. rewrite Ho in Ha. pose proof (inv_nonnull Hinv _ _ Ha).
    destruct (ti_thread _ _ _ _ Hinv _ _ Ha) as (u & Hu & _).
    apply wp_bind. eapply wp_thread_load; [done..|]. apply wp_ret. split; [|done].
    unfold tid_dir, tid_of. by rewrite Hu. }
  intros r s' [-> ->]. split; [done|]. destruct (descend _ t []) as [a|k] eqn:Hd; simpl.
  - apply descend_stop in Hd as (x & Hx & Hdir). unfold tid_dir in Hdir.
    repeat case_match; simplify_eq. rewrite <- Ho. split; [done|lia].
  - exists t, k. split_and!; try done.
    all: apply descend_none in Hd as (Hl & HR & HL);
      [|rewrite Ho; apply tid_dir_mono, Hinv].
    + by rewrite <- Ho.
    + eapply Forall_impl; [exact HR|]. intros b. unfold tid_dir. simpl.
      repeat case_match; try done. lia.
    + eapply Forall_impl; [exact HL|]. intros b. unfold tid_dir. simpl.
      repeat case_match; try done. lia.
Qed.
End steps.
