(* ===== verification/ThreadsRefs.v ===== *)
(** Who holds what in a thread table at rest: the reference counts of the sets
    of maps against the threads that point to them, the counts of the threads,
    and that no thread is outside the table. *)
From Stdlib Require Import ZArith Lia String.
From stdpp Require Import sorting base tactics option list numbers gmap fin vector finite strings.
From S2P Require Import Prelude RbTree Refcount Threads ThreadsInv.

Local Open Scope Z_scope.

(** The threads that point to the set [m]. *)
Definition held (T : gmap Z thread) (m : Z) : nat :=
  size (filter (λ x : Z * thread, t_maps x.2 = m) T).

(** A set has one reference for each thread that points to it. *)
Definition counted (R : gmap Z Z) (T : gmap Z thread) : Prop :=
  R !! NULL = None ∧ ∀ m, m ≠ NULL →
    match R !! m with
    | None => held T m = 0%nat
    | Some n => (0 < held T m)%nat ∧ n = w32 (Z.of_nat (held T m))
    end.

Definition points (t : thread) (m : Z) : nat := if decide (t_maps t = m) then 1 else 0.

Lemma held_delete T a t m : T !! a = Some t → held T m = (points t m + held (delete a T) m)%nat.
Proof.
  intros Ha. unfold held, points. rewrite <- (insert_delete_id T a t Ha) at 1.
  case_decide as Ht.
  - rewrite map_filter_insert_True by done. rewrite map_size_insert_None; [done|].
    apply map_lookup_filter_None. left. apply lookup_delete_eq.
  - rewrite map_filter_insert_not'; [done|done|]. intros y. by rewrite lookup_delete_eq.
Qed.

Lemma held_new T a t m : T !! a = None → held (<[a := t]> T) m = (points t m + held T m)%nat.
Proof.
  intros Ha. rewrite (held_delete _ a t) by apply lookup_insert_eq. by rewrite delete_insert_id.
Qed.

Lemma held_set T a t t' m :
  T !! a = Some t → (points t m + held (<[a := t']> T) m = points t' m + held T m)%nat.
Proof.
  intros Ha. rewrite (held_delete T a t) by done.
  rewrite (held_delete (<[a := t']> T) a t') by apply lookup_insert_eq.
  rewrite delete_insert_eq. lia.
Qed.

Lemma held_unchanged T a t t' m :
  T !! a = Some t → t_maps t' = t_maps t → held (<[a := t']> T) m = held T m.
Proof. intros Ha Ht. pose proof (held_set T a t t' m Ha) as He. unfold points in He. rewrite Ht in He. lia. Qed.

Lemma counted_ext R T T' :
  (∀ m, m ≠ NULL → held T' m = held T m) → counted R T → counted R T'.
Proof. intros He [Hn Hc]. split; [done|]. intros m Hm. rewrite He by done. by apply Hc. Qed.

(** The changes of a request. *)
Lemma counted_same R T a t t' :
  T !! a = Some t → t_maps t' = t_maps t → counted R T → counted R (<[a := t']> T).
Proof. intros Ha Ht. apply counted_ext. intros m _. by eapply held_unchanged. Qed.

Lemma counted_fresh R T a t :
  T !! a = None → t_maps t = NULL → counted R T → counted R (<[a := t]> T).
Proof.
  intros Ha Ht. apply counted_ext. intros m Hm. rewrite held_new by done.
  unfold points. rewrite Ht. by rewrite decide_False by congruence.
Qed.

(** A thread without maps gets a new set, or one more reference of a set. *)
Definition no_maps (T : gmap Z thread) (a : Z) : Prop := ∀ t, T !! a = Some t → t_maps t = NULL.

Lemma held_gets T a t m :
  no_maps T a → m ≠ NULL → held (<[a := t]> T) m = (points t m + held T m)%nat.
Proof.
  intros Ha Hm. destruct (T !! a) as [t0|] eqn:Ht; [|by apply held_new].
  pose proof (held_set T a t0 t m Ht) as He. 
  assert (points t0 m = 0%nat) as Hz by (unfold points; rewrite (Ha t0 Ht); by rewrite decide_False by congruence).
  lia.
Qed.

Lemma counted_new R T a t :
  no_maps T a → t_maps t ≠ NULL → R !! t_maps t = None → counted R T →
  counted (<[t_maps t := 1]> R) (<[a := t]> T).
Proof.
  intros Ha Ht Hn [Hnull Hc]. split; [by rewrite lookup_insert_ne|]. intros m Hm.
  rewrite held_gets by done. unfold points. destruct (decide (t_maps t = m)) as [<-|Hne].
  - rewrite lookup_insert_eq. specialize (Hc _ Hm). rewrite Hn in Hc. rewrite Hc. split; [lia|done].
  - rewrite lookup_insert_ne by done. by apply Hc.
Qed.

Lemma counted_get R T a t n :
  no_maps T a → t_maps t ≠ NULL → R !! t_maps t = Some n → counted R T →
  counted (<[t_maps t := refcount_inc n]> R) (<[a := t]> T).
Proof.
  intros Ha Ht Hn [Hnull Hc]. split; [by rewrite lookup_insert_ne|]. intros m Hm.
  rewrite held_gets by done. unfold points. destruct (decide (t_maps t = m)) as [<-|Hne].
  - rewrite lookup_insert_eq. specialize (Hc _ Hm). rewrite Hn in Hc. destruct Hc as [Hpos ->].
    split; [lia|]. unfold refcount_inc, w32. rewrite Zplus_mod_idemp_l. f_equal. lia.
  - rewrite lookup_insert_ne by done. by apply Hc.
Qed.

(** What a request for the thread [v] keeps of a table at rest: the books of the
    sets, the references of every thread but [v], one of a new thread, and that
    every thread is in the table. *)
Record keeps_books (R : gmap Z Z) (M : machine_st) (ls : bucket → list Z)
    (R' : gmap Z Z) (M' : machine_st) (ls' : bucket → list Z) (v : Z) : Prop := {
  kb_counted : counted R (ma_thread M) → counted R' (ma_thread M');
  kb_refs x t : x ≠ v → ma_thread M' !! x = Some t →
    t_refcnt t = from_option t_refcnt 1 (ma_thread M !! x);
  kb_table : (∀ x, is_Some (ma_thread M !! x) → ∃ i, x ∈ ls i) →
    ∀ x, is_Some (ma_thread M' !! x) → ∃ i, x ∈ ls' i;
}.

(** The thread was in the table. *)
Lemma books_found R M ls M' v t n tgid :
  ma_thread M !! v = Some t → ma_thread M' = <[v := with_refs n (with_tgid tgid t)]> (ma_thread M) →
  keeps_books R M ls R M' ls v.
Proof.
  intros Hv HT. split; rewrite HT.
  - by eapply counted_same.
  - intros x u Hx. rewrite lookup_insert_ne by done. by intros ->.
  - intros H1 x. destruct (decide (x = v)) as [->|?]; [intros _; apply H1; by eexists|].
    rewrite lookup_insert_ne by done. apply H1.
Qed.

(** It is new, with its set. *)
Lemma books_new R M ls R' M' ls' v t i :
  ma_thread M !! v = None → ma_thread M' = <[v := t]> (ma_thread M) → t_maps t ≠ NULL →
  R !! t_maps t = None → R' = <[t_maps t := 1]> R →
  (v ∈ ls' i) → (∀ j x, x ∈ ls j → x ∈ ls' j) →
  keeps_books R M ls R' M' ls' v.
Proof.
  intros Hv HT Hm Hn -> Hin Hsub. split; rewrite HT.
  - apply counted_new; [|done|done]. intros u Hu. congruence.
  - intros x u Hx. rewrite lookup_insert_ne by done. by intros ->.
  - intros H1 x. destruct (decide (x = v)) as [->|?]; [intros _; by exists i|].
    rewrite lookup_insert_ne by done. intros [j Hj]%H1. exists j. by apply Hsub.
Qed.

(** It is new, with the set of its leader [b], which may be new too. *)
Lemma books_member R M ls R' M' ls' T2 T3 a b l t tgid tid i j :
  ma_thread M !! a = None → T2 = <[a := fresh_thread tgid tid]> (ma_thread M) → b ≠ a →
  T3 = <[a := t]> (<[b := l]> T2) → ma_thread M' = <[a := with_refs 2 t]> T3 →
  (counted R T2 → counted R' T3) →
  (∀ u, T2 !! b = Some u → l = with_tgid tgid u) → (T2 !! b = None → t_refcnt l = 1) →
  (a ∈ ls' i) → (b ∈ ls' j) → (∀ i x, x ∈ ls i → x ∈ ls' i) →
  keeps_books R M ls R' M' ls' a.
Proof.
  intros Ha -> Hba -> HT Hc Hold Hnew Hai Hbj Hsub. split; rewrite HT.
  - intros Hr. eapply (counted_same _ _ a t); [apply lookup_insert_eq|done|]. apply Hc.
    by apply counted_fresh.
  - intros x u Hx. rewrite !lookup_insert_ne by done. destruct (decide (x = b)) as [->|Hxb].
    + rewrite lookup_insert_eq. intros [= <-]. rewrite lookup_insert_ne in Hold, Hnew by done.
      destruct (ma_thread M !! b) as [u|] eqn:Hu; [|by apply Hnew]. by rewrite (Hold u eq_refl).
    + rewrite !lookup_insert_ne by done. by intros ->.
  - intros H1 x. destruct (decide (x = a)) as [->|Hxa]; [intros _; by exists i|].
    rewrite !lookup_insert_ne by done. destruct (decide (x = b)) as [->|Hxb]; [intros _; by exists j|].
    rewrite !lookup_insert_ne by done. intros [i0 Hi]%H1. exists i0. by apply Hsub.
Qed.
