(* ===== verification/ThreadsFind.v ===== *)
(** Finding or creating a thread: the rules of ____machine__findnew_thread and
    of the code it calls (src/src/machine.c, src/src/thread.c). *)
From Stdlib Require Import ZArith Lia String.
From stdpp Require Import base tactics option list numbers gmap sorting fin vector finite strings.
From S2P Require Import Prelude RbTree RbSpec RbRep RbLink RbUnlink RbIter RbSearch.
From S2P Require Import ListHead Refcount Rwsem CString Unwind Threads ThreadsInv ThreadsRefs.

Local Open Scope Z_scope.

(** The heads of the dead lists are no threads, nor memory for them. *)
Definition heads_ok (M : machine_st) : Prop :=
  ∀ x, is_Some (ma_dead M !! x) → ma_node M !! x = None ∧ (x ∉ ma_pool M).

(** The dead lists are left alone. *)
Definition dead_same (M M' : machine_st) : Prop :=
  ma_dead M' = ma_dead M ∧ (∀ i, th_dead (ma_threads M' !!! i) = th_dead (ma_threads M !!! i)) ∧
  (heads_ok M → heads_ok M').

Lemma dead_same_trans M1 M2 M3 : dead_same M1 M2 → dead_same M2 M3 → dead_same M1 M3.
Proof.
  intros (D1 & H1 & A1) (D2 & H2 & A2). split_and!; [congruence| |auto]. intros i. by rewrite H2, H1.
Qed.

Lemma dead_same_update M i f :
  (∀ b, th_dead (f b) = th_dead b) → dead_same M (update_threads i f M).
Proof.
  intros Hf. split_and!; [done| |done]. intros j. rewrite lookup_update_threads.
  by case_decide; rewrite ?Hf.
Qed.

Section findnew.
Context {S : Type} `{HS : !Store S machine_st, HO : !MapsOps S, HL : !MapsLaws S}.
Variable unw_destroy_addr_space : Z → cm S unit.
Implicit Types (s : S) (M : machine_st) (R : gmap Z Z) (ls : bucket → list Z).

Abbreviation findnew_fuel := (____machine__findnew_thread unw_destroy_addr_space).

(** Replacing the table after the maps have evolved. *)
Lemma maps_evolves_set (M : machine_st) s s' : maps_evolves s s' → maps_evolves s (with_part M s').
Proof. intros H. eapply maps_evolves_trans; [exact H|apply maps_evolves_with]. Qed.
Lemma maps_evolves_from (M : machine_st) s s' : maps_evolves (with_part M s) s' → maps_evolves s s'.
Proof. intros H. eapply maps_evolves_trans; [apply maps_evolves_with|exact H]. Qed.
Ltac evolve_steps :=
  repeat first [eassumption | apply maps_evolves_with | eapply maps_evolves_from; eassumption
    | apply maps_evolves_set].
Ltac evolve := first [solve [evolve_steps] | rewrite ?with_part_twice; evolve_steps].

(** ** Creation *)

(** Allocating a thread and linking it where its search ended. *)
Lemma create_link_wp R pend ls i tgid tid a pool t k (f : Z → cm S Z) Q M s :
  table_inv M R pend ls → thread_pool_ok M → ma_pool M = a :: pool → machine__threads tid = i →
  represents (entries_of M i) t → redblack t → inorder t = ls i →
  descend (tid_dir (ma_thread M) tid) t [] = inr k → ls i = lefts k ++ rights k →
  Forall (λ b, tid_of (ma_thread M) b < tid) (lefts k) →
  Forall (λ b, tid < tid_of (ma_thread M) b) (rights k) →
  (∀ M', table_inv M' R (a :: pend) (set_bucket i (lefts k ++ a :: rights k) ls) →
     ma_thread M' = <[a := fresh_thread tgid tid]> (ma_thread M) → ma_pool M' = pool →
     dead_same M M' → wp (f a) Q (with_part M' s)) →
  wp (th ← thread__new tgid tid;
      if negb (th =? NULL) then
        entries i (rb_link_node th (cptr k) (slot_of k));;
        entries i (rb_insert_color th);;
        f th
      else mret th) Q (with_part M s).
Proof.
  intros Hinv [Hnd Hpool] Hp Hi Ht Hrb Ho Hd Hl HL1 HR1 Hf.
  destruct (Hpool a) as [Hok Hfresh]; [rewrite Hp; left|]. pose proof Hok as [Hnz _].
  pose proof (inv_fresh Hinv a i Hfresh) as Hal.
  apply wp_bind. eapply wp_thread_new; [done|done|]. set (M1 := MachineSt _ _ _ _ _).
  rewrite (proj2 (Z.eqb_neq _ _) Hnz). simpl. apply wp_assoc, wp_bind.
  assert (@part _ _ (entries_in i) (with_part M1 s) = entries_of M1 i) as Hpart.
  { unfold entries_in, store_compose, entries_of. simpl. by rewrite part_with. }
  eapply wp_mono.
  { apply (@insert_at_hole_wp S (entries_in i) Z (tid_dir (ma_thread M) tid) a _ t k); rewrite ?Hpart.
    - eapply represents_frame; [exact Ht| |done]. intros x Hx. simpl.
      rewrite lookup_insert_ne; [done|]. rewrite Ho in Hx. by intros ->.
    - done.
    - done.
    - done.
    - simpl. rewrite lookup_insert_eq. by eexists.
    - by rewrite Ho. }
  intros [] s' (t' & r' & -> & Ht' & Hrb' & Ho' & Hm'). rewrite Hpart in Hm'.
  unfold entries_in, store_compose. simpl. rewrite part_with, with_part_twice. apply Hf.
  - simpl. apply (inv_link M R pend ls i a (fresh_thread tgid tid) (lefts k) (rights k) r' t');
      try done; [by intros []|].
    intros x Hx. rewrite Hm' by (by rewrite Ho). simpl. rewrite lookup_insert_ne; [done|].
    intros <-. apply Hx. left.
  - done.
  - done.
  - split_and!; [done| |].
    + intros j. simpl. destruct (decide (j = i)) as [->|?].
      * by rewrite vlookup_insert.
      * by rewrite vlookup_insert_ne.
    + intros Hap x Hx. simpl in *. destruct (Hap x Hx) as [Hn Hxp]. rewrite Hp in Hxp.
      apply not_elem_of_cons in Hxp as [Hxa Hxp]. split; [|done]. rewrite Hm'.
      * simpl. by rewrite lookup_insert_ne.
      * rewrite Ho, not_elem_of_cons. split; [done|]. intros Hxl. rewrite <- Ho in Hxl.
        destruct Ht as (Hrep & _). apply (rep_dom _ _ _ _ Hrep) in Hxl.
        apply elem_of_dom in Hxl as [v Hv]. simpl in Hv. congruence.
Qed.

(** The end of the creation: the caller's reference, the cache, the count. *)
Lemma register_wp R pend ls i a t' (Q : Z → S → Prop) M s :
  table_inv M R (a :: pend) ls → a ∈ ls i → (a ∉ pend) → ma_thread M !! a = Some t' →
  t_refcnt t' = 1 → t_maps t' ≠ NULL → is_Some (R !! t_maps t') →
  (t_tgid t' = t_tid t' ∨ ∃ b l, (b ∈ ls (machine__threads (t_tgid t'))) ∧ (b ∉ a :: pend) ∧
     ma_thread M !! b = Some l ∧ t_tid l = t_tgid t' ∧ t_maps l = t_maps t') →
  (∀ M', table_inv M' R pend ls → ma_thread M' = <[a := with_refs 2 t']> (ma_thread M) →
     ma_pool M' = ma_pool M → dead_same M M' → Q a (with_part M' s)) →
  wp (thread__get a;;
      set_threads i (set_last_match a);;
      set_threads i (λ b, set_nr (w32 (th_nr b + 1)) b);;
      mret a) Q (with_part M s).
Proof.
  intros Hinv Ha Hap Ht Hr Hm HR Hlead HQ.
  apply wp_bind. eapply wp_thread_get; [by eapply inv_nonnull|done|].
  apply wp_bind, wp_set_threads, wp_bind, wp_set_threads, wp_ret.
  rewrite Hr. change (refcount_inc 1) with 2. apply HQ.
  - by eapply inv_register.
  - done.
  - done.
  - eapply dead_same_trans; [|by apply dead_same_update].
    eapply dead_same_trans; [|by apply dead_same_update]. done.
Qed.

(** ** The lookup *)

(** Nothing of [M] changes but the caches. *)
Definition recached (M M' : machine_st) : Prop :=
  ma_thread M' = ma_thread M ∧ ma_pool M' = ma_pool M ∧ dead_same M M'.

Lemma recached_last M i x : recached M (update_threads i (set_last_match x) M).
Proof. split_and!; [done|done|by apply dead_same_update]. Qed.

Lemma pool_recached M M' : recached M M' → thread_pool_ok M → thread_pool_ok M'.
Proof. intros (Ht & Hp & _) [H1 H2]. split; rewrite Hp; [done|]. by rewrite Ht. Qed.

(** The cache, then the tree: what follows runs on the thread that was found,
    or at the hole. *)
Lemma lookup_wp fuel R pend ls i tgid tid (Q : Z → S → Prop) M s :
  table_inv M R pend ls →
  (∀ a, a ∈ ls i → tid_of (ma_thread M) a = tid → a ∉ pend) →
  (∀ M' th, table_inv M' R pend ls → recached M M' → th ∈ ls i →
     tid_of (ma_thread M) th = tid →
     wp (machine__update_thread_tgid unw_destroy_addr_space
           (λ tgid tid, findnew_fuel fuel (machine__threads tid) tgid tid true) th tgid;;
         thread__get th) Q (with_part M' s)) →
  (∀ M' t k, table_inv M' R pend ls → recached M M' →
     represents (entries_of M' i) t → redblack t → inorder t = ls i →
     descend (tid_dir (ma_thread M') tid) t [] = inr k → ls i = lefts k ++ rights k →
     Forall (λ b, tid_of (ma_thread M') b < tid) (lefts k) →
     Forall (λ b, tid < tid_of (ma_thread M') b) (rights k) →
     wp (create_thread unw_destroy_addr_space
           (λ tgid tid, findnew_fuel fuel (machine__threads tid) tgid tid true)
           i tgid tid (cptr k) (slot_of k)) Q (with_part M' s)) →
  wp (findnew_fuel (Datatypes.S fuel) i tgid tid true) Q (with_part M s).
Proof.
  intros Hinv Hpend Hfound Hnew. simpl. apply wp_bind, wp_get_threads, wp_bind.
  assert (∀ M', table_inv M' R pend ls → recached M M' →
    wp (r ← tid_search i tid;
        match r with
        | inl th =>
          set_threads i (set_last_match th);;
          machine__update_thread_tgid unw_destroy_addr_space
            (λ tgid tid, findnew_fuel fuel (machine__threads tid) tgid tid true) th tgid;;
          thread__get th
        | inr (parent, p) =>
          create_thread unw_destroy_addr_space
            (λ tgid tid, findnew_fuel fuel (machine__threads tid) tgid tid true)
            i tgid tid parent p
        end) Q (with_part M' s)) as Hsearch.
  { intros M' Hinv' Hre. pose proof Hre as (HT & _ & _).
    apply wp_bind. eapply wp_mono; [by apply (tid_search_wp R pend ls)|].
    intros [th|[parent p]] s' [-> Hr].
    - destruct Hr as [Hin Htid]. apply wp_bind, wp_set_threads. rewrite HT in Htid.
      apply Hfound; [|..|done|done].
      + apply inv_last; [done|]. right. split; [done|]. by apply Hpend.
      + destruct Hre as (? & ? & ?). split_and!; [done|done|].
        eapply dead_same_trans; [done|by apply dead_same_update].
    - destruct Hr as (t & k & Ht & Hrb & Ho & -> & -> & Hd & Hl & H1 & H2).
      by apply (Hnew M' t k). }
  destruct (Z.eqb_spec (th_last_match (ma_threads M !!! i)) NULL) as [Hz|Hz]; simpl.
  - apply wp_ret. apply Hsearch; [done|]. by split_and!.
  - destruct (ti_last _ _ _ _ Hinv i) as [?|[Hin Hp]]; [done|].
    destruct (ti_thread _ _ _ _ Hinv _ _ Hin) as (u & Hu & _).
    apply wp_bind. eapply wp_thread_load; [done..|].
    destruct (Z.eqb_spec (t_tid u) tid) as [He|He].
    + apply wp_ret. apply Hfound; [done| |done|].
      * by split_and!.
      * unfold tid_of. by rewrite Hu.
    + apply wp_bind, wp_set_threads, wp_ret. apply Hsearch; [|by apply recached_last].
      apply inv_last; [done|by left].
Qed.

(** A thread that was found and stays in its group, or becomes a leader. *)
Lemma found_wp R pend ls i tgid th t findnew (Q : Z → S → Prop) M s :
  table_inv M R pend ls → th ∈ ls i → ma_thread M !! th = Some t →
  tgid = t_tid t ∨ tgid = t_tgid t → t_refcnt t < 2 ^ 32 - 1 →
  (∀ M', table_inv M' R pend ls →
     ma_thread M' = <[th := with_refs (t_refcnt t + 1) (with_tgid tgid t)]> (ma_thread M) →
     ma_pool M' = ma_pool M → dead_same M M' → Q th (with_part M' s)) →
  wp (machine__update_thread_tgid unw_destroy_addr_space findnew th tgid;; thread__get th) Q
     (with_part M s).
Proof.
  intros Hinv Hth Ht Htg Hr HQ. pose proof (inv_nonnull Hinv _ _ Hth) as Hnz.
  destruct (ti_thread _ _ _ _ Hinv _ _ Hth) as (u & Hu & _ & Hru). simplify_eq.
  assert (∀ t', t' = with_tgid tgid t →
    wp (thread__get th) Q (with_part (set_threads_map (<[th := t']> (ma_thread M)) M) s)) as Hget.
  { intros t' ->. eapply wp_thread_get; [done|simpl; apply lookup_insert_eq|].
    simpl. rewrite w32_inc by lia. unfold set_threads_map. simpl. rewrite insert_insert_eq.
    apply HQ; [|done..]. eapply inv_update;
      [done|exact Hth|exact Ht|done|simpl; lia|done|simpl; naive_solver]. }
  unfold machine__update_thread_tgid. apply wp_bind, wp_bind.
  eapply wp_thread_load; [done..|].
  destruct (Z.eqb_spec tgid (t_tgid t)) as [He|He].
  - apply wp_ret. specialize (Hget t). rewrite (insert_id (ma_thread M)) in Hget by done.
    unfold set_threads_map in Hget. replace (MachineSt _ _ _ _ _) with M in Hget by by destruct M.
    apply Hget. rewrite He. by destruct t.
  - destruct Htg as [->|?]; [|done]. apply wp_bind. eapply wp_thread_store; [done..|].
    apply wp_bind. eapply wp_thread_load; [done|simpl; apply lookup_insert_eq|]. simpl.
    rewrite Z.eqb_refl. apply wp_ret. by apply Hget.
Qed.

(** ** Leaders *)

(** The thread [v] of bucket [i] was found. *)
Definition found_in M M' ls (i : bucket) (tgid tid v : Z) : Prop :=
  ∃ t, v ∈ ls i ∧ ma_thread M !! v = Some t ∧ t_tid t = tid ∧
    ma_thread M' = <[v := with_refs (t_refcnt t + 1) (with_tgid tgid t)]> (ma_thread M) ∧
    ma_pool M' = ma_pool M.

(** The thread [v] of bucket [i] was created, with the maps [m]. *)
Definition created_in M M' ls ls' (i : bucket) (tgid tid m v : Z) : Prop :=
  ∃ pool l1 l2, ma_pool M = v :: pool ∧ ma_pool M' = pool ∧ ls i = l1 ++ l2 ∧
    ls' = set_bucket i (l1 ++ v :: l2) ls ∧ (∀ a, a ∈ ls i → tid_of (ma_thread M) a ≠ tid) ∧
    ma_thread M' = <[v := Thread m tgid tid "" 0 false 2]> (ma_thread M).

Lemma pool_next M M' a pool t :
  thread_pool_ok M → ma_pool M = a :: pool → ma_pool M' = pool →
  ma_thread M' = <[a := t]> (ma_thread M) → thread_pool_ok M'.
Proof.
  intros [Hn Hp] He He' Ht. rewrite He in Hn, Hp. apply NoDup_cons in Hn as [Ha Hn].
  split; rewrite He'; [done|]. intros b Hb. destruct (Hp b) as [? Hf]; [by right|]. split; [done|].
  rewrite Ht, lookup_insert_ne; [done|]. by intros ->.
Qed.

Lemma pool_update M M' a t t' :
  thread_pool_ok M → ma_pool M' = ma_pool M → ma_thread M !! a = Some t →
  ma_thread M' = <[a := t']> (ma_thread M) → thread_pool_ok M'.
Proof.
  intros [Hn Hp] He Ha Ht. split; rewrite He; [done|]. intros b Hb.
  destruct (Hp b Hb) as [? Hf]. split; [done|].
  rewrite Ht, lookup_insert_ne; [done|]. intros ->. congruence.
Qed.

Lemma hole_no_tid T tid l1 l2 a :
  Forall (λ b, tid_of T b < tid) l1 → Forall (λ b, tid < tid_of T b) l2 →
  a ∈ l1 ++ l2 → tid_of T a ≠ tid.
Proof.
  rewrite !Forall_forall. intros H1 H2 [Ha|Ha]%elem_of_app; [apply H1 in Ha|apply H2 in Ha]; lia.
Qed.

(** The thread is in the table, or there is memory for [n] threads and a set of
    maps. *)
Definition can_create M s ls (tid : Z) (n : nat) : Prop :=
  (∃ a, a ∈ ls (machine__threads tid) ∧ tid_of (ma_thread M) a = tid) ∨
  (n ≤ length (ma_pool M))%nat ∧ (0 < maps_room s)%nat.

Definition room_for M ls (i : bucket) (tid : Z) : Prop :=
  ∀ a t, a ∈ ls i → ma_thread M !! a = Some t → t_tid t = tid → t_refcnt t < 2 ^ 32 - 1.

Lemma findnew_leader_wp fuel pend ls i tid M s :
  i = machine__threads tid →
  table_inv M (maps_refs s) pend ls → thread_pool_ok M → can_create M s ls tid 1 →
  (∀ a, a ∈ ls i → tid_of (ma_thread M) a = tid → a ∉ pend) →
  (∀ a, a ∈ pend → is_Some (ma_thread M !! a)) → room_for M ls i tid →
  wp (findnew_fuel (Datatypes.S fuel) i tid tid true)
     (λ v s', ∃ M' ls', s' = with_part M' s' ∧ maps_evolves s s' ∧
        table_inv M' (maps_refs s') pend ls' ∧ thread_pool_ok M' ∧ dead_same M M' ∧
        (ls' = ls ∧ maps_refs s' = maps_refs s ∧ found_in M M' ls i tid tid v ∨
         ∃ m, maps_refs s !! m = None ∧ maps_refs s' = <[m := 1]> (maps_refs s) ∧
           created_in M M' ls ls' i tid tid m v)) (with_part M s).
Proof.
  intros Hi Hinv Hpool Hcan Hpend Hplive Hrf. apply (lookup_wp fuel (maps_refs s) pend ls); [done..| |].
  - intros M1 th Hinv1 Hre Hth Htid. pose proof Hre as (HT & Hp1 & Hd1).
    destruct (ti_thread _ _ _ _ Hinv1 _ _ Hth) as (t & Ht & _).
    unfold tid_of in Htid. rewrite HT in Ht. rewrite Ht in Htid. simpl in Htid.
    eapply (found_wp _ _ _ _ _ _ t); [exact Hinv1|exact Hth|by rewrite HT|by left|by eapply Hrf|].
    intros M2 Hinv2 HT2 Hp2 Hd2. exists M2, ls. rewrite with_part_twice, maps_refs_with.
    split_and!; [done|apply maps_evolves_with|done| |by eapply dead_same_trans|].
    + eapply (pool_update M1 M2); [by eapply pool_recached|done|by rewrite HT|done].
    + left. split_and!; [done..|]. exists t. rewrite HT2, HT, Hp2. done.
  - intros M1 t k Hinv1 Hre Ht Hrb Ho Hd Hl HL1 HR1. pose proof Hre as (HT & Hp1 & Hd1).
    destruct Hcan as [(b & Hb & Hbt)|[Hlen Hroom]].
    { exfalso. rewrite <- Hi in Hb. revert Hbt. rewrite <- HT.
      apply (hole_no_tid _ _ (lefts k) (rights k)); [done|done|by rewrite <- Hl]. }
    destruct (ma_pool M) as [|a pool] eqn:Hp; [simpl in Hlen; lia|].
    pose proof (pool_recached _ _ Hre Hpool) as Hpool1.
    assert (∀ j, a ∉ ls j) as Hal.
    { intros j. eapply (inv_fresh Hinv1), Hpool1. rewrite Hp1. left. }
    eapply (create_link_wp _ pend ls i tid tid a pool t k); [done..|].
    intros M2 Hinv2 HT2 Hp2 Hd2. set (ls' := set_bucket i (lefts k ++ a :: rights k) ls) in *.
    assert (a ∈ ls' i) as Hain by (subst ls'; rewrite set_bucket_eq; set_solver).
    assert (a ≠ NULL) as Hnz by by eapply inv_nonnull.
    assert (ma_thread M2 !! a = Some (fresh_thread tid tid)) as Ha2 by (by rewrite HT2, lookup_insert_eq).
    unfold thread__init_maps. apply wp_bind, wp_bind.
    eapply wp_thread_load; [done..|]. cbv zeta. simpl t_tgid. simpl t_tid. rewrite Z.eqb_refl.
    apply wp_bind, wp_bind. eapply wp_mono.
    { apply maps_new_wp. by rewrite maps_room_with. }
    intros m s1 (Hm & Hmn & Hmr & Hpart & _ & Hev). rewrite maps_refs_with in Hmn, Hmr.
    rewrite part_with in Hpart. rewrite <- (with_part_id s1), Hpart.
    eapply wp_thread_store; [done..|]. apply wp_bind.
    eapply wp_thread_load; [done|simpl; apply lookup_insert_eq|]. apply wp_ret.
    simpl t_maps. rewrite (proj2 (Z.eqb_neq m NULL) Hm). simpl.
    eapply (register_wp (maps_refs s1) pend ls' i a (Thread m tid tid "" 0 false 1)).
    + eapply inv_update; [|exact Hain|exact Ha2|done|simpl; lia|done|left; left].
      eapply inv_refs; [|exact Hinv2]. intros x Hx. rewrite Hmr. by apply some_insert.
    + done.
    + intros [u Hu]%Hplive. destruct Hpool as [_ Hpl]. destruct (Hpl a) as [_ ?]; [rewrite Hp; left|].
      congruence.
    + simpl. apply lookup_insert_eq.
    + done.
    + done.
    + simpl. rewrite Hmr, lookup_insert_eq. by eexists.
    + by left.
    + intros M3 Hinv3 HT3 Hp3 Hd3. exists M3, ls'.
      rewrite with_part_twice, maps_refs_with. simpl in HT3. rewrite !insert_insert_eq in HT3.
      assert (ma_thread M3 = <[a := Thread m tid tid "" 0 false 2]> (ma_thread M)) as HT3'.
      { rewrite HT3, HT2, HT, !insert_insert_eq. done. }
      split_and!; [done|solve [evolve]|done|eapply (pool_next M M3 a pool);
        [done|done|simpl in Hp3; congruence|exact HT3']|..].
      * eapply dead_same_trans; [exact Hd1|]. eapply dead_same_trans; [exact Hd2|exact Hd3].
      * right. exists m. split_and!; [done..|]. exists pool, (lefts k), (rights k).
        split_and!; [done|simpl in Hp3; congruence|done|done| |done].
        intros b. rewrite Hl, <- HT. by apply hole_no_tid.
Qed.

(** What a lookup of a leader gives, found or created. *)
Lemma leader_summary M M' R R' ls ls' pend i tid v :
  table_inv M R pend ls → thread_pool_ok M → table_inv M' R' pend ls' → (v ∉ pend) →
  (ls' = ls ∧ R' = R ∧ found_in M M' ls i tid tid v ∨
   ∃ m, R !! m = None ∧ R' = <[m := 1]> R ∧ created_in M M' ls ls' i tid tid m v) →
  v ∈ ls' i ∧ (∀ j a, a ∈ ls j → a ∈ ls' j) ∧
  (∀ m, is_Some (R !! m) → is_Some (R' !! m)) ∧
  ∃ l, ma_thread M' !! v = Some l ∧ t_tid l = tid ∧ t_tgid l = tid ∧ 2 ≤ t_refcnt l < 2 ^ 32 ∧
    t_maps l ≠ NULL ∧ is_Some (R' !! t_maps l) ∧
    ma_thread M' = <[v := l]> (ma_thread M) ∧
    (∀ t, ma_thread M !! v = Some t →
       t_tid t = tid ∧ l = with_refs (t_refcnt t + 1) (with_tgid tid t)) ∧
    (length (ma_pool M) ≤ Datatypes.S (length (ma_pool M')))%nat.
Proof.
  intros Hinv Hpool Hinv' Hvp Hcase.
  assert (∃ l, v ∈ ls' i ∧ (∀ j a, a ∈ ls j → a ∈ ls' j) ∧ t_tid l = tid ∧ t_tgid l = tid ∧
    (∀ m, is_Some (R !! m) → is_Some (R' !! m)) ∧
    2 ≤ t_refcnt l ∧ ma_thread M' = <[v := l]> (ma_thread M) ∧
    (∀ t, ma_thread M !! v = Some t →
       t_tid t = tid ∧ l = with_refs (t_refcnt t + 1) (with_tgid tid t)) ∧
    (length (ma_pool M) ≤ Datatypes.S (length (ma_pool M')))%nat) as
    (l & Hv & Hsub & Htid & Htg & HRs & Hr & HT & Hold & Hlen).
  { destruct Hcase as [(-> & -> & t & Hv & Ht & Htid & HT & Hp)|(m & Hm & -> & Hc)].
    - destruct (ti_thread _ _ _ _ Hinv _ _ Hv) as (u & Hu & _ & Hr). simplify_eq.
      exists (with_refs (t_refcnt t + 1) (with_tgid (t_tid t) t)).
      split_and!; try done; [simpl; lia| |rewrite Hp; lia].
      intros u Hu. by simplify_eq.
    - destruct Hc as (pool & l1 & l2 & Hp & Hp' & Hl & -> & Hno & HT).
      exists (Thread m tid tid "" 0 false 2). split_and!; try done.
      + rewrite set_bucket_eq. set_solver.
      + intros j a Ha. unfold set_bucket. case_decide; [subst; rewrite Hl in Ha; set_solver|done].
      + intros x. apply some_insert.
      + intros t Ht. destruct Hpool as [_ Hpool].
        destruct (Hpool v) as [_ ?]; [rewrite Hp; left|]. congruence.
      + rewrite Hp, Hp'. simpl. lia. }
  assert (ma_thread M' !! v = Some l) as Hl by (by rewrite HT, lookup_insert_eq).
  destruct (ti_thread _ _ _ _ Hinv' _ _ Hv) as (u & Hu & _ & Hru). simplify_eq.
  destruct (ti_group _ _ _ _ Hinv' _ _ _ Hv Hvp Hl) as (Hm & HRm & _).
  split_and!; [done..|]. exists l. split_and!; done || lia.
Qed.

Lemma created_fresh M M' ls ls' i tgid tid m v :
  thread_pool_ok M → created_in M M' ls ls' i tgid tid m v → ma_thread M !! v = None.
Proof.
  intros [_ Hp] (pool & l1 & l2 & He & _). apply Hp. rewrite He. left.
Qed.

Lemma leader_books M M' R R' ls ls' pend i tid v :
  thread_pool_ok M → table_inv M' R' pend ls' → (v ∉ pend) →
  (ls' = ls ∧ R' = R ∧ found_in M M' ls i tid tid v ∨
   ∃ m, R !! m = None ∧ R' = <[m := 1]> R ∧ created_in M M' ls ls' i tid tid m v) →
  keeps_books R M ls R' M' ls' v ∧
  (ma_thread M !! v = None → ∀ l, ma_thread M' !! v = Some l → t_refcnt l = 2).
Proof.
  intros Hpool Hinv' Hvp [(-> & -> & t & Hv & Ht & Htid & HT & Hp)|(m & Hm & -> & Hc)].
  - split; [by eapply books_found|]. intros Hn. congruence.
  - pose proof (created_fresh _ _ _ _ _ _ _ _ _ Hpool Hc) as Hfr.
    destruct Hc as (pool & l1 & l2 & Hp & Hp' & Hl & -> & Hno & HT).
    assert (v ∈ set_bucket i (l1 ++ v :: l2) ls i) as Hin by (rewrite set_bucket_eq; set_solver).
    split.
    + eapply (books_new _ _ _ _ _ _ _ (Thread m tid tid "" 0 false 2)); [done|done| |done|done|done|].
      * destruct (ti_group _ _ _ _ Hinv' _ _ (Thread m tid tid "" 0 false 2) Hin Hvp) as [Hmz _];
          [by rewrite HT, lookup_insert_eq|done].
      * intros j x Hx. unfold set_bucket. case_decide; [subst; rewrite Hl in Hx; set_solver|done].
    + intros _ l. rewrite HT, lookup_insert_eq. by intros [= <-].
Qed.

(** ** Members of a group *)

Abbreviation findnew n :=
  (λ tgid tid, findnew_fuel n (machine__threads tid) tgid tid true).

(** The end of the creation of a thread whose maps are those of its leader [b]. *)
Lemma init_maps_member_wp pend ls i a tgid tid (Q : Z → S → Prop) M s :
  tgid ≠ tid →
  table_inv M (maps_refs s) (a :: pend) ls → thread_pool_ok M → can_create M s ls tgid 1 →
  a ∈ ls i → (a ∉ pend) →
  ma_thread M !! a = Some (fresh_thread tgid tid) →
  (∀ b, b ∈ ls (machine__threads tgid) → tid_of (ma_thread M) b = tgid → b ∉ a :: pend) →
  (∀ b, b ∈ pend → is_Some (ma_thread M !! b)) → room_for M ls (machine__threads tgid) tgid →
  (∀ M' ls' s' b l m, s' = with_part M' s' → maps_evolves s s' → table_inv M' (maps_refs s') (a :: pend) ls' →
     thread_pool_ok M' → dead_same M M' → (∀ j x, x ∈ ls j → x ∈ ls' j) →
     (b ∈ ls' (machine__threads tgid)) → (b ∉ a :: pend) →
     m ≠ NULL → is_Some (maps_refs s' !! m) →
     ma_thread M' = <[a := Thread m tgid tid "" 0 false 1]> (<[b := l]> (ma_thread M)) →
     t_tid l = tgid → t_maps l = m → 0 < t_refcnt l < 2 ^ 32 - 1 →
     (∀ t, ma_thread M !! b = Some t →
        t_tid t = tgid ∧ l = with_tgid tgid t) →
     (length (ma_pool M) ≤ Datatypes.S (length (ma_pool M')))%nat →
     (counted (maps_refs s) (ma_thread M) → counted (maps_refs s') (ma_thread M')) →
     (ma_thread M !! b = None → t_refcnt l = 1) → Q 0 s') →
  wp (thread__init_maps unw_destroy_addr_space (findnew 1) a) Q (with_part M s).
Proof.
  intros Hne Hinv Hpool Hcan Ha Hap Hta Hpend Hplive Hrf HQ.
  assert (a ≠ NULL) as Hanz by by eapply inv_nonnull.
  unfold thread__init_maps. apply wp_bind. eapply wp_thread_load; [done..|]. cbv zeta.
  simpl t_tgid. simpl t_tid. rewrite (proj2 (Z.eqb_neq tgid tid) Hne).
  apply wp_bind, wp_bind. eapply wp_mono.
  { apply (findnew_leader_wp 0 (a :: pend) ls (machine__threads tgid) tgid M s); try done.
    intros b [->|Hb]%elem_of_cons; [by eexists|by apply Hplive]. }
  intros b s1 (M1 & ls1 & -> & Hev1 & Hinv1 & Hpool1 & Hd1 & Hcase). rewrite maps_refs_with in Hinv1, Hcase.
  assert (b ∉ a :: pend) as Hbp.
  { destruct Hcase as [(_ & _ & t & Hb & Ht & Htid & _)|(m & _ & _ & pool & l1 & l2 & Hp & _)].
    - apply Hpend; [done|]. unfold tid_of. by rewrite Ht.
    - destruct Hpool as [_ Hf]. destruct (Hf b) as [_ ?]; [rewrite Hp; left|].
      intros [->|Hb]%elem_of_cons; [congruence|]. destruct (Hplive b Hb). congruence. }
  destruct (leader_summary _ _ _ _ _ _ _ _ _ _ Hinv Hpool Hinv1 Hbp Hcase) as
    (Hb & Hsub & HRs & l & Hl & Htid & Htg & Hr & Hm & [n HRm] & HT & Hold & Hlen).
  destruct (leader_books _ _ _ _ _ _ _ _ _ _ Hpool Hinv1 Hbp Hcase) as [Hbooks Hnew].
  assert (b ≠ NULL) as Hbnz by by eapply inv_nonnull.
  assert (a ≠ b) as Hab by (intros ->; apply Hbp; left).
  rewrite (proj2 (Z.eqb_neq b NULL) Hbnz). simpl.
  apply wp_bind. eapply wp_thread_load; [done..|]. apply wp_bind. eapply wp_mono.
  { eapply maps_get_wp; [done|]. by rewrite maps_refs_with. }
  intros m s2 (-> & Hmr & Hpart & _ & Hev2). rewrite maps_refs_with in Hmr. rewrite part_with in Hpart.
  rewrite <- (with_part_id s2), Hpart. apply wp_bind.
  eapply (wp_thread_store a _ (fresh_thread tgid tid)); [done|by rewrite HT, lookup_insert_ne|].
  eapply (wp_thread_put _ b l); [done|simpl; by rewrite lookup_insert_ne| |].
  { rewrite w32_dec; lia. }
  apply wp_bind. eapply wp_thread_load;
    [done|simpl; rewrite lookup_insert_ne by done; apply lookup_insert_eq|]. apply wp_ret.
  simpl t_maps. rewrite (proj2 (Z.eqb_neq _ NULL) Hm). simpl.
  rewrite w32_dec by lia.
  eapply (HQ _ ls1 _ b (with_refs (t_refcnt l - 1) l) (t_maps l)).
  - by rewrite with_part_twice.
  - eapply maps_evolves_trans; [exact Hev1|]. evolve.
  - rewrite maps_refs_with. set (T1 := <[a := _]> (ma_thread M1)).
    assert (T1 !! b = Some l) as Hl1 by (subst T1; by rewrite lookup_insert_ne).
    apply (inv_update (set_threads_map T1 M1) _ _ _ (machine__threads tgid) b l);
      [|done|done|done|simpl; lia|done|right; simpl; tauto].
    eapply (inv_update M1); [|by apply Hsub|by rewrite HT, lookup_insert_ne|done|simpl; lia|done|left; left].
    eapply inv_refs; [|exact Hinv1]. intros x Hx. rewrite Hmr. by apply some_insert.
  - set (T1 := <[a := _]> (ma_thread M1)).
    assert (T1 !! b = Some l) as Hl1 by (subst T1; by rewrite lookup_insert_ne).
    eapply (pool_update (set_threads_map T1 M1)); [|done|done|done].
    eapply (pool_update M1); [done|done|by rewrite HT, lookup_insert_ne|done].
  - done.
  - done.
  - done.
  - done.
  - done.
  - rewrite maps_refs_with, Hmr, lookup_insert_eq. by eexists.
  - simpl. rewrite HT. rewrite (insert_insert_ne _ b a) by done. by rewrite !insert_insert_eq.
  - done.
  - done.
  - simpl. lia.
  - intros t Ht. destruct (Hold t Ht) as [? ->]. split; [done|].
    simpl. rewrite Z.add_simpl_r. by destruct t.
  - done.
  - intros Hc. apply (kb_counted _ _ _ _ _ _ _ Hbooks) in Hc. rewrite maps_refs_with, Hmr. simpl.
    assert (ma_thread M1 !! a = Some (fresh_thread tgid tid)) as Ha1 by (by rewrite HT, lookup_insert_ne).
    eapply (counted_same _ _ b l); [by rewrite lookup_insert_ne|done|].
    apply (counted_get _ _ a (Thread (t_maps l) tgid tid "" 0 false 1) n); [|done|done|done].
    intros u Hu. rewrite Ha1 in Hu. by injection Hu as <-.
  - intros Hn. simpl. rewrite (Hnew Hn l Hl). done.
Qed.

(** ** Every thread *)

(** What a request for thread [tid] of group [tgid] leaves: the thread it
    returns was in the table, or is new; the others stay (a thread asked for as
    a leader becomes one). *)
Definition findnew_post M M' R' ls ls' (tgid tid v : Z) : Prop :=
  table_inv M' R' [] ls' ∧ thread_pool_ok M' ∧ dead_same M M' ∧
  (v ∈ ls' (machine__threads tid)) ∧ (∀ i a, a ∈ ls i → a ∈ ls' i) ∧
  (∀ i a t, a ∈ ls i → a ≠ v → ma_thread M !! a = Some t →
     ma_thread M' !! a = Some t ∨
     t_tid t = tgid ∧ ma_thread M' !! a = Some (with_tgid tgid t)) ∧
  (v ∈ ls (machine__threads tid) ∧ ls' = ls ∧ ma_pool M' = ma_pool M ∧
     (∃ t, ma_thread M !! v = Some t ∧ t_tid t = tid ∧
        ma_thread M' !! v = Some (with_refs (t_refcnt t + 1) (with_tgid tgid t)))
   ∨ (∀ a, a ∈ ls (machine__threads tid) → tid_of (ma_thread M) a ≠ tid) ∧
     (∃ pool, ma_pool M = v :: pool ∧ (length pool ≤ Datatypes.S (length (ma_pool M')))%nat) ∧
     ∃ m, ma_thread M' !! v = Some (Thread m tgid tid "" 0 false 2)).

(** The request makes sense for the table: a thread it finds is of that group or
    asked for as a leader, and the counts of the threads it takes a reference
    of are not at their maximum. *)
Definition request_ok M ls (tgid tid : Z) : Prop :=
  (∀ i a t, a ∈ ls i → ma_thread M !! a = Some t → t_tid t = tid →
     t_refcnt t < 2 ^ 32 - 1 ∧ (tgid = tid ∨ t_tgid t = tgid)) ∧
  ((∃ a, a ∈ ls (machine__threads tid) ∧ tid_of (ma_thread M) a = tid) ∨
   ∀ i a t, a ∈ ls i → ma_thread M !! a = Some t → t_tid t = tgid → t_refcnt t < 2 ^ 32 - 1).

Lemma created_post R' M M' ls ls' tgid tid i a pool l1 l2 m :
  i = machine__threads tid → thread_pool_ok M → ma_pool M = a :: pool →
  ls i = l1 ++ l2 → (∀ x, x ∈ ls i → tid_of (ma_thread M) x ≠ tid) →
  table_inv M' R' [] ls' → thread_pool_ok M' → dead_same M M' →
  (∀ j x, x ∈ set_bucket i (l1 ++ a :: l2) ls j → x ∈ ls' j) →
  (length pool ≤ Datatypes.S (length (ma_pool M')))%nat →
  ma_thread M' !! a = Some (Thread m tgid tid "" 0 false 2) →
  (∀ x u, x ≠ a → ma_thread M !! x = Some u →
     ma_thread M' !! x = Some u ∨ t_tid u = tgid ∧ ma_thread M' !! x = Some (with_tgid tgid u)) →
  findnew_post M M' R' ls ls' tgid tid a.
Proof.
  intros -> Hpool Hp Hl Hno Hinv Hpool' Hd Hsub Hlen Ha HT.
  assert (∀ j x, x ∈ ls j → x ∈ ls' j) as Hsub'.
  { intros j x Hx. apply Hsub. unfold set_bucket. case_decide; [subst; rewrite Hl in Hx; set_solver|done]. }
  split_and!; try done.
  - apply Hsub. rewrite set_bucket_eq. set_solver.
  - intros j x u Hx Hxa Hu. by apply HT.
  - right. split_and!; [done|by exists pool|]. by exists m.
Qed.

(** A leader. *)
Lemma findnew_self_wp ls tid M s :
  table_inv M (maps_refs s) [] ls → thread_pool_ok M → can_create M s ls tid 2 →
  request_ok M ls tid tid →
  wp (__machine__findnew_thread unw_destroy_addr_space tid tid)
     (λ v s', ∃ ls', findnew_post M (part s') (maps_refs s') ls ls' tid tid v ∧
        keeps_books (maps_refs s) M ls (maps_refs s') (part s') ls' v ∧
        maps_evolves s s') (with_part M s).
Proof.
  intros Hinv Hpool Hcan Hreq. eapply wp_mono.
  { apply (findnew_leader_wp 1 [] ls (machine__threads tid) tid M s); try done.
    - destruct Hcan as [?|[? ?]]; [by left|right; split; [lia|done]].
    - intros ? _ _. apply not_elem_of_nil.
    - intros ? []%not_elem_of_nil.
    - intros a t Ha Ht Htid. by apply (proj1 Hreq _ _ _ Ha Ht Htid). }
  intros v s' (M' & ls' & -> & Hev & Hinv' & Hpool' & Hd & Hcase).
  exists ls'. rewrite part_with. split; [|split; [|solve [evolve]]].
  2: { eapply (leader_books M M'); [done|exact Hinv'|apply not_elem_of_nil|exact Hcase]. }
  destruct Hcase as [(-> & Hr & t & Hv & Ht & Htid & HT & Hp)|(m & _ & _ & Hc)].
  - split_and!; try done.
    + intros i a u Ha Hne Hu. left. by rewrite HT, lookup_insert_ne.
    + left. split_and!; try done. exists t. by rewrite HT, lookup_insert_eq.
  - destruct Hc as (pool & l1 & l2 & Hp & Hp' & Hl & -> & Hno & HT).
    eapply (created_post _ _ _ _ _ _ _ _ _ pool l1 l2 m); try done.
    + rewrite Hp'. lia.
    + by rewrite HT, lookup_insert_eq.
    + intros x u Hx Hu. left. by rewrite HT, lookup_insert_ne.
Qed.

Lemma findnew_wp ls tgid tid M s :
  table_inv M (maps_refs s) [] ls → thread_pool_ok M → can_create M s ls tid 2 →
  request_ok M ls tgid tid →
  wp (__machine__findnew_thread unw_destroy_addr_space tgid tid)
     (λ v s', ∃ ls', findnew_post M (part s') (maps_refs s') ls ls' tgid tid v ∧
        keeps_books (maps_refs s) M ls (maps_refs s') (part s') ls' v ∧
        maps_evolves s s') (with_part M s).
Proof.
  intros Hinv Hpool Hcan Hreq.
  destruct (decide (tgid = tid)) as [->|Hne]; [by apply findnew_self_wp|].
  unfold __machine__findnew_thread. set (i := machine__threads tid).
  apply (lookup_wp 1 (maps_refs s) [] ls); [done|by intros ? _ _; apply not_elem_of_nil|..].
  - intros M1 th Hinv1 Hre Hth Htid. pose proof Hre as (HT & Hp1 & Hd1).
    destruct (ti_thread _ _ _ _ Hinv1 _ _ Hth) as (t & Ht & _).
    unfold tid_of in Htid. rewrite HT in Ht. rewrite Ht in Htid. simpl in Htid.
    destruct (proj1 Hreq _ _ _ Hth Ht Htid) as [Hr Hg].
    eapply (found_wp _ _ _ _ _ _ t);
      [exact Hinv1|exact Hth|by rewrite HT|destruct Hg; [left|right]; congruence|done|].
    intros M2 Hinv2 HT2 Hp2 Hd2. exists ls.
    rewrite part_with, maps_refs_with. rewrite HT in HT2. split; [|split; [|solve [evolve]]].
    2: { by eapply books_found. }
    split_and!; [done| |by eapply dead_same_trans|done|done|..].
    + eapply (pool_update M1 M2); [by eapply pool_recached|done|by rewrite HT|by rewrite HT].
    + intros j a u Ha Hna Hu. left. by rewrite HT2, lookup_insert_ne.
    + left. split_and!; [done|done|congruence|]. exists t. by rewrite HT2, lookup_insert_eq.
  - intros M1 t k Hinv1 Hre Ht Hrb Ho Hd Hl HL1 HR1. pose proof Hre as (HT & Hp1 & Hd1).
    assert (¬ ∃ b, b ∈ ls i ∧ tid_of (ma_thread M) b = tid) as Hnone.
    { intros (b & Hb & Hbt). revert Hbt. rewrite <- HT.
      apply (hole_no_tid _ _ (lefts k) (rights k)); [done|done|by rewrite <- Hl]. }
    destruct Hcan as [?|[Hlen Hroom]]; [done|]. destruct Hreq as [_ [?|Hlead]]; [done|].
    destruct (ma_pool M) as [|a pool] eqn:Hp; [simpl in Hlen; lia|]. simpl in Hlen.
    pose proof (pool_recached _ _ Hre Hpool) as Hpool1.
    assert (∀ j, a ∉ ls j) as Hal.
    { intros j. eapply (inv_fresh Hinv1), Hpool1. rewrite Hp1. left. }
    eapply (create_link_wp _ [] ls i tgid tid a pool t k); [done..|].
    intros M2 Hinv2 HT2 Hp2 Hd2. set (ls1 := set_bucket i (lefts k ++ a :: rights k) ls) in *.
    assert (a ∈ ls1 i) as Hain by (subst ls1; rewrite set_bucket_eq; set_solver).
    assert (∀ j x, x ∈ ls1 j → x = a ∨ x ∈ ls j) as Hin1.
    { intros j x. subst ls1. unfold set_bucket. case_decide; [subst j|by right].
      rewrite Hl, !elem_of_app, elem_of_cons. tauto. }
    rewrite HT in HT2.
    assert (ma_thread M2 !! a = Some (fresh_thread tgid tid)) as Ha2 by (by rewrite HT2, lookup_insert_eq).
    assert (∀ x u, x ≠ a → ma_thread M2 !! x = Some u ↔ ma_thread M !! x = Some u) as Hx2.
    { intros x u Hx. by rewrite HT2, lookup_insert_ne. }
    apply wp_bind.
    apply (init_maps_member_wp [] ls1 i a tgid tid); [done|done| | |done| |done| | | |].
    + eapply pool_next; [done|done|done|by rewrite HT].
    + right. rewrite Hp2. split; [lia|done].
    + apply not_elem_of_nil.
    + intros b Hb Htb. intros ->%list_elem_of_singleton. unfold tid_of in Htb. rewrite Ha2 in Htb. done.
    + intros ? []%not_elem_of_nil.
    + intros b u Hb Hu Htu. destruct (Hin1 _ _ Hb) as [->|Hb']; [rewrite Ha2 in Hu; injection Hu as <-; simpl in Htu; congruence|].
      apply (Hlead _ b u Hb'); [|done]. apply Hx2; [|done]. intros ->. by apply (Hal (machine__threads tgid)).
    + intros M3 ls3 s3 b l m -> Hev3 Hinv3 Hpool3 Hd3 Hsub Hb Hbp Hm HRm HT3 Htid Hlm Hr Hold Hlen3 Hcnt Hone.
      rewrite maps_refs_with in Hinv3, HRm. simpl.
      apply not_elem_of_cons in Hbp as [Hba _].
      eapply (register_wp (maps_refs s3) [] ls3 i a (Thread m tgid tid "" 0 false 1));
        [done|by apply Hsub|apply not_elem_of_nil|by rewrite HT3, lookup_insert_eq|done|done|done| |].
      { right. exists b, l. split_and!; [done|by apply not_elem_of_cons; split; [|apply not_elem_of_nil]| |done|done].
        by rewrite HT3, lookup_insert_ne, lookup_insert_eq by (by apply not_eq_sym). }
      intros M4 Hinv4 HT4 Hp4 Hd4. exists ls3.
      rewrite part_with, maps_refs_with. rewrite !maps_refs_with in Hcnt.
      split; [|split; [|rewrite <- (with_part_twice M4 M3 s3); by apply maps_evolves_set]].
      2: { eapply (books_member _ _ _ _ _ _ _ _ a b); [|exact HT2|exact Hba|exact HT3|exact HT4|
             exact Hcnt|intros u Hu; by apply Hold|exact Hone|by apply Hsub|exact Hb|].
           - destruct Hpool as [_ Hf]. apply Hf. rewrite Hp. left.
           - intros j x Hx. apply Hsub. subst ls1. unfold set_bucket.
             case_decide; [subst; rewrite Hl in Hx; set_solver|done]. }
      eapply (created_post _ _ _ _ _ _ _ i _ pool (lefts k) (rights k) m); try done.
      * intros x. rewrite Hl, <- HT. by apply hole_no_tid.
      * eapply (pool_update M3); [done|done|by rewrite HT3, lookup_insert_eq|done].
      * eapply dead_same_trans; [exact Hd1|]. eapply dead_same_trans; [exact Hd2|].
        by eapply dead_same_trans.
      * rewrite Hp2 in Hlen3. by rewrite Hp4.
      * by rewrite HT4, lookup_insert_eq.
      * intros x u Hx Hu. rewrite HT4, HT3, !lookup_insert_ne by done.
        destruct (decide (x = b)) as [->|Hxb].
        { rewrite lookup_insert_eq. right. apply Hx2 in Hu; [|done].
          by destruct (Hold u Hu) as [? ->]. }
        left. rewrite lookup_insert_ne by done. by apply Hx2.
Qed.

(** The entry point takes the lock of the bucket. *)
Lemma machine_findnew_wp lock ls tgid tid s :
  table_inv (part s) (maps_refs s) [] ls → thread_pool_ok (part s) →
  can_create (part s) s ls tid 2 → request_ok (part s) ls tgid tid →
  wp (machine__findnew_thread unw_destroy_addr_space lock tgid tid)
     (λ v s', ∃ ls', findnew_post (part s) (part s') (maps_refs s') ls ls' tgid tid v ∧
        keeps_books (maps_refs s) (part s) ls (maps_refs s') (part s') ls' v ∧
        maps_evolves s s') s.
Proof.
  intros H1 H2 H3 H4. unfold machine__findnew_thread, down_write, up_write. simpl.
  apply wp_bind, wp_ret, wp_bind.
  pose proof (findnew_wp ls tgid tid (part s) s H1 H2 H3 H4) as Hw. rewrite with_part_id in Hw.
  eapply wp_mono; [exact Hw|]. intros v s' Hpost. by apply wp_bind, wp_ret, wp_ret.
Qed.
End findnew.
