(* ===== verification/DeadList.v ===== *)
(** The dead lists of a machine (src/src/machine.c, thread.h): list code on the
    nodes of the union of [struct thread] and on the heads of the buckets. *)
From Stdlib Require Import ZArith Lia String List.
From stdpp Require Import base tactics option list numbers gmap sorting functions fin vector finite strings.
From S2P Require Import Prelude RbTree ListHead ListRep CString Unwind Threads.

Local Open Scope Z_scope.

(** No dead-list head is a thread. *)
Definition heads_apart (M : machine_st) : Prop :=
  ∀ x, is_Some (ma_dead M !! x) → ma_node M !! x = None.

(** The memory the list code works on. *)
Definition links (M : machine_st) : list_mem := ma_dead M ∪ as_nodes (ma_node M).

Definition with_nodes (N : gmap Z rb_node) (D : list_mem) (M : machine_st) : machine_st :=
  MachineSt N D (ma_thread M) (ma_threads M) (ma_pool M).

Lemma lookup_as_nodes N x :
  as_nodes N !! x = (λ n, ListHead (rb_parent_color n) (rb_right n)) <$> N !! x.
Proof. apply lookup_fmap. Qed.

Lemma links_node M x v :
  heads_apart M → ma_node M !! x = Some v →
  links M !! x = Some (ListHead (rb_parent_color v) (rb_right v)).
Proof.
  intros Hap Hx. assert (ma_dead M !! x = None) as Hd.
  { apply eq_None_not_Some. intros Hs. rewrite (Hap x Hs) in Hx. done. }
  unfold links. by rewrite lookup_union_r, lookup_as_nodes, Hx.
Qed.

Lemma links_dead M x h : ma_dead M !! x = Some h → links M !! x = Some h.
Proof. apply lookup_union_Some_l. Qed.

Lemma links_none M x : ma_dead M !! x = None → ma_node M !! x = None → links M !! x = None.
Proof. intros Hd Hn. unfold links. by rewrite lookup_union_r, lookup_as_nodes, Hn. Qed.

Lemma links_live M x :
  is_Some (links M !! x) → is_Some (ma_dead M !! x) ∨ is_Some (ma_node M !! x).
Proof.
  destruct (ma_dead M !! x) eqn:Hd; [by left; eexists|].
  destruct (ma_node M !! x) eqn:Hn; [by right; eexists|].
  rewrite links_none by done. by intros [? ?].
Qed.

(** Where the nodes agree, so do the links. *)
Lemma links_agree M M' x :
  ma_dead M' !! x = ma_dead M !! x → ma_node M' !! x = ma_node M !! x → links M' !! x = links M !! x.
Proof.
  intros Hd Hn. unfold links. rewrite !lookup_union, Hd. f_equal.
  by rewrite !lookup_as_nodes, Hn.
Qed.

(** A ring of one. *)
Lemma ring_one L h : is_list L h [] → L !! h = Some (ListHead h h).
Proof.
  intros ([[H1 H2] _] & _). unfold nx, pv in *. destruct (L !! h) as [[??]|]; by simplify_eq/=.
Qed.
Lemma one_ring L h : h ≠ 0 → L !! h = Some (ListHead h h) → is_list L h [].
Proof.
  intros Hh HL. split_and!; [|apply NoDup_singleton|by intros Hz%list_elem_of_singleton].
  simpl. unfold lnk, nx, pv. by rewrite HL.
Qed.

(** [M'] differs from [M] in the links of [l] only. *)
Record relinked (M M' : machine_st) (l : list Z) : Prop := {
  rk_same : ∃ N D, M' = with_nodes N D M;
  rk_heads : heads_apart M';
  rk_node x : x ∉ l → ma_node M' !! x = ma_node M !! x;
  rk_links x : x ∉ l → links M' !! x = links M !! x;
  rk_live x : is_Some (ma_node M' !! x) ↔ is_Some (ma_node M !! x);
  rk_dead x : is_Some (ma_dead M' !! x) ↔ is_Some (ma_dead M !! x);
}.

(** Writing the memory of the list code back. *)
Definition write_nodes (L : list_mem) (M : machine_st) : machine_st :=
  with_nodes
    (map_imap (λ x n, Some (match L !! x with
       | Some h => RbNode (lh_next h) (lh_prev h) (rb_left n) | None => n end)) (ma_node M))
    (map_imap (λ x h, Some (default h (L !! x))) (ma_dead M)) M.

Lemma write_links L M : heads_apart M → dom L = dom (links M) → links (write_nodes L M) = L.
Proof.
  intros Hap Hdom. apply map_eq. intros x. unfold write_nodes, links, with_nodes. simpl.
  rewrite lookup_union, lookup_as_nodes, !map_lookup_imap.
  assert (is_Some (L !! x) ↔ is_Some (links M !! x)) as Hx by (rewrite <- !elem_of_dom; by rewrite Hdom).
  destruct (ma_dead M !! x) as [h|] eqn:Hd; simpl.
  - rewrite (Hap x) by eauto. simpl. rewrite (links_dead _ _ _ Hd) in Hx.
    destruct (proj2 Hx) as [h' ->]; [by eexists|]. done.
  - destruct (ma_node M !! x) as [n|] eqn:Hn; simpl.
    + rewrite (links_node _ _ _ Hap Hn) in Hx. destruct (proj2 Hx) as [[a b] ->]; [by eexists|]. done.
    + rewrite links_none in Hx by done. destruct (L !! x) eqn:HL; [|done].
      by destruct (proj1 Hx) as [? ?]; [eexists|].
Qed.

Lemma write_relinked L M l :
  heads_apart M → dom L = dom (links M) → (∀ x, x ∉ l → L !! x = links M !! x) →
  relinked M (write_nodes L M) l.
Proof.
  intros Hap Hdom Hl. split.
  - by eexists _, _.
  - intros x. simpl. rewrite !map_lookup_imap. intros Hx.
    destruct (ma_dead M !! x) as [h|] eqn:Hd; [|by destruct Hx]. by rewrite (Hap x) by eauto.
  - intros x Hx. simpl. rewrite map_lookup_imap. destruct (ma_node M !! x) as [n|] eqn:Hn; [|done].
    simpl. rewrite Hl, (links_node _ _ _ Hap Hn) by done. by destruct n.
  - intros x Hx. rewrite write_links by done. by apply Hl.
  - intros x. simpl. rewrite map_lookup_imap. destruct (ma_node M !! x); simpl; [|done].
    by split; eexists.
  - intros x. simpl. rewrite map_lookup_imap. destruct (ma_dead M !! x); simpl; [|done].
    by split; eexists.
Qed.

Lemma lift_list_wp {A} (m : lm A) M (Q : A → machine_st → Prop) :
  wp m (λ a L, Q a (write_nodes L M)) (links M) → wp (lift_list m) Q M.
Proof.
  intros Hm. apply wp_elim in Hm as (a & L & Hrun & HQ). unfold wp, lift_list, links in *.
  rewrite Hrun. exact HQ.
Qed.

(** A node joins a dead list. *)
Lemma dead_add_tail_wp M d th dl :
  heads_apart M → is_list (links M) d dl → is_Some (ma_node M !! th) → th ∉ d :: dl → th ≠ 0 →
  wp (lift_list (list_add_tail th d))
     (λ _ M', relinked M M' (th :: d :: dl) ∧ is_list (links M') d (dl ++ [th])) M.
Proof.
  intros Hap Hl [v Hth] Hin Hz. apply lift_list_wp. eapply wp_mono.
  { apply (list_add_tail_wp th d dl); [done| |done|done].
    unfold nx. rewrite (links_node _ _ _ Hap Hth). by eexists. }
  intros _ L (HL & Hsame & Hdom). split; [by apply write_relinked|]. by rewrite write_links.
Qed.

(** Its last node leaves it and is a ring of its own. *)
Lemma dead_del_init_wp M d th dl :
  heads_apart M → is_list (links M) d (dl ++ [th]) →
  wp (lift_list (list_del_init th))
     (λ _ M', relinked M M' (d :: dl ++ [th]) ∧ is_list (links M') d dl ∧
        is_list (links M') th []) M.
Proof.
  intros Hap Hl. apply lift_list_wp. eapply wp_mono; [by apply (list_del_init_wp d dl th [])|].
  rewrite app_nil_r. intros _ L ((HL & Hsame & Hdom) & Hth).
  split; [by apply write_relinked|]. by rewrite write_links.
Qed.
