(* ===== verification/ThreadsDelete.v ===== *)
(** Deleting the threads of a machine: machine__delete_threads and
    __machine__remove_thread of src/src/machine.c, thread__put and
    thread__delete of src/src/thread.c.

    A removed thread goes from the tree of its bucket to the dead list, through
    the union of the two kinds of node, and is freed with its last reference;
    one that a caller still holds stays on the dead list. *)
From Stdlib Require Import ZArith Lia String List.
From stdpp Require Import base tactics option list numbers gmap sorting functions fin vector finite strings.
From S2P Require Import Prelude RbTree RbSpec RbRep RbLink RbUnlink RbIter RbSearch.
From S2P Require Import ListHead ListRep Refcount Rwsem CString Unwind Threads ThreadsInv ThreadsFind DeadList.

Local Open Scope Z_scope.

(** ** The maps of the threads that are left *)

(** What the table asks of the maps when threads go: a put gives back one of
    the references that are left.  [n] counts them for each set. *)
Class MapsPut (S : Type) `{!Store S machine_st, !MapsOps S} := {
  maps_held : S → (Z → nat) → Prop;
  maps_held_ext : ∀ s n n', (∀ m, n m = n' m) → maps_held s n → maps_held s n';
  maps_held_with : ∀ (M : machine_st) s n, maps_held s n → maps_held (with_part M s) n;
  maps_put_wp : ∀ s n m, maps_held s n → m ≠ NULL → (0 < n m)%nat →
    wp (maps__put m) (λ _ s', maps_held s' (<[m := (n m - 1)%nat]> n) ∧ part s' = part s) s;
}.

Definition maps_of (T : gmap Z thread) (a : Z) : Z := from_option t_maps NULL (T !! a).
(** The references the threads [l] hold. *)
Definition held_by (T : gmap Z thread) (l : list Z) (m : Z) : nat :=
  length (filter (λ a, maps_of T a = m) l).

Lemma held_by_cons T a l m :
  held_by T (a :: l) m = ((if decide (maps_of T a = m) then 1 else 0) + held_by T l m)%nat.
Proof. unfold held_by. rewrite filter_cons. by case_decide. Qed.
Lemma held_by_app T l1 l2 m : held_by T (l1 ++ l2) m = (held_by T l1 m + held_by T l2 m)%nat.
Proof. unfold held_by. by rewrite filter_app, length_app. Qed.
Lemma held_by_ext T T' l m :
  (∀ a, a ∈ l → T' !! a = T !! a) → held_by T' l m = held_by T l m.
Proof.
  induction l as [|a l IH]; intros HT; [done|]. rewrite !held_by_cons, IH.
  - unfold maps_of. by rewrite HT by left.
  - intros b Hb. apply HT. by right.
Qed.

(** ** Dropping the reference of the table *)

(** A thread after a put: gone with its last reference. *)
Definition drop_ref (t : thread) : option thread :=
  if t_refcnt t =? 1 then None else Some (with_refs (t_refcnt t - 1) t).

(** Only the table holds the thread. *)
Definition lone (T : gmap Z thread) (a : Z) : Prop := from_option t_refcnt 0 (T !! a) = 1.
#[export] Instance lone_dec T a : Decision (lone T a).
Proof. unfold lone. apply _. Defined.

(** The threads of [l] that go, and the references they give back. *)
Definition freed_by (T : gmap Z thread) (l : list Z) (m : Z) : nat := held_by T (filter (lone T) l) m.

Lemma freed_by_cons T a l m :
  freed_by T (a :: l) m =
    ((if decide (lone T a ∧ maps_of T a = m) then 1 else 0) + freed_by T l m)%nat.
Proof.
  unfold freed_by. rewrite filter_cons. destruct (decide (lone T a)) as [Hl|Hl].
  - rewrite held_by_cons. f_equal. repeat case_decide; tauto.
  - by rewrite decide_False by tauto.
Qed.
Lemma freed_by_app T l1 l2 m : freed_by T (l1 ++ l2) m = (freed_by T l1 m + freed_by T l2 m)%nat.
Proof. unfold freed_by. by rewrite filter_app, held_by_app. Qed.
Lemma freed_by_ext T T' l m :
  (∀ a, a ∈ l → T' !! a = T !! a) → freed_by T' l m = freed_by T l m.
Proof.
  induction l as [|a l IH]; intros HT; [done|]. rewrite !freed_by_cons, IH.
  - assert (maps_of T' a = maps_of T a) as -> by (unfold maps_of; by rewrite HT by left).
    assert (lone T' a ↔ lone T a) as Hl by (unfold lone; by rewrite HT by left).
    f_equal. repeat case_decide; tauto.
  - intros b Hb. apply HT. by right.
Qed.

(** The table gave back its references of the threads [l]. *)
Record taken (l : list Z) (M M' : machine_st) : Prop := {
  tk_thread x : ma_thread M' !! x =
    if decide (x ∈ l) then ma_thread M !! x ≫= drop_ref else ma_thread M !! x;
  tk_node x : is_Some (ma_node M' !! x) ↔
    is_Some (ma_node M !! x) ∧ (x ∈ l → is_Some (ma_thread M' !! x));
  tk_pool : ma_pool M' = ma_pool M;
  tk_heads j : th_dead (ma_threads M' !!! j) = th_dead (ma_threads M !!! j);
}.

Lemma taken_nil M : taken [] M M.
Proof. split; try done. intros x. split; [|by intros []]. intros ?. split; [done|]. by intros ?%not_elem_of_nil. Qed.

Lemma taken_app l1 l2 M1 M2 M3 :
  disj l1 l2 → taken l1 M1 M2 → taken l2 M2 M3 → taken (l1 ++ l2) M1 M3.
Proof.
  intros Hd [T1 N1 P1 H1] [T2 N2 P2 H2]. split; [| |congruence|intros j; by rewrite H2].
  - intros x. rewrite T2, T1. specialize (Hd x).
    repeat case_decide; rewrite ?elem_of_app in *; tauto.
  - intros x. rewrite N2, N1, elem_of_app. split.
    + intros [[Hx Hx1] Hx2]. split; [done|]. intros [Hl|Hl]; [|by apply Hx2].
      rewrite T2. rewrite decide_False; [by apply Hx1|]. by apply Hd.
    + intros [Hx Hx']. split_and!; [done| |by auto]. intros Hl. specialize (Hx' (or_introl Hl)).
      rewrite T2 in Hx'. rewrite decide_False in Hx'; [done|]. by apply Hd.
Qed.

Section delete.
Context {S : Type} `{HS : !Store S machine_st, HO : !MapsOps S, HP : !MapsPut S}.
Variable unw_destroy_addr_space : Z → cm S unit.
Variable lock : pthread_rwlock S.
(** libunwind frees an address space and touches nothing of the machine. *)
Hypothesis Hdestroy : ∀ a s, wp (unw_destroy_addr_space a) (λ _ s', s' = s) s.
Implicit Types (s : S) (M : machine_st).

(** Freed memory. *)
Definition without_thread (th : Z) M : machine_st :=
  MachineSt (delete th (ma_node M)) (ma_dead M) (delete th (ma_thread M)) (ma_threads M) (ma_pool M).

Lemma empty_node_run th n N r :
  th ≠ NULL → N !! th = Some n → rb_parent_color n = th →
  RB_EMPTY_NODE th (RbState N r) = Ok (true, RbState N r).
Proof.
  intros Hz Hn Hpc. pose proof (wp_get_pc th n N r (λ v st, rb_parent_color n = v ∧ st = RbState N r) Hz Hn) as Hw.
  unfold wp in Hw. unfold RB_EMPTY_NODE, mbind, cm_bind.
  destruct (get_pc th (RbState N r)) as [[v st]| | |]; try (by destruct Hw).
  destruct Hw as [<- ->]; [done|]. by rewrite Hpc, Z.eqb_refl.
Qed.

(** The union says: a node whose first word is its own address is empty. *)
Lemma thread_empty_wp th n M s (Q : bool → S → Prop) :
  th ≠ NULL → ma_node M !! th = Some n → rb_parent_color n = th →
  Q true (with_part M s) → wp (rb_words (RB_EMPTY_NODE th)) Q (with_part M s).
Proof.
  intros Hz Hn Hpc HQ. unfold rb_words. apply wp_machine. unfold wp.
  rewrite (empty_node_run th n) by done. simpl. by destruct M.
Qed.

Lemma thread_delete_wp th t v M s n :
  th ≠ NULL → ma_thread M !! th = Some t → ma_node M !! th = Some v → rb_parent_color v = th →
  t_maps t ≠ NULL → maps_held s n → (0 < n (t_maps t))%nat →
  wp (thread__delete unw_destroy_addr_space th)
     (λ _ s', ∃ s1, s' = with_part (without_thread th M) s1 ∧
        maps_held s1 (<[t_maps t := (n (t_maps t) - 1)%nat]> n)) (with_part M s).
Proof.
  intros Hz Ht Hnode Hpc Hm Hheld Hpos. unfold thread__delete.
  apply wp_bind. eapply thread_empty_wp; [done|exact Hnode|done|].
  apply wp_bind, wp_assert; [done|].
  apply wp_bind. eapply wp_thread_load; [done|exact Ht|].
  rewrite (proj2 (Z.eqb_neq _ _) Hm). simpl. apply wp_bind, wp_bind.
  eapply wp_mono; [apply (maps_put_wp _ n); [by apply maps_held_with|done|done]|].
  intros _ s1 [Hheld1 Hpart]. rewrite part_with in Hpart.
  rewrite <- (with_part_id s1), Hpart.
  eapply wp_thread_store; [done|exact Ht|].
  apply wp_bind. eapply wp_thread_load; [done|simpl; apply lookup_insert_eq|]. simpl.
  assert (∀ s, wp (unwind__finish_access unw_destroy_addr_space (unwind_of (with_maps NULL t)))
    (λ _ s', s' = s) s) as Hfin.
  { intros s0. unfold unwind__finish_access. destruct (tu_ulops _); [apply Hdestroy|by apply wp_ret]. }
  apply wp_bind. eapply wp_mono; [apply Hfin|]. intros _ s2 ->.
  unfold free_thread. apply wp_machine. unfold wp. simpl. rewrite lookup_insert_eq.
  exists s1. split; [|done]. unfold without_thread. by rewrite delete_insert_eq.
Qed.

(** The put of a thread that is last on the dead list of the head [d]. *)
Record put_dead (M M' : machine_st) (th d : Z) (dl : list Z) : Prop := {
  pd_taken : taken [th] M M';
  pd_threads : ma_threads M' = ma_threads M;
  pd_node x : x ∉ d :: dl ++ [th] → ma_node M' !! x = ma_node M !! x;
  pd_links x : x ∉ d :: dl ++ [th] → links M' !! x = links M !! x;
  pd_heads : heads_apart M';
  pd_dead x : is_Some (ma_dead M' !! x) ↔ is_Some (ma_dead M !! x);
  pd_list : is_list (links M') d (if decide (lone (ma_thread M) th) then dl else dl ++ [th]);
}.

(** The references to maps that the put gives back. *)
Definition after_put (T : gmap Z thread) (l : list Z) (n : Z → nat) : Z → nat :=
  λ m, (n m - freed_by T l m)%nat.

Lemma single_freed T a t m :
  T !! a = Some t → freed_by T [a] m = if decide (t_refcnt t = 1 ∧ t_maps t = m) then 1%nat else 0%nat.
Proof.
  intros Ha. rewrite freed_by_cons.
  assert (maps_of T a = t_maps t) as -> by (unfold maps_of; by rewrite Ha).
  assert (lone T a ↔ t_refcnt t = 1) as Hl by (unfold lone; by rewrite Ha).
  unfold freed_by, held_by. simpl. repeat case_decide; tauto || lia.
Qed.

(** Freeing a thread that is on no list. *)
Lemma put_dead_freed M M1 th d dl t :
  relinked (set_threads_map (<[th := with_refs 0 t]> (ma_thread M)) M) M1 (d :: dl ++ [th]) →
  is_list (links M1) d dl → ma_thread M !! th = Some t → t_refcnt t = 1 → th ∉ d :: dl →
  put_dead M (without_thread th M1) th d dl.
Proof.
  intros [(N & D & ->) R1 R2 R3 R4 R5] Hl Ht Hr Hth.
  assert (lone (ma_thread M) th) as Hlone by (unfold lone; by rewrite Ht).
  assert (∀ x, x ≠ th → links (without_thread th (with_nodes N D
    (set_threads_map (<[th := with_refs 0 t]> (ma_thread M)) M))) !! x =
    links (with_nodes N D (set_threads_map (<[th := with_refs 0 t]> (ma_thread M)) M)) !! x) as Hsame.
  { intros x Hx. apply links_agree; simpl; [done|by apply lookup_delete_ne]. }
  split; simpl in *; [|done|..].
  - split; simpl; [| |done..].
    + intros x. rewrite delete_insert_eq. destruct (decide (x = th)) as [->|Hx].
      * rewrite lookup_delete_eq, decide_True by left. rewrite Ht. simpl. unfold drop_ref. by rewrite Hr.
      * rewrite lookup_delete_ne by done. rewrite decide_False; [done|]. by intros ?%list_elem_of_singleton.
    + intros x. rewrite delete_insert_eq. destruct (decide (x = th)) as [->|Hx].
      * rewrite !lookup_delete_eq. split; [by intros [? ?]|]. intros [_ H].
        by destruct (H ltac:(left)).
      * rewrite lookup_delete_ne by done. rewrite R4. split; [|by intros []]. intros H. split; [done|].
        by intros ?%list_elem_of_singleton.
  - intros x Hx. rewrite lookup_delete_ne by set_solver. by apply R2.
  - intros x Hx. rewrite Hsame by set_solver. by apply R3.
  - intros x Hx. specialize (R1 x Hx). simpl in *. destruct (decide (x = th)) as [->|?];
      [by rewrite lookup_delete_eq|by rewrite lookup_delete_ne].
  - done.
  - rewrite decide_True by done. eapply is_list_agree; [|exact Hl]. intros x Hx. apply Hsame.
    by intros ->.
Qed.

(** A caller keeps the thread. *)
Lemma put_dead_kept M th d dl t :
  heads_apart M → is_list (links M) d (dl ++ [th]) → ma_thread M !! th = Some t →
  1 < t_refcnt t →
  put_dead M (set_threads_map (<[th := with_refs (t_refcnt t - 1) t]> (ma_thread M)) M) th d dl.
Proof.
  intros Hap Hl Ht Hr. assert (¬ lone (ma_thread M) th) as Hlone.
  { unfold lone. rewrite Ht. simpl. lia. }
  split; simpl; try done; [|by rewrite decide_False].
  split; simpl; try done.
  - intros x. destruct (decide (x = th)) as [->|Hx].
    + rewrite lookup_insert_eq, decide_True by left. rewrite Ht. simpl. unfold drop_ref.
      by rewrite (proj2 (Z.eqb_neq _ _)) by lia.
    + rewrite lookup_insert_ne by done. rewrite decide_False; [done|]. by intros ?%list_elem_of_singleton.
  - intros x. split; [|by intros []]. intros H. split; [done|]. intros ->%list_elem_of_singleton.
    rewrite lookup_insert_eq. by eexists.
Qed.

Lemma thread_put_dead_wp th t d dl M s n :
  heads_apart M → th ≠ NULL → is_list (links M) d (dl ++ [th]) → is_Some (ma_node M !! th) →
  ma_thread M !! th = Some t → 0 < t_refcnt t < 2 ^ 32 → t_maps t ≠ NULL →
  maps_held s n → (freed_by (ma_thread M) [th] (t_maps t) ≤ n (t_maps t))%nat →
  wp (thread__put unw_destroy_addr_space th)
     (λ _ s', ∃ M' s1, s' = with_part M' s1 ∧ put_dead M M' th d dl ∧
        maps_held s1 (after_put (ma_thread M) [th] n)) (with_part M s).
Proof.
  intros Hap Hz Hl Hlive Ht Hr Hm Hheld Hpos.
  assert (∀ m, freed_by (ma_thread M) [th] m = if decide (t_refcnt t = 1 ∧ t_maps t = m) then 1%nat else 0%nat)
    as Hfb by (intros m; by apply single_freed).
  rewrite Hfb in Hpos. destruct (decide (t_refcnt t = 1)) as [Hone|Hone].
  - rewrite decide_True in Hpos by done. unfold thread__put.
    rewrite (proj2 (Z.eqb_neq _ _) Hz). apply wp_bind.
    eapply wp_thread_load; [done|exact Ht|]. rewrite Hone. simpl.
    apply wp_bind. eapply wp_thread_store; [done|exact Ht|].
    apply wp_bind. unfold nodes. apply wp_machine. eapply wp_mono.
    { apply (dead_del_init_wp (set_threads_map (<[th := with_refs 0 t]> (ma_thread M)) M) d th dl); done. }
    intros _ M1 (Hre & Hl1 & Hth). pose proof Hre as [(N & D & HM1) R1 _ _ R4 _].
    assert (ma_thread M1 = <[th := with_refs 0 t]> (ma_thread M)) as HT1 by by rewrite HM1.
    destruct (proj2 (R4 th) Hlive) as [v Hv].
    assert (rb_parent_color v = th) as Hpc.
    { apply ring_one in Hth. rewrite (links_node _ _ _ R1 Hv) in Hth. congruence. }
    eapply wp_mono; [eapply (thread_delete_wp th (with_refs 0 t) v M1 s n); simpl;
      [done|by rewrite HT1, lookup_insert_eq|done|done|done|done|lia]|].
    intros _ s' (s1 & -> & Hheld1). eexists _, s1. split_and!; [done| |].
    + eapply put_dead_freed; [exact Hre|done|done|done|].
      destruct Hl as (_ & Hnd & _). rewrite app_comm_cons in Hnd. apply NoDup_app in Hnd as (_ & Hnd & _).
      intros Hin. by eapply Hnd; [|left].
    + eapply maps_held_ext; [|exact Hheld1]. intros m. unfold after_put. rewrite Hfb.
      destruct (decide (t_maps t = m)) as [<-|Hne].
      * rewrite decide_True by done. by rewrite fn_lookup_insert.
      * rewrite decide_False by tauto. rewrite fn_lookup_insert_ne by done. lia.
  - assert (refcount_sub (t_refcnt t) = t_refcnt t - 1) as Hs by (apply w32_dec; lia).
    eapply wp_thread_put; [done|exact Ht|lia|]. rewrite Hs.
    eexists _, s. split_and!; [done|by apply put_dead_kept; [..|lia]|].
    eapply maps_held_ext; [|exact Hheld]. intros m. unfold after_put. rewrite Hfb.
    rewrite decide_False by tauto. lia.
Qed.

(** ** Removing a thread *)

(** The table while it is taken down: [ls i] are the threads left in the tree
    of bucket [i], [dl i] those on its dead list, which callers still hold. *)
Record del_inv M (ls dl : bucket → list Z) : Prop := {
  di_tree i : ∃ t, represents (entries_of M i) t ∧ redblack t ∧ inorder t = ls i;
  di_thread i a : a ∈ ls i → ∃ t, ma_thread M !! a = Some t ∧
    machine__threads (t_tid t) = i ∧ 0 < t_refcnt t < 2 ^ 32 ∧ t_maps t ≠ NULL;
  di_heads : heads_apart M;
  di_head i : is_Some (ma_dead M !! th_dead (ma_threads M !!! i));
  di_own i j : th_dead (ma_threads M !!! i) = th_dead (ma_threads M !!! j) → i = j;
  di_dead i : is_list (links M) (th_dead (ma_threads M !!! i)) (dl i);
  di_left i a : a ∈ dl i → is_Some (ma_node M !! a) ∧ ∀ j, a ∉ ls j;
  di_sep i j a : a ∈ dl i → a ∈ dl j → i = j;
}.

Lemma del_nonnull M ls dl i a : del_inv M ls dl → a ∈ ls i → a ≠ NULL.
Proof.
  intros Hinv Ha. destruct (di_tree _ _ _ Hinv i) as (t & Ht & _ & Ho).
  rewrite <- Ho in Ha. by eapply represents_nonnull.
Qed.

Lemma del_bucket M ls dl i j a : del_inv M ls dl → a ∈ ls i → a ∈ ls j → i = j.
Proof.
  intros Hinv (t & Ht & <- & _)%(di_thread _ _ _ Hinv) (t' & Ht' & <- & _)%(di_thread _ _ _ Hinv).
  congruence.
Qed.

Lemma del_nodup M ls dl i : del_inv M ls dl → NoDup (ls i).
Proof. intros Hinv. destruct (di_tree _ _ _ Hinv i) as (t & (_ & _ & ?) & _ & <-). done. Qed.

(** The threads of the trees have nodes, which are no heads. *)
Lemma del_live M ls dl i a : del_inv M ls dl → a ∈ ls i → is_Some (ma_node M !! a).
Proof.
  intros Hinv Ha. destruct (di_tree _ _ _ Hinv i) as (u & (Hu & _ & _) & _ & Ho).
  rewrite <- Ho in Ha. apply (rep_dom _ _ _ _ Hu) in Ha. by apply elem_of_dom in Ha.
Qed.

Lemma del_head_ne M ls dl i a : del_inv M ls dl → is_Some (ma_node M !! a) → a ≠ th_dead (ma_threads M !!! i).
Proof.
  intros Hinv [v Hv] ->. rewrite (di_heads _ _ _ Hinv _ (di_head _ _ _ Hinv i)) in Hv. done.
Qed.

(** A thread of a tree is on no dead list. *)
Lemma del_apart M ls dl i j a : del_inv M ls dl → a ∈ ls i → a ∉ th_dead (ma_threads M !!! j) :: dl j.
Proof.
  intros Hinv Ha [->|Hd]%elem_of_cons.
  - by eapply (del_head_ne _ _ _ j _ Hinv); [by eapply del_live|].
  - by apply (di_left _ _ _ Hinv j a Hd) in Ha.
Qed.

(** The dead lists of two buckets. *)
Lemma dead_apart M ls dl i j x :
  del_inv M ls dl → i ≠ j → x ∈ th_dead (ma_threads M !!! i) :: dl i →
  x ∉ th_dead (ma_threads M !!! j) :: dl j.
Proof.
  intros Hinv Hij [->|Hx]%elem_of_cons [Hj|Hj]%elem_of_cons.
  - by apply Hij, (di_own _ _ _ Hinv).
  - by eapply (del_head_ne _ _ _ i _ Hinv); [eapply (di_left _ _ _ Hinv)|].
  - eapply (del_head_ne _ _ _ j _ Hinv); [by eapply (di_left _ _ _ Hinv)|done].
  - by apply Hij, (di_sep _ _ _ Hinv i j x).
Qed.

(** Tree code on a bucket. *)
Lemma wp_entries {A} i (m : cm rb_state A) M s (Q : A → S → Prop) :
  wp m (λ a r, Q a (with_part (@with_part _ _ (entries_store i) r M) s)) (entries_of M i) →
  wp (entries i m) Q (with_part M s).
Proof.
  intros Hm. apply (@wp_lift _ _ (entries_in i)). unfold entries_in, store_compose. simpl.
  rewrite part_with. eapply wp_mono; [exact Hm|]. intros a r HQ. by rewrite with_part_twice.
Qed.

Lemma entries_same M i : @with_part _ _ (entries_store i) (entries_of M i) M = M.
Proof. exact (@with_part_id _ _ (entries_store i) M). Qed.

(** Taking the first thread out of its tree. *)
Lemma erase_first_wp i a rest ls dl M s (Q : unit → S → Prop) :
  del_inv M ls dl → ls i = a :: rest →
  (∀ r t, represents r t → redblack t → inorder t = rest → (a ∉ rest) →
     (∀ x, x ∉ a :: rest → rb_mem r !! x = ma_node M !! x) → is_Some (rb_mem r !! a) →
     dom (rb_mem r) = dom (ma_node M) →
     Q tt (with_part (@with_part _ _ (entries_store i) r M) s)) →
  wp (entries i (rb_erase_init a);; entries i (RB_CLEAR_NODE a)) Q (with_part M s).
Proof.
  intros Hinv Hl HQ. pose proof (del_nonnull _ _ _ i a Hinv ltac:(rewrite Hl; left)) as Hz.
  destruct (di_tree _ _ _ Hinv i) as (t & Ht & Hrb & Ho). rewrite Hl in Ho.
  assert (a ∉ rest) as Hna.
  { destruct Ht as (_ & _ & Hn). rewrite Ho in Hn. by apply NoDup_cons in Hn as [? _]. }
  apply wp_bind, wp_entries. eapply wp_mono; [by apply (rb_erase_init_wp a _ t [] rest)|].
  intros [] r (t' & v & Ht' & Hrb' & Ho' & Hm' & Hv & Hpc). simpl in Ho', Hm'. apply wp_entries.
  unfold RB_CLEAR_NODE, entries_of. simpl. rewrite vlookup_insert. simpl.
  eapply wp_set_pc; [done|exact Hv|].
  rewrite insert_id by (rewrite Hv; destruct v; simpl in *; by subst).
  assert (dom (rb_mem r) = dom (ma_node M)) as Hdom.
  { apply set_eq. intros x. rewrite !elem_of_dom. destruct (decide (x ∈ a :: rest)) as [Hx|Hx].
    - split; intros _; [by eapply (del_live _ _ _ i); [|rewrite Hl]|].
      apply elem_of_cons in Hx as [->|Hx]; [by eexists|].
      destruct Ht' as (Hrep & _ & _). rewrite <- Ho' in Hx. apply (rep_dom _ _ _ _ Hrep) in Hx.
      by apply elem_of_dom in Hx.
    - by rewrite Hm'. }
  pose proof (HQ r t' Ht' Hrb' Ho' Hna Hm' ltac:(by eexists) Hdom) as Hgoal.
  revert Hgoal. simpl. by rewrite vinsert_twice.
Qed.

(** The state without the thread [a], the first of bucket [i]. *)
Record removed M (ls dl : bucket → list Z) (i : bucket) (a : Z) (rest dl' : list Z) M' : Prop := {
  rm_taken : taken [a] M M';
  rm_tree : ∃ t, represents (entries_of M' i) t ∧ redblack t ∧ inorder t = rest;
  rm_node x : x ∉ a :: rest → x ∉ th_dead (ma_threads M !!! i) :: dl i → ma_node M' !! x = ma_node M !! x;
  rm_links x : x ∉ a :: rest → x ∉ th_dead (ma_threads M !!! i) :: dl i → links M' !! x = links M !! x;
  rm_apart : heads_apart M';
  rm_dead x : is_Some (ma_dead M' !! x) ↔ is_Some (ma_dead M !! x);
  rm_list : is_list (links M') (th_dead (ma_threads M !!! i)) dl';
  rm_left x : x ∈ dl' → (x ∈ dl i) ∨ x = a ∧ is_Some (ma_thread M' !! a);
  rm_entries j : j ≠ i → th_entries (ma_threads M' !!! j) = th_entries (ma_threads M !!! j);
}.

Lemma removed_inv M ls dl i a rest dl' M' :
  del_inv M ls dl → ls i = a :: rest → a ∉ rest → removed M ls dl i a rest dl' M' →
  del_inv M' (set_bucket i rest ls) (set_bucket i dl' dl).
Proof.
  intros Hinv Hl Ha [[HT HV _ HH] Htr HN HL Hap HD Hli Hlf HE].
  assert (∀ j x, x ∈ set_bucket i rest ls j → x ∈ ls j ∧ x ≠ a) as Hin.
  { intros j x. unfold set_bucket. case_decide as Hj; [subst j|].
    - intros Hx. rewrite Hl. split; [by right|by intros ->].
    - intros Hx. split; [done|]. intros ->. apply Hj.
      eapply (del_bucket _ _ _ _ _ a Hinv); [done|]. rewrite Hl. left. }
  assert (a ∈ ls i) as Hai by (rewrite Hl; left).
  assert (∀ x, is_Some (ma_node M' !! x) ↔ is_Some (ma_node M !! x) ∧ (x = a → is_Some (ma_thread M' !! a))) as HV'.
  { intros x. rewrite HV, list_elem_of_singleton. split; intros [? Hx]; (split; [done|]); intros ->; by apply Hx. }
  split.
  - intros j. destruct (decide (j = i)) as [->|Hj]; [by rewrite set_bucket_eq|].
    destruct (di_tree _ _ _ Hinv j) as (u & Hu & ? & Hou). exists u. rewrite set_bucket_ne by done.
    split; [|done]. eapply represents_frame; [exact Hu| |by apply HE].
    intros x Hx. rewrite Hou in Hx. apply HN; [|by eapply del_apart]. rewrite <- Hl. intros Hxi.
    apply Hj. by eapply (del_bucket _ ls _ _ _ x Hinv).
  - intros j x [Hx Hxa]%Hin. destruct (di_thread _ _ _ Hinv j x Hx) as (u & Hu & ?). exists u.
    rewrite HT, decide_False; [done|]. by intros ?%list_elem_of_singleton.
  - done.
  - intros j. rewrite HH, HD. apply (di_head _ _ _ Hinv).
  - intros j k. rewrite !HH. apply (di_own _ _ _ Hinv).
  - intros j. rewrite HH. destruct (decide (j = i)) as [->|Hj]; [by rewrite set_bucket_eq|].
    rewrite set_bucket_ne by done. eapply is_list_agree; [|apply (di_dead _ _ _ Hinv)].
    intros x Hx. apply HL; [|by eapply dead_apart]. rewrite <- Hl. intros Hxi.
    by eapply del_apart in Hx.
  - intros j x Hx. assert (x ∈ dl j ∨ x = a ∧ is_Some (ma_thread M' !! a)) as Hx'.
    { destruct (decide (j = i)) as [->|Hj]; [|rewrite set_bucket_ne in Hx by done; by left].
      rewrite set_bucket_eq in Hx. by apply Hlf. }
    destruct Hx' as [Hd|[-> Hlive]].
    + destruct (di_left _ _ _ Hinv j x Hd) as [Hn Hno]. split; [|by intros k [Hk _]%Hin; apply (Hno k)].
      apply HV'. split; [done|]. intros ->. by destruct (Hno i).
    + split; [|by intros k [_ Hk]%Hin]. apply HV'. split; [by eapply del_live|done].
  - intros j k x. unfold set_bucket. repeat case_decide; subst; try done.
    + intros [Hx|[-> _]]%Hlf Hk; [by eapply (di_sep _ _ _ Hinv)|]. by destruct (di_left _ _ _ Hinv k a Hk) as [_ []%(λ f, f i)].
    + intros Hk [Hx|[-> _]]%Hlf; [by eapply (di_sep _ _ _ Hinv)|]. by destruct (di_left _ _ _ Hinv j a Hk) as [_ []%(λ f, f i)].
    + by apply (di_sep _ _ _ Hinv).
Qed.

(** Only the cache and the count of a bucket differ. *)
Record alike M M' : Prop := {
  al_node : ma_node M' = ma_node M;
  al_dead : ma_dead M' = ma_dead M;
  al_thread : ma_thread M' = ma_thread M;
  al_pool : ma_pool M' = ma_pool M;
  al_heads j : th_dead (ma_threads M' !!! j) = th_dead (ma_threads M !!! j);
  al_entries j : th_entries (ma_threads M' !!! j) = th_entries (ma_threads M !!! j);
}.

Lemma alike_refl M : alike M M.
Proof. by split. Qed.
Lemma alike_update M i f :
  (∀ b, th_dead (f b) = th_dead b ∧ th_entries (f b) = th_entries b) →
  alike M (update_threads i f M).
Proof. intros Hf. split; try done; intros j; rewrite lookup_update_threads; case_decide; by destruct (Hf (ma_threads M !!! j)). Qed.

Lemma alike_links M M' : alike M M' → links M' = links M.
Proof. intros [HN HD _ _ _ _]. unfold links. by rewrite HN, HD. Qed.

Lemma alike_inv M M' ls dl : alike M M' → del_inv M ls dl → del_inv M' ls dl.
Proof.
  intros Hal [I1 I2 I3 I4 I5 I6 I7 I8]. pose proof (alike_links _ _ Hal) as HL.
  destruct Hal as [HN HD HT _ HH HE]. split.
  - intros i. unfold entries_of. rewrite HN, HE. apply I1.
  - intros i a. rewrite HT. apply I2.
  - intros x. rewrite HN, HD. apply I3.
  - intros i. rewrite HH, HD. apply I4.
  - intros i j. rewrite !HH. apply I5.
  - intros i. rewrite HH, HL. apply I6.
  - intros i a. rewrite HN. apply I7.
  - apply I8.
Qed.

(** The tree without [a], the dead lists as before. *)
Record unlinked M M' (i : bucket) (a : Z) (rest : list Z) : Prop := {
  ul_dead : ma_dead M' = ma_dead M;
  ul_thread : ma_thread M' = ma_thread M;
  ul_pool : ma_pool M' = ma_pool M;
  ul_node x : x ∉ a :: rest → ma_node M' !! x = ma_node M !! x;
  ul_live x : is_Some (ma_node M' !! x) ↔ is_Some (ma_node M !! x);
  ul_tree : ∃ t, represents (entries_of M' i) t ∧ redblack t ∧ inorder t = rest;
  ul_heads j : th_dead (ma_threads M' !!! j) = th_dead (ma_threads M !!! j);
  ul_entries j : j ≠ i → th_entries (ma_threads M' !!! j) = th_entries (ma_threads M !!! j);
}.

Lemma unlinked_links M M' i a rest x : unlinked M M' i a rest → x ∉ a :: rest → links M' !! x = links M !! x.
Proof. intros Hu Hx. apply links_agree; [by rewrite (ul_dead _ _ _ _ _ Hu)|by apply Hu]. Qed.

Lemma unlinked_apart M M' ls dl i a rest :
  del_inv M ls dl → unlinked M M' i a rest → heads_apart M'.
Proof.
  intros Hinv Hu x. rewrite (ul_dead _ _ _ _ _ Hu). intros Hx%(di_heads _ _ _ Hinv).
  apply eq_None_not_Some. rewrite (ul_live _ _ _ _ _ Hu), Hx. by intros [? ?].
Qed.

(** The list of the bucket, then with [a] at its end. *)
Lemma unlinked_dead M M' ls dl i a rest :
  del_inv M ls dl → ls i = a :: rest → unlinked M M' i a rest →
  is_list (links M') (th_dead (ma_threads M !!! i)) (dl i).
Proof.
  intros Hinv Hl Hu. eapply is_list_agree; [|apply (di_dead _ _ _ Hinv)].
  intros x Hx. eapply unlinked_links; [done|]. rewrite <- Hl. intros Hxi. by eapply del_apart in Hx.
Qed.

(** The reference of the table dropped from the end of the dead list. *)
Lemma unlinked_removed M M3 M4 M5 ls dl i a rest :
  del_inv M ls dl → ls i = a :: rest → a ∉ rest → unlinked M M3 i a rest →
  relinked M3 M4 (a :: th_dead (ma_threads M !!! i) :: dl i) →
  put_dead M4 M5 a (th_dead (ma_threads M !!! i)) (dl i) →
  removed M ls dl i a rest (if decide (lone (ma_thread M) a) then dl i else dl i ++ [a]) M5.
Proof.
  intros Hinv Hl Hna Hu [(N & D & ->) A1 A2 A3 A4 A5] [[T1 T2 T3 T4] P1 P2 P3 P4 P5 P6].
  pose proof Hu as [UD UT UP UN UL (t & Ht & Hrb & Ho) UH UE]. simpl in *.
  set (d := th_dead (ma_threads M !!! i)) in *.
  assert (∀ x, x ≠ a → x ∉ d :: dl i → x ∉ d :: dl i ++ [a]) as Hout.
  { intros x Hx Hd. rewrite app_comm_cons, elem_of_app, list_elem_of_singleton. tauto. }
  assert (∀ x, x ≠ a → x ∉ d :: dl i → x ∉ a :: d :: dl i) as Hout'.
  { intros x Hx Hd. by rewrite elem_of_cons; intros [?|?]. }
  assert (∀ x, x ∈ rest → x ≠ a ∧ x ∉ d :: dl i) as Hrest.
  { intros x Hx. split; [by intros ->|]. eapply del_apart; [exact Hinv|]. rewrite Hl. by right. }
  rewrite UT in *. split.
  - split; [done| |congruence|intros j; by rewrite P1, UH].
    intros x. rewrite T2, A4, UL. done.
  - exists t. split; [|done]. eapply represents_frame; [exact Ht| |unfold entries_of; simpl; by rewrite P1].
    intros x Hx. rewrite Ho in Hx. destruct (Hrest x Hx). simpl. rewrite P2, A2 by auto. done.
  - intros x Hx Hd. pose proof Hx as [Hxa _]%not_elem_of_cons. by rewrite P2, A2, UN by auto.
  - intros x Hx Hd. pose proof Hx as [Hxa _]%not_elem_of_cons. rewrite P3, A3 by auto.
    by eapply unlinked_links.
  - done.
  - intros x. by rewrite P5, A5, UD.
  - exact P6.
  - intros x. case_decide as Hlone; [by left|]. intros [Hx| ->%list_elem_of_singleton]%elem_of_app; [by left|].
    right. split; [done|]. rewrite T1, decide_True by left.
    destruct (di_thread _ _ _ Hinv i a ltac:(rewrite Hl; left)) as (u & Hu' & _).
    unfold lone in Hlone. rewrite Hu' in *. simpl in *. unfold drop_ref.
    rewrite (proj2 (Z.eqb_neq _ _) Hlone). by eexists.
  - intros j Hj. rewrite P1. by apply UE.
Qed.

Lemma remove_thread_wp i a rest ls dl M s n :
  del_inv M ls dl → ls i = a :: rest →
  maps_held s n → (∀ m, freed_by (ma_thread M) [a] m ≤ n m)%nat →
  wp (__machine__remove_thread unw_destroy_addr_space lock a false)
     (λ _ s', ∃ M' s1 dl', s' = with_part M' s1 ∧
        removed M ls dl i a rest dl' M' ∧ maps_held s1 (after_put (ma_thread M) [a] n))
     (with_part M s).
Proof.
  intros Hinv Hl Hheld Hpos.
  destruct (di_thread _ _ _ Hinv i a ltac:(rewrite Hl; left)) as (t & Ht & Hi & Hr & Hm).
  pose proof (del_nonnull _ _ _ i a Hinv ltac:(rewrite Hl; left)) as Hz.
  unfold __machine__remove_thread. apply wp_bind. eapply wp_thread_load; [done|exact Ht|].
  cbv zeta. rewrite Hi. apply wp_bind, wp_get_threads, wp_bind.
  eapply (wp_mono _ (λ _ s', ∃ M1, s' = with_part M1 s ∧ alike M M1)).
  { destruct (_ =? a); [apply wp_set_threads|apply wp_ret]; eexists; (split; [done|]);
      [by apply alike_update|apply alike_refl]. }
  intros _ s1 (M1 & -> & Hal). pose proof (alike_inv _ _ _ _ Hal Hinv) as Hinv1.
  apply wp_bind. eapply wp_thread_load; [done|by rewrite (al_thread _ _ Hal)|].
  apply wp_bind, wp_assert.
  { unfold refcount_read. by rewrite (proj2 (Z.eqb_neq _ _)) by lia. }
  apply wp_bind, wp_ret, wp_assoc, wp_bind. eapply erase_first_wp; [exact Hinv1|exact Hl|].
  intros r tr Htr Hrb Ho Hna HN Hv Hdom.
  set (M2 := @with_part _ _ (entries_store i) r M1).
  apply wp_bind, wp_set_threads, wp_bind, wp_get_threads.
  set (M3 := update_threads i (λ b : threads, set_nr (w32 (th_nr b - 1)) b) M2).
  assert (unlinked M M3 i a rest) as Hu.
  { destruct Hal as [AN AD AT AP AH AE]. split; simpl; try done.
    - intros x Hx. rewrite HN by done. by rewrite AN.
    - intros x. rewrite <- !elem_of_dom, Hdom. by rewrite AN.
    - exists tr. split; [|done]. unfold entries_of. simpl. rewrite !vlookup_insert. simpl. by destruct r.
    - intros j. destruct (decide (j = i)) as [->|?].
      + rewrite !vlookup_insert. simpl. apply AH.
      + rewrite !vlookup_insert_ne by done. apply AH.
    - intros j Hj. rewrite !vlookup_insert_ne by done. apply AE. }
  pose proof (unlinked_apart _ _ _ _ _ _ _ Hinv Hu) as Hap3.
  rewrite (ul_heads _ _ _ _ _ Hu).
  apply wp_bind. unfold nodes. apply wp_machine. eapply wp_mono.
  { apply (dead_add_tail_wp M3 _ a (dl i)); [done|by eapply unlinked_dead| | |done].
    - apply (ul_live _ _ _ _ _ Hu). eapply (del_live _ _ _ i); [done|]. rewrite Hl. left.
    - eapply del_apart; [done|]. rewrite Hl. left. }
  intros _ M4 [Hre Hlist]. apply wp_bind, wp_ret.
  pose proof Hre as [(N & D & HM4) A1 A2 A3 A4 A5].
  assert (ma_thread M4 = ma_thread M) as HT4 by (rewrite HM4; exact (ul_thread _ _ _ _ _ Hu)).
  eapply wp_mono.
  { eapply (thread_put_dead_wp a t (th_dead (ma_threads M !!! i)) (dl i) M4 _ n);
      [done|done|done| |by rewrite HT4|done|done|done|by rewrite HT4].
    apply A4, (ul_live _ _ _ _ _ Hu). eapply (del_live _ _ _ i); [done|]. rewrite Hl. left. }
  intros _ s' (M5 & s1 & -> & Hput & Hheld1). rewrite HT4 in Hheld1.
  eexists M5, s1, _. split_and!; [done|by eapply unlinked_removed|done].
Qed.

(** ** Removing all of them *)

Lemma del_inv_ext M ls ls' dl : (∀ i, ls i = ls' i) → del_inv M ls dl → del_inv M ls' dl.
Proof.
  intros He [I1 I2 I3 I4 I5 I6 I7 I8]. split; [|intros i a; rewrite <- He; apply I2|done..| |done].
  - intros i. rewrite <- He. apply I1.
  - intros i a Ha. destruct (I7 i a Ha) as [? Hn]. split; [done|]. intros j. by rewrite <- He.
Qed.

Lemma after_put_app T T' l1 l2 n m :
  (∀ a, a ∈ l2 → T' !! a = T !! a) →
  after_put T' l2 (after_put T l1 n) m = after_put T (l1 ++ l2) n m.
Proof. intros HT. unfold after_put. rewrite freed_by_app, (freed_by_ext T T' l2) by done. lia. Qed.

Lemma taken_other l M M' a : taken l M M' → a ∉ l → ma_thread M' !! a = ma_thread M !! a.
Proof. intros Ht Ha. by rewrite (tk_thread _ _ _ Ht), decide_False. Qed.

Lemma delete_threads_loop_wp i l : ∀ fuel ls dl M s n,
  (length l < fuel)%nat → del_inv M ls dl → ls i = l →
  maps_held s n → (∀ m, freed_by (ma_thread M) l m ≤ n m)%nat →
  wp (delete_threads_loop unw_destroy_addr_space lock fuel i (first_of l))
     (λ _ s', ∃ M' s1 dl', s' = with_part M' s1 ∧ del_inv M' (set_bucket i [] ls) dl' ∧ taken l M M' ∧
        maps_held s1 (after_put (ma_thread M) l n)) (with_part M s).
Proof.
  induction l as [|a l IH]; intros [|fuel] ls dl M s n Hf Hinv Hl Hheld Hn; simpl in Hf; try lia; simpl.
  - apply wp_ret. exists M, s, dl. split_and!; [done| |apply taken_nil|].
    + eapply del_inv_ext; [|exact Hinv]. intros j. unfold set_bucket. case_decide; by subst.
    + eapply maps_held_ext; [|exact Hheld]. intros m. unfold after_put, freed_by, held_by. simpl. lia.
  - pose proof (del_nonnull _ _ _ i a Hinv ltac:(rewrite Hl; left)) as Hz.
    pose proof (del_nodup _ _ _ i Hinv) as Hnd. rewrite Hl in Hnd. apply NoDup_cons in Hnd as [Hna _].
    change (first_of (a :: l)) with a. rewrite (proj2 (Z.eqb_neq _ _) Hz). apply wp_bind, wp_entries.
    destruct (di_tree _ _ _ Hinv i) as (t & Ht & _ & Ho). rewrite Hl in Ho.
    eapply wp_mono; [by apply (rb_next_at _ t [] a l)|]. intros v r [-> ->].
    rewrite entries_same. apply wp_bind.
    assert (∀ m, freed_by (ma_thread M) [a] m + freed_by (ma_thread M) l m ≤ n m)%nat as Hn'.
    { intros m. specialize (Hn m). change (a :: l) with ([a] ++ l) in Hn. by rewrite freed_by_app in Hn. }
    eapply wp_mono; [eapply (remove_thread_wp i a l ls dl M s n); [done..|]|].
    { intros m. specialize (Hn' m). lia. }
    intros _ s' (M1 & s1 & dl1 & -> & Hrem & Hheld1).
    pose proof (rm_taken _ _ _ _ _ _ _ _ Hrem) as Htk.
    assert (∀ b, b ∈ l → ma_thread M1 !! b = ma_thread M !! b) as Hsame.
    { intros b Hb. eapply taken_other; [exact Htk|]. by intros ->%list_elem_of_singleton. }
    eapply wp_mono.
    { eapply (IH fuel); [lia|by eapply removed_inv|apply set_bucket_eq|exact Hheld1|].
      intros m. rewrite (freed_by_ext (ma_thread M)) by done. unfold after_put. specialize (Hn' m). lia. }
    intros _ s' (M2 & s2 & dl2 & -> & Hinv2 & Htk2 & Hheld2). exists M2, s2, dl2. split_and!; [done|..].
    + eapply del_inv_ext; [|exact Hinv2]. intros j. unfold set_bucket. by repeat case_decide.
    + apply (taken_app [a] l _ M1); [|done|done]. by intros x ->%list_elem_of_singleton.
    + eapply maps_held_ext; [|exact Hheld2]. intros m. by apply (after_put_app _ _ [a] l).
Qed.

Lemma delete_bucket_wp i ls dl M s n :
  del_inv M ls dl → maps_held s n → (∀ m, freed_by (ma_thread M) (ls i) m ≤ n m)%nat →
  wp (delete_bucket unw_destroy_addr_space lock i)
     (λ _ s', ∃ M' s1 dl', s' = with_part M' s1 ∧ del_inv M' (set_bucket i [] ls) dl' ∧
        taken (ls i) M M' ∧ maps_held s1 (after_put (ma_thread M) (ls i) n)) (with_part M s).
Proof.
  intros Hinv Hheld Hn. unfold delete_bucket, down_write, up_write. simpl.
  destruct (di_tree _ _ _ Hinv i) as (t & Ht & _ & Ho).
  apply wp_bind, wp_ret, wp_bind, wp_entries.
  eapply wp_mono; [by apply (rb_first_wp _ t)|]. intros v r [-> ->]. rewrite entries_same.
  apply wp_bind, wp_machine, wp_get, wp_bind. rewrite Ho.
  eapply wp_mono; [eapply (delete_threads_loop_wp i (ls i)); [|done..]|].
  { destruct Ht as (Hrep & _ & Hnd). pose proof (rep_size _ _ _ Hrep Hnd) as Hs. rewrite Ho in Hs. simpl in Hs. lia. }
  intros u s1 HQ. by apply wp_bind, wp_ret, wp_ret.
Qed.

(** The threads of other buckets are other threads. *)
Lemma buckets_apart M ls dl i bs a :
  del_inv M ls dl → i ∉ bs → a ∈ ls i → a ∉ concat (ls <$> bs).
Proof.
  intros Hinv Hi Hai Ha.
  apply list_elem_of_In, in_concat in Ha as (l & (j & <- & Hj%list_elem_of_In)%in_map_iff & Hal%list_elem_of_In).
  apply Hi. by rewrite (del_bucket _ _ _ _ _ _ Hinv Hai Hal).
Qed.

Lemma delete_buckets_wp bs : ∀ ls dl M s n,
  NoDup bs → del_inv M ls dl → maps_held s n →
  (∀ m, freed_by (ma_thread M) (concat (ls <$> bs)) m ≤ n m)%nat →
  wp (for_buckets (delete_bucket unw_destroy_addr_space lock) bs)
     (λ _ s', ∃ M' s1, s' = with_part M' s1 ∧ taken (concat (ls <$> bs)) M M' ∧
        maps_held s1 (after_put (ma_thread M) (concat (ls <$> bs)) n)) (with_part M s).
Proof.
  induction bs as [|i bs IH]; intros ls dl M s n Hnd Hinv Hheld Hn;
    [|rewrite fmap_cons in *; cbn [concat for_buckets] in *].
  - apply wp_ret. exists M, s. split_and!; [done|apply taken_nil|].
    eapply maps_held_ext; [|exact Hheld]. intros m. unfold after_put, freed_by, held_by. simpl. lia.
  - apply NoDup_cons in Hnd as [Hi Hnd].
    assert (∀ m, freed_by (ma_thread M) (ls i) m + freed_by (ma_thread M) (concat (ls <$> bs)) m ≤ n m)%nat as Hn'.
    { intros m. specialize (Hn m). by rewrite freed_by_app in Hn. }
    apply wp_bind. eapply wp_mono; [eapply (delete_bucket_wp i ls dl M s n); [done|done|]|].
    { intros m. specialize (Hn' m). lia. }
    intros _ s' (M1 & s1 & dl1 & -> & Hinv1 & Htk & Hheld1).
    assert (set_bucket i [] ls <$> bs = ls <$> bs) as Hls.
    { apply list_fmap_ext. intros k j Hj. apply set_bucket_ne. intros ->. apply Hi.
      by eapply list_elem_of_lookup_2. }
    assert (∀ b, b ∈ concat (ls <$> bs) → ma_thread M1 !! b = ma_thread M !! b) as Hsame.
    { intros b Hb. eapply taken_other; [exact Htk|]. intros Hbi. by eapply buckets_apart in Hb. }
    eapply wp_mono; [eapply (IH (set_bucket i [] ls) dl1 M1 s1); [done|done|exact Hheld1|]|].
    { intros m. rewrite Hls, (freed_by_ext (ma_thread M)) by done. unfold after_put.
      specialize (Hn' m). lia. }
    rewrite Hls. intros _ s' (M2 & s2 & -> & Htk2 & Hheld2). exists M2, s2. split_and!; [done|..].
    + eapply taken_app; [|done|done]. intros a Ha. by eapply buckets_apart.
    + eapply maps_held_ext; [|exact Hheld2]. intros m. by apply after_put_app.
Qed.
End delete.
