(* ===== verification/ThreadsInit.v ===== *)
(** Setting up the thread table: machine__threads_init of
    src/src/machine.c. *)
From Stdlib Require Import ZArith Lia String.
From stdpp Require Import sorting base tactics option list numbers gmap fin vector finite strings.
From S2P Require Import Prelude RbTree RbSpec RbRep ListHead ListRep Refcount Rwsem CString Unwind.
From S2P Require Import Threads ThreadsInv ThreadsRefs ThreadsFind.

Local Open Scope Z_scope.

Section init.
Context {S : Type} `{HS : !Store S machine_st} (lock : pthread_rwlock S).
Implicit Types (s : S) (M : machine_st).

(** Heads whose dead lists can be set up. *)
Definition heads_live M : Prop :=
  heads_ok M ∧ ∀ i, th_dead (ma_threads M !!! i) ≠ 0 ∧ is_Some (ma_dead M !! th_dead (ma_threads M !!! i)).

(** [INIT_LIST_HEAD] on a head. *)
Lemma init_head_wp d M s (Q : unit → S → Prop) :
  heads_ok M → d ≠ 0 → is_Some (ma_dead M !! d) →
  Q tt (with_part (MachineSt (ma_node M) (<[d := ListHead d d]> (ma_dead M)) (ma_thread M)
          (ma_threads M) (ma_pool M)) s) →
  wp (nodes (INIT_LIST_HEAD d)) Q (with_part M s).
Proof.
  intros Hap Hd [h Hh] HQ. unfold nodes. apply wp_machine. unfold wp, lift_list.
  assert ((ma_dead M ∪ as_nodes (ma_node M)) !! d = Some h) as HL by by apply lookup_union_Some_l.
  assert (INIT_LIST_HEAD d (ma_dead M ∪ as_nodes (ma_node M)) =
    Ok (tt, <[d := ListHead d d]> (ma_dead M ∪ as_nodes (ma_node M)))) as ->.
  { unfold INIT_LIST_HEAD, set_next, set_prev, lh_store, mbind, cm_bind.
    rewrite (proj2 (Z.eqb_neq _ _) Hd), HL, lookup_insert_eq. by rewrite insert_insert_eq. }
  assert (map_imap (λ x n, Some (match (<[d:=ListHead d d]> (ma_dead M ∪ as_nodes (ma_node M))) !! x with
      | Some h => RbNode (lh_next h) (lh_prev h) (rb_left n) | None => n end)) (ma_node M) = ma_node M) as ->.
  { apply map_eq. intros x. rewrite map_lookup_imap. destruct (ma_node M !! x) as [n|] eqn:Hn; simpl; [|done].
    assert (ma_dead M !! x = None) as Hx.
    { apply eq_None_not_Some. intros Hs. destruct (Hap x Hs). congruence. }
    rewrite lookup_insert_ne by (intros ->; congruence). rewrite lookup_union_r by done.
    unfold as_nodes. rewrite lookup_fmap, Hn. simpl. by destruct n. }
  assert (map_imap (λ x h, Some (default h ((<[d:=ListHead d d]> (ma_dead M ∪ as_nodes (ma_node M))) !! x)))
    (ma_dead M) = <[d := ListHead d d]> (ma_dead M)) as ->; [|exact HQ].
  apply map_eq. intros x. rewrite map_lookup_imap. destruct (decide (x = d)) as [->|Hx].
  - by rewrite lookup_insert_eq, Hh; simpl; rewrite lookup_insert_eq.
  - rewrite !lookup_insert_ne by done. destruct (ma_dead M !! x) as [hx|] eqn:Hn; simpl; [|done].
    by rewrite (lookup_union_Some_l _ _ _ _ Hn).
Qed.

(** The buckets [bs] are set up. *)
Record inited (bs : list bucket) M M' : Prop := {
  in_node : ma_node M' = ma_node M;
  in_thread : ma_thread M' = ma_thread M;
  in_pool : ma_pool M' = ma_pool M;
  in_dom x : is_Some (ma_dead M' !! x) ↔ is_Some (ma_dead M !! x);
  in_head j : th_dead (ma_threads M' !!! j) = th_dead (ma_threads M !!! j);
  in_done i : i ∈ bs → ma_threads M' !!! i = Threads NULL 0 (th_dead (ma_threads M !!! i)) NULL ∧
    ma_dead M' !! th_dead (ma_threads M !!! i) =
      Some (ListHead (th_dead (ma_threads M !!! i)) (th_dead (ma_threads M !!! i)));
  in_same i : i ∉ bs → ma_threads M' !!! i = ma_threads M !!! i;
  in_ring h : ma_dead M !! h = Some (ListHead h h) → ma_dead M' !! h = Some (ListHead h h);
}.

Lemma inited_nil M : inited [] M M.
Proof. split; try done. by intros i ?%not_elem_of_nil. Qed.

Lemma inited_cons i bs M M1 M2 :
  i ∉ bs → inited [i] M M1 → inited bs M1 M2 → inited (i :: bs) M M2.
Proof.
  intros Hi [N1 T1 P1 D1 H1 I1 S1 R1] [N2 T2 P2 D2 H2 I2 S2 R2]. split; try congruence.
  - intros x. by rewrite D2.
  - intros j [->|Hj]%elem_of_cons.
    + rewrite S2 by done. destruct (I1 i ltac:(left)) as [-> Hr]. split; [done|]. by apply R2.
    + destruct (I2 j Hj) as [-> Hr]. rewrite H1 in Hr |- *. done.
  - intros j [Hji Hj]%not_elem_of_cons. rewrite S2, S1; [done| |done].
    by intros ?%list_elem_of_singleton.
  - auto.
Qed.

Lemma heads_live_inited bs M M' : inited bs M M' → heads_live M → heads_live M'.
Proof.
  intros [N T P D H _ _ _] [Hap Hl]. split.
  - intros x. rewrite D, N, P. apply Hap.
  - intros i. rewrite H, D. apply Hl.
Qed.

Lemma init_bucket_wp i M s :
  heads_live M → wp (init_bucket lock i) (λ _ s', ∃ M', s' = with_part M' s ∧ inited [i] M M') (with_part M s).
Proof.
  intros [Hap Hl]. destruct (Hl i) as [Hd Hs]. unfold init_bucket.
  apply wp_bind. apply (@wp_lift _ _ (entries_in i)). unfold entries_in, store_compose. simpl.
  rewrite part_with. apply wp_set_root. rewrite with_part_twice.
  apply wp_init_rwsem, wp_bind, wp_set_threads, wp_bind, wp_get_threads.
  set (M1 := update_threads i (set_nr 0) _).
  assert (ma_threads M1 !!! i = Threads NULL 0 (th_dead (ma_threads M !!! i)) (th_last_match (ma_threads M !!! i))) as H1.
  { unfold M1. rewrite lookup_update_threads, decide_True by done. simpl. by rewrite vlookup_insert. }
  assert (∀ j, j ≠ i → ma_threads M1 !!! j = ma_threads M !!! j) as H2.
  { intros j Hj. unfold M1. rewrite lookup_update_threads, decide_False by done. simpl.
    by rewrite vlookup_insert_ne. }
  rewrite H1. apply wp_bind, init_head_wp; [done|done|done|]. apply wp_set_threads.
  eexists. split; [reflexivity|]. set (d := th_dead (ma_threads M !!! i)) in *.
  set (M2 := MachineSt _ _ _ _ _).
  assert (∀ j, ma_threads (update_threads i (set_last_match NULL) M2) !!! j =
    if decide (j = i) then Threads NULL 0 d NULL else ma_threads M !!! j) as H3.
  { intros j. rewrite lookup_update_threads. change (ma_threads M2) with (ma_threads M1).
    case_decide as Hj; [subst j; by rewrite H1|by apply H2]. }
  split; try done.
  - intros x. simpl. destruct (decide (x = d)) as [->|?];
      [by rewrite lookup_insert_eq|by rewrite lookup_insert_ne].
  - intros j. rewrite H3. case_decide; by subst.
  - intros j ->%list_elem_of_singleton. rewrite H3, decide_True by done. split; [done|].
    apply lookup_insert_eq.
  - intros j Hj. rewrite H3, decide_False; [done|]. intros ->. apply Hj. left.
  - intros h Hh. simpl. destruct (decide (h = d)) as [->|?];
      [by rewrite lookup_insert_eq|by rewrite lookup_insert_ne].
Qed.

Lemma init_buckets_wp bs : ∀ M s,
  NoDup bs → heads_live M →
  wp (for_buckets (init_bucket lock) bs) (λ _ s', ∃ M', s' = with_part M' s ∧ inited bs M M') (with_part M s).
Proof.
  induction bs as [|i bs IH]; intros M s Hnd Hl; cbn [for_buckets].
  - apply wp_ret. exists M. split; [done|apply inited_nil].
  - apply NoDup_cons in Hnd as [Hi Hnd]. apply wp_bind. eapply wp_mono; [by apply init_bucket_wp|].
    intros u s1 (M1 & -> & H1). eapply wp_mono; [apply IH; [done|by eapply heads_live_inited]|].
    intros u2 s2 (M2 & -> & H2). exists M2. split; [done|].
    by eapply inited_cons.
Qed.
End init.
