(* ===== verification/MapsObj.v ===== *)
(** The [struct maps] objects: maps__new, maps__get, maps__put and
    maps__delete of src/src/map.c and map.h, over the operations of Maps.v, and
    the allocation of maps.

    A [struct maps] at address [a] is the root word of its tree, its list head
    at [maps_head a] (after that word) and its reference count.  The nodes of
    all trees, the list nodes, the maps and the counts of the dsos are shared
    by all objects. *)
From Stdlib Require Import ZArith Lia.
From stdpp Require Import base tactics option list numbers gmap.
From S2P Require Import Prelude RbTree RbSpec RbRep RbSearch ListHead ListRep Refcount DsoRef Rwsem Maps.

Local Open Scope Z_scope.

Record maps_obj := MapsObj { mo_entries : Z; mo_refcnt : Z }.

Record maps_world := MapsWorld {
  mw_node : gmap Z rb_node;
  mw_list : list_mem;
  mw_map : gmap Z map;
  mw_dso : gmap Z Z;
  mw_obj : gmap Z maps_obj;
  mw_pool : list Z;            (* what malloc returns next for a [struct maps] *)
  mw_map_pool : list Z;        (* and for a [struct map] *)
}.

#[export] Instance maps_obj_store : Store maps_world (gmap Z maps_obj).
Proof.
  refine {| part := mw_obj;
    with_part o w := MapsWorld (mw_node w) (mw_list w) (mw_map w) (mw_dso w) o
                       (mw_pool w) (mw_map_pool w) |};
    by try intros ? ? []; try intros [].
Defined.
#[export] Instance maps_world_dso_store : Store maps_world (gmap Z Z).
Proof.
  refine {| part := mw_dso;
    with_part d w := MapsWorld (mw_node w) (mw_list w) (mw_map w) d (mw_obj w)
                       (mw_pool w) (mw_map_pool w) |};
    by try intros ? ? []; try intros [].
Defined.

Abbreviation mwm := (cm maps_world).

(** [&maps->head] *)
Definition maps_head (maps : Z) : Z := maps + 8.

(** The object at [a] as the state of Maps.v, and back. *)
Definition maps_view (w : maps_world) (a : Z) (o : maps_obj) : maps_st :=
  MapsSt (RbState (mw_node w) (mo_entries o)) (mw_list w) (mw_map w) (mw_dso w) (maps_head a).
Definition maps_unview (w : maps_world) (a : Z) (o : maps_obj) (s : maps_st) : maps_world :=
  MapsWorld (rb_mem (ms_rb s)) (ms_list s) (ms_map s) (ms_dso s)
    (<[a := MapsObj (rb_root_node (ms_rb s)) (mo_refcnt o)]> (mw_obj w))
    (mw_pool w) (mw_map_pool w).

(** Code of Maps.v on one object. *)
Definition on_maps {A} (a : Z) (m : mm A) : mwm A := λ w,
  if a =? NULL then Fault else
  match mw_obj w !! a with
  | None => Fault
  | Some o =>
    match m (maps_view w a o) with
    | Ok (v, s) => Ok (v, maps_unview w a o s)
    | Fault => Fault
    | Abort => Abort
    | NoFuel => NoFuel
    end
  end.

(** Code of Maps.v on a map, whatever set it is in. *)
Definition on_map {A} (m : mm A) : mwm A := λ w,
  match m (maps_view w NULL (MapsObj NULL 0)) with
  | Ok (v, s) => Ok (v, MapsWorld (rb_mem (ms_rb s)) (ms_list s) (ms_map s) (ms_dso s)
                          (mw_obj w) (mw_pool w) (mw_map_pool w))
  | Fault => Fault
  | Abort => Abort
  | NoFuel => NoFuel
  end.

(** [xmalloc(sizeof( *maps))] *)
Definition xmalloc_maps : mwm Z := λ w,
  match mw_pool w with
  | [] => Abort
  | a :: pool =>
    Ok (a, MapsWorld (mw_node w) (<[maps_head a := ListHead 0 0]> (mw_list w)) (mw_map w)
             (mw_dso w) (<[a := MapsObj 0 0]> (mw_obj w)) pool (mw_map_pool w))
  end.

Definition maps_set_refcnt (a n : Z) : mwm unit :=
  lift (obj_store a (λ o, MapsObj (mo_entries o) n)).

(** [free(maps)] *)
Definition maps_free (a : Z) : mwm unit := λ w,
  Ok (tt, MapsWorld (mw_node w) (delete (maps_head a) (mw_list w)) (mw_map w) (mw_dso w)
            (delete a (mw_obj w)) (mw_pool w) (mw_map_pool w)).

(** [xmalloc(sizeof( *map))] *)
Definition xmalloc_map : mwm Z := λ w,
  match mw_map_pool w with
  | [] => Abort
  | a :: pool =>
    Ok (a, MapsWorld (<[a := RbNode 0 0 0]> (mw_node w))
             (<[map_node a := ListHead 0 0]> (mw_list w))
             (<[a := Map 0 0 0 0 0 0 0 0 0 0 0 0]> (mw_map w))
             (mw_dso w) (mw_obj w) (mw_pool w) pool)
  end.

Section maps_objects.
Variable lock : pthread_rwlock maps_st.

Definition maps__new : mwm Z :=
  maps ← xmalloc_maps;
  on_maps maps (maps__init lock);;
  maps_set_refcnt maps (refcount_set 1);;
  mret maps.

Definition maps__get (maps : Z) : mwm Z :=
  if maps =? NULL then mret maps else
  o ← lift (obj_load maps);
  maps_set_refcnt maps (refcount_inc (mo_refcnt o));;
  mret maps.

Definition maps__delete (maps : Z) : mwm unit :=
  on_maps maps (maps__exit lock);;
  maps_free maps.

Definition maps__put (maps : Z) : mwm unit :=
  if maps =? NULL then mret tt else
  o ← lift (obj_load maps);
  let '(r, last) := refcount_dec_and_test (mo_refcnt o) in
  maps_set_refcnt maps r;;
  if (last : bool) then maps__delete maps else mret tt.
End maps_objects.

(** ** Creation and references *)

Definition obj_refs (w : maps_world) : gmap Z Z := mo_refcnt <$> mw_obj w.

(** What malloc returns for [struct maps] is not in use. *)
Definition maps_pool_ok (w : maps_world) : Prop :=
  NoDup (mw_pool w) ∧
  Forall (λ a, a ≠ NULL ∧ maps_head a ≠ NULL ∧ ¬ is_Some (mw_obj w !! a)) (mw_pool w).

#[export] Instance maps_pool_ok_dec w : Decision (maps_pool_ok w).
Proof. unfold maps_pool_ok. apply _. Defined.

Lemma obj_refs_insert w a o :
  mo_refcnt <$> <[a := o]> (mw_obj w) = <[a := mo_refcnt o]> (obj_refs w).
Proof. apply fmap_insert. Qed.

Lemma wp_on_maps {A} a o (m : mm A) (Q : A → maps_world → Prop) w :
  a ≠ NULL → mw_obj w !! a = Some o →
  wp m (λ v s, Q v (maps_unview w a o s)) (maps_view w a o) → wp (on_maps a m) Q w.
Proof.
  intros Ha Ho Hm. unfold wp, on_maps in *. rewrite (proj2 (Z.eqb_neq _ _) Ha), Ho.
  by destruct (m _) as [[v s]| | |].
Qed.

(** [INIT_LIST_HEAD] on a head of fresh memory. *)
Lemma init_head_run h n L :
  h ≠ NULL → wp (INIT_LIST_HEAD h) (λ _ L', L' = <[h := ListHead h h]> L) (<[h := n]> L).
Proof.
  intros Hh%Z.eqb_neq. change NULL with 0 in Hh.
  unfold wp, INIT_LIST_HEAD, set_next, set_prev, lh_store, mbind, cm_bind.
  rewrite Hh, lookup_insert_eq. rewrite lookup_insert_eq. by rewrite !insert_insert_eq.
Qed.

Lemma maps_new_run lock w a pool :
  maps_pool_ok w → mw_pool w = a :: pool →
  wp (maps__new lock) (λ v w', v = a ∧ w' = MapsWorld (mw_node w)
       (<[maps_head a := ListHead (maps_head a) (maps_head a)]> (mw_list w)) (mw_map w)
       (mw_dso w) (<[a := MapsObj NULL 1]> (mw_obj w)) pool (mw_map_pool w)) w.
Proof.
  intros [_ Hp] He. rewrite He in Hp. apply Forall_cons in Hp as [(Ha & Hh & _) _].
  unfold maps__new. apply wp_bind. unfold wp at 1, xmalloc_maps. rewrite He.
  apply wp_bind. eapply wp_on_maps; [done|simpl; apply lookup_insert_eq|].
  unfold maps__init. apply wp_bind, wp_lift. simpl. apply wp_set_root.
  apply wp_bind, wp_get, wp_bind, wp_lift. simpl.
  eapply wp_mono; [by apply init_head_run|]. intros _ L' ->.
  apply wp_init_rwsem, wp_ret, wp_bind, wp_lift. eapply wp_obj_store; [done|simpl; apply lookup_insert_eq|].
  simpl. apply wp_ret. split; [done|]. by rewrite !insert_insert_eq.
Qed.

Lemma maps_get_run w a o :
  a ≠ NULL → mw_obj w !! a = Some o →
  wp (maps__get a) (λ v w', v = a ∧
    w' = with_part (<[a := MapsObj (mo_entries o) (refcount_inc (mo_refcnt o))]> (mw_obj w)) w) w.
Proof.
  intros Ha Ho. unfold maps__get. rewrite (proj2 (Z.eqb_neq _ _) Ha). apply wp_bind.
  apply (wp_lift_pure _ (λ v, v = o)); [by eapply wp_obj_load|]. intros v ->.
  apply wp_bind, wp_lift. eapply wp_obj_store; [done|exact Ho|]. by apply wp_ret.
Qed.

(** ** The invariant of all objects *)

(** [ml a] are the maps of the object [a] in the order of its tree and [xl a]
    the same ones in the order of its list; objects share no map, and what
    malloc returns next overlaps nothing. *)
Record objs_ok (w : maps_world) (ml xl : Z → list Z) : Prop := {
  oo_inv a o : mw_obj w !! a = Some o →
    maps_inv (maps_view w a o) (ml a) (xl a) ∧ sorted_maps (mw_map w) (ml a);
  oo_none a : mw_obj w !! a = None → ml a = [] ∧ xl a = [];
  oo_perm a : xl a ≡ₚ ml a;
  oo_sep a b x : x ∈ ml a → x ∈ ml b → a = b;
  oo_head a b : is_Some (mw_obj w !! a) ∨ a ∈ mw_pool w → maps_head a ∉ map_node <$> ml b;
  oo_map_pool : NoDup (mw_map_pool w) ∧ ∀ x, x ∈ mw_map_pool w →
    node_ok x ∧ (∀ a, x ∉ ml a) ∧ mw_map w !! x = None ∧
    ∀ a, is_Some (mw_obj w !! a) ∨ a ∈ mw_pool w → map_node x ≠ maps_head a;
}.

(** What creating objects and counting their references leaves alone. *)
Definition objs_evolve (w w' : maps_world) : Prop :=
  mw_dso w' = mw_dso w ∧ mw_map w' = mw_map w ∧ mw_map_pool w' = mw_map_pool w ∧
  (maps_pool_ok w → maps_pool_ok w') ∧
  ∀ ml xl, objs_ok w ml xl → objs_ok w' ml xl.

Lemma objs_evolve_refl w : objs_evolve w w.
Proof. by split_and!. Qed.
Lemma objs_evolve_trans w1 w2 w3 : objs_evolve w1 w2 → objs_evolve w2 w3 → objs_evolve w1 w3.
Proof.
  intros (D1 & M1 & P1 & Q1 & I1) (D2 & M2 & P2 & Q2 & I2). split_and!; [congruence..| |]; auto.
Qed.

Lemma maps_head_inj a b : maps_head a = maps_head b → a = b.
Proof. unfold maps_head. lia. Qed.

Lemma maps_view_same w w' a o l xs :
  (∀ x, x ∈ l → mw_node w' !! x = mw_node w !! x) →
  (∀ x, x ∈ maps_head a :: (map_node <$> xs) → mw_list w' !! x = mw_list w !! x) →
  (∀ x, x ∈ l → is_Some (mw_map w !! x) → is_Some (mw_map w' !! x)) →
  maps_inv (maps_view w a o) l xs → maps_inv (maps_view w' a o) l xs.
Proof.
  intros Hn Hl Hm [(t & Ht & Hrb & Ho) Hlive Hlist]. split; simpl in *.
  - exists t. split; [|done]. eapply represents_frame; [exact Ht| |done].
    intros x Hx. apply Hn. by rewrite <- Ho.
  - intros x Hx. by apply Hm, Hlive.
  - by eapply is_list_agree.
Qed.

Lemma maps_new_evolve w a pool :
  maps_pool_ok w → mw_pool w = a :: pool →
  objs_evolve w (MapsWorld (mw_node w)
    (<[maps_head a := ListHead (maps_head a) (maps_head a)]> (mw_list w)) (mw_map w)
    (mw_dso w) (<[a := MapsObj NULL 1]> (mw_obj w)) pool (mw_map_pool w)).
Proof.
  intros [Hnd Hp] He. rewrite He in Hnd, Hp. apply Forall_cons in Hp as [(Ha & Hh & Ho) Hp].
  apply eq_None_not_Some in Ho. split_and!; [done|done|done| |].
  { intros _. split; simpl; [by apply NoDup_cons in Hnd as [_ ?]|].
    apply NoDup_cons in Hnd as [Han _]. rewrite Forall_forall in Hp |- *.
    intros x Hx. destruct (Hp x Hx) as (? & ? & ?). split_and!; [done|done|].
    rewrite lookup_insert_ne; [done|]. by intros ->. }
  intros ml xl [H1 H2 H3 H4 H5 H6].
  assert (∀ b, is_Some (<[a := MapsObj NULL 1]> (mw_obj w) !! b) ∨ b ∈ pool →
    is_Some (mw_obj w !! b) ∨ b ∈ mw_pool w) as Hsub.
  { intros b Hb. rewrite He. destruct (decide (b = a)) as [->|Hne]; [right; left|].
    rewrite lookup_insert_ne in Hb by done. destruct Hb; [by left|right; by right]. }
  split; simpl; [| |done|done| |].
  - intros b o Hb. destruct (decide (b = a)) as [->|Hne].
    + destruct (H2 a Ho) as [-> ->]. split; [|constructor]. split; simpl.
      * exists E. rewrite lookup_insert_eq in Hb. injection Hb as <-.
        split_and!; [|by exists 0%nat; constructor|done].
        split_and!; [done|done|apply NoDup_nil_2].
      * by intros x Hx%not_elem_of_nil.
      * split_and!; [|apply NoDup_singleton|].
        -- simpl. unfold lnk, nx, pv. by rewrite lookup_insert_eq.
        -- by intros Hz%list_elem_of_singleton.
    + rewrite lookup_insert_ne in Hb by done. destruct (H1 b o Hb) as [Hi Hs]. split; [|done].
      eapply (maps_view_same w); [done| |done|exact Hi]. intros x Hx. simpl.
      rewrite lookup_insert_ne; [done|]. intros <-. apply elem_of_cons in Hx as [Hx|Hx].
      * by apply maps_head_inj in Hx.
      * rewrite H3 in Hx. revert Hx. apply H5. right. rewrite He. left.
  - intros b Hb. apply H2. by apply lookup_insert_None in Hb as [? _].
  - intros b c Hb. by apply H5, Hsub.
  - destruct H6 as [? H6]. split; [done|]. intros x Hx. destruct (H6 x Hx) as (? & ? & ? & Hxh).
    split_and!; [done..|]. intros b Hb. by apply Hxh, Hsub.
Qed.

Lemma maps_pool_ok_get w a o n :
  mw_obj w !! a = Some o →
  maps_pool_ok w ↔ maps_pool_ok (with_part (<[a := MapsObj (mo_entries o) n]> (mw_obj w)) w).
Proof.
  intros Ho. unfold maps_pool_ok. simpl. f_equiv. rewrite !Forall_forall.
  assert (∀ x, is_Some (<[a := MapsObj (mo_entries o) n]> (mw_obj w) !! x) ↔
    is_Some (mw_obj w !! x)) as Hdom.
  { intros x. rewrite <- !elem_of_dom. by rewrite dom_insert_lookup_L. }
  by setoid_rewrite Hdom.
Qed.

Lemma maps_get_evolve w a o n :
  mw_obj w !! a = Some o →
  objs_evolve w (with_part (<[a := MapsObj (mo_entries o) n]> (mw_obj w)) w).
Proof.
  intros Ho. split_and!; [done|done|done|by apply maps_pool_ok_get|].
  intros ml xl [H1 H2 H3 H4 H5 H6].
  assert (∀ b, is_Some (<[a := MapsObj (mo_entries o) n]> (mw_obj w) !! b) →
    is_Some (mw_obj w !! b)) as Hsub.
  { intros b. destruct (decide (b = a)) as [->|?]; [by eexists|by rewrite lookup_insert_ne]. }
  split; simpl; [| |done|done| |].
  - intros b o' Hb. destruct (decide (b = a)) as [->|Hne].
    + rewrite lookup_insert_eq in Hb. injection Hb as <-. apply (H1 a o Ho).
    + rewrite lookup_insert_ne in Hb by done. by apply H1.
  - intros b Hb. apply H2. by apply lookup_insert_None in Hb as [? _].
  - intros b c Hb. apply H5. naive_solver.
  - destruct H6 as [? H6]. split; [done|]. intros x Hx. destruct (H6 x Hx) as (? & ? & ? & Hxh).
    split_and!; [done..|]. intros b Hb. apply Hxh. naive_solver.
Qed.
