(* ===== verification/MapsHeld.v ===== *)
(** Giving references to sets of maps back: maps__put and maps__delete of
    src/src/map.h and src/src/map.c on one of many sets.  A set that loses its
    last reference is freed with its maps, and every map gives back its
    reference of its dso. *)
From Stdlib Require Import ZArith Lia.
From stdpp Require Import sorting functions base tactics option list numbers gmap.
From S2P Require Import Prelude RbTree RbSpec RbRep RbIter ListHead ListRep Refcount DsoRef Rwsem.
From S2P Require Import Maps MapsObj.

Local Open Scope Z_scope.

(** The words of two lists. *)
Lemma lists_apart w ml xl b o x :
  objs_ok w ml xl → b ≠ o → is_Some (mw_obj w !! b) → is_Some (mw_obj w !! o) →
  x ∈ maps_head b :: (map_node <$> xl b) → x ∈ maps_head o :: (map_node <$> xl o) → False.
Proof.
  intros Hok Hbo Hb Ho [->|Hx]%elem_of_cons [Hx'|Hx']%elem_of_cons.
  - by apply maps_head_inj in Hx'.
  - rewrite (oo_perm _ _ _ Hok o) in Hx'. revert Hx'. apply (oo_head _ _ _ Hok). by left.
  - subst x. rewrite (oo_perm _ _ _ Hok b) in Hx. revert Hx. apply (oo_head _ _ _ Hok). by left.
  - rewrite (oo_perm _ _ _ Hok b) in Hx. rewrite (oo_perm _ _ _ Hok o) in Hx'.
    apply list_elem_of_fmap in Hx as (y & -> & Hy), Hx' as (z & Hz & Hz').
    apply map_node_ne in Hz as ->. apply Hbo. by eapply (oo_sep _ _ _ Hok).
Qed.

(** ** Counting the references of the dsos *)

(** The maps over the dso [d]. *)
Definition maps_over (M : gmap Z map) (d : Z) : nat :=
  size (filter (λ x : Z * map, m_dso x.2 = d) M).

Lemma maps_over_delete M a m d :
  M !! a = Some m →
  maps_over M d = ((if decide (m_dso m = d) then 1 else 0) + maps_over (delete a M) d)%nat.
Proof.
  intros Ha. unfold maps_over. rewrite <- (insert_delete_id M a m Ha) at 1.
  case_decide as Hd.
  - rewrite map_filter_insert_True by done. rewrite map_size_insert_None; [done|].
    apply map_lookup_filter_None. left. apply lookup_delete_eq.
  - rewrite map_filter_insert_not'; [done|done|]. intros y. by rewrite lookup_delete_eq.
Qed.

(** The count of a dso is what others hold, [k], and the maps over it. *)
Definition dso_counted (M : gmap Z map) (D : gmap Z Z) (d k : Z) : Prop :=
  D !! d = Some (w32 (k + Z.of_nat (maps_over M d))).

Lemma drop_dso_counted M D a m d k :
  M !! a = Some m → d ≠ NULL → dso_counted M D d k →
  dso_counted (delete a M) (drop_dso (m_dso m) D) d k.
Proof.
  intros Ha Hd Hc. unfold dso_counted in *. rewrite (maps_over_delete M a m d Ha) in Hc.
  unfold drop_dso. destruct (decide (m_dso m = d)) as [<-|Hne].
  - rewrite (proj2 (Z.eqb_neq _ _) Hd), lookup_alter_eq, Hc. simpl. f_equal.
    unfold refcount_sub, w32. rewrite Zminus_mod_idemp_l. f_equal. lia.
  - case_match; [done|]. by rewrite lookup_alter_ne.
Qed.

Lemma purged_dsos_counted l d k : ∀ M M' D,
  NoDup l → (∀ a, a ∈ l → ∃ m, M !! a = Some m ∧ m_refcnt m = 1) → d ≠ NULL →
  (∀ x, M' !! x = if decide (x ∈ l) then None else M !! x) →
  dso_counted M D d k → dso_counted M' (purged_dsos M l D) d k.
Proof.
  induction l as [|a l IH]; intros M M' D Hnd Hl Hd HM Hc; simpl.
  - replace M' with M; [done|]. apply map_eq. intros x. rewrite HM.
    rewrite decide_False; [done|]. apply not_elem_of_nil.
  - apply NoDup_cons in Hnd as [Ha Hnd]. destruct (Hl a ltac:(left)) as (m & Hm & Hr).
    rewrite Hm, Hr. simpl.
    assert (∀ b, b ∈ l → delete a M !! b = M !! b) as Hsame.
    { intros b Hb. rewrite lookup_delete_ne; [done|]. by intros ->. }
    rewrite <- (purged_dsos_agree M (delete a M) l) by done.
    apply IH; [done| |done| |by apply drop_dso_counted].
    + intros b Hb. rewrite Hsame by done. apply Hl. by right.
    + intros x. rewrite HM. destruct (decide (x = a)) as [->|Hx].
      * rewrite lookup_delete_eq. rewrite decide_True by left. by case_decide.
      * rewrite lookup_delete_ne by done. repeat case_decide; try done; set_solver.
Qed.

(** ** The sets and the references to them *)

(** [n a] references of the set [a] are held; every map is in a set, which
    alone holds it; [k d] references of the dso [d] are not held by maps. *)
Record sets_held (w : maps_world) (n : Z → nat) (k : gmap Z Z) (ml xl : Z → list Z) : Prop := {
  sh_ok : objs_ok w ml xl;
  sh_count a o : mw_obj w !! a = Some o →
    mo_refcnt o = Z.of_nat (n a) ∧ 0 < mo_refcnt o < 2 ^ 32;
  sh_none a : mw_obj w !! a = None → n a = 0%nat;
  sh_map b x : x ∈ ml b → node_ok x ∧ ∃ m, mw_map w !! x = Some m ∧ m_refcnt m = 1 ∧
    (m_dso m = NULL ∨ is_Some (mw_dso w !! m_dso m));
  sh_all x : is_Some (mw_map w !! x) → ∃ b, x ∈ ml b;
  sh_dsos d j : k !! d = Some j → d ≠ NULL ∧ dso_counted (mw_map w) (mw_dso w) d j;
}.

(** A state where no set is held has no sets and no maps. *)
Lemma nothing_held w n k ml xl :
  sets_held w n k ml xl → (∀ a, n a = 0%nat) →
  mw_obj w = ∅ ∧ mw_map w = ∅ ∧ ∀ d j, k !! d = Some j → mw_dso w !! d = Some (w32 j).
Proof.
  intros [Hok Hc Hn Hm Ha Hk] Hz.
  assert (mw_obj w = ∅) as Ho.
  { apply map_empty. intros a. destruct (mw_obj w !! a) as [o|] eqn:Hoa; [|done].
    destruct (Hc a o Hoa) as [He ?]. rewrite Hz in He. lia. }
  assert (mw_map w = ∅) as Hme.
  { apply map_empty. intros x. destruct (mw_map w !! x) as [m|] eqn:Hx; [|done].
    destruct (Ha x ltac:(by eexists)) as (b & Hb).
    destruct (oo_none _ _ _ Hok b) as [Hnil _]; [by rewrite Ho|].
    rewrite Hnil in Hb. by apply not_elem_of_nil in Hb. }
  split_and!; [done|done|]. intros d j Hd. destruct (Hk d j Hd) as [_ Hcd].
  unfold dso_counted in Hcd. rewrite Hcd, Hme. unfold maps_over. rewrite map_filter_empty.
  simpl. by rewrite Z.add_0_r.
Qed.

Lemma held_same w n n' k ml xl :
  (∀ a, n a = n' a) → sets_held w n k ml xl → sets_held w n' k ml xl.
Proof.
  intros He [H1 H2 H3 H4 H5 H6]. split; try done; intros a; rewrite <- He; auto.
Qed.

(** One reference of several. *)
Lemma held_less w n k ml xl a o :
  sets_held w n k ml xl → mw_obj w !! a = Some o → (1 < n a)%nat →
  sets_held (with_part (<[a := MapsObj (mo_entries o) (mo_refcnt o - 1)]> (mw_obj w)) w)
    (<[a := (n a - 1)%nat]> n) k ml xl.
Proof.
  intros [H1 H2 H3 H4 H5 H6] Ho Hn. split; simpl; [|..|done|done|done].
  - by apply maps_get_evolve.
  - intros b ob Hb. destruct (decide (b = a)) as [->|Hne].
    + rewrite lookup_insert_eq in Hb. injection Hb as <-. rewrite fn_lookup_insert. simpl.
      destruct (H2 a o Ho). lia.
    + rewrite lookup_insert_ne in Hb by done. rewrite fn_lookup_insert_ne by done. by apply H2.
  - intros b Hb. apply lookup_insert_None in Hb as [Hb Hne].
    rewrite fn_lookup_insert_ne by done. by apply H3.
Qed.

Lemma set_refcnt_wp a o r w (Q : unit → maps_world → Prop) :
  a ≠ NULL → mw_obj w !! a = Some o →
  Q tt (with_part (<[a := MapsObj (mo_entries o) r]> (mw_obj w)) w) → wp (maps_set_refcnt a r) Q w.
Proof. intros Ha Ho HQ. apply wp_lift. by eapply wp_obj_store. Qed.

Lemma purged_dsos_live M l : ∀ D d, is_Some (D !! d) → is_Some (purged_dsos M l D !! d).
Proof.
  induction l as [|a l IH]; intros D d Hd; [done|]. apply IH. repeat case_match; try done.
  by apply drop_dso_live.
Qed.

(** The state without the set [a], as the purge leaves it. *)
Record set_gone (w w' : maps_world) (a : Z) (l xs : list Z) : Prop := {
  sg_obj : mw_obj w' = delete a (mw_obj w);
  sg_pool : mw_pool w' = mw_pool w;
  sg_map_pool : mw_map_pool w' = mw_map_pool w;
  sg_map x : mw_map w' !! x = if decide (x ∈ l) then None else mw_map w !! x;
  sg_dso : mw_dso w' = purged_dsos (mw_map w) l (mw_dso w);
  sg_node x : x ∉ l → mw_node w' !! x = mw_node w !! x;
  sg_list x : x ∉ maps_head a :: (map_node <$> xs) → mw_list w' !! x = mw_list w !! x;
}.

Lemma set_gone_ok w w' a ml xl :
  objs_ok w ml xl → is_Some (mw_obj w !! a) → set_gone w w' a (ml a) (xl a) →
  objs_ok w' (<[a := []]> ml) (<[a := []]> xl).
Proof.
  intros Hok Ha [HO HP HMP HM HD HN HL]. pose proof Hok as [H1 H2 H3 H4 H5 [H6 H7]].
  assert (∀ b x, x ∈ (<[a := []]> ml) b → b ≠ a ∧ x ∈ ml b) as Hin.
  { intros b x. destruct (decide (b = a)) as [->|Hb];
      [rewrite fn_lookup_insert; by intros ?%not_elem_of_nil|by rewrite fn_lookup_insert_ne]. }
  assert (∀ b, is_Some (mw_obj w' !! b) → is_Some (mw_obj w !! b)) as Hsub.
  { intros b. rewrite HO. destruct (decide (b = a)) as [->|?]; [done|by rewrite lookup_delete_ne]. }
  assert (∀ b x, b ≠ a → x ∈ ml b → mw_map w' !! x = mw_map w !! x) as Hother.
  { intros b x Hb Hx. rewrite HM, decide_False; [done|]. intros Hxa. by apply Hb, (H4 b a x). }
  split; [| | | | |split].
  - intros b o Hb. rewrite HO in Hb. apply lookup_delete_Some in Hb as [Hne Hb].
    rewrite !fn_lookup_insert_ne by done. apply not_eq_sym in Hne. destruct (H1 b o Hb) as [Hi Hs].
    split.
    + eapply (maps_view_same w); [| | |exact Hi].
      * intros x Hx. apply HN. intros Hxa. by apply Hne, (H4 b a x).
      * intros x Hx. apply HL. intros Hx'. eapply (lists_apart w ml xl b a); try done.
      * intros x Hx. by rewrite (Hother b).
    + eapply sorted_impl; [|exact Hs]. intros x y Hx Hy. unfold start_of. by rewrite !(Hother b).
  - intros b Hb. destruct (decide (b = a)) as [->|Hne]; [by rewrite !fn_lookup_insert|].
    rewrite !fn_lookup_insert_ne by done. apply H2. by rewrite HO, lookup_delete_ne in Hb.
  - intros b. destruct (decide (b = a)) as [->|Hne]; [by rewrite !fn_lookup_insert|].
    rewrite !fn_lookup_insert_ne by done. apply H3.
  - intros b c x [_ Hb]%Hin [_ Hc]%Hin. by eapply H4.
  - intros b c Hb (x & Hx & [_ Hc]%Hin)%list_elem_of_fmap. apply (H5 b c).
    + rewrite HP in Hb. destruct Hb as [Hb%Hsub|Hb]; auto.
    + rewrite Hx. by apply list_elem_of_fmap_2.
  - by rewrite HMP.
  - intros x. rewrite HMP. intros Hx. destruct (H7 x Hx) as (? & Hno & Hnone & Hh).
    split_and!; [done| | |].
    + intros b [_ Hb]%Hin. by apply (Hno b).
    + rewrite HM. by case_decide.
    + intros b Hb. apply Hh. rewrite HP in Hb. destruct Hb as [Hb%Hsub|Hb]; auto.
Qed.

Lemma set_nodup w ml xl a : objs_ok w ml xl → NoDup (ml a).
Proof.
  intros Hok. destruct (mw_obj w !! a) as [o|] eqn:Ho.
  - destruct (oo_inv _ _ _ Hok a o Ho) as [[(t & (_ & _ & ?) & _ & <-) _ _] _]. done.
  - destruct (oo_none _ _ _ Hok a Ho) as [-> _]. constructor.
Qed.

Lemma held_gone w w' n k ml xl a :
  sets_held w n k ml xl → is_Some (mw_obj w !! a) → set_gone w w' a (ml a) (xl a) →
  sets_held w' (<[a := 0%nat]> n) k (<[a := []]> ml) (<[a := []]> xl).
Proof.
  intros [H1 H2 H3 H4 H5 H6] Ha Hg. pose proof Hg as [HO HP HMP HM HD HN HL].
  split; [by eapply set_gone_ok|..].
  - intros b o. rewrite HO. intros [Hne Hb]%lookup_delete_Some.
    rewrite fn_lookup_insert_ne by done. by apply H2.
  - intros b Hb. destruct (decide (b = a)) as [->|Hne]; [by rewrite fn_lookup_insert|].
    rewrite fn_lookup_insert_ne by done. apply H3. by rewrite HO, lookup_delete_ne in Hb.
  - intros b x Hx. destruct (decide (b = a)) as [->|Hne].
    { rewrite fn_lookup_insert in Hx. by apply not_elem_of_nil in Hx. }
    rewrite fn_lookup_insert_ne in Hx by done. destruct (H4 b x Hx) as (? & m & Hm & Hr & Hd).
    split; [done|]. exists m. rewrite HM, decide_False, HD.
    + split_and!; [done|done|]. destruct Hd as [?|Hd]; [by left|]. right. by apply purged_dsos_live.
    + intros Hxa. by apply Hne, (oo_sep _ _ _ H1 b a x).
  - intros x. rewrite HM. case_decide as Hx; [by intros [? ?]|]. intros (b & Hb)%H5. exists b.
    rewrite fn_lookup_insert_ne; [done|]. by intros ->.
  - intros d j Hj. destruct (H6 d j Hj) as [Hd Hc]. split; [done|]. rewrite HD.
    eapply purged_dsos_counted; [by eapply set_nodup| |done|apply HM|done].
    intros x Hx. destruct (H4 a x Hx) as (_ & m & ? & ? & _). by exists m.
Qed.

(** maps__delete purges the set [a] and frees it. *)
Lemma maps_delete_wp lock w n k ml xl a o r :
  sets_held w n k ml xl → mw_obj w !! a = Some o → a ≠ NULL →
  wp (maps__delete lock a) (λ _ w', set_gone w w' a (ml a) (xl a))
     (with_part (<[a := MapsObj (mo_entries o) r]> (mw_obj w)) w).
Proof.
  intros [H1 H2 H3 H4 H5 H6] Ho Ha. pose proof (oo_perm _ _ _ H1 a) as Hperm.
  destruct (oo_inv _ _ _ H1 a o Ho) as [Hi _].
  unfold maps__delete. apply wp_bind. eapply wp_on_maps; [done|simpl; apply lookup_insert_eq|].
  unfold maps__exit, down_write, up_write. simpl. apply wp_bind, wp_ret, wp_bind.
  eapply wp_mono.
  { apply (maps_purge_wp _ (ml a) (xl a)). split_and!; [exact Hi| |].
    - intros x. by rewrite Hperm.
    - intros x Hx. destruct (H4 a x Hx) as (? & m & ? & Hr & ?). split; [done|]. exists m.
      simpl. split_and!; try done; lia. }
  intros _ s (Hinv & HM & HD & Hh & Hfr & Hfl). simpl in *. apply wp_bind, wp_ret, wp_ret.
  unfold wp, maps_free, maps_unview. simpl. rewrite !insert_insert_eq. split; simpl; try done.
  - by rewrite delete_insert_eq.
  - intros x. rewrite HM. unfold purged_map. case_decide as Hx; [|done].
    destruct (H4 a x Hx) as (_ & m & -> & Hr & _). simpl. by rewrite Hr.
  - intros x Hx. rewrite lookup_delete_ne; [by apply Hfl|]. intros <-. apply Hx. left.
Qed.

Lemma maps_put_held_wp lock w n k ml xl a :
  sets_held w n k ml xl → a ≠ NULL → (0 < n a)%nat →
  wp (maps__put lock a)
     (λ _ w', (∃ ml' xl', sets_held w' (<[a := (n a - 1)%nat]> n) k ml' xl') ∧
        ∀ d, is_Some (mw_dso w !! d) → is_Some (mw_dso w' !! d)) w.
Proof.
  intros Hh Ha Hn. destruct (mw_obj w !! a) as [o|] eqn:Ho.
  2: { pose proof (sh_none _ _ _ _ _ Hh a Ho). lia. }
  destruct (sh_count _ _ _ _ _ Hh a o Ho) as [Hc Hr].
  unfold maps__put. rewrite (proj2 (Z.eqb_neq _ _) Ha). apply wp_bind.
  apply (wp_lift_pure _ (λ v, v = o)); [by eapply wp_obj_load|]. intros v ->. simpl.
  rewrite w32_dec by done. apply wp_bind. eapply set_refcnt_wp; [done|exact Ho|].
  unfold refcount_test. destruct (Z.eqb_spec (mo_refcnt o - 1) 0) as [Hz|Hz].
  - eapply wp_mono; [by eapply maps_delete_wp|]. intros u w1 Hg. split.
    + exists (<[a := []]> ml), (<[a := []]> xl). replace (n a - 1)%nat with 0%nat by lia.
      by eapply held_gone; [|eexists|].
    + intros d Hd. rewrite (sg_dso _ _ _ _ _ Hg). by apply purged_dsos_live.
  - apply wp_ret. split; [|done]. exists ml, xl. apply (held_less w n k ml xl a o); [done|done|lia].
Qed.
