(* ===== verification/World.v ===== *)
(** The whole state of a machine: its thread table, its maps and its dsos, each
    component a part of it ([Store] instances), and the maps of MapsObj.v as
    the implementation of what Threads.v asks of maps ([MapsOps],
    [MapsLaws]).  The counts of the dsos are one table, which the maps and the
    list of dsos share. *)
From Stdlib Require Import ZArith Lia.
From stdpp Require Import base tactics option list numbers gmap fin vector finite.
From S2P Require Import Prelude RbTree ListHead Refcount DsoRef Rwsem Maps MapsObj DsoData Dsos.
From S2P Require Import Threads ThreadsInv.

Local Open Scope Z_scope.

Record world := World {
  w_machine : machine_st;
  w_maps : maps_world;
  w_dso_rb : rb_state; w_dso_list : list_mem; w_dso : gmap Z dso;
  w_dso_head : Z; w_dso_pool : list Z;
}.

#[export] Instance world_machine_store : Store world machine_st.
Proof.
  refine {| part := w_machine;
    with_part m w := World m (w_maps w) (w_dso_rb w) (w_dso_list w) (w_dso w)
                       (w_dso_head w) (w_dso_pool w) |};
    by try intros ? ? []; try intros [].
Defined.
#[export] Instance world_maps_store : Store world maps_world.
Proof.
  refine {| part := w_maps;
    with_part m w := World (w_machine w) m (w_dso_rb w) (w_dso_list w) (w_dso w)
                       (w_dso_head w) (w_dso_pool w) |};
    by try intros ? ? []; try intros [].
Defined.
#[export] Instance world_dsos_store : Store world dsos_st.
Proof.
  refine {|
    part w := DsosSt (w_dso_rb w) (w_dso_list w) (w_dso w) (mw_dso (w_maps w))
                (w_dso_head w) (w_dso_pool w);
    with_part d w := World (w_machine w) (with_part (dn_refs d) (w_maps w))
                (dn_rb d) (dn_list d) (dn_dso d) (dn_head d) (dn_pool d) |};
    by try intros [] [] []; try intros [] []; try intros [? []].
Defined.

Section world.
Variable lock : pthread_rwlock maps_st.

#[export] Instance world_maps_ops : MapsOps world := {|
  Threads.maps__new := lift (MapsObj.maps__new lock);
  Threads.maps__get a := lift (MapsObj.maps__get a);
  Threads.maps__put a := lift (MapsObj.maps__put lock a);
  Threads.maps__empty a := lift (on_maps a Maps.maps__empty);
  maps__insert_at a m := lift (on_maps a (maps__insert lock m));
|}.

Definition world_room (w : world) : nat :=
  if decide (maps_pool_ok (w_maps w)) then length (mw_pool (w_maps w)) else 0%nat.

(** Only the maps change, by evolving, and the table. *)
Definition world_evolves (w w' : world) : Prop :=
  objs_evolve (w_maps w) (w_maps w') ∧
  w' = World (w_machine w') (w_maps w') (w_dso_rb w) (w_dso_list w) (w_dso w)
         (w_dso_head w) (w_dso_pool w).

#[export] Instance world_maps_laws : MapsLaws world.
Proof.
  refine {| maps_refs w := obj_refs (w_maps w); maps_room := world_room;
            maps_evolves := world_evolves |}.
  - intros w1 w2 w3 [E1 ->] [E2 ->]. split; [by eapply objs_evolve_trans|done].
  - intros M w. split; [|done]. by apply objs_evolve_refl.
  - done.
  - done.
  - intros w. unfold world_room. case_decide as Hok; [|lia]. intros Hl.
    destruct (mw_pool (w_maps w)) as [|a pool] eqn:Hp; [simpl in Hl; lia|].
    apply wp_lift. eapply wp_mono; [by eapply maps_new_run|]. intros v w' [-> ->].
    pose proof Hok as [Hn Hf]. rewrite Hp in Hn, Hf.
    apply NoDup_cons in Hn as [Ha Hn]. apply Forall_cons in Hf as [(Hz & _ & Ho) Hf].
    split_and!; [done|..|done| |].
    + unfold obj_refs. apply eq_None_not_Some in Ho. by rewrite lookup_fmap, Ho.
    + apply obj_refs_insert.
    + simpl. rewrite decide_True; [done|]. split; simpl; [done|].
      rewrite Forall_forall in Hf |- *. intros x Hx. destruct (Hf x Hx) as (? & ? & ?).
      split_and!; [done|done|]. rewrite lookup_insert_ne; [done|]. by intros ->.
    + split; [by apply maps_new_evolve|done].
  - intros w m n Hm Hr. unfold obj_refs in Hr. rewrite lookup_fmap in Hr.
    apply fmap_Some in Hr as (o & Ho & ->).
    apply wp_lift. eapply wp_mono; [by eapply maps_get_run|]. intros v w' [-> ->].
    split_and!; [done|apply obj_refs_insert|done| |split; [by apply maps_get_evolve|done]].
    unfold world_room. simpl.
    pose proof (maps_pool_ok_get (w_maps w) m o (refcount_inc (mo_refcnt o)) Ho) as Hiff.
    simpl in Hiff. destruct (decide (maps_pool_ok (w_maps w))), (decide _); try done; tauto.
Defined.
End world.
