(* ===== verification/ThreadsProps.v ===== *)
(** The theorems on the thread table of a machine (src/src/machine.c,
    src/src/thread.c). *)
From Stdlib Require Import ZArith Lia String.
From stdpp Require Import base tactics option list numbers gmap sorting fin vector finite strings.
From S2P Require Import Prelude RbTree RbSpec RbRep RbIter RbSearch ListHead Refcount Rwsem.
From S2P Require Import Utility Maps MapsObj CString Unwind Threads ThreadsInv ThreadsFind World.

Local Open Scope Z_scope.


(** An empty table, and memory for four threads and two sets of maps. *)
Definition ex_machine : machine_st :=
  MachineSt ∅ ∅ ∅ (vreplicate THREADS__TABLE_SIZE (Threads NULL 0 NULL NULL))
    [4096; 4160; 4224; 4288].
Definition ex_world : world :=
  World ex_machine (MapsWorld ∅ ∅ ∅ ∅ ∅ [8192; 8256] []) (RbState ∅ NULL) ∅ ∅ 16 [].
Definition ex_rwlock {S} : pthread_rwlock S := no_rwlock.

Lemma ex_machine_inv R : table_inv ex_machine R [] (λ _, []).
Proof. apply empty_table. intros i. unfold ex_machine. cbn [ma_threads]. by rewrite vlookup_replicate. Qed.

Lemma ex_machine_pool : thread_pool_ok ex_machine.
Proof.
  split; [apply (bool_decide_unpack _); by vm_compute|]. intros a Ha. split; [|done].
  assert (Forall (λ a, a ≠ NULL ∧ aligned a) [4096; 4160; 4224; 4288]) as Hf.
  { repeat constructor; done. }
  rewrite Forall_forall in Hf. by apply Hf.
Qed.


(** ** The name of a thread *)

Lemma thread_load_run {S : Type} `{HS : !Store S machine_st} a t (s : S) :
  a ≠ NULL → ma_thread (part s) !! a = Some t → thread_load a s = Ok (t, s).
Proof.
  intros Ha Ht. unfold thread_load, lift, obj_load. simpl.
  rewrite (proj2 (Z.eqb_neq _ _) Ha), Ht.
  replace (MachineSt _ _ _ _ _) with (part s) by by destruct (part s).
  by rewrite with_part_id.
Qed.

Lemma thread_store_same {S : Type} `{HS : !Store S machine_st} a f t (s : S) :
  a ≠ NULL → ma_thread (part s) !! a = Some t → f t = t → thread_store a f s = Ok (tt, s).
Proof.
  intros Ha Ht Hf. unfold thread_store, lift, obj_store. simpl.
  rewrite (proj2 (Z.eqb_neq _ _) Ha), Ht, Hf, insert_id by done.
  replace (MachineSt _ _ _ _ _) with (part s) by by destruct (part s).
  by rewrite with_part_id.
Qed.

(** C30. thread__set_comm never gives a thread another name: it copies the name
    of the sample only when strncmp finds it equal to the one the thread has,
    and then flushes the cache of the address space; a different name is
    ignored. *)
Theorem set_comm_keeps_name {S : Type} `{HS : !Store S machine_st} (flush : Z → cm S unit)
    (thread : Z) (str : string) (t : Threads.thread) (s : S) :
  thread ≠ NULL → ma_thread (part s) !! thread = Some t →
  (String.length (t_name t) ≤ TASK_COMM_LEN)%nat →
  thread__set_comm flush thread str s =
    if bool_decide (String.substring 0 TASK_COMM_LEN str = t_name t)
    then unwind__flush_access flush (unwind_of t) s
    else Ok (tt, s).
Proof.
  intros Hz Ht Hlen. unfold thread__set_comm. erewrite bind_ok by by apply thread_load_run.
  unfold strncmp. rewrite (substring_all _ (t_name t)) by done.
  case_bool_decide as Heq.
  - rewrite Heq, strcmp_refl. simpl.
    erewrite bind_ok by (eapply thread_store_same; [done|exact Ht|by destruct t]).
    by erewrite bind_ok by by apply thread_load_run.
  - by rewrite (proj2 (Z.eqb_neq _ 0)) by by intros Hc%strcmp_eq.
Qed.

Definition ex_named : world :=
  World (MachineSt ∅ ∅ {[4096 := Thread 8192 100 100 "" 7 true 1]} (ma_threads ex_machine) [])
    (w_maps ex_world) (RbState ∅ NULL) ∅ ∅ 16 [].

Lemma set_comm_keeps_name_witness :
  thread__set_comm (λ a w, Ok (tt, w)) 4096 "cat" ex_named = Ok (tt, ex_named).
Proof.
  rewrite (set_comm_keeps_name _ 4096 "cat" (Thread 8192 100 100 "" 7 true 1));
    [done|done|done|simpl; lia].
Defined.
