(* ===== verification/Scanf.v ===== *)
(** The part of scanf(3) that src/src/event.c uses: the conversions [%lx],
    [%x], [%u], [%s] and [%[^\n]], white space and literal characters of a
    format, on a string given as the list of its characters.

    A conversion takes a prefix of the input: [None] is a matching failure (or
    the end of the input), and [Some (v, rest)] the value and what is left. *)
From Stdlib Require Import ZArith Lia Ascii String.
From stdpp Require Import base tactics option list numbers strings.
From S2P Require Import Prelude.

Local Open Scope Z_scope.

(** isspace(3) in the C locale. *)
Definition is_space (c : ascii) : bool :=
  let n := N_of_ascii c in ((n =? 32) || ((9 <=? n) && (n <=? 13)))%N.
Definition newline : ascii := ascii_of_nat 10.

(** The value of a digit, up to base 16. *)
Definition digit_of (c : ascii) : option Z :=
  let n := Z.of_N (N_of_ascii c) in
  if (48 <=? n) && (n <=? 57) then Some (n - 48)
  else if (97 <=? n) && (n <=? 102) then Some (n - 87)
  else if (65 <=? n) && (n <=? 70) then Some (n - 55)
  else None.
Definition digit (base : Z) (c : ascii) : option Z :=
  match digit_of c with
  | Some d => if d <? base then Some d else None
  | None => None
  end.

Fixpoint skip_space (s : list ascii) : list ascii :=
  match s with
  | c :: s' => if is_space c then skip_space s' else s
  | [] => []
  end.

(** The digits at the head of the input, after the value read so far. *)
Fixpoint scan_digits (base acc : Z) (s : list ascii) : Z * list ascii :=
  match s with
  | c :: s' =>
    match digit base c with
    | Some d => scan_digits base (acc * base + d) s'
    | None => (acc, s)
    end
  | [] => (acc, [])
  end.

(** An unsigned numeral: at least one digit. *)
Definition scan_numeral (base : Z) (s : list ascii) : option (Z * list ascii) :=
  match s with
  | c :: s' =>
    match digit base c with
    | Some d => Some (scan_digits base d s')
    | None => None
    end
  | [] => None
  end.

(** The prefix [0x] that base 16 admits. *)
Definition scan_prefix (base : Z) (s : list ascii) : list ascii :=
  match s with
  | "0"%char :: ("x"%char | "X"%char) :: (c :: _) as s' =>
    if (base =? 16) && bool_decide (is_Some (digit base c)) then drop 2 s else s
  | _ => s
  end.

(** An optional sign; whether the value is negated. *)
Definition scan_sign (s : list ascii) : bool * list ascii :=
  match s with
  | "-"%char :: s' => (true, s')
  | "+"%char :: s' => (false, s')
  | _ => (false, s)
  end.

(** [%lx], [%x] and [%u]: white space, a sign, the numeral, as strtoul(3) reads
    it (a value past ULONG_MAX gives ULONG_MAX), stored in [bits] bits. *)
Definition scan_uint (base bits : Z) (s : list ascii) : option (Z * list ascii) :=
  let '(neg, s) := scan_sign (skip_space s) in
  match scan_numeral base (scan_prefix base s) with
  | None => None
  | Some (v, rest) =>
    let v := if 2 ^ 64 - 1 <? v then 2 ^ 64 - 1 else if (neg : bool) then w64 (- v) else v in
    Some (v mod 2 ^ bits, rest)
  end.

Fixpoint span_ascii (f : ascii → bool) (s : list ascii) : list ascii * list ascii :=
  match s with
  | c :: s' =>
    if f c then let '(l, r) := span_ascii f s' in (c :: l, r) else ([], s)
  | [] => ([], [])
  end.

(** [%s] *)
Definition scan_word (s : list ascii) : option (list ascii * list ascii) :=
  match span_ascii (λ c, negb (is_space c)) (skip_space s) with
  | ([], _) => None
  | r => Some r
  end.

(** [%[^\n]] does not skip white space. *)
Definition scan_line (s : list ascii) : option (list ascii * list ascii) :=
  match span_ascii (λ c, negb (Ascii.eqb c newline)) s with
  | ([], _) => None
  | r => Some r
  end.

(** A literal character of the format. *)
Definition scan_char (c : ascii) (s : list ascii) : option (list ascii) :=
  match s with
  | c' :: s' => if Ascii.eqb c c' then Some s' else None
  | [] => None
  end.

(** ** A format *)

(** A directive, with the object its conversion assigns as an update of [R];
    [%s] and [%[^\n]] are given the size of their array. *)
Inductive directive (R : Type) :=
  | Space
  | Lit (c : ascii)
  | Num (base bits : Z) (set : Z → R → R)
  | Word (size : nat) (set : list ascii → R → R)
  | Line (size : nat) (set : list ascii → R → R).
Arguments Space {R}.
Arguments Lit {R}.
Arguments Num {R}.
Arguments Word {R}.
Arguments Line {R}.

(** What sscanf returns when a directive fails: EOF when the input has ended
    before the first conversion. *)
Definition scan_stop (n : Z) (s : list ascii) : Z :=
  match skip_space s with [] => if n =? 0 then -1 else n | _ => n end.

(** The number of conversions and the objects; a string that does not fit its
    array with its terminator is a fault. *)
Fixpoint sscanf {R} (fmt : list (directive R)) (s : list ascii) (n : Z) (r : R) :
    outcome (Z * R) :=
  match fmt with
  | [] => Ok (n, r)
  | Space :: fmt => sscanf fmt (skip_space s) n r
  | Lit c :: fmt =>
    match scan_char c s with
    | None => Ok (scan_stop n s, r)
    | Some s => sscanf fmt s n r
    end
  | Num base bits set :: fmt =>
    match scan_uint base bits s with
    | None => Ok (scan_stop n s, r)
    | Some (v, s) => sscanf fmt s (n + 1) (set v r)
    end
  | Word size set :: fmt =>
    match scan_word s with
    | None => Ok (scan_stop n s, r)
    | Some (w, s) => if (length w <? size)%nat then sscanf fmt s (n + 1) (set w r) else Fault
    end
  | Line size set :: fmt =>
    match scan_line s with
    | None => Ok (scan_stop n s, r)
    | Some (w, s) => if (length w <? size)%nat then sscanf fmt s (n + 1) (set w r) else Fault
    end
  end.

(** ** Reading back what was printed *)

(** [l] is a numeral of value [v]. *)
Definition numeral (base : Z) (l : list ascii) (v : Z) : Prop :=
  l ≠ [] ∧ Forall (λ c, is_Some (digit base c)) l ∧ fst (scan_digits base 0 l) = v.

(** What follows a numeral does not continue it. *)
Definition stops (base : Z) (s : list ascii) : Prop :=
  match s with
  | c :: _ => digit base c = None ∧ c ≠ "x"%char ∧ c ≠ "X"%char
  | [] => True
  end.

Lemma scan_digits_app base l s acc :
  Forall (λ c, is_Some (digit base c)) l → stops base s →
  scan_digits base acc (l ++ s) = (fst (scan_digits base acc l), s).
Proof.
  intros Hl Hs. revert acc. induction Hl as [|c l [d Hd] Hl IH]; intros acc; simpl.
  - destruct s as [|c s]; [done|]. simpl in *. destruct Hs as [Hs _]. by rewrite Hs.
  - rewrite Hd. apply IH.
Qed.

Lemma digit_not_space base c : is_Some (digit base c) → is_space c = false.
Proof.
  unfold digit, digit_of, is_space. intros [d Hd].
  destruct (N_of_ascii c =? 32)%N eqn:E1; [apply N.eqb_eq in E1; rewrite E1 in Hd; done|].
  destruct (9 <=? N_of_ascii c)%N eqn:E2, (N_of_ascii c <=? 13)%N eqn:E3; try done.
  apply N.leb_le in E2, E3.
  destruct ((48 <=? Z.of_N (N_of_ascii c)) && _) eqn:E4; [lia|].
  destruct ((97 <=? Z.of_N (N_of_ascii c)) && _) eqn:E5; [lia|].
  destruct ((65 <=? Z.of_N (N_of_ascii c)) && _) eqn:E6; [lia|]. done.
Qed.

Lemma digit_not_sign base c : is_Some (digit base c) → c ≠ "-"%char ∧ c ≠ "+"%char.
Proof. by intros [d Hd]; split; intros ->. Qed.

Lemma skip_space_id c s : is_space c = false → skip_space (c :: s) = c :: s.
Proof. intros Hc. simpl. by rewrite Hc. Qed.

Lemma skip_space_app p s : Forall (λ c, is_space c = true) p → skip_space (p ++ s) = skip_space s.
Proof. induction 1 as [|c p Hc Hp IH]; simpl; [done|]. by rewrite Hc. Qed.

Lemma scan_prefix_id base l s :
  l ≠ [] → Forall (λ c, is_Some (digit base c)) l → stops base s →
  scan_prefix base (l ++ s) = l ++ s.
Proof.
  intros Hne Hl Hs. destruct l as [|c1 l]; [done|]. apply Forall_cons in Hl as [_ Hl].
  assert (∀ c r, l ++ s = c :: r → c ≠ "x"%char ∧ c ≠ "X"%char) as Hx.
  { intros c r Hc. destruct l as [|c2 l]; simpl in Hc.
    - subst s. by destruct Hs.
    - injection Hc as -> _. apply Forall_cons in Hl as [[d Hd] _]. by split; intros ->. }
  simpl. destruct (ascii_dec c1 "0"%char) as [->|H1].
  - destruct (l ++ s) as [|c r]; [done|]. destruct (Hx c r eq_refl) as [H1 H2].
    destruct r as [|c' r']; [by destruct c as [[][][][][][][][]]|].
    by destruct c as [[][][][][][][][]].
  - by destruct c1 as [[][][][][][][][]].
Qed.

Lemma scan_sign_id c s : c ≠ "-"%char → c ≠ "+"%char → scan_sign (c :: s) = (false, c :: s).
Proof. intros H1 H2. by destruct c as [[][][][][][][][]]. Qed.

Lemma scan_uint_numeral base bits p l s v :
  Forall (λ c, is_space c = true) p → numeral base l v → stops base s → 0 ≤ v < 2 ^ 64 →
  scan_uint base bits (p ++ l ++ s) = Some (v mod 2 ^ bits, s).
Proof.
  intros Hp (Hne & Hl & Hv) Hs Hb. unfold scan_uint. rewrite skip_space_app by done.
  pose proof (scan_prefix_id base l s Hne Hl Hs) as Hpre.
  destruct l as [|c l]; [done|]. pose proof Hl as [Hc Hl']%Forall_cons.
  destruct (digit_not_sign _ _ Hc) as [Hm Hpl].
  simpl app in *. rewrite skip_space_id by (by eapply digit_not_space).
  rewrite scan_sign_id, Hpre by done. simpl in Hv |- *. destruct Hc as [d Hd].
  rewrite Hd in Hv |- *. rewrite Z.mul_0_l, Z.add_0_l in Hv. rewrite scan_digits_app, Hv by done.
  by rewrite (proj2 (Z.ltb_ge _ _)) by lia.
Qed.

Lemma scan_word_app p l c s :
  Forall (λ c, is_space c = true) p → l ≠ [] → Forall (λ c, is_space c = false) l →
  is_space c = true → scan_word (p ++ l ++ c :: s) = Some (l, c :: s).
Proof.
  intros Hp Hne Hl Hc. unfold scan_word. rewrite skip_space_app by done.
  assert (span_ascii (λ c, negb (is_space c)) (l ++ c :: s) = (l, c :: s)) as Hspan.
  { clear Hne. induction Hl as [|d l Hd Hl IH]; simpl; [by rewrite Hc|]. by rewrite Hd, IH. }
  destruct l as [|d l]; [done|]. apply Forall_cons in Hl as [Hd _]. simpl app in *.
  rewrite skip_space_id by done. by rewrite Hspan.
Qed.

Lemma scan_line_app l s :
  l ≠ [] → Forall (λ c, c ≠ newline) l → scan_line (l ++ newline :: s) = Some (l, newline :: s).
Proof.
  intros Hne Hl. unfold scan_line.
  assert (span_ascii (λ c, negb (Ascii.eqb c newline)) (l ++ newline :: s) = (l, newline :: s)) as ->.
  { clear Hne. induction Hl as [|d l Hd Hl IH]; simpl; [done|].
    by rewrite (proj2 (Ascii.eqb_neq _ _) Hd), IH. }
  by destruct l.
Qed.
