(* ===== verification/Event.v ===== *)
(** The maps of a process, read from /proc: bpf_unwind_ctx_prepare_mmap of
    src/src/event.c.

    The file is the list of its characters; fopen is a parameter, and what the
    function does with each event is the handler it is given. *)
From Stdlib Require Import ZArith Lia Ascii String.
From stdpp Require Import base tactics option list numbers strings pretty.
From S2P Require Import Prelude Maps Scanf.

Local Open Scope Z_scope.

(** ** Data *)

(** [struct mmap2_event]: the part map.c reads, the ids and the file name. *)
Record mmap_event := MmapEvent {
  me_tgid : Z; me_tid : Z; me_map : mmap2_event; me_filename : list ascii;
}.

(** sys/mman.h *)
Definition PROT_READ : Z := 1.
Definition PROT_WRITE : Z := 2.
Definition PROT_EXEC : Z := 4.
Definition MAP_SHARED : Z := 1.
Definition MAP_PRIVATE : Z := 2.
(** stdio.h *)
Definition BUFSIZ : nat := 8192.
Definition PATH_LEN : nat := 4096.

(** The objects that the sscanf of a line assigns. *)
Record scanned := Scanned {
  sc_start : Z; sc_len : Z; sc_prot : list ascii; sc_pgoff : Z;
  sc_maj : Z; sc_min : Z; sc_ino : Z; sc_execname : list ascii;
}.

Definition chars (s : string) : list ascii := list_ascii_of_string s.

(** [fgets(bf, size, fp)]: at most [size - 1] characters, up to a newline. *)
Fixpoint fgets_take (n : nat) (s : list ascii) : list ascii * list ascii :=
  match n, s with
  | O, _ | _, [] => ([], s)
  | S n, c :: s =>
    if Ascii.eqb c newline then ([c], s)
    else let '(l, r) := fgets_take n s in (c :: l, r)
  end.
Definition fgets (size : nat) (s : list ascii) : option (list ascii * list ascii) :=
  match s with [] => None | _ => Some (fgets_take (size - 1) s) end.

(** "%"PRIx64"-%"PRIx64" %s %"PRIx64" %x:%x %u %[^\n]\n", with [char prot[5]]
    and [char execname[PATH_MAX]] *)
Definition maps_format : list (directive scanned) := [
  Num 16 64 (λ v r, Scanned v (sc_len r) (sc_prot r) (sc_pgoff r) (sc_maj r) (sc_min r) (sc_ino r) (sc_execname r));
  Lit "-";
  Num 16 64 (λ v r, Scanned (sc_start r) v (sc_prot r) (sc_pgoff r) (sc_maj r) (sc_min r) (sc_ino r) (sc_execname r));
  Space;
  Word 5 (λ w r, Scanned (sc_start r) (sc_len r) w (sc_pgoff r) (sc_maj r) (sc_min r) (sc_ino r) (sc_execname r));
  Space;
  Num 16 64 (λ v r, Scanned (sc_start r) (sc_len r) (sc_prot r) v (sc_maj r) (sc_min r) (sc_ino r) (sc_execname r));
  Space;
  Num 16 32 (λ v r, Scanned (sc_start r) (sc_len r) (sc_prot r) (sc_pgoff r) v (sc_min r) (sc_ino r) (sc_execname r));
  Lit ":";
  Num 16 32 (λ v r, Scanned (sc_start r) (sc_len r) (sc_prot r) (sc_pgoff r) (sc_maj r) v (sc_ino r) (sc_execname r));
  Space;
  Num 10 32 (λ v r, Scanned (sc_start r) (sc_len r) (sc_prot r) (sc_pgoff r) (sc_maj r) (sc_min r) v (sc_execname r));
  Space;
  Line PATH_LEN (λ w r, Scanned (sc_start r) (sc_len r) (sc_prot r) (sc_pgoff r) (sc_maj r) (sc_min r) (sc_ino r) w);
  Space ].

(** [prot[i]]: the terminator follows the characters, and what follows it was
    never written. *)
Definition char_at {S} (w : list ascii) (i : nat) : cm S ascii :=
  if (i <=? length w)%nat then mret (nth i w zero) else c_fault.

Definition with_scan (ev : mmap_event) (r : scanned) : mmap_event :=
  let m := me_map ev in
  MmapEvent (me_tgid ev) (me_tid ev)
    (Mmap2Event (sc_start r) (sc_len r) (sc_pgoff r) (sc_maj r) (sc_min r)
       (ev_ino m) (ev_ino_generation m) (ev_prot m) (ev_flags m)) (me_filename ev).
Definition with_ino (ino : Z) (ev : mmap_event) : mmap_event :=
  let m := me_map ev in
  MmapEvent (me_tgid ev) (me_tid ev)
    (Mmap2Event (ev_start m) (ev_len m) (ev_pgoff m) (ev_maj m) (ev_min m)
       ino (ev_ino_generation m) (ev_prot m) (ev_flags m)) (me_filename ev).
Definition with_prot (prot flags : Z) (ev : mmap_event) : mmap_event :=
  let m := me_map ev in
  MmapEvent (me_tgid ev) (me_tid ev)
    (Mmap2Event (ev_start m) (ev_len m) (ev_pgoff m) (ev_maj m) (ev_min m)
       (ev_ino m) (ev_ino_generation m) prot flags) (me_filename ev).
(** [event->len -= event->start] and the ids. *)
Definition with_name (name : list ascii) (tgid tid : Z) (ev : mmap_event) : mmap_event :=
  let m := me_map ev in
  MmapEvent tgid tid
    (Mmap2Event (ev_start m) (w64 (ev_len m - ev_start m)) (ev_pgoff m) (ev_maj m) (ev_min m)
       (ev_ino m) (ev_ino_generation m) (ev_prot m) (ev_flags m)) name.

(** ** The loop (event.c:63-120) *)

Section prepare.
Context {S : Type}.
Variable fopen : string → option (list ascii).
Variable process : mmap_event → cm S Z.

(** One line: the event it leaves in [*event]. *)
Definition prepare_line (tgid tid : Z) (ev : mmap_event) (bf : list ascii) : cm S mmap_event :=
  let m := me_map ev in
  let r := Scanned (ev_start m) (ev_len m) [] (ev_pgoff m) (ev_maj m) (ev_min m) 0 [] in
  '(n, r) ← (λ s, match sscanf maps_format bf 0 r with
                  | Ok x => Ok (x, s) | Fault => Fault | Abort => Abort | NoFuel => NoFuel
                  end);
  let ev := with_scan ev r in
  if n <? 7 then mret ev else
  let ev := with_ino (sc_ino r) ev in
  p0 ← char_at (sc_prot r) 0;
  p1 ← char_at (sc_prot r) 1;
  p2 ← char_at (sc_prot r) 2;
  p3 ← char_at (sc_prot r) 3;
  let prot := 0 in
  let prot := if Ascii.eqb p0 "r" then Z.lor prot PROT_READ else prot in
  let prot := if Ascii.eqb p1 "w" then Z.lor prot PROT_WRITE else prot in
  let prot := if Ascii.eqb p2 "x" then Z.lor prot PROT_EXEC else prot in
  let flags := if Ascii.eqb p3 "s" then Z.lor 0 MAP_SHARED else Z.lor 0 MAP_PRIVATE in
  let ev := with_prot prot flags ev in
  if negb (Ascii.eqb p2 "x") then mret ev else
  let execname := match sc_execname r with [] => chars "//anon" | _ => sc_execname r end in
  let ev := with_name execname tgid tid ev in
  process ev;;
  mret ev.

(** [while (1)], until fgets finds the end of the file; each turn reads a
    character at least. *)
Fixpoint prepare_loop (fuel : nat) (tgid tid : Z) (ev : mmap_event) (fp : list ascii) : cm S Z :=
  match fuel with
  | O => c_nofuel
  | Datatypes.S fuel =>
    match fgets BUFSIZ fp with
    | None => mret 0
    | Some (bf, fp) =>
      ev ← prepare_line tgid tid ev bf;
      prepare_loop fuel tgid tid ev fp
    end
  end.

(** The [char filename[PATH_MAX]] of the function holds the path. *)
Definition maps_path (tgid : Z) : string :=
  ("/proc/" ++ pretty tgid ++ "/task/" ++ pretty tgid ++ "/maps")%string.

Definition bpf_unwind_ctx_prepare_mmap (ev : mmap_event) (tgid tid : Z) : cm S Z :=
  match fopen (maps_path tgid) with
  | None => mret (-1)
  | Some fp => prepare_loop (Datatypes.S (length fp)) tgid tid ev fp
  end.
End prepare.
