(* ===== verification/EventProps.v ===== *)
(** What bpf_unwind_ctx_prepare_mmap makes of a maps file as the kernel prints
    it (proc(5)). *)
From Stdlib Require Import ZArith Lia Ascii String.
From stdpp Require Import base tactics option list numbers strings pretty.
From S2P Require Import Prelude Maps Scanf Event.

Local Open Scope Z_scope.

(** ** The file *)

(** A mapping of a process, and its line: the fields in the order of proc(5),
    any width of the numerals, any padding before the name. *)
Record vma := Vma {
  vm_start : Z; vm_end : Z; vm_r : bool; vm_w : bool; vm_x : bool; vm_shared : bool;
  vm_pgoff : Z; vm_maj : Z; vm_min : Z; vm_ino : Z; vm_name : list ascii;
}.

Definition vm_perms (v : vma) : list ascii :=
  [ if vm_r v then "r" else "-"; if vm_w v then "w" else "-"; if vm_x v then "x" else "-";
    if vm_shared v then "s" else "p" ]%char.

Definition name_ok (name : list ascii) : Prop :=
  Forall (λ c, c ≠ newline) name ∧ (length name < PATH_LEN)%nat ∧
  match name with c :: _ => is_space c = false | [] => True end.

Definition maps_line (v : vma) (line : list ascii) : Prop :=
  ∃ start end_ pgoff maj min ino pad,
    line = (start ++ "-" :: end_ ++ " " :: vm_perms v ++ " " :: pgoff ++ " " ::
            maj ++ ":" :: min ++ " " :: ino ++ pad ++ vm_name v ++ [newline])%char ∧
    numeral 16 start (vm_start v) ∧ is_u64 (vm_start v) ∧
    numeral 16 end_ (vm_end v) ∧ is_u64 (vm_end v) ∧
    numeral 16 pgoff (vm_pgoff v) ∧ is_u64 (vm_pgoff v) ∧
    numeral 16 maj (vm_maj v) ∧ is_u32 (vm_maj v) ∧ numeral 16 min (vm_min v) ∧ is_u32 (vm_min v) ∧
    numeral 10 ino (vm_ino v) ∧ is_u64 (vm_ino v) ∧
    Forall (λ c, c = " "%char) pad ∧ (pad = [] → vm_name v = []) ∧ name_ok (vm_name v) ∧
    (length line < BUFSIZ)%nat.

(** The event of a mapping. *)
Definition vma_prot (v : vma) : Z :=
  (if vm_r v then PROT_READ else 0) + (if vm_w v then PROT_WRITE else 0) +
  (if vm_x v then PROT_EXEC else 0).
Definition vma_event (tgid tid generation : Z) (v : vma) : mmap_event :=
  MmapEvent tgid tid
    (Mmap2Event (vm_start v) (w64 (vm_end v - vm_start v)) (vm_pgoff v) (vm_maj v) (vm_min v)
       (w32 (vm_ino v)) generation (vma_prot v)
       (if vm_shared v then MAP_SHARED else MAP_PRIVATE))
    (match vm_name v with [] => chars "//anon" | name => name end).

(** Handling a sequence of events. *)
Fixpoint process_all {S} (process : mmap_event → cm S Z) (evs : list mmap_event) : cm S Z :=
  match evs with
  | [] => mret 0
  | ev :: evs => process ev;; process_all process evs
  end.

(** ** One line *)

Definition scan_of (v : vma) : scanned :=
  Scanned (vm_start v) (vm_end v) (vm_perms v) (vm_pgoff v) (vm_maj v) (vm_min v)
    (w32 (vm_ino v)) (vm_name v).

Lemma perms_no_space v : Forall (λ c, is_space c = false) (vm_perms v).
Proof. unfold vm_perms. by destruct (vm_r v), (vm_w v), (vm_x v), (vm_shared v); repeat constructor. Qed.

(** The directives, one at a time. *)
Section steps.
Context {R : Type} (fmt : list (directive R)) (n : Z) (r : R) (res : outcome (Z * R)).

Lemma sscanf_num base bits set l s v :
  numeral base l v → is_u64 v → stops base s →
  sscanf fmt s (n + 1) (set (v mod 2 ^ bits) r) = res →
  sscanf (Num base bits set :: fmt) (l ++ s) n r = res.
Proof.
  intros Hl Hv Hs <-. cbn [sscanf].
  pose proof (scan_uint_numeral base bits [] l s v ltac:(constructor) Hl Hs Hv) as He.
  simpl app in He. by rewrite He.
Qed.

Lemma sscanf_lit c s : sscanf fmt s n r = res → sscanf (Lit c :: fmt) (c :: s) n r = res.
Proof. intros <-. cbn [sscanf scan_char]. by rewrite Ascii.eqb_refl. Qed.

Lemma sscanf_space p s :
  Forall (λ c, is_space c = true) p → (∀ c s', s = c :: s' → is_space c = false) →
  sscanf fmt s n r = res → sscanf (Space :: fmt) (p ++ s) n r = res.
Proof.
  intros Hp Hs <-. cbn [sscanf]. rewrite skip_space_app by done.
  destruct s as [|c s]; [done|]. by rewrite skip_space_id by by eapply Hs.
Qed.

Lemma sscanf_word size set l c s :
  l ≠ [] → Forall (λ c, is_space c = false) l → is_space c = true → (length l < size)%nat →
  sscanf fmt (c :: s) (n + 1) (set l r) = res →
  sscanf (Word size set :: fmt) (l ++ c :: s) n r = res.
Proof.
  intros Hne Hl Hc Hlen <-. cbn [sscanf].
  pose proof (scan_word_app [] l c s ltac:(constructor) Hne Hl Hc) as He.
  simpl app in He. rewrite He. by rewrite (proj2 (Nat.ltb_lt _ _) Hlen).
Qed.

Lemma sscanf_line size set l s :
  l ≠ [] → Forall (λ c, c ≠ newline) l → (length l < size)%nat →
  sscanf fmt (newline :: s) (n + 1) (set l r) = res →
  sscanf (Line size set :: fmt) (l ++ newline :: s) n r = res.
Proof.
  intros Hne Hl Hlen <-. cbn [sscanf]. rewrite (scan_line_app l s Hne Hl).
  by rewrite (proj2 (Nat.ltb_lt _ _) Hlen).
Qed.
End steps.

Lemma numeral_head base l v s c s' : numeral base l v → l ++ s = c :: s' → is_space c = false.
Proof.
  intros (Hne & Hl & _) He. destruct l as [|d l]; [done|]. injection He as -> _.
  apply Forall_cons in Hl as [Hd _]. by eapply digit_not_space.
Qed.

Lemma space_numeral {R} fmt n (r : R) res base l v s :
  numeral base l v → sscanf fmt (l ++ s) n r = res →
  sscanf (Space :: fmt) (" "%char :: l ++ s) n r = res.
Proof.
  intros Hl Hr. apply (sscanf_space fmt n r res [" "%char]); [by repeat constructor| |done].
  intros c s'. by eapply numeral_head.
Qed.

Lemma perms_head v c s s' : vm_perms v ++ s = c :: s' → is_space c = false.
Proof. intros [= <- _]. by destruct (vm_r v). Qed.

Lemma scanned_line v line r :
  maps_line v line → sc_execname r = [] →
  ∃ n, 7 ≤ n ∧ sscanf maps_format line 0 r = Ok (n, scan_of v).
Proof.
  intros (start & end_ & pgoff & maj & min & ino & pad & -> & Hs & Hsb & He & Heb & Ho & Hob &
    Hma & Hmab & Hmi & Hmib & Hi & Hib & Hpad & Hpn & (Hnl & Hlen & Hn0) & _) Hr.
  assert (∀ z, is_u32 z → is_u64 z) as H32 by (unfold is_u32, is_u64; lia).
  assert (Forall (λ c, is_space c = true) pad) as Hsp.
  { eapply Forall_impl; [exact Hpad|]. by intros c ->. }
  exists (if decide (vm_name v = []) then 7 else 8). split; [case_decide; lia|].
  unfold maps_format.
  eapply sscanf_num; [exact Hs|done|by cbn|]. apply sscanf_lit.
  eapply sscanf_num; [exact He|done|by cbn|].
  apply (sscanf_space _ _ _ _ [" "%char]); [by repeat constructor|intros c s'; apply perms_head|].
  apply sscanf_word; [done|apply perms_no_space|done|simpl; lia|].
  eapply space_numeral; [exact Ho|]. eapply sscanf_num; [exact Ho|done|by cbn|].
  eapply space_numeral; [exact Hma|]. eapply sscanf_num; [exact Hma|by apply H32|by cbn|].
  apply sscanf_lit. eapply sscanf_num; [exact Hmi|by apply H32|by cbn|].
  eapply space_numeral; [exact Hi|]. eapply sscanf_num; [exact Hi|done| |].
  { destruct pad as [|c pad]; [by rewrite Hpn|]. by apply Forall_cons in Hpad as [-> _]. }
  cbn [sc_start sc_len sc_prot sc_pgoff sc_maj sc_min sc_ino sc_execname].
  unfold is_u32, is_u64, scan_of in *. rewrite !Z.mod_small by done. fold (w32 (vm_ino v)).
  destruct (decide (vm_name v = [])) as [Hz|Hz].
  - rewrite Hz, Hr. change ([] ++ [newline]) with [newline].
    replace (pad ++ [newline]) with ((pad ++ [newline]) ++ []) by apply app_nil_r.
    apply sscanf_space; [apply Forall_app; split; [done|by repeat constructor]|done|].
    cbn [sscanf scan_line span_ascii]. done.
  - apply sscanf_space; [done| |].
    { intros c s' Hc. destruct (vm_name v) as [|c0 name]; [done|]. by injection Hc as <- _. }
    apply sscanf_line; [done|done|done|]. cbn. done.
Qed.

Definition generation (ev : mmap_event) : Z := ev_ino_generation (me_map ev).

Lemma prepare_line_run {S} (process : mmap_event → cm S Z) tgid tid ev v line (s : S) :
  maps_line v line →
  ∃ ev', generation ev' = generation ev ∧
    prepare_line process tgid tid ev line s =
      ((if vm_x v then process (vma_event tgid tid (generation ev) v) else mret 0);; mret ev') s.
Proof.
  intros Hl. unfold prepare_line.
  destruct (scanned_line v line (Scanned (ev_start (me_map ev)) (ev_len (me_map ev)) []
    (ev_pgoff (me_map ev)) (ev_maj (me_map ev)) (ev_min (me_map ev)) 0 []) Hl eq_refl)
    as (n & Hn & Hsc).
  set (e := with_prot (vma_prot v) (if vm_shared v then MAP_SHARED else MAP_PRIVATE)
    (with_ino (w32 (vm_ino v)) (with_scan ev (scan_of v)))).
  exists (if vm_x v then vma_event tgid tid (generation ev) v else e). split; [by destruct (vm_x v)|].
  unfold mbind at 1, cm_bind at 1. rewrite Hsc, (proj2 (Z.ltb_ge _ _)) by done.
  assert (∀ i c, nth_error (vm_perms v) i = Some c →
    char_at (sc_prot (scan_of v)) i = (mret c : cm S ascii)) as Hat.
  { intros i c Hi. unfold char_at. pose proof (nth_error_Some (vm_perms v) i) as [Hs _].
    rewrite (proj2 (Nat.leb_le _ _)); [|simpl in *; specialize (Hs ltac:(congruence)); lia].
    by rewrite (nth_error_nth _ _ _ Hi). }
  rewrite (Hat 0%nat _ eq_refl), (Hat 1%nat _ eq_refl), (Hat 2%nat _ eq_refl), (Hat 3%nat _ eq_refl).
  unfold mret, cm_ret, mbind, cm_bind.
  subst e. unfold vma_event, vma_prot, scan_of, with_scan, with_ino, with_prot, with_name.
  cbn [sc_start sc_len sc_prot sc_pgoff sc_maj sc_min sc_ino sc_execname me_map me_tgid me_tid
       ev_start ev_len ev_pgoff ev_maj ev_min ev_ino ev_ino_generation].
  clear. by destruct (vm_r v), (vm_w v), (vm_x v), (vm_shared v), (vm_name v).
Qed.

(** ** The loop *)

Lemma fgets_take_line n l rest :
  Forall (λ c, c ≠ newline) l → (length l < n)%nat →
  fgets_take n (l ++ newline :: rest) = (l ++ [newline], rest).
Proof.
  intros Hl. revert n. induction Hl as [|c l Hc Hl IH]; intros n Hn.
  - destruct n; [simpl in Hn; lia|]. done.
  - destruct n as [|n]; simpl in Hn; [lia|]. simpl.
    rewrite (proj2 (Ascii.eqb_neq _ _) Hc), IH by lia. done.
Qed.

Lemma numeral_no_newline base l v : numeral base l v → Forall (λ c, c ≠ newline) l.
Proof. intros (_ & Hl & _). eapply Forall_impl; [exact Hl|]. intros c [d Hd] ->. done. Qed.

Lemma fgets_line v line rest :
  maps_line v line → fgets BUFSIZ (line ++ rest) = Some (line, rest).
Proof.
  intros (start & end_ & pgoff & maj & min & ino & pad & Hline & Hs & _ & He & _ & Ho & _ &
    Hma & _ & Hmi & _ & Hi & _ & Hpad & _ & (Hnl & _) & Hlen).
  assert (∃ b, line = b ++ [newline] ∧ Forall (λ c, c ≠ newline) b) as (b & Hb & Hbn).
  { eexists (start ++ "-"%char :: end_ ++ " "%char :: vm_perms v ++ " "%char :: pgoff ++
      " "%char :: maj ++ ":"%char :: min ++ " "%char :: ino ++ pad ++ vm_name v). split.
    - rewrite Hline. repeat (rewrite <- ?app_assoc, <- ?app_comm_cons; f_equal).
    - assert (Forall (λ c, c ≠ newline) (vm_perms v)) as Hperm.
      { unfold vm_perms. destruct (vm_r v), (vm_w v), (vm_x v), (vm_shared v);
          apply (bool_decide_unpack _); by vm_compute. }
      assert (Forall (λ c, c ≠ newline) pad) as Hpadn.
      { eapply Forall_impl; [exact Hpad|]. by intros c ->. }
      clear Hline. revert Hperm. generalize (vm_perms v). intros perms Hperm.
      repeat first [apply Forall_app; split | apply Forall_cons; split];
        first [done | by eapply numeral_no_newline | by apply (bool_decide_unpack _); vm_compute]. }
  clear Hline. subst line. rewrite <- app_assoc. simpl app. rewrite length_app in Hlen. cbn [length] in Hlen.
  pose proof (fgets_take_line (BUFSIZ - 1) b rest Hbn ltac:(lia)) as Ht.
  unfold fgets. destruct (b ++ newline :: rest) as [|c l] eqn:E; [by destruct b|]. by rewrite Ht.
Qed.

Lemma prepare_loop_run {S} (process : mmap_event → cm S Z) tgid tid fuel ev vs lines (s : S) :
  Forall2 maps_line vs lines → (length (concat lines) < fuel)%nat →
  prepare_loop process fuel tgid tid ev (concat lines) s =
    process_all process (vma_event tgid tid (generation ev) <$> filter (λ v, vm_x v) vs) s.
Proof.
  intros Hl. revert fuel ev s. induction Hl as [|v line vs lines Hv Hl IH]; intros fuel ev s Hf.
  - destruct fuel as [|fuel]; [simpl in Hf; lia|]. done.
  - destruct fuel as [|fuel]; [simpl in Hf; lia|]. cbn [prepare_loop concat].
    rewrite (fgets_line v) by done.
    destruct (prepare_line_run process tgid tid ev v line s Hv) as (ev' & Hg & Hrun).
    assert (1 ≤ length line)%nat as Hpos.
    { destruct Hv as (start & ? & ? & ? & ? & ? & ? & -> & _). rewrite length_app. simpl. lia. }
    cbn [concat] in Hf. rewrite length_app in Hf.
    assert (∀ s', prepare_loop process fuel tgid tid ev' (concat lines) s' =
      process_all process (vma_event tgid tid (generation ev) <$> filter (λ v, vm_x v) vs) s') as Hrest.
    { intros s'. rewrite IH by lia. by rewrite Hg. }
    unfold mbind at 1, cm_bind at 1. rewrite Hrun. rewrite filter_cons.
    destruct (vm_x v); simpl.
    + unfold mbind, cm_bind. destruct (process _ s) as [[z s']| | |]; try done. apply Hrest.
    + unfold mbind, cm_bind, mret, cm_ret. apply Hrest.
Qed.

(** C28. Reading /proc: when the maps file holds the lines the kernel prints for
    the mappings [vs] of the process, bpf_unwind_ctx_prepare_mmap hands exactly
    the executable ones to the handler, in order, each as the event of its
    range, offset, device, protection and flags (the inode cut to 32 bits), with
    its name, or "//anon" when it has none; it reads to the end and returns 0.
    A file that cannot be opened gives -1 and no event. *)
Theorem prepare_mmap_correct {S} (fopen : string → option (list ascii))
    (process : mmap_event → cm S Z) (ev : mmap_event) (tgid tid : Z) (s : S)
    (vs : list vma) (lines : list (list ascii)) :
  Forall2 maps_line vs lines →
  (fopen (maps_path tgid) = Some (concat lines) →
   bpf_unwind_ctx_prepare_mmap fopen process ev tgid tid s =
     process_all process (vma_event tgid tid (generation ev) <$> filter (λ v, vm_x v) vs) s) ∧
  (fopen (maps_path tgid) = None →
   bpf_unwind_ctx_prepare_mmap fopen process ev tgid tid s = Ok (-1, s)).
Proof.
  intros Hl. unfold bpf_unwind_ctx_prepare_mmap.
  split; intros ->; [|done]. by apply prepare_loop_run; [|lia].
Qed.

Definition ex_line1 : string := "00400000-0040c000 r-xp 00000000 fd:01 41038  /bin/cat".
Definition ex_line2 : string := "00e24000-011f7000 rw-p 00000000 00:00 0".
Definition ex_lines : list (list ascii) :=
  [chars ex_line1 ++ [newline]; chars ex_line2 ++ [newline]].
Definition ex_vma1 : vma :=
  Vma 0x400000 0x40c000 true false true false 0 0xfd 1 41038 (chars "/bin/cat").
Definition ex_vma2 : vma :=
  Vma 0xe24000 0x11f7000 true true false false 0 0 0 0 [].
Definition ex_event : mmap_event := MmapEvent 0 0 (Mmap2Event 0 0 0 0 0 0 7 0 0) [].

Ltac numeral_tac :=
  match goal with
  | |- numeral ?b ?l ?v => split_and!; [done| |by vm_compute];
      apply Forall_forall; intros c Hc;
      repeat (apply elem_of_cons in Hc as [->|Hc]; [by eexists|]); by apply not_elem_of_nil in Hc
  end.

Lemma ex_maps_lines : Forall2 maps_line [ex_vma1; ex_vma2] ex_lines.
Proof.
  constructor; [|constructor; [|done]].
  - exists (chars "00400000"), (chars "0040c000"), (chars "00000000"), (chars "fd"), (chars "01"),
      (chars "41038"), (chars "  ").
    split_and!; try done; try numeral_tac; try (apply (bool_decide_unpack _); by vm_compute).
  - exists (chars "00e24000"), (chars "011f7000"), (chars "00000000"), (chars "00"), (chars "00"),
      (chars "0"), [].
    split_and!; try done; try numeral_tac; try (apply (bool_decide_unpack _); by vm_compute).
Qed.

Lemma prepare_mmap_correct_witness :
  bpf_unwind_ctx_prepare_mmap (λ f, if String.eqb f "/proc/42/task/42/maps" then Some (concat ex_lines) else None)
    (λ e l, Ok (0, l ++ [e])) ex_event 42 43 [] =
  Ok (0, [MmapEvent 42 43 (Mmap2Event 0x400000 0xc000 0 0xfd 1 41038 7 5 2) (chars "/bin/cat")]).
Proof.
  rewrite (proj1 (prepare_mmap_correct
    (λ f, if String.eqb f "/proc/42/task/42/maps" then Some (concat ex_lines) else None)
    (λ e l, Ok (0, l ++ [e])) ex_event 42 43 [] [ex_vma1; ex_vma2] ex_lines ex_maps_lines)).
  - by vm_compute.
  - by vm_compute.
Defined.
