(* ===== verification/EventTypes.v ===== *)
(** Reading any maps file (src/src/event.c): whatever the characters of the
    file are, bpf_unwind_ctx_prepare_mmap stops, and every event that reaches
    the handler has its fields in the widths of the struct and its strings in
    their arrays. *)
From Stdlib Require Import ZArith Lia Ascii String.
From stdpp Require Import base tactics option list numbers strings pretty.
From S2P Require Import Prelude Maps Scanf Event EventProps.

Local Open Scope Z_scope.

(** ** sscanf keeps what its assignments keep *)

Definition directive_ok {R} (P : R → Prop) (d : directive R) : Prop :=
  match d with
  | Space | Lit _ => True
  | Num _ bits set => 0 ≤ bits ∧ ∀ v r, 0 ≤ v < 2 ^ bits → P r → P (set v r)
  | Word size set | Line size set => ∀ w r, (length w < size)%nat → P r → P (set w r)
  end.

Lemma scan_uint_range base bits s v rest :
  0 ≤ bits → scan_uint base bits s = Some (v, rest) → 0 ≤ v < 2 ^ bits.
Proof.
  intros Hb. unfold scan_uint. destruct (scan_sign _) as [neg s1].
  destruct (scan_numeral _ _) as [[z r]|]; [|done]. intros [= <- _].
  apply Z.mod_pos_bound, Z.pow_pos_nonneg; lia.
Qed.

Lemma sscanf_keeps {R} (P : R → Prop) (fmt : list (directive R)) s n r :
  Forall (directive_ok P) fmt → P r →
  match sscanf fmt s n r with
  | Ok (_, r') => P r'
  | Fault => True
  | Abort | NoFuel => False
  end.
Proof.
  intros Hf. revert s n r. induction Hf as [|d fmt Hd Hf IH]; intros s n r Hr; cbn [sscanf]; [done|].
  destruct d as [|c|base bits set|size set|size set]; simpl in Hd.
  - by apply IH.
  - destruct (scan_char c s); [by apply IH|done].
  - destruct (scan_uint base bits s) as [[v s']|] eqn:E; [|done].
    destruct Hd as [Hb Hset]. apply IH, Hset; [by eapply scan_uint_range|done].
  - destruct (scan_word s) as [[w s']|]; [|done]. destruct (length w <? size)%nat eqn:E; [|done].
    apply Nat.ltb_lt in E. apply IH. auto.
  - destruct (scan_line s) as [[w s']|]; [|done]. destruct (length w <? size)%nat eqn:E; [|done].
    apply Nat.ltb_lt in E. apply IH. auto.
Qed.

(** ** Well-typed objects *)

Record scanned_typed (r : scanned) : Prop := {
  st_start : is_u64 (sc_start r);
  st_len : is_u64 (sc_len r);
  st_prot : (length (sc_prot r) < 5)%nat;
  st_pgoff : is_u64 (sc_pgoff r);
  st_maj : is_u32 (sc_maj r);
  st_min : is_u32 (sc_min r);
  st_ino : is_u32 (sc_ino r);
  st_execname : (length (sc_execname r) < PATH_LEN)%nat;
}.

Record mmap2_typed (m : mmap2_event) : Prop := {
  mt_start : is_u64 (ev_start m);
  mt_len : is_u64 (ev_len m);
  mt_pgoff : is_u64 (ev_pgoff m);
  mt_maj : is_u32 (ev_maj m);
  mt_min : is_u32 (ev_min m);
  mt_ino : is_u64 (ev_ino m);
  mt_generation : is_u64 (ev_ino_generation m);
  mt_prot : is_u32 (ev_prot m);
  mt_flags : is_u32 (ev_flags m);
}.

(** An event of the process: its name is not empty. *)
Definition event_typed (tgid tid : Z) (ev : mmap_event) : Prop :=
  mmap2_typed (me_map ev) ∧ me_tgid ev = tgid ∧ me_tid ev = tid ∧
  (0 < length (me_filename ev) < PATH_LEN)%nat.

Lemma maps_format_ok : Forall (directive_ok scanned_typed) maps_format.
Proof.
  unfold maps_format. rewrite !Forall_cons. split_and!; try exact I; try (by apply Forall_nil).
  all: simpl; try (split; [lia|]); intros v r Hv []; by split.
Qed.

(** ** The loop *)

Section prepare.
Context {S : Type} (process : mmap_event → cm S Z) (tgid tid : Z) (P : S → Prop).
(** The handler, on a typed event, returns and keeps [P]. *)
Context (Hprocess : ∀ ev s, event_typed tgid tid ev → P s → wp (process ev) (λ _ s', P s') s).

(** A run that keeps [P] and a property of the result, or ends at an access
    that C leaves undefined. *)
Definition runs_typed {A} (Q : A → Prop) (o : outcome (A * S)) : Prop :=
  match o with
  | Ok (a, s) => Q a ∧ P s
  | Fault => True
  | Abort | NoFuel => False
  end.

Lemma runs_typed_bind {A B} (Q : A → Prop) (R : B → Prop) (m : cm S A) (f : A → cm S B) s :
  runs_typed Q (m s) → (∀ a s', Q a → P s' → runs_typed R (f a s')) → runs_typed R ((m ≫= f) s).
Proof.
  unfold mbind, cm_bind. destruct (m s) as [[a s']| | |]; simpl; [|done..].
  intros [Ha Hs'] Hf. auto.
Qed.

Lemma char_at_typed w i s : P s → runs_typed (λ _, True) (char_at (S:=S) w i s).
Proof. intros. unfold char_at. by case_match. Qed.

Definition line_typed (ev : mmap_event) : Prop := mmap2_typed (me_map ev).

Lemma prepare_line_typed ev bf s :
  line_typed ev → P s → runs_typed line_typed (prepare_line process tgid tid ev bf s).
Proof using Hprocess.
  intros [] Hs. unfold prepare_line.
  apply (runs_typed_bind (λ x, scanned_typed x.2)).
  { assert (scanned_typed (Scanned (ev_start (me_map ev)) (ev_len (me_map ev)) []
      (ev_pgoff (me_map ev)) (ev_maj (me_map ev)) (ev_min (me_map ev)) 0 [])) as Hr.
    { split; simpl; try lia; try done. unfold PATH_LEN. lia. }
    pose proof (sscanf_keeps scanned_typed maps_format bf 0 _ maps_format_ok Hr) as H.
    by destruct (sscanf _ _ _ _) as [[n r]| | |]. }
  intros [n r] s1 [] Hs1. destruct (n <? 7); [by split; [split|]|].
  do 4 (eapply runs_typed_bind; [by apply char_at_typed|]; intros ? ? _ ?).
  match goal with |- context [with_prot ?p ?f] => set (prot := p); set (flags := f) end.
  assert (is_u32 prot) as Hp by (subst prot; repeat case_match; done).
  assert (is_u32 flags) as Hfl by (subst flags; repeat case_match; done).
  clearbody prot flags.
  assert (∀ z, is_u32 z → is_u64 z) as H32 by (unfold is_u32, is_u64; lia).
  case_match; [split; [split; simpl; auto|done]|].
  eapply (runs_typed_bind (λ _, True)).
  - match goal with |- runs_typed _ (process ?e ?st) =>
      assert (event_typed tgid tid e) as Hty;
        [|destruct (wp_elim _ _ _ (Hprocess e st Hty ltac:(assumption))) as (z & s2 & -> & Hs2)]
    end; [|by split].
    split; [split; simpl; auto using w64_range|]. split_and!; [done|done|cbn..].
    + destruct (sc_execname r); simpl; lia.
    + simpl in st_execname0. destruct (sc_execname r); simpl; [unfold PATH_LEN; lia|done].
  - intros _ s2 _ Hs2. split; [|done]. split; simpl; auto using w64_range.
Qed.

Lemma fgets_take_length n l : (length (fgets_take n l).1 + length (fgets_take n l).2 = length l)%nat.
Proof.
  revert n. induction l as [|c l IH]; intros [|n]; simpl; try done.
  specialize (IH n). destruct (Ascii.eqb c newline); [done|].
  destruct (fgets_take n l) as [l1 r1]; simpl in *; lia.
Qed.
Lemma fgets_take_shorter n c l bf rest :
  (0 < n)%nat → fgets_take n (c :: l) = (bf, rest) → (length rest < length (c :: l))%nat.
Proof.
  destruct n as [|n]; [lia|]. intros _. simpl. pose proof (fgets_take_length n l) as Hl.
  destruct (Ascii.eqb c newline); [intros [= _ <-]; lia|].
  destruct (fgets_take n l) as [l1 r1]. intros [= _ <-]. simpl in Hl. lia.
Qed.
Lemma fgets_shorter l bf rest : fgets BUFSIZ l = Some (bf, rest) → (length rest < length l)%nat.
Proof.
  unfold fgets. destruct l as [|c l]; [done|]. intros He%(inj Some).
  eapply fgets_take_shorter; [|exact He]. apply Nat.ltb_lt. by vm_compute.
Qed.

Lemma prepare_loop_typed fuel ev fp s :
  (length fp < fuel)%nat → line_typed ev → P s →
  runs_typed (λ r, r = 0) (prepare_loop process fuel tgid tid ev fp s).
Proof using Hprocess.
  revert ev fp s. induction fuel as [|fuel IH]; intros ev fp s Hf Hev Hs; [lia|].
  cbn [prepare_loop]. destruct (fgets BUFSIZ fp) as [[bf rest]|] eqn:Hfg; [|done].
  apply fgets_shorter in Hfg.
  eapply runs_typed_bind; [by apply prepare_line_typed|]. intros ev' s' Hev' Hs'.
  apply IH; [lia|done..].
Qed.
End prepare.


(** A file the kernel never prints: a negative address, a short line. *)
Definition ex_odd_file : list ascii :=
  chars "-1-2 r-xp fffffffffffffffffff 1:2 99999999999 x" ++ newline :: chars "zz".


Example odd_file_run :
  bpf_unwind_ctx_prepare_mmap (λ _, Some ex_odd_file) (λ e l, Ok (0, l ++ [e])) ex_event 42 43 []
  = Ok (0, [MmapEvent 42 43 (Mmap2Event (2 ^ 64 - 1) 3 (2 ^ 64 - 1) 1 2 1215752191 7 5 2) (chars "x")]).
Proof. by vm_compute. Qed.
