(* ===== verification/Machine.v ===== *)
(** The machine and the entry points of the library: machine__init to
    machine__delete and machine__findnew_dso of src/src/machine.c, map__new of
    src/src/map.c, and the functions of src/src/libdw_bpf.h that
    src/src/event.c defines, composed of the components over the whole state. *)
From Stdlib Require Import ZArith Lia Ascii String.
From stdpp Require Import base tactics option list numbers gmap fin vector finite strings.
From S2P Require Import Prelude RbTree ListHead ListIter Refcount DsoRef Rwsem Maps MapsObj DsoData Dsos.
From S2P Require Import CString Unwind Threads ThreadsInv World Scanf Event.

Local Open Scope Z_scope.

Abbreviation wm := (cm world).

#[export] Instance maps_world_list_store : Store maps_world list_mem.
Proof.
  refine {| part := mw_list;
    with_part l w := MapsWorld (mw_node w) l (mw_map w) (mw_dso w) (mw_obj w)
                       (mw_pool w) (mw_map_pool w) |};
    by try intros ? ? []; try intros [].
Defined.
#[export] Instance maps_world_map_store : Store maps_world (gmap Z map).
Proof.
  refine {| part := mw_map;
    with_part m w := MapsWorld (mw_node w) (mw_list w) m (mw_dso w) (mw_obj w)
                       (mw_pool w) (mw_map_pool w) |};
    by try intros ? ? []; try intros [].
Defined.

(** The lists of maps within the whole state. *)
Definition map_lists : Store world list_mem := store_trans world_maps_store maps_world_list_store.

(** [struct dl_phdr_info] *)
Record dl_phdr_info := DlPhdrInfo { start_addr : Z; end_addr : Z; dlpi_name : string }.

Section machine.
Context {C : Type}.
(** libunwind, strdup, fopen and pthread. *)
Variables (unw_create_addr_space : wm Z) (unw_set_caching_policy : Z → wm unit)
          (unw_flush_cache unw_destroy_addr_space : Z → wm unit).
Variables (unw_init_remote : wm (Z * C)) (unw_step : C → wm (Z * C))
          (unw_get_ip : C → wm Z) (unw_is_signal_frame : C → wm Z).
Variables (strdup : string → option string) (fopen : string → option (list ascii)).
Variables (maps_lock : pthread_rwlock maps_st) (dsos_lock : pthread_rwlock dsos_st)
          (threads_lock : pthread_rwlock world).

#[local] Instance ops : MapsOps world := world_maps_ops maps_lock.

(** ** Life cycle (machine.c) *)

(** [memset(machine, 0, sizeof( *machine))]: the words of the bucket and of the
    heads; the addresses of the heads are not contents. *)
Definition memset_machine : wm unit := c_modify (λ w : world,
  let m := w_machine w in
  World
    (MachineSt (ma_node m) ((λ _, ListHead 0 0) <$> ma_dead m) (ma_thread m)
       (vmap (λ b, Threads 0 0 (th_dead b) 0) (ma_threads m)) (ma_pool m))
    (w_maps w) (RbState (rb_mem (w_dso_rb w)) 0)
    (<[w_dso_head w := ListHead 0 0]> (w_dso_list w)) (w_dso w) (w_dso_head w) (w_dso_pool w)).

Definition machine__init : wm unit :=
  memset_machine;;
  lift (dsos__init dsos_lock);;
  machine__threads_init threads_lock.

(** [xmalloc(sizeof( *machine))]: the machine is a part of the state, of any
    content. *)
Definition machine__new : wm unit := machine__init.

Definition dsos__exit : cm dsos_st unit :=
  dsos__purge dsos_lock;;
  exit_rwsem dsos_lock;;
  mret tt.

Definition machine__exit : wm unit :=
  lift dsos__exit;;
  for_buckets (λ _, exit_rwsem threads_lock;; mret tt) (enum (fin THREADS__TABLE_SIZE)).

(** [free(machine)]: the heads that are members of it. *)
Definition free_machine : wm unit := c_modify (λ w : world,
  let m := w_machine w in
  World (MachineSt (ma_node m) ∅ (ma_thread m) (ma_threads m) (ma_pool m))
    (w_maps w) (w_dso_rb w) (delete (w_dso_head w) (w_dso_list w)) (w_dso w)
    (w_dso_head w) (w_dso_pool w)).

Definition machine__delete : wm unit :=
  machine__delete_threads unw_destroy_addr_space threads_lock;;
  machine__exit;;
  free_machine.

Definition machine__findnew_dso (fname : string) : wm Z :=
  lift (dsos__findnew strdup dsos_lock fname).

(** ** Maps of a process (map.c:29, event.c) *)

Definition map__new (event : mmap_event) : wm Z :=
  map ← lift xmalloc_map;
  dso ← machine__findnew_dso (string_of_list_ascii (me_filename event));
  c_assert (negb (dso =? NULL));;
  lift (on_map (map__init map (me_map event) dso));;
  lift (dso__put dso : mwm unit);;
  mret map.

Definition map__put (map : Z) : wm unit := lift (on_map (Maps.map__put map)).

(** [findnew] with the lock of the bucket. *)
Definition findnew_thread (tgid tid : Z) : wm Z :=
  machine__findnew_thread unw_destroy_addr_space threads_lock tgid tid.

Definition bpf_unwind_ctx__process_mmap (event : mmap_event) : wm Z :=
  thread ← findnew_thread (me_tgid event) (me_tid event);
  c_assert (negb (thread =? NULL));;
  map ← map__new event;
  r ← thread__insert_map unw_create_addr_space unw_set_caching_policy thread map;
  c_assert (r =? 0);;
  thread__put unw_destroy_addr_space thread;;
  map__put map;;
  mret 0.

(** The event is uninitialised memory, [event0]. *)
Definition bpf_unwind_ctx__thread_map (event0 : mmap_event) (tgid tid : Z) : wm Z :=
  bpf_unwind_ctx_prepare_mmap fopen bpf_unwind_ctx__process_mmap event0 tgid tid.

(** ** Call chains (event.c) *)

Definition bpf_unwind_ctx__resolve_callchain (st : stacktrace) (uc : unwind_ctx) :
    wm (Z * stacktrace) :=
  thread ← findnew_thread (uc_tgid uc) (uc_tid uc);
  c_assert (negb (thread =? NULL));;
  t ← thread_load thread;
  (if t_addr_space t =? 0 then
     '(_, _, u) ← unwind__prepare_access unw_create_addr_space unw_set_caching_policy (unwind_of t);
     thread_store thread (with_unwind u)
   else mret tt);;
  thread__set_comm unw_flush_cache thread (uc_name uc);;
  t ← thread_load thread;
  unwind__get_entries unw_init_remote unw_step unw_get_ip unw_is_signal_frame (unwind_of t) uc st.

(** The body of the loop over the maps. *)
Definition tell_map (callback : dl_phdr_info → wm Z) (pos : Z) : wm (option Z) :=
  m ← lift (lift (obj_load pos) : mwm map);
  d ← lift (dso_load (m_dso m));
  ret ← callback (DlPhdrInfo (m_start m) (m_end m) (d_name d));
  mret (if ret <? 0 then Some (-1) else None).

Definition bpf_dl_iterate_phdr (tgid : Z) (callback : dl_phdr_info → wm Z) : wm Z :=
  thread ← findnew_thread tgid tgid;
  c_assert (negb (thread =? NULL));;
  t ← thread_load thread;
  (if t_maps t =? NULL then c_fault else mret tt);;
  r ← list_for_each_entry (HS := map_lists) 24 (tell_map callback) (maps_head (t_maps t));
  mret (default 0 r).
End machine.
