(* ===== verification/MachineInv.v ===== *)
(** Maps over the whole state: creating a map and inserting it into one of
    many sets keeps all of them (the invariant of MapsObj.v), and the
    invariant of a whole machine. *)
From Stdlib Require Import ZArith Lia Ascii String.
From stdpp Require Import base tactics option list numbers gmap sorting functions fin vector finite strings.
From S2P Require Import Prelude RbTree RbSpec RbRep RbIter RbSearch ListHead ListRep Refcount DsoRef.
From S2P Require Import Rwsem Maps MapsObj MapsHeld DsoData Dsos DsosInv DsosProps CString Unwind Threads ThreadsInv.
From S2P Require Import ThreadsFind World Scanf Event Machine.

Local Open Scope Z_scope.

(** ** A map that is in no set *)

(** [a] is a live map outside every set, with an initialised list node. *)
Record loose_map (w : maps_world) (ml : Z → list Z) (a : Z) (m : map) : Prop := {
  lm_ok : node_ok a;
  lm_node : is_Some (mw_node w !! a);
  lm_list : is_Some (nx (mw_list w) (map_node a));
  lm_map : mw_map w !! a = Some m;
  lm_out b : a ∉ ml b;
  lm_head b : is_Some (mw_obj w !! b) ∨ b ∈ mw_pool w → map_node a ≠ maps_head b;
  lm_pool : a ∉ mw_map_pool w;
}.

(** The sets do not notice changes of the map [a]. *)
Lemma objs_frame w w' ml xl a :
  objs_ok w ml xl → (∀ b, a ∉ ml b) →
  (∀ b, is_Some (mw_obj w !! b) → map_node a ≠ maps_head b) →
  mw_obj w' = mw_obj w → mw_pool w' = mw_pool w →
  (∀ x, x ≠ a → mw_node w' !! x = mw_node w !! x) →
  (∀ x, x ≠ map_node a → mw_list w' !! x = mw_list w !! x) →
  (∀ x, x ≠ a → mw_map w' !! x = mw_map w !! x) →
  NoDup (mw_map_pool w') → (∀ x, x ∈ mw_map_pool w' → x ≠ a ∧ x ∈ mw_map_pool w) →
  objs_ok w' ml xl.
Proof.
  intros [H1 H2 H3 H4 H5 [_ H6]] Hout Hhead Ho Hp Hn Hl Hm Hnd Hmp.
  assert (∀ b x, x ∈ ml b → x ≠ a) as Hne by (intros b x Hx ->; by apply (Hout b)).
  split; rewrite ?Ho, ?Hp; [|done|done|done|done|].
  - intros b o Hb. destruct (H1 b o Hb) as [Hi Hs]. split.
    + eapply (maps_view_same w); [| | |exact Hi].
      * intros x Hx. apply Hn. by eapply Hne.
      * intros x Hx. apply Hl. intros ->. apply elem_of_cons in Hx as [Hx|Hx].
        -- symmetry in Hx. by apply (Hhead b (ex_intro _ _ Hb)).
        -- rewrite (H3 b) in Hx. apply list_elem_of_fmap in Hx as (y & Hy & Hin).
           apply map_node_ne in Hy as ->. by apply (Hout b).
      * intros x Hx. by rewrite Hm by (by eapply Hne).
    + eapply sorted_impl; [|exact Hs]. intros x y Hx Hy. unfold start_of.
      by rewrite !Hm by (by eapply Hne).
  - split; [done|]. intros x [Hxa Hx]%Hmp. destruct (H6 x Hx) as (? & ? & ? & ?).
    split_and!; [done|done|by rewrite Hm|done].
Qed.

(** ** maps__insert on one set of many *)

(** The words of one list are not those of another, nor of a loose map. *)
Lemma list_words_apart w ml xl a b o x :
  objs_ok w ml xl → (a ∉ ml b) → map_node a ≠ maps_head b → b ≠ o →
  is_Some (mw_obj w !! b) → is_Some (mw_obj w !! o) →
  x ∈ maps_head b :: (map_node <$> xl b) →
  x ∈ map_node a :: maps_head o :: (map_node <$> xl o) → False.
Proof.
  intros [_ _ H3 H4 H5 _] Hout Hhead Hbo Hb Ho [->|Hx]%elem_of_cons.
  - intros [Hx|[Hx|Hx]%elem_of_cons]%elem_of_cons.
    + by symmetry in Hx.
    + by apply maps_head_inj in Hx.
    + rewrite (H3 o) in Hx. revert Hx. apply H5. by left.
  - rewrite (H3 b) in Hx. intros [->|[->|Hx']%elem_of_cons]%elem_of_cons.
    + apply list_elem_of_fmap in Hx as (y & ->%map_node_ne & Hy). done.
    + revert Hx. apply H5. by left.
    + rewrite (H3 o) in Hx'. apply list_elem_of_fmap in Hx as (y & -> & Hy), Hx' as (z & Hz & Hz').
      apply map_node_ne in Hz as ->. apply Hbo. by eapply H4.
Qed.

Lemma on_maps_insert_wp lock w ml xl o ob a m :
  objs_ok w ml xl → mw_obj w !! o = Some ob → o ≠ NULL → loose_map w ml a m →
  wp (on_maps o (maps__insert lock a))
     (λ _ w', ∃ l1 l2, ml o = l1 ++ l2 ∧
        objs_ok w' (<[o := l1 ++ a :: l2]> ml) (<[o := xl o ++ [a]]> xl) ∧
        Forall (λ x, start_of (mw_map w) x ≤ m_start m) l1 ∧
        Forall (λ x, m_start m < start_of (mw_map w) x) l2 ∧
        mw_map w' = <[a := with_refcnt m (refcount_inc (m_refcnt m))]> (mw_map w) ∧
        mw_dso w' = mw_dso w ∧ obj_refs w' = obj_refs w ∧ mw_pool w' = mw_pool w ∧
        mw_map_pool w' = mw_map_pool w) w.
Proof.
  intros Hok Hob Hoz [Ha Hnode Hlist Hm Hout Hhead Hpool]. pose proof Hok as [H1 H2 H3 H4 H5 H6].
  destruct (H1 o ob Hob) as [Hi Hs].
  assert (a ∉ xl o) as Hax by (rewrite (H3 o); apply Hout).
  eapply wp_on_maps; [done|done|]. eapply wp_mono.
  { apply (maps_insert_wp lock a m _ (ml o) (xl o)); [done|done|]. split; simpl; try done.
    apply Hhead. left. by eexists. }
  intros _ s (l1 & l2 & Hl & Hi' & HL1 & HL2 & Hms & Hds & Hhs & Hfr & Hfl). simpl in *.
  exists l1, l2. split_and!; try done.
  2: { unfold obj_refs. simpl. apply map_eq. intros x. rewrite !lookup_fmap.
       destruct (decide (x = o)) as [->|?];
         [by rewrite lookup_insert_eq, Hob|by rewrite lookup_insert_ne]. }
  assert (∀ b, b ≠ o → ∀ x, x ∈ ml b → x ∉ a :: ml o) as Hother.
  { intros b Hb x Hx [->|Hxo]%elem_of_cons; [by apply (Hout b)|]. by apply Hb, (H4 b o x). }
  assert (∀ b x, x ∈ (<[o := l1 ++ a :: l2]> ml) b → x = a ∧ b = o ∨ x ∈ ml b) as Hin.
  { intros b x. destruct (decide (b = o)) as [->|Hb];
      [rewrite fn_lookup_insert|rewrite fn_lookup_insert_ne by done; by right].
    rewrite Hl, !elem_of_app, elem_of_cons. tauto. }
  assert (∀ b, is_Some (<[o := MapsObj (rb_root_node (ms_rb s)) (mo_refcnt ob)]> (mw_obj w) !! b) →
    is_Some (mw_obj w !! b)) as Hsub.
  { intros b. destruct (decide (b = o)) as [->|?]; [by eexists|by rewrite lookup_insert_ne]. }
  split; simpl.
  - intros b ob' Hb. destruct (decide (b = o)) as [->|Hbo].
    + rewrite !fn_lookup_insert. rewrite lookup_insert_eq in Hb. injection Hb as <-. split.
      * destruct Hi' as [Ht' Hlv' Hl']. rewrite Hhs in Hl'. by destruct s as [[]].
      * rewrite Hms. rewrite Hl in Hs.
        apply sorted_insert; [done|by rewrite <- Hl|done|done].
    + rewrite !fn_lookup_insert_ne by done. rewrite lookup_insert_ne in Hb by done.
      destruct (H1 b ob' Hb) as [Hib Hsb]. split.
      * eapply (maps_view_same w); [| | |exact Hib]; simpl.
        -- intros x Hx. apply Hfr. by eapply Hother.
        -- intros x Hx. apply Hfl. intros Hx'. eapply (list_words_apart w ml xl a b o); try done;
             [apply Hhead; left|..]; by eexists.
        -- intros x Hx. rewrite Hms. rewrite lookup_insert_ne; [done|].
           intros <-. by apply (Hout b).
      * rewrite Hms. eapply sorted_impl; [|exact Hsb]. intros x y Hx Hy. unfold start_of.
        rewrite !lookup_insert_ne; [done|..]; intros <-; by apply (Hout b).
  - intros b [Hb Hbo]%lookup_insert_None.
    rewrite !fn_lookup_insert_ne by done. by apply H2.
  - intros b. destruct (decide (b = o)) as [->|Hbo].
    + rewrite !fn_lookup_insert, (H3 o), Hl. solve_Permutation.
    + rewrite !fn_lookup_insert_ne by done. apply H3.
  - intros b c x [[-> ->]|Hb]%Hin [[Hc1 Hc2]|Hc]%Hin; [done|..].
    + by apply Hout in Hc.
    + subst. by apply Hout in Hb.
    + by eapply H4.
  - intros b c Hb (x & Hx & [[-> ->]|Hc]%Hin)%list_elem_of_fmap.
    + symmetry in Hx. revert Hx. apply Hhead. naive_solver.
    + apply (H5 b c); [naive_solver|]. rewrite Hx. by apply list_elem_of_fmap_2.
  - destruct H6 as [? H6]. split; [done|]. intros x Hx. destruct (H6 x Hx) as (? & Hno & ? & ?).
    assert (x ≠ a) as Hxa by by intros ->.
    split_and!; [done| | |naive_solver].
    + intros b [[-> ->]|Hb]%Hin; [done|]. by apply (Hno b).
    + by rewrite Hms, lookup_insert_ne.
Qed.

(** ** map__new *)

Definition event_map (ev : mmap2_event) (d refs : Z) : map :=
  Map (ev_start ev) (w64 (ev_start ev + ev_len ev)) (ev_prot ev) (ev_flags ev) (ev_pgoff ev) 0
    (ev_maj ev) (ev_min ev) (ev_ino ev) (ev_ino_generation ev) d refs.

Lemma wp_on_map {A} (m : mm A) (Q : A → maps_world → Prop) w :
  wp m (λ v s, Q v (MapsWorld (rb_mem (ms_rb s)) (ms_list s) (ms_map s) (ms_dso s)
                      (mw_obj w) (mw_pool w) (mw_map_pool w)))
     (maps_view w NULL (MapsObj NULL 0)) → wp (on_map m) Q w.
Proof. intros Hm. unfold wp, on_map in *. by destruct (m _) as [[v s]| | |]. Qed.

(** A raw object becomes a loose map with one reference, for one more
    reference of the dso. *)
Lemma map_init_run a d r ev v n m0 w :
  a ≠ NULL → map_node a ≠ NULL → mw_node w !! a = Some v → mw_list w !! map_node a = Some n →
  mw_map w !! a = Some m0 → d ≠ NULL → mw_dso w !! d = Some r →
  wp (on_map (map__init a ev d))
     (λ _ w', w' = MapsWorld (<[a := RbNode a (rb_right v) (rb_left v)]> (mw_node w))
        (<[map_node a := ListHead (map_node a) (map_node a)]> (mw_list w))
        (<[a := event_map ev d 1]> (mw_map w)) (<[d := refcount_inc r]> (mw_dso w))
        (mw_obj w) (mw_pool w) (mw_map_pool w)) w.
Proof.
  intros Ha Hna Hv Hn Hm Hd Hr. apply wp_on_map. unfold map__init.
  apply wp_bind. eapply wp_map_store; [done|exact Hm|]. simpl.
  apply wp_bind. eapply wp_dso_get; [done|exact Hr|]. simpl.
  apply wp_bind. eapply wp_map_store; [done|simpl; apply lookup_insert_eq|]. simpl.
  apply wp_bind, wp_lift. simpl. unfold RB_CLEAR_NODE. eapply wp_set_pc; [done|exact Hv|].
  apply wp_bind, wp_lift. simpl. rewrite <- (insert_id (mw_list w) _ _ Hn) at 1.
  eapply wp_mono; [by apply init_head_run|]. intros _ L' ->. simpl.
  eapply wp_map_store; [done|simpl; apply lookup_insert_eq|]. simpl.
  by rewrite !insert_insert_eq.
Qed.

(** Raw memory for a map. *)
Definition raw_map (w : maps_world) (a : Z) (pool : list Z) : maps_world :=
  MapsWorld (<[a := RbNode 0 0 0]> (mw_node w)) (<[map_node a := ListHead 0 0]> (mw_list w))
    (<[a := Map 0 0 0 0 0 0 0 0 0 0 0 0]> (mw_map w)) (mw_dso w) (mw_obj w) (mw_pool w) pool.

Lemma xmalloc_map_run a pool w :
  mw_map_pool w = a :: pool → wp xmalloc_map (λ v w', v = a ∧ w' = raw_map w a pool) w.
Proof. intros Hp. unfold wp, xmalloc_map. by rewrite Hp. Qed.

(** The dsos of a whole state. *)
Definition dsos_of (w : world) : dsos_st := part w.

Lemma dsos_inv_refs s R ds :
  dsos_inv s ds → (∀ d, is_Some (dn_refs s !! d) → is_Some (R !! d)) →
  dsos_inv (with_part R s) ds.
Proof.
  intros ((l & Hl & Hp) & Hlist & Hrefs) HR. split_and!; [|done|].
  - exists l. split; [|done]. by destruct Hl.
  - intros a Ha. by apply HR, Hrefs.
Qed.

(** The books of the dsos at rest: the list holds one reference of each, and
    each map one of its dso. *)
Definition dso_books (w : maps_world) (ds : list Z) : Prop :=
  (∀ d, d ∈ ds → dso_counted (mw_map w) (mw_dso w) d 1) ∧
  ∀ x m, mw_map w !! x = Some m → m_dso m ∈ ds.

Lemma dso_books_eq w w' ds :
  mw_map w' = mw_map w → mw_dso w' = mw_dso w → dso_books w ds → dso_books w' ds.
Proof. intros HM HD [H1 H2]. split; rewrite HM, ?HD; done. Qed.

(** A new map over the dso [d] that was found or created for it. *)
Lemma dso_books_new w w' ds ds' R d a m r :
  dso_taken ds ds' (mw_dso w) R d → (∀ x, x ∈ ds' → x ≠ NULL) → mw_map w !! a = None → m_dso m = d →
  R !! d = Some r →
  mw_map w' = <[a := m]> (mw_map w) → mw_dso w' = drop_dso d (<[d := refcount_inc r]> R) →
  dso_books w ds → dso_books w' ds'.
Proof.
  intros Htk Hnz Ha Hm Hr HM HD [Hc Hin].
  assert (∀ x, x ∈ ds' → maps_over (mw_map w') x =
    ((if decide (d = x) then 1 else 0) + maps_over (mw_map w) x)%nat) as Hover.
  { intros x _. rewrite HM, (maps_over_delete _ a m) by apply lookup_insert_eq.
    by rewrite Hm, delete_insert_id. }
  assert (d ∈ ds') as Hd by (destruct Htk as [(? & -> & _)|(_ & -> & _)]; set_solver).
  assert (refcount_sub (refcount_inc r) = w32 r) as Hr'.
  { unfold refcount_sub, refcount_inc, w32. rewrite Zminus_mod_idemp_l. f_equal. lia. }
  assert (∀ x, x ∈ ds' → mw_dso w' !! x = if decide (d = x) then Some (w32 r) else mw_dso w !! x) as HDx.
  { intros x Hx. rewrite HD. unfold drop_dso. rewrite (proj2 (Z.eqb_neq _ _) (Hnz d Hd)).
    case_decide as Hxd; [subst x; rewrite lookup_alter_eq, lookup_insert_eq; simpl; by rewrite Hr'|].
    rewrite lookup_alter_ne, lookup_insert_ne by done.
    destruct Htk as [(_ & _ & ->)|(_ & _ & ->)]; [by rewrite lookup_alter_ne|by rewrite lookup_insert_ne]. }
  split.
  - intros x Hx. unfold dso_counted. rewrite HDx, Hover by done. case_decide as Hxd.
    + subst x. f_equal. destruct Htk as [(Hdd & _ & HR)|(Hnd & _ & HR)].
      * specialize (Hc d Hdd). unfold dso_counted in Hc.
        rewrite HR, lookup_alter_eq, Hc in Hr. simpl in Hr. injection Hr as <-.
        unfold refcount_inc, w32. rewrite Zplus_mod_idemp_l, Zmod_mod. f_equal. lia.
      * rewrite HR, lookup_insert_eq in Hr. injection Hr as <-.
        assert (maps_over (mw_map w) d = 0%nat) as ->; [|done].
        unfold maps_over. apply map_size_empty_iff, map_empty_filter. intros x mx Hmx Hmd.
        simpl in Hmd. apply Hnd. rewrite <- Hmd. by apply (Hin x mx).
    + apply Hc. destruct Htk as [(_ & -> & _)|(_ & -> & _)]; [done|]. set_solver.
  - intros x mx. rewrite HM. destruct (decide (x = a)) as [->|?].
    + rewrite lookup_insert_eq. intros [= <-]. by rewrite Hm.
    + rewrite lookup_insert_ne by done. intros Hx%Hin.
      destruct Htk as [(_ & -> & _)|(_ & -> & _)]; [done|]. set_solver.
Qed.

Section map_new.
Variables (strdup : string → option string) (dsos_lock : pthread_rwlock dsos_st).
Hypothesis Hstrdup : ∀ s t, strdup s = Some t → t = s.

Lemma map_new_wp ev w ml xl ds a pool :
  objs_ok (w_maps w) ml xl → dsos_inv (dsos_of w) ds → dso_pool_ok (dsos_of w) ds →
  w_dso_pool w ≠ [] → mw_map_pool (w_maps w) = a :: pool →
  wp (map__new strdup dsos_lock ev)
     (λ v w', v = a ∧ w_machine w' = w_machine w ∧ ∃ ds' d,
        ds `prefix_of` ds' ∧ dsos_inv (dsos_of w') ds' ∧ dso_pool_ok (dsos_of w') ds' ∧
        (length (w_dso_pool w) ≤ Datatypes.S (length (w_dso_pool w')))%nat ∧
        (d ∈ ds') ∧ long_of (w_dso w') d = string_of_list_ascii (me_filename ev) ∧
        (∀ x, x ∈ ds → long_of (w_dso w') x = long_of (w_dso w) x) ∧
        objs_ok (w_maps w') ml xl ∧ loose_map (w_maps w') ml a (event_map (me_map ev) d 1) ∧
        mw_obj (w_maps w') = mw_obj (w_maps w) ∧ mw_pool (w_maps w') = mw_pool (w_maps w) ∧
        mw_map_pool (w_maps w') = pool ∧
        mw_map (w_maps w') = <[a := event_map (me_map ev) d 1]> (mw_map (w_maps w)) ∧
        (dso_books (w_maps w) ds → dso_books (w_maps w') ds')) w.
Proof.
  intros Hok Hdsos Hdpool Hne Hp. pose proof Hok as [_ _ _ _ _ [Hnd Hmp]].
  rewrite Hp in Hnd, Hmp. destruct (Hmp a ltac:(left)) as (Hak & Hout & Hfresh & Hhead).
  pose proof Hak as [Hanz _]. apply NoDup_cons in Hnd as [Hap Hnd].
  unfold map__new. apply wp_bind, wp_lift. eapply wp_mono; [by eapply xmalloc_map_run|].
  intros v w0 [-> ->]. set (w1 := with_part _ w). apply wp_bind, wp_lift. eapply wp_mono.
  { apply (findnew_found strdup dsos_lock _ (dsos_of w1) ds); [done|exact Hdsos|exact Hdpool|done]. }
  intros d sd (ds' & Hdsos' & Hpre & Hd & Hlong & Hdp' & Hdl & Hk & Htk).
  assert (d ≠ NULL ∧ ∃ r, dn_refs sd !! d = Some r) as (Hdz & r & Hr).
  { destruct Hdsos' as ((l & Hl & Hperm) & _ & Hrefs). split; [|by apply Hrefs].
    rewrite <- Hperm in Hd. by apply (ni_live _ _ Hl). }
  apply wp_bind, wp_assert; [by rewrite (proj2 (Z.eqb_neq _ _) Hdz)|].
  apply wp_bind, wp_lift. eapply wp_mono.
  { eapply (map_init_run a d r); [done|by apply map_node_nz|simpl; apply lookup_insert_eq
      |simpl; apply lookup_insert_eq|simpl; apply lookup_insert_eq|done|exact Hr]. }
  intros _ w2 ->. simpl. apply wp_bind, wp_lift. eapply wp_dso_put.
  { right. simpl. rewrite lookup_insert_eq. by eexists. }
  simpl. apply wp_ret. rewrite !insert_insert_eq. split_and!; [done..|]. exists ds', d.
  split_and!; try done.
  - apply (dsos_inv_refs sd); [done|]. intros x Hx. apply drop_dso_live.
    destruct (decide (x = d)) as [->|?]; [by rewrite lookup_insert_eq; eexists|by rewrite lookup_insert_ne].
  - eapply (objs_frame (w_maps w) _ ml xl a); try done; simpl.
    + intros b Hb. apply Hhead. by left.
    + intros x Hx. by rewrite lookup_insert_ne.
    + intros x Hx. by rewrite lookup_insert_ne.
    + intros x Hx. by rewrite lookup_insert_ne.
    + intros x Hx. rewrite Hp. split; [by intros ->|by right].
  - split; simpl; try done.
    + rewrite lookup_insert_eq. by eexists.
    + unfold nx. rewrite lookup_insert_eq. by eexists.
    + apply lookup_insert_eq.
  - eapply (dso_books_new (w_maps w) _ ds ds' (dn_refs sd) d a (event_map (me_map ev) d 1) r); try done.
    intros x Hx. destruct Hdsos' as ((l & Hl & Hperm) & _ & _). rewrite <- Hperm in Hx.
    by apply (ni_live _ _ Hl).
Qed.
End map_new.
