(* ===== verification/MachineProps.v ===== *)
(** The theorems on a whole machine: handling one mapping of a process. *)
From Stdlib Require Import ZArith Lia Ascii String.
From stdpp Require Import base tactics option list numbers gmap sorting functions fin vector finite strings.
From S2P Require Import Prelude RbTree RbSpec RbRep RbIter RbSearch ListHead ListRep Refcount DsoRef.
From S2P Require Import Rwsem Maps MapsObj MapsHeld DsoData Dsos DsosInv DsosProps CString Unwind Threads ThreadsInv ThreadsRefs.
From S2P Require Import ThreadsFind World ThreadsProps Scanf Event EventProps Machine MachineInv.

Local Open Scope Z_scope.

(** ** The invariant of a machine *)

(** [ls] are the threads by bucket, [ds] the dsos, [ml] and [xl] the maps of
    each set in tree and list order. *)
Record world_inv (w : world) (ls : bucket → list Z) (ds : list Z) (ml xl : Z → list Z) : Prop := {
  wi_table : table_inv (w_machine w) (obj_refs (w_maps w)) [] ls;
  wi_threads : thread_pool_ok (w_machine w);
  wi_dsos : dsos_inv (dsos_of w) ds;
  wi_dso_pool : dso_pool_ok (dsos_of w) ds;
  wi_objs : objs_ok (w_maps w) ml xl;
  wi_maps_pool : maps_pool_ok (w_maps w);
  wi_map_dso b x m : x ∈ ml b → mw_map (w_maps w) !! x = Some m → m_dso m ∈ ds;
}.

(** A machine at rest: the thread table holds one reference of each thread and
    callers [ex a] more of the thread [a], nobody but the threads a set of maps,
    nobody but the sets a map, and nobody but the list and the maps a dso;
    nothing is lost, and the dead lists are empty. *)
Record world_rest (w : world) (ls : bucket → list Z) (ds : list Z) (ml : Z → list Z)
    (ex : Z → Z) : Prop := {
  wr_counted : counted (obj_refs (w_maps w)) (ma_thread (w_machine w));
  wr_refs a t : ma_thread (w_machine w) !! a = Some t → t_refcnt t = 1 + ex a;
  wr_unheld a : ma_thread (w_machine w) !! a = None → ex a = 0;
  wr_table a : is_Some (ma_thread (w_machine w) !! a) → ∃ i, a ∈ ls i;
  wr_map x m : mw_map (w_maps w) !! x = Some m → m_refcnt m = 1 ∧ node_ok x ∧ ∃ b, x ∈ ml b;
  wr_dsos : dso_books (w_maps w) ds;
  wr_heads : heads_ok (w_machine w);
  wr_dead i : th_dead (ma_threads (w_machine w) !!! i) ≠ 0 ∧
    ma_dead (w_machine w) !! th_dead (ma_threads (w_machine w) !!! i) =
      Some (ListHead (th_dead (ma_threads (w_machine w) !!! i)) (th_dead (ma_threads (w_machine w) !!! i)));
  wr_own i j : th_dead (ma_threads (w_machine w) !!! i) = th_dead (ma_threads (w_machine w) !!! j) → i = j;
}.

(** A caller got one more reference of the thread [v]. *)
Definition one_more (v : Z) (ex : Z → Z) : Z → Z := <[v := ex v + 1]> ex.

Section process.
Variables (unw_create_addr_space : wm Z) (unw_set_caching_policy : Z → wm unit)
          (unw_destroy_addr_space : Z → wm unit).
Variables (strdup : string → option string).
Variables (maps_lock : pthread_rwlock maps_st) (dsos_lock : pthread_rwlock dsos_st)
          (threads_lock : pthread_rwlock world).
(** libunwind makes an address space and touches nothing of the machine; strdup
    copies or fails. *)
Hypothesis Hcreate : ∀ w, wp unw_create_addr_space (λ a w', a ≠ 0 ∧ w' = w) w.
Hypothesis Hcache : ∀ a w, wp (unw_set_caching_policy a) (λ _ w', w' = w) w.
Hypothesis Hstrdup : ∀ s t, strdup s = Some t → t = s.

#[local] Instance pops : MapsOps world := world_maps_ops maps_lock.
#[local] Instance plaws : MapsLaws world := world_maps_laws maps_lock.

(** A thread gets an address space at its first map. *)
Lemma prepare_access_wp u w :
  wp (unwind__prepare_access unw_create_addr_space unw_set_caching_policy u)
     (λ r w', w' = w ∧ fst (fst r) = 0 ∧ tu_maps (snd r) = tu_maps u ∧
        ((tu_addr_space u ≠ 0 → tu_ulops u = true) → tu_addr_space (snd r) ≠ 0 → tu_ulops (snd r) = true)) w.
Proof.
  unfold unwind__prepare_access.
  destruct (Z.eqb_spec (tu_addr_space u) 0) as [Hz|Hz]; simpl; [|by apply wp_ret].
  apply wp_bind. unfold _prepare_access. apply wp_bind. eapply wp_mono; [apply Hcreate|].
  intros a w' [Ha ->]. simpl. rewrite (proj2 (Z.eqb_neq _ _) Ha). apply wp_bind.
  eapply wp_mono; [apply Hcache|]. intros _ w' ->. by apply wp_ret, wp_ret.
Qed.

Lemma wp_world_load (a : Z) t (Q : thread → world → Prop) w :
  a ≠ NULL → ma_thread (w_machine w) !! a = Some t → Q t w → wp (thread_load a) Q w.
Proof. intros Ha Ht HQ. unfold wp. by rewrite (thread_load_run a t). Qed.

Definition set_machine (M : machine_st) (w : world) : world := with_part M w.

Lemma wp_world_store (a : Z) f t (Q : unit → world → Prop) w :
  a ≠ NULL → ma_thread (w_machine w) !! a = Some t →
  Q tt (set_machine (set_threads_map (<[a := f t]> (ma_thread (w_machine w))) (w_machine w)) w) →
  wp (thread_store a f) Q w.
Proof.
  intros Ha Ht HQ. rewrite <- (with_part_id (S:=world) (T:=machine_st) w).
  eapply wp_thread_store; [done|exact Ht|]. done.
Qed.

(** thread__insert_map: the map goes into the set of the thread. *)
Lemma insert_map_wp th t a m w ls ml xl :
  table_inv (w_machine w) (obj_refs (w_maps w)) [] ls → objs_ok (w_maps w) ml xl →
  (∃ i, th ∈ ls i) → ma_thread (w_machine w) !! th = Some t → loose_map (w_maps w) ml a m →
  wp (thread__insert_map unw_create_addr_space unw_set_caching_policy th a)
     (λ r w', r = 0 ∧ ∃ t' l1 l2 W,
        w' = set_machine (set_threads_map (<[th := t']> (ma_thread (w_machine w))) (w_machine w))
               (with_part W w) ∧
        t_maps t' = t_maps t ∧ t_tid t' = t_tid t ∧ t_tgid t' = t_tgid t ∧
        t_refcnt t' = t_refcnt t ∧
        table_inv (w_machine w') (obj_refs W) [] ls ∧
        ml (t_maps t) = l1 ++ l2 ∧
        objs_ok W (<[t_maps t := l1 ++ a :: l2]> ml) (<[t_maps t := xl (t_maps t) ++ [a]]> xl) ∧
        mw_map W = <[a := with_refcnt m (refcount_inc (m_refcnt m))]> (mw_map (w_maps w)) ∧
        mw_dso W = mw_dso (w_maps w) ∧ mw_pool W = mw_pool (w_maps w) ∧
        obj_refs W = obj_refs (w_maps w) ∧ mw_map_pool W = mw_map_pool (w_maps w)) w.
Proof.
  intros Hinv Hok [i Hth] Ht Hm. pose proof (inv_nonnull Hinv _ _ Hth) as Hz.
  destruct (ti_group _ _ _ _ Hinv _ _ _ Hth ltac:(apply not_elem_of_nil) Ht) as (Hmz & Hlive & _).
  unfold obj_refs in Hlive. rewrite lookup_fmap in Hlive.
  apply fmap_is_Some in Hlive as [ob Hob].
  unfold thread__insert_map. apply wp_bind. eapply wp_world_load; [done|exact Ht|].
  apply wp_bind. eapply wp_mono; [apply prepare_access_wp|].
  intros [[r b] u] w' (-> & Hr & Hu & Hho). simpl in Hr, Hu, Hho. subst r.
  apply wp_bind. eapply wp_world_store; [done|exact Ht|]. simpl.
  apply wp_bind. eapply wp_world_load; [done|simpl; apply lookup_insert_eq|]. simpl.
  apply wp_bind, wp_lift. simpl. eapply wp_mono; [by eapply on_maps_insert_wp|].
  intros _ W (l1 & l2 & Hl & Hok' & _ & _ & HM & HD & HR & HP & HMP). apply wp_ret. split; [done|].
  exists (with_unwind u t), l1, l2, W. split_and!; try done. simpl. rewrite HR.
  destruct (ti_thread _ _ _ _ Hinv _ _ Hth) as (t0 & Ht0 & _ & Hr0). simplify_eq.
  eapply inv_update; [done|exact Hth|exact Ht|done|done|exact Hho|]. right. simpl. auto.
Qed.
(** A count of a map changes: nothing else does. *)
Lemma objs_refcnt w ml xl a m n :
  objs_ok w ml xl → mw_map w !! a = Some m →
  objs_ok (with_part (<[a := with_refcnt m n]> (mw_map w)) w) ml xl.
Proof.
  intros [H1 H2 H3 H4 H5 [H6 H7]] Hm.
  assert (∀ x, start_of (<[a := with_refcnt m n]> (mw_map w)) x = start_of (mw_map w) x) as Hst.
  { intros x. unfold start_of. destruct (decide (x = a)) as [->|?];
      [by rewrite lookup_insert_eq, Hm|by rewrite lookup_insert_ne]. }
  split; simpl; [|done|done|done|done|].
  - intros b o Hb. destruct (H1 b o Hb) as [Hi Hs]. split.
    + eapply (maps_view_same w); [done|done| |exact Hi]. intros x _ Hx. simpl.
      destruct (decide (x = a)) as [->|?]; [by rewrite lookup_insert_eq; eexists|by rewrite lookup_insert_ne].
    + eapply sorted_impl; [|exact Hs]. intros x y _ _. by rewrite !Hst.
  - split; [done|]. intros x Hx. destruct (H7 x Hx) as (? & ? & Hn & ?). split_and!; try done.
    rewrite lookup_insert_ne; [done|]. intros <-. congruence.
Qed.

(** What malloc returns for the sets is unused, whatever the sets hold. *)
Lemma pool_same_objs w w' :
  mw_pool w' = mw_pool w → obj_refs w' = obj_refs w → maps_pool_ok w → maps_pool_ok w'.
Proof.
  intros Hp Ho [Hn Hf]. split; rewrite Hp; [done|]. eapply Forall_impl; [exact Hf|].
  intros b (? & ? & Hb). split_and!; [done|done|]. intros Hs. apply Hb.
  apply (fmap_is_Some mo_refcnt). rewrite <- lookup_fmap.
  change (is_Some (obj_refs w !! b)). rewrite <- Ho. unfold obj_refs. rewrite lookup_fmap.
  by apply fmap_is_Some.
Qed.

(** The caller's reference of a map that the set holds too. *)
Lemma map_put_shared_wp a m w :
  a ≠ NULL → mw_map (w_maps w) !! a = Some m → m_refcnt m = 2 →
  wp (map__put a)
     (λ _ w', w' = with_part (with_part (<[a := with_refcnt m 1]> (mw_map (w_maps w))) (w_maps w)) w) w.
Proof.
  intros Ha Hm Hr. unfold map__put. apply wp_lift, wp_on_map. eapply wp_mono.
  { apply (map_put_more_wp a m); [done|exact Hm|lia]. }
  intros _ s' ->. simpl. by rewrite Hr.
Qed.

(** The caller's reference of a thread. *)
Lemma thread_put_shared_wp th t w :
  th ≠ NULL → ma_thread (w_machine w) !! th = Some t → 2 ≤ t_refcnt t < 2 ^ 32 →
  wp (thread__put unw_destroy_addr_space th)
     (λ _ w', w' = set_machine (set_threads_map
        (<[th := with_refs (t_refcnt t - 1) t]> (ma_thread (w_machine w))) (w_machine w)) w) w.
Proof.
  intros Hz Ht Hr. assert (refcount_sub (t_refcnt t) = t_refcnt t - 1) as Hs.
  { apply w32_dec. lia. }
  pose proof (wp_thread_put unw_destroy_addr_space th t (w_machine w) w
    (λ _ w', w' = set_machine (set_threads_map
        (<[th := with_refs (t_refcnt t - 1) t]> (ma_thread (w_machine w))) (w_machine w)) w)) as Hp.
  rewrite Hs in Hp. change (with_part (w_machine w) w) with (with_part (part w : machine_st) w) in Hp.
  rewrite with_part_id in Hp. apply Hp; [done|done|lia|done].
Qed.

(** The map [a] of the event [ev], over the dso [d] of its file. *)
Definition is_event_map (w : world) (ds : list Z) (a : Z) (ev : mmap_event) : Prop :=
  ∃ d, mw_map (w_maps w) !! a = Some (event_map (me_map ev) d 1) ∧
    (d ∈ ds) ∧ long_of (w_dso w) d = string_of_list_ascii (me_filename ev).

(** The maps and dsos that exist keep what they are. *)
Definition world_grows (w w' : world) (ds ds' : list Z) : Prop :=
  (∀ x m, mw_map (w_maps w) !! x = Some m → mw_map (w_maps w') !! x = Some m) ∧
  ds `prefix_of` ds' ∧ (∀ x, x ∈ ds → long_of (w_dso w') x = long_of (w_dso w) x).

(** One object of each kind is taken at most. *)
Definition takes_one (w w' : world) : Prop :=
  (length (w_dso_pool w) ≤ Datatypes.S (length (w_dso_pool w')))%nat ∧
  (length (mw_map_pool (w_maps w)) ≤ Datatypes.S (length (mw_map_pool (w_maps w'))))%nat.

(** What handling the mapping [ev] for a thread with the maps [m] leaves: the
    invariant, with one more map, [a], at the place of its start in the tree
    of the set and last in its list, over the dso of the file, and held by the
    set only. *)
Definition mmap_post (ev : mmap_event) (w w' : world) ls' ds ds' (ml xl : Z → list Z) (m a : Z) : Prop :=
  ∃ l1 l2, ml m = l1 ++ l2 ∧
  world_inv w' ls' ds' (<[m := l1 ++ a :: l2]> ml) (<[m := xl m ++ [a]]> xl) ∧
  (∀ b, a ∉ ml b) ∧ is_event_map w' ds' a ev ∧ world_grows w w' ds ds' ∧ takes_one w w'.

(** The new map is in its set, and the others are where they were. *)
Definition mmap_sets (ml ml' : Z → list Z) (m a : Z) : Prop :=
  (a ∈ ml' m) ∧ ∀ b x, x ∈ ml b → x ∈ ml' b.

(** The caller's references of the thread and of the new map go. *)
Lemma rest_mmap w w' ls ds ds' ml ml' ex v t t' a m :
  world_rest w ls ds ml (one_more v ex) → ma_thread (w_machine w) !! v = Some t →
  ma_thread (w_machine w') = <[v := t']> (ma_thread (w_machine w)) → t_maps t' = t_maps t →
  t_refcnt t' = t_refcnt t - 1 → obj_refs (w_maps w') = obj_refs (w_maps w) →
  ma_dead (w_machine w') = ma_dead (w_machine w) ∧ ma_node (w_machine w') = ma_node (w_machine w) ∧
    ma_pool (w_machine w') = ma_pool (w_machine w) ∧ ma_threads (w_machine w') = ma_threads (w_machine w) →
  mw_map (w_maps w) !! a = None → m_refcnt m = 1 → node_ok a → a ∈ ml' (t_maps t) →
  (∀ b x, x ∈ ml b → x ∈ ml' b) → mw_map (w_maps w') = <[a := m]> (mw_map (w_maps w)) →
  dso_books (w_maps w') ds' → world_rest w' ls ds' ml' ex.
Proof.
  intros [R1 R2 R2' R3 R4 R5 R6 R7 R8] Ht HT Hm Hr HR (HD & HN & HP & HTh) Hfa Hma Hok Ha Hsub HM Hbk.
  split; [| | | | |done| |by rewrite HD, HTh|by rewrite HTh].
  - rewrite HR, HT. by eapply counted_same.
  - intros x u. rewrite HT. pose proof (R2 v t Ht) as Hv. unfold one_more in Hv.
    rewrite fn_lookup_insert in Hv. destruct (decide (x = v)) as [->|Hx].
    + rewrite lookup_insert_eq. intros [= <-]. lia.
    + rewrite lookup_insert_ne by done. intros Hu. rewrite (R2 x u Hu). unfold one_more.
      by rewrite fn_lookup_insert_ne.
  - intros x. rewrite HT. intros [Hx Hne]%lookup_insert_None. specialize (R2' x Hx).
    unfold one_more in R2'. by rewrite fn_lookup_insert_ne in R2'.
  - intros x. rewrite HT. destruct (decide (x = v)) as [->|Hx]; [intros _; apply R3; by eexists|].
    rewrite lookup_insert_ne by done. apply R3.
  - intros x mx. rewrite HM. destruct (decide (x = a)) as [->|Hx].
    + rewrite lookup_insert_eq. intros [= <-]. split_and!; [done|done|by eexists].
    + rewrite lookup_insert_ne by done. intros (? & ? & b & Hb)%R4. split_and!; [done|done|].
      exists b. by apply Hsub.
  - intros x. rewrite HD, HN, HP. apply R6.
Qed.

Lemma new_map_wp ev w ls ds ml xl i v t :
  world_inv w ls ds ml xl → v ∈ ls i → ma_thread (w_machine w) !! v = Some t →
  2 ≤ t_refcnt t < 2 ^ 32 → w_dso_pool w ≠ [] → mw_map_pool (w_maps w) ≠ [] →
  wp (map ← map__new strdup dsos_lock ev;
      r ← thread__insert_map unw_create_addr_space unw_set_caching_policy v map;
      c_assert (r =? 0);;
      thread__put unw_destroy_addr_space v;;
      map__put map;;
      mret 0)
     (λ r w', r = 0 ∧ ∃ ds' a t',
        t_maps t' = t_maps t ∧ t_tid t' = t_tid t ∧ t_tgid t' = t_tgid t ∧
        t_refcnt t' = t_refcnt t - 1 ∧ ma_thread (w_machine w') !! v = Some t' ∧
        mmap_post ev w w' ls ds ds' ml xl (t_maps t) a ∧
        ∀ ml' ex, mmap_sets ml ml' (t_maps t) a → world_rest w ls ds ml (one_more v ex) →
          world_rest w' ls ds' ml' ex) w.
Proof.
  intros [Hti Hth Hds Hdp Hob Hmp Hmd] Hv Ht Hrc Hdne Hmne.
  destruct (mw_map_pool (w_maps w)) as [|a pool] eqn:Hpool; [done|].
  pose proof (inv_nonnull Hti _ _ Hv) as Hz.
  apply wp_bind. eapply wp_mono; [by eapply (map_new_wp strdup dsos_lock Hstrdup ev w ml xl ds a pool)|].
  intros a' w1 (-> & HM & ds' & d & Hpre & Hds1 & Hdp1 & Hdl & Hd & Hlong & Hlong' & Hob1 & Hloose &
    Ho1 & Hp1 & Hmp1 & Hm1 & Hbk).
  assert (obj_refs (w_maps w1) = obj_refs (w_maps w)) as Hor by (unfold obj_refs; by rewrite Ho1).
  apply wp_bind. eapply wp_mono.
  { eapply (insert_map_wp v t a); [by rewrite HM, Hor|exact Hob1|by eexists|by rewrite HM|exact Hloose]. }
  intros r w2 (-> & t' & l1 & l2 & W & -> & Hm' & Hi' & Hg' & Hr' & Hti2 & Hl & Hob2 & HmW & HdW & HpW & HoW & HmpW).
  apply wp_bind, wp_assert; [done|]. simpl in Hti2.
  apply wp_bind. eapply wp_mono.
  { apply (thread_put_shared_wp v t'); [done|by simpl; apply lookup_insert_eq|lia]. }
  intros _ w3 ->. simpl. rewrite insert_insert_eq.
  apply wp_bind. eapply wp_mono.
  { eapply (map_put_shared_wp a); [apply Hloose|simpl; rewrite HmW; apply lookup_insert_eq|done]. }
  intros _ w4 ->. apply wp_ret. split; [done|]. exists ds', a, (with_refs (t_refcnt t' - 1) t').
  assert (ma_thread (w_machine w1) !! v = Some t) as Ht1 by by rewrite HM.
  assert (mw_map (w_maps w) !! a = None) as Hfa.
  { destruct (oo_map_pool _ _ _ Hob) as [_ Hp]. apply Hp. rewrite Hpool. left. }
  split_and!; simpl; try done; [lia|apply lookup_insert_eq| |].
  2: { intros ml' ex [Ha' Hsub] Hrest. eapply (rest_mmap w _ ls ds ds' ml ml' ex v t _ a (event_map (me_map ev) d 1));
    [exact Hrest|exact Ht| | | | | |exact Hfa|done|apply Hloose|exact Ha'|exact Hsub| |]; simpl.
    - rewrite HM. reflexivity.
    - done.
    - simpl; lia.
    - transitivity (obj_refs W); [done|congruence].
    - rewrite HM. split_and!; reflexivity.
    - by rewrite HmW, Hm1, !insert_insert_eq.
    - apply (dso_books_eq (w_maps w1)); [simpl|done|apply Hbk, Hrest].
      by rewrite HmW, Hm1, !insert_insert_eq. }
  exists l1, l2. unfold is_event_map, world_grows, takes_one. simpl.
  rewrite !HmW, Hm1, !insert_insert_eq, Hpool, HmpW, Hmp1.
  split_and!; [done| |apply Hloose|exists d; by rewrite lookup_insert_eq| |try done..].
  2: { intros x m Hx. rewrite lookup_insert_ne; [done|]. intros <-. congruence. }
  split; simpl.
  - change (obj_refs _) with (obj_refs W).
    assert (<[v := t']> (ma_thread (w_machine w1)) !! v = Some t') as Hv1 by apply lookup_insert_eq.
    pose proof (inv_update _ _ _ _ i v t' (with_refs (t_refcnt t' - 1) t') Hti2 Hv Hv1) as Hi.
    simpl in Hi. rewrite insert_insert_eq in Hi. apply Hi; [done|lia|done|]. right. auto.
  - eapply (pool_update (w_machine w)); [done|simpl; by rewrite HM|exact Ht|simpl].
    by rewrite HM.
  - revert Hds1. unfold dsos_of. simpl. by rewrite HdW.
  - revert Hdp1. unfold dsos_of. simpl. by rewrite HdW.
  - pose proof (objs_refcnt W _ _ a _ 1 Hob2 ltac:(rewrite HmW; apply lookup_insert_eq)) as Ho.
    revert Ho. simpl. by rewrite HmW, HmpW, Hmp1, Hm1, !insert_insert_eq.
  - by apply (pool_same_objs (w_maps w)); [simpl; rewrite HpW|unfold obj_refs in *; simpl; rewrite HoW|].
  - intros b x mm Hx Hmm. destruct (decide (x = a)) as [->|Hne].
    + rewrite lookup_insert_eq in Hmm. by injection Hmm as <-.
    + rewrite lookup_insert_ne in Hmm by done. destruct Hpre as [k ->].
      apply elem_of_app. left. apply (Hmd b x mm); [|done].
      destruct (decide (b = t_maps t)) as [->|?]; [|by rewrite fn_lookup_insert_ne in Hx].
      rewrite fn_lookup_insert, elem_of_app, elem_of_cons in Hx. rewrite Hl, elem_of_app. tauto.
Qed.

(** ** Requests *)

(** The thread is in the table, set up for the group. *)
Definition has_thread (w : world) (ls : bucket → list Z) (tgid tid v m : Z) : Prop :=
  ∃ t, (v ∈ ls (machine__threads tid)) ∧ ma_thread (w_machine w) !! v = Some t ∧
    t_tid t = tid ∧ t_tgid t = tgid ∧ t_maps t = m ∧ t_refcnt t < 2 ^ 32 - 1.

(** It can be found or created. *)
Definition thread_ready (w : world) (ls : bucket → list Z) (tgid tid : Z) : Prop :=
  can_create (w_machine w) w ls tid 2 ∧ request_ok (w_machine w) ls tgid tid.

Lemma has_thread_ready w ls ds ml xl tgid tid v m :
  world_inv w ls ds ml xl → has_thread w ls tgid tid v m → thread_ready w ls tgid tid.
Proof.
  intros Hw (t & Hv & Ht & Htid & Htg & _ & Hr).
  assert (∃ a, a ∈ ls (machine__threads tid) ∧ tid_of (ma_thread (w_machine w)) a = tid) as Hex.
  { exists v. split; [done|]. unfold tid_of. by rewrite Ht. }
  split; [by left|]. split; [|by left]. intros i a u Ha Hu Hut.
  assert (a = v) as ->.
  { eapply (inv_unique (wi_table _ _ _ _ _ Hw)); [done..|]. unfold tid_of. rewrite Ht, Hu. simpl. congruence. }
  simplify_eq. split; [done|by right].
Qed.

(** The thread [v] that a request returns: in the table, with one reference for
    the caller. *)
Record found_thread (w w1 : world) (ls ls1 : bucket → list Z) (tgid tid v : Z) (t : thread) : Prop := {
  ft_in : v ∈ ls1 (machine__threads tid);
  ft_thread : ma_thread (w_machine w1) !! v = Some t;
  ft_tid : t_tid t = tid;
  ft_tgid : t_tgid t = tgid;
  ft_refs : 2 ≤ t_refcnt t < 2 ^ 32;
  ft_same v0 m0 : has_thread w ls tgid tid v0 m0 → v0 = v ∧ m0 = t_maps t;
  ft_sub i x : x ∈ ls i → x ∈ ls1 i;
  ft_old u : v ∈ ls (machine__threads tid) → ma_thread (w_machine w) !! v = Some u →
    t = with_refs (t_refcnt u + 1) (with_tgid tgid u);
  ft_new : v ∉ ls (machine__threads tid) → t = Thread (t_maps t) tgid tid "" 0 false 2;
}.

(** A request leaves the maps and the dsos. *)
Definition objects_same (w w1 : world) : Prop :=
  dsos_of w1 = dsos_of w ∧ mw_map (w_maps w1) = mw_map (w_maps w) ∧
  mw_map_pool (w_maps w1) = mw_map_pool (w_maps w).

Lemma rest_findnew w w1 ls ls1 ds ml ex v t :
  keeps_books (obj_refs (w_maps w)) (w_machine w) ls (obj_refs (w_maps w1)) (w_machine w1) ls1 v →
  dead_same (w_machine w) (w_machine w1) → mw_map (w_maps w1) = mw_map (w_maps w) →
  mw_dso (w_maps w1) = mw_dso (w_maps w) → ma_thread (w_machine w1) !! v = Some t →
  (∀ x, is_Some (ma_thread (w_machine w) !! x) → is_Some (ma_thread (w_machine w1) !! x)) →
  world_rest w ls ds ml ex → t_refcnt t = 2 + ex v → world_rest w1 ls1 ds ml (one_more v ex).
Proof.
  intros [B1 B2 B3] (D1 & D2 & D3) HM HD Ht Hsub [R1 R2 R2' R3 R4 R5 R6 R7 R8] Hr.
  unfold one_more. split; auto.
  - intros x u Hu. destruct (decide (x = v)) as [->|Hx].
    + rewrite fn_lookup_insert. simplify_eq. lia.
    + rewrite fn_lookup_insert_ne by done. rewrite (B2 x u Hx Hu).
      destruct (ma_thread (w_machine w) !! x) as [t0|] eqn:Hx0; simpl; [by apply R2|].
      by rewrite (R2' x Hx0).
  - intros x Hx. destruct (decide (x = v)) as [->|Hne]; [congruence|].
    rewrite fn_lookup_insert_ne by done. apply R2'. apply eq_None_not_Some. intros Hs%Hsub.
    rewrite Hx in Hs. by destruct Hs.
  - by rewrite HM.
  - by apply (dso_books_eq (w_maps w)).
  - intros i. rewrite D1, D2. apply R7.
  - intros i j. rewrite !D2. apply R8.
Qed.

Lemma findnew_thread_wp tgid tid w ls ds ml xl :
  world_inv w ls ds ml xl → thread_ready w ls tgid tid →
  wp (findnew_thread unw_destroy_addr_space maps_lock threads_lock tgid tid)
     (λ v w1, ∃ ls1 t, world_inv w1 ls1 ds ml xl ∧ objects_same w w1 ∧
        found_thread w w1 ls ls1 tgid tid v t ∧
        (∀ ex, world_rest w ls ds ml ex → world_rest w1 ls1 ds ml (one_more v ex))) w.
Proof.
  intros [Hti Hth Hds Hdp Hob Hmp Hmd] [Hcan Hreq]. unfold findnew_thread. eapply wp_mono.
  { apply (machine_findnew_wp _ _ ls); [exact Hti|exact Hth|exact Hcan|exact Hreq]. }
  intros v w1 (ls1 & (Hti1 & Hth1 & Hdead & Hv & Hsub & _ & Hcase) & Hbooks & (HD1 & HM1 & HMP1 & Hpool1 & Hob1) & Hw1).
  simpl in *.
  assert (dsos_of w1 = dsos_of w) as Hdw by (rewrite Hw1; unfold dsos_of; simpl; by rewrite HD1).
  assert (world_inv w1 ls1 ds ml xl) as Hw'.
  { split; [done|done|by rewrite Hdw|by rewrite Hdw|by apply Hob1|by apply Hpool1|by rewrite HM1]. }
  assert (∀ t, ma_thread (w_machine w1) !! v = Some t →
    (∀ ex, world_rest w ls ds ml ex → t_refcnt t = 2 + ex v) →
    ∀ ex, world_rest w ls ds ml ex → world_rest w1 ls1 ds ml (one_more v ex)) as Hrest.
  { intros t Ht Htr ex Hr. eapply rest_findnew; [done..| |exact Hr|by apply Htr].
    intros x [i Hi]%(wr_table _ _ _ _ _ Hr).
    destruct (ti_thread _ _ _ _ Hti1 i x (Hsub i x Hi)) as (u & Hu & _). by eexists. }
  destruct Hcase as [(Hvl & _ & _ & u & Hu & Hut & Hu1)|(Hno & (pool & Hpool & _) & m & Hm)].
  - assert (0 < t_refcnt u < 2 ^ 32) as Hr0.
    { destruct (ti_thread _ _ _ _ Hti _ _ Hvl) as (u0 & Hu0 & _ & ?). by simplify_eq. }
    subst tid. destruct Hreq as [Hreq _]. destruct (Hreq _ _ _ Hvl Hu eq_refl) as [? _].
    exists ls1, (with_refs (t_refcnt u + 1) (with_tgid tgid u)). split_and!; [done|done| |].
    2: { eapply Hrest; [exact Hu1|]. intros ex Hr. simpl. rewrite (wr_refs _ _ _ _ _ Hr _ _ Hu). lia. }
    split; simpl; try done; try lia.
    + intros v0 m0 (t0 & Hv0 & Ht0 & Htid0 & _ & <- & _).
      assert (v0 = v) as ->; [|by simplify_eq].
      eapply (inv_unique Hti); [done..|]. unfold tid_of. rewrite Hu, Ht0. simpl. congruence.
    + intros u' _ ?. by simplify_eq.
  - exists ls1, (Thread m tgid tid "" 0 false 2). 
    assert (ma_thread (w_machine w) !! v = None) as Hvn.
    { destruct Hth as [_ Hp]. apply Hp. rewrite Hpool. left. }
    split_and!; [done|done| |].
    2: { eapply Hrest; [exact Hm|]. intros ex Hr. simpl. by rewrite (wr_unheld _ _ _ _ _ Hr _ Hvn). }
    split; simpl; try done.
    + intros v0 m0 (t0 & Hv0 & Ht0 & Htid0 & _). destruct (Hno _ Hv0).
      unfold tid_of. by rewrite Ht0.
    + intros u Hvl Hu. congruence.
Qed.

Lemma process_mmap_wp ev w ls ds ml xl :
  world_inv w ls ds ml xl → thread_ready w ls (me_tgid ev) (me_tid ev) →
  w_dso_pool w ≠ [] → mw_map_pool (w_maps w) ≠ [] →
  wp (bpf_unwind_ctx__process_mmap unw_create_addr_space unw_set_caching_policy
        unw_destroy_addr_space strdup maps_lock dsos_lock threads_lock ev)
     (λ r w', r = 0 ∧ ∃ ls' ds' v m a,
        has_thread w' ls' (me_tgid ev) (me_tid ev) v m ∧
        (∀ v0 m0, has_thread w ls (me_tgid ev) (me_tid ev) v0 m0 → v0 = v ∧ m0 = m) ∧
        (∀ i x, x ∈ ls i → x ∈ ls' i) ∧
        mmap_post ev w w' ls' ds ds' ml xl m a ∧
        ∀ ml' ex, mmap_sets ml ml' m a → world_rest w ls ds ml ex → world_rest w' ls' ds' ml' ex) w.
Proof.
  intros Hw Hready Hdne Hmne. unfold bpf_unwind_ctx__process_mmap. apply wp_bind.
  eapply wp_mono; [by apply (findnew_thread_wp _ _ w ls ds ml xl)|].
  intros v w1 (ls1 & t & Hw1 & (Hdw & HM1 & HMP1) & [Hv Ht Htid Htg Hrc Hsame Hsub _ _] & Hrest1).
  pose proof (inv_nonnull (wi_table _ _ _ _ _ Hw1) _ _ Hv) as Hz.
  apply wp_bind, wp_assert; [by rewrite (proj2 (Z.eqb_neq _ _) Hz)|].
  assert (w_dso w1 = w_dso w ∧ w_dso_pool w1 = w_dso_pool w) as [Hdd Hdpo].
  { unfold dsos_of in Hdw. simpl in Hdw. by injection Hdw. }
  eapply wp_mono.
  { apply (new_map_wp ev w1 ls1 ds ml xl _ v t Hw1 Hv Ht Hrc); [by rewrite Hdpo|by rewrite HMP1]. }
  intros r w' (-> & ds' & a & t' & Hm' & Hi' & Hg' & Hr' & Ht' & Hpost & Hrest). split; [done|].
  exists ls1, ds', v, (t_maps t), a. split_and!; [|done|done| |by auto].
  - exists t'. split_and!; [done|done|congruence|congruence|done|lia].
  - revert Hpost. unfold mmap_post, world_grows, takes_one. by rewrite HM1, Hdd, Hdpo, HMP1.
Qed.

(** ** All mappings of a process *)

Abbreviation process := (bpf_unwind_ctx__process_mmap unw_create_addr_space
  unw_set_caching_policy unw_destroy_addr_space strdup maps_lock dsos_lock threads_lock).

Definition room_for_maps (w : world) (n : nat) : Prop :=
  (n ≤ length (w_dso_pool w))%nat ∧ (n ≤ length (mw_map_pool (w_maps w)))%nat.

Lemma room_next w w' n :
  room_for_maps w (Datatypes.S n) →
  w_dso_pool w ≠ [] ∧ mw_map_pool (w_maps w) ≠ [] ∧ (takes_one w w' → room_for_maps w' n).
Proof.
  intros [H1 H2]. split_and!; [intros He; rewrite He in H1; simpl in H1; lia
    |intros He; rewrite He in H2; simpl in H2; lia|].
  intros [T1 T2]. split; lia.
Qed.

(** The events [evs] became the maps [as_], at the end of the list of the set
    [m]; no other set changed, and nothing was lost. *)
Definition all_mapped (evs : list mmap_event) (w w' : world) (ls ls' : bucket → list Z)
    (ds ds' : list Z) (xl xl' : Z → list Z) (m : Z) : Prop :=
  ∃ as_, xl' m = xl m ++ as_ ∧ Forall2 (is_event_map w' ds') as_ evs ∧
  (∀ b, b ≠ m → xl' b = xl b) ∧ (∀ i x, x ∈ ls i → x ∈ ls' i) ∧ world_grows w w' ds ds'.

Lemma is_event_map_grows w w' ds ds' a ev :
  world_grows w w' ds ds' → is_event_map w ds a ev → is_event_map w' ds' a ev.
Proof.
  intros (Hm & [k ->] & Hlong) (d & Ha & Hd & Hl). exists d. split_and!; [by apply Hm| |].
  - apply elem_of_app. by left.
  - by rewrite Hlong.
Qed.

Lemma world_grows_trans w1 w2 w3 ds1 ds2 ds3 :
  world_grows w1 w2 ds1 ds2 → world_grows w2 w3 ds2 ds3 → world_grows w1 w3 ds1 ds3.
Proof.
  intros (M1 & P1 & L1) (M2 & P2 & L2). split_and!; [auto|by etrans|].
  intros x Hx. rewrite L2, L1; [done|done|]. destruct P1 as [k ->]. apply elem_of_app. by left.
Qed.

(** One event, then the rest. *)
Lemma all_mapped_cons ev evs w w1 w' ls ls1 ls' ds ds1 ds' ml xl xl' m a :
  mmap_post ev w w1 ls1 ds ds1 ml xl m a → (∀ i x, x ∈ ls i → x ∈ ls1 i) →
  all_mapped evs w1 w' ls1 ls' ds1 ds' (<[m := xl m ++ [a]]> xl) xl' m →
  all_mapped (ev :: evs) w w' ls ls' ds ds' xl xl' m.
Proof.
  intros (l1 & l2 & _ & _ & _ & Ha & Hg & _) Hls (as_ & Hx & Hf & Hb & Hls' & Hg').
  exists (a :: as_). rewrite fn_lookup_insert in Hx. split_and!.
  - by rewrite Hx, <- app_assoc.
  - constructor; [by eapply is_event_map_grows|done].
  - intros b Hne. by rewrite Hb, fn_lookup_insert_ne.
  - auto.
  - by eapply world_grows_trans.
Qed.

Lemma mmap_sets_insert ml m a l1 l2 :
  ml m = l1 ++ l2 → mmap_sets ml (<[m := l1 ++ a :: l2]> ml) m a.
Proof.
  intros Hl. split; [rewrite fn_lookup_insert; set_solver|]. intros b x Hx.
  destruct (decide (b = m)) as [->|?]; [|by rewrite fn_lookup_insert_ne].
  rewrite fn_lookup_insert. rewrite Hl in Hx. set_solver.
Qed.

Lemma process_all_wp tgid tid evs w ls ds ml xl v m :
  world_inv w ls ds ml xl → has_thread w ls tgid tid v m → room_for_maps w (length evs) →
  Forall (λ ev, me_tgid ev = tgid ∧ me_tid ev = tid) evs →
  wp (process_all process evs)
     (λ r w', r = 0 ∧ ∃ ls' ds' ml' xl', world_inv w' ls' ds' ml' xl' ∧
        has_thread w' ls' tgid tid v m ∧ all_mapped evs w w' ls ls' ds ds' xl xl' m ∧
        (∀ ex, world_rest w ls ds ml ex → world_rest w' ls' ds' ml' ex)) w.
Proof.
  revert w ls ds ml xl. induction evs as [|ev evs IH]; intros w ls ds ml xl Hw Hth Hroom Hids.
  - apply wp_ret. split; [done|]. exists ls, ds, ml, xl. split_and!; [done|done| |done].
    exists []. rewrite app_nil_r. split_and!; [done|constructor|done|done|done..].
  - apply Forall_cons in Hids as [[<- <-] Hids]. cbn [process_all]. apply wp_bind.
    eapply wp_mono.
    { apply (process_mmap_wp ev w ls ds ml xl Hw); [by eapply has_thread_ready|..]; by eapply room_next. }
    intros r w1 (_ & ls1 & ds1 & v1 & m1 & a & Hth1 & Hsame & Hls & Hpost & Hrest1).
    destruct (Hsame _ _ Hth) as [<- <-]. pose proof Hpost as (l1 & l2 & Hml & Hw1 & _ & _ & _ & Htake).
    eapply wp_mono.
    { apply (IH w1 ls1 ds1 _ _ Hw1 Hth1); [by eapply room_next|done]. }
    intros r' w' (-> & ls' & ds' & ml' & xl' & Hw' & Hth' & Hall & Hrest'). split; [done|].
    exists ls', ds', ml', xl'. split_and!; [done|done|by eapply all_mapped_cons|].
    intros ex Hr. by apply Hrest', Hrest1; [apply mmap_sets_insert|].
Qed.

(** The whole file. *)
Lemma thread_map_wp (fopen : string → option (list ascii)) (event0 : mmap_event)
    (tgid tid : Z) (vs : list vma) (lines : list (list ascii)) (w : world)
    (ls : bucket → list Z) (ds : list Z) (ml xl : Z → list Z) (evs : list mmap_event) :
  evs = vma_event tgid tid (generation event0) <$> filter (λ v, vm_x v) vs →
  Forall2 maps_line vs lines → fopen (maps_path tgid) = Some (concat lines) →
  world_inv w ls ds ml xl → thread_ready w ls tgid tid → room_for_maps w (length evs) →
  wp (bpf_unwind_ctx__thread_map unw_create_addr_space unw_set_caching_policy
        unw_destroy_addr_space strdup fopen maps_lock dsos_lock threads_lock event0 tgid tid)
     (λ r w', r = 0 ∧ ∃ ls' ds' ml' xl' m, world_inv w' ls' ds' ml' xl' ∧
        (evs ≠ [] → ∃ v, has_thread w' ls' tgid tid v m) ∧
        all_mapped evs w w' ls ls' ds ds' xl xl' m ∧
        (∀ ex, world_rest w ls ds ml ex → world_rest w' ls' ds' ml' ex)) w.
Proof.
  intros Hevs Hl Hf Hw Hready Hroom.
  assert (Forall (λ ev, me_tgid ev = tgid ∧ me_tid ev = tid) evs) as Hids.
  { rewrite Hevs. apply Forall_fmap, Forall_true. done. }
  unfold bpf_unwind_ctx__thread_map, bpf_unwind_ctx_prepare_mmap. rewrite Hf.
  eapply wp_run_eq; [by apply (prepare_loop_run _ _ _ _ _ vs); [|lia]|]. rewrite <- Hevs.
  destruct evs as [|ev evs].
  - apply wp_ret. split; [done|]. exists ls, ds, ml, xl, NULL. split_and!; [done|done| |done].
    exists []. rewrite app_nil_r. split_and!; [done|constructor|done|done|done..].
  - apply Forall_cons in Hids as [[<- <-] Hids]. cbn [process_all]. apply wp_bind.
    eapply wp_mono.
    { apply (process_mmap_wp ev w ls ds ml xl Hw Hready); by eapply room_next. }
    intros r w1 (_ & ls1 & ds1 & v & m & a & Hth1 & _ & Hls & Hpost & Hrest1).
    pose proof Hpost as (l1 & l2 & Hml & Hw1 & _ & _ & _ & Htake).
    eapply wp_mono.
    { apply (process_all_wp _ _ evs w1 ls1 ds1 _ _ v m Hw1 Hth1); [by eapply room_next|done]. }
    intros r' w' (-> & ls' & ds' & ml' & xl' & Hw' & Hth' & Hall & Hrest'). split; [done|].
    exists ls', ds', ml', xl', m. split_and!; [done|by exists v|by eapply all_mapped_cons|].
    intros ex Hr. by apply Hrest', Hrest1; [apply mmap_sets_insert|].
Qed.

End process.

(** ** A machine without threads, and room for one of each object *)

Definition ex_maps_world : maps_world := MapsWorld ∅ ∅ ∅ ∅ ∅ [8192; 8256] [12288].
Definition ex_machine_world : world :=
  World ex_machine ex_maps_world (RbState ∅ NULL) {[16 := ListHead 16 16]} ∅ 16 [1024].

Lemma ex_machine_world_inv : world_inv ex_machine_world (λ _, []) [] (λ _, []) (λ _, []).
Proof.
  split.
  - apply ex_machine_inv.
  - apply ex_machine_pool.
  - split_and!.
    + exists []. split; [|done]. split; [|by intros a []%not_elem_of_nil|constructor].
      exists E. split_and!; [|by exists 0%nat; constructor|done].
      split_and!; [done|done|apply NoDup_nil_2].
    + split_and!; [repeat split|apply (bool_decide_unpack (NoDup [16])); by vm_compute
        |apply (bool_decide_unpack (0 ∉ [16])); by vm_compute].
    + by intros a []%not_elem_of_nil.
  - split; [apply NoDup_singleton|]. intros a ->%list_elem_of_singleton.
    split_and!; try done. apply not_elem_of_nil.
  - split.
    + intros a o Ha. change (@lookup _ _ (gmap Z maps_obj) _ a ∅ = Some o) in Ha.
      by rewrite lookup_empty in Ha.
    + done.
    + done.
    + intros a b x []%not_elem_of_nil.
    + intros a b _. apply not_elem_of_nil.
    + split; [apply NoDup_singleton|]. intros x ->%list_elem_of_singleton.
      split_and!; [done|intros; apply not_elem_of_nil|done|].
      intros a [[o Ho]|Ha].
      { change (@lookup _ _ (gmap Z maps_obj) _ a ∅ = Some o) in Ho. by rewrite lookup_empty in Ho. }
      unfold map_node, maps_head.
      apply elem_of_cons in Ha as [->| ->%list_elem_of_singleton]; done.
  - apply (bool_decide_unpack _). by vm_compute.
  - by intros b x m []%not_elem_of_nil.
Qed.

Definition ex_fopen (f : string) : option (list ascii) :=
  if String.eqb f "/proc/42/task/42/maps" then Some (concat ex_lines) else None.

Lemma ex_thread_ready tgid tid : thread_ready ex_rwlock ex_machine_world (λ _, []) tgid tid.
Proof.
  split; [right; split; [simpl; lia|]; apply (bool_decide_unpack _); by vm_compute|].
  split; [by intros i a t []%not_elem_of_nil|right; by intros i a t []%not_elem_of_nil].
Qed.

