(* ===== verification/MachineDelete.v ===== *)
(** Deleting a machine: machine__delete of src/src/machine.c over the whole
    state, also while callers hold some of its threads, with the sets of maps of MapsHeld.v as the implementation of what
    ThreadsDelete.v asks of maps ([MapsPut]). *)
From Stdlib Require Import ZArith Lia String List.
From stdpp Require Import sorting functions base tactics option list numbers gmap fin vector finite strings.
From S2P Require Import Prelude RbTree RbSpec RbRep ListHead ListRep Refcount DsoRef Rwsem.
From S2P Require Import Maps MapsObj MapsHeld DsoData Dsos DsosInv DsosPurge CString Unwind.
From S2P Require Import Threads ThreadsInv ThreadsFind DeadList ThreadsDelete World Scanf Event Machine MachineInv.

Local Open Scope Z_scope.

(** ** The sets of maps as an implementation of [MapsPut] *)

Section put.
Variable lock : pthread_rwlock maps_st.
(** The references of the dsos that maps do not hold, and the dsos listed. *)
Variables (k : gmap Z Z) (ds : list Z).

#[local] Instance ops : MapsOps world := world_maps_ops lock.

Definition world_held (w : world) (n : Z → nat) : Prop :=
  dsos_inv (dsos_of w) ds ∧ ∃ ml xl, sets_held (w_maps w) n k ml xl.

#[export] Instance world_maps_put : MapsPut world.
Proof.
  refine {| maps_held := world_held |}.
  - intros w n n' He [Hd (ml & xl & Hh)]. split; [done|]. exists ml, xl. by eapply held_same.
  - intros M w n [Hd Hh]. split; [exact Hd|exact Hh].
  - intros w n m [Hd (ml & xl & Hh)] Hm Hn. apply wp_lift.
    eapply wp_mono; [by eapply maps_put_held_wp|]. intros u W [Hh' Hlive].
    split; [split; [|exact Hh']|done]. by apply (dsos_inv_refs (dsos_of w)).
Defined.
End put.

(** ** machine__delete *)

Section delete.
Variables (unw_destroy_addr_space : Z → wm unit).
Variables (maps_lock : pthread_rwlock maps_st) (dsos_lock : pthread_rwlock dsos_st)
          (threads_lock : pthread_rwlock world).
(** libunwind frees an address space and touches nothing of the machine. *)
Hypothesis Hdestroy : ∀ a w, wp (unw_destroy_addr_space a) (λ _ w', w' = w) w.

#[local] Instance dops : MapsOps world := world_maps_ops maps_lock.

(** All threads of the table. *)
Definition all_threads (ls : bucket → list Z) : list Z := concat (ls <$> enum bucket).

Lemma in_all_threads ls a : a ∈ all_threads ls ↔ ∃ i, a ∈ ls i.
Proof.
  unfold all_threads. rewrite list_elem_of_In, in_concat. split.
  - intros (l & (i & <- & _)%in_map_iff & Ha). exists i. by apply list_elem_of_In.
  - intros (i & Ha). exists (ls i). split; [|by apply list_elem_of_In].
    apply in_map_iff. exists i. split; [done|]. apply list_elem_of_In, elem_of_enum.
Qed.

(** The table of a well-formed machine whose dead lists are empty. *)
Lemma table_del_inv M R ls :
  table_inv M R [] ls → heads_apart M →
  (∀ i, th_dead (ma_threads M !!! i) ≠ 0 ∧ ma_dead M !! th_dead (ma_threads M !!! i) =
      Some (ListHead (th_dead (ma_threads M !!! i)) (th_dead (ma_threads M !!! i)))) →
  (∀ i j, th_dead (ma_threads M !!! i) = th_dead (ma_threads M !!! j) → i = j) →
  del_inv M ls (λ _, []).
Proof.
  intros Hti Hap Hd Hown. split; [apply (ti_tree _ _ _ _ Hti)| |done| |done| | |].
  - intros i a Ha. destruct (ti_thread _ _ _ _ Hti i a Ha) as (t & Ht & Hi & Hr). exists t.
    destruct (ti_group _ _ _ _ Hti i a t Ha ltac:(apply not_elem_of_nil) Ht) as (Hm & _). done.
  - intros i. destruct (Hd i) as [_ ->]. by eexists.
  - intros i. destruct (Hd i) as [Hz Hi]. apply one_ring; [done|]. by apply links_dead.
  - by intros i a ?%not_elem_of_nil.
  - by intros i j a ?%not_elem_of_nil.
Qed.

(** The references to sets that the threads [l] hold when all are removed. *)
Definition still_held (T : gmap Z thread) (l : list Z) : Z → nat := after_put T l (held_by T l).

Lemma still_held_eq T l m : still_held T l m = held_by T (filter (λ a, ¬ lone T a) l) m.
Proof.
  unfold still_held, after_put. induction l as [|a l IH]; [done|].
  rewrite freed_by_cons, held_by_cons, filter_cons.
  assert (freed_by T l m ≤ held_by T l m)%nat as Hle.
  { clear. induction l as [|b l IH]; [done|]. rewrite freed_by_cons, held_by_cons.
    repeat case_decide; try tauto; lia. }
  destruct (decide (lone T a)) as [Hl|Hl].
  - rewrite (decide_False (P := ¬ lone T a)) by tauto. rewrite <- IH. repeat case_decide; try tauto; lia.
  - rewrite (decide_True (P := ¬ lone T a)) by done. rewrite held_by_cons, <- IH.
    repeat case_decide; try tauto; lia.
Qed.

Lemma freed_le T l m : (freed_by T l m ≤ held_by T l m)%nat.
Proof.
  induction l as [|b l IH]; [done|]. rewrite freed_by_cons, held_by_cons.
  repeat case_decide; try tauto; lia.
Qed.

Lemma delete_threads_wp k ds w ls dl bs :
  NoDup bs → (∀ i : bucket, i ∈ bs) →
  del_inv (w_machine w) ls dl → dsos_inv (dsos_of w) ds →
  (∃ ml xl, sets_held (w_maps w) (held_by (ma_thread (w_machine w)) (concat (ls <$> bs))) k ml xl) →
  wp (for_buckets (delete_bucket unw_destroy_addr_space threads_lock) bs)
     (λ _ w', taken (concat (ls <$> bs)) (w_machine w) (w_machine w') ∧ dsos_inv (dsos_of w') ds ∧
        ∃ ml xl, sets_held (w_maps w')
          (still_held (ma_thread (w_machine w)) (concat (ls <$> bs))) k ml xl) w.
Proof.
  intros Hnd Hbs Hd Hds Hh.
  rewrite <- (with_part_id (S:=world) (T:=machine_st) w).
  eapply wp_mono.
  { apply (@delete_buckets_wp world _ _ (world_maps_put maps_lock k ds) unw_destroy_addr_space
      threads_lock Hdestroy bs ls dl (w_machine w) w
      (held_by (ma_thread (w_machine w)) (concat (ls <$> bs)))); [done|done| |intros m; apply freed_le].
    by split. }
  intros u w' (M' & w1 & -> & Hf & [Hds1 Hh1]).
  split_and!; [exact Hf|exact Hds1|exact Hh1].
Qed.

Lemma exit_locks_wp (bs : list bucket) (Q : unit → world → Prop) w :
  Q tt w → wp (for_buckets (λ _, exit_rwsem threads_lock;; mret tt) bs) Q w.
Proof.
  intros HQ. induction bs as [|i bs IH]; cbn [for_buckets]; [by apply wp_ret|].
  by apply wp_bind, wp_exit_rwsem, wp_ret.
Qed.

(** What is left: of the table the threads that callers hold, with one reference
    less, the sets of these threads with their maps, and the dsos, without the
    reference of the list. *)
Record machine_gone (w w' : world) (ls : bucket → list Z) (ds : list Z) (k : gmap Z Z) : Prop := {
  mg_taken : taken (all_threads ls) (w_machine w) (w_machine w');
  mg_heads : ma_dead (w_machine w') = ∅;
  mg_sets m : from_option mo_refcnt 0 (mw_obj (w_maps w') !! m) =
    Z.of_nat (still_held (ma_thread (w_machine w)) (all_threads ls) m);
  mg_live m o : mw_obj (w_maps w') !! m = Some o → 0 < mo_refcnt o < 2 ^ 32;
  mg_maps : ∃ ml : Z → list Z, ∀ x, is_Some (mw_map (w_maps w') !! x) → ∃ m, x ∈ ml m ∧ is_Some (mw_obj (w_maps w') !! m);
  mg_dsos d : d ∈ ds → ∃ o, w_dso w' !! d = Some o ∧ d_root o = false;
  mg_refs d j : d ∈ ds → k !! d = Some j →
    mw_dso (w_maps w') !! d = Some (w32 (j - 1 + Z.of_nat (maps_over (mw_map (w_maps w')) d)));
}.

Lemma machine_delete_wp k ds w ls dl :
  del_inv (w_machine w) ls dl → dsos_inv (dsos_of w) ds →
  (∃ ml xl, sets_held (w_maps w) (held_by (ma_thread (w_machine w)) (all_threads ls)) k ml xl) →
  wp (machine__delete unw_destroy_addr_space maps_lock dsos_lock threads_lock)
     (λ _ w', machine_gone w w' ls ds k) w.
Proof.
  intros Hd Hds Hh. unfold machine__delete. apply wp_bind. eapply wp_mono.
  { apply (delete_threads_wp k ds w ls dl (enum bucket)); [apply NoDup_enum|apply elem_of_enum|done..]. }
  intros u w1 (Htk & Hds1 & ml & xl & [Hok Hc Hn _ Ha Hk]).
  apply wp_bind. unfold machine__exit, dsos__exit. apply wp_bind, wp_lift, wp_bind. eapply wp_mono.
  { apply (dsos_purge_wp dsos_lock (dsos_of w1) ds Hds1). }
  intros u2 s' Hp. apply wp_exit_rwsem, wp_ret, exit_locks_wp, wp_modify. split; simpl.
  - by destruct Htk.
  - done.
  - intros m. destruct (mw_obj (w_maps w1) !! m) as [o|] eqn:Ho; simpl.
    + destruct (Hc m o Ho) as [He _]. exact He.
    + specialize (Hn m Ho). symmetry. exact (f_equal Z.of_nat Hn).
  - intros m o Ho. apply (Hc m o Ho).
  - exists ml. intros x Hx. destruct (Ha x Hx) as (b & Hb). exists b. split; [done|].
    destruct (mw_obj (w_maps w1) !! b) as [o|] eqn:Ho; [by eexists|].
    destruct (oo_none _ _ _ Hok b Ho) as [Hnil _]. rewrite Hnil in Hb. by apply not_elem_of_nil in Hb.
  - intros d Hin. rewrite (dp_dso _ _ _ Hp d), decide_True by done.
    destruct (dsos_ready _ _ Hds1 d Hin) as [_ _ [o Ho] _]. rewrite Ho. by eexists.
  - intros d j Hin Hj. destruct (Hk d j Hj) as [_ Hcd]. unfold dso_counted in Hcd.
    rewrite (dp_refs _ _ _ Hp d), decide_True by done.
    simpl. rewrite Hcd. simpl. f_equal. unfold refcount_sub, w32.
    rewrite Zminus_mod_idemp_l. f_equal. lia.
Qed.
End delete.
