(* ===== verification/Lifecycle.v ===== *)
(** The life of a machine: machine__init, any number of
    bpf_unwind_ctx__thread_map, machine__delete (src/src/machine.c,
    src/src/event.c). *)
From Stdlib Require Import ZArith Lia Ascii String.
From stdpp Require Import sorting functions relations base tactics option list numbers gmap fin vector finite strings.
From S2P Require Import Prelude RbTree RbSpec RbRep RbIter RbSearch ListHead ListRep Refcount DsoRef.
From S2P Require Import Rwsem Maps MapsObj MapsHeld DsoData Dsos DsosInv DsosProps DsosPurge CString Unwind.
From S2P Require Import Threads ThreadsInv ThreadsRefs ThreadsFind DeadList ThreadsDelete ThreadsInit World.
From S2P Require Import ThreadsProps Scanf Event EventProps Machine MachineInv MachineProps MachineDelete.

Local Open Scope Z_scope.

(** ** machine__init *)

(** The memory of a machine before machine__init: its heads are live, one for
    each bucket, and no thread, set, map or dso exists. *)
Record fresh_memory (w : world) : Prop := {
  fm_heads : heads_live (w_machine w);
  fm_own i j : th_dead (ma_threads (w_machine w) !!! i) = th_dead (ma_threads (w_machine w) !!! j) → i = j;
  fm_threads : ma_thread (w_machine w) = ∅ ∧ thread_pool_ok (w_machine w);
  fm_sets : mw_obj (w_maps w) = ∅ ∧ mw_map (w_maps w) = ∅ ∧ maps_pool_ok (w_maps w);
  fm_maps : NoDup (mw_map_pool (w_maps w)) ∧ ∀ x, x ∈ mw_map_pool (w_maps w) →
    node_ok x ∧ ∀ a, a ∈ mw_pool (w_maps w) → map_node x ≠ maps_head a;
  fm_dsos : w_dso_head w ≠ 0 ∧ dso_pool_ok (dsos_of w) [];
}.

Lemma empty_objs w :
  mw_obj w = ∅ → NoDup (mw_map_pool w) → mw_map w = ∅ →
  (∀ x, x ∈ mw_map_pool w → node_ok x ∧ ∀ a, a ∈ mw_pool w → map_node x ≠ maps_head a) →
  objs_ok w (λ _, []) (λ _, []).
Proof.
  intros Ho Hnd Hm Hp. split; rewrite ?Ho; try done.
  - intros a b x []%not_elem_of_nil.
  - intros a b _. apply not_elem_of_nil.
  - split; [done|]. intros x Hx. destruct (Hp x Hx) as [? Hh]. split_and!; [done| | |].
    + intros a. apply not_elem_of_nil.
    + by rewrite Hm.
    + intros a [[o Hoa]|Ha]; [by rewrite lookup_empty in Hoa|by apply Hh].
Qed.

Lemma empty_dsos s :
  rb_root_node (dn_rb s) = NULL → is_list (dn_list s) (dn_head s) [] → dsos_inv s [].
Proof.
  intros Hr Hl. split_and!; [|done|by intros a ?%not_elem_of_nil].
  exists []. split; [|done]. split; [|by intros a ?%not_elem_of_nil|constructor].
  exists E. split_and!; [|by exists 0%nat; constructor|done].
  split_and!; [done|done|apply NoDup_nil_2].
Qed.

Lemma machine_init_wp dsos_lock threads_lock w bs :
  NoDup bs → (∀ i : bucket, i ∈ bs) → fresh_memory w →
  wp (memset_machine;; lift (dsos__init dsos_lock);; for_buckets (init_bucket threads_lock) bs)
     (λ _ w', world_inv w' (λ _, []) [] (λ _, []) (λ _, []) ∧
        world_rest w' (λ _, []) [] (λ _, []) (λ _, 0)) w.
Proof.
  intros Hnd Hbs [[Hap Hhl] Hown [HT Hpool] (HO & HM & Hmp) [Hmnd Hmpool] [Hh Hdp]].
  apply wp_bind. unfold memset_machine. apply wp_modify. set (w1 := World _ _ _ _ _ _ _).
  apply wp_bind, wp_lift. eapply (wp_mono _ (λ _ d, d = DsosSt (RbState (rb_mem (w_dso_rb w)) NULL)
    (<[w_dso_head w := ListHead (w_dso_head w) (w_dso_head w)]> (w_dso_list w)) (w_dso w)
    (mw_dso (w_maps w)) (w_dso_head w) (w_dso_pool w))).
  { unfold dsos__init. apply wp_bind, wp_get, wp_bind, wp_lift. simpl.
    eapply wp_mono; [by apply init_head_run|]. intros u L ->. apply wp_bind, wp_lift. simpl. apply wp_set_root.
    by apply wp_init_rwsem, wp_ret. }
  intros u d ->. set (w2 := with_part _ w1).
  assert (∀ i, th_dead (ma_threads (w_machine w2) !!! i) = th_dead (ma_threads (w_machine w) !!! i)) as Hd.
  { intros i. simpl. by rewrite vlookup_map. }
  assert (heads_live (w_machine w2)) as Hl2.
  { split.
    - intros x. simpl. rewrite lookup_fmap. intros Hx%fmap_is_Some. by apply Hap.
    - intros i. rewrite Hd. simpl. rewrite lookup_fmap, fmap_is_Some. apply Hhl. }
  rewrite <- (with_part_id (S:=world) (T:=machine_st) w2).
  eapply wp_mono; [by apply init_buckets_wp|]. intros u2 w' (M' & -> & Hi).
  destruct Hl2 as [Hap2 Hhl2]. destruct Hi as [IN IT IP ID IH IDn _ _].
  assert (∀ i, ma_threads M' !!! i = Threads NULL 0 (th_dead (ma_threads M' !!! i)) NULL) as Hclean.
  { intros i. destruct (IDn i (Hbs i)) as [He _]. rewrite IH. exact He. }
  assert (ma_thread M' = ∅) as HT' by (rewrite IT; exact HT).
  split.
  - split; [by apply empty_table| | | | |exact Hmp|].
    + destruct Hpool as [Hpn Hpf]. unfold thread_pool_ok. simpl. rewrite IP, HT'.
      split; [exact Hpn|]. intros a Ha. split; [by apply Hpf|apply lookup_empty].
    + apply empty_dsos; [done|]. simpl. apply one_ring; [done|]. apply lookup_insert_eq.
    + exact Hdp.
    + by apply empty_objs.
    + by intros b x m ?%not_elem_of_nil.
  - split; simpl; rewrite ?HT'.
    + split; [unfold obj_refs; simpl; by rewrite HO|]. intros m _. unfold obj_refs. simpl.
      rewrite HO, fmap_empty, lookup_empty. unfold held. by rewrite map_filter_empty.
    + intros a t. by rewrite lookup_empty.
    + done.
    + intros a. rewrite lookup_empty. by intros [? ?].
    + intros x m. by rewrite HM, lookup_empty.
    + split; [by intros d ?%not_elem_of_nil|]. intros x m. simpl. by rewrite HM, lookup_empty.
    + intros x. rewrite ID, IN, IP. apply Hap2.
    + intros i. rewrite IH. split; [apply Hhl2|]. by apply IDn.
    + intros i j. rewrite !IH, !Hd. apply Hown.
Qed.

(** ** The references at rest *)

Lemma nodup_concat (ls : bucket → list Z) bs :
  NoDup bs → (∀ i, NoDup (ls i)) → (∀ i j a, a ∈ ls i → a ∈ ls j → i = j) → NoDup (concat (ls <$> bs)).
Proof.
  intros Hnd Hl Hd. induction bs as [|i bs IH]; [constructor|].
  rewrite fmap_cons. cbn [concat]. apply NoDup_cons in Hnd as [Hi Hnd].
  apply NoDup_app. split_and!; [done| |by apply IH]. intros a Ha Hc.
  apply list_elem_of_In, in_concat in Hc as (l & (j & <- & Hj%list_elem_of_In)%in_map_iff & Hal%list_elem_of_In).
  apply Hi. by rewrite (Hd _ _ _ Ha Hal).
Qed.

Lemma held_by_all l : ∀ T m,
  NoDup l → (∀ a, a ∈ l ↔ is_Some (T !! a)) → held_by T l m = held T m.
Proof.
  induction l as [|a l IH]; intros T m Hnd Hl.
  - assert (T = ∅) as ->.
    { apply map_empty. intros a. apply eq_None_not_Some. intros Ha%Hl. by apply not_elem_of_nil in Ha. }
    unfold held. by rewrite map_filter_empty.
  - apply NoDup_cons in Hnd as [Ha Hnd]. destruct (proj1 (Hl a) ltac:(left)) as [t Ht].
    rewrite held_by_cons, (held_delete T a t) by done. f_equal.
    { unfold maps_of, points. by rewrite Ht. }
    rewrite <- (IH (delete a T)); [|done|].
    + apply held_by_ext. intros b Hb. rewrite lookup_delete_ne; [done|]. by intros ->.
    + intros b. destruct (decide (b = a)) as [->|Hne].
      * rewrite lookup_delete_eq. split; [done|by intros [? ?]].
      * rewrite lookup_delete_ne by done. rewrite <- Hl. set_solver.
Qed.

Lemma all_nodup w ls ds ml xl : world_inv w ls ds ml xl → NoDup (all_threads ls).
Proof.
  intros Hw. pose proof (wi_table _ _ _ _ _ Hw) as Hti. apply nodup_concat; [apply NoDup_enum| |].
  - intros i. destruct (ti_tree _ _ _ _ Hti i) as (t & (_ & _ & ?) & _ & <-). done.
  - intros i j a. by apply (inv_bucket Hti).
Qed.

(** One reference of each dso is the list's. *)
Definition list_refs (ds : list Z) : gmap Z Z := gset_to_gmap 1 (list_to_set ds).

Lemma rest_held w ls ds ml xl ex :
  world_inv w ls ds ml xl → world_rest w ls ds ml ex →
  Z.of_nat (size (ma_thread (w_machine w))) < 2 ^ 32 →
  sets_held (w_maps w) (held_by (ma_thread (w_machine w)) (all_threads ls)) (list_refs ds) ml xl.
Proof.
  intros Hw Hr Hsize. pose proof Hw as [Hti _ Hds _ Hob _ Hmd].
  assert (∀ m, held_by (ma_thread (w_machine w)) (all_threads ls) m = held (ma_thread (w_machine w)) m) as Hh.
  { intros m. apply held_by_all; [by eapply all_nodup|]. intros a. rewrite in_all_threads. split.
    - intros [i (t & Ht & _)%(ti_thread _ _ _ _ Hti)]. by eexists.
    - apply (wr_table _ _ _ _ _ Hr). }
  destruct (wr_counted _ _ _ _ _ Hr) as [Hnull Hc].
  eapply held_same; [intros a; symmetry; apply Hh|].
  assert (∀ m, Z.of_nat (held (ma_thread (w_machine w)) m) < 2 ^ 32) as Hlt.
  { intros m. pose proof (map_size_filter (λ x : Z * thread, t_maps x.2 = m) (ma_thread (w_machine w))).
    unfold held. lia. }
  assert (∀ d, d ∈ ds → d ≠ NULL ∧ is_Some (mw_dso (w_maps w) !! d)) as Hdl.
  { intros d Hd. destruct (dsos_ready _ _ Hds d Hd) as [[? _] _ _ ?]. done. }
  split; [done|..].
  - intros a o Ho. assert (obj_refs (w_maps w) !! a = Some (mo_refcnt o)) as Hra.
    { unfold obj_refs. by rewrite lookup_fmap, Ho. }
    destruct (decide (a = NULL)) as [->|Ha]; [congruence|]. specialize (Hc a Ha). rewrite Hra in Hc.
    destruct Hc as [Hpos Hc]. rewrite w32_small in Hc by (unfold is_u32; specialize (Hlt a); lia).
    specialize (Hlt a). lia.
  - intros a Ho. destruct (decide (a = NULL)) as [->|Ha].
    + rewrite <- Hh. unfold held_by. destruct (filter _ (all_threads ls)) as [|b l] eqn:E; [done|].
      exfalso. assert (b ∈ b :: l) as Hbl by left. rewrite <- E in Hbl.
      apply list_elem_of_filter in Hbl as [Hm [i Hb]%in_all_threads]. destruct (ti_thread _ _ _ _ Hti _ _ Hb) as (t & Ht & _).
      destruct (ti_group _ _ _ _ Hti _ _ _ Hb ltac:(apply not_elem_of_nil) Ht) as [Hmz _].
      unfold maps_of in Hm. rewrite Ht in Hm. done.
    + specialize (Hc a Ha). unfold obj_refs in Hc. by rewrite lookup_fmap, Ho in Hc.
  - intros b x Hx. destruct (mw_obj (w_maps w) !! b) as [o|] eqn:Hb.
    2: { destruct (oo_none _ _ _ Hob b Hb) as [Hn _]. rewrite Hn in Hx. by apply not_elem_of_nil in Hx. }
    destruct (oo_inv _ _ _ Hob b o Hb) as [[_ Hlive _] _]. destruct (Hlive x Hx) as [m Hm]. simpl in Hm.
    destruct (wr_map _ _ _ _ _ Hr x m Hm) as (? & ? & _). split; [done|]. exists m. split_and!; [done|done|].
    right. by apply Hdl, (Hmd b x).
  - intros x [m Hm]. by apply (wr_map _ _ _ _ _ Hr x m Hm).
  - intros d j [Hd%elem_of_list_to_set <-]%lookup_gset_to_gmap_Some.
    split; [by apply Hdl|]. by apply (wr_dsos _ _ _ _ _ Hr).
Qed.

Lemma rest_del_inv w ls ds ml xl ex :
  world_inv w ls ds ml xl → world_rest w ls ds ml ex → del_inv (w_machine w) ls (λ _, []).
Proof.
  intros Hw Hr. eapply table_del_inv; [apply Hw| |apply Hr|apply Hr].
  intros x Hx. by apply (wr_heads _ _ _ _ _ Hr).
Qed.

(** ** What machine__delete leaves *)

(** The table gave back its reference of every thread; the threads that callers
    still hold are left, with the sets of maps they point to, each counted, the
    maps in these sets, and the dsos, counted by the maps over them.  The heads
    of the dead lists are freed with the machine. *)
Record machine_deleted (w w' : world) : Prop := {
  md_thread a : ma_thread (w_machine w') !! a = ma_thread (w_machine w) !! a ≫= drop_ref;
  md_node a : is_Some (ma_node (w_machine w') !! a) ↔ is_Some (ma_node (w_machine w) !! a) ∧
    (is_Some (ma_thread (w_machine w) !! a) → is_Some (ma_thread (w_machine w') !! a));
  md_heads : ma_dead (w_machine w') = ∅;
  md_counted : counted (obj_refs (w_maps w')) (ma_thread (w_machine w'));
  md_maps : ∃ ml : Z → list Z, ∀ x, is_Some (mw_map (w_maps w') !! x) →
    ∃ m, x ∈ ml m ∧ is_Some (obj_refs (w_maps w') !! m);
  md_dsos x m : mw_map (w_maps w) !! x = Some m → is_Some (w_dso w' !! m_dso m) ∧
    mw_dso (w_maps w') !! m_dso m = Some (w32 (Z.of_nat (maps_over (mw_map (w_maps w')) (m_dso m))));
}.

Lemma drop_kept T a : is_Some (T !! a ≫= drop_ref) ↔ is_Some (T !! a) ∧ ¬ lone T a.
Proof.
  unfold lone, drop_ref. destruct (T !! a) as [t|]; simpl; [|by split; [intros [? ?]|intros [[? ?] ?]]].
  destruct (Z.eqb_spec (t_refcnt t) 1) as [Hr|Hr].
  - split; [by intros [? ?]|]. intros [_ H]. congruence.
  - split; [|by eexists]. intros _. split; [by eexists|congruence].
Qed.

Lemma kept_held T T' l m :
  NoDup l → (∀ a, a ∈ l ↔ is_Some (T !! a)) → (∀ a, T' !! a = T !! a ≫= drop_ref) →
  still_held T l m = held T' m.
Proof.
  intros Hnd Hl HT. rewrite still_held_eq, <- (held_by_all (filter (λ a, ¬ lone T a) l) T').
  - assert (∀ a, a ∈ filter (λ a, ¬ lone T a) l → maps_of T' a = maps_of T a) as Hm.
    { intros a [Ha _]%list_elem_of_filter. unfold lone, maps_of in *. rewrite HT.
      destruct (T !! a) as [t|]; simpl in *; [|done]. unfold drop_ref.
      by rewrite (proj2 (Z.eqb_neq _ _) Ha). }
    induction (filter (λ a, ¬ lone T a) l) as [|b k IH]; [done|].
    rewrite !held_by_cons, (Hm b) by left. f_equal. apply IH. intros a Ha. apply Hm. by right.
  - by apply NoDup_filter.
  - intros a. rewrite list_elem_of_filter, HT, drop_kept, Hl. tauto.
Qed.

(** The threads of the table. *)
Lemma rest_threads w ls ds ml xl ex a :
  world_inv w ls ds ml xl → world_rest w ls ds ml ex →
  a ∈ all_threads ls ↔ is_Some (ma_thread (w_machine w) !! a).
Proof.
  intros Hw Hr. rewrite in_all_threads. split.
  - intros [i (t & Ht & _)%(ti_thread _ _ _ _ (wi_table _ _ _ _ _ Hw))]. by eexists.
  - apply (wr_table _ _ _ _ _ Hr).
Qed.

Lemma gone_deleted w w' ls ds ml xl ex :
  world_inv w ls ds ml xl → world_rest w ls ds ml ex →
  machine_gone w w' ls ds (list_refs ds) → machine_deleted w w'.
Proof.
  intros Hw Hr [[T1 T2 _ _] G2 G3 G4 [ml' G5] G6 G7].
  assert (∀ a, a ∈ all_threads ls ↔ is_Some (ma_thread (w_machine w) !! a)) as Hall
    by (intros a; by eapply rest_threads).
  assert (∀ a, ma_thread (w_machine w') !! a = ma_thread (w_machine w) !! a ≫= drop_ref) as HT.
  { intros a. rewrite T1. case_decide as Ha; [done|]. rewrite Hall in Ha.
    destruct (ma_thread (w_machine w) !! a); [|done]. by destruct Ha. }
  assert (∀ m, still_held (ma_thread (w_machine w)) (all_threads ls) m = held (ma_thread (w_machine w')) m) as Hheld.
  { intros m. by apply kept_held; [by eapply all_nodup|..]. }
  split; [done| |done| | |].
  - intros a. rewrite T2. split; intros [H1 H2]; (split; [done|]); intros Ha; apply H2, Hall, Ha.
  - split.
    + unfold obj_refs. rewrite lookup_fmap. destruct (mw_obj (w_maps w') !! NULL) as [o|] eqn:Ho; [|done].
      pose proof (G4 _ _ Ho) as Hpos. pose proof (G3 NULL) as Hc. rewrite Ho in Hc. simpl in Hc.
      rewrite Hheld in Hc. exfalso.
      assert (held (ma_thread (w_machine w')) NULL = 0%nat) as Hz; [|lia].
      rewrite <- Hheld, still_held_eq. unfold held_by. destruct (filter _ (filter _ _)) as [|b l] eqn:E; [done|].
      exfalso. assert (b ∈ b :: l) as Hbl by left. rewrite <- E in Hbl.
      apply list_elem_of_filter in Hbl as [Hm [_ [i Hb]%in_all_threads]%list_elem_of_filter].
      destruct (ti_thread _ _ _ _ (wi_table _ _ _ _ _ Hw) _ _ Hb) as (t & Ht & _).
      destruct (ti_group _ _ _ _ (wi_table _ _ _ _ _ Hw) _ _ _ Hb ltac:(apply not_elem_of_nil) Ht) as [Hmz _].
      unfold maps_of in Hm. rewrite Ht in Hm. done.
    + intros m Hm. unfold obj_refs. rewrite lookup_fmap. pose proof (G3 m) as Hc. rewrite Hheld in Hc.
      destruct (mw_obj (w_maps w') !! m) as [o|] eqn:Ho; simpl in *; [|lia].
      pose proof (G4 _ _ Ho). split; [lia|]. rewrite w32_small; [done|]. unfold is_u32. lia.
  - exists ml'. intros x (m & Hx & Hm)%G5. exists m. split; [done|]. unfold obj_refs. rewrite lookup_fmap.
    by apply fmap_is_Some.
  - intros x m Hx. destruct (wr_dsos _ _ _ _ _ Hr) as [_ Hin]. specialize (Hin x m Hx). split.
    + destruct (G6 _ Hin) as (o & -> & _). by eexists.
    + rewrite (G7 _ 1 Hin); [done|]. apply lookup_gset_to_gmap_Some. split; [by apply elem_of_list_to_set|done].
Qed.

(** Nothing of the machine is left. *)
Record all_freed (w : world) : Prop := {
  af_thread : ma_thread (w_machine w) = ∅;
  af_heads : ma_dead (w_machine w) = ∅;
  af_sets : mw_obj (w_maps w) = ∅;
  af_maps : mw_map (w_maps w) = ∅;
}.

(** A machine whose threads nobody else holds is freed. *)
Lemma deleted_freed w w' ls ds ml :
  world_rest w ls ds ml (λ _, 0) → machine_deleted w w' →
  all_freed w' ∧ ∀ x m, mw_map (w_maps w) !! x = Some m →
    mw_dso (w_maps w') !! m_dso m = Some 0 ∧ is_Some (w_dso w' !! m_dso m).
Proof.
  intros Hr [D1 _ D3 [D0 D4] [ml' D5] D6].
  assert (ma_thread (w_machine w') = ∅) as HT.
  { apply map_empty. intros a. rewrite D1. destruct (ma_thread (w_machine w) !! a) as [t|] eqn:Ht; [|done].
    simpl. unfold drop_ref. by rewrite (wr_refs _ _ _ _ _ Hr _ _ Ht). }
  assert (∀ m, held (ma_thread (w_machine w')) m = 0%nat) as Hz.
  { intros m. rewrite HT. unfold held. by rewrite map_filter_empty. }
  assert (obj_refs (w_maps w') = ∅) as HR.
  { apply map_empty. intros m. destruct (decide (m = NULL)) as [->|Hm].
    - done.
    - specialize (D4 m Hm). destruct (obj_refs (w_maps w') !! m); [|done]. rewrite Hz in D4. lia. }
  assert (mw_map (w_maps w') = ∅) as HM.
  { apply map_empty. intros x. apply eq_None_not_Some. intros (m & _ & Hm)%D5.
    rewrite HR, lookup_empty in Hm. by destruct Hm. }
  split; [split; [done|done| |done]|].
  - apply map_empty. intros m. apply eq_None_not_Some. intros Hs. apply (fmap_is_Some mo_refcnt) in Hs.
    rewrite <- lookup_fmap in Hs. fold (obj_refs (w_maps w')) in Hs. rewrite HR, lookup_empty in Hs.
    by destruct Hs.
  - intros x m Hx. destruct (D6 x m Hx) as [Hd Hc]. split; [|done]. rewrite Hc, HM. unfold maps_over.
    by rewrite map_filter_empty.
Qed.

(** ** The whole life *)

Section life.
Variables (unw_create_addr_space : wm Z) (unw_set_caching_policy : Z → wm unit)
          (unw_destroy_addr_space : Z → wm unit).
Variables (strdup : string → option string).
Variables (maps_lock : pthread_rwlock maps_st) (dsos_lock : pthread_rwlock dsos_st)
          (threads_lock : pthread_rwlock world).
Hypothesis Hcreate : ∀ w, wp unw_create_addr_space (λ a w', a ≠ 0 ∧ w' = w) w.
Hypothesis Hcache : ∀ a w, wp (unw_set_caching_policy a) (λ _ w', w' = w) w.
Hypothesis Hdestroy : ∀ a w, wp (unw_destroy_addr_space a) (λ _ w', w' = w) w.
Hypothesis Hstrdup : ∀ s t, strdup s = Some t → t = s.

Abbreviation thread_map := (bpf_unwind_ctx__thread_map unw_create_addr_space
  unw_set_caching_policy unw_destroy_addr_space strdup).

(** A request that a machine at rest can answer: a thread of that id is of that
    group or asked for as a leader, and there is memory. *)
Definition request_fits (w : world) (tgid tid : Z) : Prop :=
  (∀ a t, ma_thread (w_machine w) !! a = Some t → t_tid t = tid → tgid = tid ∨ t_tgid t = tgid) ∧
  (2 ≤ length (ma_pool (w_machine w)))%nat ∧ (0 < length (mw_pool (w_maps w)))%nat.

Lemma rest_ready w ls ds ml xl tgid tid :
  world_inv w ls ds ml xl → world_rest w ls ds ml (λ _, 0) → request_fits w tgid tid →
  thread_ready maps_lock w ls tgid tid.
Proof.
  intros Hw Hr (Hg & Hp & Hm).
  assert (∀ a t, ma_thread (w_machine w) !! a = Some t → t_refcnt t < 2 ^ 32 - 1) as Hone.
  { intros a t Ht. rewrite (wr_refs _ _ _ _ _ Hr a t Ht). lia. }
  split; [right; split; [done|]|split].
  - simpl. unfold world_room. rewrite decide_True by apply Hw. done.
  - intros i a t _ Ht Htid. split; [by eapply Hone|by eapply Hg].
  - right. intros i a t _ Ht _. by eapply Hone.
Qed.

(** One call of the library: the kernel's file of the process holds its
    mappings. *)
Inductive map_step (w w' : world) : Prop :=
  MapStep tgid tid vs lines (fopen : string → option (list ascii)) event0 r :
    Forall2 maps_line vs lines → fopen (maps_path tgid) = Some (concat lines) →
    request_fits w tgid tid →
    room_for_maps w (length (filter (λ v, vm_x v) vs)) →
    thread_map fopen maps_lock dsos_lock threads_lock event0 tgid tid w = Ok (r, w') →
    map_step w w'.

Definition at_rest (w : world) : Prop :=
  ∃ ls ds ml xl, world_inv w ls ds ml xl ∧ world_rest w ls ds ml (λ _, 0).

Lemma map_step_rest w w' : at_rest w → map_step w w' → at_rest w'.
Proof.
  intros (ls & ds & ml & xl & Hw & Hr) [tgid tid vs lines fopen event0 r Hl Hf Hreq Hroom Hrun].
  assert (length (vma_event tgid tid (generation event0) <$> filter (λ v, vm_x v) vs) =
    length (filter (λ v, vm_x v) vs)) as Hlen by apply length_fmap.
  pose proof (thread_map_wp unw_create_addr_space unw_set_caching_policy unw_destroy_addr_space
    strdup maps_lock dsos_lock threads_lock Hcreate Hcache Hstrdup fopen event0 tgid tid vs lines
    w ls ds ml xl _ eq_refl Hl Hf Hw ltac:(by eapply rest_ready) ltac:(by rewrite Hlen)) as Hm.
  unfold wp in Hm. rewrite Hrun in Hm.
  destruct Hm as (_ & ls' & ds' & ml' & xl' & m & Hw' & _ & _ & Hr').
  exists ls', ds', ml', xl'. auto.
Qed.

Lemma delete_rest_wp w ls ds ml xl ex :
  world_inv w ls ds ml xl → world_rest w ls ds ml ex →
  Z.of_nat (size (ma_thread (w_machine w))) < 2 ^ 32 →
  wp (machine__delete unw_destroy_addr_space maps_lock dsos_lock threads_lock)
     (λ _ w', machine_deleted w w') w.
Proof.
  intros Hw Hr Hsize. eapply wp_mono.
  { eapply (machine_delete_wp unw_destroy_addr_space maps_lock dsos_lock threads_lock Hdestroy
      (list_refs ds) ds w ls); [by eapply rest_del_inv|apply Hw|].
    exists ml, xl. by eapply rest_held. }
  intros u w' Hg. by eapply gone_deleted.
Qed.

Lemma init_rest_wp w : fresh_memory w → wp (machine__init dsos_lock threads_lock) (λ _ w', at_rest w') w.
Proof.
  intros Hw. eapply wp_mono.
  - apply (machine_init_wp dsos_lock threads_lock w (enum bucket)); [apply NoDup_enum|apply elem_of_enum|done].
  - intros u w' [H1 H2]. by exists (λ _, []), [], (λ _, []), (λ _, []).
Qed.

Lemma reachable_rest w w' : at_rest w → rtc map_step w w' → at_rest w'.
Proof. intros Hw Hs. induction Hs; eauto using map_step_rest. Qed.

End life.

(** ** A machine from its memory to its end *)

Definition ex_head (i : bucket) : Z := 65536 + 64 * Z.of_nat (fin_to_nat i).
Definition ex_raw_machine : machine_st :=
  MachineSt ∅ (list_to_map ((λ i, (ex_head i, ListHead 7 9)) <$> enum bucket)) ∅
    (fun_to_vec (λ i, Threads 77 13 (ex_head i) 5)) [4096; 4160; 4224; 4288].
Definition ex_raw_world : world :=
  World ex_raw_machine ex_maps_world (RbState ∅ 77) ∅ ∅ 16 [1024].

Lemma ex_fresh_memory : fresh_memory ex_raw_world.
Proof.
  split.
  - split.
    + intros x [h Hx]. split; [done|]. unfold ex_raw_world, ex_raw_machine in Hx. cbn [w_machine ma_dead] in Hx.
      apply elem_of_list_to_map_2, list_elem_of_fmap in Hx as (i & [= -> ->] & _).
      intros Hin. unfold ex_head in Hin. cbn in Hin. rewrite !elem_of_cons in Hin.
      destruct Hin as [?|[?|[?|[?|?%not_elem_of_nil]]]]; lia.
    + intros i. unfold ex_raw_world, ex_raw_machine. cbn [w_machine ma_threads ma_dead].
      rewrite lookup_fun_to_vec. cbn [th_dead]. split; [unfold ex_head; lia|].
      apply elem_of_dom. rewrite dom_list_to_map, elem_of_list_to_set.
      rewrite <- list_fmap_compose. apply list_elem_of_fmap. exists i. split; [done|apply elem_of_enum].
  - intros i j. unfold ex_raw_world, ex_raw_machine. cbn [w_machine ma_threads].
    rewrite !lookup_fun_to_vec. cbn [th_dead]. unfold ex_head. intros H. apply fin_to_nat_inj. lia.
  - split; [done|]. apply ex_machine_pool.
  - split_and!; [done|done|]. apply ex_machine_world_inv.
  - split; [apply NoDup_singleton|]. intros x Hx.
    destruct (oo_map_pool _ _ _ (wi_objs _ _ _ _ _ ex_machine_world_inv)) as [_ Hp].
    destruct (Hp x Hx) as (? & _ & _ & Hh). split; [done|]. intros a Ha. apply Hh. by right.
  - split; [done|]. apply ex_machine_world_inv.
Qed.

Definition ex_request : wm Z :=
  bpf_unwind_ctx__thread_map (mret 7) (λ _, mret tt) (λ _, mret tt) Some ex_fopen
    ex_rwlock ex_rwlock ex_rwlock ex_event 42 43.
Definition ex_delete : wm unit := machine__delete (λ _, mret tt) ex_rwlock ex_rwlock ex_rwlock.

Definition state_of {A} (r : outcome (A * world)) : world :=
  match r with Ok (_, w) => w | _ => ex_raw_world end.
Definition ex_ready_world : world := state_of (machine__init ex_rwlock ex_rwlock ex_raw_world).
Definition ex_mapped_world : world := state_of (ex_request ex_ready_world).

Lemma ex_init_run : machine__init ex_rwlock ex_rwlock ex_raw_world = Ok (tt, ex_ready_world).
Proof. by vm_compute. Qed.
Lemma ex_request_run : ex_request ex_ready_world = Ok (0, ex_mapped_world).
Proof. by vm_compute. Qed.

Lemma ex_map_step :
  map_step (mret 7) (λ _, mret tt) (λ _, mret tt) Some ex_rwlock ex_rwlock ex_rwlock
    ex_ready_world ex_mapped_world.
Proof.
  apply (MapStep _ _ _ _ _ _ _ _ _ 42 43 [ex_vma1; ex_vma2] ex_lines ex_fopen ex_event 0);
    [exact ex_maps_lines|by vm_compute| | |exact ex_request_run].
  - assert (ma_thread (w_machine ex_ready_world) = ∅) as HT by by vm_compute.
    split; [intros a t; rewrite HT, lookup_empty; by intros [=]|].
    split; apply (bool_decide_unpack _); by vm_compute.
  - split; apply (bool_decide_unpack _); by vm_compute.
Qed.

Lemma ex_mapped_size : Z.of_nat (size (ma_thread (w_machine ex_mapped_world))) < 2 ^ 32.
Proof. apply (bool_decide_unpack _). by vm_compute. Qed.

Lemma ex_mapped_dso : m_dso <$> mw_map (w_maps ex_mapped_world) !! 12288 = Some 1024.
Proof. by vm_compute. Qed.

