(* ===== verification/Bpf.v ===== *)
(** The sampler: get_unwind_ctx of src/bpf/ebpf_get_unwind_ctx.c, which runs in
    the kernel at an event, and the helper bpf_probe_read_stack of
    src/patches/bpf.patch.

    The BPF maps and the perf buffer are bcc's, behind the class [BpfMaps]; the
    values of the maps are the contexts at their addresses. What the kernel
    knows of the event (the registers, the task, the clock, memory) is a
    parameter. *)
From Stdlib Require Import ZArith Lia String.
From stdpp Require Import base tactics option list numbers gmap.
From S2P Require Import Prelude DsoData Ptrace EhFrame Unwind.

Local Open Scope Z_scope.

(** [struct key_] *)
Record key_ := Key { k_ts : Z; k_id : Z }.
#[export] Instance key_eq_dec : EqDecision key_.
Proof. solve_decision. Defined.
#[export] Instance key_countable : Countable key_.
Proof.
  refine (inj_countable' (λ k, (k_ts k, k_id k)) (λ p, Key (fst p) (snd p)) _). by intros [].
Defined.

(** [BPF_ARRAY(zero, ...)], [BPF_HASH(cache, ...)] and
    [BPF_PERF_OUTPUT(unwind_ctxs)] *)
Class BpfMaps (S : Type) := {
  zero_lookup : Z → cm S Z;
  cache_lookup_or_init : key_ → Z → cm S Z;      (* a key and the address of a value *)
  cache_delete : key_ → cm S unit;
  perf_submit : Z → Z → cm S unit;               (* the event and the address of the data *)
}.

Definition STACK_SIZE : Z := 4096 * 2.
Definition sizeof_pt_regs : Z := 8 * 21.
Definition offsetof_sp : Z := offsetof 19.

(** A [struct pt_regs] from the bytes of its 21 words. *)
Definition regs_of_bytes (bs : list Z) : pt_regs :=
  let r i := le_value (slice bs (offsetof i) 8) in
  PtRegs (r 0) (r 1) (r 2) (r 3) (r 4) (r 5) (r 6) (r 7) (r 8) (r 9) (r 10) (r 11) (r 12)
    (r 13) (r 14) (r 15) (r 16) (r 17) (r 18) (r 19) (r 20).
Definition with_sp (v : Z) (r : pt_regs) : pt_regs :=
  PtRegs (r15 r) (r14 r) (r13 r) (r12 r) (bp r) (bx r) (r11 r) (r10 r) (r9 r) (r8 r) (ax r)
    (cx r) (dx r) (si r) (di r) (orig_ax r) (ip r) (cs r) (flags r) v (ss r).

Definition set_ids (ts tgid tid : Z) (uc : unwind_ctx) : unwind_ctx :=
  UnwindCtx ts tid tgid (uc_uregs uc) (uc_name uc) (uc_size uc) (uc_data uc).
Definition set_uregs (r : pt_regs) (uc : unwind_ctx) : unwind_ctx :=
  UnwindCtx (uc_ts uc) (uc_tid uc) (uc_tgid uc) r (uc_name uc) (uc_size uc) (uc_data uc).
Definition set_name (name : string) (uc : unwind_ctx) : unwind_ctx :=
  UnwindCtx (uc_ts uc) (uc_tid uc) (uc_tgid uc) (uc_uregs uc) name (uc_size uc) (uc_data uc).
Definition set_size (n : Z) (uc : unwind_ctx) : unwind_ctx :=
  UnwindCtx (uc_ts uc) (uc_tid uc) (uc_tgid uc) (uc_uregs uc) (uc_name uc) n (uc_data uc).
Definition set_data (d : list Z) (uc : unwind_ctx) : unwind_ctx :=
  UnwindCtx (uc_ts uc) (uc_tid uc) (uc_tgid uc) (uc_uregs uc) (uc_name uc) (uc_size uc) d.

(** What the kernel says at the event. *)
Record kernel := Kernel {
  user_mode : Z → bool;                (* of the registers at an address *)
  task_mm : bool;                      (* the current task has an address space *)
  task_sp0 : Z;
  ktime_get_ns : Z;
  current_pid_tgid : Z;
  current_comm : string;
  probe_read : Z → Z → Z * list Z;     (* address, size: the result and what dst holds *)
  copy_from_user : Z → Z → list Z;     (* the bytes copied before a fault *)
}.

Section sample.
Context {S : Type} `{!Store S (gmap Z unwind_ctx), !BpfMaps S}.
Variable K : kernel.

Definition ctx_update (uc : Z) (f : unwind_ctx → unwind_ctx) : cm S unit := lift (obj_store uc f).

(** bpf_probe_read_stack(&uc->data, size, unsafe_ptr): the result is the
    number of bytes __copy_from_user_inatomic left out, never negative, so the
    memset is not reached; the rest of dst is as it was. *)
Definition bpf_probe_read_stack (uc size unsafe_ptr : Z) : cm S Z :=
  let bytes := copy_from_user K unsafe_ptr size in
  ctx_update uc (λ c, set_data (bytes ++ drop (length bytes) (uc_data c)) c);;
  mret (size - Z.of_nat (length bytes)).

(** [ctx] and [attr] are addresses, [tracepoint] the kind of the event. *)
Definition get_unwind_ctx (ctx : Z) (tracepoint : bool) (attr : Z) : cm S Z :=
  let user_regs :=
    if negb tracepoint && negb (ctx =? NULL) && user_mode K ctx then ctx else
    if task_mm K then w64 (task_sp0 K - sizeof_pt_regs) else NULL in
  if user_regs =? NULL then mret (-1) else
  let '(ret, bytes) := probe_read K (w64 (user_regs + offsetof_sp)) 8 in
  let sp := le_value bytes in
  if ret <? 0 then mret (-1) else
  zuc ← zero_lookup 0;
  if zuc =? NULL then mret (-1) else
  let k := Key (ktime_get_ns K) (current_pid_tgid K) in
  uc ← cache_lookup_or_init k zuc;
  if uc =? NULL then mret (-1) else
  ctx_update uc (set_ids (k_ts k) (w32 (Z.shiftr (k_id k) 32)) (w32 (k_id k)));;
  let '(ret, bytes) := probe_read K user_regs sizeof_pt_regs in
  ctx_update uc (set_uregs (regs_of_bytes bytes));;
  if ret <? 0 then mret (-1) else
  ctx_update uc (set_name (current_comm K));;
  sp ← (if negb tracepoint && negb (ctx =? NULL) && negb (user_mode K ctx) then
          let sp := w64 (sp - 16) in
          c ← lift (obj_load uc);
          ctx_update uc (set_uregs (with_sp sp (uc_uregs c)));;
          mret sp
        else mret sp);
  ret ← bpf_probe_read_stack uc STACK_SIZE sp;
  if ret <? 0 then mret (-1) else
  (if ret =? 0 then ctx_update uc (set_size STACK_SIZE)
   else ctx_update uc (set_size (STACK_SIZE - ret)));;
  (if tracepoint then perf_submit attr uc else perf_submit ctx uc);;
  cache_delete k;;
  mret 0.
End sample.
