(* ===== verification/BpfProps.v ===== *)
(** What the sampler gives user space, and that the unwinder reads the stack of
    the process from it. *)
From Stdlib Require Import ZArith Lia String.
From stdpp Require Import base tactics option list numbers gmap.
From S2P Require Import Prelude Rwsem Maps MapsProps DsoData Ptrace EhFrame Unwind UnwindProps Bpf Utility.

Local Open Scope Z_scope.

(** ** What the sampler relies on of the BPF maps *)

Definition zero_ctx : unwind_ctx :=
  UnwindCtx 0 0 0 (regs_of_bytes []) "" 0 (replicate (Z.to_nat STACK_SIZE) 0).

(** [cached] are the entries of [cache], [submitted] the contexts user space
    has been given.  A lookup of a new key makes an entry that is a copy of the value
    given, or fails when the table has no room. *)
Class BpfLaws (S : Type) `{!Store S (gmap Z unwind_ctx), !BpfMaps S} := {
  cached : S → gmap key_ Z;
  submitted : S → list unwind_ctx;
  bpf_ok : S → Prop;
  cache_room : S → Prop;
  zero_lookup_wp : ∀ s, bpf_ok s →
    wp (zero_lookup 0) (λ r s', s' = s ∧ r ≠ NULL ∧ part s !! r = Some zero_ctx) s;
  lookup_or_init_wp : ∀ s k z v, bpf_ok s → part s !! z = Some v → cached s !! k = None →
    wp (cache_lookup_or_init k z) (λ r s', bpf_ok s' ∧ submitted s' = submitted s ∧
      (r = NULL ∧ cached s' = cached s ∧ ¬ cache_room s ∨
       r ≠ NULL ∧ cached s' = <[k := r]> (cached s) ∧ part s' !! r = Some v)) s;
  ctx_store_ok : ∀ s k a c, bpf_ok s → cached s !! k = Some a →
    let s' := with_part (<[a := c]> (part s)) s in
    bpf_ok s' ∧ cached s' = cached s ∧ submitted s' = submitted s;
  cache_delete_wp : ∀ s k, bpf_ok s →
    wp (cache_delete k) (λ _ s', bpf_ok s' ∧ submitted s' = submitted s ∧
      cached s' = delete k (cached s)) s;
  perf_submit_wp : ∀ s e a c, bpf_ok s → part s !! a = Some c →
    wp (perf_submit e a) (λ _ s', bpf_ok s' ∧ submitted s' = submitted s ++ [c] ∧
      cached s' = cached s) s;
}.

(** ** The reference *)

Inductive sampled := NoRegisters | LostRegisters | Sample (uc : unwind_ctx).

(** The registers of user space: those of the event, or those the kernel
    entry saved below sp0. *)
Definition user_regs_of (K : kernel) (ctx : Z) (tracepoint : bool) : Z :=
  if negb tracepoint && negb (ctx =? NULL) && user_mode K ctx then ctx else
  if task_mm K then w64 (task_sp0 K - sizeof_pt_regs) else NULL.

(** An event that is not a tracepoint, inside the kernel. *)
Definition in_kernel (K : kernel) (ctx : Z) (tracepoint : bool) : bool :=
  negb tracepoint && negb (ctx =? NULL) && negb (user_mode K ctx).

Definition sample_key (K : kernel) : key_ := Key (ktime_get_ns K) (current_pid_tgid K).

Definition sample_of (K : kernel) (ctx : Z) (tracepoint : bool) : sampled :=
  let regs := user_regs_of K ctx tracepoint in
  let '(r1, sp_bytes) := probe_read K (w64 (regs + offsetof_sp)) 8 in
  if (regs =? NULL) || (r1 <? 0) then NoRegisters else
  let '(r2, bytes) := probe_read K regs sizeof_pt_regs in
  if r2 <? 0 then LostRegisters else
  let inside := in_kernel K ctx tracepoint in
  let sp := if inside then w64 (le_value sp_bytes - 16) else le_value sp_bytes in
  let stack := copy_from_user K sp STACK_SIZE in
  Sample (UnwindCtx (ktime_get_ns K) (w32 (current_pid_tgid K))
    (w32 (Z.shiftr (current_pid_tgid K) 32))
    (if inside then with_sp sp (regs_of_bytes bytes) else regs_of_bytes bytes)
    (current_comm K) (Z.of_nat (length stack))
    (stack ++ replicate (Z.to_nat STACK_SIZE - length stack) 0)).

(** ** The sampler *)

Section laws.
Context {S : Type} `{HS : !Store S (gmap Z unwind_ctx), HB : !BpfMaps S, HL : !BpfLaws S}.
Implicit Types s : S.

(** The entry [k] of the cache is at [uc] and holds [c]; the other entries and
    the output are those of [s0]. *)
Definition holds s0 s (k : key_) (uc : Z) (c : unwind_ctx) : Prop :=
  bpf_ok s ∧ submitted s = submitted s0 ∧ cached s = <[k := uc]> (cached s0) ∧
  uc ≠ NULL ∧ part s !! uc = Some c.

Lemma ctx_update_wp s0 s k uc c f (Q : unit → S → Prop) :
  holds s0 s k uc c → (∀ s', holds s0 s' k uc (f c) → Q tt s') → wp (ctx_update uc f) Q s.
Proof.
  intros (Hok & Hsub & Hc & Hz & Hu) HQ. apply wp_lift. eapply wp_obj_store; [done|exact Hu|].
  apply HQ. destruct (ctx_store_ok s k uc (f c) Hok) as (? & Hc' & Hs').
  { by rewrite Hc, lookup_insert_eq. }
  split_and!; [done|by rewrite Hs'|by rewrite Hc'|done|]. by rewrite part_with, lookup_insert_eq.
Qed.

Lemma probe_read_stack_wp K s0 s k uc c n sp (Q : Z → S → Prop) :
  holds s0 s k uc c →
  (∀ s', let stack := copy_from_user K sp n in
     holds s0 s' k uc (set_data (stack ++ drop (length stack) (uc_data c)) c) →
     Q (n - Z.of_nat (length stack)) s') →
  wp (bpf_probe_read_stack K uc n sp) Q s.
Proof.
  intros Hh HQ. unfold bpf_probe_read_stack. apply wp_bind.
  eapply ctx_update_wp; [exact Hh|]. intros s' Hs'. apply wp_ret. by apply HQ.
Qed.

(** Inside the kernel the stack starts 16 bytes lower. *)
Lemma adjust_sp_wp s0 s k uc c (inside : bool) (sp : Z) :
  holds s0 s k uc c →
  wp (if inside then
        let sp := w64 (sp - 16) in
        c ← lift (obj_load uc);
        ctx_update uc (set_uregs (with_sp sp (uc_uregs c)));;
        mret sp
      else mret sp)
     (λ v s', v = (if inside then w64 (sp - 16) else sp) ∧
        holds s0 s' k uc (if inside then set_uregs (with_sp v (uc_uregs c)) c else c)) s.
Proof.
  intros Hh. destruct inside; [|by apply wp_ret].
  cbv zeta. apply wp_bind, (wp_lift_pure _ (λ v, v = c)).
  { destruct Hh as (_ & _ & _ & ? & Hu). by eapply wp_obj_load. }
  intros v ->. apply wp_bind. eapply ctx_update_wp; [exact Hh|]. intros s' Hh'. by apply wp_ret.
Qed.

Lemma size_wp s0 s k uc c n :
  holds s0 s k uc c →
  wp (if STACK_SIZE - n =? 0 then ctx_update uc (set_size STACK_SIZE)
      else ctx_update uc (set_size (STACK_SIZE - (STACK_SIZE - n))))
     (λ _ s', holds s0 s' k uc (set_size n c)) s.
Proof.
  intros Hh. destruct (Z.eqb_spec (STACK_SIZE - n) 0); (eapply ctx_update_wp; [exact Hh|]).
  - by replace STACK_SIZE with n by lia.
  - by replace (STACK_SIZE - (STACK_SIZE - n)) with n by lia.
Qed.

(** The output at the end: the entry leaves the cache. *)
Lemma submit_wp s0 s k uc c ctx attr (tp : bool) :
  holds s0 s k uc c → cached s0 !! k = None →
  wp ((if tp then perf_submit attr uc else perf_submit ctx uc);; cache_delete k;; mret 0)
     (λ r s', r = 0 ∧ bpf_ok s' ∧ submitted s' = submitted s0 ++ [c] ∧ cached s' = cached s0) s.
Proof.
  intros (Hok & Hsub & Hc & Hz & Hu) Hk. apply wp_bind.
  eapply (wp_mono _ (λ _ s', bpf_ok s' ∧ submitted s' = submitted s ++ [c] ∧ cached s' = cached s)).
  { destruct tp; by apply perf_submit_wp. }
  intros _ s1 (Hok1 & Hs1 & Hc1). apply wp_bind.
  eapply wp_mono; [by apply cache_delete_wp|]. intros _ s2 (Hok2 & Hs2 & Hc2). apply wp_ret.
  split_and!; [done|done|congruence|]. by rewrite Hc2, Hc1, Hc, delete_insert_id.
Qed.

(** What a run leaves, for what there was to sample. *)
Definition sample_post (k : key_) (v : sampled) s (r : Z) s' : Prop :=
  bpf_ok s' ∧
  match v with
  | NoRegisters => r = -1 ∧ s' = s
  | LostRegisters => r = -1 ∧ submitted s' = submitted s ∧
      (cached s' = cached s ∧ ¬ cache_room s ∨ ∃ uc, cached s' = <[k := uc]> (cached s))
  | Sample uc => cached s' = cached s ∧
      (r = 0 ∧ submitted s' = submitted s ++ [uc] ∨ r = -1 ∧ submitted s' = submitted s ∧ ¬ cache_room s)
  end.

(** C36. get_unwind_ctx submits exactly one context for an event it can sample: the
    clock, the ids and name of the task, the registers of user space (with sp 16
    lower when the event is in the kernel), as many bytes of the stack as were
    readable and their number, zeros behind them; the cache is as before.
    Without registers nothing happens.  When the registers cannot be read after
    the entry was made, or the table is full, nothing is submitted; the entry of
    the former is never deleted. *)
Theorem get_unwind_ctx_correct (K : kernel) (ctx attr : Z) (tracepoint : bool) s :
  bpf_ok s → cached s !! sample_key K = None →
  (∀ a, Z.of_nat (length (copy_from_user K a STACK_SIZE)) ≤ STACK_SIZE) →
  wp (get_unwind_ctx K ctx tracepoint attr)
     (sample_post (sample_key K) (sample_of K ctx tracepoint) s) s.
Proof.
  intros Hok Hk Hcopy. unfold get_unwind_ctx, sample_of.
  fold (user_regs_of K ctx tracepoint). fold (in_kernel K ctx tracepoint). fold (sample_key K).
  set (regs := user_regs_of K ctx tracepoint). cbv zeta.
  destruct (probe_read K (w64 (regs + offsetof_sp)) 8) as [r1 b1] eqn:E1.
  destruct (regs =? NULL); [by apply wp_ret|]. simpl orb.
  destruct (r1 <? 0); [by apply wp_ret|].
  destruct (probe_read K regs sizeof_pt_regs) as [r2 b2] eqn:E2.
  apply wp_bind. eapply wp_mono; [by apply zero_lookup_wp|].
  intros z s' (-> & Hz & Hzero). rewrite (proj2 (Z.eqb_neq _ _) Hz).
  apply wp_bind. eapply wp_mono; [by apply lookup_or_init_wp|].
  intros uc s1 (Hok1 & Hs1 & [(-> & Hc1 & Hroom)|(Huz & Hc1 & Hu1)]).
  { rewrite Z.eqb_refl. apply wp_ret. split; [done|].
    destruct (r2 <? 0); [split_and!; auto|split; auto]. }
  rewrite (proj2 (Z.eqb_neq _ _) Huz).
  assert (holds s s1 (sample_key K) uc zero_ctx) as Hh by by split_and!.
  apply wp_bind. eapply ctx_update_wp; [exact Hh|]. clear Hh. intros s2 Hh.
  apply wp_bind. eapply ctx_update_wp; [exact Hh|]. clear Hh. intros s3 Hh.
  destruct (r2 <? 0).
  { apply wp_ret. destruct Hh as (? & ? & ? & _). split; [done|]. split_and!; [done|done|].
    right. by exists uc. }
  apply wp_bind. eapply ctx_update_wp; [exact Hh|]. clear Hh. intros s4 Hh.
  apply wp_bind. eapply wp_mono; [by apply adjust_sp_wp|]. clear Hh. intros sp s5 [Hsp Hh].
  apply wp_bind. eapply probe_read_stack_wp; [exact Hh|]. clear Hh. intros s6. cbv zeta. intros Hh.
  pose proof (Hcopy sp) as Hlen. rewrite (proj2 (Z.ltb_ge _ _)) by lia. cbn [uc_data] in Hh.
  rewrite <- Hsp. set (n := length (copy_from_user K sp STACK_SIZE)) in *.
  apply wp_bind. eapply wp_mono; [eapply size_wp; exact Hh|].
  clear Hh. intros u s7 Hh. cbv beta in Hh. eapply wp_mono; [by eapply submit_wp|].
  intros r s' (-> & Hok' & Hsub & Hca). split; [done|]. split; [done|]. left. split; [done|].
  rewrite Hsub. f_equal. f_equal. unfold set_data, set_size, set_uregs.
  by destruct (in_kernel K ctx tracepoint); cbn [uc_data uc_ts uc_tid uc_tgid uc_uregs uc_name uc_size
    set_ids set_name zero_ctx k_ts k_id sample_key]; rewrite drop_replicate.
Qed.
End laws.

(** ** The stack of the process *)

(** [n] bytes of memory from [a]. *)
Definition bytes_at (mem : Z → Z) (a n : Z) : list Z := mem <$> seqZ a n.

(** The helpers read the memory [mem]: all of it or a negative error, and the
    part before a fault. *)
Record reads_memory (K : kernel) (mem : Z → Z) : Prop := {
  rm_byte a : is_byte (mem a);
  rm_probe a n : fst (probe_read K a n) < 0 ∨ probe_read K a n = (0, bytes_at mem a n);
  rm_copy a n : 0 ≤ n → copy_from_user K a n `prefix_of` bytes_at mem a n;
}.

Lemma length_bytes_at mem a n : length (bytes_at mem a n) = Z.to_nat n.
Proof. unfold bytes_at. by rewrite length_fmap, length_seqZ. Qed.

Lemma slice_bytes_at mem a n off k :
  0 ≤ off → 0 ≤ k → off + k ≤ n → slice (bytes_at mem a n) off k = bytes_at mem (a + off) k.
Proof.
  intros H0 Hk Hn. unfold slice, bytes_at.
  replace n with (off + (k + (n - off - k))) by lia.
  rewrite seqZ_app, fmap_app, drop_app_length' by (rewrite ?length_fmap, ?length_seqZ; lia).
  rewrite seqZ_app, fmap_app, take_app_length' by (rewrite ?length_fmap, ?length_seqZ; lia).
  done.
Qed.

Lemma slice_prefix (l l1 l2 : list Z) off k :
  l1 `prefix_of` l → 0 ≤ off → 0 ≤ k → off + k ≤ Z.of_nat (length l1) →
  slice (l1 ++ l2) off k = slice l off k.
Proof.
  intros [l' ->] H0 Hk Hn. unfold slice.
  rewrite !drop_app_le by lia. by rewrite !take_app_le by (rewrite length_drop; lia).
Qed.

Lemma le_value_bytes_at mem a : (∀ x, is_byte (mem x)) → 0 ≤ le_value (bytes_at mem a 8) < 2 ^ 64.
Proof.
  intros Hm. pose proof (le_value_range (bytes_at mem a 8)) as Hr.
  rewrite length_bytes_at in Hr. apply Hr. apply Forall_fmap, Forall_true. done.
Qed.

Lemma sample_stack K ctx tp mem uc :
  reads_memory K mem → sample_of K ctx tp = Sample uc →
  0 ≤ user_regs_of K ctx tp → user_regs_of K ctx tp + sizeof_pt_regs < 2 ^ 64 →
  let sp := sp (uc_uregs uc) in
  0 ≤ sp ∧ ∃ stack, stack `prefix_of` bytes_at mem sp STACK_SIZE ∧
    uc_size uc = Z.of_nat (length stack) ∧ stack `prefix_of` uc_data uc.
Proof.
  intros [Hb Hp Hc] Hs H0 Hmax. unfold sample_of in Hs.
  set (regs := user_regs_of K ctx tp) in *.
  rewrite w64_small in Hs by (unfold is_u64, sizeof_pt_regs, offsetof_sp, offsetof in *; lia).
  destruct (probe_read K (regs + offsetof_sp) 8) as [r1 b1] eqn:E1.
  destruct (regs =? NULL); [done|]. simpl orb in Hs. destruct (Z.ltb_spec r1 0) as [|Hr1]; [done|].
  destruct (probe_read K regs sizeof_pt_regs) as [r2 b2] eqn:E2.
  destruct (Z.ltb_spec r2 0) as [|Hr2]; [done|]. injection Hs as <-.
  destruct (Hp (regs + offsetof_sp) 8) as [Hn|He1]; [rewrite E1 in Hn; simpl in Hn; lia|].
  destruct (Hp regs sizeof_pt_regs) as [Hn|He2]; [rewrite E2 in Hn; simpl in Hn; lia|].
  rewrite E1 in He1. rewrite E2 in He2. injection He1 as -> ->. injection He2 as -> ->.
  cbn [uc_uregs uc_size uc_data].
  assert (sp (regs_of_bytes (bytes_at mem regs sizeof_pt_regs)) =
    le_value (bytes_at mem (regs + offsetof_sp) 8)) as Hsp.
  { unfold regs_of_bytes. cbn [sp]. by rewrite slice_bytes_at. }
  pose proof (le_value_bytes_at mem (regs + offsetof_sp) Hb) as Hr.
  destruct (in_kernel K ctx tp); [cbn [with_sp sp]|rewrite Hsp].
  - split; [unfold w64; by apply Z.mod_pos_bound|].
    eexists. split_and!; [by apply Hc|done|by eexists].
  - split; [lia|]. eexists. split_and!; [by apply Hc|done|by eexists].
Qed.


(** ** A run *)

(** The maps as finite maps: the zeros at 1, the entries of the cache from 2 on,
    room for one. *)
Record ex_bpf := ExBpf { eb_ctx : gmap Z unwind_ctx; eb_cache : gmap key_ Z; eb_out : list unwind_ctx }.

#[export] Instance ex_bpf_store : Store ex_bpf (gmap Z unwind_ctx).
Proof.
  refine {| part := eb_ctx; with_part m s := ExBpf m (eb_cache s) (eb_out s) |};
    by try intros ? ? []; try intros [].
Defined.

#[export] Instance ex_bpf_maps : BpfMaps ex_bpf := {|
  zero_lookup _ := mret 1;
  cache_lookup_or_init k z := λ s,
    match eb_cache s !! k with
    | Some a => Ok (a, s)
    | None =>
      if decide (eb_cache s = ∅) then
        match eb_ctx s !! z with
        | Some v => Ok (2, ExBpf (<[2 := v]> (eb_ctx s)) (<[k := 2]> (eb_cache s)) (eb_out s))
        | None => Fault
        end
      else Ok (NULL, s)
    end;
  cache_delete k := c_modify (λ s, ExBpf (eb_ctx s) (delete k (eb_cache s)) (eb_out s));
  perf_submit _ a := λ s,
    match eb_ctx s !! a with
    | Some v => Ok (tt, ExBpf (eb_ctx s) (eb_cache s) (eb_out s ++ [v]))
    | None => Fault
    end;
|}.

Definition ex_bpf_ok (s : ex_bpf) : Prop :=
  eb_ctx s !! 1 = Some zero_ctx ∧ map_Forall (λ _ a, a = 2) (eb_cache s).

#[export] Instance ex_bpf_laws : BpfLaws ex_bpf.
Proof.
  refine {| cached := eb_cache; submitted := eb_out; bpf_ok := ex_bpf_ok; cache_room s := eb_cache s = ∅ |}.
  - by intros s [Hz _].
  - intros s k z v [Hz Hc] Hv Hk. unfold wp. simpl. rewrite Hk. simpl in Hv. case_decide as He.
    + rewrite Hv. split_and!; [split; simpl|done|right; split_and!; [done|done|apply lookup_insert_eq]].
      * by rewrite lookup_insert_ne.
      * rewrite He. apply map_Forall_insert_2; [done|apply map_Forall_empty].
    + split_and!; [done|done|by left; split_and!].
  - intros s k a c [Hz Hc] Hk. split_and!; [split|done|done]; simpl; [|done].
    rewrite lookup_insert_ne; [done|]. by rewrite (Hc _ _ Hk).
  - intros s k [Hz Hc]. apply wp_modify. split_and!; [split; simpl|done|done]; [done|].
    by apply map_Forall_delete.
  - intros s e a c [Hz Hc] Ha. unfold wp. simpl in *. by rewrite Ha.
Defined.

(** Memory whose byte at [a] is [a mod 256]; the registers of the event are at
    1000, and 16 bytes of the stack are readable. *)
Definition ex_mem (a : Z) : Z := a mod 256.
Definition ex_kernel : kernel :=
  Kernel (λ _, true) true 0 77 (5 * 2 ^ 32 + 6) "cat"
    (λ a n, (0, bytes_at ex_mem a n)) (λ a n, bytes_at ex_mem a (n `min` 16)).
Definition ex_bpf_start : ex_bpf := ExBpf {[1 := zero_ctx]} ∅ [].
Definition ex_sample : unwind_ctx :=
  UnwindCtx 77 6 5 (regs_of_bytes (bytes_at ex_mem 1000 168)) "cat" 16
    (bytes_at ex_mem 0x8786858483828180 16 ++ replicate (Z.to_nat 8176) 0).

Lemma ex_sample_of : sample_of ex_kernel 1000 false = Sample ex_sample.
Proof. by vm_compute. Qed.

Lemma get_unwind_ctx_correct_witness :
  wp (get_unwind_ctx ex_kernel 1000 false 0)
     (λ r s', r = 0 ∧ eb_out s' = [ex_sample] ∧ eb_cache s' = ∅) ex_bpf_start.
Proof.
  eapply wp_mono.
  { apply (get_unwind_ctx_correct ex_kernel 1000 0 false ex_bpf_start).
    - split; [apply lookup_insert_eq|apply map_Forall_empty].
    - done.
    - intros a. cbn [ex_kernel copy_from_user]. rewrite length_bytes_at. by vm_compute. }
  intros r s' [_ Hp]. rewrite ex_sample_of in Hp.
  destruct Hp as [Hc [[-> Hs]|(_ & _ & Hroom)]]; [done|by destruct Hroom].
Defined.

Lemma ex_reads_memory : reads_memory ex_kernel ex_mem.
Proof.
  split.
  - intros a. unfold is_byte, ex_mem. pose proof (Z.mod_pos_bound a 256). lia.
  - intros a n. by right.
  - intros a n Hn. cbn [ex_kernel copy_from_user]. unfold bytes_at.
    destruct (Z.le_ge_cases n 16).
    + by rewrite Z.min_l.
    + rewrite Z.min_r by done. replace n with (16 + (n - 16)) by lia.
      rewrite (seqZ_app a 16 (n - 16)), fmap_app by lia. by eexists.
Qed.

