(* ===== verification/EntryProps.v ===== *)
(** The entry points that use the threads and maps a machine has:
    bpf_dl_iterate_phdr and bpf_unwind_ctx__resolve_callchain (event.c). *)
From Stdlib Require Import ZArith Lia Ascii String.
From stdpp Require Import base tactics option list numbers gmap sorting functions fin vector finite strings.
From S2P Require Import Prelude RbTree RbSpec RbRep RbIter RbSearch ListHead ListRep ListSplice ListIter Refcount DsoRef.
From S2P Require Import Rwsem Maps MapsObj DsoData Dsos DsosInv DsosProps CString Ptrace Unwind UnwindProps.
From S2P Require Import Threads ThreadsInv ThreadsRefs ThreadsFind World ThreadsProps Scanf Event EventProps.
From S2P Require Import Machine MachineInv MachineProps.

Local Open Scope Z_scope.

(** ** Reading the whole state *)

Section reads.
Context {S T : Type} `{!Store S T}.

Lemma lift_read {A} (m : cm T A) (v : A) (s : S) :
  m (part s) = Ok (v, part s) → (lift m : cm S A) s = Ok (v, s).
Proof. intros Hm. unfold lift. rewrite Hm. by rewrite with_part_id. Qed.

Lemma bind_inv {A B} (m : cm S A) (f : A → cm S B) s b s' :
  (m ≫= f) s = Ok (b, s') → ∃ a s1, m s = Ok (a, s1) ∧ f a s1 = Ok (b, s').
Proof. unfold mbind, cm_bind. destruct (m s) as [[a s1]| | |]; naive_solver. Qed.

Lemma lift_load_same {A} (m : cm T A) :
  (∀ t v t', m t = Ok (v, t') → t' = t) → ∀ s v s', (lift m : cm S A) s = Ok (v, s') → s' = s.
Proof.
  intros Hm s v s'. unfold lift. destruct (m (part s)) as [[a t]| | |] eqn:E; try done.
  intros [= <- <-]. rewrite (Hm _ _ _ E). apply with_part_id.
Qed.
End reads.

Lemma obj_load_same {V} a (T : gmap Z V) v T' : obj_load a T = Ok (v, T') → T' = T.
Proof. unfold obj_load. destruct (a =? NULL); [done|]. destruct (T !! a); [by intros [= _ ->]|done]. Qed.

Lemma map_load_world a m w :
  a ≠ NULL → mw_map (w_maps w) !! a = Some m →
  (lift (lift (obj_load a) : mwm map) : wm map) w = Ok (m, w).
Proof.
  intros Ha Hm. do 2 apply lift_read. unfold obj_load. simpl.
  by rewrite (proj2 (Z.eqb_neq _ _) Ha), Hm.
Qed.

Lemma dso_load_world d o w :
  d ≠ NULL → w_dso w !! d = Some o → (lift (dso_load d) : wm dso) w = Ok (o, w).
Proof.
  intros Hd Ho. apply lift_read. unfold dso_load. apply lift_read. unfold obj_load. simpl.
  by rewrite (proj2 (Z.eqb_neq _ _) Hd), Ho.
Qed.

(** ** bpf_dl_iterate_phdr *)

(** The reference: the callback on each in turn, until a negative result. *)
Fixpoint call_all (callback : dl_phdr_info → wm Z) (infos : list dl_phdr_info) : wm Z :=
  match infos with
  | [] => mret 0
  | info :: infos =>
    ret ← callback info;
    if ret <? 0 then mret (-1) else call_all callback infos
  end.

(** What it is told of the map [a]. *)
Definition phdr_of (w : world) (a : Z) : dl_phdr_info :=
  match mw_map (w_maps w) !! a with
  | Some m => DlPhdrInfo (m_start m) (m_end m) (from_option d_name "" (w_dso w !! m_dso m))
  | None => DlPhdrInfo 0 0 ""
  end.

(** A callback that leaves the maps and the dsos of the machine alone. *)
Definition leaves_maps (callback : dl_phdr_info → wm Z) : Prop :=
  ∀ info w r w', callback info w = Ok (r, w') → w_maps w' = w_maps w ∧ w_dso w' = w_dso w.

Definition readable_map (w : world) (a : Z) : Prop :=
  a ≠ NULL ∧ ∃ m o, mw_map (w_maps w) !! a = Some m ∧ m_dso m ≠ NULL ∧ w_dso w !! m_dso m = Some o.

Lemma tell_map_run callback a w :
  readable_map w a →
  tell_map callback a w =
    (ret ← callback (phdr_of w a); mret (if ret <? 0 then Some (-1) else None)) w.
Proof.
  intros (Ha & m & o & Hm & Hd & Ho). unfold tell_map.
  rewrite (bind_ok _ _ _ _ _ (map_load_world a m w Ha Hm)).
  rewrite (bind_ok _ _ _ _ _ (dso_load_world _ o w Hd Ho)). unfold phdr_of. by rewrite Hm, Ho.
Qed.

Lemma tell_map_leaves callback a w r w' :
  leaves_maps callback → tell_map callback a w = Ok (r, w') →
  w_maps w' = w_maps w ∧ w_dso w' = w_dso w.
Proof.
  intros Hcb (m & w1 & H1 & (d & w2 & H2 & (x & w3 & H3 & [= _ <-])%bind_inv)%bind_inv)%bind_inv.
  apply lift_load_same in H1 as ->; [|by intros T v T' ->%lift_load_same; [|apply obj_load_same]].
  apply lift_load_same in H2 as ->; [by eapply Hcb|].
  intros T v T'. apply lift_load_same, obj_load_same.
Qed.

(** The loop over maps that can be read. *)
Lemma visit_maps callback l : ∀ w,
  leaves_maps callback → (∀ a, a ∈ l → readable_map w a) →
  (r ← visit_all (tell_map callback) l; mret (default 0 r)) w = call_all callback (phdr_of w <$> l) w.
Proof.
  induction l as [|a l IH]; intros w Hcb Hread; [done|].
  rewrite fmap_cons. cbn [visit_all call_all].
  specialize (Hread a ltac:(left)) as Ha.
  unfold mbind, cm_bind. rewrite (tell_map_run _ _ _ Ha). unfold mbind, cm_bind.
  destruct (callback (phdr_of w a) w) as [[r w']| | |] eqn:E; try done.
  destruct (Hcb _ _ _ _ E) as [Hmaps Hdso]. cbn. destruct (r <? 0); [done|].
  assert (phdr_of w <$> l = phdr_of w' <$> l) as He.
  { apply list_fmap_ext. intros i x _. unfold phdr_of. by rewrite Hmaps, Hdso. }
  rewrite He, <- (IH w'); [done|done|].
  intros x Hx. unfold readable_map. rewrite Hmaps, Hdso. apply Hread. by right.
Qed.

(** The maps of a well-formed machine, and their dsos, can be read. *)
Lemma world_readable w ls ds ml xl b a :
  world_inv w ls ds ml xl → a ∈ xl b → readable_map w a.
Proof.
  intros [_ _ Hds _ Hob _ Hmd] Ha. rewrite (oo_perm _ _ _ Hob b) in Ha.
  destruct (mw_obj (w_maps w) !! b) as [o|] eqn:Hb;
    [|by destruct (oo_none _ _ _ Hob b Hb) as [He _]; rewrite He in Ha; apply not_elem_of_nil in Ha].
  destruct (oo_inv _ _ _ Hob b o Hb) as [[(t & Ht & _ & Ho) Hlive _] _].
  destruct (Hlive a Ha) as [m Hm]. simpl in Hm.
  split; [rewrite <- Ho in Ha; by eapply represents_nonnull|].
  pose proof (Hmd b a m Ha Hm) as Hd. destruct Hds as ((l & Hl & Hperm) & _ & _).
  rewrite <- Hperm in Hd. destruct (ni_live _ _ Hl _ Hd) as (Hz & d & Hd' & _).
  by exists m, d.
Qed.

Section entry.
Variables (unw_create_addr_space : wm Z) (unw_set_caching_policy : Z → wm unit)
          (unw_flush_cache unw_destroy_addr_space : Z → wm unit).
Variables (maps_lock : pthread_rwlock maps_st) (threads_lock : pthread_rwlock world).

#[local] Instance eops : MapsOps world := world_maps_ops maps_lock.
#[local] Instance elaws : MapsLaws world := world_maps_laws maps_lock.

Abbreviation find_thread := (findnew_thread unw_destroy_addr_space maps_lock threads_lock).

Lemma load_thread v t w :
  v ≠ NULL → ma_thread (w_machine w) !! v = Some t → (thread_load v : wm thread) w = Ok (t, w).
Proof. intros. by apply thread_load_run. Qed.

(** The set of maps of a thread of the table is there. *)
Lemma thread_maps_live w ls ds ml xl i v t :
  world_inv w ls ds ml xl → v ∈ ls i → ma_thread (w_machine w) !! v = Some t →
  t_maps t ≠ NULL ∧
  is_list (mw_list (w_maps w)) (maps_head (t_maps t)) (map_node <$> xl (t_maps t)).
Proof.
  intros Hw Hv Ht.
  destruct (ti_group _ _ _ _ (wi_table _ _ _ _ _ Hw) _ _ _ Hv ltac:(apply not_elem_of_nil) Ht)
    as (Hm & Hlive & _). split; [done|].
  unfold obj_refs in Hlive. rewrite lookup_fmap in Hlive.
  apply fmap_is_Some in Hlive as [ob Hob].
  by destruct (oo_inv _ _ _ (wi_objs _ _ _ _ _ Hw) _ _ Hob) as [[_ _ Hl] _].
Qed.

(** Fields that the table does not look at change. *)
Definition same_thread (t t' : thread) : Prop :=
  t_tid t' = t_tid t ∧ t_tgid t' = t_tgid t ∧ t_maps t' = t_maps t ∧ t_refcnt t' = t_refcnt t.

Definition put_thread (v : Z) (t : thread) (w : world) : world :=
  set_machine (set_threads_map (<[v := t]> (ma_thread (w_machine w))) (w_machine w)) w.

Lemma thread_update_inv w ls ds ml xl i v t t' :
  world_inv w ls ds ml xl → v ∈ ls i → ma_thread (w_machine w) !! v = Some t → same_thread t t' → has_ops t' →
  world_inv (put_thread v t' w) ls ds ml xl.
Proof.
  intros [Hti Hth Hds Hdp Hob Hmp Hmd] Hv Ht (H1 & H2 & H3 & H4) Hops.
  destruct (ti_thread _ _ _ _ Hti _ _ Hv) as (u & Hu & _ & Hr). simplify_eq.
  split; simpl; try done.
  - eapply inv_update; [done|exact Hv|exact Ht|done|lia|done|]. right. auto.
  - by eapply (pool_update (w_machine w)).
Qed.

Lemma thread_update_rest w ls ds ml ex v t t' :
  world_rest w ls ds ml ex → ma_thread (w_machine w) !! v = Some t → same_thread t t' →
  world_rest (put_thread v t' w) ls ds ml ex.
Proof.
  intros [R1 R2 R2' R3 R4 R5 R6 R7 R8] Ht (H1 & H2 & H3 & H4). split; simpl; try done.
  - by eapply counted_same.
  - intros a u. destruct (decide (a = v)) as [->|Hne].
    + rewrite lookup_insert_eq. intros [= <-]. rewrite H4. by apply R2.
    + rewrite lookup_insert_ne by done. apply R2.
  - intros a [Ha _]%lookup_insert_None. by apply R2'.
  - intros a. destruct (decide (a = v)) as [->|Hne]; [intros _; apply R3; by eexists|].
    rewrite lookup_insert_ne by done. apply R3.
Qed.

Lemma put_thread_twice v t t' w : put_thread v t' (put_thread v t w) = put_thread v t' w.
Proof. unfold put_thread, set_machine, set_threads_map. simpl. by rewrite insert_insert_eq. Qed.

(** The address space of a thread, made when it has none. *)
Lemma access_wp v t w :
  v ≠ NULL → ma_thread (w_machine w) !! v = Some t → has_ops t →
  (∀ w, wp unw_create_addr_space (λ a w', a ≠ 0 ∧ w' = w) w) →
  (∀ a w, wp (unw_set_caching_policy a) (λ _ w', w' = w) w) →
  wp (if t_addr_space t =? 0 then
        '(_, _, u) ← unwind__prepare_access unw_create_addr_space unw_set_caching_policy (unwind_of t);
        thread_store v (with_unwind u)
      else mret tt)
     (λ _ w', ∃ t', w' = put_thread v t' w ∧ same_thread t t' ∧
        t_addr_space t' ≠ 0 ∧ t_ulops t' = true) w.
Proof.
  intros Hz Ht Hops Hcreate Hcache. destruct (Z.eqb_spec (t_addr_space t) 0) as [Ha|Ha].
  - apply wp_bind. unfold unwind__prepare_access. simpl. rewrite Ha. simpl.
    apply wp_bind. unfold _prepare_access. apply wp_bind. eapply wp_mono; [apply Hcreate|].
    intros a w' [Hna ->]. simpl. rewrite (proj2 (Z.eqb_neq _ _) Hna). apply wp_bind.
    eapply wp_mono; [apply Hcache|]. intros _ w' ->. apply wp_ret, wp_ret.
    eapply wp_world_store; [done|exact Ht|]. by eexists.
  - apply wp_ret. exists t. split_and!; auto; [|done]. unfold put_thread, set_machine, set_threads_map.
    rewrite insert_id by done. by destruct w as [[]].
Qed.

(** The name of the thread is not what the walk needs. *)
Lemma set_comm_wp v t str w :
  v ≠ NULL → ma_thread (w_machine w) !! v = Some t → (∀ a w, wp (unw_flush_cache a) (λ _ w', w' = w) w) →
  wp (thread__set_comm unw_flush_cache v str)
     (λ _ w', ∃ t', w' = put_thread v t' w ∧ same_thread t t' ∧
        t_addr_space t' = t_addr_space t ∧ t_ulops t' = t_ulops t) w.
Proof.
  intros Hz Ht Hflush. unfold thread__set_comm. apply wp_bind.
  eapply wp_world_load; [done|exact Ht|]. destruct (_ =? 0).
  - apply wp_bind. eapply wp_world_store; [done|exact Ht|].
    apply wp_bind. eapply wp_world_load; [done|simpl; apply lookup_insert_eq|].
    unfold unwind__flush_access. destruct (tu_ulops _).
    + unfold _flush_access. eapply wp_mono; [apply Hflush|]. intros _ w' ->. by eexists.
    + apply wp_ret. by eexists.
  - apply wp_ret. exists t. split_and!; auto; [|done]. unfold put_thread, set_machine, set_threads_map.
    rewrite insert_id by done. by destruct w as [[]].
Qed.

Lemma iterate_phdr_run (callback : dl_phdr_info → wm Z) (tgid : Z) (w : world)
    (ls : bucket → list Z) (ds : list Z) (ml xl : Z → list Z) :
  world_inv w ls ds ml xl → thread_ready maps_lock w ls tgid tgid → leaves_maps callback →
  ∃ w1 ls1 v t, find_thread tgid tgid w = Ok (v, w1) ∧ world_inv w1 ls1 ds ml xl ∧
    found_thread w w1 ls ls1 tgid tgid v t ∧
    (∀ ex, world_rest w ls ds ml ex → world_rest w1 ls1 ds ml (one_more v ex)) ∧
    bpf_dl_iterate_phdr unw_destroy_addr_space maps_lock threads_lock tgid callback w =
      call_all callback (phdr_of w1 <$> xl (t_maps t)) w1.
Proof.
  intros Hw Hready Hcb.
  destruct (wp_elim _ _ _ (findnew_thread_wp unw_destroy_addr_space maps_lock threads_lock
    tgid tgid w ls ds ml xl Hw Hready)) as (v & w1 & Hrun & ls1 & t & Hw1 & _ & Hf & Hrest).
  exists w1, ls1, v, t. split_and!; [done..|].
  pose proof (inv_nonnull (wi_table _ _ _ _ _ Hw1) _ _ (ft_in _ _ _ _ _ _ _ _ Hf)) as Hz.
  destruct (thread_maps_live _ _ _ _ _ _ _ _ Hw1 (ft_in _ _ _ _ _ _ _ _ Hf) (ft_thread _ _ _ _ _ _ _ _ Hf))
    as [Hm Hl].
  unfold bpf_dl_iterate_phdr. rewrite (bind_ok _ _ _ _ _ Hrun).
  rewrite (proj2 (Z.eqb_neq _ _) Hz). simpl negb. erewrite (bind_ok (c_assert true)) by done.
  erewrite bind_ok by by apply load_thread, Hf.
  rewrite (proj2 (Z.eqb_neq _ _) Hm). erewrite bind_ok by done.
  unfold mbind at 1, cm_bind at 1. rewrite (list_for_each_entry_run _) with (xs := xl (t_maps t));
    [apply visit_maps; [done|]| |exact Hl].
  - intros a Ha. by eapply world_readable.
  - intros x u r u' Hx%tell_map_leaves; [|done]. simpl. by destruct Hx as [-> _].
Qed.

(** C34. bpf_dl_iterate_phdr finds or creates the leading thread of the process and
    then runs the callback on the maps of its set in list order, each with its
    range and the name of its dso, until a result is negative (-1) or the list
    ends (0); nothing else happens, and the reference of the caller to the
    thread is not put back: on a machine at rest it is the one reference that
    is left over. *)
Theorem iterate_phdr_correct (callback : dl_phdr_info → wm Z) (tgid : Z) (w : world)
    (ls : bucket → list Z) (ds : list Z) (ml xl : Z → list Z) :
  world_inv w ls ds ml xl → thread_ready maps_lock w ls tgid tgid → leaves_maps callback →
  ∃ w1 ls1 v t, find_thread tgid tgid w = Ok (v, w1) ∧ world_inv w1 ls1 ds ml xl ∧
    found_thread w w1 ls ls1 tgid tgid v t ∧
    (∀ ex, world_rest w ls ds ml ex → world_rest w1 ls1 ds ml (one_more v ex)) ∧
    bpf_dl_iterate_phdr unw_destroy_addr_space maps_lock threads_lock tgid callback w =
      call_all callback (phdr_of w1 <$> xl (t_maps t)) w1.
Proof. apply iterate_phdr_run. Qed.

(** *** bpf_unwind_ctx__resolve_callchain *)

Section walk.
Context {C : Type}.
Variables (unw_init_remote : wm (Z * C)) (unw_step : C → wm (Z * C))
          (unw_get_ip : C → wm Z) (unw_is_signal_frame : C → wm Z).

Abbreviation walk := (get_entries unw_init_remote unw_step unw_get_ip unw_is_signal_frame).
Abbreviation resolve := (bpf_unwind_ctx__resolve_callchain unw_create_addr_space
  unw_set_caching_policy unw_flush_cache unw_destroy_addr_space unw_init_remote unw_step unw_get_ip
  unw_is_signal_frame maps_lock threads_lock).

(** The thread [th] as the walk finds it: in the table, with an address space,
    and one more reference than before the call. *)
Record walk_thread (w w2 : world) (ls ls2 : bucket → list Z) (tgid tid th : Z) (t : thread) : Prop := {
  wt_in : th ∈ ls2 (machine__threads tid);
  wt_thread : ma_thread (w_machine w2) !! th = Some t;
  wt_tid : t_tid t = tid;
  wt_tgid : t_tgid t = tgid;
  wt_space : t_addr_space t ≠ 0;
  wt_old u : th ∈ ls (machine__threads tid) → ma_thread (w_machine w) !! th = Some u →
    t_refcnt t = t_refcnt u + 1;
  wt_new : th ∉ ls (machine__threads tid) → t_refcnt t = 2;
}.

Lemma resolve_wp st uc w ls ds ml xl (Q : Z * stacktrace → world → Prop) :
  (∀ w, wp unw_create_addr_space (λ a w', a ≠ 0 ∧ w' = w) w) →
  (∀ a w, wp (unw_set_caching_policy a) (λ _ w', w' = w) w) →
  (∀ a w, wp (unw_flush_cache a) (λ _ w', w' = w) w) →
  world_inv w ls ds ml xl → thread_ready maps_lock w ls (uc_tgid uc) (uc_tid uc) →
  (∀ w2 ls2 th t, world_inv w2 ls2 ds ml xl →
     walk_thread w w2 ls ls2 (uc_tgid uc) (uc_tid uc) th t →
     (∀ ex, world_rest w ls ds ml ex → world_rest w2 ls2 ds ml (one_more th ex)) →
     wp (walk (uc_uregs uc) (t_addr_space t) st) Q w2) →
  wp (resolve st uc) Q w.
Proof.
  intros Hcreate Hcache Hflush Hw Hready HQ. unfold bpf_unwind_ctx__resolve_callchain.
  apply wp_bind. eapply wp_mono; [by apply (findnew_thread_wp _ _ _ _ _ w ls ds ml xl)|].
  intros v w1 (ls1 & t & Hw1 & _ & Hf & Hrest).
  destruct Hf as [Hv Ht Htid Htg Hrc _ _ Hold Hnew].
  pose proof (inv_nonnull (wi_table _ _ _ _ _ Hw1) _ _ Hv) as Hz.
  apply wp_bind, wp_assert; [by rewrite (proj2 (Z.eqb_neq _ _) Hz)|].
  apply wp_bind. eapply wp_world_load; [done|exact Ht|].
  pose proof (ti_ops _ _ _ _ (wi_table _ _ _ _ _ Hw1) _ _ _ Hv Ht) as Hops.
  apply wp_bind. eapply wp_mono; [by eapply access_wp|].
  intros _ w2 (t2 & -> & (E1 & E2 & E3 & E4) & Hsp & Hul).
  assert (ma_thread (w_machine (put_thread v t2 w1)) !! v = Some t2) as Ht2 by (simpl; apply lookup_insert_eq).
  apply wp_bind. eapply wp_mono; [by eapply set_comm_wp|].
  intros _ w3 (t3 & -> & (F1 & F2 & F3 & F4) & Hsp3 & Hul3). rewrite put_thread_twice.
  apply wp_bind. eapply wp_world_load; [done|simpl; apply lookup_insert_eq|].
  assert (same_thread t t3) as Hsame by (split_and!; congruence).
  pose proof (thread_update_inv _ _ _ _ _ _ _ _ t3 Hw1 Hv Ht Hsame
    ltac:(intros _; congruence)) as Hw3.
  destruct (thread_maps_live _ _ _ _ _ _ _ t Hw1 Hv Ht) as [Hm _].
  unfold unwind__get_entries. simpl. rewrite Hul3, Hul. unfold _get_entries. simpl.
  rewrite (proj2 (Z.eqb_neq _ _)) by congruence. apply wp_bind, wp_ret.
  apply (HQ _ ls1 v t3 Hw3).
  2: { intros ex Hr. eapply thread_update_rest; [by apply Hrest|exact Ht|exact Hsame]. }
  split; simpl; try done; try congruence.
  - apply lookup_insert_eq.
  - intros u Hin Hu. rewrite F4, E4, (Hold u Hin Hu). done.
  - intros Hin. rewrite F4, E4, (Hnew Hin). done.
Qed.

End walk.
End entry.

(** ** A machine that has read the maps of process 42 *)

Abbreviation ex_thread_map := (bpf_unwind_ctx__thread_map (mret 7) (λ _, mret tt) (λ _, mret tt)
  Some ex_fopen ex_rwlock ex_rwlock ex_rwlock ex_event).

Lemma ex_machine_mapped : ∃ w ls ds ml xl v m a,
  ex_thread_map 42 42 ex_machine_world = Ok (0, w) ∧ world_inv w ls ds ml xl ∧
  has_thread w ls 42 42 v m ∧ xl m = [a] ∧
  ∃ d, mw_map (w_maps w) !! a = Some (Map 0x400000 0x40c000 5 2 0 0 0xfd 1 41038 7 d 1).
Proof.
  assert (wp (ex_thread_map 42 42)
    (λ r w, r = 0 ∧ ∃ ls ds ml xl m, world_inv w ls ds ml xl ∧
      (∃ v, has_thread w ls 42 42 v m) ∧
      all_mapped [vma_event 42 42 7 ex_vma1] ex_machine_world w (λ _, []) ls [] ds (λ _, []) xl m)
    ex_machine_world) as Hw.
  { eapply wp_mono.
    - apply (thread_map_wp (mret 7) (λ _, mret tt) (λ _, mret tt) Some ex_rwlock ex_rwlock ex_rwlock
        ltac:(by intros w; apply wp_ret) ltac:(by intros a w; apply wp_ret) ltac:(by intros s t [= ->])
        ex_fopen ex_event 42 42 [ex_vma1; ex_vma2] ex_lines ex_machine_world (λ _, []) [] (λ _, [])
        (λ _, []) [vma_event 42 42 7 ex_vma1]); [done|exact ex_maps_lines|by vm_compute
        |exact ex_machine_world_inv|apply ex_thread_ready|].
      split; apply (bool_decide_unpack _); by vm_compute.
    - intros r w' (-> & ls & ds & ml & xl & m & Hinv & Hth & Hall & _). split; [done|].
      exists ls, ds, ml, xl, m. split_and!; [done|by apply Hth|done]. }
  apply wp_elim in Hw as (r & w & Hrun & -> & ls & ds & ml & xl & m & Hinv & [v Hv] & as_ & Hx & Hf & _).
  apply Forall2_cons_inv_r in Hf as (a & rest & (d & Ha & _ & _) & Hnil & ->).
  apply Forall2_nil_inv_r in Hnil as ->. exists w, ls, ds, ml, xl, v, m, a.
  split_and!; [exact Hrun|exact Hinv|exact Hv|exact Hx|]. by exists d.
Qed.

Lemma iterate_phdr_correct_witness : ∃ w w1 v name,
  ex_thread_map 42 42 ex_machine_world = Ok (0, w) ∧
  findnew_thread (λ _, mret tt) ex_rwlock ex_rwlock 42 42 w = Ok (v, w1) ∧
  bpf_dl_iterate_phdr (λ _, mret tt) ex_rwlock ex_rwlock 42
    (λ info w, Ok (if start_addr info =? 0x400000 then -7 else 3, w)) w =
  call_all (λ info w, Ok (if start_addr info =? 0x400000 then -7 else 3, w))
    [DlPhdrInfo 0x400000 0x40c000 name] w1.
Proof.
  destruct ex_machine_mapped as (w & ls & ds & ml & xl & v & m & a & Hrun & Hinv & Hth & Hx & d & Ha).
  destruct (iterate_phdr_correct (λ _, mret tt) ex_rwlock ex_rwlock
    (λ info w, Ok (if start_addr info =? 0x400000 then -7 else 3, w)) 42 w ls ds ml xl Hinv)
    as (w1 & ls1 & v1 & t & Hf & Hinv1 & Hfound & _ & Hit).
  - by eapply has_thread_ready.
  - clear. intros info w r w' [= <- <-]. done.
  - destruct (ft_same _ _ _ _ _ _ _ _ Hfound _ _ Hth) as [-> ->].
    rewrite Hx in Hit. exists w, w1, v1.
    pose proof (findnew_thread_wp (λ _, mret tt) ex_rwlock ex_rwlock 42 42 w ls ds ml xl Hinv
      ltac:(by eapply has_thread_ready)) as Hw.
    unfold wp in Hw. rewrite Hf in Hw. destruct Hw as (_ & _ & _ & (_ & Hm & _) & _).
    exists (from_option d_name ""%string (w_dso w1 !! d)).
    split_and!; [exact Hrun|exact Hf|]. rewrite Hit. f_equal. cbn [fmap list_fmap]. unfold phdr_of.
    by rewrite Hm, Ha.
Defined.

(** A libunwind whose cursor counts down: frame [n] is at [1000 * n], and
    frame 1 is a signal frame. *)
Definition ex_walk_step (c : nat) : wm (Z * nat) :=
  match c with O => mret (0, O) | Datatypes.S c => mret (1, c) end.
Definition ex_call : unwind_ctx := UnwindCtx 0 43 42 ex_regs "cat" 16 (seqZ 1 32).

