(* ===== verification/Api.v ===== *)
(** Any use of the library: every sequence of calls of the entry points that
    libdw_bpf.h offers on a machine, from machine__init to machine__delete.  A
    call is a value, running it is the entry point of Machine.v, and a call fits
    a machine when its arguments make sense and there is memory left. *)
From Stdlib Require Import ZArith Lia Ascii String List.
From stdpp Require Import base tactics option list numbers gmap sorting functions fin vector finite strings.
From S2P Require Import Prelude RbTree RbSpec RbRep RbSearch ListHead ListRep Refcount DsoRef.
From S2P Require Import Rwsem Maps MapsObj DsoData Dsos DsosInv DsosProps CString Ptrace Unwind UnwindProps.
From S2P Require Import Threads ThreadsInv ThreadsFind World ThreadsProps Scanf Event EventProps.
From S2P Require Import Machine MachineInv MachineProps MachineDelete Lifecycle EntryProps.

Local Open Scope Z_scope.

(** ** Reading files changes no names *)

(** The fields of a dso that the maps and the list rely on. *)
Definition names_part (d : dso) : dso :=
  Dso (d_name d) (d_long_name d) (d_long_name_len d) (d_long_name_allocated d)
    (d_short_name d) (d_short_name_len d) (d_short_name_allocated d) (d_root d)
    0 0 DSO_DATA_STATUS_UNKNOWN.

(** What libunwind may do to a machine through the accessors: read files, which
    opens dsos and fills their caches. *)
Record reads_files (w w' : world) : Prop := {
  rf_rest : w' = World (w_machine w) (w_maps w) (w_dso_rb w) (w_dso_list w) (w_dso w')
              (w_dso_head w) (w_dso_pool w);
  rf_names : names_part <$> w_dso w' = names_part <$> w_dso w;
}.

#[export] Instance reads_files_preorder : PreOrder reads_files.
Proof.
  split.
  - intros w. split; [by destruct w|done].
  - intros w1 w2 w3 [H1 N1] [H2 N2]. split; [|congruence]. rewrite H2 at 1. by rewrite H1.
Qed.

Lemma names_lookup (D D' : gmap Z dso) a d :
  names_part <$> D' = names_part <$> D → D !! a = Some d →
  ∃ d', D' !! a = Some d' ∧ names_part d' = names_part d.
Proof.
  intros HD Ha. assert ((names_part <$> D') !! a = Some (names_part d)) as H.
  { by rewrite HD, lookup_fmap, Ha. }
  rewrite lookup_fmap in H. apply fmap_Some in H as (d' & -> & ->). by exists d'.
Qed.

Lemma reads_world_inv w w' ls ds ml xl :
  reads_files w w' → world_inv w ls ds ml xl → world_inv w' ls ds ml xl.
Proof.
  intros [-> HD]. simpl in HD. set (D := w_dso w') in *. clearbody D. intros [Hti Hth Hds Hdp Hob Hmp Hmd].
  split; try done. destruct Hds as ((l & Hn & Hp) & Hl & Hr). split; [|done].
  exists l. split; [|done]. pose proof Hn as [_ Hlive _].
  apply (names_inv_rename (dsos_of w)); [done|done|done|].
  intros a Ha. destruct (Hlive a Ha) as [_ (d & Hd & [n Hn1] & Hn2 & Hroot)].
  simpl in Hd. destruct (names_lookup _ _ _ _ HD Hd) as (d' & Hd' & He).
  injection He as _ E1 _ _ E2 _ _ E3. split.
  - exists d'. simpl. by rewrite E1, E2, E3, Hn1.
  - unfold long_of. simpl. by rewrite Hd', Hd; simpl; rewrite E1.
Qed.

Lemma reads_world_rest w w' ls ds ml ex :
  reads_files w w' → world_rest w ls ds ml ex → world_rest w' ls ds ml ex.
Proof. intros [-> _] []. by split. Qed.

(** ** Calls *)

Inductive call :=
  | ThreadMap (tgid tid : Z) (fopen : string → option (list ascii)) (event0 : mmap_event)
  | IteratePhdr (tgid : Z) (callback : dl_phdr_info → wm Z)
  | ResolveCallchain (depth : Z) (ips : list Z) (uc : unwind_ctx).

(** The invariant, and every reference accounted for: [ex] are those to threads
    that the entry points did not put back. *)
Definition well_formed (w : world) : Prop :=
  ∃ ls ds ml xl ex, world_inv w ls ds ml xl ∧ world_rest w ls ds ml ex.

(** The machine has, or has memory for, the thread [tid] of group [tgid]: the
    groups agree, and its count and the count of the leader have room for one
    more reference. *)
Definition thread_fits (w : world) (tgid tid : Z) : Prop :=
  (∀ a t, ma_thread (w_machine w) !! a = Some t → t_tid t = tid → tgid = tid ∨ t_tgid t = tgid) ∧
  (∀ a t, ma_thread (w_machine w) !! a = Some t → t_tid t = tid ∨ t_tid t = tgid →
     t_refcnt t < 2 ^ 32 - 1) ∧
  (2 ≤ length (ma_pool (w_machine w)))%nat ∧ (0 < length (mw_pool (w_maps w)))%nat.

Definition fits (w : world) (c : call) : Prop :=
  match c with
  | ThreadMap tgid tid fopen event0 => thread_fits w tgid tid ∧ ∃ vs lines,
      Forall2 maps_line vs lines ∧ fopen (maps_path tgid) = Some (concat lines) ∧
      room_for_maps w (length (filter (λ v, vm_x v) vs))
  | IteratePhdr tgid callback =>
      thread_fits w tgid tgid ∧ ∀ info w, wp (callback info) (λ _ w', w' = w) w
  | ResolveCallchain depth ips uc =>
      thread_fits w (uc_tgid uc) (uc_tid uc) ∧ 1 ≤ depth ≤ Z.of_nat (length ips)
  end.

Section api.
Context {C : Type}.
Variables (unw_create_addr_space : wm Z) (unw_set_caching_policy : Z → wm unit)
          (unw_flush_cache unw_destroy_addr_space : Z → wm unit).
Variables (unw_init_remote : wm (Z * C)) (unw_step : C → wm (Z * C))
          (unw_get_ip : C → wm Z) (unw_is_signal_frame : C → wm Z).
Variables (strdup : string → option string).
Variables (maps_lock : pthread_rwlock maps_st) (dsos_lock : pthread_rwlock dsos_st)
          (threads_lock : pthread_rwlock world).
(** libunwind: address spaces are handles, the cursor reads memory through the
    accessors. *)
Hypothesis Hcreate : ∀ w, wp unw_create_addr_space (λ a w', a ≠ 0 ∧ w' = w) w.
Hypothesis Hcache : ∀ a w, wp (unw_set_caching_policy a) (λ _ w', w' = w) w.
Hypothesis Hflush : ∀ a w, wp (unw_flush_cache a) (λ _ w', w' = w) w.
Hypothesis Hdestroy : ∀ a w, wp (unw_destroy_addr_space a) (λ _ w', w' = w) w.
Hypothesis Hwalk : within unw_init_remote unw_step unw_get_ip unw_is_signal_frame reads_files.
Hypothesis Hstrdup : ∀ s t, strdup s = Some t → t = s.

(** Running a call; the results are the subject of the theorems on the entry
    points. *)
Definition run (c : call) : wm unit :=
  match c with
  | ThreadMap tgid tid fopen event0 =>
      bpf_unwind_ctx__thread_map unw_create_addr_space unw_set_caching_policy
        unw_destroy_addr_space strdup fopen maps_lock dsos_lock threads_lock event0 tgid tid;;
      mret tt
  | IteratePhdr tgid callback =>
      bpf_dl_iterate_phdr unw_destroy_addr_space maps_lock threads_lock tgid callback;; mret tt
  | ResolveCallchain depth ips uc =>
      bpf_unwind_ctx__resolve_callchain unw_create_addr_space unw_set_caching_policy
        unw_flush_cache unw_destroy_addr_space unw_init_remote unw_step unw_get_ip
        unw_is_signal_frame maps_lock threads_lock (Stacktrace depth (Some ips)) uc;;
      mret tt
  end.

Inductive api_step (w w' : world) : Prop :=
  ApiStep c : fits w c → run c w = Ok (tt, w') → api_step w w'.

Lemma fits_ready w ls ds ml xl tgid tid :
  world_inv w ls ds ml xl → thread_fits w tgid tid → thread_ready maps_lock w ls tgid tid.
Proof.
  intros Hw (Hg & Hc & Hp & Hm). split; [right; split; [done|]|split].
  - simpl. unfold world_room. rewrite decide_True by apply Hw. done.
  - intros i a t _ Ht Htid. split; [eapply Hc; [done|by left]|by eapply Hg].
  - right. intros i a t _ Ht Htid. eapply Hc; [done|by right].
Qed.

Lemma call_all_wp callback infos w :
  (∀ info w, wp (callback info) (λ _ w', w' = w) w) → wp (call_all callback infos) (λ _ w', w' = w) w.
Proof.
  intros Hcb. induction infos as [|info infos IH]; cbn [call_all]; [by apply wp_ret|].
  apply wp_bind. eapply wp_mono; [apply Hcb|]. intros r w' ->. by destruct (r <? 0); [apply wp_ret|].
Qed.

(** Preservation and progress at once: a call that fits returns, and the
    machine is well formed again. *)
Lemma call_wp w c : well_formed w → fits w c → wp (run c) (λ _ w', well_formed w') w.
Proof.
  intros (ls & ds & ml & xl & ex & Hw & Hr).
  destruct c as [tgid tid fopen event0|tgid callback|depth ips uc]; cbn [fits run].
  - intros (Hfit & vs & lines & Hlines & Hfopen & Hroom). apply wp_bind. eapply wp_mono.
    { apply (thread_map_wp unw_create_addr_space unw_set_caching_policy unw_destroy_addr_space
        strdup maps_lock dsos_lock threads_lock Hcreate Hcache Hstrdup fopen event0 tgid tid vs
        lines w ls ds ml xl _ eq_refl Hlines Hfopen Hw); [by eapply fits_ready|by rewrite length_fmap]. }
    intros r w' (_ & ls' & ds' & ml' & xl' & m & Hw' & _ & _ & Hr'). apply wp_ret.
    exists ls', ds', ml', xl', ex. auto.
  - intros [Hfit Hcb]. apply wp_bind.
    destruct (iterate_phdr_run unw_destroy_addr_space maps_lock threads_lock callback tgid w ls ds
      ml xl Hw) as (w1 & ls1 & v & t & _ & Hw1 & _ & Hr1 & Hrun).
    { by eapply fits_ready. }
    { intros info u r u' E. pose proof (Hcb info u) as Hu. unfold wp in Hu. rewrite E in Hu. by subst. }
    unfold wp. rewrite Hrun. change (wp (call_all callback (phdr_of w1 <$> xl (t_maps t)))
      (λ a w', wp (mret tt) (λ _ w', well_formed w') w') w1).
    eapply wp_mono; [by apply call_all_wp|]. intros r w' ->. apply wp_ret.
    exists ls1, ds, ml, xl, (one_more v ex). auto.
  - intros [Hfit Hd]. apply wp_bind. eapply resolve_wp; [done..|by eapply fits_ready|].
    intros w2 ls2 th t Hw2 _ Hr2. eapply wp_mono; [by apply (get_entries_wp _ _ _ _ reads_files)|].
    intros v w' [_ Hrd]. apply wp_ret. exists ls2, ds, ml, xl, (one_more th ex).
    split; [by eapply reads_world_inv|by eapply reads_world_rest; [|apply Hr2]].
Qed.

Lemma reachable_well_formed w w' : well_formed w → rtc api_step w w' → well_formed w'.
Proof.
  intros Hw Hs. induction Hs as [|w1 w2 w3 [c Hc Hrun] _ IH]; [done|]. apply IH.
  pose proof (call_wp w1 c Hw Hc) as H. unfold wp in H. by rewrite Hrun in H.
Qed.

End api.

(** ** A machine that is asked three times *)

(** A libunwind whose cursor counts down, as in EntryProps.v. *)
Abbreviation ex_run := (run (mret 7) (λ _, mret tt) (λ _, mret tt) (λ _, mret tt)
  (mret (0, 3%nat)) ex_walk_step (λ c, mret (1000 * Z.of_nat c)) (λ _, mret 0) Some
  ex_rwlock ex_rwlock ex_rwlock).
Definition ex_map_call : call := ThreadMap 42 43 ex_fopen ex_event.
Definition ex_resolve_call : call := ResolveCallchain 3 [7; 7; 7; 7] ex_call.
Definition ex_resolved_world : world := state_of (ex_run ex_resolve_call ex_mapped_world).
Definition ex_phdr_call : call := IteratePhdr 42 (λ _, mret 0).

(** The conditions on the threads, as a test. *)
Definition threads_fit (w : world) (tgid tid : Z) : bool :=
  bool_decide (map_Forall (λ _ t, (t_tid t = tid → tgid = tid ∨ t_tgid t = tgid) ∧
    (t_tid t = tid ∨ t_tid t = tgid → t_refcnt t < 2 ^ 32 - 1)) (ma_thread (w_machine w))) &&
  bool_decide (2 ≤ length (ma_pool (w_machine w)))%nat &&
  bool_decide (0 < length (mw_pool (w_maps w)))%nat.

Lemma threads_fit_sound w tgid tid : threads_fit w tgid tid = true → thread_fits w tgid tid.
Proof.
  unfold threads_fit. rewrite !andb_true_iff, !bool_decide_eq_true. intros [[H ?] ?].
  split_and!; [|..|done|done]; intros a t Ht; by apply (H a t).
Qed.

Lemma ex_map_run : ex_run ex_map_call ex_ready_world = Ok (tt, ex_mapped_world).
Proof. by vm_compute. Qed.
Lemma ex_resolve_run : ex_run ex_resolve_call ex_mapped_world = Ok (tt, ex_resolved_world).
Proof. by vm_compute. Qed.

Lemma ex_map_fits : fits ex_ready_world ex_map_call.
Proof.
  split; [apply threads_fit_sound; by vm_compute|]. exists [ex_vma1; ex_vma2], ex_lines.
  split; [exact ex_maps_lines|]. split; [by vm_compute|]. split; apply (bool_decide_unpack _); by vm_compute.
Qed.
Lemma ex_resolve_fits : fits ex_mapped_world ex_resolve_call.
Proof. split; [apply threads_fit_sound; by vm_compute|]. apply (bool_decide_unpack _). by vm_compute. Qed.
Lemma ex_phdr_fits : fits ex_resolved_world ex_phdr_call.
Proof. split; [apply threads_fit_sound; by vm_compute|]. intros info w. by apply wp_ret. Qed.


(** The thread that was resolved, its set and its map outlive the machine. *)
Example ex_leak_run :
  match ex_delete ex_resolved_world with
  | Ok (_, w) => Some (size (ma_thread (w_machine w)), size (mw_obj (w_maps w)), size (mw_map (w_maps w)),
      mw_dso (w_maps w) !! 1024)
  | _ => None
  end = Some (1%nat, 1%nat, 1%nat, Some 1).
Proof. by vm_compute. Qed.
