(* ===== verification/Pipeline.v ===== *)
(** The parallel example: src/examples/queue.h, stoppable.h and
    syscall_parallel.cc.

    One thread polls the perf buffer and pushes the samples of the traced
    process into a queue guarded by a mutex and a condition variable; several
    workers pop samples and resolve their call chains; a signal handler asks
    all of them to stop.  An [action] is one atomic step of a thread (an
    operation on the mutex, the condition variable, the queue or a flag) or of
    its surroundings, [do_action] the state after it, if the thread can take
    it; an interleaving is a list of actions.

    A sample is the pointer the queue holds ([uc]), as an integer: what the
    workers do with the record behind it is Machine.v's
    bpf_unwind_ctx__resolve_callchain.  When that call fails a worker calls
    exit, and when a promise is set a second time the library throws inside
    the signal handler: both end the process, that is the interleaving.  The
    workers have all registered themselves in [rcts] when the interleavings
    begin. *)
From Stdlib Require Import ZArith Lia.
From stdpp Require Import base tactics option list numbers.
From S2P Require Import Prelude.

Local Open Scope Z_scope.

(** ** State *)

(** Where a worker is (ResolveCallchainTask::run, Queue::pop). *)
Inductive worker_pc :=
  | WTest          (* while (stopRequested() == false) *)
  | WLock          (* std::unique_lock mlock(mutex_) *)
  | WCheck         (* while (queue_.empty()) *)
  | WWait          (* blocked in cond_.wait(mlock) *)
  | WWake          (* woken, to take the mutex again *)
  | WUnlock (v : Z) (* return val: the mutex is released *)
  | WWork (v : Z)  (* resolve_callchain and print *)
  | WDone.

(** Where the poller is (EventPollTask::run, unwind_ctx_handler, Queue::push). *)
Inductive poll_pc :=
  | PTest          (* while (stopRequested() == false) *)
  | PPoll          (* in poll_perf_buffer *)
  | PLock (v : Z)  (* q->push(uc): std::unique_lock mlock(mutex_) *)
  | PPush (v : Z)  (* queue_.push(item) *)
  | PUnlock        (* mlock.unlock() *)
  | PNotify        (* cond_.notify_one() *)
  | PDone.

Inductive thread_id := Poller | Worker (i : nat).

#[export] Instance worker_pc_eq : EqDecision worker_pc.
Proof. solve_decision. Defined.
#[export] Instance poll_pc_eq : EqDecision poll_pc.
Proof. solve_decision. Defined.
#[export] Instance thread_id_eq : EqDecision thread_id.
Proof. solve_decision. Defined.

(** The promises of the tasks ([p_stop_poll], [p_stops]: set by stop()), and
    how many stop() calls the signal handler has made. *)
Record pipe := Pipe {
  p_queue : list Z;
  p_owner : option thread_id;
  p_poll : poll_pc;
  p_workers : list worker_pc;
  p_stop_poll : bool;
  p_stops : list bool;
  p_signal : nat;
}.

Inductive event := Push (v : Z) | Pop (i : nat) (v : Z).

Inductive action :=
  | Work (i : nat)      (* the next step of worker [i] *)
  | Poll                (* the next step of the poller *)
  | Deliver (v : Z)     (* poll_perf_buffer calls the handler on a sample *)
  | Notify (i : nat)    (* notify_one wakes worker [i] *)
  | Spurious (i : nat)  (* the wait of worker [i] ends by itself *)
  | Signal.             (* the next statement of signal_handler *)

(** ** Updates *)

Definition set_queue (q : list Z) (s : pipe) : pipe :=
  Pipe q (p_owner s) (p_poll s) (p_workers s) (p_stop_poll s) (p_stops s) (p_signal s).
Definition set_owner (o : option thread_id) (s : pipe) : pipe :=
  Pipe (p_queue s) o (p_poll s) (p_workers s) (p_stop_poll s) (p_stops s) (p_signal s).
Definition set_poll (pc : poll_pc) (s : pipe) : pipe :=
  Pipe (p_queue s) (p_owner s) pc (p_workers s) (p_stop_poll s) (p_stops s) (p_signal s).
Definition set_worker (i : nat) (pc : worker_pc) (s : pipe) : pipe :=
  Pipe (p_queue s) (p_owner s) (p_poll s) (<[i := pc]> (p_workers s)) (p_stop_poll s)
    (p_stops s) (p_signal s).

Definition set_signal (k : nat) (s : pipe) : pipe :=
  Pipe (p_queue s) (p_owner s) (p_poll s) (p_workers s) (p_stop_poll s) (p_stops s) k.

(** Taking the mutex: only when nobody holds it. *)
Definition lock (t : thread_id) (s : pipe) : option pipe :=
  match p_owner s with None => Some (set_owner (Some t) s) | Some _ => None end.
Definition unlock (s : pipe) : pipe := set_owner None s.

(** ** The threads *)

(** stoppable.h: the future of the promise is ready. *)
Definition stopRequested (s : pipe) (t : thread_id) : bool :=
  match t with
  | Poller => p_stop_poll s
  | Worker i => default false (p_stops s !! i)
  end.

(** stop(): the promise is set, which throws when it was set before. *)
Definition stop (t : thread_id) (s : pipe) : option pipe :=
  match t with
  | Poller =>
      if p_stop_poll s then None else
      Some (Pipe (p_queue s) (p_owner s) (p_poll s) (p_workers s) true (p_stops s) (p_signal s))
  | Worker i =>
      match p_stops s !! i with
      | Some false => Some (Pipe (p_queue s) (p_owner s) (p_poll s) (p_workers s) (p_stop_poll s)
                              (<[i := true]> (p_stops s)) (p_signal s))
      | _ => None
      end
  end.

(** One step of Queue::pop; the wait releases the mutex, and a worker that was
    woken takes it again before it tests the queue. *)
Definition pop_step (i : nat) (pc : worker_pc) (s : pipe) : option (option event * pipe) :=
  match pc with
  | WLock | WWake => s' ← lock (Worker i) s; Some (None, set_worker i WCheck s')
  | WCheck =>
      match p_queue s with
      | [] => Some (None, set_worker i WWait (unlock s))
      | v :: q => Some (Some (Pop i v), set_worker i (WUnlock v) (set_queue q s))
      end
  | WUnlock v => Some (None, set_worker i (WWork v) (unlock s))
  | _ => None
  end.

(** One step of the loop of ResolveCallchainTask::run. *)
Definition worker_step (i : nat) (s : pipe) : option (option event * pipe) :=
  match p_workers s !! i with
  | Some WTest =>
      Some (None, set_worker i (if stopRequested s (Worker i) then WDone else WLock) s)
  | Some (WWork v) => Some (None, set_worker i WTest s)
  | Some pc => pop_step i pc s
  | None => None
  end.

Definition waiting (s : pipe) : bool := existsb (λ pc, bool_decide (pc = WWait)) (p_workers s).

(** One step of Queue::push; notify_one does nothing when nobody waits. *)
Definition push_step (pc : poll_pc) (s : pipe) : option (option event * pipe) :=
  match pc with
  | PLock v => s' ← lock Poller s; Some (None, set_poll (PPush v) s')
  | PPush v => Some (Some (Push v), set_poll PUnlock (set_queue (p_queue s ++ [v]) s))
  | PUnlock => Some (None, set_poll PNotify (unlock s))
  | PNotify => if waiting s then None else Some (None, set_poll PPoll s)
  | _ => None
  end.

(** One step of the loop of EventPollTask::run. *)
Definition poll_step (s : pipe) : option (option event * pipe) :=
  match p_poll s with
  | PTest => Some (None, set_poll (if stopRequested s Poller then PDone else PPoll) s)
  | PPoll => Some (None, set_poll PTest s)
  | pc => push_step pc s
  end.

Section handler.
(** [uc->tgid == tgid] *)
Variable mine : Z → bool.

Definition unwind_ctx_handler (uc : Z) (s : pipe) : option (option event * pipe) :=
  match p_poll s with
  | PPoll => Some (None, if mine uc then set_poll (PLock uc) s else s)
  | _ => None
  end.

Definition wake (i : nat) (s : pipe) : option pipe :=
  match p_workers s !! i with
  | Some WWait => Some (set_worker i WWake s)
  | _ => None
  end.

(** ept.stop(), then rct->stop() of every worker in order.  A second signal
    finds the promise of the poller set, and the process ends. *)
Definition signal_handler (s : pipe) : option pipe :=
  match p_signal s with
  | O => s' ← stop Poller s; Some (set_signal 1 s')
  | S k => s' ← stop (Worker k) s; Some (set_signal (S (S k)) s')
  end.

Definition do_action (a : action) (s : pipe) : option (option event * pipe) :=
  match a with
  | Work i => worker_step i s
  | Poll => poll_step s
  | Deliver v => unwind_ctx_handler v s
  | Notify i =>
      match p_poll s with
      | PNotify => s' ← wake i s; Some (None, set_poll PPoll s')
      | _ => None
      end
  | Spurious i => s' ← wake i s; Some (None, s')
  | Signal => s' ← signal_handler s; Some (None, s')
  end.

Definition events (e : option event) : list event :=
  match e with Some e => [e] | None => [] end.

Fixpoint run (acts : list action) (s : pipe) : option (list event * pipe) :=
  match acts with
  | [] => Some ([], s)
  | a :: acts =>
    '(e, s') ← do_action a s;
    '(es, s'') ← run acts s';
    Some (events e ++ es, s'')
  end.
End handler.

(** main: [n] workers, all at the start of their loops and registered. *)
Definition start (n : nat) : pipe :=
  Pipe [] None PTest (replicate n WTest) false (replicate n false) 0.

Definition pushes (es : list event) : list Z :=
  omap (λ e, match e with Push v => Some v | Pop _ _ => None end) es.
Definition pops (es : list event) : list Z :=
  omap (λ e, match e with Pop _ v => Some v | Push _ => None end) es.
