(* ===== verification/PipelineProps.v ===== *)
(** What the parallel example guarantees: its queue is first in first out and
    guarded by the mutex, no wake-up is lost, and stop() leaves the workers
    asleep.

    An invariant [pipe_inv] (the owner of the mutex is the thread in the
    critical section, and somebody is awake or about to be woken while the
    queue is not empty) is kept by every action. *)
From Stdlib Require Import ZArith Lia.
From stdpp Require Import base tactics option list numbers.
From S2P Require Import Prelude Pipeline.

Local Open Scope Z_scope.

(** ** Interleavings *)

Section interleavings.
Context (mine : Z → bool).

Lemma run_app acts1 acts2 s es1 s1 :
  run mine acts1 s = Some (es1, s1) →
  run mine (acts1 ++ acts2) s = ('(es2, s2) ← run mine acts2 s1; Some (es1 ++ es2, s2)).
Proof.
  revert s es1. induction acts1 as [|a acts IH]; intros s es1; simpl.
  - intros [= <- <-]. by destruct (run mine acts2 s) as [[]|].
  - destruct (do_action mine a s) as [[e s']|]; [|done]. simpl.
    destruct (run mine acts s') as [[es s'']|] eqn:E; [|done]. simpl. intros [= <- <-].
    rewrite (IH _ _ E). destruct (run mine acts2 s'') as [[es2 s2]|]; simpl; [|done].
    by rewrite app_assoc.
Qed.

(** An invariant of the actions is one of the interleavings. *)
Lemma run_inv (I : pipe → Prop) :
  (∀ a s e s', I s → do_action mine a s = Some (e, s') → I s') →
  ∀ acts s es s', I s → run mine acts s = Some (es, s') → I s'.
Proof.
  intros HI acts. induction acts as [|a acts IH]; intros s es s' Hs; simpl.
  - by intros [= _ <-].
  - destruct (do_action mine a s) as [[e s1]|] eqn:Ha; [|done]. simpl.
    destruct (run mine acts s1) as [[es1 s2]|] eqn:Hr; [|done]. simpl. intros [= _ <-].
    eauto.
Qed.

(** The cases of an action: every test of the code decided. *)
Ltac action_cases H :=
  unfold do_action, worker_step, pop_step, poll_step, push_step, unwind_ctx_handler, wake,
    signal_handler, stop, lock, unlock
    in H;
  repeat (simplify_option_eq; case_match); simplify_option_eq.

Lemma fifo_action a s e s' :
  do_action mine a s = Some (e, s') →
  p_queue s ++ pushes (events e) = pops (events e) ++ p_queue s'.
Proof.
  intros H. destruct a; action_cases H; by rewrite ?app_nil_r.
Qed.

Lemma fifo_run acts s es s' :
  run mine acts s = Some (es, s') → p_queue s ++ pushes es = pops es ++ p_queue s'.
Proof.
  revert s es. induction acts as [|a acts IH]; intros s es; simpl.
  - intros [= <- <-]. by rewrite app_nil_r.
  - destruct (do_action mine a s) as [[e s1]|] eqn:Ha; [|done]. simpl.
    destruct (run mine acts s1) as [[es1 s2]|] eqn:Hr; [|done]. simpl. intros [= <- <-].
    unfold pushes, pops in *. rewrite !omap_app, app_assoc. 
    pose proof (fifo_action _ _ _ _ Ha) as Hf. unfold pushes, pops in Hf.
    rewrite Hf, <- app_assoc, (IH _ _ Hr), app_assoc. done.
Qed.
End interleavings.

(** ** The invariant *)

(** In the critical section of the mutex. *)
Definition worker_crit (pc : worker_pc) : bool :=
  match pc with WCheck | WUnlock _ => true | _ => false end.
Definition poll_crit (pc : poll_pc) : bool :=
  match pc with PPush _ | PUnlock => true | _ => false end.
Definition holds (t : thread_id) (s : pipe) : bool :=
  match t with
  | Poller => poll_crit (p_poll s)
  | Worker i => match p_workers s !! i with Some pc => worker_crit pc | None => false end
  end.

Record pipe_inv (n : nat) (s : pipe) : Prop := {
  pi_workers : length (p_workers s) = n;
  pi_stops : length (p_stops s) = n;
  pi_owner t : p_owner s = Some t ↔ holds t s = true;
  pi_wake : p_queue s ≠ [] → p_poll s = PUnlock ∨ p_poll s = PNotify ∨
    ∃ i pc, p_workers s !! i = Some pc ∧ pc ≠ WWait;
  pi_done i : p_workers s !! i = Some WDone → p_stops s !! i = Some true;
}.

Lemma start_inv n : pipe_inv n (start n).
Proof.
  split; simpl; rewrite ?length_replicate; try done.
  - intros [|i]; simpl; [done|]. split; [done|].
    destruct (replicate n WTest !! i) eqn:E; [|done]. by apply lookup_replicate in E as [-> _].
  - by intros i [? _]%lookup_replicate.
Qed.

Lemma waiting_false s i pc : waiting s = false → p_workers s !! i = Some pc → pc ≠ WWait.
Proof.
  intros Hw Hi ->. unfold waiting in Hw. apply not_true_iff_false in Hw. apply Hw.
  apply existsb_exists. exists WWait. split; [|by apply bool_decide_eq_true].
  apply list_elem_of_In. by eapply list_elem_of_lookup_2.
Qed.

(** Moving one worker. *)
Lemma holds_worker t i pc s :
  is_Some (p_workers s !! i) →
  holds t (set_worker i pc s) = if decide (t = Worker i) then worker_crit pc else holds t s.
Proof.
  intros Hi%lookup_lt_is_Some. destruct t as [|j]; [by rewrite decide_False|]. unfold holds, set_worker. simpl p_workers.
  destruct (decide (i = j)) as [->|Hne].
  - rewrite list_lookup_insert_eq by done. by rewrite decide_True.
  - rewrite list_lookup_insert_ne by done. by rewrite decide_False by congruence.
Qed.

Lemma set_worker_awake i pc (l : list worker_pc) :
  is_Some (l !! i) → pc ≠ WWait → ∃ j pc', <[i := pc]> l !! j = Some pc' ∧ pc' ≠ WWait.
Proof. intros Hi%lookup_lt_is_Some ?. exists i, pc. by rewrite list_lookup_insert_eq. Qed.

(** A worker moves: what the rest of the state must satisfy. *)
Lemma worker_inv n i pc pc' o q s :
  pipe_inv n s → p_workers s !! i = Some pc →
  (pc' = WWait → q = []) → (pc' = WDone → p_stops s !! i = Some true) →
  (o = p_owner s ∧ worker_crit pc' = worker_crit pc ∨
   o = None ∧ worker_crit pc = true ∧ worker_crit pc' = false ∨
   o = Some (Worker i) ∧ p_owner s = None ∧ worker_crit pc' = true) →
  pipe_inv n (set_worker i pc' (set_owner o (set_queue q s))).
Proof.
  intros [Hw Hs Ho Hwk Hd] Hi Hq Hdn Hcr. split; simpl.
  - by rewrite length_insert.
  - done.
  - intros t. rewrite holds_worker by (by eexists). 
    change (holds t (set_owner o (set_queue q s))) with (holds t s).
    pose proof (Ho (Worker i)) as Hoi. simpl in Hoi. rewrite Hi in Hoi.
    destruct Hcr as [(-> & Hc)|[(-> & Hc & Hc')|(-> & Hn & Hc)]].
    + rewrite Ho. case_decide as Ht; [subst; simpl; by rewrite Hi, Hc|done].
    + split; [done|]. case_decide as Ht; [congruence|]. rewrite <- Ho.
      rewrite (proj2 Hoi Hc). congruence.
    + case_decide as Ht; [by subst|]. rewrite <- Ho, Hn. split; congruence.
  - intros Hq'. right; right. apply set_worker_awake; [by eexists|naive_solver].
  - intros j. destruct (decide (i = j)) as [->|Hne].
    + rewrite list_lookup_insert_eq by (by eapply lookup_lt_Some). intros [= ->]. by apply Hdn.
    + rewrite list_lookup_insert_ne by done. apply Hd.
Qed.

(** The poller moves. *)
Lemma poll_inv n pc o q s :
  pipe_inv n s →
  (q ≠ [] → pc = PUnlock ∨ pc = PNotify ∨ ∃ i w, p_workers s !! i = Some w ∧ w ≠ WWait) →
  (o = p_owner s ∧ poll_crit pc = poll_crit (p_poll s) ∨
   o = None ∧ poll_crit (p_poll s) = true ∧ poll_crit pc = false ∨
   o = Some Poller ∧ p_owner s = None ∧ poll_crit pc = true) →
  pipe_inv n (set_poll pc (set_owner o (set_queue q s))).
Proof.
  intros [Hw Hs Ho Hwk Hd] Hq Hcr. split; simpl; try done. intros t.
  pose proof (Ho Poller) as Hop. simpl in Hop.
  assert (holds t (set_poll pc (set_owner o (set_queue q s))) =
    if decide (t = Poller) then poll_crit pc else holds t s) as ->.
  { by destruct t; [rewrite decide_True|rewrite decide_False]. }
  destruct Hcr as [(-> & Hc)|[(-> & Hc & Hc')|(-> & Hn & Hc)]].
  - rewrite Ho. case_decide as Ht; [subst; simpl; by rewrite Hc|done].
  - split; [done|]. case_decide as Ht; [congruence|]. rewrite <- Ho, (proj2 Hop Hc). congruence.
  - case_decide as Ht; [by subst|]. rewrite <- Ho, Hn. split; congruence.
Qed.

Section invariant.
Context (mine : Z → bool) (n : nat).

Lemma work_inv i s e s' : pipe_inv n s → worker_step i s = Some (e, s') → pipe_inv n s'.
Proof.
  intros Hi. unfold worker_step, pop_step, lock, unlock.
  destruct (p_workers s !! i) as [pc|] eqn:Hw; [|done].
  assert (∀ pc' o q, s' = set_worker i pc' (set_owner o (set_queue q s)) →
    (pc' = WWait → q = []) → (pc' = WDone → p_stops s !! i = Some true) →
    (o = p_owner s ∧ worker_crit pc' = worker_crit pc ∨
     o = None ∧ worker_crit pc = true ∧ worker_crit pc' = false ∨
     o = Some (Worker i) ∧ p_owner s = None ∧ worker_crit pc' = true) → pipe_inv n s') as H.
  { intros pc' o q -> ???. by eapply worker_inv. }
  destruct pc as [| | | | |v|v|]; try done.
  - intros [= <- <-]. simpl. destruct (default false (p_stops s !! i)) eqn:Hst.
    + apply (H WDone (p_owner s) (p_queue s)); [by destruct s|done| |by left].
      intros _. by destruct (p_stops s !! i) as [[]|].
    + by apply (H WLock (p_owner s) (p_queue s)); [destruct s| | |left].
  - destruct (p_owner s) eqn:Ho; [done|]. intros [= <- <-].
    by apply (H WCheck (Some (Worker i)) (p_queue s)); [destruct s| | |right; right].
  - destruct (p_queue s) as [|v q] eqn:Hq; intros [= <- <-].
    + by apply (H WWait None (p_queue s)); [destruct s| | |right; left].
    + by apply (H (WUnlock v) (p_owner s) q); [destruct s| | |left].
  - destruct (p_owner s) eqn:Ho; [done|]. intros [= <- <-].
    by apply (H WCheck (Some (Worker i)) (p_queue s)); [destruct s| | |right; right].
  - intros [= <- <-]. by apply (H (WWork v) None (p_queue s)); [destruct s| | |right; left].
  - intros [= <- <-]. by apply (H WTest (p_owner s) (p_queue s)); [destruct s| | |left].
Qed.

Lemma polling_inv s e s' :
  (0 < n)%nat → pipe_inv n s → poll_step s = Some (e, s') → pipe_inv n s'.
Proof.
  intros Hn Hi. pose proof Hi as [Hlen _ Ho Hwk _]. unfold poll_step, push_step, lock, unlock.
  assert (∀ pc o q, s' = set_poll pc (set_owner o (set_queue q s)) →
    (q ≠ [] → pc = PUnlock ∨ pc = PNotify ∨ ∃ i w, p_workers s !! i = Some w ∧ w ≠ WWait) →
    (o = p_owner s ∧ poll_crit pc = poll_crit (p_poll s) ∨
     o = None ∧ poll_crit (p_poll s) = true ∧ poll_crit pc = false ∨
     o = Some Poller ∧ p_owner s = None ∧ poll_crit pc = true) → pipe_inv n s') as H.
  { intros pc o q -> ??. by apply poll_inv. }
  destruct (p_poll s) as [| |v|v| | |] eqn:Hp; try done.
  - intros [= <- <-]. simpl. destruct (p_stop_poll s);
      (eapply (H _ (p_owner s) (p_queue s)); [by destruct s|naive_solver|by left]).
  - intros [= <- <-]. apply (H PTest (p_owner s) (p_queue s)); [by destruct s|naive_solver|by left].
  - destruct (p_owner s) eqn:Hw; [done|]. intros [= <- <-].
    apply (H (PPush v) (Some Poller) (p_queue s)); [by destruct s|naive_solver|by (right; right)].
  - intros [= <- <-].
    apply (H PUnlock (p_owner s) (p_queue s ++ [v])); [by destruct s|by left|by left].
  - intros [= <- <-]. apply (H PNotify None (p_queue s)); [by destruct s|by (right; left)|by (right; left)].
  - destruct (waiting s) eqn:Hw; [done|]. intros [= <- <-].
    apply (H PPoll (p_owner s) (p_queue s)); [by destruct s| |by left]. intros _. right; right.
    destruct (lookup_lt_is_Some_2 (p_workers s) 0) as [pc Hpc]; [lia|].
    exists 0%nat, pc. split; [done|]. by eapply waiting_false.
Qed.

Lemma wake_inv i s s' : pipe_inv n s → wake i s = Some s' → pipe_inv n s'.
Proof.
  intros Hi. unfold wake. destruct (p_workers s !! i) as [[]|] eqn:Hw; try done.
  intros [= <-]. pose proof (worker_inv n i WWait WWake (p_owner s) (p_queue s) s Hi Hw) as H.
  destruct s. apply H; [done|done|by left].
Qed.

Lemma stop_inv t s s' : pipe_inv n s → stop t s = Some s' → pipe_inv n s'.
Proof.
  intros [Hw Hs Ho Hwk Hd]. destruct t as [|k]; simpl.
  - destruct (p_stop_poll s); [done|]. intros [= <-]. by split.
  - destruct (p_stops s !! k) as [[]|] eqn:Hk; [done| |done]. intros [= <-]. split; simpl; try done.
    + by rewrite length_insert.
    + intros i Hdi%Hd. apply list_lookup_insert_Some. destruct (decide (k = i)) as [->|Hne].
      * left. split_and!; [done|done|by eapply lookup_lt_Some].
      * by right.
Qed.

Lemma set_signal_inv k s : pipe_inv n s → pipe_inv n (set_signal k s).
Proof. intros []. by split. Qed.

Lemma action_inv a s e s' :
  (0 < n)%nat → pipe_inv n s → do_action mine a s = Some (e, s') → pipe_inv n s'.
Proof.
  intros Hn Hi. destruct a as [i| |v|i|i|]; simpl.
  - by apply work_inv.
  - by apply polling_inv.
  - unfold unwind_ctx_handler. destruct (p_poll s) eqn:Hp; try done. intros [= _ <-].
    destruct (mine v); [|done].
    pose proof (poll_inv n (PLock v) (p_owner s) (p_queue s) s Hi) as H.
    pose proof Hi as [_ _ _ Hwk _]. destruct s. simpl in *. apply H; [naive_solver|left].
    by rewrite Hp.
  - destruct (p_poll s) eqn:Hp; try done. destruct (wake i s) as [s1|] eqn:Hw; [|done].
    simpl. intros [= _ <-]. pose proof (wake_inv i s s1 Hi Hw) as Hi1.
    unfold wake in Hw. destruct (p_workers s !! i) as [[]|] eqn:Hwi; try done. injection Hw as <-.
    pose proof (poll_inv n PPoll (p_owner s) (p_queue s) _ Hi1) as H. destruct s. simpl in *.
    apply H; [|left; by rewrite Hp]. intros _. right; right.
    by apply set_worker_awake; [eexists|].
  - destruct (wake i s) as [s1|] eqn:Hw; [|done]. intros [= _ <-]. by eapply wake_inv.
  - unfold signal_handler. destruct (p_signal s) as [|k];
      [destruct (stop Poller s) eqn:Hst|destruct (stop (Worker k) s) eqn:Hst]; try done;
      intros [= _ <-]; apply set_signal_inv; by eapply stop_inv.
Qed.

Lemma reach_inv acts es s :
  (0 < n)%nat → run mine acts (start n) = Some (es, s) → pipe_inv n s.
Proof.
  intros Hn. eapply run_inv; [|apply start_inv]. intros. by eapply action_inv.
Qed.
End invariant.

(** ** Only samples of the process are queued *)

Definition poll_mine (mine : Z → bool) (pc : poll_pc) : Prop :=
  match pc with PLock v | PPush v => mine v = true | _ => True end.

Lemma mine_action mine a s e s' :
  poll_mine mine (p_poll s) → do_action mine a s = Some (e, s') →
  poll_mine mine (p_poll s') ∧ Forall (λ v, mine v = true) (pushes (events e)).
Proof.
  intros Hm H. destruct a as [i| |v|i|i|]; simpl in H.
  - unfold worker_step, pop_step, lock, unlock in H.
    destruct (p_workers s !! i) as [[]|]; try done; repeat case_match; simplify_option_eq;
      by split; [|constructor].
  - unfold poll_step, push_step, lock, unlock in H. destruct (p_poll s); repeat case_match;
      simplify_option_eq; by split; [|repeat constructor].
  - unfold unwind_ctx_handler in H. destruct (p_poll s) eqn:Hp; try done. injection H as <- <-.
    destruct (mine v) eqn:Hv; split; simpl; rewrite ?Hp; done || constructor.
  - destruct (p_poll s); try done. unfold wake in H.
    repeat case_match; simplify_option_eq; by split; [|constructor].
  - unfold wake in H. repeat case_match; simplify_option_eq; by split; [|constructor].
  - unfold signal_handler, stop in H.
    repeat case_match; simplify_option_eq; by split; [|constructor].
Qed.

Lemma mine_run mine acts s es s' :
  poll_mine mine (p_poll s) → run mine acts s = Some (es, s') →
  Forall (λ v, mine v = true) (pushes es).
Proof.
  revert s es. induction acts as [|a acts IH]; intros s es Hs; simpl.
  - intros [= <- _]. constructor.
  - destruct (do_action mine a s) as [[e s1]|] eqn:Ha; [|done]. simpl.
    destruct (run mine acts s1) as [[es1 s2]|] eqn:Hr; [|done]. simpl. intros [= <- <-].
    destruct (mine_action _ _ _ _ _ Hs Ha) as [Hs1 He]. unfold pushes in *.
    rewrite omap_app. apply Forall_app. split; [done|by eapply IH].
Qed.

(** ** A sample that was queued can be taken *)

(** A step that a thread takes by itself. *)
Definition internal (a : action) : Prop :=
  match a with Work _ | Poll | Notify _ => True | Deliver _ | Spurious _ | Signal => False end.

Section progress.
Context (mine : Z → bool) (n : nat).

Definition can_pop (v : Z) (s : pipe) : Prop :=
  ∃ acts es s', Forall internal acts ∧ run mine acts s = Some (es, s') ∧ pops es = [v].

Lemma can_pop_step v a s e s' :
  internal a → do_action mine a s = Some (e, s') → pops (events e) = [] →
  can_pop v s' → can_pop v s.
Proof.
  intros Ha Hs He (acts & es & s2 & Hacts & Hrun & Hp).
  exists (a :: acts), (events e ++ es), s2. split_and!; [by constructor| |].
  - simpl. rewrite Hs. simpl. by rewrite Hrun.
  - unfold pops in *. by rewrite omap_app, He.
Qed.
Lemma can_pop_now v i s q :
  p_workers s !! i = Some WCheck → p_queue s = v :: q → can_pop v s.
Proof.
  intros Hi Hq. exists [Work i], [Pop i v], (set_worker i (WUnlock v) (set_queue q s)).
  split_and!; [by repeat constructor| |done]. simpl. unfold worker_step, pop_step. by rewrite Hi, Hq.
Qed.

(** A worker on its way to the queue takes the sample. *)
Lemma awake_pop v q i pc s :
  p_workers s !! i = Some pc → pc ≠ WWait → pc ≠ WDone → worker_crit pc = false →
  p_stops s !! i = Some false → p_owner s = None → p_queue s = v :: q → can_pop v s.
Proof.
  intros Hi Hw Hd Hc Hst Ho Hq.
  assert (∀ pc', pc' = WLock ∨ pc' = WWake → can_pop v (set_worker i pc' s)) as Hlock.
  { intros pc' Hpc. pose proof (lookup_lt_Some _ _ _ Hi) as Hl.
    eapply (can_pop_step v (Work i) _ None); [done| |done|].
    - simpl. unfold worker_step, pop_step, lock. simpl. rewrite list_lookup_insert_eq by done.
      rewrite Ho. by destruct Hpc as [-> | ->].
    - eapply (can_pop_now v i); [|exact Hq]. simpl.
      rewrite list_lookup_insert_eq; [done|]. by rewrite length_insert. }
  assert (∀ pc', pc' = WTest → can_pop v (set_worker i pc' s)) as Htest.
  { intros pc' ->. pose proof (lookup_lt_Some _ _ _ Hi) as Hl.
    eapply (can_pop_step v (Work i) _ None); [done| |done|].
    - simpl. unfold worker_step, pop_step. simpl. rewrite list_lookup_insert_eq by done.
      simpl. by rewrite Hst.
    - unfold set_worker. simpl. rewrite list_insert_insert_eq. apply Hlock. by left. }
  assert (set_worker i pc s = s) as Hid.
  { destruct s. unfold set_worker. simpl in *. by rewrite list_insert_id. }
  destruct pc as [| | | | |w|w|]; try done.
  - rewrite <- Hid. by apply Htest.
  - rewrite <- Hid. apply Hlock. by left.
  - rewrite <- Hid. apply Hlock. by right.
  - eapply (can_pop_step v (Work i) _ None); [done| |done|by apply Htest].
    simpl. unfold worker_step, pop_step. by rewrite Hi.
Qed.

Lemma free_pop v q s :
  (0 < n)%nat → pipe_inv n s → Forall (λ b, b = false) (p_stops s) →
  p_owner s = None → p_queue s = v :: q → can_pop v s.
Proof.
  intros Hn [Hlen Hls Ho Hwk Hd] Hst Hfree Hq.
  assert (∀ t, holds t s = false) as Hh.
  { intros t. apply not_true_is_false. rewrite <- Ho. by rewrite Hfree. }
  assert (∀ i pc, p_workers s !! i = Some pc → p_stops s !! i = Some false ∧ pc ≠ WDone ∧
    worker_crit pc = false) as Hall.
  { intros i pc Hi. assert (i < length (p_stops s))%nat as [b Hb]%lookup_lt_is_Some.
    { apply lookup_lt_Some in Hi. lia. }
    pose proof (proj1 (Forall_lookup _ _) Hst _ _ Hb) as ->. split_and!; [done| |].
    - intros ->. apply Hd in Hi. congruence.
    - specialize (Hh (Worker i)). simpl in Hh. by rewrite Hi in Hh. }
  assert (∀ i pc, p_workers s !! i = Some pc → pc ≠ WWait → can_pop v s) as Hawake.
  { intros i pc Hi Hw. destruct (Hall i pc Hi) as (? & ? & ?). by eapply awake_pop. }
  destruct (waiting s) eqn:Hwt.
  - destruct Hwk as [Hp|[Hp|(i & pc & Hi & Hpc)]]; [by rewrite Hq| | |by eapply Hawake].
    { specialize (Hh Poller). simpl in Hh. by rewrite Hp in Hh. }
    unfold waiting in Hwt. apply existsb_exists in Hwt as (pc & Hin & ->%bool_decide_eq_true).
    apply list_elem_of_In, list_elem_of_lookup in Hin as [i Hi].
    destruct (Hall i WWait Hi) as (Hsti & _ & _).
    eapply (can_pop_step v (Notify i) _ None); [done| |done|].
    + simpl. rewrite Hp. unfold wake. by rewrite Hi.
    + eapply (awake_pop v q i WWake); try done. simpl.
      rewrite list_lookup_insert_eq; [done|]. by eapply lookup_lt_Some.
  - destruct (lookup_lt_is_Some_2 (p_workers s) 0) as [pc Hpc]; [lia|].
    eapply Hawake; [done|by eapply waiting_false].
Qed.

Lemma queued_pop v q s :
  (0 < n)%nat → pipe_inv n s → Forall (λ b, b = false) (p_stops s) →
  p_queue s = v :: q → can_pop v s.
Proof.
  intros Hn Hi Hst Hq. pose proof Hi as [_ _ Ho _ _].
  destruct (p_owner s) as [t|] eqn:Hown; [|by eapply free_pop].
  pose proof (proj1 (Ho t) eq_refl) as Hh. destruct t as [|i]; simpl in Hh.
  - assert (∀ s1, pipe_inv n s1 → p_poll s1 = PUnlock → p_stops s1 = p_stops s →
      (∃ q1, p_queue s1 = v :: q1) → can_pop v s1) as Hunlock.
    { intros s1 Hi1 Hp1 Hst1 [q1 Hq1].
      assert (poll_step s1 = Some (None, set_poll PNotify (unlock s1))) as Hs1
        by (unfold poll_step, push_step; by rewrite Hp1).
      eapply (can_pop_step v Poll); [done|exact Hs1|done|].
      eapply (free_pop v q1); [done|by eapply polling_inv|simpl; by rewrite Hst1|done|done]. }
    destruct (p_poll s) as [| |w|w| | |] eqn:Hp; try done.
    + assert (poll_step s = Some (Some (Push w), set_poll PUnlock (set_queue (p_queue s ++ [w]) s)))
        as Hs1 by (unfold poll_step, push_step; by rewrite Hp).
      eapply (can_pop_step v Poll); [done|exact Hs1|done|].
      apply Hunlock; [by eapply polling_inv|done|done|]. simpl. rewrite Hq. by eexists.
    + apply Hunlock; [done|done|done|by eexists].
  - destruct (p_workers s !! i) as [pc|] eqn:Hw; [|done]. destruct pc as [| | | | |w|w|]; try done.
    + by eapply can_pop_now.
    + assert (worker_step i s = Some (None, set_worker i (WWork w) (unlock s))) as Hs1
        by (unfold worker_step, pop_step; by rewrite Hw).
      eapply (can_pop_step v (Work i)); [done|exact Hs1|done|].
      eapply (free_pop v q); [done|by eapply work_inv|done|done|done].
Qed.
End progress.

(** ** Stopping *)

(** Nothing is left to do but to wait. *)
Definition asleep (pc : worker_pc) : Prop := pc = WWait ∨ pc = WWake ∨ pc = WCheck.
Record stuck (s : pipe) : Prop := {
  sk_queue : p_queue s = [];
  sk_poll : p_poll s = PDone;
  sk_workers : Forall asleep (p_workers s);
}.

Lemma stuck_action mine a s e s' : stuck s → do_action mine a s = Some (e, s') → stuck s'.
Proof.
  intros [Hq Hp Hw] H. destruct a as [i| |v|i|i|]; simpl in H.
  - unfold worker_step, pop_step, lock, unlock in H.
    destruct (p_workers s !! i) as [pc|] eqn:Hi; [|done].
    pose proof (proj1 (Forall_lookup _ _) Hw _ _ Hi) as [->|[->| ->]]; try done.
    + destruct (p_owner s); simplify_option_eq. split; [done..|]. simpl.
      apply Forall_insert; [done|]. by right; right.
    + rewrite Hq in H. simplify_eq. split; [done..|]. simpl.
      apply Forall_insert; [done|]. by left.
  - unfold poll_step, push_step in H. by rewrite Hp in H.
  - unfold unwind_ctx_handler in H. by rewrite Hp in H.
  - by rewrite Hp in H.
  - unfold wake in H. destruct (p_workers s !! i) as [[]|]; simplify_option_eq.
    split; [done..|]. simpl. apply Forall_insert; [done|]. by right; left.
  - unfold signal_handler, stop in H. repeat case_match; simplify_option_eq; by split.
Qed.

(** The workers go to sleep one after the other. *)
Definition sleeping (k m : nat) : pipe :=
  Pipe [] None PTest (replicate k WWait ++ replicate m WTest) false
    (replicate (k + m) false) 0.

Lemma replicate_snoc {A} (x : A) k l : replicate k x ++ x :: l = replicate (S k) x ++ l.
Proof. induction k; simpl; [done|]. by f_equal. Qed.

Lemma insert_replicate {A} (x y z : A) k l :
  <[k := z]> (replicate k x ++ y :: l) = replicate k x ++ z :: l.
Proof.
  rewrite insert_app_r_alt by (rewrite length_replicate; lia).
  by rewrite length_replicate, Nat.sub_diag.
Qed.

Lemma sleep_one mine k m :
  run mine [Work k; Work k; Work k] (sleeping k (S m)) = Some ([], sleeping (S k) m).
Proof.
  assert (∀ pc l, (replicate k WWait ++ pc :: l) !! k = Some pc) as Hk.
  { intros pc l. rewrite lookup_app_r by (rewrite length_replicate; lia).
    by rewrite length_replicate, Nat.sub_diag. }
  unfold sleeping. cbn [run do_action]. unfold worker_step, pop_step, lock, unlock, set_worker, set_owner.
  assert (replicate (k + S m) false !! k = Some false) as Hf by (apply lookup_replicate; lia).
  cbn [p_workers p_owner p_queue p_poll p_stop_poll p_stops p_signal stopRequested replicate].
  rewrite Hk, Hf. simpl.
  rewrite insert_replicate, Hk. simpl. rewrite insert_replicate, Hk. simpl.
  rewrite insert_replicate, replicate_snoc.
  by rewrite Nat.add_succ_r.
Qed.

Lemma sleep_all mine k m :
  ∃ acts, run mine acts (sleeping k m) = Some ([], sleeping (k + m) 0).
Proof.
  revert k. induction m as [|m IH]; intros k.
  - exists []. by rewrite Nat.add_0_r.
  - destruct (IH (S k)) as [acts Hacts]. exists ([Work k; Work k; Work k] ++ acts).
    rewrite (run_app _ _ _ _ _ _ (sleep_one mine k m)), Hacts. simpl. by rewrite Nat.add_succ_r.
Qed.

Definition stopping (n k m : nat) : pipe :=
  Pipe [] None PTest (replicate n WWait) true (replicate k true ++ replicate m false) (S k).

Lemma stop_all mine n k m :
  run mine (replicate m Signal) (stopping n k m) = Some ([], stopping n (k + m) 0).
Proof.
  revert k. induction m as [|m IH]; intros k; [by rewrite Nat.add_0_r|].
  rewrite Nat.add_succ_r, <- Nat.add_succ_l. specialize (IH (S k)).
  assert (do_action mine Signal (stopping n k (S m)) = Some (None, stopping n (S k) m)) as Hs.
  { simpl. unfold signal_handler, stop, stopping. simpl.
    rewrite lookup_app_r by (rewrite length_replicate; lia).
    rewrite length_replicate, Nat.sub_diag. simpl.
    by rewrite insert_replicate, replicate_snoc. }
  cbn [replicate run]. rewrite Hs. simpl. by rewrite IH.
Qed.

Lemma stop_run mine n :
  ∃ acts s, run mine acts (start n) = Some ([], s) ∧ stuck s ∧ p_stop_poll s = true ∧
    p_stops s = replicate n true ∧ p_workers s = replicate n WWait ∧ p_signal s = S n.
Proof.
  destruct (sleep_all mine 0 n) as [acts Hacts].
  change (sleeping 0 n) with (start n) in Hacts.
  assert (run mine (Signal :: replicate n Signal ++ [Poll]) (sleeping n 0) =
    Some ([], set_poll PDone (stopping n n 0))) as Hstop.
  { assert (do_action mine Signal (sleeping n 0) = Some (None, stopping n 0 n)) as Hs.
    { simpl. unfold stopping, sleeping, signal_handler, stop. simpl.
      by rewrite app_nil_r, Nat.add_0_r. }
    cbn [run]. rewrite Hs. simpl. rewrite (run_app _ _ _ _ _ _ (stop_all mine n 0 n)). done. }
  exists (acts ++ (Signal :: replicate n Signal ++ [Poll])), (set_poll PDone (stopping n n 0)).
  rewrite (run_app _ _ _ _ _ _ Hacts). simpl Nat.add. rewrite Hstop.
  split_and!; try done.
  - split; [done..|]. simpl. apply Forall_replicate. by left.
  - simpl. by rewrite app_nil_r.
Qed.

(** ** The promises *)

(** C38. The queue of the example is a queue, and the workers take turns: in
    every interleaving of the poller, any number of workers, their
    surroundings (samples arriving at any time, waits that end by themselves)
    and the signal handler, the samples taken so far followed by those in the
    queue are the samples pushed, in order, so that none is lost, doubled or
    reordered; all of them are samples of the traced process; and at most one
    thread is in the critical section of the mutex. *)
Theorem pipeline_safe (mine : Z → bool) (n : nat) (acts : list action) (es : list event) (s : pipe) :
  (0 < n)%nat → run mine acts (start n) = Some (es, s) →
  pushes es = pops es ++ p_queue s ∧ Forall (λ v, mine v = true) (pushes es) ∧
  (∀ t t', holds t s = true → holds t' s = true → t = t').
Proof.
  intros Hn Hr. split_and!.
  - by pose proof (fifo_run _ _ _ _ _ Hr).
  - exact (mine_run _ acts (start n) _ _ I Hr).
  - intros t t'. destruct (reach_inv _ _ _ _ _ Hn Hr) as [_ _ Ho _ _]. rewrite <- !Ho. congruence.
Qed.

(** C39. No wake-up is lost: in every reachable state in which a sample is
    queued and the workers have not been asked to stop, the threads can by
    themselves (no new sample, no wait that ends without a notification)
    reach the step that takes the first sample; in particular they are not
    deadlocked. *)
Theorem pipeline_progress (mine : Z → bool) (n : nat) (acts : list action) (es : list event)
    (s : pipe) (v : Z) (q : list Z) :
  (0 < n)%nat → run mine acts (start n) = Some (es, s) →
  Forall (λ b, b = false) (p_stops s) → p_queue s = v :: q →
  ∃ acts' es' s', Forall internal acts' ∧ run mine acts' s = Some (es', s') ∧ pops es' = [v].
Proof. intros Hn Hr Hst Hq. eapply queued_pop; [done|by eapply reach_inv|done..]. Qed.

(** C40. Stopping does not stop the workers: whatever their number, a state can
    be reached in which every stop() of the signal handler has been made and
    the poller has returned, and from which no continuation lets a worker
    leave its loop, for each of them waits for a sample that nobody will push;
    only a wait that ends by itself is a possible step, so that the join() of
    main never returns. *)
Theorem pipeline_stop_hangs (mine : Z → bool) (n : nat) :
  ∃ acts s, run mine acts (start n) = Some ([], s) ∧
    p_stop_poll s = true ∧ p_stops s = replicate n true ∧ p_poll s = PDone ∧
    (∀ a e s', do_action mine a s = Some (e, s') → ∃ i, a = Spurious i) ∧
    (∀ acts' es' s' i, run mine acts' s = Some (es', s') → p_workers s' !! i ≠ Some WDone).
Proof.
  destruct (stop_run mine n) as (acts & s & Hr & Hs & Hsp & Hst & Hw & Hsig).
  exists acts, s. split_and!; [done..|apply Hs| |].
  - intros a e s' Ha. destruct Hs as [Hq Hp _]. destruct a as [i| |v|i|i|]; simpl in Ha.
    + unfold worker_step, pop_step in Ha. rewrite Hw in Ha.
      destruct (replicate n WWait !! i) as [pc|] eqn:Hi; [|done].
      by apply lookup_replicate in Hi as [-> _].
    + unfold poll_step, push_step in Ha. by rewrite Hp in Ha.
    + unfold unwind_ctx_handler in Ha. by rewrite Hp in Ha.
    + by rewrite Hp in Ha.
    + by exists i.
    + unfold signal_handler, stop in Ha. rewrite Hsig, Hst in Ha.
      by rewrite (lookup_ge_None_2 (replicate n true)) in Ha by (by rewrite length_replicate).
  - intros acts' es' s' i Hr' Hd.
    assert (stuck s') as [_ _ Hsl] by (eapply run_inv; [by apply stuck_action|exact Hs|exact Hr']).
    pose proof (proj1 (Forall_lookup _ _) Hsl _ _ Hd) as [?|[?|?]]; done.
Qed.

(** Two workers: the first waits, two samples arrive, one of another process;
    the second takes the one that counts. *)
Definition ex_mine (v : Z) : bool := v <? 100.
Definition ex_arrive : list action :=
  [Work 0; Work 0; Work 0; Poll; Deliver 700; Deliver 7; Poll; Poll; Poll].
Definition ex_take : list action := [Notify 0; Work 1; Work 1; Work 1; Work 1; Work 0; Work 0].
Definition ex_end (acts : list action) : pipe :=
  match run ex_mine acts (start 2) with Some (_, s) => s | None => start 2 end.

Example ex_take_run :
  match run ex_mine (ex_arrive ++ ex_take) (start 2) with
  | Some (es, s) => Some (es, p_queue s, p_workers s)
  | None => None
  end = Some ([Push 7; Pop 1 7], [], [WWait; WWork 7]).
Proof. by vm_compute. Qed.

Lemma pipeline_safe_witness :
  pushes [Push 7; Pop 1 7] = pops [Push 7; Pop 1 7] ++ p_queue (ex_end (ex_arrive ++ ex_take)) ∧
  Forall (λ v, ex_mine v = true) (pushes [Push 7; Pop 1 7]) ∧
  (∀ t t', holds t (ex_end (ex_arrive ++ ex_take)) = true →
     holds t' (ex_end (ex_arrive ++ ex_take)) = true → t = t').
Proof.
  apply (pipeline_safe ex_mine 2 (ex_arrive ++ ex_take)); [lia|by vm_compute].
Defined.

Lemma pipeline_progress_witness :
  ∃ acts es s', Forall internal acts ∧ run ex_mine acts (ex_end ex_arrive) = Some (es, s') ∧
    pops es = [7].
Proof.
  apply (pipeline_progress ex_mine 2 ex_arrive [Push 7] (ex_end ex_arrive) 7 []);
    [lia|by vm_compute|by repeat constructor|by vm_compute].
Defined.
